(* ===== verification/_CoqProject ===== *)
-Q . S2P
Prelude.v
Circuit.v
Text.v
Sse.v
Json.v
ProviderError.v
Scopes.v
Pricing.v
Admission.v
Settlement.v
Backoff.v
GatewayError.v
Provider.v
ToolCall.v
Anthropic.v
OpenAi.v
Native.v
Transport.v
Credentials.v
Dispatch.v
Store.v
Ids.v
Canonical.v
Usage.v
Journal.v
Worker.v
UsageDelivery.v
Accounting.v
Streaming.v
RelayWorld.v
StreamDispatch.v
Auth.v
Batch.v
Lifecycle.v
Api.v
Serve.v
Config.v
CatalogContent.v
Catalog.v
