(* ===== verification/Prelude.v ===== *)
(** * A verification library for axond

    axond ([src/crates/]) is an LLM gateway: an HTTP service that authenticates a
    caller, admits the request under the process's ceilings and the caller's
    namespace, picks a provider target and a credential for the model asked for,
    relays the provider's answer (buffered, passed through, or re-emitted as
    another wire's events), and charges and records what the request used.
    Around that path stand a management surface over a durable store, the
    pipeline that carries usage records to their sinks, the import of model
    prices, and the lifecycle of the process.  This library models those parts as
    executable definitions that read like the code, and proves what each
    promises, under every interleaving and failure the code can meet.

    ** The parts and where they are modelled

    The request path, in the order a request meets it:
    - [Config]: the sections of the configuration file and its whole gate
      ([config.rs]; the schedule, table-name and adapter checks of
      [backends/catalog_refresh.rs], [usage/postgres.rs], [backends/models_dev.rs]).
    - [Scopes]: namespace identifiers and grants, model globs ([namespace.rs],
      [aliases.rs]).
    - [Auth]: key material, snapshot keys, the authentication middleware
      ([principals.rs], [routes/auth.rs], [key_material.rs], [state.rs]).
    - [Serve]: the handlers and [serve] ([routes/mod.rs]), which compose
    - [Admission]: the three ceilings and the bounded queue ([admission.rs]);
    - [Settlement] and [Accounting]: the bounded background work that charges a
      request, and the hold and record a request leaves ([settlement.rs],
      [core_accounting.rs], [routes/accounting.rs]);
    - [Pricing]: usage, rates, charges and which authority prices a request
      ([gateway-core/src/catalog.rs], [provider.rs], [pricing.rs],
      [backends/catalog_price.rs]);
    - [Dispatch] and [StreamDispatch]: the walk over targets and credentials,
      buffered and streamed ([routes/dispatch.rs], the route table of
      [routes/mod.rs]), over [Circuit] ([circuit.rs]), [Credentials]
      ([credentials.rs]), [ProviderError] ([error.rs], [failover.rs] of
      gateway-core) and [Transport] ([gateway-transport/src/lib.rs]);
    - [Streaming], with [RelayWorld]: the relay of an open stream, its bounds, its
      rotation and its settlement ([streaming.rs]);
    - the wires: [Sse] ([stream.rs]), [Provider] (the adapter traits, as classes),
      [Anthropic], [Native] and [ToolCall] ([anthropic.rs], [tool_call.rs]),
      [OpenAi] ([openai.rs]);
    - [GatewayError]: every failure and its HTTP answer ([error.rs]).

    Around it:
    - [Store] and [Api]: the durable store's operations over its tables and the
      management handlers ([store/mod.rs], [store/sqlite.rs], [budget/],
      [api.rs]);
    - [Usage], [UsageDelivery], [Batch], [Journal], [Worker]: the record, its two
      ways off the request path and the worker of the management index
      ([usage/mod.rs]), the batched sinks ([usage/batch.rs]), the durable journal
      ([usage/journal.rs], [journal/oracle.rs]) and its delivery task
      ([journal/worker.rs]);
    - [CatalogContent]: what an import describes, its identity and the changes
      between two imports ([backends/catalog.rs]); [Catalog]: the holder of the
      catalogue served, the store that retains imports and the refresher
      ([backends/catalog.rs], [catalog_store.rs], [catalog_refresh.rs]);
    - [Ids], [Canonical]: identifiers, canonical bytes and checksums
      ([desired_state/], [usage/identity.rs]);
    - [Backoff] ([backoff.rs]); [Lifecycle]: admission guard, drain and shutdown
      ([shutdown.rs], [main.rs]).

    This file holds the result monad, fixed-width arithmetic, sums over maps and
    the automation the rest shares; [Text] holds the parts of Rust's string
    library the sources use, [Json] the interface to serde_json.

    ** How code became definitions

    A function is a Rocq function with the source's guards in the source's order;
    [Result] is [result], with [x ← m; k] for the [?] operator.  Integers are [Z]
    with their width written where the code saturates, checks or wraps; text is
    its UTF-8 bytes; a map is a [gmap], or a list where its order is observable.
    A component that threads state through calls that can fail has a small monad
    of its own ([Store.M], [Worker.M]).  A component that runs concurrently is a
    step machine whose step is one atomic action of the code — a mutex section, an
    atomic update, a send, the end of a wait — and its theorems hold of every
    sequence of steps ([Admission], [Settlement], [Batch], [UsageDelivery],
    [Lifecycle], [Catalog]); [Worker] instead gives every await to an environment
    that may run others, fail, lose an answer or drop the pass.

    ** What the theorems show

    - A request is accounted for exactly once whatever becomes of it: the serving
      path hands over one settlement, the relay settles once under errors, bounds
      and hang-ups, the store's spend is what was charged, and a refused request
      leaves nothing behind ([Serve], [Accounting], [Streaming], [Store]).
    - What is relayed is what was sent: pass-through is faithful, a complete
      answer is relayed whole, re-emission preserves content under its bounds, the
      incremental decoders refine their one-shot definitions, a stream bounded in
      time ends even when its upstream never does, and a stream that has spoken is
      not reopened ([Streaming], [Anthropic], [Sse],
      [Native]).
    - Isolation and authority: authentication fails closed, a key acts only in
      its namespaces, a namespace's requests use only its credentials and are
      priced by the authority that owns them ([Auth], [Serve], [Credentials]).
    - Ceilings hold and capacity comes back in every interleaving ([Admission],
      [Settlement], [Circuit]).
    - Operations of the store are atomic and the management surface refines an
      abstract specification, answers only documented statuses and pages
      completely ([Store], [Api]).
    - No usage is lost silently: journal, worker, batches, index and recording
      each conserve what they accept, keep order, and count what they give up; an
      outage condemns no event and a poisoned one is isolated ([Journal],
      [Worker], [Batch], [UsageDelivery]).
    - The catalogue served is always one the store retains, a refused import
      disturbs nothing and a restart resumes ([Catalog]).
    - A configuration loads exactly when it is sound, and what loads is what the
      components ask for ([Config]).
    - Requests the process was dropped from end, and a shutdown stays within its
      budget ([Lifecycle]).

    ** Interfaces

    What is not this repository's code is a parameter: serde_json ([Json.SerdeJson]
    with its laws and one implementation), the encoding of signed thinking
    ([Anthropic.ThinkingCodec]), the network and the clock ([Transport]), whether a
    wait outlasts its deadline, tokio's semaphore, the SQL engine's failures and
    time zones ([Store]), the operating system's random bytes, file reads, HTTP
    headers and extractors, SHA-256, the URL parser and the extraction of the
    configuration file, and the reader of the models.dev document
    ([Catalog.CatalogDocuments]).  Inside the repository [Provider.ProviderAdapter]
    is what dispatch asks of an adapter and [UsageDelivery.UsageJournal] what
    recording asks of a journal; both are discharged by their implementations.

    ** Fuel and bounds

    Scans of text take one round per byte, which is enough because each round
    consumes one ([Text], [Canonical.chars], [Config.ceil_char_boundary]); the SSE
    drain has the buffer's length and one more round; an upstream of [Streaming] need
    not end: [run] counts the rounds a caller reads, and a bounded relay is proved
    to end after some number of them, every [next_chunk] on the way returning;
    [Api.walk] reports whether it was told that there are no more pages, and is,
    with more pages than there are namespaces; the worker's halving has the batch's length, proved
    enough, and its drain ends within the fuel of its budget.  Counters whose
    overflow the code ignores (journal positions, attempts, 64-bit counts of live
    requests and settlement tasks) are unbounded or assumed below their width where
    a theorem says so.

    ** Idealised

    [Lifecycle.shutdown_within_budget] and [UsageDelivery.flush_bounded] take
    timeouts to end when they are due.  A hang-up happens between two rounds of a
    relay, or at one await of a dispatch.  [Batch] ends only when its senders are
    gone.  A store call whose timeout passes in [Catalog] has taken effect by then
    or never does; a whole boot or refresh there is one step, other replicas' calls
    coming before or after it.  A wait for a chunk that is under a deadline is
    found to outlast it, if waits go on long enough ([Streaming.stream_terminates]).
    In [Batch] a waiting flush is given the slot a receive freed when it asks again
    right after it.  Times in [Journal] stay within the clock's range.

    ** Not modelled

    Telemetry (metrics, spans, logs, dashboards); the Postgres implementations of
    the store, the journal and the catalogue store, which are held to the same
    contracts by the repository's tests but whose bodies are SQL; the OTLP, stdout
    and Postgres usage sinks, which wrap a client library; the reader of the
    models.dev document; the runtime glue that starts the catalogue and discovery
    tasks; the provider model-list poll; the seeding of the store from
    configuration and its schema migrations; the router's construction and the
    listing handlers of [routes/mod.rs]; the CLI; the fuzzing seam and the test
    fakes; deployment files, website and client examples. *)

From Stdlib Require Export ZArith Lia Ascii.
From stdpp Require Export base tactics numbers list gmap fin_maps strings option sorting.

#[global] Open Scope Z_scope.

(** ** Results

    Rust's [Result<T, E>], with the error type first so that [result E] is a
    monad and stdpp's [x ← m; k] notation reads like the [?] operator. *)

Inductive result (E A : Type) : Type :=
| Ok (value : A)
| Err (error : E).
Arguments Ok {E A} _.
Arguments Err {E A} _.

#[export] Instance result_ret E : MRet (result E) := λ A a, Ok a.
#[export] Instance result_bind E : MBind (result E) := λ A B k m,
  match m with Ok a => k a | Err e => Err e end.
#[export] Instance result_fmap E : FMap (result E) := λ A B f m,
  match m with Ok a => Ok (f a) | Err e => Err e end.

#[export] Instance result_eq_dec E A `{EqDecision E, EqDecision A} :
  EqDecision (result E A).
Proof. solve_decision. Defined.

Definition is_ok {E A} (r : result E A) : bool :=
  match r with Ok _ => true | Err _ => false end.

Definition ok_or {E A} (o : option A) (e : E) : result E A :=
  match o with Some a => Ok a | None => Err e end.

Definition map_err {E F A} (f : E → F) (r : result E A) : result F A :=
  match r with Ok a => Ok a | Err e => Err (f e) end.

(** ** Machine integers

    An unsigned or signed integer of the source is a [Z]; the definitions below
    write out the arithmetic the source asks for. *)

Definition U8_MAX : Z := 2 ^ 8 - 1.
Definition U32_MAX : Z := 2 ^ 32 - 1.
Definition U64_MAX : Z := 2 ^ 64 - 1.
Definition I64_MAX : Z := 2 ^ 63 - 1.
Definition U128_MAX : Z := 2 ^ 128 - 1.

Definition saturating_add (max a b : Z) : Z := Z.min max (a + b).
Definition saturating_sub (a b : Z) : Z := Z.max 0 (a - b).
Definition saturating_mul (max a b : Z) : Z := Z.min max (a * b).
Definition checked_sub (a b : Z) : option Z := if b <=? a then Some (a - b) else None.
Definition checked_mul (max a b : Z) : option Z :=
  if a * b <=? max then Some (a * b) else None.

Definition in_width (max z : Z) : Prop := 0 ≤ z ≤ max.
Abbreviation is_u32 := (in_width U32_MAX).
Abbreviation is_u64 := (in_width U64_MAX).

(** ** Time

    [std::time::Duration] is a number of nanoseconds between zero and
    [u64::MAX] seconds plus 999,999,999 nanoseconds; an [Instant] is a reading
    of one clock in nanoseconds. *)

Definition NANOS_PER_SEC : Z := 1000000000.
Definition DURATION_MAX : Z := U64_MAX * NANOS_PER_SEC + 999999999.

(** [Instant::saturating_duration_since]: zero when the clock reads earlier. *)
Definition saturating_duration_since (now started : Z) : Z := Z.max 0 (now - started).

(** ** Proof automation *)

Create HintDb axond discriminated.
#[export] Hint Constants Opaque : axond.

Ltac unfold_width :=
  unfold in_width, saturating_add, saturating_sub, saturating_mul,
    saturating_duration_since, DURATION_MAX, NANOS_PER_SEC,
    U8_MAX, U32_MAX, U64_MAX, I64_MAX, U128_MAX in *.

(** Arithmetic with the width constants unfolded. *)
Ltac width_lia := unfold_width; lia.

(** Split the first match or conditional of the goal, keeping the equation. *)
Ltac split_match := case_match.

(** Boolean comparisons of hypotheses as propositions. *)
Ltac reflect_bools :=
  repeat match goal with
  | H : (_ && _) = true |- _ => apply andb_prop in H as [??]
  | H : (_ || _) = false |- _ => apply orb_false_elim in H as [??]
  | H : negb _ = true |- _ => apply negb_true_iff in H
  | H : negb _ = false |- _ => apply negb_false_iff in H
  | H : (_ <=? _) = true |- _ => apply Z.leb_le in H
  | H : (_ <=? _) = false |- _ => apply Z.leb_gt in H
  | H : (_ <? _) = true |- _ => apply Z.ltb_lt in H
  | H : (_ <? _) = false |- _ => apply Z.ltb_ge in H
  | H : (_ =? _) = true |- _ => apply Z.eqb_eq in H
  | H : (_ =? _) = false |- _ => apply Z.eqb_neq in H
  | H : bool_decide _ = true |- _ => apply bool_decide_eq_true in H
  | H : bool_decide _ = false |- _ => apply bool_decide_eq_false in H
  end.

(** ** Shared arithmetic lemmas *)

Lemma saturating_add_le max a b : saturating_add max a b ≤ max.
Proof. width_lia. Qed.

Lemma saturating_add_exact max a b :
  a + b ≤ max → saturating_add max a b = a + b.
Proof. width_lia. Qed.

Lemma saturating_sub_nonneg a b : 0 ≤ saturating_sub a b.
Proof. width_lia. Qed.

#[export] Hint Resolve saturating_add_le saturating_sub_nonneg : axond.

(** ** Shared list lemmas *)

Lemma omap_cons {A B} (f : A → option B) x (l : list A) :
  omap f (x :: l) = match f x with Some y => y :: omap f l | None => omap f l end.
Proof. done. Qed.

Lemma forallb_true {A} (f : A → bool) (l : list A) :
  forallb f l = true ↔ Forall (λ x, f x = true) l.
Proof.
  induction l as [|x l IH]; simpl; [split; [by constructor|done]|].
  by rewrite andb_true_iff, list.Forall_cons, IH.
Qed.

(** Membership in a list written out. *)
Ltac in_list := repeat first [apply list_elem_of_here|apply list_elem_of_further].

Lemma filter_all {A} (P : A → Prop) `{!∀ x, Decision (P x)} (l : list A) :
  (∀ x, x ∈ l → P x) → filter P l = l.
Proof.
  induction l as [|x l IH]; intros Hl; [done|]. rewrite filter_cons_True by apply Hl, list_elem_of_here.
  f_equal. apply IH. intros y Hy. by apply Hl, list_elem_of_further.
Qed.

(** Dropping elements keeps a list sorted. *)
Lemma StronglySorted_fmap_filter {A B} (R : relation B) (f : A → B) (P : A → Prop)
    `{!∀ x, Decision (P x)} (l : list A) :
  StronglySorted R (f <$> l) → StronglySorted R (f <$> filter P l).
Proof.
  induction l as [|x l IH]; [done|]. csimpl. intros Hs. inversion Hs as [|? ? Hs' Hx]; subst.
  destruct (decide (P x)).
  - rewrite filter_cons_True by done. csimpl. constructor; [by apply IH|].
    rewrite Forall_fmap in Hx |- *. apply list.Forall_forall. intros y Hy.
    apply list_elem_of_filter in Hy as [_ Hy]. exact (proj1 (list.Forall_forall _ _) Hx y Hy).
  - rewrite filter_cons_False by done. by apply IH.
Qed.

(** ** Sums over maps

    [msum f m] adds [f] over the values of a map: the number of tasks that hold a
    permit, the amount a ledger has recorded. *)

Definition msum {K A} `{Countable K} (f : A → Z) (m : gmap K A) : Z :=
  map_fold (λ _ a acc, f a + acc) 0 m.

Section Msum.
Context {K A : Type} `{Countable K}.
Implicit Types (f g : A → Z) (m : gmap K A).

Lemma msum_empty f : msum f (∅ : gmap K A) = 0.
Proof. unfold msum. apply map_fold_empty. Qed.

Lemma msum_insert f m k a : m !! k = None → msum f (<[k:=a]> m) = f a + msum f m.
Proof. intros. unfold msum. rewrite map_fold_insert_L; [done| |done]. intros. lia. Qed.

Lemma msum_delete f m k a : m !! k = Some a → msum f m = f a + msum f (delete k m).
Proof. intros. unfold msum. rewrite (map_fold_delete_L _ _ k a m); [done| |done]. intros. lia. Qed.

Lemma msum_update f m k a a' :
  m !! k = Some a → msum f (<[k:=a']> m) = msum f m - f a + f a'.
Proof.
  intros Hk. rewrite <-insert_delete_eq, msum_insert by apply lookup_delete_eq.
  rewrite (msum_delete f m k a Hk). lia.
Qed.

Lemma msum_le f g m :
  (∀ k a, m !! k = Some a → f a ≤ g a) → msum f m ≤ msum g m.
Proof.
  induction m as [|k a m Hk IH] using map_ind; intros Hle; [by rewrite !msum_empty|].
  rewrite !msum_insert by done.
  assert (f a ≤ g a) by (apply (Hle k); apply lookup_insert_eq).
  assert (msum f m ≤ msum g m); [|lia].
  apply IH. intros k' a' Hk'. apply (Hle k'). by rewrite lookup_insert_ne by congruence.
Qed.

Lemma msum_zero f m : (∀ k a, m !! k = Some a → f a = 0) → msum f m = 0.
Proof.
  induction m as [|k a m Hk IH] using map_ind; intros Hz; [by rewrite msum_empty|].
  rewrite msum_insert, (Hz k a) by (done || apply lookup_insert_eq). apply IH.
  intros k' a' Hk'. apply (Hz k'). by rewrite lookup_insert_ne by congruence.
Qed.

Lemma msum_nonneg f m : (∀ a, 0 ≤ f a) → 0 ≤ msum f m.
Proof.
  intros Hf. rewrite <-(msum_zero (λ _, 0) m) by done. apply msum_le. auto.
Qed.

(** A positive sum has a positive term. *)
Lemma msum_pos f m : 0 < msum f m → ∃ k a, m !! k = Some a ∧ 0 < f a.
Proof.
  induction m as [|k a m Hk IH] using map_ind; [rewrite msum_empty; lia|].
  rewrite msum_insert by done. intros Hpos. destruct (decide (0 < f a)).
  - exists k, a. by rewrite lookup_insert_eq.
  - destruct IH as (k' & a' & Hk' & ?); [lia|]. exists k', a'. by rewrite lookup_insert_ne by congruence.
Qed.

Lemma msum_le_size f m : (∀ a, 0 ≤ f a ≤ 1) → msum f m ≤ Z.of_nat (size m).
Proof.
  intros Hf. induction m as [|k a m Hk IH] using map_ind; [by rewrite msum_empty, map_size_empty|].
  rewrite msum_insert, map_size_insert_None by done. specialize (Hf a). lia.
Qed.

(** One value is part of the sum, and of the difference of two sums. *)
Lemma msum_elem_le f m k a : (∀ a, 0 ≤ f a) → m !! k = Some a → f a ≤ msum f m.
Proof.
  intros Hf Hk. rewrite (msum_delete f m k a Hk). pose proof (msum_nonneg f (delete k m) Hf). lia.
Qed.

Lemma msum_elem_le_in f m k a :
  (∀ k a, m !! k = Some a → 0 ≤ f a) → m !! k = Some a → f a ≤ msum f m.
Proof.
  intros Hf Hk. rewrite (msum_delete f m k a Hk).
  assert (0 ≤ msum f (delete k m)); [|lia].
  rewrite <-(msum_zero (λ _, 0) (delete k m)) by done. apply msum_le.
  intros k' a' Hk'. apply lookup_delete_Some in Hk' as [_ Hk']. by apply (Hf k').
Qed.

Lemma msum_gap f g m k a :
  (∀ a, f a ≤ g a) → m !! k = Some a → msum f m + (g a - f a) ≤ msum g m.
Proof.
  intros Hle Hk. rewrite (msum_delete f m k a Hk), (msum_delete g m k a Hk).
  pose proof (msum_le f g (delete k m) ltac:(auto)). lia.
Qed.

End Msum.

(** A test that holds of every value, by computation. *)
Lemma map_values_all {K A} `{Countable K} (f : A → bool) (m : gmap K A) :
  forallb f (map_to_list m).*2 = true → ∀ k a, m !! k = Some a → f a = true.
Proof.
  intros Hall k a Hk. apply forallb_true in Hall. apply (proj1 (list.Forall_forall _ _) Hall a).
  apply elem_of_map_to_list in Hk. by apply (list_elem_of_fmap_2 snd) in Hk.
Qed.

(** ** Ordered maps

    Rust's [BTreeMap] is a [gmap] whose iteration is by increasing key. *)

Section BTreeMap.
Context {K A : Type} `{Countable K} (R : relation K) `{!RelDecision R}.

Definition entry_le (x y : K * A) : Prop := R x.1 y.1.
#[local] Instance entry_le_dec : RelDecision entry_le.
Proof. intros x y. unfold entry_le. apply _. Defined.

Definition into_iter (m : gmap K A) : list (K * A) := merge_sort entry_le (map_to_list m).

Lemma into_iter_elem (m : gmap K A) k a : (k, a) ∈ into_iter m ↔ m !! k = Some a.
Proof. unfold into_iter. by rewrite merge_sort_Permutation, elem_of_map_to_list. Qed.

Lemma into_iter_sorted `{!Transitive R, !Total R} (m : gmap K A) :
  StronglySorted R (into_iter m).*1.
Proof.
  assert (StronglySorted entry_le (into_iter m)) as Hs.
  { apply @StronglySorted_merge_sort; [|intros x y; apply (total R)].
    intros x y z. unfold entry_le. apply (transitivity (R := R)). }
  induction Hs as [|x l _ IH Hx]; csimpl; constructor; [done|].
  apply Forall_fmap. apply (Forall_impl _ _ _ Hx). by intros.
Qed.

Lemma into_iter_NoDup (m : gmap K A) : NoDup (into_iter m).*1.
Proof.
  unfold into_iter. rewrite merge_sort_Permutation. apply NoDup_fst_map_to_list.
Qed.

End BTreeMap.

(** Lexicographic order on pairs of machine integers. *)
Definition pair_le (x y : Z * Z) : Prop := x.1 < y.1 ∨ x.1 = y.1 ∧ x.2 ≤ y.2.
#[export] Instance pair_le_dec : RelDecision pair_le.
Proof. intros x y. unfold pair_le. apply _. Defined.
#[export] Instance pair_le_trans : Transitive pair_le.
Proof. intros [a a'] [c c'] [e e']; unfold pair_le; simpl. lia. Qed.
#[export] Instance pair_le_total : Total pair_le.
Proof. intros [a a'] [c c']; unfold pair_le; simpl. lia. Qed.
