(* ===== verification/Circuit.v ===== *)
(** * The per-target circuit breaker ([crates/gateway-core/src/circuit.rs]).

    A breaker maps a provider target to a [Circuit]: closed with a count of
    consecutive failures, open since an instant, or half-open with a probe in
    flight since an instant.  The source keeps the map under a mutex and takes
    it for the whole of each method, so one method is one atomic step of the
    map; the clock reading is the [now] argument the source's [_at] methods
    take. *)

From S2P Require Import Prelude.

Module Circuit.

Inductive CircuitState := Closed | Open | HalfOpen.

Inductive CircuitDecision :=
| Allow (probe : bool)
| Skip.

#[export] Instance CircuitState_eq_dec : EqDecision CircuitState.
Proof. solve_decision. Defined.
#[export] Instance CircuitDecision_eq_dec : EqDecision CircuitDecision.
Proof. solve_decision. Defined.

Record Circuit := mkCircuit {
  c_state : CircuitState;
  c_failures : Z;
  c_phase_started : option Z;
}.

Definition Circuit_default : Circuit :=
  {| c_state := Closed; c_failures := 0; c_phase_started := None |}.

Record CircuitBreaker := mkBreaker {
  threshold : Z;
  cooldown : Z;
  circuits : gmap string Circuit;
}.

Definition new (thr cool : Z) : CircuitBreaker :=
  {| threshold := Z.max thr 1; cooldown := cool; circuits := ∅ |}.

(** [circuits.entry(provider).or_default()]. *)
Definition entry (b : CircuitBreaker) (provider : string) : Circuit :=
  default Circuit_default (circuits b !! provider).

Definition store (b : CircuitBreaker) (provider : string) (c : Circuit) : CircuitBreaker :=
  {| threshold := threshold b; cooldown := cooldown b;
     circuits := <[provider := c]> (circuits b) |}.

Definition elapsed (started : option Z) (now : Z) : Z :=
  match started with
  | None => DURATION_MAX
  | Some started => saturating_duration_since now started
  end.

Definition record_success (b : CircuitBreaker) (provider : string) : CircuitBreaker :=
  store b provider {| c_state := Closed; c_failures := 0; c_phase_started := None |}.

Definition allow_at (b : CircuitBreaker) (provider : string) (now : Z)
    : CircuitDecision * CircuitBreaker :=
  let c := entry b provider in
  match c_state c with
  | Closed => (Allow false, store b provider c)
  | Open =>
      if cooldown b <=? elapsed (c_phase_started c) now
      then (Allow true,
            store b provider {| c_state := HalfOpen; c_failures := c_failures c;
                                c_phase_started := Some now |})
      else (Skip, store b provider c)
  | HalfOpen =>
      if cooldown b <=? elapsed (c_phase_started c) now
      then (Allow true,
            store b provider {| c_state := HalfOpen; c_failures := c_failures c;
                                c_phase_started := Some now |})
      else (Skip, store b provider c)
  end.

Definition record_failure_at (b : CircuitBreaker) (provider : string) (now : Z)
    : CircuitBreaker :=
  let c := entry b provider in
  match c_state c with
  | Closed =>
      let failures := saturating_add U32_MAX (c_failures c) 1 in
      if threshold b <=? failures
      then store b provider {| c_state := Open; c_failures := failures;
                               c_phase_started := Some now |}
      else store b provider {| c_state := Closed; c_failures := failures;
                               c_phase_started := c_phase_started c |}
  | HalfOpen =>
      store b provider {| c_state := Open; c_failures := threshold b;
                          c_phase_started := Some now |}
  | Open => store b provider c
  end.

Definition state (b : CircuitBreaker) (provider : string) : CircuitState :=
  match circuits b !! provider with None => Closed | Some c => c_state c end.

(** The source collects a [HashMap] in its unspecified iteration order. *)
Definition snapshot (b : CircuitBreaker) : list (string * CircuitState) :=
  prod_map id c_state <$> map_to_list (circuits b).

Definition observed_phase (b : CircuitBreaker) (now : Z) (c : Circuit) : CircuitState :=
  match c_state c with
  | Closed => Closed
  | held => if cooldown b <=? elapsed (c_phase_started c) now then HalfOpen else held
  end.

Definition observed_at (b : CircuitBreaker) (now : Z) : list (string * CircuitState) :=
  prod_map id (observed_phase b now) <$> map_to_list (circuits b).

(** ** The breaker as a state machine *)

Inductive op :=
| OpAllow (provider : string) (now : Z)
| OpFailure (provider : string) (now : Z)
| OpSuccess (provider : string).

Definition apply_op (b : CircuitBreaker) (o : op) : CircuitBreaker :=
  match o with
  | OpAllow p now => (allow_at b p now).2
  | OpFailure p now => record_failure_at b p now
  | OpSuccess p => record_success b p
  end.

Definition run (b : CircuitBreaker) (ops : list op) : CircuitBreaker :=
  foldl apply_op b ops.

Definition op_provider (o : op) : string :=
  match o with OpAllow p _ | OpFailure p _ | OpSuccess p => p end.

(** ** Invariant *)

Definition circuit_wf (thr : Z) (c : Circuit) : Prop :=
  match c_state c with
  | Closed => c_phase_started c = None ∧ 0 ≤ c_failures c < thr
  | Open | HalfOpen => is_Some (c_phase_started c) ∧ c_failures c = thr
  end.

Definition breaker_wf (b : CircuitBreaker) : Prop :=
  1 ≤ threshold b ≤ U32_MAX ∧
  map_Forall (λ _ c, circuit_wf (threshold b) c) (circuits b).

Lemma entry_store_eq b p c : entry (store b p c) p = c.
Proof. unfold entry, store; simpl. by rewrite lookup_insert_eq. Qed.

Lemma entry_store_ne b p q c : p ≠ q → entry (store b p c) q = entry b q.
Proof. intros H. unfold entry, store; simpl. by rewrite lookup_insert_ne. Qed.

Lemma entry_wf b p : breaker_wf b → circuit_wf (threshold b) (entry b p).
Proof.
  intros [Ht H]. unfold entry. destruct (circuits b !! p) eqn:E; simpl.
  - exact (H _ _ E).
  - split; [done|simpl; lia].
Qed.

Lemma store_wf b p c :
  breaker_wf b → circuit_wf (threshold b) c → breaker_wf (store b p c).
Proof.
  intros [Ht H] Hc. split; [done|]. simpl. by apply map_Forall_insert_2.
Qed.

Lemma state_entry b p : state b p = c_state (entry b p).
Proof. unfold state, entry. by destruct (circuits b !! p). Qed.

#[export] Hint Resolve entry_wf store_wf : axond.

Lemma allow_at_wf b p now : breaker_wf b → breaker_wf (allow_at b p now).2.
Proof.
  intros H. pose proof (entry_wf b p H) as Hc. unfold allow_at, circuit_wf in *.
  destruct (entry b p) as [[] f ph]; simpl in *; repeat split_match; simpl;
    apply store_wf; auto; unfold circuit_wf; simpl; naive_solver.
Qed.

Lemma record_failure_at_wf b p now : breaker_wf b → breaker_wf (record_failure_at b p now).
Proof.
  intros H. pose proof (entry_wf b p H) as Hc. pose proof (proj1 H) as Ht.
  unfold record_failure_at, circuit_wf in *.
  destruct (entry b p) as [[] f ph]; simpl in *; repeat split_match; reflect_bools;
    apply store_wf; auto; unfold circuit_wf; simpl; try naive_solver.
  all: split; [naive_solver|width_lia].
Qed.

Lemma record_success_wf b p : breaker_wf b → breaker_wf (record_success b p).
Proof.
  intros H. apply store_wf; [done|]. destruct H as [Ht _]. split; [done|simpl; lia].
Qed.

Lemma apply_op_wf b o : breaker_wf b → breaker_wf (apply_op b o).
Proof.
  destruct o; simpl; auto using allow_at_wf, record_failure_at_wf, record_success_wf.
Qed.

Lemma run_wf b ops : breaker_wf b → breaker_wf (run b ops).
Proof. revert b. induction ops as [|o ops IH]; simpl; intros; auto using apply_op_wf. Qed.

Lemma breaker_new_wf thr cool : thr ≤ U32_MAX → breaker_wf (new thr cool).
Proof. split; simpl; [width_lia|apply map_Forall_empty]. Qed.

Lemma threshold_run b ops : threshold (run b ops) = threshold b.
Proof.
  revert b. induction ops as [|o ops IH]; intros b; simpl; [done|]. rewrite IH.
  destruct o; simpl; unfold allow_at, record_failure_at; cbv zeta; repeat split_match; done.
Qed.

(** ** Operations on one target leave the others alone *)

Lemma entry_allow_ne b p q now : p ≠ q → entry (allow_at b p now).2 q = entry b q.
Proof. intros. unfold allow_at; cbv zeta. repeat split_match; simpl; by apply entry_store_ne. Qed.

Lemma entry_failure_ne b p q now : p ≠ q → entry (record_failure_at b p now) q = entry b q.
Proof. intros. unfold record_failure_at; cbv zeta. repeat split_match; by apply entry_store_ne. Qed.

Lemma entry_apply_ne b o q : op_provider o ≠ q → entry (apply_op b o) q = entry b q.
Proof.
  destruct o; simpl; intros;
    [by apply entry_allow_ne|by apply entry_failure_ne|by apply entry_store_ne].
Qed.

Lemma cooldown_apply b o : cooldown (apply_op b o) = cooldown b.
Proof. destruct o; simpl; unfold allow_at, record_failure_at; cbv zeta; repeat split_match; done. Qed.

(** ** One probe per cooldown window *)

(** What may happen to [p] while a probe handed out at [t1] is unresolved: any
    request or failure that is not earlier, and no success. *)
Definition quiet (p : string) (t1 : Z) (o : op) : Prop :=
  match o with
  | OpAllow q t | OpFailure q t => q = p → t1 ≤ t
  | OpSuccess q => q ≠ p
  end.

(** The target is gated since [t1] or later. *)
Definition gated (t1 : Z) (c : Circuit) : Prop :=
  c_state c ≠ Closed ∧ ∃ s, c_phase_started c = Some s ∧ t1 ≤ s.

Lemma gated_apply b p t1 o :
  quiet p t1 o → gated t1 (entry b p) → gated t1 (entry (apply_op b o) p).
Proof.
  intros Hq Hg. destruct (decide (op_provider o = p)) as [<-|Hne];
    [|by rewrite entry_apply_ne].
  destruct o as [q now|q now|q]; simpl in *; [| |done].
  all: specialize (Hq eq_refl); destruct Hg as (Hs & s & Hph & Hle).
  - unfold allow_at; cbv zeta. destruct (c_state (entry b q)) eqn:E; [done|..];
      split_match; simpl; rewrite entry_store_eq; split; simpl; eauto; congruence.
  - unfold record_failure_at; cbv zeta. destruct (c_state (entry b q)) eqn:E; [done|..];
      rewrite entry_store_eq; split; simpl; eauto; congruence.
Qed.

Lemma gated_run b p t1 ops :
  Forall (quiet p t1) ops → gated t1 (entry b p) → gated t1 (entry (run b ops) p).
Proof.
  intros Hops. revert b. induction Hops as [|o ops Ho _ IH]; simpl; intros b Hg; [done|].
  apply IH. by apply gated_apply.
Qed.

Lemma gated_skips b p t1 t :
  gated t1 (entry b p) → t1 ≤ t < t1 + cooldown b → (allow_at b p t).1 = Skip.
Proof.
  intros (Hs & s & Hph & Hle) Ht. unfold allow_at; cbv zeta. rewrite Hph. simpl.
  assert (cooldown b <=? saturating_duration_since t s = false) as ->
    by (apply Z.leb_gt; width_lia).
  by destruct (c_state (entry b p)).
Qed.

Lemma probe_gates b p t1 :
  (allow_at b p t1).1 = Allow true → gated t1 (entry (allow_at b p t1).2 p).
Proof.
  unfold allow_at; cbv zeta. repeat split_match; simpl; intros [=];
    rewrite entry_store_eq; split; simpl; try done; (exists t1; split; [done|lia]).
Qed.

Lemma cooldown_run b ops : cooldown (run b ops) = cooldown b.
Proof.
  revert b. induction ops as [|o ops IH]; intros b; simpl; [done|].
  by rewrite IH, cooldown_apply.
Qed.

(** ** Tripping *)

Lemma failures_closed b p ts :
  c_state (entry b p) = Closed → c_phase_started (entry b p) = None →
  0 ≤ c_failures (entry b p) →
  c_failures (entry b p) + Z.of_nat (length ts) < threshold b → threshold b ≤ U32_MAX →
  entry (run b (OpFailure p <$> ts)) p =
    {| c_state := Closed; c_failures := c_failures (entry b p) + Z.of_nat (length ts);
       c_phase_started := None |}.
Proof.
  revert b. induction ts as [|t ts IH]; intros b Hs Hph H0 Hlt Hmax; simpl.
  - destruct (entry b p); simpl in *; subst. f_equal. lia.
  - simpl in Hlt. unfold record_failure_at; cbv zeta. rewrite Hs.
    rewrite saturating_add_exact by lia.
    destruct (Z.leb_spec (threshold b) (c_failures (entry b p) + 1)); [lia|].
    rewrite IH; rewrite ?entry_store_eq; simpl; [f_equal; lia|done|done|lia|lia|done].
Qed.

Lemma entry_new thr cool p : entry (new thr cool) p = Circuit_default.
Proof. unfold entry; simpl. by rewrite lookup_empty. Qed.

Lemma fresh_failures_closed thr cool p ts :
  Z.of_nat (length ts) < Z.max thr 1 → thr ≤ U32_MAX →
  entry (run (new thr cool) (OpFailure p <$> ts)) p =
    {| c_state := Closed; c_failures := Z.of_nat (length ts); c_phase_started := None |}.
Proof.
  intros. rewrite failures_closed; rewrite ?entry_new; simpl; [done|done|done|lia|lia|].
  width_lia.
Qed.

Lemma open_absorbs_failures b p ts c :
  entry b p = c → c_state c = Open → entry (run b (OpFailure p <$> ts)) p = c.
Proof.
  intros Hc Ho. revert b Hc. induction ts as [|t ts IH]; intros b Hc; simpl; [done|].
  apply IH. unfold record_failure_at; cbv zeta. rewrite Hc, Ho. by rewrite entry_store_eq.
Qed.

Lemma failures_split thr cool p ts1 t :
  Z.of_nat (length ts1) + 1 = Z.max thr 1 → thr ≤ U32_MAX →
  entry (run (new thr cool) (OpFailure p <$> ts1 ++ [t])) p =
    {| c_state := Open; c_failures := Z.max thr 1; c_phase_started := Some t |}.
Proof.
  intros Hlen Hmax. rewrite fmap_app. unfold run. rewrite foldl_app; simpl.
  fold (run (new thr cool) (OpFailure p <$> ts1)).
  unfold record_failure_at; cbv zeta. rewrite fresh_failures_closed by lia. simpl. rewrite threshold_run. simpl.
  rewrite saturating_add_exact by width_lia.
  replace (Z.max thr 1 <=? _) with true by (symmetry; apply Z.leb_le; lia).
  rewrite entry_store_eq. f_equal. lia.
Qed.

(** ** Properties *)

(** C40: whatever sequence of admissions, failures and successes a breaker built
    by [CircuitBreaker::new] goes through, every circuit stays well formed: a
    closed circuit has no phase start and fewer failures than the threshold, an
    open or half-open one has a phase start and exactly the threshold. *)
Theorem breaker_invariant (thr cool : Z) (ops : list op) :
  thr ≤ U32_MAX → breaker_wf (run (new thr cool) ops).
Proof. intros H. apply run_wf. by apply breaker_new_wf. Qed.

Lemma breaker_invariant_witness :
  breaker_wf (run (new 2 10) [OpFailure "openai" 0; OpFailure "openai" 1; OpAllow "openai" 12]).
Proof. apply breaker_invariant. width_lia. Defined.

(** at most one probe per cooldown window: once a request has been handed
    the half-open probe at [t1], every later request within the cooldown is
    skipped, whatever other requests, failures and other targets do in between,
    until a success closes the circuit. *)
Theorem probe_exclusive (b : CircuitBreaker) (p : string) (t1 t : Z) (ops : list op) :
  (allow_at b p t1).1 = Allow true →
  Forall (quiet p t1) ops →
  t1 ≤ t < t1 + cooldown b →
  (allow_at (run (allow_at b p t1).2 ops) p t).1 = Skip.
Proof.
  intros Ha Hops Ht. apply (gated_skips _ _ t1).
  - by apply gated_run, probe_gates.
  - rewrite cooldown_run. change (allow_at b p t1).2 with (apply_op b (OpAllow p t1)).
    by rewrite cooldown_apply.
Qed.

Lemma probe_exclusive_witness :
  let b := run (new 1 10) [OpFailure "a" 0] in
  (allow_at (run (allow_at b "a" 10).2 [OpFailure "b" 3; OpFailure "a" 11]) "a" 15).1 = Skip.
Proof.
  apply probe_exclusive.
  - vm_compute. reflexivity.
  - repeat constructor; intros [=]; lia.
  - vm_compute. split; congruence.
Defined.

(** consecutive failures trip a fresh circuit exactly at the threshold: it
    stays closed after fewer failures and is open, since the instant of the
    failure that reached the threshold, after that many or more. *)
Theorem trips_at_threshold (thr cool : Z) (p : string) (ts : list Z) :
  thr ≤ U32_MAX →
  let c := entry (run (new thr cool) (OpFailure p <$> ts)) p in
  if Z.of_nat (length ts) <? Z.max thr 1
  then c_state c = Closed ∧ c_failures c = Z.of_nat (length ts)
  else c_state c = Open ∧ c_phase_started c = ts !! Z.to_nat (Z.max thr 1 - 1).
Proof.
  intros Hmax c. destruct (Z.ltb_spec (Z.of_nat (length ts)) (Z.max thr 1)) as [Hlt|Hge].
  - unfold c. by rewrite fresh_failures_closed.
  - assert (Z.to_nat (Z.max thr 1 - 1) < length ts)%nat as Hi by lia.
    apply lookup_lt_is_Some in Hi as [t Ht].
    pose proof (take_drop_middle ts _ t Ht) as Hts.
    assert (length (take (Z.to_nat (Z.max thr 1 - 1)) ts) = Z.to_nat (Z.max thr 1 - 1)) as Hl
      by (rewrite length_take; lia).
    unfold c. rewrite <-Hts at 1 2. rewrite cons_middle, app_assoc, fmap_app.
    unfold run. rewrite foldl_app. fold (run (new thr cool)).
    erewrite open_absorbs_failures; [|apply (failures_split thr cool p _ t)|done];
      [simpl; by rewrite Ht|lia|done].
Qed.

Lemma trips_at_threshold_witness :
  let c := entry (run (new 2 10) (OpFailure "a" <$> [5; 6; 7])) "a" in
  c_state c = Open ∧ c_phase_started c = Some 6.
Proof. apply (trips_at_threshold 2 10 "a" [5; 6; 7]). width_lia. Defined.

(** what [observed] reports agrees with what the next request would get: a
    closed phase admits it, an open phase skips it, and a request that would be
    given the probe is reported half-open — without the report moving the
    breaker. *)
Theorem observed_predicts_allow (b : CircuitBreaker) (p : string) (now : Z) :
  let phase := observed_phase b now (entry b p) in
  (phase = Closed → (allow_at b p now).1 = Allow false) ∧
  (phase = Open → (allow_at b p now).1 = Skip) ∧
  ((allow_at b p now).1 = Allow true → phase = HalfOpen).
Proof.
  simpl. unfold observed_phase, allow_at; cbv zeta.
  destruct (c_state (entry b p)); repeat split_match; simpl; naive_solver.
Qed.

End Circuit.
