(* ===== verification/Text.v ===== *)
(** * Rust text: [&str] and [&[u8]] as byte lists.

    A Rust string is its UTF-8 bytes; the development keeps identifiers and
    whole values as [string] (one [ascii] per byte) and does byte-level work on
    [list ascii].  This file holds the parts of [core::str] the source calls. *)

From S2P Require Import Prelude.

Abbreviation bytes := (list ascii).

Definition b (s : string) : bytes := String.list_ascii_of_string s.
Definition text (bs : bytes) : string := String.string_of_list_ascii bs.

Lemma text_b s : text (b s) = s.
Proof. apply String.string_of_list_ascii_of_string. Qed.

Lemma b_text bs : b (text bs) = bs.
Proof. apply String.list_ascii_of_string_of_list_ascii. Qed.

Lemma b_app s t : b (s +:+ t) = b s ++ b t.
Proof. induction s as [|c s IH]; [done|]. unfold b in *. simpl. by f_equal. Qed.

Definition byte_val (c : ascii) : Z := Z.of_N (N_of_ascii c).
Definition byte_of (z : Z) : ascii := ascii_of_N (Z.to_N z).

Lemma byte_val_range c : 0 ≤ byte_val c < 256.
Proof.
  unfold byte_val. pose proof (N_ascii_bounded c). lia.
Qed.

Lemma byte_of_val c : byte_of (byte_val c) = c.
Proof. unfold byte_of, byte_val. rewrite N2Z.id. apply ascii_N_embedding. Qed.

Lemma byte_val_of z : 0 ≤ z < 256 → byte_val (byte_of z) = z.
Proof.
  intros. unfold byte_of, byte_val. rewrite N_ascii_embedding; lia.
Qed.

Definition LF : ascii := "010".
Definition CR : ascii := "013".

(** ** Prefixes, searching, splitting *)

Fixpoint strip_prefix (prefix s : bytes) : option bytes :=
  match prefix, s with
  | [], _ => Some s
  | p :: prefix, c :: s => if decide (p = c) then strip_prefix prefix s else None
  | _ :: _, [] => None
  end.

Definition starts_with (prefix s : bytes) : bool :=
  match strip_prefix prefix s with Some _ => true | None => false end.

Definition ends_with (suffix s : bytes) : bool := starts_with (reverse suffix) (reverse s).

(** [str::contains] on a byte string. *)
Fixpoint contains (needle s : bytes) : bool :=
  starts_with needle s ||
  match s with [] => false | _ :: s => contains needle s end.

(** [str::split_once] on a one-byte separator. *)
Fixpoint split_once (sep : ascii) (s : bytes) : option (bytes * bytes) :=
  match s with
  | [] => None
  | c :: s =>
      if decide (c = sep) then Some ([], s)
      else '(l, r) ← split_once sep s; Some (c :: l, r)
  end.

(** [str::split_once] on a longer separator. *)
Fixpoint split_once_str (sep s : bytes) : option (bytes * bytes) :=
  match strip_prefix sep s with
  | Some r => Some ([], r)
  | None =>
      match s with
      | [] => None
      | c :: s => '(l, r) ← split_once_str sep s; Some (c :: l, r)
      end
  end.

(** [str::trim_end_matches] on one character. *)
Fixpoint drop_leading (c : ascii) (s : bytes) : bytes :=
  match s with
  | [] => []
  | x :: s' => if decide (x = c) then drop_leading c s' else s
  end.
Definition trim_end_matches (c : ascii) (s : bytes) : bytes := reverse (drop_leading c (reverse s)).

(** [str::lines]: lines end at [\n] or [\r\n]; a final empty line is dropped. *)
Definition strip_cr (line : bytes) : bytes :=
  match reverse line with
  | c :: l => if decide (c = CR) then reverse l else line
  | [] => line
  end.

Fixpoint lines_from (current s : bytes) : list bytes :=
  match s with
  | [] => match current with [] => [] | _ => [current] end
  | c :: s =>
      if decide (c = LF) then strip_cr current :: lines_from [] s
      else lines_from (current ++ [c]) s
  end.

Definition lines (s : bytes) : list bytes := lines_from [] s.

(** [parts.join("\n")]. *)
Fixpoint join (sep : bytes) (parts : list bytes) : bytes :=
  match parts with
  | [] => []
  | [p] => p
  | p :: parts => p ++ sep ++ join sep parts
  end.

(** ** Characters *)

(** A UTF-8 continuation byte, [10xxxxxx]. *)
Definition is_continuation (c : ascii) : bool :=
  (128 <=? byte_val c) && (byte_val c <? 192).

(** [str::is_char_boundary]. *)
Definition is_char_boundary (s : bytes) (i : nat) : bool :=
  if decide (i = 0%nat) then true
  else match s !! i with
       | Some c => negb (is_continuation c)
       | None => bool_decide (i = length s)
       end.

(** The loop [while i > 0 && !s.is_char_boundary(i) { i -= 1 }]. *)
Fixpoint floor_char_boundary (s : bytes) (i : nat) : nat :=
  match i with
  | O => O
  | S j => if is_char_boundary s i then i else floor_char_boundary s j
  end.

Lemma floor_char_boundary_le s i : (floor_char_boundary s i ≤ i)%nat.
Proof. induction i; simpl; [lia|]. case_match; lia. Qed.

Lemma floor_char_boundary_ok s i : is_char_boundary s (floor_char_boundary s i) = true.
Proof. induction i; simpl; [done|]. by case_match. Qed.

Definition is_ascii_digit (c : ascii) : bool := (48 <=? byte_val c) && (byte_val c <=? 57).
Definition is_ascii_lowercase (c : ascii) : bool := (97 <=? byte_val c) && (byte_val c <=? 122).
Definition is_ascii_uppercase (c : ascii) : bool := (65 <=? byte_val c) && (byte_val c <=? 90).
Definition is_ascii_alphanumeric (c : ascii) : bool :=
  is_ascii_digit c || is_ascii_lowercase c || is_ascii_uppercase c.

Definition to_ascii_lowercase (s : bytes) : bytes :=
  map (λ c, if is_ascii_uppercase c then byte_of (byte_val c + 32) else c) s.

(** ** Lossy decoding

    [String::from_utf8_lossy]: well-formed characters are kept, and each maximal
    ill-formed part becomes U+FFFD. *)

Definition REPLACEMENT : bytes := map byte_of [239; 191; 189].

Definition in_range (lo hi : Z) (c : ascii) : bool := (lo <=? byte_val c) && (byte_val c <=? hi).

(** The range of the second byte of a longer character, and how many follow it. *)
Definition lead (c : ascii) : option ((Z * Z) * nat) :=
  let v := byte_val c in
  if (194 <=? v) && (v <=? 223) then Some ((128, 191), 0%nat)
  else if v =? 224 then Some ((160, 191), 1%nat)
  else if v =? 237 then Some ((128, 159), 1%nat)
  else if (225 <=? v) && (v <=? 239) then Some ((128, 191), 1%nat)
  else if v =? 240 then Some ((144, 191), 2%nat)
  else if (241 <=? v) && (v <=? 243) then Some ((128, 191), 2%nat)
  else if v =? 244 then Some ((128, 143), 2%nat)
  else None.

(** Continuation bytes at the head, at most [n]. *)
Fixpoint continuations (n : nat) (s : bytes) : nat :=
  match n, s with
  | S n, c :: s => if in_range 128 191 c then S (continuations n s) else 0%nat
  | _, _ => 0%nat
  end.

(** The length of the first character or ill-formed part, and whether it is a
    character. *)
Definition first_part (c : ascii) (s : bytes) : nat * bool :=
  if byte_val c <? 128 then (1%nat, true)
  else
    match lead c, s with
    | Some ((lo, hi), n), c2 :: s =>
        if in_range lo hi c2 then
          let k := continuations n s in (2 + k, bool_decide (k = n))%nat
        else (1%nat, false)
    | _, _ => (1%nat, false)
    end.

(** Every round consumes at least one byte. *)
Fixpoint lossy_rounds (rounds : nat) (s : bytes) : bytes :=
  match rounds, s with
  | S rounds, c :: s' =>
      let '(n, ok) := first_part c s' in
      (if ok then take n s else REPLACEMENT) ++ lossy_rounds rounds (drop n s)
  | _, _ => []
  end.

Definition from_utf8_lossy (s : bytes) : bytes := lossy_rounds (length s) s.

Example lossy_keeps : from_utf8_lossy (b "é€!") = b "é€!".
Proof. vm_compute. reflexivity. Qed.
Example lossy_replaces : from_utf8_lossy (byte_of 240 :: byte_of 159 :: b "a") = REPLACEMENT ++ b "a".
Proof. vm_compute. reflexivity. Qed.

(** [str::from_utf8]: how much of the front is valid, and whether what follows is
    only an unfinished character ([error_len() == None]). *)
Fixpoint valid_up_to (rounds : nat) (s : bytes) : nat :=
  match rounds, s with
  | S rounds, c :: s' =>
      let '(n, ok) := first_part c s' in if ok then (n + valid_up_to rounds (drop n s))%nat else 0%nat
  | _, _ => 0%nat
  end.

Definition unfinished (s : bytes) : bool :=
  match s with
  | [] => true
  | c :: s' =>
      let '(n, ok) := first_part c s' in
      negb ok && bool_decide (n = length s)
      && match lead c with Some _ => true | None => false end
  end.

Inductive Utf8 := ValidUtf8 | CutShort (valid : nat) | Malformed.

Definition from_utf8 (s : bytes) : Utf8 :=
  let n := valid_up_to (length s) s in
  if bool_decide (n = length s) then ValidUtf8
  else if unfinished (drop n s) then CutShort n else Malformed.

(** Well-formed UTF-8. *)
Inductive utf8 : bytes → Prop :=
| utf8_nil : utf8 []
| utf8_char c s n : first_part c s = (n, true) → utf8 (drop n (c :: s)) → utf8 (c :: s).

Lemma continuations_bounds n s : (continuations n s ≤ n ∧ continuations n s ≤ length s)%nat.
Proof.
  revert s. induction n as [|n IH]; intros [|c s]; simpl; [lia..|].
  destruct (in_range _ _ c); [|lia]. specialize (IH s). lia.
Qed.

Lemma continuations_app n s t : continuations n s = n → continuations n (s ++ t) = n.
Proof.
  revert s. induction n as [|n IH]; intros [|c s]; simpl; try done.
  destruct (in_range _ _ c); [|done]. intros [= H]. by rewrite IH.
Qed.

Lemma continuations_front n s t :
  continuations n (s ++ t) = n → continuations n s = (n `min` length s)%nat.
Proof.
  revert s. induction n as [|n IH]; intros [|c s]; simpl; try done.
  destruct (in_range _ _ c); [|done]. intros [= H]. by rewrite (IH s).
Qed.

Lemma first_part_bounds c s n ok : first_part c s = (n, ok) → (1 ≤ n ≤ S (length s))%nat.
Proof.
  unfold first_part. destruct (byte_val c <? 128); [intros [= <- <-]; lia|].
  destruct (lead c) as [[[lo hi] k]|]; [|intros [= <- <-]; lia].
  destruct s as [|c2 s]; [intros [= <- <-]; simpl; lia|]. destruct (in_range lo hi c2); intros [= <- <-]; simpl; [|lia].
  pose proof (continuations_bounds k s). lia.
Qed.

Lemma first_part_app c s t n : first_part c s = (n, true) → first_part c (s ++ t) = (n, true).
Proof.
  unfold first_part. destruct (byte_val c <? 128); [done|].
  destruct (lead c) as [[[lo hi] k]|]; [|done]. destruct s as [|c2 s]; [done|]. simpl.
  destruct (in_range lo hi c2); [|done]. intros [= <- Hk%bool_decide_eq_true].
  by rewrite (continuations_app _ _ t Hk), Hk, bool_decide_true.
Qed.

(** A character that ends within [s], or one that [s] cuts short. *)
Lemma first_part_front c s t n :
  first_part c (s ++ t) = (n, true) →
  ((n ≤ S (length s))%nat ∧ first_part c s = (n, true)) ∨
  ((S (length s) < n)%nat ∧ first_part c s = (S (length s), false) ∧ is_Some (lead c)).
Proof.
  unfold first_part. destruct (byte_val c <? 128); [intros [= <-]; left; split; [lia|done]|].
  destruct (lead c) as [[[lo hi] k]|]; [|done].
  destruct s as [|c2 s]; simpl.
  - destruct t as [|c2 t]; [done|]. destruct (in_range lo hi c2); [|done]. intros [= <- _].
    right. split_and!; [lia|done|by eexists].
  - destruct (in_range lo hi c2); [|done]. intros [= <- Hk%bool_decide_eq_true].
    apply continuations_front in Hk as Hf. rewrite Hk, Hf.
    destruct (Nat.le_gt_cases k (length s)).
    + left. rewrite Nat.min_l, bool_decide_true by lia. split; [lia|done].
    + right. rewrite Nat.min_r, bool_decide_false by lia. split_and!; [lia|done|by eexists].
Qed.

Lemma utf8_valid s rounds : utf8 s → (length s ≤ rounds)%nat → valid_up_to rounds s = length s.
Proof.
  intros H. revert rounds. induction H as [|c s n Hn H IH]; intros rounds Hr; [by destruct rounds|].
  destruct rounds as [|rounds]; [simpl in Hr; lia|]. cbn [valid_up_to]. rewrite Hn.
  apply first_part_bounds in Hn. rewrite IH; rewrite length_drop; simpl in *; lia.
Qed.

Lemma utf8_lossy s : utf8 s → from_utf8_lossy s = s.
Proof.
  unfold from_utf8_lossy. intros H. assert (length s ≤ length s)%nat as Hr by lia.
  revert Hr. generalize (length s) at 2 3. intros rounds. revert rounds.
  induction H as [|c s n Hn H IH]; intros rounds Hr; [by destruct rounds|].
  destruct rounds as [|rounds]; [simpl in Hr; lia|]. cbn [lossy_rounds]. rewrite Hn.
  apply first_part_bounds in Hn. rewrite IH; [by rewrite take_drop|]. rewrite length_drop. simpl in *. lia.
Qed.

Lemma utf8_take_char c s n m :
  first_part c s = (n, true) → utf8 (take m (drop n (c :: s))) → utf8 (take (n + m) (c :: s)).
Proof.
  intros Hn H. apply first_part_bounds in Hn as Hb. rewrite take_drop_commute in H.
  destruct n as [|n]; [lia|]. cbn [Nat.add take] in *. apply (utf8_char c _ (S n)); [|done].
  rewrite <-(take_drop (n + m) s) in Hn. apply first_part_front in Hn as [[_ ?]|[Hgt _]]; [done|].
  rewrite length_take in Hgt. lia.
Qed.

(** Where the front of a text may be cut: after its whole characters, what is
    left being the beginning of one. *)
Lemma utf8_front s t rounds :
  utf8 (s ++ t) → (length s ≤ rounds)%nat →
  let n := valid_up_to rounds s in
  (n ≤ length s)%nat ∧ utf8 (take n s) ∧ utf8 (drop n s ++ t) ∧ unfinished (drop n s) = true ∧
  (utf8 (drop n s) → n = length s).
Proof.
  intros H. remember (s ++ t) as w eqn:Hw. revert s t Hw rounds.
  induction H as [|c w n Hn H IH]; intros s t Hw rounds Hr; cbv zeta.
  { symmetry in Hw. apply app_eq_nil in Hw as [-> ->]. destruct rounds; simpl; (split_and!; [lia|constructor..|done|done]). }
  destruct s as [|c' s].
  { cbn in Hw. subst t. rewrite drop_nil, take_nil. replace (valid_up_to rounds []) with 0%nat by by destruct rounds.
    split_and!; [lia|constructor| |done|done]. by apply (utf8_char c w n). }
  injection Hw as <- ->. destruct rounds as [|rounds]; [simpl in Hr; lia|].
  destruct (first_part_front c s t n Hn) as [[Hle Hf]|(Hgt & Hf & Hl)].
  - replace (valid_up_to (S rounds) (c :: s)) with (n + valid_up_to rounds (drop n (c :: s)))%nat
      by (cbn [valid_up_to]; by rewrite Hf).
    change (c :: s ++ t) with ((c :: s) ++ t) in *. rewrite drop_app_le in H, IH by (simpl; lia).
    destruct (IH (drop n (c :: s)) t eq_refl rounds) as (Hv & Ht & Hd & Hu & He).
    { apply first_part_bounds in Hf. rewrite length_drop. simpl in *. lia. }
    rewrite length_drop in Hv, He. set (m := valid_up_to rounds _) in *. rewrite drop_drop in *.
    apply first_part_bounds in Hf as Hb. split_and!; [simpl in *; lia|by apply utf8_take_char|done|done|].
    intros Hd'. specialize (He Hd'). simpl in *. lia.
  - replace (valid_up_to (S rounds) (c :: s)) with 0%nat by (cbn [valid_up_to]; by rewrite Hf).
    rewrite drop_0, take_0. split_and!; [lia|constructor| | |].
    + by apply (utf8_char c (s ++ t) n).
    + cbn. rewrite Hf, bool_decide_true by done. by destruct Hl as [l ->].
    + intros Hu. inversion Hu; subst. congruence.
Qed.

(** [str::replace]: leftmost, non-overlapping, for a pattern of at least one byte. *)
Fixpoint replace_rounds (rounds : nat) (pattern marker s : bytes) : bytes :=
  match rounds with
  | O => s
  | S rounds =>
      match strip_prefix pattern s with
      | Some rest => marker ++ replace_rounds rounds pattern marker rest
      | None =>
          match s with
          | [] => []
          | c :: s => c :: replace_rounds rounds pattern marker s
          end
      end
  end.

(** An empty pattern matches at every character boundary. *)
Fixpoint intersperse (marker s : bytes) : bytes :=
  match s with
  | [] => marker
  | c :: s => (if is_continuation c then [c] else marker ++ [c]) ++ intersperse marker s
  end.

Definition replace (pattern marker s : bytes) : bytes :=
  match pattern with [] => intersperse marker s | _ => replace_rounds (length s) pattern marker s end.

(** ** Trimming

    [str::trim] removes the characters with the Unicode property White_Space:
    the listed ones are all of them, by their UTF-8 encodings. *)

Definition whitespace_chars : list (list Z) :=
  [[9]; [10]; [11]; [12]; [13]; [32]; [194; 133]; [194; 160]; [225; 154; 128]]
  ++ map (λ k, [226; 128; 128 + Z.of_nat k]) (seq 0 11)
  ++ [[226; 128; 168]; [226; 128; 169]; [226; 128; 175]; [226; 129; 159]; [227; 128; 128]].

Definition whitespace : list bytes := map (map byte_of) whitespace_chars.

Fixpoint strip_any (prefixes : list bytes) (s : bytes) : option bytes :=
  match prefixes with
  | [] => None
  | p :: prefixes =>
      match strip_prefix p s with Some s => Some s | None => strip_any prefixes s end
  end.

(** Every whitespace character has at least one byte, so as many rounds as the
    text has bytes remove all of them. *)
Fixpoint trim_start_rounds (ws : list bytes) (rounds : nat) (s : bytes) : bytes :=
  match rounds with
  | O => s
  | S rounds =>
      match strip_any ws s with
      | Some s => trim_start_rounds ws rounds s
      | None => s
      end
  end.

Definition trim_start (s : bytes) : bytes := trim_start_rounds whitespace (length s) s.
Definition trim_end (s : bytes) : bytes :=
  reverse (trim_start_rounds (map reverse whitespace) (length s) (reverse s)).
Definition trim (s : bytes) : bytes := trim_end (trim_start s).

Example trim_done : trim (b "  [DONE] ") = b "[DONE]".
Proof. vm_compute. reflexivity. Qed.

(** ** Lemmas *)

Lemma split_once_Some c s l r :
  split_once c s = Some (l, r) → s = l ++ c :: r ∧ c ∉ l.
Proof.
  revert l. induction s as [|x s IH]; intros l; simpl; [done|]. case_decide; subst.
  - intros [= <- <-]. split; [done|set_solver].
  - destruct (split_once c s) as [[l' r']|]; simpl; [|done]. intros [= <- <-].
    destruct (IH l' eq_refl) as [-> Hn]. split; [done|set_solver].
Qed.

Lemma split_once_app c l r : c ∉ l → split_once c (l ++ c :: r) = Some (l, r).
Proof.
  induction l as [|x l IH]; intros Hl; simpl; [by case_decide|].
  apply not_elem_of_cons in Hl as [Hx Hl]. case_decide; [congruence|]. by rewrite IH.
Qed.

Lemma strip_prefix_Some p s r : strip_prefix p s = Some r ↔ s = p ++ r.
Proof.
  revert s. induction p as [|x p IH]; intros s; simpl; [naive_solver|].
  destruct s as [|c s]; [naive_solver|]. case_decide; subst.
  - rewrite IH. naive_solver.
  - naive_solver.
Qed.

Lemma starts_with_spec p s : starts_with p s = true ↔ ∃ r, s = p ++ r.
Proof.
  unfold starts_with. destruct (strip_prefix p s) as [r|] eqn:E.
  - apply strip_prefix_Some in E. naive_solver.
  - split; [done|]. intros [r Hr]. apply strip_prefix_Some in Hr. congruence.
Qed.

Lemma starts_with_app p s t :
  (length p ≤ length s)%nat → starts_with p (s ++ t) = starts_with p s.
Proof.
  intros Hlen. apply eq_bool_prop_intro. rewrite !Is_true_true, !starts_with_spec.
  split; [|intros [r ->]; exists (r ++ t); by rewrite app_assoc].
  intros [r Hr]. exists (drop (length p) s).
  assert (take (length p) (s ++ t) = p) as Hp
    by (rewrite Hr, take_app_length; done).
  rewrite take_app_le in Hp by lia. rewrite <-Hp at 1. by rewrite take_drop.
Qed.

(** ** Occurrences *)

Definition occurs (p s : bytes) : Prop := ∃ l r, s = l ++ p ++ r.

Lemma contains_spec p s : contains p s = true ↔ occurs p s.
Proof.
  induction s as [|c s IH]; simpl; rewrite orb_true_iff, starts_with_spec.
  - split; [intros [[r Hr]|?]; [|done]|]; [by exists [], r|].
    intros (l & r & Hr). left. exists r. symmetry in Hr. apply app_nil in Hr as [_ Hr].
    by rewrite Hr.
  - rewrite IH. split.
    + intros [[r Hr]|(l & r & ->)]; [by exists [], r|by exists (c :: l), r].
    + intros ([|x l] & r & Hr); simpl in Hr; [left; by exists r|].
      injection Hr as -> ->. right. by exists l, r.
Qed.

(** A pattern without the separator lies on one side of it. *)
Lemma occurs_split p a sep c :
  sep ∉ p → occurs p (a ++ sep :: c) → occurs p a ∨ occurs p c.
Proof.
  intros Hsep (l & r & Heq). apply app_eq_inv in Heq as [(k & -> & Hc)|(k & -> & Hc)].
  - apply app_eq_inv in Hc as [(k' & -> & Hr)|(k' & -> & Hr)].
    + destruct k' as [|x k']; simpl in Hr; [left; exists l, []; by rewrite !app_nil_r|].
      injection Hr as -> _. set_solver.
    + left. by exists l, k'.
  - destruct k as [|x k]; simpl in Hc.
    + destruct p as [|y p]; [left; exists a, []; by rewrite !app_nil_r|].
      injection Hc as -> _. set_solver.
    + injection Hc as -> ->. right. by exists k, r.
Qed.

(** What a redacted text can start with, the text starts with. *)
Lemma replace_prefix sep p m n s q r :
  sep ∉ q → (length s ≤ n)%nat → replace_rounds n p (sep :: m) s = q ++ r → ∃ r', s = q ++ r'.
Proof.
  intros Hsep. revert s q r Hsep. induction n as [|n IH]; intros s q r Hsep Hlen Heq; simpl in Heq.
  { by exists r. }
  destruct (strip_prefix p s) as [rest|].
  - destruct q as [|x q]; [by exists s|]. injection Heq as -> _. set_solver.
  - destruct s as [|c s]; [symmetry in Heq; apply app_nil in Heq as [-> ->]; by exists []|].
    destruct q as [|x q]; [by exists (c :: s)|]. injection Heq as -> Heq.
    destruct (IH s q r) as [r' ->]; [set_solver|simpl in Hlen; lia|done|]. by exists r'.
Qed.

(** Redaction leaves no occurrence, unless the marker itself brings one. *)
Lemma replace_removes p w n s :
  p ≠ [] → "["%char ∉ p → "]"%char ∉ p → ¬ occurs p w → (length s ≤ n)%nat →
  ¬ occurs p (replace_rounds n p ("["%char :: w ++ ["]"%char]) s).
Proof.
  intros Hne Hopen Hclose Hw. revert s. induction n as [|n IH]; intros s Hlen; simpl.
  { destruct s; [|simpl in Hlen; lia]. intros (l & r & Heq). symmetry in Heq.
    apply app_nil in Heq as [_ [-> _]%app_nil]. done. }
  destruct (strip_prefix p s) as [rest|] eqn:Hs.
  - apply strip_prefix_Some in Hs as ->. rewrite length_app in Hlen.
    assert (0 < length p)%nat by (destruct p; [done|simpl; lia]). simpl.
    intros Ho. apply (occurs_split p [] "["%char _ Hopen) in Ho as [Ho|Ho].
    + destruct Ho as (l & r & Heq). symmetry in Heq. apply app_nil in Heq as [_ [-> _]%app_nil]. done.
    + rewrite <-app_assoc in Ho. apply (occurs_split p w "]"%char _ Hclose) in Ho as [Ho|Ho]; [done|].
      apply (IH rest); [lia|done].
  - destruct s as [|c s]; [intros (l & r & Heq); symmetry in Heq;
      apply app_nil in Heq as [_ [-> _]%app_nil]; done|].
    intros ([|x l] & r & Heq).
    + assert (replace_rounds (S n) p ("["%char :: w ++ ["]"%char]) (c :: s) = p ++ r) as Hr
        by (simpl in *; by rewrite Hs).
      apply (replace_prefix "["%char) in Hr as [r' Hr]; [|done..].
      apply strip_prefix_Some in Hr. congruence.
    + injection Heq as -> Heq. apply (IH s); [simpl in Hlen; lia|]. by exists l, r.
Qed.
