(* ===== verification/Sse.v ===== *)
(** * The incremental SSE decoder ([crates/gateway-core/src/stream.rs]).

    [SseDecoder::push] is fed a stream in arbitrary chunks; it keeps the bytes of
    the event in progress, a cursor below which no delimiter can start, and a
    bound on what it will hold.  The reference definition [decode_all] decodes a
    whole body in one go; the decoder refines it for every way of cutting the
    body into chunks. *)

From S2P Require Import Prelude Text.

Module Sse.

Record SseEvent := mkEvent { event : option string; data : string }.

#[export] Instance SseEvent_eq_dec : EqDecision SseEvent.
Proof. solve_decision. Defined.

Inductive StreamParseError :=
| BufferLimit (max : Z)
| Incomplete.

Inductive StrictStreamParseError :=
| Parse (e : StreamParseError)
| UnvalidatedBlock
| AmbiguousJson.

#[export] Instance StreamParseError_eq_dec : EqDecision StreamParseError.
Proof. solve_decision. Defined.
#[export] Instance StrictStreamParseError_eq_dec : EqDecision StrictStreamParseError.
Proof. solve_decision. Defined.

(** ** Delimiters *)

Definition LFLF : bytes := [LF; LF].
Definition CRLFCRLF : bytes := [CR; LF; CR; LF].
Definition DELIMITER_OVERLAP : nat := 3.

(** The test the scan makes at one index of the buffer. *)
Definition at_delimiter (rest : bytes) : bool :=
  starts_with LFLF rest || starts_with CRLFCRLF rest.

(** One left-to-right pass over [0..len - 1]. *)
Fixpoint event_end (buffer : bytes) : option nat :=
  match buffer with
  | c :: (_ :: _) as rest =>
      if at_delimiter (c :: rest) then Some 0%nat else S <$> event_end rest
  | _ => None
  end.

(** ** Blocks *)

Definition strip_space (value : bytes) : bytes := default value (strip_prefix (b " ") value).

(** The fold [parse_event] makes over the lines of a block: the last [event:]
    value and every [data:] value. *)
Definition parse_line (acc : option bytes * list bytes) (line : bytes)
    : option bytes * list bytes :=
  if starts_with (b ":") line then acc
  else match strip_prefix (b "event:") line with
       | Some value => (Some (strip_space value), acc.2)
       | None =>
           match strip_prefix (b "data:") line with
           | Some value => (acc.1, acc.2 ++ [strip_space value])
           | None => acc
           end
       end.

Definition parse_event (block : bytes) : option SseEvent :=
  let '(ev, dat) := foldl parse_line (None, []) (lines block) in
  match dat with
  | [] => None
  | _ => Some {| event := text <$> ev; data := text (join [LF] dat) |}
  end.

(** [None] is the early [return false]; otherwise (event seen, data seen). *)
Definition strict_line (acc : option (bool * bool)) (line : bytes) : option (bool * bool) :=
  match acc with
  | None => None
  | Some (event_seen, data_seen) =>
      if starts_with (b ":") line then None
      else match split_once ":"%char line with
           | None => None
           | Some (field, _) =>
               if decide (field = b "data") then Some (event_seen, true)
               else if decide (field = b "event") then
                      if event_seen then None else Some (true, data_seen)
                    else None
           end
  end.

Definition strict_block_is_valid (block : bytes) : bool :=
  match foldl strict_line (Some (false, false)) (lines block) with
  | Some (_, data_seen) => data_seen
  | None => false
  end.

(** ** Duplicate JSON keys

    What serde_json's deserializer shows a visitor, in order: scalars, sequence
    items, map keys and values, and the point, if any, where it reports an error
    of its own ([VSyntax], or a key that is [None]).  [NoDuplicateKeys] is the
    source's visitor over it. *)

Inductive visit :=
| VScalar
| VSeq (items : list visit)
| VMap (fields : list (option string * visit))
| VSyntax.

Inductive verdict := Fine | DuplicateKey | OtherError.

Fixpoint no_duplicate_keys (v : visit) : verdict :=
  match v with
  | VScalar => Fine
  | VSyntax => OtherError
  | VSeq items =>
      (fix go (items : list visit) : verdict :=
         match items with
         | [] => Fine
         | i :: items => match no_duplicate_keys i with Fine => go items | e => e end
         end) items
  | VMap fields =>
      (fix go (keys : gset string) (fields : list (option string * visit)) : verdict :=
         match fields with
         | [] => Fine
         | (None, _) :: _ => OtherError
         | (Some k, v) :: fields =>
             if decide (k ∈ keys) then DuplicateKey
             else match no_duplicate_keys v with
                  | Fine => go ({[k]} ∪ keys) fields
                  | e => e
                  end
         end) ∅ fields
  end.

Section Decoder.

(** What [serde_json::Deserializer::from_str] shows for a text. *)
Variable deserialize : string → visit.

Definition json_has_duplicate_keys (text : string) : bool :=
  match no_duplicate_keys (deserialize text) with DuplicateKey => true | _ => false end.

Record SseDecoder := mkDecoder {
  buffer : bytes;
  scanned : nat;
  max_buffer_bytes : Z;
}.

Definition new (max : Z) : SseDecoder :=
  {| buffer := []; scanned := 0; max_buffer_bytes := max |}.

(** The [while let] loop of [push_inner]: the events found and how far the
    buffer is consumed.  Each round consumes at least the two bytes of a
    delimiter, so a round per byte is enough ([drain_blocks_decode]). *)
Fixpoint drain_blocks (rounds : nat) (strict : bool) (buf : bytes)
    (search consumed : nat) (events : list SseEvent)
    : result StrictStreamParseError (list SseEvent * nat) :=
  match rounds with
  | O => Ok (events, consumed)
  | S rounds =>
      match event_end (drop search buf) with
      | None => Ok (events, consumed)
      | Some offset =>
          let stop := (search + offset)%nat in
          let block := filter (λ c, c ≠ CR) (take (stop - consumed) (drop consumed buf)) in
          let delimiter_len := if starts_with CRLFCRLF (drop stop buf) then 4%nat else 2%nat in
          let consumed := (stop + delimiter_len)%nat in
          if strict && negb (strict_block_is_valid block) then Err UnvalidatedBlock
          else match parse_event block with
               | Some ev =>
                   if strict && negb (bool_decide (trim (b (data ev)) = b "[DONE]"))
                      && json_has_duplicate_keys (data ev)
                   then Err AmbiguousJson
                   else drain_blocks rounds strict buf consumed consumed (events ++ [ev])
               | None => drain_blocks rounds strict buf consumed consumed events
               end
      end
  end.

Definition push_inner (d : SseDecoder) (chunk : bytes) (strict : bool)
    : result StrictStreamParseError (list SseEvent) * SseDecoder :=
  let buf := buffer d ++ chunk in
  let pushed := {| buffer := buf; scanned := scanned d;
                   max_buffer_bytes := max_buffer_bytes d |} in
  if max_buffer_bytes d <? Z.of_nat (length buf)
  then (Err (Parse (BufferLimit (max_buffer_bytes d))), pushed)
  else match drain_blocks (S (length buf)) strict buf (scanned d) 0 [] with
       | Err e => (Err e, pushed)
       | Ok (events, consumed) =>
           let rest := drop consumed buf in
           (Ok events,
            {| buffer := rest;
               scanned := floor_char_boundary rest (length rest - DELIMITER_OVERLAP);
               max_buffer_bytes := max_buffer_bytes d |})
       end.

(** [None] is the [unreachable!] arm: a panic. *)
Definition push (d : SseDecoder) (chunk : bytes)
    : option (result StreamParseError (list SseEvent)) * SseDecoder :=
  match push_inner d chunk false with
  | (Ok events, d) => (Some (Ok events), d)
  | (Err (Parse e), d) => (Some (Err e), d)
  | (Err UnvalidatedBlock, d) => (None, d)
  | (Err AmbiguousJson, d) => (None, d)
  end.

Definition push_strict (d : SseDecoder) (chunk : bytes)
    : result StrictStreamParseError (list SseEvent) * SseDecoder :=
  push_inner d chunk true.

Definition finish (d : SseDecoder) : result StreamParseError () :=
  if decide (trim (buffer d) = []) then Ok () else Err Incomplete.

End Decoder.

(** ** Where the scan stops *)

Lemma at_delimiter_short c : at_delimiter [c] = false.
Proof. unfold at_delimiter, starts_with; simpl. repeat case_decide; done. Qed.

Lemma at_delimiter_nil : at_delimiter [] = false.
Proof. done. Qed.

Lemma event_end_cons c s :
  event_end (c :: s) = if at_delimiter (c :: s) then Some 0%nat else S <$> event_end s.
Proof. destruct s; [by rewrite at_delimiter_short|done]. Qed.

(** [event_end] finds the first index at which a delimiter starts. *)
Lemma event_end_Some s i :
  event_end s = Some i ↔
  at_delimiter (drop i s) = true ∧ ∀ j, (j < i)%nat → at_delimiter (drop j s) = false.
Proof.
  revert i. induction s as [|c s IH]; intros i.
  - rewrite drop_nil. simpl. naive_solver.
  - rewrite event_end_cons. destruct (at_delimiter (c :: s)) eqn:E.
    + split; [intros [= <-]; split; [done|lia]|]. intros [_ H].
      destruct i; [done|]. specialize (H 0%nat). simpl in H. rewrite E in H. naive_solver lia.
    + rewrite fmap_Some. split.
      * intros (k & Hk & ->). apply IH in Hk as [H1 H2]. split; [done|].
        intros [|j] Hj; [done|]. simpl. apply H2. lia.
      * intros [H1 H2]. destruct i as [|k]; [simpl in H1; congruence|].
        exists k. split; [|done]. apply IH. split; [done|].
        intros j Hj. apply (H2 (S j)). lia.
Qed.

Lemma event_end_None s :
  event_end s = None ↔ ∀ j, at_delimiter (drop j s) = false.
Proof.
  induction s as [|c s IH].
  - split; [intros _ j; by rewrite drop_nil|done].
  - rewrite event_end_cons. destruct (at_delimiter (c :: s)) eqn:E.
    + split; [done|]. intros H. specialize (H 0%nat). simpl in H. congruence.
    + rewrite fmap_None, IH. split.
      * intros H [|j]; [done|apply H].
      * intros H j. apply (H (S j)).
Qed.

(** Skipping a prefix in which no delimiter starts changes only the offset. *)
Lemma event_end_skip n s :
  (∀ j, (j < n)%nat → at_delimiter (drop j s) = false) →
  event_end s = Nat.add n <$> event_end (drop n s).
Proof.
  revert s. induction n as [|n IH]; intros s H; simpl.
  - rewrite drop_0. by destruct (event_end s).
  - destruct s as [|c s]; [done|]. rewrite event_end_cons.
    pose proof (H 0%nat ltac:(lia)) as H0. simpl in H0. rewrite H0. simpl.
    rewrite (IH s); [by destruct (event_end (drop n s))|].
    intros j Hj. apply (H (S j)). lia.
Qed.

Definition delimiter_len (s : bytes) : nat :=
  if starts_with CRLFCRLF s then 4%nat else 2%nat.

Lemma at_delimiter_cases s :
  at_delimiter s = true →
  (∃ r, s = LFLF ++ r ∧ delimiter_len s = 2%nat) ∨
  (∃ r, s = CRLFCRLF ++ r ∧ delimiter_len s = 4%nat).
Proof.
  unfold at_delimiter, delimiter_len. rewrite orb_true_iff, !starts_with_spec.
  intros [[r ->]|[r ->]]; [left|right]; exists r; split; done.
Qed.

Lemma delimiter_fits s :
  at_delimiter s = true → (2 ≤ delimiter_len s ≤ length s)%nat.
Proof.
  intros [(r & -> & ->)|(r & -> & ->)]%at_delimiter_cases; simpl; lia.
Qed.

Lemma at_delimiter_app s t : at_delimiter s = true → at_delimiter (s ++ t) = true.
Proof.
  unfold at_delimiter. rewrite !orb_true_iff, !starts_with_spec.
  intros [[r ->]|[r ->]]; [left|right]; exists (r ++ t); by rewrite <-app_assoc.
Qed.

Lemma delimiter_len_app s t :
  at_delimiter s = true → delimiter_len (s ++ t) = delimiter_len s.
Proof. intros [(r & -> & ->)|(r & -> & ->)]%at_delimiter_cases; done. Qed.

Lemma at_delimiter_app_long s t :
  (4 ≤ length s)%nat → at_delimiter (s ++ t) = at_delimiter s.
Proof. intros. unfold at_delimiter. rewrite !starts_with_app by (simpl; lia). done. Qed.

(** A delimiter that starts in [s] and only completes in [t] starts within the
    last [DELIMITER_OVERLAP] bytes of [s]. *)
Lemma at_delimiter_drop_app j s t :
  (j + 4 ≤ length s)%nat → at_delimiter (drop j (s ++ t)) = at_delimiter (drop j s).
Proof.
  intros. rewrite drop_app_le by lia. apply at_delimiter_app_long. rewrite length_drop. lia.
Qed.

(** A delimiter already complete in [s] is not overtaken by an earlier one that
    more input completes: the two would overlap, and no overlap is possible. *)
Lemma no_earlier_delimiter s t i j :
  at_delimiter (drop i s) = true → (j < i)%nat →
  at_delimiter (drop j s) = false → at_delimiter (drop j (s ++ t)) = false.
Proof.
  intros Hi Hlt Hj. pose proof (delimiter_fits _ Hi) as Hfit. rewrite length_drop in Hfit.
  destruct (decide (j + 4 ≤ length s)%nat) as [|Hlong]; [by rewrite at_delimiter_drop_app|].
  assert (i = S j ∧ length s = (j + 3)%nat) as [-> Hlen] by lia.
  rewrite drop_app_le by lia.
  destruct (drop j s) as [|c r] eqn:Ed.
  { apply (f_equal length) in Ed. rewrite length_drop in Ed. simpl in Ed. lia. }
  assert (drop (S j) s = r) as Hr by (rewrite <-Nat.add_1_r, <-drop_drop, Ed; done).
  rewrite Hr in Hi. apply at_delimiter_cases in Hi as [(q & -> & Hq)|(q & -> & Hq)].
  - assert (q = []) as -> by (apply (f_equal length) in Ed; rewrite length_drop in Ed;
      destruct q; simpl in Ed; [done|lia]).
    unfold at_delimiter, starts_with in *; simpl in *.
    repeat case_decide; simplify_eq; done.
  - apply (f_equal length) in Ed. rewrite length_drop in Ed. simpl in Ed. lia.
Qed.

Lemma event_end_app s t i : event_end s = Some i → event_end (s ++ t) = Some i.
Proof.
  rewrite !event_end_Some. intros [H1 H2].
  pose proof (delimiter_fits _ H1) as Hfit. rewrite length_drop in Hfit.
  split.
  - rewrite drop_app_le by lia. by apply at_delimiter_app.
  - intros j Hj. apply (no_earlier_delimiter _ _ i); auto.
Qed.

(** ** The reference: decoding a whole body

    [decodes s evs rest]: the body [s] holds exactly the complete blocks that
    decode to [evs], and [rest] is what follows the last delimiter. *)

Definition block_of (s : bytes) : bytes := filter (λ c, c ≠ CR) s.

Inductive decodes : bytes → list SseEvent → bytes → Prop :=
| decodes_rest s : event_end s = None → decodes s [] s
| decodes_block s i evs rest :
    event_end s = Some i →
    decodes (drop (i + delimiter_len (drop i s)) s) evs rest →
    decodes s (option_list (parse_event (block_of (take i s))) ++ evs) rest.

Lemma decodes_deterministic s e1 r1 e2 r2 :
  decodes s e1 r1 → decodes s e2 r2 → e1 = e2 ∧ r1 = r2.
Proof.
  intros H. revert e2 r2. induction H as [s Hs|s i evs rest Hi _ IH]; intros e2 r2 H2.
  - inversion H2; subst; [done|congruence].
  - inversion H2 as [|? i' ? ? Hi' H']; subst; [congruence|].
    assert (i' = i) as -> by congruence. by destruct (IH _ _ H') as [-> ->].
Qed.

Lemma decodes_total s : ∃ evs rest, decodes s evs rest.
Proof.
  induction s as [s IH] using (induction_ltof1 _ (@length ascii)). unfold ltof in IH.
  destruct (event_end s) as [i|] eqn:E; [|by eauto using decodes_rest].
  pose proof (proj1 (event_end_Some _ _) E) as [Hd _].
  apply delimiter_fits in Hd as Hfit. rewrite length_drop in Hfit.
  destruct (IH (drop (i + delimiter_len (drop i s)) s)) as (evs & rest & H).
  { rewrite length_drop. lia. }
  eauto using decodes_block.
Qed.

(** Input that arrives later is decoded after what was already decoded. *)
Lemma decodes_app s t e1 r1 e2 r2 :
  decodes s e1 r1 → decodes (r1 ++ t) e2 r2 → decodes (s ++ t) (e1 ++ e2) r2.
Proof.
  intros H H2. induction H as [s Hs|s i evs rest Hi _ IH]; [done|].
  pose proof (proj1 (event_end_Some _ _) Hi) as [Hd _].
  apply delimiter_fits in Hd as Hfit. rewrite length_drop in Hfit.
  rewrite <-(app_assoc _ evs e2).
  replace (take i s) with (take i (s ++ t)) by (apply take_app_le; lia).
  apply decodes_block; [by apply event_end_app|].
  rewrite (drop_app_le s t i) by lia. rewrite delimiter_len_app by done.
  rewrite drop_app_le by lia. by apply IH.
Qed.

Lemma decodes_rest_None s evs rest : decodes s evs rest → event_end rest = None.
Proof. by induction 1. Qed.

(** ** The decoder refines the reference *)

Section Refinement.

Context (deserialize : string → visit).

(** Nothing complete is held, and no delimiter starts below the cursor. *)
Definition decoder_wf (d : SseDecoder) : Prop :=
  event_end (buffer d) = None ∧ (scanned d ≤ length (buffer d) - DELIMITER_OVERLAP)%nat.

Lemma drain_blocks_decode rounds buf search consumed acc :
  (length (drop consumed buf) < rounds)%nat →
  (consumed ≤ search)%nat →
  (∀ j, (consumed ≤ j < search)%nat → at_delimiter (drop j buf) = false) →
  ∃ evs n, drain_blocks deserialize rounds false buf search consumed acc = Ok (acc ++ evs, n) ∧
    decodes (drop consumed buf) evs (drop n buf).
Proof.
  revert search consumed acc.
  induction rounds as [|rounds IH]; intros search consumed acc Hr Hcs Hclean; [lia|].
  assert (event_end (drop consumed buf) =
          Nat.add (search - consumed) <$> event_end (drop search buf)) as Hskip.
  { rewrite (event_end_skip (search - consumed)).
    - rewrite drop_drop. repeat f_equal; lia.
    - intros j Hj. rewrite drop_drop. apply Hclean. lia. }
  simpl. destruct (event_end (drop search buf)) as [offset|] eqn:E; simpl in Hskip.
  2: { exists [], consumed. rewrite app_nil_r. auto using decodes_rest. }
  pose proof (proj1 (event_end_Some _ _) Hskip) as [Hd _].
  apply delimiter_fits in Hd as Hfit. rewrite !length_drop in Hfit. rewrite length_drop in Hr.
  fold (delimiter_len (drop (search + offset) buf)).
  rewrite drop_drop in Hfit, Hd.
  replace (consumed + (search - consumed + offset))%nat with (search + offset)%nat in * by lia.
  set (next := (search + offset + delimiter_len (drop (search + offset) buf))%nat).
  assert (∀ acc', ∃ evs n, drain_blocks deserialize rounds false buf next next acc' =
            Ok (acc' ++ evs, n) ∧ decodes (drop next buf) evs (drop n buf)) as Hnext.
  { intros acc'. apply IH; [rewrite length_drop; lia|lia|lia]. }
  assert (∀ evs rest, decodes (drop next buf) evs rest →
            decodes (drop consumed buf)
              (option_list (parse_event (block_of (take (search + offset - consumed)
                 (drop consumed buf)))) ++ evs) rest) as Hblock.
  { intros evs rest H.
    replace (search + offset - consumed)%nat with (search - consumed + offset)%nat by lia.
    apply decodes_block; [done|]. rewrite !drop_drop.
    replace (consumed + (search - consumed + offset))%nat with (search + offset)%nat by lia.
    by replace (consumed + _)%nat with next by (unfold next; lia). }
  unfold block_of in Hblock.
  destruct (parse_event _) as [ev|] eqn:Ep.
  - destruct (Hnext (acc ++ [ev])) as (evs & n & -> & Hn). exists (ev :: evs), n.
    split; [by rewrite <-app_assoc|]. apply (Hblock _ _ Hn).
  - destruct (Hnext acc) as (evs & n & -> & Hn). exists evs, n.
    split; [done|]. apply (Hblock _ _ Hn).
Qed.

Lemma decoder_clean d chunk :
  decoder_wf d → ∀ j, (j < scanned d)%nat → at_delimiter (drop j (buffer d ++ chunk)) = false.
Proof.
  intros [Hnone Hscan] j Hj. unfold DELIMITER_OVERLAP in Hscan.
  rewrite at_delimiter_drop_app by lia. by apply event_end_None.
Qed.

Lemma push_refines d chunk :
  decoder_wf d → Z.of_nat (length (buffer d ++ chunk)) ≤ max_buffer_bytes d →
  ∃ evs d', push deserialize d chunk = (Some (Ok evs), d') ∧
    decodes (buffer d ++ chunk) evs (buffer d') ∧ decoder_wf d' ∧
    max_buffer_bytes d' = max_buffer_bytes d ∧
    scanned d' = floor_char_boundary (buffer d') (length (buffer d') - DELIMITER_OVERLAP).
Proof.
  intros Hwf Hmax. unfold push, push_inner.
  destruct (Z.ltb_spec (max_buffer_bytes d) (Z.of_nat (length (buffer d ++ chunk)))); [lia|].
  destruct (drain_blocks_decode (S (length (buffer d ++ chunk))) (buffer d ++ chunk)
              (scanned d) 0 []) as (evs & n & -> & Hdec).
  - rewrite drop_0. lia.
  - lia.
  - intros j Hj. apply decoder_clean; [done|lia].
  - rewrite drop_0 in Hdec. eexists evs, _. split; [done|]. simpl.
    repeat split; [done|by eapply decodes_rest_None|apply floor_char_boundary_le].
Qed.

(** Pushing a list of chunks, stopping at the first error or panic. *)
Fixpoint push_all (d : SseDecoder) (chunks : list bytes) : option (list SseEvent * SseDecoder) :=
  match chunks with
  | [] => Some ([], d)
  | chunk :: chunks =>
      match push deserialize d chunk with
      | (Some (Ok evs), d) =>
          match push_all d chunks with
          | Some (more, d) => Some (evs ++ more, d)
          | None => None
          end
      | _ => None
      end
  end.

Lemma push_limit d chunk :
  max_buffer_bytes d < Z.of_nat (length (buffer d ++ chunk)) →
  (push deserialize d chunk).1 = Some (Err (BufferLimit (max_buffer_bytes d))).
Proof.
  intros H. unfold push, push_inner.
  by destruct (Z.ltb_spec (max_buffer_bytes d) (Z.of_nat (length (buffer d ++ chunk)))); [|lia].
Qed.

Lemma push_Ok_refines d chunk evs d' :
  decoder_wf d → push deserialize d chunk = (Some (Ok evs), d') →
  decodes (buffer d ++ chunk) evs (buffer d') ∧ decoder_wf d' ∧
  max_buffer_bytes d' = max_buffer_bytes d ∧
  scanned d' = floor_char_boundary (buffer d') (length (buffer d') - DELIMITER_OVERLAP) ∧
  Z.of_nat (length (buffer d ++ chunk)) ≤ max_buffer_bytes d.
Proof.
  intros Hwf Hp. destruct (Z.le_gt_cases (Z.of_nat (length (buffer d ++ chunk))) (max_buffer_bytes d)).
  - destruct (push_refines d chunk) as (? & ? & Hp' & ? & ? & ? & ?); [done..|].
    rewrite Hp in Hp'. by simplify_eq.
  - pose proof (push_limit d chunk) as Hl. rewrite Hp in Hl. simpl in Hl. naive_solver lia.
Qed.

Lemma push_all_decodes d chunks evs d' :
  decoder_wf d → push_all d chunks = Some (evs, d') →
  decodes (buffer d ++ concat chunks) evs (buffer d') ∧ decoder_wf d' ∧
  max_buffer_bytes d' = max_buffer_bytes d.
Proof.
  revert d evs. induction chunks as [|c chunks IH]; simpl; intros d evs Hwf Hp.
  - simplify_eq. rewrite app_nil_r. pose proof (proj1 Hwf). auto using decodes_rest.
  - destruct (push deserialize d c) as [[[e|]|] d1] eqn:E; try done.
    destruct (push_all d1 chunks) as [[more d2]|] eqn:E2; [|done]. simplify_eq.
    apply push_Ok_refines in E as (Hdec & Hwf1 & Hmax & _); [|done].
    apply IH in E2 as (Hdec2 & Hwf2 & Hmax2); [|done].
    rewrite app_assoc. split; [by eapply decodes_app|]. split; [done|congruence].
Qed.

Lemma decoder_new_wf max : decoder_wf (new max).
Proof. split; simpl; [done|lia]. Qed.

Lemma decodes_length s evs rest : decodes s evs rest → (length rest ≤ length s)%nat.
Proof. induction 1 as [|s i evs rest Hi H IH]; [done|]. rewrite length_drop in IH. lia. Qed.

Lemma push_all_total d chunks :
  decoder_wf d → Z.of_nat (length (buffer d ++ concat chunks)) ≤ max_buffer_bytes d →
  is_Some (push_all d chunks).
Proof.
  revert d. induction chunks as [|c chunks IH]; simpl; intros d Hwf Hlen; [eauto|].
  rewrite !length_app in Hlen.
  destruct (push_refines d c) as (evs & d1 & -> & Hdec & Hwf1 & Hmax & _);
    [done|rewrite length_app; lia|].
  apply decodes_length in Hdec. rewrite length_app in Hdec.
  destruct (IH d1 Hwf1) as [[more d2] ->]; [rewrite length_app, Hmax; lia|eauto].
Qed.

(** Strict decoding only refuses: what it accepts is what ordinary decoding
    yields. *)
Lemma drain_strict_Ok rounds buf search consumed acc r :
  drain_blocks deserialize rounds true buf search consumed acc = Ok r →
  drain_blocks deserialize rounds false buf search consumed acc = Ok r.
Proof.
  revert search consumed acc.
  induction rounds as [|rounds IH]; intros search consumed acc; simpl; [done|].
  destruct (event_end (drop search buf)); [|done]. cbv zeta. simpl.
  destruct (strict_block_is_valid _); simpl; [|done].
  destruct (parse_event _) as [ev|]; [|apply IH].
  destruct (negb _ && json_has_duplicate_keys deserialize (data ev)); [done|apply IH].
Qed.

End Refinement.

(** ** Strict blocks *)

(** The field a line of a valid block carries. *)
Definition line_value (name line : bytes) : option bytes :=
  strip_space <$> strip_prefix (name ++ b ":") line.

#[local] Arguments strict_line : simpl never.
#[local] Arguments parse_line : simpl never.
#[local] Arguments line_value : simpl never.

Lemma strict_line_None lines : foldl strict_line None lines = None.
Proof. induction lines; simpl; auto. Qed.

Lemma strict_line_cases es ds line acc :
  strict_line (Some (es, ds)) line = Some acc →
  starts_with (b ":") line = false ∧
  ((∃ v, line = b "data:" ++ v ∧ acc = (es, true)) ∨
   (∃ v, line = b "event:" ++ v ∧ es = false ∧ acc = (true, ds))).
Proof.
  unfold strict_line. destruct (starts_with (b ":") line); [done|].
  destruct (split_once ":"%char line) as [[field v]|] eqn:E; [|done].
  apply split_once_Some in E as [-> _]. intros H. split; [done|].
  repeat case_decide; subst.
  - simplify_eq. left. exists v. done.
  - destruct es; [done|]. simplify_eq. right. exists v. done.
  - done.
Qed.

Lemma parse_strict_fold ls es ds ev dat acc :
  foldl strict_line (Some (es, ds)) ls = Some acc →
  (∀ l, l ∈ ls → is_Some (line_value (b "data") l) ∨ is_Some (line_value (b "event") l)) ∧
  foldl parse_line (ev, dat) ls =
    (match list.last (omap (line_value (b "event")) ls) with Some v => Some v | None => ev end,
     dat ++ omap (line_value (b "data")) ls) ∧
  (length (omap (line_value (b "event")) ls) ≤ if es then 0 else 1)%nat ∧
  (acc.2 = true ↔ ds = true ∨ omap (line_value (b "data")) ls ≠ []).
Proof.
  revert es ds ev dat acc. induction ls as [|l ls IH]; intros es ds ev dat acc;
    rewrite ?omap_cons; cbn [foldl].
  - simpl. intros [= <-]. rewrite app_nil_r. split; [set_solver|]. repeat split; [lia|naive_solver..].
  - destruct (strict_line (Some (es, ds)) l) as [[es' ds']|] eqn:E;
      [|by rewrite strict_line_None].
    apply strict_line_cases in E as [Hc [(v & -> & [= -> ->])|(v & -> & -> & [= -> ->])]]; intros H.
    + edestruct (IH es true ev (dat ++ [strip_space v])) as (H1 & H2 & H3 & H4); [done|].
      unfold parse_line at 2. rewrite Hc. change (strip_prefix (b "event:") (b "data:" ++ v)) with (@None bytes).
      change (strip_prefix (b "data:") (b "data:" ++ v)) with (Some v). cbn [fst snd].
      rewrite H2. change (line_value (b "event") (b "data:" ++ v)) with (@None bytes).
      change (line_value (b "data") (b "data:" ++ v)) with (Some (strip_space v)).
      rewrite <-app_assoc. split.
      { intros l [->|]%elem_of_cons; [left; by eexists|auto]. }
      split; [done|]. split; [done|]. naive_solver.
    + edestruct (IH true ds (Some (strip_space v)) dat) as (H1 & H2 & H3 & H4); [done|].
      unfold parse_line at 2. rewrite Hc.
      change (strip_prefix (b "event:") (b "event:" ++ v)) with (Some v). cbn [fst snd].
      rewrite H2. change (line_value (b "data") (b "event:" ++ v)) with (@None bytes).
      change (line_value (b "event") (b "event:" ++ v)) with (Some (strip_space v)).
      destruct (omap (line_value (b "event")) ls) eqn:Eo; simpl in H3; [|lia].
      split. { intros l [->|]%elem_of_cons; [right; by eexists|auto]. }
      split; [done|]. split; [simpl; lia|done].
Qed.

(** ** Properties *)

(** C38: decoding refines the reference for every chunking: whatever list of
    chunks a fresh decoder accepts, the events it has emitted and the bytes it
    still holds are exactly the decoding of the concatenated input. *)
Theorem push_all_refines_decodes (deserialize : string → visit) (max : Z)
    (chunks : list bytes) (evs : list SseEvent) (d : SseDecoder) :
  push_all deserialize (new max) chunks = Some (evs, d) →
  decodes (concat chunks) evs (buffer d).
Proof. intros H. by apply push_all_decodes in H as (? & _ & _); [|apply decoder_new_wf]. Qed.

Lemma push_all_refines_decodes_witness :
  decodes (concat [b "data: a"; [LF]; LF :: b "data: b"])
    [{| event := None; data := "a" |}] (b "data: b").
Proof.
  apply (push_all_refines_decodes (λ _, VScalar) 64 _ _
    {| buffer := b "data: b"; scanned := 4; max_buffer_bytes := 64 |}).
  vm_compute. reflexivity.
Defined.

(** where chunk boundaries fall cannot change what a stream decodes to: two
    ways of cutting the same body that both stay inside the buffer limit emit
    the same events and leave the same bytes undecoded. *)
Theorem chunking_irrelevant (deserialize : string → visit) (max : Z)
    (chunks1 chunks2 : list bytes) (evs1 evs2 : list SseEvent) (d1 d2 : SseDecoder) :
  concat chunks1 = concat chunks2 →
  push_all deserialize (new max) chunks1 = Some (evs1, d1) →
  push_all deserialize (new max) chunks2 = Some (evs2, d2) →
  evs1 = evs2 ∧ buffer d1 = buffer d2.
Proof.
  intros Hc (H1 & _ & _)%push_all_decodes (H2 & _ & _)%push_all_decodes; [|apply decoder_new_wf..].
  simpl in *. rewrite Hc in H1. by eapply decodes_deterministic.
Qed.

Lemma chunking_irrelevant_witness :
  ∃ evs d1 d2,
    push_all (λ _, VScalar) (new 64) [b "data: a"; [CR; LF]; [CR; LF]] = Some (evs, d1) ∧
    push_all (λ _, VScalar) (new 64) [b "data: a" ++ [CR]; [LF; CR; LF]] = Some (evs, d2) ∧
    buffer d1 = buffer d2.
Proof.
  eexists _, _, _. split; [vm_compute; reflexivity|]. split; [vm_compute; reflexivity|].
  eapply (chunking_irrelevant (λ _, VScalar) 64
    [b "data: a"; [CR; LF]; [CR; LF]] [b "data: a" ++ [CR]; [LF; CR; LF]]);
    vm_compute; reflexivity.
Defined.

(** a body within the buffer limit is always decoded, however it is cut:
    every push returns its events, with no error and without reaching a panic. *)
Theorem push_all_succeeds (deserialize : string → visit) (max : Z) (chunks : list bytes) :
  Z.of_nat (length (concat chunks)) ≤ max →
  ∃ evs d, push_all deserialize (new max) chunks = Some (evs, d) ∧
    decodes (concat chunks) evs (buffer d) ∧ Z.of_nat (length (buffer d)) ≤ max.
Proof.
  intros H. destruct (push_all_total deserialize (new max) chunks) as [[evs d] Hp];
    [apply decoder_new_wf|done|].
  exists evs, d. pose proof Hp as (Hdec & _ & _)%push_all_decodes; [|apply decoder_new_wf].
  split; [done|]. split; [done|]. apply decodes_length in Hdec. simpl in Hdec. lia.
Qed.

Lemma push_all_succeeds_witness :
  ∃ evs d, push_all (λ _, VScalar) (new 64) [b "data: x"; LFLF] = Some (evs, d) ∧
    decodes (concat [b "data: x"; LFLF]) evs (buffer d) ∧ Z.of_nat (length (buffer d)) ≤ 64.
Proof. apply push_all_succeeds. vm_compute. congruence. Defined.

(** strict decoding exposes everything it accepts: each line of a block it
    considers valid is a [data:] line or the only [event:] line, and the event
    it emits carries that event name and every data value, in order. *)
Theorem strict_block_exposes_all (block : bytes) :
  strict_block_is_valid block = true →
  let values name := omap (line_value (b name)) (lines block) in
  (∀ l, l ∈ lines block →
    is_Some (line_value (b "data") l) ∨ is_Some (line_value (b "event") l)) ∧
  (length (values "event"%string) ≤ 1)%nat ∧
  parse_event block =
    Some {| event := text <$> list.last (values "event"%string);
            data := text (join [LF] (values "data"%string)) |}.
Proof.
  unfold strict_block_is_valid, parse_event. intros H.
  destruct (foldl strict_line (Some (false, false)) (lines block)) as [[es ds]|] eqn:E; [|done].
  subst ds. destruct (parse_strict_fold _ _ _ None [] _ E) as (H1 & H2 & H3 & H4).
  cbn [snd] in H4. rewrite H2. cbn [app]. split; [done|]. split; [done|].
  destruct (omap (line_value (b "data")) (lines block)) eqn:Eo; [naive_solver|].
  by destruct (list.last (omap (line_value (b "event")) (lines block))).
Qed.

Lemma strict_block_exposes_all_witness :
  parse_event (b "event: delta" ++ [LF] ++ b "data: one") =
    Some {| event := Some "delta"%string; data := "one"%string |}.
Proof.
  apply (strict_block_exposes_all (b "event: delta" ++ [LF] ++ b "data: one")).
  vm_compute. reflexivity.
Defined.

(** strict decoding differs from ordinary decoding only by refusing: a chunk
    that strict decoding accepts yields the same events and leaves the decoder
    in the same state as ordinary decoding. *)
Theorem strict_accepts_subset (deserialize : string → visit) (d d' : SseDecoder)
    (chunk : bytes) (evs : list SseEvent) :
  push_strict deserialize d chunk = (Ok evs, d') →
  push deserialize d chunk = (Some (Ok evs), d').
Proof.
  unfold push_strict, push, push_inner. cbv zeta. destruct (_ <? _); [done|].
  destruct (drain_blocks deserialize _ true _ _ _ _) as [[es n]|] eqn:E; [|done].
  intros [= <- <-]. by rewrite (drain_strict_Ok _ _ _ _ _ _ _ E).
Qed.

Lemma strict_accepts_subset_witness :
  ∃ evs d, push (λ _, VScalar) (new 64) (b "data: x" ++ LFLF) = (Some (Ok evs), d) ∧ length evs = 1%nat.
Proof.
  eexists _, _. split; [apply strict_accepts_subset; vm_compute; reflexivity|reflexivity].
Defined.

End Sse.
