(* ===== verification/Json.v ===== *)
(** * The JSON library the gateway calls, as an interface.

    [serde_json] is not part of the repository: the source handles JSON only
    through the accessors and constructors below, so they are parameters of the
    model.  [SerdeJson] names the operations; [SerdeJsonLaws] states the
    documented behaviour the theorems rely on; [json_model] is one
    implementation of both, used to evaluate witnesses. *)

From S2P Require Import Prelude Text.

Class SerdeJson := {
  Value : Type;
  get : Value → string → option Value;
  pointer : Value → string → option Value;
  as_str : Value → option string;
  as_u64 : Value → option Z;
  as_array : Value → option (list Value);
  as_bool : Value → option bool;
  is_object : Value → bool;
  is_null : Value → bool;
  Null : Value;
  Bool : bool → Value;
  Str : string → Value;
  U64 : Z → Value;
  Array : list Value → Value;
  (** [json!({ ... })], and [Value::Object(Map::from_iter(...))]. *)
  Object : list (string * Value) → Value;
  (** [as_object_mut()] then [Map::insert]; only used on objects. *)
  insert_field : Value → string → Value → Value;
  from_str : string → result string Value;
  to_string : Value → string;
}.

(** Keeps [json!] literals readable. *)
Declare Scope json_scope.
Delimit Scope json_scope with json.
Notation "{{ }}" := (Object []) : json_scope.
Notation "{{ kv ; .. ; kv' }}" := (Object (cons kv .. (cons kv' nil) ..)) : json_scope.
Notation "k ⇒ v" := (pair k v) (at level 60) : json_scope.
#[global] Open Scope json_scope.

Definition is_string `{SerdeJson} (v : Value) : bool :=
  match as_str v with Some _ => true | None => false end.

(** [.get(a).or_else(|| v.get(b))] and the like. *)
Definition or_else {A} (o : option A) (p : option A) : option A :=
  match o with Some a => Some a | None => p end.

(** A name no array takes for an index and no JSON pointer escapes. *)
Definition field_char (c : ascii) : bool :=
  ((97 <=? byte_val c) && (byte_val c <=? 122)) || (byte_val c =? 95).
Definition field_name (k : string) : bool := negb (bool_decide (k = "")) && forallb field_char (b k).

(** [value == Some("...")], as the discriminator matches write it. *)
Definition says (o : option string) (s : string) : bool := bool_decide (o = Some s).

Lemma says_true o s : says o s = true → o = Some s.
Proof. apply bool_decide_eq_true. Qed.

Ltac says_simpl :=
  repeat match goal with
  | |- context [says (Some ?x) ?y] =>
      let r := eval vm_compute in (says (Some x) y) in change (says (Some x) y) with r
  end; cbn [andb orb].

Class SerdeJsonLaws (J : SerdeJson) : Prop := {
  as_u64_width v n : as_u64 v = Some n → is_u64 n;
  as_u64_U64 n : is_u64 n → as_u64 (U64 n) = Some n;
  as_str_Str s : as_str (Str s) = Some s;
  get_Object fs k :
    NoDup fs.*1 → get (Object fs) k = (list_to_map fs : gmap string Value) !! k;
  is_object_Object fs : is_object (Object fs) = true;
  get_not_object v k : is_object v = false → get v k = None;
  get_insert_eq v k x : is_object v = true → get (insert_field v k x) k = Some x;
  get_insert_ne v k k' x :
    is_object v = true → k ≠ k' → get (insert_field v k x) k' = get v k';
  is_object_insert v k x : is_object v = true → is_object (insert_field v k x) = true;
  pointer_two v k1 k2 :
    field_name k1 = true → field_name k2 = true →
    pointer v ("/" +:+ k1 +:+ "/" +:+ k2) = get v k1 ≫= λ w, get w k2;
  as_array_Array l : as_array (Array l) = Some l;
  as_str_Null : as_str Null = None;
  as_array_Null : as_array Null = None;
}.

(** ** Reading literals

    [json_simpl] reads fields out of [json!] literals and through insertions. *)

Section Reading.
Context `{SerdeJsonLaws}.

Lemma get_hit k v fs : NoDup (k :: fs.*1) → get (Object ((k, v) :: fs)) k = Some v.
Proof. intros. rewrite get_Object by done. apply lookup_insert_eq. Qed.

Lemma get_skip k k' v fs :
  NoDup (k' :: fs.*1) → k' ≠ k → get (Object ((k', v) :: fs)) k = get (Object fs) k.
Proof.
  intros Hnd Hne. apply list.NoDup_cons in Hnd as Hnd'. rewrite !get_Object by naive_solver.
  by apply lookup_insert_ne.
Qed.

Lemma get_empty k : get {{ }} k = None.
Proof. rewrite get_Object by constructor. apply lookup_empty. Qed.

End Reading.

Ltac closed_nodup := csimpl; apply (bool_decide_unpack _); vm_compute; exact I.

Ltac object_solve := repeat (first [assumption | apply is_object_insert | apply is_object_Object]).

Ltac json_simpl :=
  repeat (first
    [ rewrite get_hit by closed_nodup
    | rewrite get_skip by first [closed_nodup | done]
    | rewrite get_empty
    | rewrite get_insert_eq by object_solve
    | rewrite get_insert_ne by first [done | object_solve]
    | rewrite is_object_Object
    | rewrite is_object_insert by object_solve
    | rewrite as_str_Str | rewrite as_array_Array
    | rewrite as_u64_U64 by (done || width_lia) ]; simpl).

(** ** One implementation *)

Inductive json :=
| JNull
| JBool (x : bool)
| JU64 (n : Z)
| JNumber (literal : string)
| JStr (s : string)
| JArr (items : list json)
| JObj (fields : list (string * json)).

Module JsonModel.

Fixpoint find_field (fs : list (string * json)) (k : string) : option json :=
  match fs with
  | [] => None
  | (k', v) :: fs => if decide (k' = k) then Some v else find_field fs k
  end.

Fixpoint set_field (fs : list (string * json)) (k : string) (x : json) : list (string * json) :=
  match fs with
  | [] => [(k, x)]
  | (k', v) :: fs =>
      if decide (k' = k) then (k, x) :: fs else (k', v) :: set_field fs k x
  end.

Definition get (v : json) (k : string) : option json :=
  match v with JObj fs => find_field fs k | _ => None end.

(** A JSON pointer is its reference tokens; the model follows object fields. *)
Fixpoint tokens (s : bytes) (current : bytes) : list bytes :=
  match s with
  | [] => [current]
  | c :: s => if decide (c = "/"%char) then current :: tokens s [] else tokens s (current ++ [c])
  end.

Definition pointer (v : json) (p : string) : option json :=
  match tokens (b p) [] with
  | [] :: path => foldl (λ o k, match o with Some v => get v (text k) | None => None end) (Some v) path
  | _ => None
  end.

End JsonModel.

Definition json_model (parse : string → result string json) (print : json → string) : SerdeJson := {|
  Value := json;
  get := JsonModel.get;
  pointer := JsonModel.pointer;
  as_str v := match v with JStr s => Some s | _ => None end;
  as_u64 v := match v with JU64 n => if (0 <=? n) && (n <=? U64_MAX) then Some n else None | _ => None end;
  as_array v := match v with JArr l => Some l | _ => None end;
  as_bool v := match v with JBool x => Some x | _ => None end;
  is_object v := match v with JObj _ => true | _ => false end;
  is_null v := match v with JNull => true | _ => false end;
  Null := JNull;
  Bool := JBool;
  Str := JStr;
  U64 := JU64;
  Array := JArr;
  Object := JObj;
  insert_field v k x := match v with JObj fs => JObj (JsonModel.set_field fs k x) | _ => v end;
  from_str := parse;
  to_string := print;
|}.

Lemma find_set_eq fs k x : JsonModel.find_field (JsonModel.set_field fs k x) k = Some x.
Proof.
  induction fs as [|[k' v] fs IH]; simpl; [by rewrite decide_True|].
  case_decide; simpl; [by rewrite decide_True|by rewrite decide_False].
Qed.

Lemma find_set_ne fs k k' x :
  k ≠ k' → JsonModel.find_field (JsonModel.set_field fs k x) k' = JsonModel.find_field fs k'.
Proof.
  intros Hne. induction fs as [|[q v] fs IH]; simpl; [by rewrite decide_False|].
  case_decide; subst; simpl; [by rewrite !decide_False|].
  case_decide; [done|apply IH].
Qed.

Lemma find_list_to_map fs k :
  JsonModel.find_field fs k = (list_to_map fs : gmap string json) !! k.
Proof.
  induction fs as [|[q v] fs IH]; simpl; [by rewrite lookup_empty|].
  rewrite lookup_insert. case_decide; [done|apply IH].
Qed.

Lemma tokens_field s rest cur :
  forallb field_char s = true →
  JsonModel.tokens (s ++ "/"%char :: rest) cur = (cur ++ s) :: JsonModel.tokens rest [].
Proof.
  revert cur. induction s as [|c s IH]; intros cur; simpl; [by rewrite app_nil_r|].
  intros [Hc Hs]%andb_prop. rewrite decide_False by (intros ->; done).
  rewrite (IH (cur ++ [c]) Hs). by rewrite <-app_assoc.
Qed.

Lemma tokens_last s cur : forallb field_char s = true → JsonModel.tokens s cur = [cur ++ s].
Proof.
  revert cur. induction s as [|c s IH]; intros cur; simpl; [by rewrite app_nil_r|].
  intros [Hc Hs]%andb_prop. rewrite decide_False by (intros ->; done).
  rewrite (IH (cur ++ [c]) Hs). by rewrite <-app_assoc.
Qed.

#[export] Instance json_model_laws parse print : SerdeJsonLaws (json_model parse print).
Proof.
  split; simpl.
  - intros v m. destruct v; try done. case_match; intros; simplify_eq. by reflect_bools.
  - intros n [??]. by rewrite (proj2 (Z.leb_le 0 n)), (proj2 (Z.leb_le n U64_MAX)).
  - done.
  - intros fs k _. apply find_list_to_map.
  - done.
  - by intros v k; destruct v.
  - intros v k y ?; destruct v; try done. apply find_set_eq.
  - intros v k k' y ? ?; destruct v; try done. by apply find_set_ne.
  - by intros v k y ?; destruct v.
  - intros v k1 k2 [_ H1]%andb_prop [_ H2]%andb_prop. unfold JsonModel.pointer.
    replace (b ("/" +:+ k1 +:+ "/" +:+ k2)) with ("/"%char :: b k1 ++ "/"%char :: b k2)
      by by rewrite !b_app.
    simpl. rewrite tokens_field, tokens_last by done. simpl. rewrite !text_b. by destruct (JsonModel.get v k1).
  - done.
  - done.
  - done.
Qed.

(** A library of one value, for witnesses whose events carry no JSON of interest. *)
Definition unit_json : SerdeJson := {|
  Value := unit;
  get _ _ := None; pointer _ _ := None; as_str _ := None; as_u64 _ := None; as_array _ := None;
  as_bool _ := None; is_object _ := false; is_null _ := true; Null := tt; Bool _ := tt; Str _ := tt;
  U64 _ := tt; Array _ := tt; Object _ := tt; insert_field v _ _ := v; from_str _ := Ok tt;
  to_string _ := "null"%string |}.

Definition unit_value_eq : EqDecision (@Value unit_json) := unit_eq_dec.
