(* ===== verification/ProviderError.v ===== *)
(** * Provider errors and the failover policy
    ([crates/gateway-core/src/error.rs], [crates/gateway-core/src/failover.rs]).

    How an upstream failure is classified — retryable, health-affecting,
    credential-scoped — and how much of its text is carried. *)

From S2P Require Import Prelude Text Json.

Module ProviderError.

Definition MAX_DIAGNOSTIC_BYTES : nat := 4 * 1024.
Definition DIAGNOSTIC_TRUNCATION_MARKER : bytes := b "… [truncated]".

Record DependencyFailure := mkFailure {
  provider : string;
  status : option Z;
  message : string;
}.

#[global] Instance DependencyFailure_eq_dec : EqDecision DependencyFailure.
Proof. solve_decision. Defined.

Inductive ProviderError :=
| InvalidRequest (m : string)
| ContextWindowExceeded (m : string)
| Unsupported (m : string)
| ModelUnavailable (failures : list DependencyFailure)
| Dependency (failures : list DependencyFailure)
| InvalidStream (m : string)
| RateLimitedStream (m : string)
| AllCircuitsOpen (providers : list string).

#[global] Instance ProviderError_eq_dec : EqDecision ProviderError.
Proof. solve_decision. Defined.

Definition code (e : ProviderError) : string :=
  match e with
  | InvalidRequest _ => "invalid_request"
  | ContextWindowExceeded _ => "context_window_exceeded"
  | Unsupported _ => "unsupported"
  | ModelUnavailable _ => "model_unavailable"
  | Dependency _ => "provider_dependency_failed"
  | InvalidStream _ => "invalid_stream"
  | RateLimitedStream _ => "provider_rate_limited"
  | AllCircuitsOpen _ => "all_provider_circuits_open"
  end.

(** Cut to the bound on a character boundary and append the marker. *)
Definition bounded (m : string) : string :=
  let bs := b m in
  if (length bs <=? MAX_DIAGNOSTIC_BYTES)%nat then m
  else text (take (floor_char_boundary bs MAX_DIAGNOSTIC_BYTES) bs
             ++ DIAGNOSTIC_TRUNCATION_MARKER).

Definition CONTEXT_LENGTH_SIGNALS : list string :=
  ["context_length_exceeded"; "context length"; "context window"; "prompt is too long";
   "prompt too long"; "maximum number of tokens"; "too many tokens"; "maximum prompt length"].

Definition is_context_length_error (t : string) : bool :=
  let t := to_ascii_lowercase (b t) in
  existsb (λ signal, contains (b signal) t) CONTEXT_LENGTH_SIGNALS.

Definition invalid_stream (m : string) : ProviderError := InvalidStream (bounded m).
Definition rate_limited_stream (m : string) : ProviderError := RateLimitedStream (bounded m).

Definition transport (provider m : string) : ProviderError :=
  Dependency [{| provider := provider; status := None; message := bounded m |}].

Definition failure_is_transient (f : DependencyFailure) : bool :=
  match status f with None => true | Some s => (s =? 429) || (500 <=? s) end.

Definition is_retryable (e : ProviderError) : bool :=
  match e with
  | Dependency failures =>
      match failures with [] => false | _ => forallb failure_is_transient failures end
  | ModelUnavailable _ => true
  | _ => false
  end.

Definition affects_provider_health (e : ProviderError) : bool :=
  match e with Dependency _ => is_retryable e | _ => false end.

Definition is_stream_rate_limited (e : ProviderError) : bool :=
  match e with RateLimitedStream _ => true | _ => false end.

Definition is_credential_rate_limited (e : ProviderError) : bool :=
  match e with
  | RateLimitedStream _ => true
  | Dependency failures => existsb (λ f, bool_decide (status f = Some 429)) failures
  | _ => false
  end.

Section Json.
Context {J : SerdeJson}.

Definition extract_message (body : string) : string :=
  default body
    (match from_str body with
     | Err _ => None
     | Ok value => or_else (pointer value "/error/message") (get value "message") ≫= as_str
     end).

Definition from_upstream (prov : string) (st : Z) (body : string) : ProviderError :=
  let m := bounded (extract_message body) in
  if is_context_length_error body || is_context_length_error m then ContextWindowExceeded m
  else
    let failure := {| provider := prov; status := Some st; message := m |} in
    if st =? 404 then ModelUnavailable [failure]
    else if (400 <=? st) && (st <? 500) && negb (st =? 429) then InvalidRequest m
    else Dependency [failure].

Definition is_rate_limit_payload (value : Value) : bool :=
  let error := get value "error" in
  let error_shaped :=
    match error with Some _ => true | None => false end
    || bool_decide (get value "type" ≫= as_str = Some "error"%string) in
  if negb error_shaped then false
  else
    let status_is_429 :=
      existsb (λ s, bool_decide (as_u64 s = Some 429) || bool_decide (as_str s = Some "429"%string))
        (option_list (get value "status") ++ option_list (pointer value "/error/status")) in
    if status_is_429 then true
    else
      existsb (λ signal, contains (b "rate_limit") (b signal) || bool_decide (signal = "429"%string))
        (option_list (pointer value "/error/type" ≫= as_str)
         ++ option_list (pointer value "/error/code" ≫= λ c,
              or_else (as_str c) (if bool_decide (as_u64 c = Some 429) then Some "429"%string else None))
         ++ option_list (pointer value "/type" ≫= as_str)
         ++ option_list (pointer value "/code" ≫= as_str)).

End Json.

(** ** Failover *)

Record FailoverTarget := mkTarget { target_provider : string; target_model : string }.

Definition qualified_model (t : FailoverTarget) : string :=
  target_provider t +:+ "/" +:+ target_model t.

Inductive FailoverDecision := TryNext | Return.

Definition decide_failover (e : ProviderError) (has_next : bool) : FailoverDecision :=
  if has_next && is_retryable e then TryNext else Return.

Definition ordered_targets (targets : list FailoverTarget)
    : result ProviderError (list FailoverTarget) :=
  match targets with
  | [] => Err (InvalidRequest "at least one provider target is required")
  | _ => Ok targets
  end.

(** ** Lemmas *)

(** The text an error shows its reader. *)
Definition diagnostics (e : ProviderError) : list string :=
  match e with
  | InvalidRequest m | ContextWindowExceeded m | Unsupported m
  | InvalidStream m | RateLimitedStream m => [m]
  | ModelUnavailable fs | Dependency fs => message <$> fs
  | AllCircuitsOpen ps => ps
  end.

Lemma bounded_length m :
  (length (b (bounded m)) ≤ MAX_DIAGNOSTIC_BYTES + length DIAGNOSTIC_TRUNCATION_MARKER)%nat.
Proof.
  unfold bounded. cbv zeta.
  destruct (Nat.leb_spec (length (b m)) MAX_DIAGNOSTIC_BYTES); [lia|].
  rewrite b_text, length_app, length_take.
  pose proof (floor_char_boundary_le (b m) MAX_DIAGNOSTIC_BYTES). lia.
Qed.

Lemma floor_boundary_take bs i :
  (i ≤ length bs)%nat → is_char_boundary bs (length (take (floor_char_boundary bs i) bs)) = true.
Proof.
  intros. rewrite length_take, Nat.min_l; [apply floor_char_boundary_ok|].
  pose proof (floor_char_boundary_le bs i). lia.
Qed.

Lemma from_upstream_bounded {J : SerdeJson} prov st body :
  Forall (λ d, (length (b d) ≤ MAX_DIAGNOSTIC_BYTES + length DIAGNOSTIC_TRUNCATION_MARKER)%nat)
    (diagnostics (from_upstream prov st body)).
Proof.
  unfold from_upstream. cbv zeta.
  repeat case_match; apply Forall_singleton, bounded_length.
Qed.

(** ** Properties *)

(** a diagnostic carries at most 4096 bytes of its text plus the marker;
    text within the bound is untouched, and longer text is cut to a prefix that
    ends on a character boundary. *)
Theorem bounded_spec (m : string) :
  (length (b (bounded m)) ≤ MAX_DIAGNOSTIC_BYTES + 15)%nat ∧
  ((length (b m) ≤ MAX_DIAGNOSTIC_BYTES)%nat → bounded m = m) ∧
  ((MAX_DIAGNOSTIC_BYTES < length (b m))%nat →
    ∃ kept rest, b m = kept ++ rest ∧ is_char_boundary (b m) (length kept) = true ∧
      (length kept ≤ MAX_DIAGNOSTIC_BYTES)%nat ∧
      b (bounded m) = kept ++ DIAGNOSTIC_TRUNCATION_MARKER).
Proof.
  split; [exact (bounded_length m)|]. unfold bounded. cbv zeta.
  destruct (Nat.leb_spec (length (b m)) MAX_DIAGNOSTIC_BYTES); split; try done; try lia.
  intros Hlong. set (cut := floor_char_boundary (b m) MAX_DIAGNOSTIC_BYTES).
  exists (take cut (b m)), (drop cut (b m)). rewrite b_text, take_drop.
  split; [done|]. split; [apply floor_boundary_take; lia|]. split; [|done].
  rewrite length_take. pose proof (floor_char_boundary_le (b m) MAX_DIAGNOSTIC_BYTES). lia.
Qed.

(** the upstream status alone decides how a failure that is not a
    context-length error is treated: it is retried exactly for 404, 429 and 5xx
    and above, it counts against the target's health exactly for 429 and 5xx and
    above, and it is blamed on the credential exactly for 429. *)
Theorem from_upstream_classification {J : SerdeJson} (prov : string) (st : Z) (body : string) :
  is_context_length_error body = false →
  is_context_length_error (bounded (extract_message body)) = false →
  let e := from_upstream prov st body in
  (is_retryable e = true ↔ st = 404 ∨ st = 429 ∨ 500 ≤ st) ∧
  (affects_provider_health e = true ↔ st = 429 ∨ 500 ≤ st) ∧
  (is_credential_rate_limited e = true ↔ st = 429).
Proof.
  intros H1 H2. unfold from_upstream. cbv zeta. rewrite H1, H2. cbn [orb].
  destruct (Z.eqb_spec st 404); [subst; simpl; naive_solver lia|].
  destruct ((400 <=? st) && (st <? 500) && negb (st =? 429)) eqn:E; simpl.
  - reflect_bools. naive_solver lia.
  - unfold failure_is_transient; simpl.
    destruct (Z.eqb_spec st 429), (Z.leb_spec 500 st); simpl;
      case_bool_decide; simplify_eq; simpl; naive_solver lia.
Qed.

Lemma from_upstream_classification_witness :
  let J := json_model (λ s, Err "no JSON"%string) (λ _, EmptyString) in
  is_retryable (@from_upstream J "p" 503 "upstream unavailable") = true.
Proof.
  apply (@from_upstream_classification (json_model (λ s, Err "no JSON"%string) (λ _, EmptyString))
    "p" 503 "upstream unavailable"); [vm_compute; reflexivity|vm_compute; reflexivity|lia].
Defined.

(** every error built from upstream text — a failure body, a transport
    error, a malformed or rate-limited stream — has bounded diagnostics, and a
    context-length failure is neither retried nor held against the target or the
    credential. *)
Theorem upstream_diagnostics_bounded {J : SerdeJson} (prov : string) (st : Z) (body m : string) :
  Forall (λ e, Forall (λ d, (length (b d) ≤ MAX_DIAGNOSTIC_BYTES + 15)%nat) (diagnostics e))
    [from_upstream prov st body; transport prov m; invalid_stream m; rate_limited_stream m] ∧
  (is_context_length_error body = true →
    let e := from_upstream prov st body in
    is_retryable e = false ∧ affects_provider_health e = false ∧
    is_credential_rate_limited e = false).
Proof.
  split.
  - apply Forall_cons_2; [apply from_upstream_bounded|].
    do 3 (apply Forall_cons_2; [apply Forall_singleton, bounded_length|]). constructor.
  - intros Hc. unfold from_upstream. cbv zeta. by rewrite Hc.
Qed.

Lemma upstream_diagnostics_bounded_witness :
  let J := json_model (λ s, Err "no JSON"%string) (λ _, EmptyString) in
  is_retryable (@from_upstream J "p" 500 "prompt is too long") = false.
Proof.
  refine (proj1 (proj2 (@upstream_diagnostics_bounded
    (json_model (λ s, Err "no JSON"%string) (λ _, EmptyString)) "p" 500 "prompt is too long" "m") _)).
  vm_compute. reflexivity.
Defined.

End ProviderError.
