(* ===== verification/Scopes.v ===== *)
(** * Namespace identifiers, namespace grants and model globs
    ([crates/gateway/src/namespace.rs], [crates/gateway/src/aliases.rs],
    the glob helpers of [crates/gateway/src/config.rs]). *)

From S2P Require Import Prelude Text.

(** ** Alias patterns *)
Module Aliases.

Inductive AliasPattern :=
| Exact (value : bytes)
| Prefix (value : bytes)
| Suffix (value : bytes)
| Any.

Record AliasScope := mkScope { patterns : list AliasPattern }.

Inductive InvalidAliasPattern := InvalidPattern (pattern : bytes).

Definition STAR : ascii := "*".

Definition stars (pattern : bytes) : nat := length (filter (λ c, c = STAR) pattern).

Definition parse_one (pattern : bytes) : result InvalidAliasPattern AliasPattern :=
  let n := stars pattern in
  if bool_decide (pattern = []) || (1 <? n)%nat
     || ((n =? 1)%nat && negb (starts_with [STAR] pattern) && negb (ends_with [STAR] pattern))
  then Err (InvalidPattern pattern)
  else Ok (if (n =? 0)%nat then Exact pattern
           else if bool_decide (pattern = [STAR]) then Any
           else if starts_with [STAR] pattern then Suffix (drop 1 pattern)
           else Prefix (take (length pattern - 1) pattern)).

(** [collect::<Result<Vec<_>, _>>()]: the first refusal ends the parse. *)
Fixpoint parse_all (ps : list bytes) : result InvalidAliasPattern (list AliasPattern) :=
  match ps with
  | [] => Ok []
  | p :: ps => x ← parse_one p; xs ← parse_all ps; mret (x :: xs)
  end.

Definition parse (ps : list bytes) : result InvalidAliasPattern AliasScope :=
  mkScope <$> parse_all ps.

Definition pattern_permits (alias : bytes) (p : AliasPattern) : bool :=
  match p with
  | Exact value => bool_decide (alias = value)
  | Prefix value => starts_with value alias
  | Suffix value => ends_with value alias
  | Any => true
  end.

Definition permits (s : AliasScope) (alias : bytes) : bool :=
  existsb (pattern_permits alias) (patterns s).

(** [config.rs]: a glob is a scope of one pattern, and an invalid one permits
    nothing. *)
Definition parse_glob (pattern : bytes) : result bytes AliasScope :=
  map_err (λ _, pattern) (parse [pattern]).

Definition glob_permits (pattern value : bytes) : bool :=
  match parse_glob pattern with Ok s => permits s value | Err _ => false end.

(** The blocklist test: the deployment's globs, then the namespace's, each
    against the prefixed and the bare model id. *)
Definition is_blocked (models extra : list bytes) (prefixed bare : bytes) : bool :=
  existsb (λ p, glob_permits p prefixed || glob_permits p bare) (models ++ extra).

(** *** Reference: the language of a pattern

    A star stands for any text; every other byte stands for itself. *)
Inductive matches : bytes → bytes → Prop :=
| matches_nil : matches [] []
| matches_char c p v : c ≠ STAR → matches p v → matches (c :: p) (c :: v)
| matches_star p v w : matches p v → matches (STAR :: p) (w ++ v).

(** A pattern of the documented grammar: an exact id, [prefix*], [*suffix] or
    [*]. *)
Inductive glob_grammar : bytes → Prop :=
| glob_exact p : p ≠ [] → STAR ∉ p → glob_grammar p
| glob_prefix p : STAR ∉ p → glob_grammar (p ++ [STAR])
| glob_suffix p : STAR ∉ p → glob_grammar (STAR :: p).

Lemma stars_zero p : stars p = 0%nat ↔ STAR ∉ p.
Proof.
  unfold stars. induction p as [|c p IH]; [split; [intros _; apply not_elem_of_nil|done]|].
  rewrite filter_cons, not_elem_of_cons. case_decide; simpl.
  - split; [done|]. intros [? _]. congruence.
  - rewrite IH. split; intros; [split; [congruence|tauto]|tauto].
Qed.

Lemma stars_app p q : stars (p ++ q) = (stars p + stars q)%nat.
Proof. unfold stars. by rewrite list.filter_app, length_app. Qed.

Lemma stars_cons_star p : stars (STAR :: p) = S (stars p).
Proof. unfold stars. rewrite filter_cons_True by done. done. Qed.

Lemma starts_with_star p : starts_with [STAR] p = true ↔ ∃ q, p = STAR :: q.
Proof. rewrite starts_with_spec. done. Qed.

Lemma ends_with_spec suffix s : ends_with suffix s = true ↔ ∃ r, s = r ++ suffix.
Proof.
  unfold ends_with. rewrite starts_with_spec. split.
  - intros [r Hr]. exists (reverse r).
    rewrite <-(reverse_involutive s), Hr, reverse_app, reverse_involutive. done.
  - intros [r ->]. exists (reverse r). by rewrite reverse_app.
Qed.

Lemma matches_literal p v : STAR ∉ p → matches p v ↔ v = p.
Proof.
  revert v. induction p as [|c p IH]; intros v Hp.
  - split; [by inversion 1|intros ->; constructor].
  - apply not_elem_of_cons in Hp as [Hc Hp]. split.
    + inversion 1; subst; [|done]. f_equal. by apply IH.
    + intros ->. constructor; [done|]. by apply IH.
Qed.

Lemma matches_prefix p v : STAR ∉ p → matches (p ++ [STAR]) v ↔ ∃ r, v = p ++ r.
Proof.
  revert v. induction p as [|c p IH]; intros v Hp; simpl.
  - split; [eauto|]. intros [r ->]. rewrite <-(app_nil_r r). constructor. constructor.
  - apply not_elem_of_cons in Hp as [Hc Hp]. split.
    + inversion 1 as [| ? ? v' ? Hm|]; subst; [|done].
      apply IH in Hm as [r ->]; [|done]. by exists r.
    + intros [r ->]. constructor; [done|]. apply IH; eauto.
Qed.

Lemma matches_suffix p v : STAR ∉ p → matches (STAR :: p) v ↔ ∃ r, v = r ++ p.
Proof.
  intros Hp. split.
  - inversion 1 as [| |? v' w Hm]; subst; [done|].
    apply matches_literal in Hm as ->; eauto.
  - intros [r ->]. constructor. by apply matches_literal.
Qed.

(** The three forms [parse_one] accepts. *)
Lemma parse_one_exact p : p ≠ [] → STAR ∉ p → parse_one p = Ok (Exact p).
Proof.
  intros Hne Hp. apply stars_zero in Hp. unfold parse_one. cbv zeta. rewrite Hp.
  by rewrite bool_decide_false.
Qed.

Lemma parse_one_suffix p : STAR ∉ p →
  parse_one (STAR :: p) = Ok (if bool_decide (p = []) then Any else Suffix p).
Proof.
  intros Hp. apply stars_zero in Hp. unfold parse_one. cbv zeta.
  rewrite stars_cons_star, Hp. cbn. do 2 case_bool_decide; simplify_eq; done.
Qed.

Lemma parse_one_prefix p : p ≠ [] → STAR ∉ p → parse_one (p ++ [STAR]) = Ok (Prefix p).
Proof.
  intros Hne Hp. unfold parse_one. cbv zeta.
  rewrite stars_app, (proj2 (stars_zero p)) by done.
  rewrite (proj2 (ends_with_spec _ _)) by eauto.
  destruct p as [|c p]; [done|]. apply not_elem_of_cons in Hp as [Hc _].
  assert (starts_with [STAR] ((c :: p) ++ [STAR]) = false) as ->.
  { apply not_true_is_false. intros Hstar. apply starts_with_star in Hstar as [q Hq].
    simpl in Hq. congruence. }
  rewrite !bool_decide_false by (destruct p; naive_solver).
  rewrite length_app, Nat.add_sub, take_app_length. done.
Qed.

Lemma parse_one_ok p : is_ok (parse_one p) = true → glob_grammar p.
Proof.
  unfold parse_one. cbv zeta. intros H.
  destruct (_ || _) eqn:E in H; [done|]. clear H.
  apply orb_false_elim in E as [E Hends]. apply orb_false_elim in E as [Hne Hn].
  apply bool_decide_eq_false in Hne. apply Nat.ltb_ge in Hn.
  destruct (stars p) as [|[|n]] eqn:Hs; [|clear Hn|lia].
  - constructor; [done|]. by apply stars_zero.
  - simpl in Hends. apply andb_false_iff in Hends as [Hends|Hends]; apply negb_false_iff in Hends.
    + apply starts_with_star in Hends as [q ->]. rewrite stars_cons_star in Hs.
      apply glob_suffix, stars_zero. lia.
    + apply ends_with_spec in Hends as [q ->]. rewrite stars_app, stars_cons_star in Hs.
      apply glob_prefix, stars_zero. lia.
Qed.

Lemma glob_permits_one p v x :
  parse_one p = Ok x → glob_permits p v = pattern_permits v x.
Proof. intros H. unfold glob_permits, parse_glob, parse. simpl. rewrite H. simpl. apply orb_false_r. Qed.

Lemma glob_permits_grammar p v :
  glob_grammar p → (glob_permits p v = true ↔ matches p v).
Proof.
  destruct 1 as [p Hne Hp|p Hp|p Hp].
  - rewrite (glob_permits_one _ _ _ (parse_one_exact p Hne Hp)), matches_literal by done.
    simpl. by rewrite bool_decide_eq_true.
  - rewrite matches_prefix by done. destruct (decide (p = [])) as [->|Hne].
    + rewrite app_nil_l, (glob_permits_one [STAR] v Any) by done. simpl. split; eauto.
    + rewrite (glob_permits_one _ _ _ (parse_one_prefix p Hne Hp)). apply starts_with_spec.
  - rewrite matches_suffix by done.
    rewrite (glob_permits_one _ _ _ (parse_one_suffix p Hp)). case_bool_decide; simpl.
    + subst. split; [|done]. intros _. exists v. by rewrite app_nil_r.
    + apply ends_with_spec.
Qed.

Lemma glob_permits_invalid p v : glob_permits p v = true → glob_grammar p.
Proof.
  intros H. apply parse_one_ok. unfold glob_permits, parse_glob, parse in H. simpl in H.
  by destruct (parse_one p).
Qed.

(** a glob permits a value exactly when the pattern is one of the documented
    forms (an exact id, [prefix*], [*suffix], [*]) and the value is the pattern
    with the star replaced by some text; every other pattern fails closed and
    permits nothing. *)
Theorem glob_permits_spec (pattern value : bytes) :
  glob_permits pattern value = true ↔ glob_grammar pattern ∧ matches pattern value.
Proof.
  split.
  - intros H. pose proof (glob_permits_invalid _ _ H). split; [done|].
    by apply glob_permits_grammar.
  - intros [Hg Hm]. by apply glob_permits_grammar.
Qed.

End Aliases.

(** ** Namespaces *)
Module Namespace.

Inductive NamespaceId := mkNamespaceId (inner : bytes).

#[global] Instance NamespaceId_eq_dec : EqDecision NamespaceId.
Proof. solve_decision. Defined.
#[global] Instance NamespaceId_countable : Countable NamespaceId.
Proof. apply (inj_countable' (λ '(mkNamespaceId s), s) mkNamespaceId). by intros []. Defined.

Inductive InvalidNamespaceId :=
| Empty
| TooLong (max : nat)
| Character
| Boundary.

Definition MAX_LEN : nat := 128.

Definition as_str (n : NamespaceId) : bytes := let 'mkNamespaceId s := n in s.

Definition id_byte (c : ascii) : bool :=
  is_ascii_alphanumeric c || bool_decide (c = "-"%char) || bool_decide (c = "_"%char)
  || bool_decide (c = "."%char).

Definition is_some_and {A} (p : A → bool) (o : option A) : bool :=
  match o with Some a => p a | None => false end.

Definition parse (input : bytes) : result InvalidNamespaceId NamespaceId :=
  match input with [] => Err Empty | _ =>
  if (MAX_LEN <? length input)%nat then Err (TooLong MAX_LEN)
  else if negb (forallb id_byte input) then Err Character
  else if negb (is_some_and is_ascii_alphanumeric (head input))
          || negb (is_some_and is_ascii_alphanumeric (list.last input)) then Err Boundary
  else Ok (mkNamespaceId input)
  end.

Inductive GrantKind := GrantAll | GrantSet (namespaces : gset NamespaceId).

Definition NamespaceGrant := GrantKind.

Definition one (n : NamespaceId) : NamespaceGrant := GrantSet {[n]}.
Definition all : NamespaceGrant := GrantAll.

Definition permits (g : NamespaceGrant) (n : NamespaceId) : bool :=
  match g with GrantAll => true | GrantSet ns => bool_decide (n ∈ ns) end.


Lemma parse_ok input n : parse input = Ok n →
  n = mkNamespaceId input ∧ (0 < length input ≤ MAX_LEN)%nat ∧ forallb id_byte input = true ∧
  is_some_and is_ascii_alphanumeric (head input) = true ∧
  is_some_and is_ascii_alphanumeric (list.last input) = true.
Proof.
  unfold parse. destruct input as [|c input]; [done|]. remember (c :: input) as s.
  destruct (Nat.ltb_spec MAX_LEN (length s)); [done|].
  destruct (forallb id_byte s); [|done].
  destruct (is_some_and _ (head s)), (is_some_and _ (list.last s)); simpl; intros; simplify_eq/=.
  repeat split; lia.
Qed.

(** parsing a namespace identifier accepts exactly the texts of one to 128
    bytes made of ASCII letters, digits, [-], [_] and [.] that begin and end
    with a letter or digit; the accepted identifier prints back as its input,
    contains no [/], and a grant for one namespace permits that namespace and no
    other. *)
Theorem namespace_parse_spec (input : bytes) :
  (is_ok (parse input) = true ↔
    (0 < length input ≤ MAX_LEN)%nat ∧ Forall (λ c, id_byte c = true) input ∧
    is_some_and is_ascii_alphanumeric (head input) = true ∧
    is_some_and is_ascii_alphanumeric (list.last input) = true) ∧
  ∀ n, parse input = Ok n →
    as_str n = input ∧ "/"%char ∉ as_str n ∧
    ∀ m, permits (one n) m = true ↔ as_str m = input.
Proof.
  split.
  - split.
    + destruct (parse input) as [n|] eqn:E; [|done]. intros _.
      apply parse_ok in E as (_ & ? & Hall & ? & ?). repeat split; try done; try lia.
      by apply forallb_true.
    + intros ([H0 H1] & Hall & Hh & Hl). unfold parse.
      destruct input as [|c input]; [simpl in H0; lia|]. remember (c :: input) as s.
      destruct (Nat.ltb_spec MAX_LEN (length s)); [lia|].
      by rewrite (proj2 (forallb_true id_byte s)), Hh, Hl.
  - intros n E. apply parse_ok in E as (-> & _ & Hall & _). split; [done|]. split.
    + intros Hin. apply forallb_true in Hall.
      pose proof (proj1 (list.Forall_forall _ _) Hall _ Hin) as Hs. vm_compute in Hs. done.
    + intros m. simpl. rewrite bool_decide_eq_true, elem_of_singleton.
      destruct m; simpl; naive_solver.
Qed.

Lemma namespace_parse_spec_witness :
  parse (b "team-a.prod") = Ok (mkNamespaceId (b "team-a.prod")) ∧
  permits (one (mkNamespaceId (b "team-a.prod"))) (mkNamespaceId (b "team-b")) = false.
Proof.
  split; [vm_compute; reflexivity|]. apply not_true_is_false. intros H.
  apply (proj2 (namespace_parse_spec (b "team-a.prod")) (mkNamespaceId (b "team-a.prod"))
    ltac:(vm_compute; reflexivity)) in H. done.
Defined.

End Namespace.
