(* ===== verification/Pricing.v ===== *)
(** * Usage, rates and charges
    ([crates/gateway-core/src/catalog.rs], [crates/gateway-core/src/provider.rs],
    [crates/gateway/src/pricing.rs], [crates/gateway/src/backends/catalog_price.rs],
    the price book of [config.rs] and the price resolution of [routes/mod.rs]).

    Rates are integer micro-dollars per million tokens, token counts are [u64],
    intermediate products are [u128]. *)

From S2P Require Import Prelude Text Json Scopes.

Module Pricing.

Record Usage := mkUsage {
  input_tokens : Z;
  output_tokens : Z;
  reasoning_tokens : Z;
  cache_read_tokens : Z;
  cache_write_tokens : Z;
}.

Record ModelPrice := mkPrice {
  input_microdollars_per_million : Z;
  output_microdollars_per_million : Z;
  reasoning_microdollars_per_million : option Z;
  cache_read_microdollars_per_million : option Z;
  cache_write_microdollars_per_million : option Z;
}.

#[global] Instance Usage_eq_dec : EqDecision Usage.
Proof. solve_decision. Defined.
#[global] Instance ModelPrice_eq_dec : EqDecision ModelPrice.
Proof. solve_decision. Defined.

Definition component (tokens microdollars_per_million : Z) : Z :=
  saturating_mul U128_MAX tokens microdollars_per_million `div` 1000000.

Definition cost_microdollars (p : ModelPrice) (u : Usage) : Z :=
  let add := saturating_add U128_MAX in
  let billed_output_tokens := saturating_sub (output_tokens u) (reasoning_tokens u) in
  let cost :=
    add (add (add (add
      (component (input_tokens u) (input_microdollars_per_million p))
      (component billed_output_tokens (output_microdollars_per_million p)))
      (component (reasoning_tokens u)
        (default (output_microdollars_per_million p) (reasoning_microdollars_per_million p))))
      (component (cache_read_tokens u)
        (default (input_microdollars_per_million p) (cache_read_microdollars_per_million p))))
      (component (cache_write_tokens u)
        (default (input_microdollars_per_million p) (cache_write_microdollars_per_million p))) in
  if cost <=? U64_MAX then cost else U64_MAX.

Record CatalogModel := mkCatalogModel { id : string; price : ModelPrice }.
Record ModelCatalog := mkCatalog { version : Z; models : list CatalogModel }.

Record UsageReceipt := mkReceipt {
  catalog_version : Z;
  receipt_model : string;
  receipt_price : ModelPrice;
  receipt_usage : Usage;
  receipt_cost_microdollars : Z;
}.

Definition normalized_cost_microdollars (r : UsageReceipt) : Z := receipt_cost_microdollars r.

Inductive CatalogError :=
| DuplicateModel (m : string)
| UnknownModel (m : string)
| CostOverflow.

(** The loop of [validate]: [HashMap::insert] returns the previous entry. *)
Fixpoint validate_from (seen : gset string) (ms : list CatalogModel) : result CatalogError unit :=
  match ms with
  | [] => Ok tt
  | m :: ms =>
      if decide (id m ∈ seen) then Err (DuplicateModel (id m))
      else validate_from ({[id m]} ∪ seen) ms
  end.

Definition validate (c : ModelCatalog) : result CatalogError unit := validate_from ∅ (models c).

Definition receipt (c : ModelCatalog) (m : string) (u : Usage) : result CatalogError UsageReceipt :=
  p ← ok_or (price ∘ snd <$> list_find (λ e, id e = m) (models c)) (UnknownModel m);
  mret {| catalog_version := version c; receipt_model := m; receipt_price := p;
          receipt_usage := u; receipt_cost_microdollars := cost_microdollars p u |}.

(** ** Provider usage *)

Record ModelUsage := mkModelUsage {
  mu_input_tokens : Z;
  mu_output_tokens : Z;
  mu_reasoning_tokens : Z;
  mu_cache_read_tokens : Z;
  mu_cache_write_tokens : Z;
}.

#[global] Instance ModelUsage_eq_dec : EqDecision ModelUsage.
Proof. solve_decision. Defined.

Definition ModelUsage_default : ModelUsage := mkModelUsage 0 0 0 0 0.

Definition total_tokens (u : ModelUsage) : Z :=
  let add := saturating_add U64_MAX in
  add (add (add (mu_input_tokens u) (mu_output_tokens u)) (mu_cache_read_tokens u))
    (mu_cache_write_tokens u).

Definition to_usage (u : ModelUsage) : Usage :=
  mkUsage (mu_input_tokens u) (mu_output_tokens u) (mu_reasoning_tokens u)
    (mu_cache_read_tokens u) (mu_cache_write_tokens u).

Section Json.
Context {J : SerdeJson}.

Definition chat_usage (value : Value) : ModelUsage :=
  let usage := default value (get value "usage") in
  let input :=
    default 0 (or_else (get usage "prompt_tokens") (get usage "input_tokens") ≫= as_u64) in
  let openai_cache_read_tokens :=
    or_else (pointer usage "/prompt_tokens_details/cached_tokens")
      (pointer usage "/input_tokens_details/cached_tokens") ≫= as_u64 in
  {| mu_input_tokens := saturating_sub input (default 0 openai_cache_read_tokens);
     mu_output_tokens :=
       default 0 (or_else (get usage "completion_tokens") (get usage "output_tokens") ≫= as_u64);
     mu_reasoning_tokens :=
       default 0 (or_else (pointer usage "/completion_tokens_details/reasoning_tokens")
                    (pointer usage "/output_tokens_details/reasoning_tokens") ≫= as_u64);
     mu_cache_read_tokens :=
       default 0 (or_else openai_cache_read_tokens
                    (get usage "cache_read_input_tokens" ≫= as_u64));
     mu_cache_write_tokens :=
       default 0 (get usage "cache_creation_input_tokens" ≫= as_u64) |}.

(** ** Estimates *)

Definition requested_output_tokens (body : Value) : option Z :=
  let found :=
    omap (λ field, get body field ≫= as_u64)
      ["max_tokens"; "max_completion_tokens"; "max_output_tokens"]%string in
  match found with [] => None | n :: ns => Some (foldl Z.max n ns) end.

(** [BoundedJsonCounter]'s [write]; [None] is its I/O error. *)
Definition counter_write (limit count n : Z) : option Z :=
  if U64_MAX <? count + n then None
  else if limit <? count + n then None
  else Some (count + n).

(** [serde_json::to_writer] hands the writer one buffer after another. *)
Variable to_writer : Value → list Z.

Definition serialized_json_len (body : Value) : option Z :=
  foldl (λ acc n, acc ≫= λ c, counter_write U64_MAX c n) (Some 0) (to_writer body).

Definition DEFAULT_MAX_OUTPUT_TOKENS : Z := 1024.

Definition estimate_usage (body : Value) : Usage * Z :=
  let body_bytes := default 0 (serialized_json_len body) in
  ({| input_tokens := body_bytes `div` 4;
      output_tokens := default DEFAULT_MAX_OUTPUT_TOKENS (requested_output_tokens body);
      reasoning_tokens := 0; cache_read_tokens := 0; cache_write_tokens := 0 |},
   body_bytes).

End Json.

(** ** The rates one request is charged at *)

Record RequestPrice := mkRequestPrice { rates : option ModelPrice }.

Definition configured (r : ModelPrice) : RequestPrice := {| rates := Some r |}.
Definition unpriced : RequestPrice := {| rates := None |}.

Definition request_cost_microdollars (p : RequestPrice) (u : Usage) : option Z :=
  (λ r, cost_microdollars r u) <$> rates p.

(** ** Rates compiled from the imported catalogue *)

Record PriceRates := mkRates {
  input : Z;
  output : Z;
  cache_read : option Z;
  cache_write : option Z;
  reasoning : option Z;
  input_audio : option Z;
  output_audio : option Z;
}.

Inductive PriceTierThreshold := ContextOver (tokens : Z).
Record PriceTier := mkTier { threshold : PriceTierThreshold; tier_rates : PriceRates }.
Record ObservedPrice := mkObserved { base : PriceRates; tiers : list PriceTier }.

Definition NANOS_PER_MICRO : Z := 1000.

Definition exact_micros (nanos : Z) : option Z :=
  if nanos `mod` NANOS_PER_MICRO =? 0 then Some (nanos `div` NANOS_PER_MICRO) else None.

Definition optional_micros (rate : option Z) : option (option Z) :=
  match rate with None => Some None | Some r => Some <$> exact_micros r end.

Definition is_some {A} (o : option A) : bool := match o with Some _ => true | None => false end.

Definition model_price_from_cost (p : ObservedPrice) : option ModelPrice :=
  match tiers p with
  | _ :: _ => None
  | [] =>
      if is_some (input_audio (base p)) || is_some (output_audio (base p)) then None
      else
        i ← exact_micros (input (base p));
        o ← exact_micros (output (base p));
        r ← optional_micros (reasoning (base p));
        cr ← optional_micros (cache_read (base p));
        cw ← optional_micros (cache_write (base p));
        Some (mkPrice i o r cr cw)
  end.

Record ProviderOffering := mkOffering {
  offering_provider : string;
  published_model_id : string;
  offering_price : option ObservedPrice;
}.

Record CatalogModelEntry := mkEntry { offerings : list ProviderOffering }.

Definition CatalogPriceIndex := gmap string (gmap string ModelPrice).

Definition index_offering (index : CatalogPriceIndex) (o : ProviderOffering) : CatalogPriceIndex :=
  match offering_price o with
  | None => index
  | Some observed =>
      match model_price_from_cost observed with
      | None => index
      | Some p =>
          <[offering_provider o :=
              <[published_model_id o := p]> (default ∅ (index !! offering_provider o))]> index
      end
  end.

Definition from_snapshot (entries : list CatalogModelEntry) : CatalogPriceIndex :=
  foldl (λ index e, foldl index_offering index (offerings e)) ∅ entries.

Definition catalog_price_for (index : CatalogPriceIndex) (provider model : string) : option ModelPrice :=
  index !! provider ≫= λ ms, ms !! model.

(** ** The price book and the resolution at admission *)

Record PriceRule := mkRule { rule_provider : string; rule_model : string; rule_price : ModelPrice }.

Fixpoint price_for (rules : list PriceRule) (provider model : string) : option ModelPrice :=
  match rules with
  | [] => None
  | rule :: rules =>
      if decide (rule_provider rule = provider) then
        if Aliases.glob_permits (b (rule_model rule)) (b model) then Some (rule_price rule)
        else price_for rules provider model
      else price_for rules provider model
  end.

Inductive UnpricedModels := Deny | Allow.

(** The part of [serve] that fixes the rates: [None] is the refusal
    [GatewayError::UnpricedModel]. *)
Definition resolve_price (catalogue : option CatalogPriceIndex) (book : list PriceRule)
    (stance : UnpricedModels) (provider model : string) : option RequestPrice :=
  let catalog_price := catalogue ≫= λ index, catalog_price_for index provider model in
  let book_price := price_for book provider model in
  match or_else catalog_price book_price with
  | Some r => Some (configured r)
  | None => match stance with Deny => None | Allow => Some unpriced end
  end.

(** ** Lemmas *)

Definition usage_ok (u : Usage) : Prop :=
  is_u64 (input_tokens u) ∧ is_u64 (output_tokens u) ∧ is_u64 (reasoning_tokens u) ∧
  is_u64 (cache_read_tokens u) ∧ is_u64 (cache_write_tokens u).

Definition price_ok (p : ModelPrice) : Prop :=
  is_u64 (input_microdollars_per_million p) ∧ is_u64 (output_microdollars_per_million p) ∧
  (∀ r, reasoning_microdollars_per_million p = Some r → is_u64 r) ∧
  (∀ r, cache_read_microdollars_per_million p = Some r → is_u64 r) ∧
  (∀ r, cache_write_microdollars_per_million p = Some r → is_u64 r).

(** The rate each counter is billed at. *)
Definition reasoning_rate p :=
  default (output_microdollars_per_million p) (reasoning_microdollars_per_million p).
Definition cache_read_rate p :=
  default (input_microdollars_per_million p) (cache_read_microdollars_per_million p).
Definition cache_write_rate p :=
  default (input_microdollars_per_million p) (cache_write_microdollars_per_million p).

(** The exact charge in millionths of a micro-dollar. *)
Definition exact_charge (p : ModelPrice) (u : Usage) : Z :=
  input_tokens u * input_microdollars_per_million p
  + Z.max 0 (output_tokens u - reasoning_tokens u) * output_microdollars_per_million p
  + reasoning_tokens u * reasoning_rate p
  + cache_read_tokens u * cache_read_rate p
  + cache_write_tokens u * cache_write_rate p.

(** The largest component two [u64] can make. *)
Definition COMPONENT_MAX : Z := (U64_MAX * U64_MAX) `div` 1000000.

Lemma u64_product a c : is_u64 a → is_u64 c → 0 ≤ a * c ≤ U64_MAX * U64_MAX.
Proof. unfold in_width. intros. split; [nia|]. apply Z.mul_le_mono_nonneg; lia. Qed.

Lemma component_exact t r :
  is_u64 t → is_u64 r →
  0 ≤ component t r ≤ COMPONENT_MAX ∧
  1000000 * component t r ≤ t * r < 1000000 * component t r + 1000000.
Proof.
  intros Ht Hr. pose proof (u64_product t r Ht Hr) as [H0 H1].
  unfold component, saturating_mul.
  rewrite Z.min_r by (eapply Z.le_trans; [exact H1|]; vm_compute; discriminate).
  pose proof (Z.div_mod (t * r) 1000000 ltac:(lia)).
  pose proof (Z.mod_pos_bound (t * r) 1000000 ltac:(lia)).
  split; [|lia]. split; [apply Z.div_pos; lia|]. apply Z.div_le_mono; lia.
Qed.

Lemma default_u64 r o : is_u64 r → (∀ x, o = Some x → is_u64 x) → is_u64 (default r o).
Proof. intros ? Ho. destruct o; simpl; eauto. Qed.

Lemma saturating_sum5 a c d e f :
  let bounded x := 0 ≤ x ≤ COMPONENT_MAX in
  let add := saturating_add U128_MAX in
  bounded a → bounded c → bounded d → bounded e → bounded f →
  add (add (add (add a c) d) e) f = a + c + d + e + f.
Proof.
  assert (5 * COMPONENT_MAX ≤ U128_MAX) by (vm_compute; discriminate).
  cbv zeta. unfold saturating_add. generalize dependent COMPONENT_MAX. lia.
Qed.

(** Five components never reach the [u128] bound, so the sum does not saturate
    before the conversion to [u64]. *)
Lemma cost_sum p u :
  usage_ok u → price_ok p →
  ∃ total, cost_microdollars p u = (if total <=? U64_MAX then total else U64_MAX) ∧ 0 ≤ total ∧
    1000000 * total ≤ exact_charge p u < 1000000 * total + 5 * 1000000.
Proof.
  intros (Hi & Ho & Hr & Hcr & Hcw) (Pi & Po & Pr & Pcr & Pcw).
  assert (is_u64 (saturating_sub (output_tokens u) (reasoning_tokens u))) as Hb by width_lia.
  pose proof (component_exact _ _ Hi Pi). pose proof (component_exact _ _ Hb Po).
  pose proof (component_exact _ _ Hr (default_u64 _ _ Po Pr)).
  pose proof (component_exact _ _ Hcr (default_u64 _ _ Pi Pcr)).
  pose proof (component_exact _ _ Hcw (default_u64 _ _ Pi Pcw)).
  unfold cost_microdollars. cbv zeta. rewrite saturating_sum5 by tauto.
  eexists. split; [reflexivity|]. split; [lia|].
  unfold exact_charge, reasoning_rate, cache_read_rate, cache_write_rate.
  unfold saturating_sub in *. lia.
Qed.

Lemma validate_from_ok seen ms :
  validate_from seen ms = Ok tt ↔ NoDup (id <$> ms) ∧ ∀ m, m ∈ id <$> ms → m ∉ seen.
Proof.
  revert seen. induction ms as [|m ms IH]; intros seen; simpl.
  - split; [|done]. intros _. split; [constructor|]. intros ? H. by apply elem_of_nil in H.
  - rewrite list.NoDup_cons. setoid_rewrite elem_of_cons. case_decide as Hin.
    + split; [done|]. intros [_ H]. destruct (H (id m)); auto.
    + rewrite IH. set_solver.
Qed.

Lemma exact_micros_Some nanos r : exact_micros nanos = Some r ↔ nanos = 1000 * r.
Proof.
  unfold exact_micros, NANOS_PER_MICRO. destruct (Z.eqb_spec (nanos `mod` 1000) 0) as [H|H].
  - pose proof (Z.div_mod nanos 1000 ltac:(lia)). split; intros; simplify_eq; [lia|].
    f_equal. lia.
  - split; [done|]. intros ->. destruct H. rewrite Z.mul_comm. by apply Z.mod_mul.
Qed.

Lemma optional_micros_Some rate r :
  optional_micros rate = Some r ↔ rate = (λ x, 1000 * x) <$> r.
Proof.
  destruct rate as [n|]; simpl.
  - rewrite fmap_Some. split.
    + intros (x & Hx & ->). apply exact_micros_Some in Hx as ->. done.
    + destruct r as [x|]; simpl; intros; simplify_eq. exists x. by rewrite exact_micros_Some.
  - destruct r; simpl; naive_solver.
Qed.

(** What one offering contributes to a lookup. *)
Definition offering_rate (provider model : string) (o : ProviderOffering) : option ModelPrice :=
  if decide (offering_provider o = provider ∧ published_model_id o = model)
  then offering_price o ≫= model_price_from_cost else None.

Lemma index_offering_lookup index o p m :
  catalog_price_for (index_offering index o) p m =
  or_else (offering_rate p m o) (catalog_price_for index p m).
Proof.
  unfold index_offering, offering_rate, catalog_price_for, CatalogPriceIndex in *.
  destruct (offering_price o) as [observed|]; simpl; [|by case_decide].
  destruct (model_price_from_cost observed) as [r|]; simpl; [|by case_decide].
  destruct (decide (offering_provider o = p)) as [->|Hp].
  - rewrite lookup_insert_eq. simpl.
    destruct (decide (published_model_id o = m)) as [->|Hm].
    + rewrite lookup_insert_eq, decide_True by done. done.
    + rewrite lookup_insert_ne, decide_False by naive_solver. simpl.
      destruct (index !! p); simpl; [done|apply lookup_empty].
  - rewrite lookup_insert_ne, decide_False by naive_solver. done.
Qed.

Lemma index_offerings_lookup os index p m :
  catalog_price_for (foldl index_offering index os) p m =
  or_else (list.last (omap (offering_rate p m) os)) (catalog_price_for index p m).
Proof.
  revert index. induction os as [|o os IH]; intros index; [done|].
  cbn [foldl]. rewrite IH, index_offering_lookup, omap_cons.
  destruct (offering_rate p m o) as [r|]; [|done].
  rewrite last_cons. by destruct (list.last _).
Qed.

Lemma from_snapshot_flat entries index :
  foldl (λ index e, foldl index_offering index (offerings e)) index entries =
  foldl index_offering index (concat (offerings <$> entries)).
Proof.
  revert index. induction entries as [|e entries IH]; intros; [done|]. simpl.
  by rewrite foldl_app, IH.
Qed.

Definition rule_applies (provider model : string) (r : PriceRule) : Prop :=
  rule_provider r = provider ∧ Aliases.glob_permits (b (rule_model r)) (b model) = true.

#[global] Instance rule_applies_dec provider model r : Decision (rule_applies provider model r).
Proof. unfold rule_applies. apply _. Defined.

(** The first matching rule in file order. *)
Lemma price_for_find rules provider model :
  price_for rules provider model =
  rule_price ∘ snd <$> list_find (rule_applies provider model) rules.
Proof.
  induction rules as [|r rules IH]; [done|]. cbn [price_for list_find].
  destruct (decide (rule_applies provider model r)) as [[Hp Hg]|Hr].
  - by rewrite decide_True, Hg by done.
  - transitivity (price_for rules provider model).
    { case_decide; [case_match|]; try done. by destruct Hr. }
    rewrite IH. by destruct (list_find _ rules) as [[]|].
Qed.

(** ** Properties *)

(** a charge is the exact sum of its five components, each truncated to a
    whole micro-dollar, and saturates at [u64::MAX]: below saturation the exact
    charge is never exceeded and never undercut by five micro-dollars or more.
    The intermediate [u128] arithmetic never overflows. *)
Theorem cost_within_five_microdollars (p : ModelPrice) (u : Usage) :
  usage_ok u → price_ok p →
  is_u64 (cost_microdollars p u) ∧
  (exact_charge p u < 1000000 * (U64_MAX + 1) →
    1000000 * cost_microdollars p u ≤ exact_charge p u
      < 1000000 * cost_microdollars p u + 5000000) ∧
  (1000000 * (U64_MAX + 5) ≤ exact_charge p u → cost_microdollars p u = U64_MAX).
Proof.
  intros Hu Hp. destruct (cost_sum p u Hu Hp) as (total & -> & H0 & Hex).
  destruct (Z.leb_spec total U64_MAX); width_lia.
Qed.

Lemma cost_within_five_microdollars_witness :
  let p := mkPrice 2500000 10000000 None (Some 1250000) None in
  let u := mkUsage 1000 500 100 200 0 in
  1000000 * cost_microdollars p u ≤ exact_charge p u.
Proof.
  apply (cost_within_five_microdollars (mkPrice 2500000 10000000 None (Some 1250000) None)
    (mkUsage 1000 500 100 200 0)).
  - repeat split; vm_compute; discriminate.
  - unfold price_ok. simpl. repeat split; intros; simplify_eq; vm_compute; discriminate.
  - vm_compute. reflexivity.
Defined.

(** a larger report never costs less: with the reasoning count fixed, raising
    any other counter does not lower the charge. *)
Theorem cost_monotone (p : ModelPrice) (u v : Usage) :
  usage_ok u → usage_ok v → price_ok p →
  input_tokens u ≤ input_tokens v → output_tokens u ≤ output_tokens v →
  reasoning_tokens u = reasoning_tokens v →
  cache_read_tokens u ≤ cache_read_tokens v → cache_write_tokens u ≤ cache_write_tokens v →
  cost_microdollars p u ≤ cost_microdollars p v.
Proof.
  intros (? & ? & ? & ? & ?) _ (Pi & Po & Pr & Pcr & Pcw) Hi Ho Hr Hcr Hcw.
  assert (∀ a c r, 0 ≤ a → a ≤ c → is_u64 r → component a r ≤ component c r) as Hmono.
  { intros a c r ? ? [??]. unfold component. apply Z.div_le_mono; [lia|].
    unfold saturating_mul. assert (a * r ≤ c * r) by nia. lia. }
  pose proof (default_u64 _ _ Po Pr). pose proof (default_u64 _ _ Pi Pcr).
  pose proof (default_u64 _ _ Pi Pcw).
  unfold cost_microdollars. cbv zeta. rewrite <-Hr.
  assert (∀ a c d e, a ≤ c → d ≤ e → saturating_add U128_MAX a d ≤ saturating_add U128_MAX c e)
    as Hadd by (unfold saturating_add; lia).
  match goal with |- (if ?a <=? _ then _ else _) ≤ (if ?c <=? _ then _ else _) =>
    assert (a ≤ c) end.
  { repeat apply Hadd; try apply Hmono; try done; unfold in_width, saturating_sub in *; lia. }
  do 2 case_match; reflect_bools; lia.
Qed.

Lemma cost_monotone_witness :
  let p := mkPrice 2500000 10000000 None None None in
  cost_microdollars p (mkUsage 10 5 2 0 0) ≤ cost_microdollars p (mkUsage 10 9 2 1 0).
Proof.
  apply cost_monotone; try (simpl; lia).
  - repeat split; vm_compute; discriminate.
  - repeat split; vm_compute; discriminate.
  - unfold price_ok. simpl. repeat split; intros; simplify_eq; vm_compute; discriminate.
Defined.

(** a published schedule is compiled only when the flat price states the same
    rates exactly: no tier, no audio rate, and every rate a whole number of
    micro-dollars equal to the published nano-dollars. *)
Theorem model_price_exact (o : ObservedPrice) (p : ModelPrice) :
  model_price_from_cost o = Some p ↔
    tiers o = [] ∧ input_audio (base o) = None ∧ output_audio (base o) = None ∧
    input (base o) = 1000 * input_microdollars_per_million p ∧
    output (base o) = 1000 * output_microdollars_per_million p ∧
    reasoning (base o) = (λ x, 1000 * x) <$> reasoning_microdollars_per_million p ∧
    cache_read (base o) = (λ x, 1000 * x) <$> cache_read_microdollars_per_million p ∧
    cache_write (base o) = (λ x, 1000 * x) <$> cache_write_microdollars_per_million p.
Proof.
  unfold model_price_from_cost. destruct (tiers o); [|naive_solver].
  destruct (input_audio (base o)), (output_audio (base o)); simpl; try naive_solver.
  rewrite !bind_Some. setoid_rewrite bind_Some. setoid_rewrite exact_micros_Some.
  setoid_rewrite bind_Some. setoid_rewrite bind_Some. setoid_rewrite bind_Some.
  setoid_rewrite optional_micros_Some. split.
  - intros (i & Hi & x & Ho & r & Hr & cr & Hcr & cw & Hcw & E). simplify_eq/=. done.
  - intros (_ & _ & _ & Hi & Ho & Hr & Hcr & Hcw). destruct p as [i x r cr cw]. simpl in *.
    exists i. split; [done|]. exists x. split; [done|]. exists r. split; [done|].
    exists cr. split; [done|]. exists cw. done.
Qed.

(** the compiled index answers, for a provider and a published model id, the
    rate of the last offering of the snapshot that states a compilable price for
    exactly that pair, and nothing when there is none. *)
Theorem price_index_spec (entries : list CatalogModelEntry) (provider model : string) :
  catalog_price_for (from_snapshot entries) provider model =
  list.last (omap (offering_rate provider model) (concat (offerings <$> entries))).
Proof.
  unfold from_snapshot. rewrite from_snapshot_flat, index_offerings_lookup.
  unfold catalog_price_for, CatalogPriceIndex. rewrite lookup_empty. simpl. by destruct (list.last _).
Qed.

(** a validated catalogue has one price per model, and its receipt for a
    listed model carries that price and its charge. *)
Theorem catalog_receipt_spec (c : ModelCatalog) (m : string) (p : ModelPrice) (u : Usage) :
  validate c = Ok tt → mkCatalogModel m p ∈ models c →
  receipt c m u = Ok (mkReceipt (version c) m p u (cost_microdollars p u)).
Proof.
  intros Hv Hin. apply validate_from_ok in Hv as [Hnd _].
  unfold receipt. destruct (list_find (λ e, id e = m) (models c)) as [[i [m' p']]|] eqn:E.
  - apply list_find_Some in E as (Hi & Hid & _). simpl in Hid. subst m'. simpl.
    apply list_elem_of_lookup in Hin as [j Hj].
    assert (i = j) as ->.
    { eapply NoDup_lookup; [exact Hnd|..]; rewrite list_lookup_fmap; [by rewrite Hi|by rewrite Hj]. }
    by simplify_eq.
  - apply list_find_None in E. rewrite list.Forall_forall in E.
    destruct (E _ Hin). done.
Qed.

Lemma catalog_receipt_spec_witness :
  let p := mkPrice 2500000 10000000 None None None in
  let c := mkCatalog 1 [mkCatalogModel "a" p; mkCatalogModel "b" p] in
  receipt c "b" (mkUsage 4 4 0 0 0) = Ok (mkReceipt 1 "b" p (mkUsage 4 4 0 0 0) 50).
Proof.
  apply (catalog_receipt_spec (mkCatalog 1 [mkCatalogModel "a" (mkPrice 2500000 10000000 None None None);
    mkCatalogModel "b" (mkPrice 2500000 10000000 None None None)])).
  - vm_compute. reflexivity.
  - simpl. apply list_elem_of_further, list_elem_of_here.
Defined.

(** the rates of a request come from one authority: the imported snapshot
    when it prices the offering, and only otherwise the first price-book rule in
    file order that names the provider and whose glob matches the model. A
    request is refused as unpriced exactly when neither prices it and the
    provider denies unpriced models, and it is never charged when it was
    admitted unpriced. *)
Theorem resolve_price_spec catalogue book stance provider model :
  match resolve_price catalogue book stance provider model with
  | None => stance = Deny ∧ (catalogue ≫= λ i, catalog_price_for i provider model) = None ∧
      Forall (λ r, ¬ rule_applies provider model r) book
  | Some p =>
      match rates p with
      | None => stance = Allow ∧ (catalogue ≫= λ i, catalog_price_for i provider model) = None ∧
          Forall (λ r, ¬ rule_applies provider model r) book ∧
          ∀ u, request_cost_microdollars p u = None
      | Some r =>
          (catalogue ≫= λ i, catalog_price_for i provider model) = Some r ∨
          (catalogue ≫= λ i, catalog_price_for i provider model) = None ∧
          ∃ k rule, book !! k = Some rule ∧ rule_price rule = r ∧ rule_applies provider model rule ∧
            ∀ j rule', book !! j = Some rule' → (j < k)%nat → ¬ rule_applies provider model rule'
      end
  end.
Proof.
  unfold resolve_price. cbv zeta. rewrite price_for_find.
  destruct (catalogue ≫= _) as [r|] eqn:Hc; [by left|].
  destruct (list_find _ book) as [[k rule]|] eqn:Hf; simpl.
  - right. split; [done|]. apply list_find_Some in Hf as (? & ? & ?). eauto 10.
  - apply list_find_None in Hf. destruct stance; simpl; auto.
Qed.

End Pricing.
