(* ===== verification/Admission.v ===== *)
(** * Admission control ([crates/gateway/src/admission.rs])

    Three ceilings — per tenant, process-wide with a bounded queue, open streams —
    taken by concurrent requests.  Every mutex section, semaphore operation and
    atomic update of the source is one atomic step; a request is a task whose
    program counter says which operation it runs next, and any interleaving of
    tasks is possible.  The metrics calls are not modelled. *)

From S2P Require Import Prelude.

(** ** tokio's semaphore

    [try_acquire] is [try_acquire_owned], also the grant that completes a pending
    [acquire_owned]; [release] is the drop of an owned permit. *)
Class Semaphore := {
  Sem : Type;
  sem_new : Z → Sem;
  sem_try_acquire : Sem → option Sem;
  sem_release : Sem → Sem;
  available : Sem → Z;
}.

Class SemaphoreLaws (S : Semaphore) : Prop := {
  available_new n : 0 ≤ n → available (sem_new n) = n;
  available_acquire s s' : sem_try_acquire s = Some s' → available s' = available s - 1;
  acquire_Some s : sem_try_acquire s ≠ None ↔ 0 < available s;
  available_nonneg s : 0 ≤ available s;
  available_release s : available (sem_release s) = available s + 1;
}.

(** The counting semaphore. *)
#[global] Instance counting_semaphore : Semaphore := {|
  Sem := N;
  sem_new n := Z.to_N n;
  sem_try_acquire s := if decide (s = 0%N) then None else Some (N.pred s);
  sem_release s := N.succ s;
  available s := Z.of_N s;
|}.

#[global] Instance counting_semaphore_laws : SemaphoreLaws counting_semaphore.
Proof.
  split; simpl; try (intros; lia).
  - intros s s'. case_decide; intros; simplify_eq. lia.
  - intros s. case_decide; split; intros; try done; lia.
Qed.

Module Admission.

Inductive RequestKind := Buffered | Streamed.

Inductive AdmissionRejection :=
| Tenant | TenantCapacity | Streams | Global | QueueFull | QueueTimeout | Settlement.

#[global] Instance AdmissionRejection_eq_dec : EqDecision AdmissionRejection.
Proof. solve_decision. Defined.

Definition rejection_code (r : AdmissionRejection) : string :=
  match r with
  | Tenant => "tenant_concurrency_exceeded"
  | TenantCapacity => "admission_tenant_capacity_exhausted"
  | Streams => "stream_capacity_exhausted"
  | Global => "gateway_overloaded"
  | QueueFull => "admission_queue_full"
  | QueueTimeout => "admission_queue_timeout"
  | Settlement => "settlement_capacity_exhausted"
  end.

Definition is_caller_limit (r : AdmissionRejection) : bool :=
  match r with Tenant => true | _ => false end.

Definition retry_after_seconds (r : AdmissionRejection) : option Z :=
  match r with
  | Tenant | Streams | Global | QueueFull | QueueTimeout | Settlement => Some 1
  | TenantCapacity => None
  end.

Definition scope (r : AdmissionRejection) : string :=
  match r with
  | Tenant | TenantCapacity => "tenant"
  | Streams => "stream"
  | Global => "request"
  | QueueFull | QueueTimeout => "queue"
  | Settlement => "settlement"
  end.

(** ** Limits *)

Record AdmissionConfig := mkConfig {
  cfg_max_request_bytes : Z;
  cfg_max_in_flight : Z;
  cfg_max_in_flight_streams : Z;
  cfg_max_in_flight_per_tenant : Z;
  cfg_max_tenants : Z;
  cfg_queue_capacity : Z;
  cfg_queue_wait_ms : Z;
  cfg_max_stream_duration_ms : Z;
  cfg_max_prompt_tokens : Z;
  cfg_max_output_tokens : Z;
  cfg_max_stream_bytes : Z;
  cfg_max_pending_settlements : Z;
  cfg_max_in_flight_settlements : Z;
  cfg_settlement_queue_wait_ms : Z;
  cfg_settlement_timeout_ms : Z;
}.

(** Durations in milliseconds. *)
Record AdmissionLimits := mkLimits {
  max_request_bytes : Z;
  max_in_flight : option Z;
  max_in_flight_streams : option Z;
  max_in_flight_per_tenant : option Z;
  max_tenants : Z;
  queue_capacity : option Z;
  queue_wait : Z;
  max_stream_duration : option Z;
  max_prompt_tokens : option Z;
  max_output_tokens : option Z;
  max_stream_bytes : option Z;
}.

Definition bound (value : Z) : option Z := if 0 <? value then Some value else None.

Definition limits_from (c : AdmissionConfig) : AdmissionLimits := {|
  max_request_bytes := cfg_max_request_bytes c;
  max_in_flight := bound (cfg_max_in_flight c);
  max_in_flight_streams := bound (cfg_max_in_flight_streams c);
  max_in_flight_per_tenant := bound (cfg_max_in_flight_per_tenant c);
  max_tenants := cfg_max_tenants c;
  queue_capacity := bound (cfg_queue_capacity c);
  queue_wait := cfg_queue_wait_ms c;
  max_stream_duration := bound (cfg_max_stream_duration_ms c);
  max_prompt_tokens := bound (cfg_max_prompt_tokens c);
  max_output_tokens := bound (cfg_max_output_tokens c);
  max_stream_bytes := bound (cfg_max_stream_bytes c);
|}.

(** ** The tenant table *)

Record TenantTable := mkTable {
  limit : option Z;
  table_max_tenants : Z;
  active : gmap string Z;
}.

Definition set_active (t : TenantTable) (a : gmap string Z) : TenantTable :=
  {| limit := limit t; table_max_tenants := table_max_tenants t; active := a |}.

(** [TenantTable::reserve]; the slot names its tenant. *)
Definition reserve (t : TenantTable) (tenant : string)
    : result AdmissionRejection (option string) * TenantTable :=
  match limit t with
  | None => (Ok None, t)
  | Some limit =>
      match active t !! tenant with
      | None =>
          if table_max_tenants t <=? Z.of_nat (size (active t)) then (Err TenantCapacity, t)
          else
            let a := <[tenant := 0]> (active t) in
            if limit <=? 0 then (Err Tenant, set_active t (delete tenant a))
            else (Ok (Some tenant), set_active t (<[tenant := 0 + 1]> a))
      | Some in_flight =>
          if limit <=? in_flight then
            (Err Tenant,
             if in_flight =? 0 then set_active t (delete tenant (active t)) else t)
          else (Ok (Some tenant), set_active t (<[tenant := in_flight + 1]> (active t)))
      end
  end.

Definition release (t : TenantTable) (tenant : string) : TenantTable :=
  match active t !! tenant with
  | None => t
  | Some in_flight =>
      let n := saturating_sub in_flight 1 in
      if n =? 0 then set_active t (delete tenant (active t))
      else set_active t (<[tenant := n]> (active t))
  end.

Section WithSemaphore.
Context {S : Semaphore}.

(** ** The queue *)

Record QueueState := mkQueue { slots : Sem; current : Z; capacity : Z }.

Definition QueueState_new (n : Z) : QueueState :=
  {| slots := sem_new n; current := 0; capacity := n |}.

(** [QueueState::try_acquire] is two atomic operations: the slot, then the depth;
    [enter] is [None] where the source panics. *)
Definition take_slot (q : QueueState) : option QueueState :=
  s ← sem_try_acquire (slots q);
  Some {| slots := s; current := current q; capacity := capacity q |}.

Definition enter (q : QueueState) : option QueueState :=
  let next := current q + 1 in
  if (next <=? U64_MAX) && (next <=? capacity q)
  then Some {| slots := slots q; current := next; capacity := capacity q |}
  else None.

(** [QueuedRequest]'s drop: [QueueState::release], then its slot. *)
Definition leave (q : QueueState) : option QueueState :=
  c ← checked_sub (current q) 1;
  Some {| slots := slots q; current := c; capacity := capacity q |}.

Definition return_slot (q : QueueState) : QueueState :=
  {| slots := sem_release (slots q); current := current q; capacity := capacity q |}.

(** ** The gate *)

Record AdmissionControl := mkControl {
  limits : AdmissionLimits;
  global : option Sem;
  streams : option Sem;
  queue : option QueueState;
  tenants : TenantTable;
}.

Definition new (l : AdmissionLimits) : AdmissionControl := {|
  limits := l;
  global := sem_new <$> max_in_flight l;
  streams := sem_new <$> max_in_flight_streams l;
  queue := QueueState_new <$> queue_capacity l;
  tenants := {| limit := max_in_flight_per_tenant l; table_max_tenants := max_tenants l;
                active := ∅ |};
|}.

Definition from_config (c : AdmissionConfig) : AdmissionControl := new (limits_from c).

Definition set_global c s :=
  {| limits := limits c; global := s; streams := streams c; queue := queue c; tenants := tenants c |}.
Definition set_streams c s :=
  {| limits := limits c; global := global c; streams := s; queue := queue c; tenants := tenants c |}.
Definition set_queue c q :=
  {| limits := limits c; global := global c; streams := streams c; queue := q; tenants := tenants c |}.
Definition set_tenants c t :=
  {| limits := limits c; global := global c; streams := streams c; queue := queue c; tenants := t |}.

Record AdmissionPermit := mkPermit {
  permit_global : bool;
  permit_stream : bool;
  permit_tenant : option string;
}.

Definition no_permit : AdmissionPermit := mkPermit false false None.

(** How a task ends. *)
Inductive Outcome := Served | Rejected (r : AdmissionRejection) | Cancelled.

(** The next operation of a request's task: [admit], [acquire_global] inlined,
    then the life and the drop of the permit. *)
Inductive Phase :=
| Reserving (tenant : string) (kind : RequestKind)
| AcquiringGlobal (p : AdmissionPermit) (kind : RequestKind)
| AcquiringSlot (p : AdmissionPermit) (kind : RequestKind)
| EnteringQueue (p : AdmissionPermit) (kind : RequestKind)
| Waiting (p : AdmissionPermit) (kind : RequestKind)
| LeavingQueue (p : AdmissionPermit) (kind : RequestKind) (failed : option Outcome)
| ReturningSlot (p : AdmissionPermit) (kind : RequestKind) (failed : option Outcome)
| AcquiringStream (p : AdmissionPermit) (kind : RequestKind)
| Holding (p : AdmissionPermit)
| DroppingGlobal (p : AdmissionPermit) (o : Outcome)
| DroppingStream (p : AdmissionPermit) (o : Outcome)
| DroppingTenant (p : AdmissionPermit) (o : Outcome)
| Finished (o : Outcome)
| Panicked.

(** What lets a task move: it runs, its wait ends one way or another, or its
    owner drops it. *)
Inductive Event := Run | Granted | TimedOut | Closed | Drop.

Definition with_global p g := mkPermit g (permit_stream p) (permit_tenant p).
Definition with_stream p s := mkPermit (permit_global p) s (permit_tenant p).

(** After the tenant gate: the global gate when there is one. *)
Definition after_tenant (c : AdmissionControl) (p : AdmissionPermit) (k : RequestKind) : Phase :=
  match global c with Some _ => AcquiringGlobal p k | None => AcquiringStream p k end.

Definition advance (c : AdmissionControl) (ph : Phase) (ev : Event)
    : option (AdmissionControl * Phase) :=
  match ph, ev with
  | Reserving tenant kind, Run =>
      let '(r, t) := reserve (tenants c) tenant in
      let c' := set_tenants c t in
      Some (c', match r with
                | Err e => Finished (Rejected e)
                | Ok slot => after_tenant c (mkPermit false false slot) kind
                end)
  | AcquiringGlobal p kind, Run =>
      match global c with
      | None => None
      | Some s =>
          match sem_try_acquire s with
          | Some s' => Some (set_global c (Some s'), AcquiringStream (with_global p true) kind)
          | None =>
              Some (c, match queue c with
                       | None => DroppingGlobal p (Rejected Global)
                       | Some _ => AcquiringSlot p kind
                       end)
          end
      end
  | AcquiringSlot p kind, Run =>
      match queue c with
      | None => None
      | Some q =>
          match take_slot q with
          | None => Some (c, DroppingGlobal p (Rejected QueueFull))
          | Some q' => Some (set_queue c (Some q'), EnteringQueue p kind)
          end
      end
  | EnteringQueue p kind, Run =>
      match queue c with
      | None => None
      | Some q =>
          match enter q with
          | None => Some (c, Panicked)
          | Some q' => Some (set_queue c (Some q'), Waiting p kind)
          end
      end
  | Waiting p kind, Granted =>
      s ← global c; s' ← sem_try_acquire s;
      Some (set_global c (Some s'), LeavingQueue (with_global p true) kind None)
  | Waiting p kind, Closed => Some (c, LeavingQueue p kind (Some (Rejected Global)))
  | Waiting p kind, TimedOut => Some (c, LeavingQueue p kind (Some (Rejected QueueTimeout)))
  | Waiting p kind, Drop => Some (c, LeavingQueue p kind (Some Cancelled))
  | LeavingQueue p kind failed, Run =>
      match queue c with
      | None => None
      | Some q =>
          match leave q with
          | None => Some (c, Panicked)
          | Some q' => Some (set_queue c (Some q'), ReturningSlot p kind failed)
          end
      end
  | ReturningSlot p kind failed, Run =>
      q ← queue c;
      Some (set_queue c (Some (return_slot q)),
            match failed with
            | Some o => DroppingGlobal p o
            | None => AcquiringStream p kind
            end)
  | AcquiringStream p kind, Run =>
      match kind, streams c with
      | Streamed, Some s =>
          match sem_try_acquire s with
          | None => Some (c, DroppingGlobal p (Rejected Streams))
          | Some s' => Some (set_streams c (Some s'), Holding (with_stream p true))
          end
      | _, _ => Some (c, Holding p)
      end
  | Holding p, Drop => Some (c, DroppingGlobal p Served)
  | DroppingGlobal p o, Run =>
      Some (if permit_global p then set_global c (sem_release <$> global c) else c,
            DroppingStream (with_global p false) o)
  | DroppingStream p o, Run =>
      Some (if permit_stream p then set_streams c (sem_release <$> streams c) else c,
            DroppingTenant (with_stream p false) o)
  | DroppingTenant p o, Run =>
      Some (match permit_tenant p with
            | Some t => set_tenants c (release (tenants c) t)
            | None => c
            end, Finished o)
  | _, _ => None
  end.

Abbreviation Tasks := (gmap nat Phase).

(** Requests arrive at any time and any task may move next. *)
Inductive step : AdmissionControl * Tasks → AdmissionControl * Tasks → Prop :=
| step_arrive c tasks id tenant kind :
    tasks !! id = None →
    step (c, tasks) (c, <[id := Reserving tenant kind]> tasks)
| step_advance c tasks id ph ev c' ph' :
    tasks !! id = Some ph → advance c ph ev = Some (c', ph') →
    step (c, tasks) (c', <[id := ph']> tasks).

Definition reachable (l : AdmissionLimits) : AdmissionControl * Tasks → Prop :=
  rtc step (new l, ∅).

(** ** What a task holds *)

Definition permit_of (ph : Phase) : AdmissionPermit :=
  match ph with
  | Reserving _ _ | Finished _ | Panicked => no_permit
  | AcquiringGlobal p _ | AcquiringSlot p _ | EnteringQueue p _ | Waiting p _
  | LeavingQueue p _ _ | ReturningSlot p _ _ | AcquiringStream p _ | Holding p
  | DroppingGlobal p _ | DroppingStream p _ | DroppingTenant p _ => p
  end.

Definition holds_global (ph : Phase) : Z := if permit_global (permit_of ph) then 1 else 0.
Definition holds_stream (ph : Phase) : Z := if permit_stream (permit_of ph) then 1 else 0.
Definition holds_tenant (t : string) (ph : Phase) : Z :=
  if decide (permit_tenant (permit_of ph) = Some t) then 1 else 0.
Definition holds_slot (ph : Phase) : Z :=
  match ph with
  | EnteringQueue _ _ | Waiting _ _ | LeavingQueue _ _ _ | ReturningSlot _ _ _ => 1
  | _ => 0
  end.
Definition counted (ph : Phase) : Z :=
  match ph with Waiting _ _ | LeavingQueue _ _ _ => 1 | _ => 0 end.

(** The permit a phase may carry: nothing before it is acquired, nothing left at
    the end of the drop. *)
Definition phase_ok (ph : Phase) : Prop :=
  let p := permit_of ph in
  match ph with
  | AcquiringGlobal _ _ | AcquiringSlot _ _ | EnteringQueue _ _ | Waiting _ _ =>
      permit_global p = false ∧ permit_stream p = false
  | LeavingQueue _ _ _ | ReturningSlot _ _ _ | AcquiringStream _ _ => permit_stream p = false
  | DroppingStream _ _ => permit_global p = false
  | DroppingTenant _ _ => permit_global p = false ∧ permit_stream p = false
  | Panicked => False
  | _ => True
  end.

(** A semaphore accounts for the permits its holders have. *)
Definition sem_inv (max : option Z) (s : option Sem) (held : Z) : Prop :=
  match max, s with
  | Some n, Some s => available s + held = n
  | None, None => held = 0
  | _, _ => False
  end.

Definition queue_inv (max : option Z) (q : option QueueState) (held inside : Z) : Prop :=
  match max, q with
  | Some n, Some q => available (slots q) + held = n ∧ current q = inside ∧ capacity q = n
  | None, None => held = 0
  | _, _ => False
  end.

Definition tenants_inv (l : AdmissionLimits) (t : TenantTable) (held : string → Z) : Prop :=
  limit t = max_in_flight_per_tenant l ∧ table_max_tenants t = max_tenants l ∧
  (∀ x, default 0 (active t !! x) = held x) ∧
  (∀ x n, active t !! x = Some n → 1 ≤ n ∧ ∃ m, limit t = Some m ∧ n ≤ m) ∧
  (0 < Z.of_nat (size (active t)) → Z.of_nat (size (active t)) ≤ max_tenants l).

Record Inv (l : AdmissionLimits) (σ : AdmissionControl * Tasks) : Prop := {
  inv_limits : limits σ.1 = l;
  inv_global : sem_inv (max_in_flight l) (global σ.1) (msum holds_global σ.2);
  inv_streams : sem_inv (max_in_flight_streams l) (streams σ.1) (msum holds_stream σ.2);
  inv_queue :
    queue_inv (queue_capacity l) (queue σ.1) (msum holds_slot σ.2) (msum counted σ.2);
  inv_tenants : tenants_inv l (tenants σ.1) (λ x, msum (holds_tenant x) σ.2);
  inv_phases : ∀ id ph, σ.2 !! id = Some ph → phase_ok ph;
}.

(** The limits a configuration can produce: ceilings are positive and fit the
    semaphore, the queue depth fits its counter. *)
Definition limits_ok (l : AdmissionLimits) : Prop :=
  (∀ n, max_in_flight l = Some n → 0 ≤ n) ∧ (∀ n, max_in_flight_streams l = Some n → 0 ≤ n) ∧
  (∀ n, queue_capacity l = Some n → 0 ≤ n ≤ U64_MAX).

Lemma holds_global_nonneg ph : 0 ≤ holds_global ph.
Proof. unfold holds_global. case_match; lia. Qed.
Lemma holds_stream_nonneg ph : 0 ≤ holds_stream ph.
Proof. unfold holds_stream. case_match; lia. Qed.
Lemma holds_tenant_nonneg x ph : 0 ≤ holds_tenant x ph.
Proof. unfold holds_tenant. case_decide; lia. Qed.
Lemma holds_slot_nonneg ph : 0 ≤ holds_slot ph.
Proof. destruct ph; simpl; lia. Qed.
Lemma counted_le ph : 0 ≤ counted ph ≤ holds_slot ph.
Proof. destruct ph; simpl; lia. Qed.

Context {L : SemaphoreLaws S}.

Lemma inv_new l : limits_ok l → Inv l (new l, ∅).
Proof.
  intros (Hg & Hs & Hq). split; simpl; rewrite ?msum_empty; try done.
  - destruct (max_in_flight l) eqn:E; simpl; [|done]. rewrite available_new; auto with lia.
  - destruct (max_in_flight_streams l) eqn:E; simpl; [|done].
    rewrite available_new; auto with lia.
  - destruct (queue_capacity l) eqn:E; simpl; [|done].
    rewrite available_new; [auto with lia|]. by apply Hq.
Qed.

(** *** One step, one resource at a time *)

Lemma sem_inv_acquire max s s' held :
  sem_inv max (Some s) held → sem_try_acquire s = Some s' → sem_inv max (Some s') (held + 1).
Proof. intros Hi Ha. apply available_acquire in Ha. destruct max; simpl in *; [lia|done]. Qed.

Lemma sem_inv_release max s held :
  sem_inv max s held → 0 < held → sem_inv max (sem_release <$> s) (held - 1).
Proof.
  destruct max, s; simpl; try done; [|lia]. rewrite available_release. lia.
Qed.

Lemma tenants_inv_ext l t held held' :
  (∀ x, held x = held' x) → tenants_inv l t held → tenants_inv l t held'.
Proof.
  intros He (? & ? & Hheld & ?). repeat (split; [done|]). split; [|done].
  intros x. by rewrite <-He.
Qed.

Lemma reserve_inv l t held tenant r t' :
  tenants_inv l t held → reserve t tenant = (r, t') →
  tenants_inv l t' (λ x, held x + if decide (r = Ok (Some tenant) ∧ tenant = x) then 1 else 0).
Proof.
  intros Ht. unfold reserve.
  assert (∀ r : result AdmissionRejection (option string), r ≠ Ok (Some tenant) → tenants_inv l t
    (λ x, held x + if decide (r = Ok (Some tenant) ∧ tenant = x) then 1 else 0)) as Hsame.
  { intros r0 Hr. apply (tenants_inv_ext l t held); [|done].
    intros x. rewrite decide_False by naive_solver. lia. }
  destruct (limit t) as [lim|] eqn:Hlim; [|intros; simplify_eq; by apply Hsame].
  destruct Ht as (Hl & Hm & Hheld & Hpos & Hsize).
  destruct (active t !! tenant) as [n|] eqn:Hn.
  - destruct (Hpos _ _ Hn) as (Hn1 & m & Hm' & Hle). simplify_eq.
    destruct (Z.leb_spec lim n).
    + intros; simplify_eq. destruct (Z.eqb_spec n 0); [lia|]. by apply Hsame.
    + intros; simplify_eq. split_and!; simpl; try done.
      * intros x. destruct (decide (tenant = x)) as [->|].
        -- rewrite lookup_insert_eq, decide_True, <-Hheld, Hn by done. done.
        -- rewrite lookup_insert_ne, decide_False, Hheld by naive_solver. lia.
      * intros x k. destruct (decide (tenant = x)) as [->|].
        -- rewrite lookup_insert_eq. intros; simplify_eq. split; [lia|]. exists lim. auto with lia.
        -- rewrite lookup_insert_ne by done. apply Hpos.
      * by rewrite map_size_insert_Some by eauto.
  - destruct (Z.leb_spec (table_max_tenants t) (Z.of_nat (size (active t)))).
    { intros; simplify_eq. by apply Hsame. }
    destruct (Z.leb_spec lim 0).
    + intros; simplify_eq. rewrite delete_insert_id by done. destruct t. by apply Hsame.
    + intros; simplify_eq. rewrite insert_insert_eq. split_and!; simpl; try done.
      * intros x. destruct (decide (tenant = x)) as [->|].
        -- rewrite lookup_insert_eq, decide_True, <-Hheld, Hn by done. done.
        -- rewrite lookup_insert_ne, decide_False, Hheld by naive_solver. lia.
      * intros x k. destruct (decide (tenant = x)) as [->|].
        -- rewrite lookup_insert_eq. intros; simplify_eq. split; [lia|]. exists lim. auto with lia.
        -- rewrite lookup_insert_ne by done. apply Hpos.
      * rewrite map_size_insert_None by done. lia.
Qed.

Lemma release_inv l t held tenant :
  tenants_inv l t held → 0 < held tenant →
  tenants_inv l (release t tenant) (λ x, held x - if decide (tenant = x) then 1 else 0).
Proof.
  intros (Hl & Hm & Hheld & Hpos & Hsize) H0. unfold release.
  destruct (active t !! tenant) as [n|] eqn:Hn;
    [|rewrite <-Hheld, Hn in H0; simpl in H0; lia].
  destruct (Hpos _ _ Hn) as (Hn1 & m & Hm' & Hle). cbv zeta. unfold saturating_sub.
  rewrite Z.max_r by lia. destruct (Z.eqb_spec (n - 1) 0).
  - split_and!; simpl; try done.
    + intros x. case_decide; subst.
      * rewrite lookup_delete_eq, <-Hheld, Hn. simpl. lia.
      * rewrite lookup_delete_ne, Hheld by done. lia.
    + intros x k [_ Hx]%lookup_delete_Some. by apply (Hpos x).
    + rewrite map_size_delete_Some by eauto. lia.
  - split_and!; simpl; try done.
    + intros x. case_decide; subst.
      * rewrite lookup_insert_eq, <-Hheld, Hn. simpl. lia.
      * rewrite lookup_insert_ne, Hheld by done. lia.
    + intros x k. destruct (decide (tenant = x)) as [->|].
      * rewrite lookup_insert_eq. intros; simplify_eq. split; [lia|]. eauto with lia.
      * rewrite lookup_insert_ne by done. apply Hpos.
    + by rewrite map_size_insert_Some by eauto.
Qed.

(** The accounts of a gate whose tasks hold the given totals. *)
Definition acct (l : AdmissionLimits) (c : AdmissionControl) (g s q inside : Z) (t : string → Z) : Prop :=
  limits c = l ∧ sem_inv (max_in_flight l) (global c) g ∧
  sem_inv (max_in_flight_streams l) (streams c) s ∧
  queue_inv (queue_capacity l) (queue c) q inside ∧ tenants_inv l (tenants c) t.

Lemma acct_eq l c g s q i t g' s' q' i' t' :
  acct l c g s q i t → g = g' → s = s' → q = q' → i = i' → (∀ x, t x = t' x) →
  acct l c g' s' q' i' t'.
Proof.
  intros (? & ? & ? & ? & ?) -> -> -> -> Ht. repeat (split; [done|]). by eapply tenants_inv_ext.
Qed.

(** The totals after a task moves from [ph] to [ph']. *)
Definition moved (f : Phase → Z) (total : Z) (ph ph' : Phase) : Z := total - f ph + f ph'.

Lemma acct_same l c g s q i t ph ph' :
  acct l c g s q i t → permit_of ph' = permit_of ph →
  holds_slot ph' = holds_slot ph → counted ph' = counted ph →
  acct l c (moved holds_global g ph ph') (moved holds_stream s ph ph') (moved holds_slot q ph ph')
    (moved counted i ph ph') (λ x, moved (holds_tenant x) (t x) ph ph').
Proof.
  intros Ha Hp Hs Hc. eapply acct_eq; [exact Ha|..]; unfold moved;
    try (unfold holds_global, holds_stream, holds_tenant; rewrite Hp); intros; lia.
Qed.

Section Advance.
Variables (l : AdmissionLimits) (c : AdmissionControl) (g s q i : Z) (t : string → Z) (ph : Phase).
Hypothesis Hl : limits_ok l.
Hypothesis Ha : acct l c g s q i t.
Hypothesis Hph : phase_ok ph.
Hypothesis Hg : holds_global ph ≤ g.
Hypothesis Hs : holds_stream ph ≤ s.
Hypothesis Hi : counted ph ≤ i.
Hypothesis Hgap : i + (holds_slot ph - counted ph) ≤ q.
Hypothesis Ht : ∀ x, holds_tenant x ph ≤ t x.

Definition advances_to (c' : AdmissionControl) (ph' : Phase) : Prop :=
  phase_ok ph' ∧
  acct l c' (moved holds_global g ph ph') (moved holds_stream s ph ph') (moved holds_slot q ph ph')
    (moved counted i ph ph') (λ x, moved (holds_tenant x) (t x) ph ph').

Lemma advances_same ph' :
  phase_ok ph' → permit_of ph' = permit_of ph →
  holds_slot ph' = holds_slot ph → counted ph' = counted ph → advances_to c ph'.
Proof. intros. split; [done|]. by apply acct_same. Qed.

Lemma acquire_global sem sem' p ph' :
  global c = Some sem → sem_try_acquire sem = Some sem' → permit_of ph = p →
  permit_global p = false → phase_ok ph' → permit_of ph' = with_global p true →
  holds_slot ph' = holds_slot ph → counted ph' = counted ph →
  advances_to (set_global c (Some sem')) ph'.
Proof.
  intros E Hacq Hp Hfree Hok Hp' Hq Hc. split; [done|].
  pose proof Ha as (H1 & H2 & H3 & H4 & H5). rewrite E in H2.
  pose proof (sem_inv_acquire _ _ _ _ H2 Hacq) as H2'.
  apply (acct_eq _ _ (g + 1) s q i t); [split_and!; done|..]; unfold moved;
    unfold holds_global, holds_stream, holds_tenant; rewrite ?Hp', ?Hp; simpl;
    rewrite ?Hfree; intros; lia.
Qed.

Lemma acquire_stream sem sem' p :
  streams c = Some sem → sem_try_acquire sem = Some sem' → permit_of ph = p →
  permit_stream p = false → holds_slot ph = 0 → counted ph = 0 →
  advances_to (set_streams c (Some sem')) (Holding (with_stream p true)).
Proof.
  intros E Hacq Hp Hfree Hq Hc. split; [done|].
  pose proof Ha as (H1 & H2 & H3 & H4 & H5). rewrite E in H3.
  pose proof (sem_inv_acquire _ _ _ _ H3 Hacq) as H3'.
  apply (acct_eq _ _ g (s + 1) q i t); [split_and!; done|..]; unfold moved;
    unfold holds_global, holds_stream, holds_tenant; rewrite ?Hp, ?Hq, ?Hc; simpl;
    rewrite ?Hfree; intros; lia.
Qed.

Lemma advance_reserving tenant kind c' ph' :
  ph = Reserving tenant kind → advance c ph Run = Some (c', ph') → advances_to c' ph'.
Proof.
  intros E. rewrite E. simpl. destruct (reserve (tenants c) tenant) as [r tt] eqn:Hr.
  intros; simplify_eq. pose proof Ha as (H1 & H2 & H3 & H4 & H5).
  pose proof (reserve_inv _ _ _ _ _ _ H5 Hr) as H5'.
  assert (acct l (set_tenants c tt) g s q i
    (λ x, t x + if decide (r = Ok (Some tenant) ∧ tenant = x) then 1 else 0)) as Ha'
    by (split_and!; done).
  assert (r = Ok None ∨ r = Ok (Some tenant) ∨ ∃ e, r = Err e) as Hcases.
  { unfold reserve in Hr. repeat case_match; naive_solver. }
  split; [destruct Hcases as [->|[->|[e ->]]]; unfold after_tenant; try done; by destruct (global c)|].
  unfold moved. eapply acct_eq; [exact Ha'|..]; unfold holds_global, holds_stream, holds_tenant;
    destruct Hcases as [->|[->|[e ->]]]; unfold after_tenant; destruct (global c);
    simpl; intros; repeat case_decide; try naive_solver lia; lia.
Qed.

Lemma advance_queue c' ph' ev :
  (∃ p k, ph = AcquiringSlot p k) ∨ (∃ p k, ph = EnteringQueue p k) ∨
  (∃ p k o, ph = LeavingQueue p k o) ∨ (∃ p k o, ph = ReturningSlot p k o) →
  advance c ph ev = Some (c', ph') → advances_to c' ph'.
Proof.
  pose proof Ha as (H1 & H2 & H3 & H4 & H5). pose proof Hl as (_ & _ & Hcap).
  assert (∀ q' ph', permit_of ph' = permit_of ph →
    queue_inv (queue_capacity l) (Some q') (moved holds_slot q ph ph') (moved counted i ph ph') →
    acct l (set_queue c (Some q')) (moved holds_global g ph ph') (moved holds_stream s ph ph')
      (moved holds_slot q ph ph') (moved counted i ph ph')
      (λ x, moved (holds_tenant x) (t x) ph ph')) as Hset.
  { intros q' ph0 Hp Hq. split_and!; simpl; try done.
    - unfold moved, holds_global. rewrite Hp. by rewrite Z.sub_add.
    - unfold moved, holds_stream. rewrite Hp. by rewrite Z.sub_add.
    - eapply tenants_inv_ext; [|exact H5]. intros x. unfold moved, holds_tenant. rewrite Hp. lia. }
  intros Hcase. destruct (queue c) as [qs|] eqn:Eq;
    [|destruct Hcase as [(?&?&E)|[(?&?&E)|[(?&?&?&E)|(?&?&?&E)]]]; rewrite E; destruct ev; simpl;
      rewrite ?Eq; done].
  destruct (queue_capacity l) as [n|] eqn:En; [|done]. destruct H4 as (Hav & Hcur & Hn).
  specialize (Hcap n eq_refl). pose proof (available_nonneg (slots qs)).
  destruct Hcase as [(p&k&E)|[(p&k&E)|[(p&k&o&E)|(p&k&o&E)]]]; rewrite E in Hph, Hi, Hgap |- *;
    destruct ev; simpl; try done; rewrite Eq; simpl in Hph, Hi, Hgap |- *.
  - unfold take_slot. destruct (sem_try_acquire (slots qs)) as [s'|] eqn:Es; simpl;
      intros [= <- <-].
    + split; [done|]. apply Hset; [by rewrite E|]. apply available_acquire in Es.
      unfold moved. rewrite E. simpl. lia.
    + apply advances_same; by rewrite ?E.
  - unfold enter. cbv zeta. rewrite !(proj2 (Z.leb_le _ _)) by lia. simpl. intros [= <- <-].
    split; [done|]. apply Hset; [by rewrite E|]. unfold moved. rewrite E. simpl. lia.
  - unfold leave, checked_sub. rewrite (proj2 (Z.leb_le _ _)) by lia. simpl. intros [= <- <-].
    split; [done|]. apply Hset; [by rewrite E|]. unfold moved. rewrite E. simpl. lia.
  - intros [= <- <-]. split; [by destruct o|].
    apply Hset; [by rewrite E; destruct o|]. unfold moved. rewrite E. simpl.
    rewrite available_release. destruct o; simpl; lia.
Qed.

Lemma advance_dropping c' ph' ev :
  (∃ p o, ph = DroppingGlobal p o) ∨ (∃ p o, ph = DroppingStream p o) ∨
  (∃ p o, ph = DroppingTenant p o) →
  advance c ph ev = Some (c', ph') → advances_to c' ph'.
Proof.
  pose proof Ha as (H1 & H2 & H3 & H4 & H5). intros Hcase Hadv.
  destruct Hcase as [(p&o&E)|[(p&o&E)|(p&o&E)]]; rewrite E in *; destruct ev; simpl in Hadv;
    simplify_eq; split; try done.
  - unfold holds_global in Hg. simpl in Hg. destruct (permit_global p) eqn:Ep.
    + pose proof (sem_inv_release _ _ _ H2 ltac:(lia)).
      apply (acct_eq _ _ (g - 1) s q i t); [split_and!; done|..]; unfold moved, holds_global,
        holds_stream, holds_tenant; rewrite E; simpl; rewrite ?Ep; intros; lia.
    + apply (acct_eq _ _ g s q i t); [split_and!; done|..]; unfold moved, holds_global,
        holds_stream, holds_tenant; rewrite E; simpl; rewrite ?Ep; intros; lia.
  - unfold holds_stream in Hs. simpl in Hs. destruct (permit_stream p) eqn:Ep.
    + pose proof (sem_inv_release _ _ _ H3 ltac:(lia)).
      apply (acct_eq _ _ g (s - 1) q i t); [split_and!; done|..]; unfold moved, holds_global,
        holds_stream, holds_tenant; rewrite E; simpl; rewrite ?Ep; intros; lia.
    + apply (acct_eq _ _ g s q i t); [split_and!; done|..]; unfold moved, holds_global,
        holds_stream, holds_tenant; rewrite E; simpl; rewrite ?Ep; intros; lia.
  - pose proof Hph as [Hp1 Hp2]. simpl in Hp1, Hp2. destruct (permit_tenant p) as [x|] eqn:Ep.
    + assert (0 < t x) as Hx.
      { specialize (Ht x). unfold holds_tenant in Ht. simpl in Ht.
        rewrite decide_True in Ht by done. lia. }
      pose proof (release_inv _ _ _ _ H5 Hx).
      apply (acct_eq _ _ g s q i (λ y, t y - if decide (x = y) then 1 else 0));
        [split_and!; done|..]; unfold moved, holds_global, holds_stream, holds_tenant; rewrite E;
        simpl; rewrite ?Ep, ?Hp1, ?Hp2; intros; repeat case_decide; naive_solver lia.
    + apply (acct_eq _ _ g s q i t); [split_and!; done|..]; unfold moved, holds_global,
        holds_stream, holds_tenant; rewrite E; simpl; rewrite ?Ep, ?Hp1, ?Hp2; intros;
        repeat case_decide; naive_solver lia.
Qed.

Lemma advance_acct ev c' ph' : advance c ph ev = Some (c', ph') → advances_to c' ph'.
Proof.
  assert (∃ ph0, ph = ph0) as [ph0 E] by eauto.
  destruct ph0 as [tenant kind|p k|p k|p k|p k|p k o|p k o|p k|p|p o|p o|p o|o|];
    try solve [apply advance_queue; eauto 10]; try solve [apply advance_dropping; eauto 10];
    intros Hadv; rewrite E in Hadv.
  - destruct ev; try done. eapply advance_reserving; [exact E|by rewrite E].
  - rewrite E in Hph. destruct ev; try done. simpl in Hadv, Hph.
    destruct (global c) as [sem|] eqn:Eg; [|done].
    destruct (sem_try_acquire sem) as [sem'|] eqn:Es; try (injection Hadv as <- <-).
    + destruct Hph as [Hp1 Hp2]. by apply (acquire_global sem sem' p); rewrite ?E.
    + destruct (queue c); apply advances_same; by rewrite ?E.
  - rewrite E in Hph. pose proof Hph as [Hp1 Hp2]. simpl in Hp1, Hp2.
    destruct ev; try done; simpl in Hadv; try (injection Hadv as <- <-); try (apply advances_same; by rewrite ?E).
    destruct (global c) as [sem|] eqn:Eg; simpl in Hadv; [|done].
    destruct (sem_try_acquire sem) as [sem'|] eqn:Es; simpl in Hadv; try done; injection Hadv as <- <-.
    by apply (acquire_global sem sem' p); rewrite ?E.
  - rewrite E in Hph. simpl in Hph. destruct ev; try done. simpl in Hadv.
    destruct k; try (injection Hadv as <- <-); [apply advances_same; by rewrite ?E|].
    destruct (streams c) as [sem|] eqn:Es; try (injection Hadv as <- <-); [|apply advances_same; by rewrite ?E].
    destruct (sem_try_acquire sem) as [sem'|] eqn:Ea; try (injection Hadv as <- <-).
    + by apply (acquire_stream sem sem' p); rewrite ?E.
    + apply advances_same; by rewrite ?E.
  - destruct ev; try done. simpl in Hadv. injection Hadv as <- <-. apply advances_same; by rewrite ?E.
  - by destruct ev.
  - by destruct ev.
Qed.

End Advance.

Lemma inv_acct l c tasks : Inv l (c, tasks) →
  acct l c (msum holds_global tasks) (msum holds_stream tasks) (msum holds_slot tasks)
    (msum counted tasks) (λ x, msum (holds_tenant x) tasks).
Proof. intros []. by split_and!. Qed.

Lemma acct_inv l c tasks :
  acct l c (msum holds_global tasks) (msum holds_stream tasks) (msum holds_slot tasks)
    (msum counted tasks) (λ x, msum (holds_tenant x) tasks) →
  (∀ id ph, tasks !! id = Some ph → phase_ok ph) → Inv l (c, tasks).
Proof. intros (? & ? & ? & ? & ?) ?. by split. Qed.

Lemma inv_advance l c tasks id ph ev c' ph' :
  limits_ok l → Inv l (c, tasks) → tasks !! id = Some ph → advance c ph ev = Some (c', ph') →
  Inv l (c', <[id := ph']> tasks).
Proof.
  intros Hl HI Hid Hadv.
  destruct (advance_acct l c _ _ _ _ _ ph Hl (inv_acct _ _ _ HI)
    (inv_phases _ _ HI _ _ Hid)
    (msum_elem_le _ _ _ _ holds_global_nonneg Hid) (msum_elem_le _ _ _ _ holds_stream_nonneg Hid)
    (msum_elem_le _ _ _ _ (λ a, proj1 (counted_le a)) Hid)
    (msum_gap _ _ _ _ _ (λ a, proj2 (counted_le a)) Hid)
    (λ x, msum_elem_le _ _ _ _ (holds_tenant_nonneg x) Hid) ev c' ph' Hadv) as [Hok Ha].
  apply acct_inv.
  - eapply acct_eq; [exact Ha|..]; unfold moved; intros; by rewrite (msum_update _ _ _ ph).
  - intros id' ph0 [[_ <-]|[_ H]]%lookup_insert_Some; [done|]. by apply (inv_phases _ _ HI id').
Qed.

Lemma inv_step l σ σ' : limits_ok l → Inv l σ → step σ σ' → Inv l σ'.
Proof.
  intros Hl HI Hs. destruct Hs as [c tasks id tenant kind Hfree|]; [|by eapply inv_advance].
  apply acct_inv.
  - eapply acct_eq; [by apply inv_acct|..]; intros; by rewrite msum_insert.
  - intros id' ph0 [[_ <-]|[_ H]]%lookup_insert_Some; [done|]. by apply (inv_phases _ _ HI id').
Qed.

Lemma reachable_inv l σ : limits_ok l → reachable l σ → Inv l σ.
Proof.
  intros Hl Hr. apply (rtc_ind_r (R:=step) (Inv l) (new l, ∅)); [by apply inv_new| |done].
  intros y z _ Hs HI. by eapply inv_step.
Qed.

Lemma sem_inv_held max s n held : sem_inv max s held → max = Some n → held ≤ n.
Proof.
  intros Hs ->. destruct s as [s|]; simpl in Hs; [|done]. pose proof (available_nonneg s). lia.
Qed.

Lemma no_permits s : sem_try_acquire s = None → available s = 0.
Proof.
  intros E. pose proof (available_nonneg s). destruct (decide (0 < available s)) as [Hp|]; [|lia].
  by apply acquire_Some in Hp.
Qed.

(** A schedule is run by [exec]. *)
Inductive Action :=
| Arrive (id : nat) (tenant : string) (kind : RequestKind)
| Move (id : nat) (ev : Event).

Definition exec1 (σ : AdmissionControl * Tasks) (a : Action) : option (AdmissionControl * Tasks) :=
  match a with
  | Arrive id tenant kind =>
      match σ.2 !! id with
      | None => Some (σ.1, <[id := Reserving tenant kind]> σ.2)
      | Some _ => None
      end
  | Move id ev =>
      ph ← σ.2 !! id; '(c, ph') ← advance σ.1 ph ev; Some (c, <[id := ph']> σ.2)
  end.

Fixpoint exec (σ : AdmissionControl * Tasks) (acts : list Action) : option (AdmissionControl * Tasks) :=
  match acts with [] => Some σ | a :: acts => σ' ← exec1 σ a; exec σ' acts end.

Lemma exec_reachable σ acts σ' : exec σ acts = Some σ' → rtc step σ σ'.
Proof.
  revert σ. induction acts as [|a acts IH]; intros [c tasks] H; simpl in H; [by simplify_eq|].
  apply bind_Some in H as (σ1 & H1 & H2). apply rtc_l with σ1; [|by apply IH].
  destruct a as [id tenant kind|id ev]; simpl in H1.
  - destruct (tasks !! id) eqn:E; simplify_eq. by constructor.
  - apply bind_Some in H1 as (ph & Hid & H1). apply bind_Some in H1 as ([c' ph'] & Ha & H1).
    simplify_eq. by econstructor.
Qed.

(** ** Properties *)

(** C35: whatever the interleaving of arrivals, grants, timeouts, cancellations
    and drops, the requests that hold a permit never exceed the global ceiling,
    the open streams never exceed theirs, no tenant exceeds its own, at most
    [max_tenants] tenants are tracked, the queue holds at most its capacity with
    an exact depth counter, and no task reaches either panic of the queue. *)
Theorem admission_bounds (l : AdmissionLimits) (c : AdmissionControl) (tasks : Tasks) :
  limits_ok l → 0 ≤ max_tenants l → reachable l (c, tasks) →
  (∀ n, max_in_flight l = Some n → msum holds_global tasks ≤ n) ∧
  (∀ n, max_in_flight_streams l = Some n → msum holds_stream tasks ≤ n) ∧
  (∀ n x, max_in_flight_per_tenant l = Some n → 0 ≤ n → msum (holds_tenant x) tasks ≤ n) ∧
  Z.of_nat (size (active (tenants c))) ≤ max_tenants l ∧
  (∀ n q, queue_capacity l = Some n → queue c = Some q →
    current q = msum counted tasks ∧ current q ≤ msum holds_slot tasks ≤ n) ∧
  ∀ id, tasks !! id ≠ Some Panicked.
Proof.
  intros Hl Hmt Hr. destruct (reachable_inv _ _ Hl Hr) as [Hlim Hg Hs Hq Ht Hp]. simpl in *.
  destruct Ht as (Ht1 & Ht2 & Hheld & Hpos & Hsize). split_and!.
  - intros n. by eapply sem_inv_held.
  - intros n. by eapply sem_inv_held.
  - intros n x Hn H0. rewrite <-Hheld. destruct (active (tenants c) !! x) as [k|] eqn:Ek; simpl; [|lia].
    destruct (Hpos _ _ Ek) as (_ & m & ? & ?). assert (m = n) by congruence. lia.
  - lia.
  - intros n q Hn Hc. rewrite Hn, Hc in Hq. simpl in Hq.
    pose proof (available_nonneg (slots q)).
    pose proof (msum_le counted holds_slot tasks (λ _ a _, proj2 (counted_le a))). lia.
  - intros id Hid. by apply Hp in Hid.
Qed.

(** capacity is never lost: once every request has finished — served,
    rejected at any gate, timed out or cancelled — every semaphore has all its
    permits back, the queue is empty and no tenant is tracked. *)
Theorem admission_returns_capacity (l : AdmissionLimits) (c : AdmissionControl) (tasks : Tasks) :
  limits_ok l → reachable l (c, tasks) →
  (∀ id ph, tasks !! id = Some ph → ∃ o, ph = Finished o) →
  available <$> global c = max_in_flight l ∧
  available <$> streams c = max_in_flight_streams l ∧
  (λ q, available (slots q)) <$> queue c = queue_capacity l ∧
  (∀ q, queue c = Some q → current q = 0) ∧ active (tenants c) = ∅.
Proof.
  intros Hl Hr Hdone. destruct (reachable_inv _ _ Hl Hr) as [Hlim Hg Hs Hq Ht Hp]. simpl in *.
  assert (∀ f, (∀ o, f (Finished o) = 0) → msum f tasks = 0) as Hz.
  { intros f Hf. apply msum_zero. intros id ph Hid. destruct (Hdone _ _ Hid) as [o ->]. apply Hf. }
  rewrite Hz in Hg, Hs by done. rewrite (Hz holds_slot), (Hz counted) in Hq by done.
  split_and!.
  - destruct (max_in_flight l), (global c); simpl in *; try done. f_equal. lia.
  - destruct (max_in_flight_streams l), (streams c); simpl in *; try done. f_equal. lia.
  - destruct (queue_capacity l), (queue c); simpl in *; try done. f_equal. lia.
  - intros q Hc. rewrite Hc in Hq. destruct (queue_capacity l); simpl in Hq; [lia|done].
  - destruct Ht as (_ & _ & Hheld & Hpos & _). apply map_eq. intros x. rewrite lookup_empty.
    destruct (active (tenants c) !! x) as [n|] eqn:En; [|done]. destruct (Hpos _ _ En) as [Hn _].
    specialize (Hheld x). rewrite En in Hheld. simpl in Hheld. rewrite Hz in Hheld by done. lia.
Qed.

(** no request is shed while there is room: each refusal is taken only when
    the ceiling it names is full of permits held by requests — the tenant's own,
    the tenant table, the streams, the process without a queue, the queue. *)
Theorem rejections_honest (l : AdmissionLimits) (c c' : AdmissionControl) (tasks : Tasks)
    (id : nat) (ph ph' : Phase) :
  limits_ok l → reachable l (c, tasks) → tasks !! id = Some ph →
  advance c ph Run = Some (c', ph') →
  match ph, ph' with
  | Reserving x _, Finished (Rejected r) =>
      (r = Tenant ∧ ∃ n, max_in_flight_per_tenant l = Some n ∧
        (n ≤ 0 ∨ msum (holds_tenant x) tasks = n)) ∨
      (r = TenantCapacity ∧ msum (holds_tenant x) tasks = 0 ∧
        max_tenants l ≤ Z.of_nat (size (active (tenants c))))
  | AcquiringGlobal _ _, DroppingGlobal _ (Rejected r) =>
      r = Global ∧ queue_capacity l = None ∧ max_in_flight l = Some (msum holds_global tasks)
  | AcquiringSlot _ _, DroppingGlobal _ (Rejected r) =>
      r = QueueFull ∧ queue_capacity l = Some (msum holds_slot tasks)
  | AcquiringStream _ _, DroppingGlobal _ (Rejected r) =>
      r = Streams ∧ max_in_flight_streams l = Some (msum holds_stream tasks)
  | _, _ => True
  end.
Proof.
  intros Hl Hr Hid Hadv. destruct (reachable_inv _ _ Hl Hr) as [Hlim Hg Hs Hq Ht Hp]. simpl in *.
  destruct ph as [x kind|p k|p k| | | | |p k| | | | | |]; try done; simpl in Hadv.
  - destruct Ht as (Ht1 & Ht2 & Hheld & Hpos & Hsize). specialize (Hheld x).
    unfold reserve in Hadv. destruct (limit (tenants c)) as [lim|] eqn:El.
    2:{ injection Hadv as <- <-. unfold after_tenant. by destruct (global c). }
    destruct (active (tenants c) !! x) as [n|] eqn:En; simpl in Hheld.
    + destruct (Hpos _ _ En) as (? & m & ? & ?). assert (m = lim) by congruence. subst m.
      destruct (Z.leb_spec lim n); injection Hadv as <- <-;
        [|unfold after_tenant; by destruct (global c)].
      left. split; [done|]. exists lim. split; [congruence|]. lia.
    + destruct (Z.leb_spec (table_max_tenants (tenants c)) (Z.of_nat (size (active (tenants c))))).
      * injection Hadv as <- <-. right. split_and!; [done|done|lia].
      * destruct (Z.leb_spec lim 0); injection Hadv as <- <-;
          [|unfold after_tenant; by destruct (global c)].
        left. split; [done|]. exists lim. split; [congruence|]. lia.
  - destruct (global c) as [s|] eqn:Eg; [|done].
    destruct (sem_try_acquire s) eqn:Es; injection Hadv as <- <-; [done|]. apply no_permits in Es.
    destruct (queue c) as [qs|] eqn:Eq; [done|].
    destruct (max_in_flight l); simpl in Hg; [|done].
    destruct (queue_capacity l); simpl in Hq; [done|].
    split_and!; try done. f_equal. lia.
  - destruct (queue c) as [qs|] eqn:Eq; [|done]. unfold take_slot in Hadv.
    destruct (sem_try_acquire (slots qs)) eqn:Es; injection Hadv as <- <-; [done|].
    apply no_permits in Es.
    destruct (queue_capacity l); simpl in Hq; [|done]. split; [done|]. f_equal. lia.
  - destruct k; [by injection Hadv as <- <-|].
    destruct (streams c) as [s|] eqn:Eg; [|by injection Hadv as <- <-].
    destruct (sem_try_acquire s) eqn:Es; injection Hadv as <- <-; [done|]. apply no_permits in Es.
    destruct (max_in_flight_streams l); simpl in Hs; [|done]. split; [done|]. f_equal. lia.
Qed.

End WithSemaphore.

(** One of each: a stream that is served while a second request queues, is
    granted the freed permit and finishes, and a third is turned away. *)
Definition one_of_each : AdmissionLimits :=
  mkLimits 1024 (Some 1) (Some 1) (Some 2) 2 (Some 1) 100 None None None None.

Lemma one_of_each_ok : limits_ok one_of_each.
Proof. repeat split; intros; simpl in *; simplify_eq; try lia; vm_compute; discriminate. Qed.

Definition contended : list Action :=
  [Arrive 0 "a" Streamed; Move 0 Run; Move 0 Run; Move 0 Run;
   Arrive 1 "a" Buffered; Move 1 Run; Move 1 Run; Move 1 Run; Move 1 Run;
   Arrive 2 "b" Buffered; Move 2 Run; Move 2 Run].

Definition drained : list Action :=
  contended ++
  [Move 2 Run; Move 2 Run; Move 2 Run; Move 2 Run;
   Move 0 Drop; Move 0 Run; Move 1 Granted; Move 0 Run; Move 0 Run;
   Move 1 Run; Move 1 Run; Move 1 Run; Move 1 Drop; Move 1 Run; Move 1 Run; Move 1 Run].

Lemma admission_bounds_witness :
  ∃ σ, exec (new one_of_each, ∅) contended = Some σ ∧
    msum holds_global σ.2 = 1 ∧ msum counted σ.2 = 1 ∧ msum holds_global σ.2 ≤ 1.
Proof.
  eexists. split; [vm_compute; reflexivity|]. split; [vm_compute; reflexivity|].
  split; [vm_compute; reflexivity|].
  eapply (admission_bounds one_of_each); [apply one_of_each_ok|simpl; lia| |reflexivity].
  eapply (exec_reachable _ contended). vm_compute. reflexivity.
Defined.

Lemma admission_returns_capacity_witness :
  ∃ σ, exec (new one_of_each, ∅) drained = Some σ ∧
    σ.2 !! 2%nat = Some (Finished (Rejected QueueFull)) ∧ σ.2 !! 1%nat = Some (Finished Served) ∧
    active (tenants σ.1) = ∅.
Proof.
  eexists. split; [vm_compute; reflexivity|]. split; [reflexivity|]. split; [reflexivity|].
  eapply (admission_returns_capacity one_of_each); [apply one_of_each_ok| |].
  - eapply (exec_reachable _ drained). vm_compute. reflexivity.
  - intros id ph H. apply elem_of_map_to_list in H.
    match type of H with _ ∈ ?l => let l' := eval vm_compute in l in change l with l' in H end.
    repeat (apply elem_of_cons in H as [H|H]; [simplify_eq; eauto|]). by apply elem_of_nil in H.
Defined.

Definition contended_state : AdmissionControl * gmap nat Phase :=
  default (new one_of_each, ∅) (exec (new one_of_each, ∅) contended).

Lemma rejections_honest_witness :
  contended_state.2 !! 2%nat = Some (AcquiringSlot (mkPermit false false (Some "b"%string)) Buffered) ∧
  queue_capacity one_of_each = Some (msum holds_slot contended_state.2).
Proof.
  split; [vm_compute; reflexivity|].
  refine (proj2 (A := QueueFull = QueueFull) _).
  apply (rejections_honest one_of_each contended_state.1 contended_state.1 contended_state.2 2%nat
    (AcquiringSlot (mkPermit false false (Some "b"%string)) Buffered)
    (DroppingGlobal (mkPermit false false (Some "b"%string)) (Rejected QueueFull)) one_of_each_ok).
  - apply (exec_reachable _ contended). vm_compute. reflexivity.
  - vm_compute. reflexivity.
  - vm_compute. reflexivity.
Defined.

End Admission.
