(* ===== verification/Settlement.v ===== *)
(** * Settlement capacity ([crates/gateway/src/settlement.rs])

    The bounded background work that charges a request after its response.  A
    settlement reserves capacity when its request is admitted, is spawned later,
    waits for an execution slot, runs, and gives everything back when its guard
    drops.  Every atomic update, mutex section and semaphore operation of the
    source is one step of the task that performs it; any interleaving of tasks is
    possible, and so are timeouts, panics and aborted tasks.  The shutdown wait on
    the [watch] channel is a task of its own.  Metrics are kept as the log of
    failure reports; the age gauge is not modelled. *)

From S2P Require Import Prelude Admission.

Module Settlement.

(** Durations in milliseconds. *)
Record SettlementLimits := mkLimits {
  max_pending : option Z;
  max_in_flight : option Z;
  queue_wait : option Z;
  execution_timeout : option Z;
}.

(** [bound] and [millis] are the same test on a count and on a duration. *)
Definition limits_from (c : Admission.AdmissionConfig) : SettlementLimits := {|
  max_pending := Admission.bound (Admission.cfg_max_pending_settlements c);
  max_in_flight := Admission.bound (Admission.cfg_max_in_flight_settlements c);
  queue_wait := Admission.bound (Admission.cfg_settlement_queue_wait_ms c);
  execution_timeout := Admission.bound (Admission.cfg_settlement_timeout_ms c);
|}.

Definition FAILURE_QUEUE_TIMEOUT : string := "queue_timeout".
Definition FAILURE_EXECUTION_TIMEOUT : string := "execution_timeout".
Definition FAILURE_PANICKED : string := "panicked".
Definition FAILURE_CANCELLED : string := "cancelled".
Definition FAILURE_REFUSED : string := "refused".

Inductive Outcome := Completed | QueueTimeout | ExecutionTimeout | Panicked | Cancelled.

#[global] Instance Outcome_eq_dec : EqDecision Outcome.
Proof. solve_decision. Defined.

Definition failure_reason (o : Outcome) : option string :=
  match o with
  | Completed => None
  | QueueTimeout => Some FAILURE_QUEUE_TIMEOUT
  | ExecutionTimeout => Some FAILURE_EXECUTION_TIMEOUT
  | Panicked => Some FAILURE_PANICKED
  | Cancelled => Some FAILURE_CANCELLED
  end.

Inductive Stage := InQueue | InExecution.

(** ** The shared counters

    A [fetch_add] or [fetch_sub] on an [AtomicU64] wraps. *)

Definition fetch_add (n : Z) : Z := (n + 1) `mod` 2 ^ 64.
Definition fetch_sub (n : Z) : Z := (n - 1) `mod` 2 ^ 64.

Section WithSemaphore.
Context {S : Semaphore}.

Record Shared := mkShared {
  limits : SettlementLimits;
  pending : option Sem;
  executing : option Sem;
  reserved : Z;
  queued : Z;
  running : Z;
  spawned : Z;
  backlog : gmap Z Z;
  sequence : Z;
  (** How often the [watch] channel was modified. *)
  finished : Z;
  (** [record_settlement_failure], with the settlement it reports. *)
  failures : list (nat * string);
}.

Definition new (l : SettlementLimits) : Shared :=
  mkShared l (sem_new <$> max_pending l) (sem_new <$> max_in_flight l) 0 0 0 0 ∅ 0 0 [].

Definition set_pending s v :=
  mkShared (limits s) v (executing s) (reserved s) (queued s) (running s) (spawned s) (backlog s) (sequence s) (finished s) (failures s).
Definition set_executing s v :=
  mkShared (limits s) (pending s) v (reserved s) (queued s) (running s) (spawned s) (backlog s) (sequence s) (finished s) (failures s).
Definition set_reserved s v :=
  mkShared (limits s) (pending s) (executing s) v (queued s) (running s) (spawned s) (backlog s) (sequence s) (finished s) (failures s).
Definition set_queued s v :=
  mkShared (limits s) (pending s) (executing s) (reserved s) v (running s) (spawned s) (backlog s) (sequence s) (finished s) (failures s).
Definition set_running s v :=
  mkShared (limits s) (pending s) (executing s) (reserved s) (queued s) v (spawned s) (backlog s) (sequence s) (finished s) (failures s).
Definition set_spawned s v :=
  mkShared (limits s) (pending s) (executing s) (reserved s) (queued s) (running s) v (backlog s) (sequence s) (finished s) (failures s).
Definition set_backlog s v :=
  mkShared (limits s) (pending s) (executing s) (reserved s) (queued s) (running s) (spawned s) v (sequence s) (finished s) (failures s).
Definition set_sequence s v :=
  mkShared (limits s) (pending s) (executing s) (reserved s) (queued s) (running s) (spawned s) (backlog s) v (finished s) (failures s).
Definition set_finished s v :=
  mkShared (limits s) (pending s) (executing s) (reserved s) (queued s) (running s) (spawned s) (backlog s) (sequence s) v (failures s).
Definition report s (id : nat) (reason : string) :=
  mkShared (limits s) (pending s) (executing s) (reserved s) (queued s) (running s) (spawned s) (backlog s) (sequence s) (finished s) (failures s ++ [(id, reason)]).

(** ** The tasks *)

(** How a settlement ends: the request was shed at admission, the work was
    refused, the reservation was dropped unspawned, or the spawned task ended. *)
Inductive End := Shed | Refused | Unspawned | Ended (o : Outcome).

(** The next operation of a settlement's task. *)
Inductive Pc :=
| Reserving            (* [try_reserve]: the pending permit *)
| CountingReserved     (* [reserved.fetch_add] *)
| Reserved             (* the request holds its [SettlementReservation] *)
| DroppingReservation  (* its drop: [reserved.fetch_sub] *)
| DroppingReserved     (* then its permit *)
| Consuming            (* [spawn]: [consume], [reserved.fetch_sub] *)
| Sequencing           (* [sequence.fetch_add] *)
| Enqueuing            (* [backlog.insert] *)
| CountingQueued       (* [queued.fetch_add] *)
| CountingSpawned      (* [spawned.fetch_add] *)
| Queued               (* the task awaits an execution slot *)
| LeavingQueued        (* [start_executing]: [queued.fetch_sub] *)
| CountingRunning      (* [running.fetch_add] *)
| Executing            (* the settlement runs *)
| ReleasingSlot        (* the task ends: the slot drops *)
| LeavingStage         (* the guard drops: its stage counter *)
| LeavingSpawned       (* [spawned.fetch_sub] *)
| LeavingBacklog       (* [backlog.remove] *)
| Reporting            (* the failure, unless it was recorded *)
| Notifying            (* [finished.send_modify] *)
| ReleasingPermit      (* the guard's permit *)
| Done (e : End).

Record Task := mkTask {
  pc : Pc;
  (** Spawned by [try_spawn], with no request's reservation. *)
  direct : bool;
  permit : bool;
  slot : bool;
  seq : Z;
  enqueued : Z;
  stage : Stage;
  outcome : option Outcome;
  failure_recorded : bool;
}.

Definition task_new (direct : bool) : Task := mkTask Reserving direct false false 0 0 InQueue None false.

Definition goto t c := mkTask c (direct t) (permit t) (slot t) (seq t) (enqueued t) (stage t) (outcome t) (failure_recorded t).
Definition with_permit t v := mkTask (pc t) (direct t) v (slot t) (seq t) (enqueued t) (stage t) (outcome t) (failure_recorded t).
Definition with_slot t v := mkTask (pc t) (direct t) (permit t) v (seq t) (enqueued t) (stage t) (outcome t) (failure_recorded t).
Definition with_seq t v := mkTask (pc t) (direct t) (permit t) (slot t) v (enqueued t) (stage t) (outcome t) (failure_recorded t).
Definition with_enqueued t v := mkTask (pc t) (direct t) (permit t) (slot t) (seq t) v (stage t) (outcome t) (failure_recorded t).
Definition with_stage t v := mkTask (pc t) (direct t) (permit t) (slot t) (seq t) (enqueued t) v (outcome t) (failure_recorded t).
Definition with_outcome t v := mkTask (pc t) (direct t) (permit t) (slot t) (seq t) (enqueued t) (stage t) (Some v) (failure_recorded t).
Definition with_recorded t := mkTask (pc t) (direct t) (permit t) (slot t) (seq t) (enqueued t) (stage t) (outcome t) true.

(** What lets a task move: it runs at some instant; the request spawns or drops
    its reservation; the slot is granted, its wait expires or the semaphore is
    closed; the settlement returns, panics or misses its deadline; the task is
    aborted. *)
Inductive Event :=
| Run (now : Z) | Spawn | Drop | Granted | TimedOut | Closed | Returned | Panics | Deadline | Aborted.

(** [if guard.outcome.is_none() { guard.outcome = Some(outcome) }] *)
Definition conclude (t : Task) (o : Outcome) : Task :=
  match outcome t with None => with_outcome t o | Some _ => t end.

(** [note_execution_timeout] *)
Definition note_execution_timeout (s : Shared) (id : nat) (t : Task) : Shared * Task :=
  let t := with_outcome t ExecutionTimeout in
  if failure_recorded t then (s, t)
  else (report s id FAILURE_EXECUTION_TIMEOUT, with_recorded t).

Definition end_of (t : Task) : Outcome := default Cancelled (outcome t).

Definition advance (id : nat) (s : Shared) (t : Task) (ev : Event) : option (Shared * Task) :=
  match pc t, ev with
  | Reserving, Run _ =>
      Some (match pending s with
            | None => (s, goto t CountingReserved)
            | Some sem =>
                match sem_try_acquire sem with
                | Some sem => (set_pending s (Some sem), goto (with_permit t true) CountingReserved)
                | None =>
                    if direct t then (report s id FAILURE_REFUSED, goto t (Done Refused))
                    else (s, goto t (Done Shed))
                end
            end)
  | CountingReserved, Run _ =>
      Some (set_reserved s (fetch_add (reserved s)), goto t (if direct t then Consuming else Reserved))
  | Reserved, Spawn => Some (s, goto t Consuming)
  | Reserved, Drop => Some (s, goto t DroppingReservation)
  | DroppingReservation, Run _ => Some (set_reserved s (fetch_sub (reserved s)), goto t DroppingReserved)
  | DroppingReserved, Run _ =>
      Some (if permit t then set_pending s (sem_release <$> pending s) else s,
            goto (with_permit t false) (Done Unspawned))
  | Consuming, Run _ => Some (set_reserved s (fetch_sub (reserved s)), goto t Sequencing)
  | Sequencing, Run _ =>
      Some (set_sequence s (fetch_add (sequence s)), goto (with_seq t (sequence s)) Enqueuing)
  | Enqueuing, Run now =>
      Some (set_backlog s (<[seq t := now]> (backlog s)), goto (with_enqueued t now) CountingQueued)
  | CountingQueued, Run _ => Some (set_queued s (fetch_add (queued s)), goto t CountingSpawned)
  | CountingSpawned, Run _ => Some (set_spawned s (fetch_add (spawned s)), goto t Queued)
  | Queued, Granted =>
      match executing s with
      | None => Some (s, goto t LeavingQueued)
      | Some sem =>
          sem ← sem_try_acquire sem;
          Some (set_executing s (Some sem), goto (with_slot t true) LeavingQueued)
      end
  | Queued, TimedOut =>
      match executing s, queue_wait (limits s) with
      | Some _, Some _ => Some (s, goto (with_outcome t QueueTimeout) LeavingStage)
      | _, _ => None
      end
  | Queued, Closed =>
      match executing s with
      | Some _ => Some (s, goto (with_outcome t QueueTimeout) LeavingStage)
      | None => None
      end
  | Queued, Aborted => Some (s, goto t LeavingStage)
  | LeavingQueued, Run _ => Some (set_queued s (fetch_sub (queued s)), goto t CountingRunning)
  | CountingRunning, Run _ =>
      Some (set_running s (fetch_add (running s)), goto (with_stage t InExecution) Executing)
  | Executing, Returned => Some (s, goto (conclude t Completed) ReleasingSlot)
  | Executing, Panics => Some (s, goto (conclude t Panicked) ReleasingSlot)
  | Executing, Deadline =>
      match execution_timeout (limits s), outcome t with
      | Some _, None => Some (note_execution_timeout s id t)
      | _, _ => None
      end
  | Executing, Aborted => Some (s, goto t ReleasingSlot)
  | ReleasingSlot, Run _ =>
      Some (if slot t then set_executing s (sem_release <$> executing s) else s,
            goto (with_slot t false) LeavingStage)
  | LeavingStage, Run _ =>
      Some (match stage t with
            | InQueue => set_queued s (fetch_sub (queued s))
            | InExecution => set_running s (fetch_sub (running s))
            end, goto t LeavingSpawned)
  | LeavingSpawned, Run _ => Some (set_spawned s (fetch_sub (spawned s)), goto t LeavingBacklog)
  | LeavingBacklog, Run _ => Some (set_backlog s (delete (seq t) (backlog s)), goto t Reporting)
  | Reporting, Run _ =>
      Some (match failure_reason (end_of t) with
            | Some reason => if failure_recorded t then s else report s id reason
            | None => s
            end, goto t Notifying)
  | Notifying, Run _ => Some (set_finished s (finished s + 1), goto t ReleasingPermit)
  | ReleasingPermit, Run _ =>
      Some (if permit t then set_pending s (sem_release <$> pending s) else s,
            goto (with_permit t false) (Done (Ended (end_of t))))
  | _, _ => None
  end.

(** ** The shutdown wait

    [await_idle]: subscribe, then check the count and wait for a version not yet
    seen.  [seen] is the version the receiver has marked. *)
Inductive Waiter :=
| Subscribing
| Loading (seen : Z)
| Changed (seen : Z)
| Idle
| Expired.

Inductive WaitEvent := Poll | Bound.

Definition wait (s : Shared) (w : Waiter) (ev : WaitEvent) : option Waiter :=
  match w, ev with
  | Subscribing, Poll => Some (Loading (finished s))
  | Loading seen, Poll => Some (if spawned s =? 0 then Idle else Changed seen)
  | Changed seen, Poll => if finished s =? seen then None else Some (Loading (finished s))
  | (Subscribing | Loading _ | Changed _), Bound => Some Expired
  | _, _ => None
  end.

(** The report of [backlog], read while nothing moves. *)
Record Backlog := mkBacklog { b_reserved : Z; b_queued : Z; b_executing : Z; b_spawned : Z }.

Definition backlog_of (s : Shared) : Backlog :=
  mkBacklog (reserved s) (queued s) (running s) (spawned s).

Definition unsettled (x : Backlog) : Z := b_spawned x.

(** ** The system *)

Abbreviation Tasks := (gmap nat Task).
Record System := mkSystem { shared : Shared; tasks : Tasks; waiters : gmap nat Waiter }.

Inductive Action :=
| Arrive (id : nat) (direct : bool)
| Move (id : nat) (ev : Event)
| AwaitIdle (id : nat)
| Waits (id : nat) (ev : WaitEvent).

Definition step (σ : System) (a : Action) : option System :=
  match a with
  | Arrive id direct =>
      match tasks σ !! id with
      | None => Some (mkSystem (shared σ) (<[id := task_new direct]> (tasks σ)) (waiters σ))
      | Some _ => None
      end
  | Move id ev =>
      t ← tasks σ !! id; '(s, t) ← advance id (shared σ) t ev;
      Some (mkSystem s (<[id := t]> (tasks σ)) (waiters σ))
  | AwaitIdle id =>
      match waiters σ !! id with
      | None => Some (mkSystem (shared σ) (tasks σ) (<[id := Subscribing]> (waiters σ)))
      | Some _ => None
      end
  | Waits id ev =>
      w ← waiters σ !! id; w ← wait (shared σ) w ev;
      Some (mkSystem (shared σ) (tasks σ) (<[id := w]> (waiters σ)))
  end.

Fixpoint run (σ : System) (acts : list Action) : option System :=
  match acts with [] => Some σ | a :: acts => σ ← step σ a; run σ acts end.

Definition init (l : SettlementLimits) : System := mkSystem (new l) ∅ ∅.

(** A state some interleaving reaches, with fewer than [2^64] settlements so far. *)
Definition reachable (l : SettlementLimits) (σ : System) : Prop :=
  (∃ acts, run (init l) acts = Some σ) ∧ Z.of_nat (size (tasks σ)) < 2 ^ 64.

(** ** What a task counts for *)

Definition holds_permit (t : Task) : Z := Z.b2z (permit t).
Definition holds_slot (t : Task) : Z := Z.b2z (slot t).
Arguments holds_permit t /.
Arguments holds_slot t /.

Definition n_reserved (t : Task) : Z :=
  match pc t with Reserved | DroppingReservation | Consuming => 1 | _ => 0 end.

Definition n_queued (t : Task) : Z :=
  match pc t with
  | CountingSpawned | Queued | LeavingQueued => 1
  | LeavingStage => match stage t with InQueue => 1 | InExecution => 0 end
  | _ => 0
  end.

Definition n_running (t : Task) : Z :=
  match pc t with
  | Executing | ReleasingSlot => 1
  | LeavingStage => match stage t with InQueue => 0 | InExecution => 1 end
  | _ => 0
  end.

Definition n_spawned (t : Task) : Z :=
  match pc t with
  | Queued | LeavingQueued | CountingRunning | Executing | ReleasingSlot | LeavingStage
  | LeavingSpawned => 1
  | _ => 0
  end.

(** Spawned, and its end not yet announced on the [watch] channel. *)
Definition n_unnotified (t : Task) : Z :=
  match pc t with
  | Queued | LeavingQueued | CountingRunning | Executing | ReleasingSlot | LeavingStage
  | LeavingSpawned | LeavingBacklog | Reporting | Notifying => 1
  | _ => 0
  end.

Definition in_backlog (t : Task) : bool :=
  match pc t with
  | CountingQueued | CountingSpawned | Queued | LeavingQueued | CountingRunning | Executing
  | ReleasingSlot | LeavingStage | LeavingSpawned | LeavingBacklog => true
  | _ => false
  end.

(** Has a sequence number. *)
Definition n_sequenced (t : Task) : Z :=
  match pc t with
  | Reserving | CountingReserved | Reserved | DroppingReservation | DroppingReserved | Consuming
  | Sequencing | Done (Shed | Refused | Unspawned) => 0
  | _ => 1
  end.

(** What the log holds of a task. *)
Definition expected (t : Task) : list string :=
  match pc t with
  | Done Refused => [FAILURE_REFUSED]
  | Notifying | ReleasingPermit | Done (Ended _) => option_list (failure_reason (end_of t))
  | _ => if failure_recorded t then [FAILURE_EXECUTION_TIMEOUT] else []
  end.

Definition reports_of (id : nat) (s : Shared) : list string := snd <$> filter (λ x, x.1 = id) (failures s).

Definition has {A} (o : option A) : bool := match o with Some _ => true | None => false end.

(** The data a task may carry at each operation. *)
Definition task_ok (l : SettlementLimits) (t : Task) : Prop :=
  permit t = match pc t with Reserving | Done _ => false | _ => has (max_pending l) end ∧
  slot t = match pc t with
           | LeavingQueued | CountingRunning | Executing | ReleasingSlot => has (max_in_flight l)
           | _ => false
           end ∧
  match pc t with
  | Executing =>
      stage t = InExecution ∧
      outcome t = (if failure_recorded t then Some ExecutionTimeout else None)
  | ReleasingSlot => stage t = InExecution ∧ (failure_recorded t = true → outcome t = Some ExecutionTimeout)
  | LeavingStage | LeavingSpawned | LeavingBacklog | Reporting =>
      failure_recorded t = true → outcome t = Some ExecutionTimeout
  | Notifying | ReleasingPermit => True
  | Done (Ended o) => o = end_of t
  | _ => stage t = InQueue ∧ outcome t = None ∧ failure_recorded t = false
  end.

(** The accounts of a process whose tasks have the given totals. *)
Record acct (l : SettlementLimits) (s : Shared) (total : (Task → Z) → Z) : Prop := {
  acct_limits : limits s = l;
  acct_pending : Admission.sem_inv (max_pending l) (pending s) (total holds_permit);
  acct_executing : Admission.sem_inv (max_in_flight l) (executing s) (total holds_slot);
  acct_reserved : reserved s = total n_reserved;
  acct_queued : queued s = total n_queued;
  acct_running : running s = total n_running;
  acct_spawned : spawned s = total n_spawned;
  acct_sequence : sequence s = total n_sequenced;
}.

Context {L : SemaphoreLaws S}.

(** *** One step of one task *)

Lemma fetch_add_exact n : 0 ≤ n ≤ 2 ^ 64 - 2 → fetch_add n = n + 1.
Proof. intros. unfold fetch_add. apply Z.mod_small. lia. Qed.

Lemma fetch_sub_exact n : 0 < n ≤ 2 ^ 64 - 1 → fetch_sub n = n - 1.
Proof. intros. unfold fetch_sub. apply Z.mod_small. lia. Qed.

Lemma sem_acquire max s s' o :
  Admission.sem_inv max (Some s) (o + Z.b2z false) → sem_try_acquire s = Some s' →
  Admission.sem_inv max (Some s') (o + Z.b2z true).
Proof.
  intros Hi Ha. change (Z.b2z false) with 0 in Hi. rewrite Z.add_0_r in Hi.
  by eapply Admission.sem_inv_acquire.
Qed.

Lemma sem_give_back max s o (b : bool) :
  0 ≤ o → Admission.sem_inv max s (o + Z.b2z b) →
  Admission.sem_inv max (if b then sem_release <$> s else s) (o + Z.b2z false).
Proof.
  intros Ho Hi. destruct b; [|done]. simpl in *. replace (o + 0) with (o + 1 - 1) by lia.
  apply Admission.sem_inv_release; [done|lia].
Qed.

Lemma sem_inv_has max s h : Admission.sem_inv max s h → has max = has s.
Proof. by destruct max, s. Qed.

Definition is_count (f : Task → Z) : Prop := ∀ t, 0 ≤ f t ≤ 1.

Lemma counts :
  is_count holds_permit ∧ is_count holds_slot ∧ is_count n_reserved ∧ is_count n_queued ∧
  is_count n_running ∧ is_count n_spawned ∧ is_count n_sequenced ∧ is_count n_unnotified.
Proof.
  unfold holds_permit, holds_slot.
  split_and!; intros [c d p x q e st o r]; simpl; [destruct p|destruct x|..]; simpl; try lia;
    destruct c as [| | | | | | | | | | | | | | | | | | | | |[]], st; cbv; split; discriminate.
Qed.

Section Advance.
Variables (l : SettlementLimits) (id : nat) (s : Shared) (t : Task) (others : (Task → Z) → Z).
Hypothesis Ha : acct l s (λ f, others f + f t).
Hypothesis Hok : task_ok l t.
Hypothesis Hothers : ∀ f, is_count f → 0 ≤ others f ≤ 2 ^ 64 - 2.

Lemma task_advance_ok ev s' t' :
  advance id s t ev = Some (s', t') → acct l s' (λ f, others f + f t') ∧ task_ok l t'.
Proof.
  destruct counts as (C1 & C2 & C3 & C4 & C5 & C6 & C7 & _).
  pose proof (Hothers _ C1) as B1. pose proof (Hothers _ C2) as B2. pose proof (Hothers _ C3) as B3.
  pose proof (Hothers _ C4) as B4. pose proof (Hothers _ C5) as B5. pose proof (Hothers _ C6) as B6.
  pose proof (Hothers _ C7) as B7. clear C1 C2 C3 C4 C5 C6 C7 Hothers.
  destruct Ha as [A1 A2 A3 A4 A5 A6 A7 A8]. destruct Hok as (K1 & K2 & K3).
  destruct t as [c d p x q e st o r].
  pose proof (sem_inv_has _ _ _ A2) as Hp. pose proof (sem_inv_has _ _ _ A3) as Hx.
  unfold advance, note_execution_timeout, conclude. cbn [pc]. intros Hadv.
  destruct c, ev; try discriminate Hadv;
    cbn -[Admission.sem_inv Z.b2z Z.add] in Hadv, K1, K2, K3, A2, A3, A4, A5, A6, A7, A8;
    destruct_and?; subst; cbn in Hadv; repeat case_match; try discriminate Hadv;
    try (apply bind_Some in Hadv as (? & ? & Hadv)); simplify_eq;
    (split; [split; try done; cbn -[Z.add Z.sub Admission.sem_inv Z.b2z];
       rewrite ?fetch_add_exact, ?fetch_sub_exact by lia; try done; try lia|split_and!; try done]).
  all: try (apply (sem_give_back _ _ _ true); [lia|]; congruence);
    try (eapply sem_acquire; [first [exact A2|exact A3]|done]); rewrite H; assumption.
Qed.

End Advance.

(** *** The log of failures *)

Lemma reports_report id id' s reason :
  reports_of id' (report s id reason) = reports_of id' s ++ (if decide (id = id') then [reason] else []).
Proof.
  unfold reports_of, report. simpl. rewrite filter_app, fmap_app. f_equal. case_decide.
  - by rewrite filter_cons_True.
  - by rewrite filter_cons_False.
Qed.

Lemma advance_reports l id s t ev s' t' :
  task_ok l t → reports_of id s = expected t → advance id s t ev = Some (s', t') →
  reports_of id s' = expected t' ∧ ∀ id', id' ≠ id → reports_of id' s' = reports_of id' s.
Proof.
  intros (K1 & K2 & K3) He Hadv. destruct t as [c d p x q e st o r].
  unfold advance, note_execution_timeout, conclude, end_of in Hadv.
  destruct c, ev; try discriminate Hadv; cbn in Hadv, K1, K2, K3, He;
    destruct_and?; subst; cbn in Hadv; repeat case_match; try discriminate Hadv;
    try (apply bind_Some in Hadv as (? & ? & Hadv)); simplify_eq.
  all: try (split; [exact He|by intros]);
    (split; [|intros; rewrite ?reports_report, ?decide_False, ?app_nil_r by done; done]).
  all: rewrite ?reports_report, ?decide_True, He by done; unfold expected, end_of; cbn; try done;
    try (by rewrite K3); match goal with H : failure_reason _ = _ |- _ => by rewrite H end.
Qed.

(** *** The backlog *)

Record backlog_ok (s : Shared) (ts : Tasks) : Prop := {
  seqs_below id t : ts !! id = Some t → n_sequenced t = 1 → 0 ≤ seq t < sequence s;
  seqs_differ id id' t t' :
    ts !! id = Some t → ts !! id' = Some t' → n_sequenced t = 1 → n_sequenced t' = 1 →
    seq t = seq t' → id = id';
  backlog_entries q e :
    backlog s !! q = Some e ↔
    ∃ id t, ts !! id = Some t ∧ in_backlog t = true ∧ seq t = q ∧ enqueued t = e;
}.

(** What one operation does to the backlog. *)
Inductive backlog_move (s : Shared) (t : Task) (s' : Shared) (t' : Task) : Prop :=
| moves_nothing :
    backlog s' = backlog s → seq t' = seq t → enqueued t' = enqueued t →
    in_backlog t' = in_backlog t → n_sequenced t' = n_sequenced t → backlog_move s t s' t'
| moves_sequence :
    backlog s' = backlog s → seq t' = sequence s → in_backlog t = false → in_backlog t' = false →
    n_sequenced t = 0 → n_sequenced t' = 1 → backlog_move s t s' t'
| moves_in now :
    backlog s' = <[seq t := now]> (backlog s) → seq t' = seq t → enqueued t' = now →
    in_backlog t = false → in_backlog t' = true → n_sequenced t = 1 → n_sequenced t' = 1 →
    backlog_move s t s' t'
| moves_out :
    backlog s' = delete (seq t) (backlog s) → seq t' = seq t → in_backlog t = true →
    in_backlog t' = false → n_sequenced t = 1 → n_sequenced t' = 1 → backlog_move s t s' t'.

Lemma advance_backlog id s t ev s' t' : advance id s t ev = Some (s', t') → backlog_move s t s' t'.
Proof.
  intros Hadv. destruct t as [c d p x q e st o r]. unfold advance, note_execution_timeout, conclude in Hadv.
  destruct c, ev; try discriminate Hadv; cbn in Hadv; repeat case_match; try discriminate Hadv;
    try (apply bind_Some in Hadv as (? & ? & Hadv)); simplify_eq;
    first [by apply moves_nothing|by apply moves_sequence|by eapply moves_in|by apply moves_out].
Qed.

Lemma in_backlog_sequenced t : in_backlog t = true → n_sequenced t = 1.
Proof. unfold in_backlog, n_sequenced. by destruct (pc t). Qed.

Lemma backlog_step s t s' t' ts id :
  backlog_ok s ts → ts !! id = Some t → backlog_move s t s' t' → 0 ≤ sequence s →
  sequence s' = sequence s - n_sequenced t + n_sequenced t' → backlog_ok s' (<[id := t']> ts).
Proof.
  intros [Hb Hd He] Hid Hm H0 Hs.
  assert (seq t' = seq t ∧ (n_sequenced t' = 1 → n_sequenced t = 1) ∨
          seq t' = sequence s ∧ n_sequenced t = 0 ∧ n_sequenced t' = 1) as Hseq.
  { destruct Hm as [? ? ? ? <-|? ? ? ? ? ?|? ? ? ? ? ? ? ?|? ? ? ? ? ?]; [left|right|left|left]; done. }
  assert (sequence s ≤ sequence s') as Hle by (destruct Hm; lia).
  assert (∀ id0 t0, ts !! id0 = Some t0 → n_sequenced t0 = 1 → n_sequenced t' = 1 → seq t0 = seq t' → id0 = id)
    as Hfresh.
  { intros id0 t0 H1 H2 H3 Heq. pose proof (Hb _ _ H1 H2). destruct Hseq as [[Hq Hn]|(Hq & _)]; [|lia].
    apply (Hd id0 id t0 t); auto; congruence. }
  split.
  - intros id0 t0 [[<- <-]|[Hne H1]]%lookup_insert_Some Hn; [|specialize (Hb _ _ H1 Hn); lia].
    destruct Hseq as [[-> Hn']|(-> & Hn0 & _)]; [specialize (Hb _ _ Hid (Hn' Hn)); lia|lia].
  - intros id0 id1 t0 t1 [[<- <-]|[Hne0 H1]]%lookup_insert_Some [[<- <-]|[Hne1 H2]]%lookup_insert_Some
      Hn0 Hn1 Heq; [done| | |by apply (Hd id0 id1 t0 t1)].
    + symmetry. apply (Hfresh id1 t1); auto.
    + apply (Hfresh id0 t0); auto.
  - intros q e.
    assert ((∃ id0 t0, <[id:=t']> ts !! id0 = Some t0 ∧ in_backlog t0 = true ∧ seq t0 = q ∧ enqueued t0 = e) ↔
      in_backlog t' = true ∧ seq t' = q ∧ enqueued t' = e ∨
      ∃ id0 t0, id0 ≠ id ∧ ts !! id0 = Some t0 ∧ in_backlog t0 = true ∧ seq t0 = q ∧ enqueued t0 = e) as ->.
    { split.
      - intros (id0 & t0 & [[<- <-]|[Hne H1]]%lookup_insert_Some & H2); [by left|].
        right. exists id0, t0. auto.
      - intros [H1|(id0 & t0 & Hne & H1 & H2)].
        + exists id, t'. by rewrite lookup_insert_eq.
        + exists id0, t0. by rewrite lookup_insert_ne. }
    assert (backlog s !! q = Some e ↔ in_backlog t = true ∧ seq t = q ∧ enqueued t = e ∨
      ∃ id0 t0, id0 ≠ id ∧ ts !! id0 = Some t0 ∧ in_backlog t0 = true ∧ seq t0 = q ∧ enqueued t0 = e) as Hold.
    { rewrite He. split.
      - intros (id0 & t0 & H1 & H2). destruct (decide (id0 = id)) as [->|]; [|right; exists id0, t0; auto].
        left. by simplify_eq.
      - intros [H1|(id0 & t0 & _ & H1)]; [by exists id, t|by exists id0, t0]. }
    destruct Hm as [-> Hq Hen Hin _| -> Hq Hin Hin' _ _|now -> Hq Hen Hin Hin' Hn Hn'| -> Hq Hin Hin' Hn Hn'].
    + by rewrite Hold, Hq, Hen, Hin.
    + rewrite Hold, Hin, Hin'. split; (intros [[? _]|?]; [done|by right]).
    + rewrite lookup_insert_Some, Hold, Hin, Hin', Hq, Hen. split.
      * intros [[-> ->]|[Hne [[? _]|H1]]]; [by left|done|by right].
      * intros [(_ & -> & ->)|(id0 & t0 & Hne & H1 & H2 & H3 & H4)]; [by left|].
        right. split; [|right; by exists id0, t0]. intros Heq. apply Hne, (Hfresh id0 t0); [done| |done|congruence].
        by apply in_backlog_sequenced.
    + rewrite lookup_delete_Some, Hold, Hin, Hin', Hq. split.
      * intros [Hne [(_ & ? & _)|H1]]; [done|by right].
      * intros [(? & _)|(id0 & t0 & Hne & H1 & H2 & H3 & H4)]; [done|].
        split; [|right; by exists id0, t0]. intros Heq. apply Hne, (Hfresh id0 t0); [done| |done|congruence].
        by apply in_backlog_sequenced.
Qed.

(** *** The wait for idleness *)

Definition waiters_ok (s : Shared) (ts : Tasks) (ws : gmap nat Waiter) : Prop :=
  ∀ id w, ws !! id = Some w →
    match w with
    | Loading seen => seen ≤ finished s
    | Changed seen => seen < finished s ∨ seen = finished s ∧ 0 < msum n_unnotified ts
    | _ => True
    end.

Lemma advance_finished id s t ev s' t' :
  advance id s t ev = Some (s', t') →
  finished s ≤ finished s' ∧ n_unnotified t - n_unnotified t' ≤ finished s' - finished s.
Proof.
  intros Hadv. destruct t as [c d p x q e st o r]. unfold advance, note_execution_timeout, conclude in Hadv.
  destruct c, ev; try discriminate Hadv; cbn in Hadv; repeat case_match; try discriminate Hadv;
    try (apply bind_Some in Hadv as (? & ? & Hadv)); simplify_eq; cbn; lia.
Qed.

Lemma waiters_step s ts ws id t ev s' t' :
  waiters_ok s ts ws → ts !! id = Some t → advance id s t ev = Some (s', t') →
  waiters_ok s' (<[id := t']> ts) ws.
Proof.
  intros Hw Hid Hadv wid w Hwid. specialize (Hw wid w Hwid).
  pose proof (advance_finished _ _ _ _ _ _ Hadv) as [Hf Hn].
  rewrite (msum_update n_unnotified ts id t t' Hid). destruct w; lia.
Qed.

Lemma spawned_unnotified (ts : Tasks) : msum n_spawned ts ≤ msum n_unnotified ts.
Proof. apply msum_le. intros _ [c] _. by destruct c. Qed.

(** *** Every reachable state *)

Record Inv (l : SettlementLimits) (σ : System) : Prop := {
  inv_acct : acct l (shared σ) (λ f, msum f (tasks σ));
  inv_tasks id t : tasks σ !! id = Some t → task_ok l t;
  inv_reports id : reports_of id (shared σ) = default [] (expected <$> tasks σ !! id);
  inv_backlog : backlog_ok (shared σ) (tasks σ);
  inv_waiters : waiters_ok (shared σ) (tasks σ) (waiters σ);
}.

(** Ceilings are positive counts. *)
Definition limits_ok (l : SettlementLimits) : Prop :=
  (∀ n, max_pending l = Some n → 0 ≤ n) ∧ (∀ n, max_in_flight l = Some n → 0 ≤ n).

Lemma inv_init l : limits_ok l → Inv l (init l).
Proof.
  intros [Hp Hx]. split; simpl.
  - split; simpl; rewrite ?msum_empty; try done.
    + destruct (max_pending l); simpl; [|done]. rewrite available_new; auto with lia.
    + destruct (max_in_flight l); simpl; [|done]. rewrite available_new; auto with lia.
  - intros id t. by rewrite lookup_empty.
  - intros id. by rewrite lookup_empty.
  - split; simpl; [intros id t|intros id id' t t'|intros q e]; rewrite ?lookup_empty; [done..|].
    split; [done|]. intros (id & t & H & _). by rewrite lookup_empty in H.
  - intros id w. by rewrite lookup_empty.
Qed.

(** A task that has done nothing yet changes no account. *)
Lemma task_new_counts (f : Task → Z) direct :
  f ∈ [holds_permit; holds_slot; n_reserved; n_queued; n_running; n_spawned; n_sequenced; n_unnotified] →
  f (task_new direct) = 0.
Proof. intros H. repeat (apply elem_of_cons in H as [->|H]; [done|]). by apply elem_of_nil in H. Qed.

Lemma inv_arrive l σ id direct :
  Inv l σ → tasks σ !! id = None →
  Inv l (mkSystem (shared σ) (<[id := task_new direct]> (tasks σ)) (waiters σ)).
Proof.
  intros [[] Ht Hr [Hb Hd He] Hw] Hid.
  assert (∀ f, f ∈ [holds_permit; holds_slot; n_reserved; n_queued; n_running; n_spawned; n_sequenced; n_unnotified] →
    msum f (<[id := task_new direct]> (tasks σ)) = msum f (tasks σ)) as Hm.
  { intros f Hf. rewrite msum_insert, task_new_counts by done. lia. }
  split; simpl.
  - split; try done; rewrite Hm by in_list; done.
  - intros id' t [[_ <-]|[_ H]]%lookup_insert_Some; [|by eapply Ht]. by repeat split.
  - intros id'. destruct (decide (id = id')) as [<-|].
    + rewrite lookup_insert_eq, Hr, Hid. done.
    + by rewrite lookup_insert_ne.
  - split; simpl.
    + intros id' t [[_ <-]|[_ H]]%lookup_insert_Some; [done|]. by eapply Hb.
    + intros id1 id2 t1 t2 [[_ <-]|[_ H1]]%lookup_insert_Some [[_ <-]|[_ H2]]%lookup_insert_Some; try done.
      by apply Hd.
    + intros q e. rewrite He. split.
      * intros (id' & t & H1 & H2). exists id', t. by rewrite lookup_insert_ne by congruence.
      * intros (id' & t & [[_ <-]|[_ H1]]%lookup_insert_Some & H2); [by destruct H2|by exists id', t].
  - intros wid w Hwid. rewrite Hm by in_list. by apply (Hw wid w).
Qed.

Lemma inv_move l σ id t ev s' t' :
  Inv l σ → Z.of_nat (size (tasks σ)) < 2 ^ 64 → tasks σ !! id = Some t →
  advance id (shared σ) t ev = Some (s', t') → Inv l (mkSystem s' (<[id := t']> (tasks σ)) (waiters σ)).
Proof.
  intros [Ha Ht Hr Hb Hw] Hsize Hid Hadv.
  set (others := λ f : Task → Z, msum f (delete id (tasks σ))).
  assert (∀ f t, msum f (<[id := t]> (tasks σ)) = others f + f t) as Hsum.
  { intros f t0. rewrite <-insert_delete_eq, msum_insert by apply lookup_delete_eq. unfold others. lia. }
  assert (tasks σ = <[id := t]> (tasks σ)) as Hts by (by rewrite insert_id).
  assert (∀ f, is_count f → 0 ≤ others f ≤ 2 ^ 64 - 2) as Hothers.
  { intros f Hf. split; [apply msum_nonneg, Hf|].
    assert (others f ≤ Z.of_nat (size (delete id (tasks σ)))) by (apply msum_le_size, Hf).
    rewrite map_size_delete_Some in H by eauto. 
    assert (size (tasks σ) ≠ 0%nat) by (apply map_size_ne_0_lookup; eauto). lia. }
  assert (acct l (shared σ) (λ f, others f + f t)) as Ha1.
  { rewrite Hts in Ha. destruct Ha. split; rewrite <-?Hsum; done. }
  destruct (task_advance_ok l id (shared σ) t others Ha1 (Ht _ _ Hid) Hothers _ _ _ Hadv) as [Ha2 Ht2].
  assert (reports_of id (shared σ) = expected t) as He by (rewrite Hr, Hid; done).
  destruct (advance_reports l id _ t ev s' t' (Ht _ _ Hid) He Hadv) as [Hr2 Hr3].
  split; simpl.
  - destruct Ha2. split; rewrite ?Hsum; done.
  - intros id' t0 [[_ <-]|[_ H]]%lookup_insert_Some; [done|]. by eapply Ht.
  - intros id'. destruct (decide (id = id')) as [<-|Hne]; [by rewrite lookup_insert_eq, Hr2|].
    rewrite lookup_insert_ne, Hr3 by congruence. apply Hr.
  - eapply backlog_step; [done|done|by eapply advance_backlog| |].
    + rewrite (acct_sequence _ _ _ Ha1). pose proof (Hothers n_sequenced). 
      assert (is_count n_sequenced) as Hc by apply counts. specialize (H Hc). specialize (Hc t). lia.
    + rewrite (acct_sequence _ _ _ Ha1), (acct_sequence _ _ _ Ha2). lia.
  - by eapply waiters_step.
Qed.

Lemma settlement_inv_step l σ a σ' :
  Inv l σ → Z.of_nat (size (tasks σ)) < 2 ^ 64 → step σ a = Some σ' → Inv l σ'.
Proof.
  intros HI Hsize. destruct a as [id direct|id ev|id|id ev]; simpl.
  - destruct (tasks σ !! id) eqn:Hid; [done|]. intros; simplify_eq. by apply inv_arrive.
  - intros (t & Hid & H)%bind_Some. apply bind_Some in H as ([s' t'] & Hadv & H). simplify_eq.
    by eapply inv_move.
  - destruct (waiters σ !! id) eqn:Hid; [done|]. intros; simplify_eq. destruct HI. split; try done.
    intros wid w. simpl. intros [[_ <-]|[_ H]]%lookup_insert_Some; [done|]. by apply (inv_waiters0 wid w).
  - intros (w & Hid & H)%bind_Some. apply bind_Some in H as (w' & Hw & H). simplify_eq.
    destruct HI as [Ha ? ? ? Hws]. split; try done. intros wid w0. simpl.
    intros [[_ <-]|[_ H]]%lookup_insert_Some; [|by apply (Hws wid w0)]. specialize (Hws _ _ Hid). simpl in *.
    destruct w, ev; simpl in Hw; repeat case_match; simplify_eq; reflect_bools; try lia; try done.
    pose proof (spawned_unnotified (tasks σ)). pose proof (acct_spawned _ _ _ Ha). simpl in *.
    assert (0 ≤ msum n_spawned (tasks σ)) by (apply msum_nonneg; intros t; apply counts). lia.
Qed.

Lemma step_size σ a σ' : step σ a = Some σ' → (size (tasks σ) ≤ size (tasks σ'))%nat.
Proof.
  destruct a as [id direct|id ev|id|id ev]; simpl; intros H; repeat case_match; simplify_eq/=; try done.
  - rewrite map_size_insert_None by done. lia.
  - apply bind_Some in H as (t & Hid & H). apply bind_Some in H as ([s' t'] & _ & H). simplify_eq/=.
    rewrite map_size_insert_Some by eauto. done.
  - apply bind_Some in H as (w & Hid & H). apply bind_Some in H as (w' & _ & H). by simplify_eq.
Qed.

Lemma run_app σ acts acts' : run σ (acts ++ acts') = σ ← run σ acts; run σ acts'.
Proof.
  revert σ. induction acts as [|a acts IH]; intros σ; [done|]. simpl. destruct (step σ a); [|done]. apply IH.
Qed.

Lemma settlement_reachable_inv l σ : limits_ok l → reachable l σ → Inv l σ.
Proof.
  intros Hl [[acts Hrun] Hsize]. revert σ Hrun Hsize.
  induction acts as [|a acts IH] using rev_ind; intros σ Hrun Hsize.
  { simpl in Hrun. simplify_eq. by apply inv_init. }
  rewrite run_app in Hrun. apply bind_Some in Hrun as (σ0 & H0 & H1).
  simpl in H1. apply bind_Some in H1 as (σ1 & H1 & H2). simplify_eq.
  pose proof (step_size _ _ _ H1). eapply settlement_inv_step; [apply IH|..]; [done|lia|lia|done].
Qed.

(** *** Runs of one task *)

Fixpoint own (id : nat) (s : Shared) (t : Task) (evs : list Event) : option (Shared * Task) :=
  match evs with
  | [] => Some (s, t)
  | ev :: evs => '(s, t) ← advance id s t ev; own id s t evs
  end.

Lemma run_own σ id t evs s' t' :
  tasks σ !! id = Some t → own id (shared σ) t evs = Some (s', t') →
  ∃ σ', run σ (Move id <$> evs) = Some σ' ∧ tasks σ' !! id = Some t'.
Proof.
  revert σ t. induction evs as [|ev evs IH]; intros σ t Hid Hown; csimpl in *; [by simplify_eq; eauto|].
  apply bind_Some in Hown as ([s1 t1] & Hadv & Hown). rewrite Hid. csimpl. rewrite Hadv. csimpl.
  eapply IH; [|exact Hown]. apply lookup_insert_eq.
Qed.

(** A settlement that has its capacity keeps it until it ends. *)
Definition admitted (t : Task) : Prop :=
  match pc t with Reserving | Done (Shed | Refused) => False | _ => True end.

Lemma advance_admitted id s t ev s' t' : advance id s t ev = Some (s', t') → admitted t → admitted t'.
Proof.
  intros Hadv. destruct t as [c d p x q e st o r]. unfold advance, note_execution_timeout, conclude in Hadv.
  destruct c, ev; try discriminate Hadv; cbn in Hadv; repeat case_match; try discriminate Hadv;
    try (apply bind_Some in Hadv as (? & ? & Hadv)); simplify_eq; done.
Qed.

Lemma run_admitted σ acts σ' id t :
  run σ acts = Some σ' → tasks σ !! id = Some t → admitted t → ∃ t', tasks σ' !! id = Some t' ∧ admitted t'.
Proof.
  revert σ t. induction acts as [|a acts IH]; intros σ t Hrun Hid Ht; simpl in Hrun; [simplify_eq; eauto|].
  apply bind_Some in Hrun as (σ1 & Hstep & Hrun).
  assert (∃ t1, tasks σ1 !! id = Some t1 ∧ admitted t1) as (t1 & H1 & H2); [|by eapply IH].
  destruct a as [id' direct|id' ev|id'|id' ev]; simpl in Hstep.
  - destruct (tasks σ !! id') eqn:E; simplify_eq/=. exists t. rewrite lookup_insert_ne by congruence. done.
  - apply bind_Some in Hstep as (t' & Hid' & H). apply bind_Some in H as ([s' t''] & Hadv & H). simplify_eq/=.
    destruct (decide (id' = id)) as [<-|].
    + exists t''. simplify_eq. rewrite lookup_insert_eq. split; [done|]. by eapply advance_admitted.
    + exists t. by rewrite lookup_insert_ne.
  - destruct (waiters σ !! id'); simplify_eq/=. eauto.
  - apply bind_Some in Hstep as (? & _ & H). apply bind_Some in H as (? & _ & H). simplify_eq/=. eauto.
Qed.

(** ** Properties *)

(** Whatever the interleaving of admissions, spawns, grants, timeouts, panics and
    aborted tasks: the settlements carried in any stage never exceed
    [max_pending], those that hold an execution slot never exceed
    [max_in_flight], every counter is exactly the number of settlements in its
    stage, and the backlog is exactly the spawned settlements that have not
    ended. *)
Theorem settlement_bounds (l : SettlementLimits) (σ : System) :
  limits_ok l → reachable l σ →
  (∀ n, max_pending l = Some n → msum holds_permit (tasks σ) ≤ n) ∧
  (∀ n, max_in_flight l = Some n → msum holds_slot (tasks σ) ≤ n) ∧
  backlog_of (shared σ) = mkBacklog (msum n_reserved (tasks σ)) (msum n_queued (tasks σ))
    (msum n_running (tasks σ)) (msum n_spawned (tasks σ)) ∧
  (∀ id t, tasks σ !! id = Some t → in_backlog t = true → backlog (shared σ) !! seq t = Some (enqueued t)) ∧
  (∀ q e, backlog (shared σ) !! q = Some e → ∃ id t, tasks σ !! id = Some t ∧ in_backlog t = true ∧ seq t = q).
Proof.
  intros Hl Hr. destruct (settlement_reachable_inv _ _ Hl Hr) as [[] _ _ [] _]. split_and!.
  - intros n. by eapply Admission.sem_inv_held.
  - intros n. by eapply Admission.sem_inv_held.
  - unfold backlog_of. by f_equal.
  - intros id t Hid Hin. apply backlog_entries0. by exists id, t.
  - intros q e (id & t & ? & ? & ? & _)%backlog_entries0. by exists id, t.
Qed.

(** Capacity is never lost: once every settlement has ended, in whatever way,
    both semaphores have all their permits, every counter is zero and the backlog
    is empty. *)
Theorem settlement_capacity_returned (l : SettlementLimits) (σ : System) :
  limits_ok l → reachable l σ →
  (∀ id t, tasks σ !! id = Some t → ∃ e, pc t = Done e) →
  available <$> pending (shared σ) = max_pending l ∧
  available <$> executing (shared σ) = max_in_flight l ∧
  backlog_of (shared σ) = mkBacklog 0 0 0 0 ∧ backlog (shared σ) = ∅.
Proof.
  intros Hl Hr Hdone. destruct (settlement_reachable_inv _ _ Hl Hr) as [[A1 A2 A3 A4 A5 A6 A7 A8] Ht _ [] _].
  assert (∀ f, (∀ t e, task_ok l t → pc t = Done e → f t = 0) → msum f (tasks σ) = 0) as Hz.
  { intros f Hf. apply msum_zero. intros id t Hid. destruct (Hdone _ _ Hid) as [e He]. by eapply Hf; eauto. }
  rewrite Hz in A2, A3, A4, A5, A6, A7
    by (intros [c d p x q e0 st o r] e; unfold task_ok; cbn; intros (? & ? & _) ?; by simplify_eq/=).
  split_and!.
  - destruct (max_pending l), (pending (shared σ)); simpl in *; try done. f_equal. lia.
  - destruct (max_in_flight l), (executing (shared σ)); simpl in *; try done. f_equal. lia.
  - unfold backlog_of. by f_equal.
  - apply map_eq. intros q. rewrite lookup_empty. apply eq_None_not_Some. intros [e (id & t & H1 & H2 & _)%backlog_entries0].
    destruct (Hdone _ _ H1) as [e' He']. unfold in_backlog in H2. by rewrite He' in H2.
Qed.

(** What the failure log says of a settlement is what happened to it: one report
    naming the reason, or none for one that completed, was shed or was given back
    unspawned.  A missed execution deadline is reported when it fires, and
    replaces whatever the settlement comes to later. *)
Theorem failures_reported_once (l : SettlementLimits) (σ : System) (id : nat) (t : Task) :
  limits_ok l → reachable l σ → tasks σ !! id = Some t →
  match pc t with
  | Done Refused => reports_of id (shared σ) = [FAILURE_REFUSED]
  | Done (Ended o) => reports_of id (shared σ) = option_list (failure_reason o)
  | Done (Shed | Unspawned) => reports_of id (shared σ) = []
  | Executing =>
      reports_of id (shared σ) =
        match outcome t with Some ExecutionTimeout => [FAILURE_EXECUTION_TIMEOUT] | _ => [] end
  | _ => length (reports_of id (shared σ)) ≤ 1
  end%nat.
Proof.
  intros Hl Hr Hid. destruct (settlement_reachable_inv _ _ Hl Hr) as [_ Ht Hrep _ _].
  specialize (Hrep id). rewrite Hid in Hrep. simpl in Hrep. destruct (Ht _ _ Hid) as (K1 & K2 & K3).
  rewrite Hrep. unfold expected.
  destruct t as [[] d p x q e0 st o r]; cbn in *; destruct_and?; subst; try done;
    try (destruct r; cbn; lia); try (destruct (failure_reason _); simpl; lia); try (cbn; lia).
  - by destruct r.
  - destruct e; destruct_and?; subst; done.
Qed.

(** The reservation is the admission.  A request that holds one can always spawn
    its settlement, whatever capacity is left, and the settlement then waits in
    the queue.  It never ends shed or refused.  And it is not stuck there: either
    it can be granted a slot, or the slots are held by settlements that are
    executing or about to return them. *)
Theorem reservation_is_admission (l : SettlementLimits) (σ : System) (id : nat) (t : Task) :
  limits_ok l → reachable l σ → tasks σ !! id = Some t →
  (pc t = Reserved → ∃ σ' t',
     run σ (Move id <$> (Spawn :: replicate 5 (Run 0))) = Some σ' ∧ tasks σ' !! id = Some t' ∧ pc t' = Queued) ∧
  (admitted t → ∀ acts σ', run σ acts = Some σ' → ∃ t', tasks σ' !! id = Some t' ∧ admitted t') ∧
  (pc t = Queued → max_in_flight l ≠ Some 0 →
   is_Some (advance id (shared σ) t Granted) ∨
   ∃ id' t', tasks σ !! id' = Some t' ∧ slot t' = true ∧
     pc t' ∈ [LeavingQueued; CountingRunning; Executing; ReleasingSlot]).
Proof.
  intros Hl Hr Hid. split_and!.
  - intros Hpc. destruct t as [c d p x q e st o r]. simpl in Hpc. subst c.
    destruct (run_own σ id _ (Spawn :: replicate 5 (Run 0)) _ _ Hid eq_refl) as (σ' & H1 & H2). eauto.
  - intros Ht acts σ' Hrun. by eapply run_admitted.
  - intros Hpc H0. destruct (settlement_reachable_inv _ _ Hl Hr) as [[A1 A2 A3 _ _ _ _ _] Ht _ _ _].
    destruct t as [c d p x q e st o r]. simpl in Hpc. subst c. unfold advance. cbn.
    destruct (executing (shared σ)) as [sem|] eqn:Ex; [|left; by eexists].
    destruct (sem_try_acquire sem) as [sem'|] eqn:Ea; [left; by eexists|]. right.
    apply Admission.no_permits in Ea. destruct (max_in_flight l) as [n|] eqn:En; [|done]. simpl in A3.
    assert (0 ≤ n) by (by apply Hl). assert (n ≠ 0) by congruence.
    destruct (msum_pos holds_slot (tasks σ)) as (id' & t' & Hid' & Hslot); [lia|].
    exists id', t'. split; [done|]. destruct (Ht _ _ Hid') as (_ & K2 & _). simpl in Hslot.
    destruct (slot t'); [|done]. split; [done|]. destruct (pc t'); try done; set_solver.
Qed.

(** No wake-up is lost.  Once every spawned settlement has been announced, a
    shutdown that is still waiting for them is woken and finds the process idle,
    at most two polls later. *)
Theorem await_idle_wakes (l : SettlementLimits) (σ : System) (id : nat) (w : Waiter) :
  limits_ok l → reachable l σ →
  (∀ id t, tasks σ !! id = Some t → n_unnotified t = 0) →
  waiters σ !! id = Some w → w ≠ Expired →
  ∃ k σ', (k ≤ 2)%nat ∧ run σ (replicate k (Waits id Poll)) = Some σ' ∧ waiters σ' !! id = Some Idle.
Proof.
  intros Hl Hr Hdone Hid Hw. destruct (settlement_reachable_inv _ _ Hl Hr) as [Ha _ _ _ Hws].
  assert (msum n_unnotified (tasks σ) = 0) as H0 by (by apply msum_zero).
  assert (spawned (shared σ) = 0) as Hs.
  { rewrite (acct_spawned _ _ _ Ha). pose proof (spawned_unnotified (tasks σ)).
    assert (0 ≤ msum n_spawned (tasks σ)) by (apply msum_nonneg; intros t; apply counts). lia. }
  assert (∀ σ w w', waiters σ !! id = Some w → wait (shared σ) w Poll = Some w' →
    step σ (Waits id Poll) = Some (mkSystem (shared σ) (tasks σ) (<[id := w']> (waiters σ)))) as Hstep.
  { intros σ0 w0 w' H1 H2. simpl. by rewrite H1; simpl; rewrite H2. }
  assert (∀ n, wait (shared σ) (Loading n) Poll = Some Idle) as Hload by (intros n; simpl; by rewrite Hs).
  assert (∀ σ' n, shared σ' = shared σ → waiters σ' !! id = Some (Loading n) →
    ∃ σ'', run σ' [Waits id Poll] = Some σ'' ∧ waiters σ'' !! id = Some Idle) as Hlast.
  { intros σ' n Hsh H1. eexists. cbn [run]. rewrite (Hstep _ _ Idle H1) by (rewrite Hsh; apply Hload).
    split; [done|]. apply lookup_insert_eq. }
  assert (∀ n, wait (shared σ) w Poll = Some (Loading n) →
    ∃ σ'', run σ [Waits id Poll; Waits id Poll] = Some σ'' ∧ waiters σ'' !! id = Some Idle) as Htwo.
  { intros n Hn. destruct (Hlast (mkSystem (shared σ) (tasks σ) (<[id := Loading n]> (waiters σ))) n)
      as (σ'' & H1 & H2); [done|apply lookup_insert_eq|].
    exists σ''. split; [|done]. change [Waits id Poll; Waits id Poll] with ([Waits id Poll] ++ [Waits id Poll]).
    rewrite run_app. cbn [run]. by rewrite (Hstep _ _ _ Hid Hn). }
  specialize (Hws _ _ Hid). destruct w as [|seen|seen| |].
  - destruct (Htwo (finished (shared σ)) eq_refl) as (σ'' & ? & ?). by exists 2%nat, σ''.
  - destruct (Hlast σ seen eq_refl Hid) as (σ'' & ? & ?). exists 1%nat, σ''. split; [lia|done].
  - destruct Hws as [Hlt|[_ ?]]; [|lia]. destruct (Htwo (finished (shared σ))) as (σ'' & ? & ?).
    + simpl. by rewrite (proj2 (Z.eqb_neq _ _)) by lia.
    + by exists 2%nat, σ''.
  - exists 0%nat, σ. split; [lia|done].
  - done.
Qed.

End WithSemaphore.

(** ** Witnesses

    Two settlements fill the process and a third request is shed; the first
    misses its execution deadline while the second waits for its slot. *)

Definition two_pending : SettlementLimits := mkLimits (Some 2) (Some 1) (Some 100) (Some 1000).

Lemma two_pending_ok : limits_ok two_pending.
Proof. split; intros n H; simpl in H; simplify_eq; lia. Qed.

Definition moves (id : nat) (evs : list Event) : list Action := Move id <$> evs.

Definition spawned_at (now : Z) : list Event := [Spawn; Run now; Run now; Run now; Run now; Run now].

Definition saturated : list Action :=
  Arrive 0 false :: moves 0 ([Run 5; Run 5] ++ spawned_at 6) ++ moves 0 [Granted; Run 7; Run 7] ++
  Arrive 1 false :: moves 1 ([Run 8; Run 8] ++ spawned_at 9) ++
  [Arrive 2 false; Move 2 (Run 10); AwaitIdle 0; Waits 0 Poll; Waits 0 Poll; Move 0 Deadline].

Definition settled : list Action :=
  saturated ++ moves 0 [Returned; Run 0; Run 0; Run 0; Run 0; Run 0; Run 0; Run 0] ++
  moves 1 [Granted; Run 0; Run 0; Panics; Run 0; Run 0; Run 0; Run 0; Run 0; Run 0; Run 0].

Definition state_of (acts : list Action) : System := default (init two_pending) (run (init two_pending) acts).

Lemma saturated_reachable : reachable two_pending (state_of saturated).
Proof. split; [exists saturated; vm_compute; reflexivity|vm_compute; reflexivity]. Qed.

Lemma settled_reachable : reachable two_pending (state_of settled).
Proof. split; [exists settled; vm_compute; reflexivity|vm_compute; reflexivity]. Qed.

Lemma settlement_bounds_witness :
  msum holds_permit (tasks (state_of saturated)) = 2 ∧ msum holds_permit (tasks (state_of saturated)) ≤ 2 ∧
  backlog (shared (state_of saturated)) !! 1 = Some 9.
Proof.
  destruct (settlement_bounds two_pending (state_of saturated) two_pending_ok saturated_reachable)
    as (H1 & _ & _ & H2 & _).
  split; [vm_compute; reflexivity|]. split; [by apply H1|].
  destruct (tasks (state_of saturated) !! 1%nat) as [t|] eqn:E; [|vm_compute in E; discriminate E].
  specialize (H2 1%nat t E). vm_compute in E. injection E as <-. exact (H2 eq_refl).
Defined.

Lemma settlement_capacity_returned_witness :
  available <$> pending (shared (state_of settled)) = Some 2 ∧ backlog (shared (state_of settled)) = ∅.
Proof.
  destruct (settlement_capacity_returned two_pending (state_of settled) two_pending_ok settled_reachable)
    as (H1 & _ & _ & H2); [|by split].
  intros id t H.
  pose proof (map_values_all (λ t, match pc t with Done _ => true | _ => false end)
    (tasks (state_of settled)) ltac:(vm_compute; reflexivity) id t H) as Ht.
  simpl in Ht. destruct (pc t); try discriminate Ht. by eexists.
Defined.

Lemma failures_reported_once_witness :
  reports_of 0 (shared (state_of settled)) = [FAILURE_EXECUTION_TIMEOUT] ∧
  reports_of 1 (shared (state_of settled)) = [FAILURE_PANICKED].
Proof.
  split.
  - destruct (tasks (state_of settled) !! 0%nat) as [t|] eqn:E; [|vm_compute in E; discriminate E].
    pose proof (failures_reported_once two_pending (state_of settled) 0 t two_pending_ok settled_reachable E) as H.
    vm_compute in E. injection E as <-. exact H.
  - destruct (tasks (state_of settled) !! 1%nat) as [t|] eqn:E; [|vm_compute in E; discriminate E].
    pose proof (failures_reported_once two_pending (state_of settled) 1 t two_pending_ok settled_reachable E) as H.
    vm_compute in E. injection E as <-. exact H.
Defined.

(** The second settlement waits because the first one holds the only slot. *)
Lemma reservation_is_admission_witness :
  ∃ id' t', tasks (state_of saturated) !! id' = Some t' ∧ slot t' = true.
Proof.
  destruct (tasks (state_of saturated) !! 1%nat) as [t|] eqn:E; [|vm_compute in E; discriminate E].
  destruct (reservation_is_admission two_pending (state_of saturated) 1 t two_pending_ok saturated_reachable E)
    as (_ & _ & H). vm_compute in E. injection E as <-.
  destruct (H eq_refl ltac:(discriminate)) as [Hg|(id' & t' & H1 & H2 & _)].
  - vm_compute in Hg. destruct Hg as [x Hx]. discriminate Hx.
  - exact (ex_intro _ id' (ex_intro _ t' (conj H1 H2))).
Defined.

Lemma await_idle_wakes_witness :
  ∃ k σ', (k ≤ 2)%nat ∧ run (state_of settled) (replicate k (Waits 0 Poll)) = Some σ' ∧
    waiters σ' !! 0%nat = Some Idle.
Proof.
  destruct (waiters (state_of settled) !! 0%nat) as [w|] eqn:E; [|vm_compute in E; discriminate E].
  apply (await_idle_wakes two_pending (state_of settled) 0 w two_pending_ok settled_reachable).
  - intros id t H. apply Z.eqb_eq. revert H.
    apply (map_values_all (λ t, n_unnotified t =? 0)). vm_compute. reflexivity.
  - exact E.
  - vm_compute in E. injection E as <-. discriminate.
Defined.

End Settlement.
