(* ===== verification/Backoff.v ===== *)
(** * Retry pacing ([crates/gateway/src/backoff.rs])

    Durations are nanoseconds. *)

From S2P Require Import Prelude.

Module Backoff.

Record BackoffPolicy := mkPolicy { initial : Z; max : Z; multiplier : Z }.

Definition BackoffPolicy_default : BackoffPolicy :=
  {| initial := 500 * 1000000; max := 30 * NANOS_PER_SEC; multiplier := 2 |}.

Inductive InvalidBackoff :=
| ZeroInitial
| Multiplier (multiplier : Z)
| Ceiling (initial max : Z).

Definition validate (p : BackoffPolicy) : result InvalidBackoff unit :=
  if initial p =? 0 then Err ZeroInitial
  else if multiplier p <? 2 then Err (Multiplier (multiplier p))
  else if max p <? initial p then Err (Ceiling (initial p) (max p))
  else Ok tt.

(** [u64::checked_pow]. *)
Definition checked_pow (base exponent : Z) : option Z :=
  if base ^ exponent <=? U64_MAX then Some (base ^ exponent) else None.

Definition delay (p : BackoffPolicy) (failures : Z) : Z :=
  match checked_sub failures 1 with
  | None => 0
  | Some exponent =>
      let factor := default U64_MAX (checked_pow (multiplier p) (Z.min exponent U8_MAX)) in
      let factor := if factor <=? U32_MAX then factor else U32_MAX in
      Z.min (default (max p) (checked_mul DURATION_MAX (initial p) factor)) (max p)
  end.

Record Backoff := mkBackoff { policy : BackoffPolicy; failures : Z }.

Definition new (p : BackoffPolicy) : Backoff := {| policy := p; failures := 0 |}.

Definition fail (s : Backoff) : Z * Backoff :=
  let n := saturating_add U32_MAX (failures s) 1 in
  (delay (policy s) n, {| policy := policy s; failures := n |}).

Definition succeed (s : Backoff) : Backoff := {| policy := policy s; failures := 0 |}.

(** [n] failed attempts in a row: the delays handed out, in order. *)
Fixpoint fail_n (s : Backoff) (n : nat) : list Z :=
  match n with O => [] | S n => let '(d, s) := fail s in d :: fail_n s n end.

(** ** Lemmas *)

Definition policy_ok (p : BackoffPolicy) : Prop :=
  validate p = Ok tt ∧ 0 ≤ initial p ∧ 0 ≤ max p ≤ DURATION_MAX ∧ is_u32 (multiplier p).

(** The ceiling is within the range a 32-bit factor of the first delay spans. *)
Definition ceiling_in_reach (p : BackoffPolicy) : Prop := max p ≤ initial p * U32_MAX.

Lemma policy_ok_bounds p : policy_ok p →
  0 < initial p ≤ max p ∧ max p ≤ DURATION_MAX ∧ 2 ≤ multiplier p ≤ U32_MAX.
Proof.
  intros (Hv & H0 & Hm & Hk). unfold validate in Hv. repeat case_match; try done.
  reflect_bools. unfold in_width in Hk. lia.
Qed.

Lemma pow_exceeds_u64 base e : 2 ≤ base → 64 ≤ e → U64_MAX < base ^ e.
Proof.
  intros Hb He. apply Z.lt_le_trans with (2 ^ 64); [vm_compute; reflexivity|].
  transitivity (2 ^ e); [apply Z.pow_le_mono_r; lia|]. apply Z.pow_le_mono_l. lia.
Qed.

(** The factor is the power, cut at [u32::MAX]. *)
Lemma factor_spec base e :
  2 ≤ base → 0 ≤ e →
  (let factor := default U64_MAX (checked_pow base (Z.min e U8_MAX)) in
   if factor <=? U32_MAX then factor else U32_MAX) = Z.min (base ^ e) U32_MAX.
Proof.
  intros Hb He. cbv zeta. unfold checked_pow.
  assert (U32_MAX < U64_MAX) by (vm_compute; reflexivity).
  destruct (Z.le_gt_cases e U8_MAX).
  - rewrite Z.min_l by done.
    destruct (Z.leb_spec (base ^ e) U64_MAX); cbn [from_option id].
    + destruct (Z.leb_spec (base ^ e) U32_MAX); lia.
    + rewrite (proj2 (Z.leb_gt _ _)) by done. lia.
  - assert (64 ≤ U8_MAX) by (vm_compute; discriminate).
    pose proof (pow_exceeds_u64 base e Hb ltac:(lia)).
    pose proof (pow_exceeds_u64 base U8_MAX Hb ltac:(lia)).
    rewrite Z.min_r by lia. rewrite (proj2 (Z.leb_gt (base ^ U8_MAX) U64_MAX)) by done. cbn [from_option id].
    rewrite (proj2 (Z.leb_gt _ _)) by done. lia.
Qed.

Lemma delay_spec p n :
  policy_ok p → 1 ≤ n →
  delay p n = Z.min (initial p * Z.min (multiplier p ^ (n - 1)) U32_MAX) (max p).
Proof.
  intros Hp Hn. destruct (policy_ok_bounds p Hp) as (Hi & Hd & Hm).
  unfold delay, checked_sub. rewrite (proj2 (Z.leb_le _ _)) by done.
  pose proof (factor_spec (multiplier p) (n - 1) ltac:(lia) ltac:(lia)) as Hf.
  cbv zeta in Hf |- *. rewrite Hf. unfold checked_mul.
  destruct (Z.leb_spec (initial p * Z.min (multiplier p ^ (n - 1)) U32_MAX) DURATION_MAX); simpl; lia.
Qed.

(** ** Properties *)

(** after [n] consecutive failures a valid policy whose ceiling is within
    reach owes exactly [min(max, initial * multiplier^(n-1))]: the capped
    exponent, the checked power, the 32-bit factor and the checked duration
    product never change the result. *)
Theorem delay_is_capped_exponential (p : BackoffPolicy) (n : Z) :
  policy_ok p → ceiling_in_reach p → 1 ≤ n →
  delay p n = Z.min (initial p * multiplier p ^ (n - 1)) (max p).
Proof.
  intros Hp Hc Hn. rewrite delay_spec by done. unfold ceiling_in_reach in Hc.
  destruct (policy_ok_bounds p Hp) as (Hi & _ & _).
  destruct (Z.le_gt_cases (multiplier p ^ (n - 1)) U32_MAX).
  - by rewrite (Z.min_l (multiplier p ^ (n - 1))) by done.
  - rewrite (Z.min_r (multiplier p ^ (n - 1))) by lia. rewrite !Z.min_r; nia.
Qed.

Lemma delay_is_capped_exponential_witness : delay BackoffPolicy_default 4 = 4 * NANOS_PER_SEC.
Proof.
  rewrite (delay_is_capped_exponential BackoffPolicy_default 4).
  - vm_compute. reflexivity.
  - repeat split; vm_compute; discriminate.
  - vm_compute. discriminate.
  - lia.
Defined.

(** the delays of an outage never shrink, never exceed the ceiling, start at
    the policy's first delay, stand at the ceiling from the 33rd failure on, and
    one success resets them. *)
Theorem outage_delays (p : BackoffPolicy) (n m : Z) :
  policy_ok p → ceiling_in_reach p → 1 ≤ n ≤ m →
  delay p n ≤ delay p m ≤ max p ∧ delay p 1 = initial p ∧ (33 ≤ n → delay p n = max p) ∧
  fail (succeed {| policy := p; failures := n |}) = (initial p, {| policy := p; failures := 1 |}).
Proof.
  intros Hp Hc Hn. destruct (policy_ok_bounds p Hp) as (Hi & Hd & Hm).
  assert (delay p 1 = initial p) as H1.
  { rewrite delay_spec by (done || lia). rewrite Z.sub_diag, Z.pow_0_r. width_lia. }
  rewrite !delay_spec by (done || lia). unfold ceiling_in_reach in Hc.
  assert (multiplier p ^ (n - 1) ≤ multiplier p ^ (m - 1)) by (apply Z.pow_le_mono_r; lia).
  split_and!; [|lia| | |].
  - apply Z.min_le_compat_r. apply Z.mul_le_mono_nonneg_l; lia.
  - pose proof H1 as H1'. rewrite delay_spec in H1' by (done || lia). done.
  - intros H33. assert (U32_MAX ≤ multiplier p ^ (n - 1)).
    { transitivity (2 ^ (n - 1)); [|apply Z.pow_le_mono_l; lia].
      transitivity (2 ^ 32); [vm_compute; discriminate|]. apply Z.pow_le_mono_r; lia. }
    rewrite (Z.min_r (multiplier p ^ (n - 1))) by done. lia.
  - unfold fail, succeed. simpl. replace (saturating_add U32_MAX 0 1) with 1 by done. by rewrite H1.
Qed.

Lemma outage_delays_witness : delay BackoffPolicy_default 40 = 30 * NANOS_PER_SEC.
Proof.
  apply (outage_delays BackoffPolicy_default 40 41); try lia.
  - repeat split; vm_compute; discriminate.
  - vm_compute. discriminate.
Defined.

(** a policy that passes validation need not reach its own ceiling: with a
    first delay of one nanosecond and a ceiling of thirty seconds, no number of
    failures owes more than 4,294,967,295 nanoseconds. *)
Theorem validated_ceiling_unreachable :
  let p := {| initial := 1; max := 30 * NANOS_PER_SEC; multiplier := 2 |} in
  validate p = Ok tt ∧ ∀ n, delay p n ≤ U32_MAX < max p.
Proof.
  cbv zeta. split; [done|]. intros n. split; [|vm_compute; reflexivity].
  destruct (Z.le_gt_cases 1 n).
  - rewrite delay_spec; [cbn [initial max multiplier]; lia| |done].
    repeat split; vm_compute; discriminate.
  - unfold delay, checked_sub. rewrite (proj2 (Z.leb_gt _ _)) by lia. vm_compute. discriminate.
Qed.

End Backoff.
