(* ===== verification/GatewayError.v ===== *)
(** * Gateway errors and their HTTP answers ([crates/gateway/src/error.rs], the
    failure type of [crates/gateway-transport/src/lib.rs]). *)

From S2P Require Import Prelude Text Json ProviderError Admission.

Module GatewayError.

Inductive TimeoutKind := Connect | ResponseHeaders | BufferedBody | StreamIdle | Overall.
Inductive TimeoutBound := Phase | WalkBudget.

#[global] Instance TimeoutKind_eq_dec : EqDecision TimeoutKind.
Proof. solve_decision. Defined.
#[global] Instance TimeoutBound_eq_dec : EqDecision TimeoutBound.
Proof. solve_decision. Defined.

Inductive TransportError :=
| TProvider (error : ProviderError.ProviderError)
| TUpstream (status : Z) (error : ProviderError.ProviderError)
| THttp (message : string)
| TTimeout (kind : TimeoutKind) (bound : TimeoutBound) (budget_ms : Z)
| TBodyTooLarge (limit_bytes : Z).

#[global] Instance TransportError_eq_dec : EqDecision TransportError.
Proof. solve_decision. Defined.

Definition provider_error (e : TransportError) : option ProviderError.ProviderError :=
  match e with TProvider e | TUpstream _ e => Some e | _ => None end.

Definition timeout_kind (e : TransportError) : option TimeoutKind :=
  match e with TTimeout kind _ _ => Some kind | _ => None end.

Definition timeout_bound (e : TransportError) : option TimeoutBound :=
  match e with TTimeout _ bound _ => Some bound | _ => None end.

Definition transport_from_upstream `{SerdeJson} (provider : string) (status : Z) (body : string)
    : TransportError :=
  TUpstream status (ProviderError.from_upstream provider status body).

Inductive Capability :=
| Chat | Messages | Embeddings | Responses | Models | Credentials | CredentialsAll.

#[global] Instance Capability_eq_dec : EqDecision Capability.
Proof. solve_decision. Defined.

Inductive GatewayError :=
| ModelUnprefixed (m : string)
| UnknownProvider (p : string)
| ModelBlocked (m : string)
| UnpricedModel (m : string)
| NoCredential (namespace provider : string)
| BudgetExceeded (m : string)
| RequestCostCeilingExceeded (alias : string) (estimated ceiling : Z)
| BudgetUnavailable
| UsageNotDurable (reason : string)
| ContinuationAffinityUnavailable (provider model : string)
| Overloaded (r : Admission.AdmissionRejection)
| RequestTooLarge
| UnsupportedMediaType
| PromptTooLarge (limit_tokens : Z)
| OutputLimitExceeded (requested_tokens limit_tokens : Z)
| Draining
| Unauthorized
| ScopeInsufficient (c : Capability)
| InvalidNamespace
| UnknownNamespace
| UnknownBudget
| NamespaceConflict
| StoreUnavailable
| NamespaceNotAuthorized
| Provider (e : ProviderError.ProviderError)
| Transport (e : TransportError)
| BadRequest (m : string)
| UnsupportedWire (route alias provider : string).

#[global] Instance GatewayError_eq_dec : EqDecision GatewayError.
Proof. solve_decision. Defined.

Definition provider_status (e : ProviderError.ProviderError) : Z :=
  match e with
  | ProviderError.InvalidRequest _ => 400
  | ProviderError.ContextWindowExceeded _ => 400
  | ProviderError.Unsupported _ => 501
  | ProviderError.ModelUnavailable _ => 502
  | ProviderError.Dependency _ => 502
  | ProviderError.InvalidStream _ => 502
  | ProviderError.RateLimitedStream _ => 502
  | ProviderError.AllCircuitsOpen _ => 503
  end.

Definition status (e : GatewayError) : Z :=
  match e with
  | ModelUnprefixed _ | UnknownProvider _ | ModelBlocked _ | UnpricedModel _ => 400
  | NoCredential _ _ => 502
  | BudgetExceeded _ => 429
  | RequestCostCeilingExceeded _ _ _ => 403
  | BudgetUnavailable => 503
  | UsageNotDurable _ => 503
  | ContinuationAffinityUnavailable _ _ => 503
  | Overloaded r => if Admission.is_caller_limit r then 429 else 503
  | RequestTooLarge | PromptTooLarge _ => 413
  | UnsupportedMediaType => 415
  | OutputLimitExceeded _ _ => 400
  | Draining => 503
  | Unauthorized => 401
  | ScopeInsufficient _ => 403
  | InvalidNamespace => 400
  | UnknownNamespace => 404
  | UnknownBudget => 404
  | NamespaceConflict => 409
  | StoreUnavailable => 503
  | NamespaceNotAuthorized => 403
  | BadRequest _ => 400
  | UnsupportedWire _ _ _ => 400
  | Transport (TUpstream st e) =>
      if (st =? 401) || (st =? 403) then 502 else provider_status e
  | Provider e | Transport (TProvider e) => provider_status e
  | Transport (THttp _) => 502
  | Transport (TTimeout _ _ _) => 504
  | Transport (TBodyTooLarge _) => 502
  end.

Definition code (e : GatewayError) : string :=
  match e with
  | ModelUnprefixed _ => "model_unprefixed"
  | UnknownProvider _ => "unknown_provider"
  | ModelBlocked _ => "model_blocked"
  | UnpricedModel _ => "unpriced_model"
  | NoCredential _ _ => "no_credential"
  | BudgetExceeded _ => "budget_exceeded"
  | RequestCostCeilingExceeded _ _ _ => "request_cost_ceiling_exceeded"
  | BudgetUnavailable => "budget_unavailable"
  | UsageNotDurable _ => "usage_not_durable"
  | ContinuationAffinityUnavailable _ _ => "continuation_affinity_unavailable"
  | Overloaded r => Admission.rejection_code r
  | RequestTooLarge => "request_too_large"
  | UnsupportedMediaType => "unsupported_media_type"
  | PromptTooLarge _ => "prompt_too_large"
  | OutputLimitExceeded _ _ => "output_limit_exceeded"
  | Draining => "draining"
  | Unauthorized => "unauthorized"
  | ScopeInsufficient _ => "token_scope_insufficient"
  | InvalidNamespace => "invalid_namespace"
  | UnknownNamespace => "unknown_namespace"
  | UnknownBudget => "unknown_budget"
  | NamespaceConflict => "namespace_conflict"
  | StoreUnavailable => "store_unavailable"
  | NamespaceNotAuthorized => "namespace_not_authorized"
  | BadRequest _ => "bad_request"
  | UnsupportedWire _ _ _ => "unsupported_wire"
  | Provider e => ProviderError.code e
  | Transport (TProvider e) | Transport (TUpstream _ e) => ProviderError.code e
  | Transport (THttp _) => "upstream_transport"
  | Transport (TTimeout _ _ _) => "upstream_timeout"
  | Transport (TBodyTooLarge _) => "upstream_body_too_large"
  end.

(** The [Retry-After] header of [into_response], in seconds. *)
Definition retry_after (e : GatewayError) : option Z :=
  match e with
  | Overloaded r => Admission.retry_after_seconds r
  | Draining => Some 0
  | _ => None
  end.

(** An upstream refusal of the operator's credential. *)
Definition credential_refusal (e : GatewayError) : Prop :=
  match e with
  | Transport (TUpstream st _) => st = 401 ∨ st = 403
  | _ => False
  end.

(** The status each error type is documented with. *)
Definition status_table : gmap string Z := list_to_map [
  ("model_unprefixed", 400); ("unknown_provider", 400); ("model_blocked", 400);
  ("unpriced_model", 400); ("no_credential", 502); ("budget_exceeded", 429);
  ("request_cost_ceiling_exceeded", 403); ("budget_unavailable", 503);
  ("usage_not_durable", 503); ("continuation_affinity_unavailable", 503);
  ("tenant_concurrency_exceeded", 429); ("admission_tenant_capacity_exhausted", 503);
  ("stream_capacity_exhausted", 503); ("gateway_overloaded", 503);
  ("admission_queue_full", 503); ("admission_queue_timeout", 503);
  ("settlement_capacity_exhausted", 503); ("request_too_large", 413);
  ("unsupported_media_type", 415); ("prompt_too_large", 413); ("output_limit_exceeded", 400);
  ("draining", 503); ("unauthorized", 401); ("token_scope_insufficient", 403);
  ("invalid_namespace", 400); ("unknown_namespace", 404); ("unknown_budget", 404);
  ("namespace_conflict", 409); ("store_unavailable", 503); ("namespace_not_authorized", 403);
  ("bad_request", 400); ("unsupported_wire", 400); ("invalid_request", 400);
  ("context_window_exceeded", 400); ("unsupported", 501); ("model_unavailable", 502);
  ("provider_dependency_failed", 502); ("invalid_stream", 502); ("provider_rate_limited", 502);
  ("all_provider_circuits_open", 503); ("upstream_transport", 502); ("upstream_timeout", 504);
  ("upstream_body_too_large", 502)]%string.

Lemma provider_in_table p :
  status_table !! ProviderError.code p = Some (provider_status p).
Proof. destruct p; vm_compute; reflexivity. Qed.

Lemma status_in_table e :
  ¬ credential_refusal e → status_table !! code e = Some (status e).
Proof.
  intros Hn. destruct e as [| | | | | | | | | |r| | | | | | | | | | | | | |p|t| |];
    try (vm_compute; reflexivity).
  - destruct r; vm_compute; reflexivity.
  - apply provider_in_table.
  - destruct t as [p|st p| | |]; try (vm_compute; reflexivity); simpl in *.
    + apply provider_in_table.
    + destruct (Z.eqb_spec st 401), (Z.eqb_spec st 403); simpl; try tauto.
      apply provider_in_table.
Qed.

(** ** Properties *)

(** the error type a caller sees determines the HTTP status it comes with:
    two failures with one type have one status, except that a provider's refusal
    of the operator's own credential is answered 502 whatever its type, so an
    upstream 401 or 403 never reaches the caller as one. *)
Theorem code_determines_status (e e' : GatewayError) :
  (code e = code e' → ¬ credential_refusal e → ¬ credential_refusal e' → status e = status e') ∧
  (credential_refusal e → status e = 502).
Proof.
  split.
  - intros Hc He He'. apply status_in_table in He, He'. congruence.
  - destruct e as [| | | | | | | | | | | | | | | | | | | | | | | | |t| |]; try done.
    destruct t; try done. simpl. intros [->| ->]; done.
Qed.

Lemma code_determines_status_witness :
  status (Transport (TProvider (ProviderError.Dependency []))) =
    status (Provider (ProviderError.Dependency [])) ∧
  status (Transport (TUpstream 401 (ProviderError.InvalidRequest "bad key"))) = 502.
Proof.
  split.
  - refine (proj1 (code_determines_status (Transport (TProvider (ProviderError.Dependency []))) (Provider (ProviderError.Dependency []))) _ _ _); [reflexivity|simpl; tauto|simpl; tauto].
  - apply (code_determines_status (Transport (TUpstream 401 (ProviderError.InvalidRequest "bad key"))) Draining). simpl. left. reflexivity.
Defined.

(** the gateway advises a retry only for conditions that pass by themselves:
    a [Retry-After] accompanies only 429 and 503, and the only throttled
    conditions are a tenant over its own ceiling and an exhausted budget. *)
Theorem retry_advice (e : GatewayError) :
  (retry_after e ≠ None → status e = 429 ∨ status e = 503) ∧
  (status e = 429 ↔ (∃ m, e = BudgetExceeded m) ∨ e = Overloaded Admission.Tenant).
Proof.
  destruct e as [| | | | | | | | | |r| | | | | | | | | | | | | |p|t| |]; simpl;
    try (split; [tauto|split; [done|naive_solver]]).
  - split; [tauto|]. split; [eauto|done].
  - destruct r; simpl; (split; [tauto|split; naive_solver]).
  - destruct p; simpl; (split; [tauto|split; naive_solver]).
  - destruct t as [p|st p| | |]; simpl; try (split; [tauto|split; naive_solver]).
    + destruct p; simpl; (split; [tauto|split; naive_solver]).
    + case_match; [split; [tauto|split; naive_solver]|].
      destruct p; simpl; (split; [tauto|split; naive_solver]).
Qed.

Lemma retry_advice_witness : status Draining = 429 ∨ status Draining = 503.
Proof. apply (retry_advice Draining). discriminate. Defined.

End GatewayError.
