(* ===== verification/Provider.v ===== *)
(** * The provider interface ([crates/gateway-core/src/provider.rs]).

    What the gateway asks of a provider adapter: request and response
    translation, and a decoder of its event stream.  The two traits of the
    source are classes here; [decode_all] and [drive] run a decoder over a whole
    stream, so that what the adapters promise can be stated once. *)

From S2P Require Import Prelude Text Json Sse ProviderError Pricing.

Module Provider.

Export Sse.Sse (SseEvent, mkEvent, event, data).
Import ProviderError.ProviderError (ProviderError).
Import Pricing.Pricing.

Inductive Surface := ChatCompletions | Responses.

#[global] Instance Surface_eq_dec : EqDecision Surface.
Proof. solve_decision. Defined.

Record Capabilities := mkCapabilities {
  chat : bool;
  responses : bool;
  vision : bool;
  reasoning : bool;
  embeddings : bool;
}.

Section Provider.
Context {J : SerdeJson}.

Record ProviderRequest := mkRequest { model : string; body : Value }.
Record ProviderResponse := mkResponse { response_body : Value; usage : ModelUsage }.

Inductive ProviderStreamEvent :=
| Data (event : option string) (data : Value)
| Done (u : ModelUsage).

Class ProviderStreamDecoder (D : Type) := {
  decode : D → SseEvent → result ProviderError (list ProviderStreamEvent) * D;
  finish : D → result ProviderError (list ProviderStreamEvent) * D;
}.

(** [Box<dyn ProviderStreamDecoder>] *)
Record BoxedDecoder := mkBoxed {
  decoder_state : Type;
  decoder_impl : ProviderStreamDecoder decoder_state;
  decoder : decoder_state;
}.

Class ProviderAdapter (A : Type) := {
  name : A → string;
  capabilities : A → Capabilities;
  encode_request : A → Surface → ProviderRequest → result ProviderError Value;
  decode_response : A → Surface → Value → result ProviderError ProviderResponse;
  stream_decoder : A → Surface → result ProviderError BoxedDecoder;
}.

Section Drive.
Context {D : Type} `{!ProviderStreamDecoder D}.

(** A stream of events, decoded up to the first error. *)
Fixpoint decode_all (d : D) (events : list SseEvent)
    : result ProviderError (list ProviderStreamEvent) * D :=
  match events with
  | [] => (Ok [], d)
  | e :: events =>
      match decode d e with
      | (Err err, d) => (Err err, d)
      | (Ok out, d) =>
          match decode_all d events with
          | (Err err, d) => (Err err, d)
          | (Ok outs, d) => (Ok (out ++ outs), d)
          end
      end
  end.

(** The same, closed by [finish]. *)
Definition drive (d : D) (events : list SseEvent)
    : result ProviderError (list ProviderStreamEvent) * D :=
  match decode_all d events with
  | (Err err, d) => (Err err, d)
  | (Ok outs, d) =>
      match finish d with
      | (Err err, d) => (Err err, d)
      | (Ok out, d) => (Ok (outs ++ out), d)
      end
  end.

(** Invariants of a decoder carry over a stream: [P d outs] relates the state to
    everything emitted so far. *)
Lemma decode_all_invariant (P : D → list ProviderStreamEvent → Prop) d outs0 events outs d' :
  (∀ d seen e out d', P d seen → decode d e = (Ok out, d') → P d' (seen ++ out)) →
  P d outs0 → decode_all d events = (Ok outs, d') → P d' (outs0 ++ outs).
Proof.
  intros Hstep. revert d outs0 outs. induction events as [|e events IH]; intros d outs0 outs HP; simpl.
  - intros [= <- <-]. by rewrite app_nil_r.
  - destruct (decode d e) as [[out|err] d1] eqn:He; [|done].
    destruct (decode_all d1 events) as [[outs1|err] d2] eqn:Hall; [|done].
    intros [= <- <-]. rewrite (assoc_L (++)). eapply IH; [|done]. by eapply Hstep.
Qed.

End Drive.

Definition is_done (e : ProviderStreamEvent) : bool := match e with Done _ => true | _ => false end.

End Provider.
End Provider.
