(* ===== verification/ToolCall.v ===== *)
(** * Tool-call assembly ([crates/gateway-core/src/tool_call.rs]).

    A streamed tool call arrives as fragments that name a choice and a call by
    index; [ToolCallAssembler] merges them.  The pending calls are a
    [BTreeMap], so [finish] lists them by index. *)

From S2P Require Import Prelude Text Json Sse ProviderError Pricing Provider.

Module ToolCall.
Import Provider.Provider.

Record ToolCallFragment := mkFragment {
  choice_index : Z;
  tool_index : Z;
  fragment_id : option string;
  fragment_name : option string;
  fragment_arguments : string;
}.

Record AssembledToolCall := mkAssembled {
  call_choice : Z;
  call_tool : Z;
  call_id : string;
  call_name : string;
  call_arguments : string;
}.

Inductive ToolCallAssemblyError :=
| ConflictingMetadata (choice_index tool_index : Z) (field first next : string)
| MissingMetadata (choice_index tool_index : Z) (field : string).

#[global] Instance AssembledToolCall_eq_dec : EqDecision AssembledToolCall.
Proof. solve_decision. Defined.
#[global] Instance ToolCallAssemblyError_eq_dec : EqDecision ToolCallAssemblyError.
Proof. solve_decision. Defined.

Record PendingToolCall := mkPending {
  p_id : option string;
  p_name : option string;
  p_arguments : string;
}.

#[global] Instance PendingToolCall_eq_dec : EqDecision PendingToolCall.
Proof. solve_decision. Defined.

Definition PendingToolCall_default : PendingToolCall := mkPending None None "".

Record ToolCallAssembler := mkAssembler { pending : gmap (Z * Z) PendingToolCall }.

Definition new : ToolCallAssembler := mkAssembler ∅.

(** The [current] slot after the call; on an error it is unchanged. *)
Definition merge_metadata (current next : option string) (key : Z * Z) (field : string)
    : result ToolCallAssemblyError (option string) :=
  match next with
  | None => Ok current
  | Some next =>
      if decide (next = ""%string) then Ok current
      else
        match current with
        | Some first =>
            if decide (first = next) then Ok current
            else Err (ConflictingMetadata key.1 key.2 field first next)
        | None => Ok (Some next)
        end
  end.

Definition fragment_key (f : ToolCallFragment) : Z * Z := (choice_index f, tool_index f).

Definition push_fragment (a : ToolCallAssembler) (f : ToolCallFragment)
    : result ToolCallAssemblyError unit * ToolCallAssembler :=
  let key := fragment_key f in
  let p := default PendingToolCall_default (pending a !! key) in
  let store p := mkAssembler (<[key := p]> (pending a)) in
  match merge_metadata (p_id p) (fragment_id f) key "id" with
  | Err e => (Err e, store p)
  | Ok id =>
      match merge_metadata (p_name p) (fragment_name f) key "name" with
      | Err e => (Err e, store (mkPending id (p_name p) (p_arguments p)))
      | Ok name =>
          (Ok tt, store (mkPending id name (p_arguments p +:+ fragment_arguments f)))
      end
  end.

Definition assemble (kp : (Z * Z) * PendingToolCall) : result ToolCallAssemblyError AssembledToolCall :=
  let '((choice, tool), p) := kp in
  id ← ok_or (p_id p) (MissingMetadata choice tool "id");
  name ← ok_or (p_name p) (MissingMetadata choice tool "name");
  Ok {| call_choice := choice; call_tool := tool; call_id := id; call_name := name;
        call_arguments := p_arguments p |}.

Definition finish (a : ToolCallAssembler) : result ToolCallAssemblyError (list AssembledToolCall) :=
  mapM assemble (into_iter pair_le (pending a)).

Section Events.
Context {J : SerdeJson}.

Definition arguments_json (c : AssembledToolCall) : result string Value := from_str (call_arguments c).

(** The items of a field that should be an array: none when it is not one. *)
Definition items (o : option Value) : list Value := default [] (o ≫= as_array).

Definition fragment_of (choice : Z) (call : Value) : ToolCallFragment := {|
  choice_index := choice;
  tool_index := default 0 (get call "index" ≫= as_u64);
  fragment_id := get call "id" ≫= as_str;
  fragment_name := pointer call "/function/name" ≫= as_str;
  fragment_arguments := default ""%string (pointer call "/function/arguments" ≫= as_str);
|}.

(** The inner loop of [push_event]. *)
Fixpoint push_calls (a : ToolCallAssembler) (choice : Z) (calls : list Value) (count : Z)
    : result ToolCallAssemblyError Z * ToolCallAssembler :=
  match calls with
  | [] => (Ok count, a)
  | call :: calls =>
      match push_fragment a (fragment_of choice call) with
      | (Err e, a) => (Err e, a)
      | (Ok tt, a) => push_calls a choice calls (count + 1)
      end
  end.

(** The outer loop. *)
Fixpoint push_choices (a : ToolCallAssembler) (choices : list Value) (count : Z)
    : result ToolCallAssemblyError Z * ToolCallAssembler :=
  match choices with
  | [] => (Ok count, a)
  | choice :: choices =>
      let index := default 0 (get choice "index" ≫= as_u64) in
      match push_calls a index (items (pointer choice "/delta/tool_calls")) count with
      | (Err e, a) => (Err e, a)
      | (Ok count, a) => push_choices a choices count
      end
  end.

Definition push_event (a : ToolCallAssembler) (e : ProviderStreamEvent)
    : result ToolCallAssemblyError Z * ToolCallAssembler :=
  match e with
  | Done _ => (Ok 0, a)
  | Data _ data => push_choices a (items (get data "choices")) 0
  end.

End Events.

(** ** The reference: what a list of fragments says about each call *)

Fixpoint push_all (a : ToolCallAssembler) (fs : list ToolCallFragment)
    : result ToolCallAssemblyError unit * ToolCallAssembler :=
  match fs with
  | [] => (Ok tt, a)
  | f :: fs =>
      match push_fragment a f with
      | (Err e, a) => (Err e, a)
      | (Ok tt, a) => push_all a fs
      end
  end.

Definition of_key (key : Z * Z) (fs : list ToolCallFragment) : list ToolCallFragment :=
  filter (λ f, fragment_key f = key) fs.

Definition spoken (o : option string) : option string :=
  match o with Some s => if decide (s = ""%string) then None else Some s | None => None end.

(** Everything said of one field of one call, in order. *)
Definition said (field : ToolCallFragment → option string) (key : Z * Z)
    (fs : list ToolCallFragment) : list string := omap (λ f, spoken (field f)) (of_key key fs).

Definition agree (l : list string) : Prop := ∀ x y, x ∈ l → y ∈ l → x = y.

Definition consistent (fs : list ToolCallFragment) : Prop :=
  ∀ key, agree (said fragment_id key fs) ∧ agree (said fragment_name key fs).

Definition joined (key : Z * Z) (fs : list ToolCallFragment) : string :=
  foldr (λ f s, fragment_arguments f +:+ s) "" (of_key key fs).

Definition reference (key : Z * Z) (fs : list ToolCallFragment) : option PendingToolCall :=
  match of_key key fs with
  | [] => None
  | _ => Some (mkPending (head (said fragment_id key fs)) (head (said fragment_name key fs))
                 (joined key fs))
  end.

Definition call_key (c : AssembledToolCall) : Z * Z := (call_choice c, call_tool c).

(** ** Lemmas *)

Lemma of_key_snoc key fs f :
  of_key key (fs ++ [f]) = of_key key fs ++ if decide (fragment_key f = key) then [f] else [].
Proof. unfold of_key. rewrite filter_app. by rewrite filter_cons, filter_nil. Qed.

Lemma said_snoc field key fs f :
  said field key (fs ++ [f]) =
  said field key fs ++ if decide (fragment_key f = key) then option_list (spoken (field f)) else [].
Proof.
  unfold said. rewrite of_key_snoc, omap_app. f_equal. case_decide; [|done].
  simpl. by destruct (spoken (field f)).
Qed.

Lemma string_app_assoc (x y z : string) : x +:+ (y +:+ z) = (x +:+ y) +:+ z.
Proof. induction x as [|c x IH]; [done|]. exact (f_equal (String c) IH). Qed.

Lemma string_app_nil (x : string) : x +:+ "" = x.
Proof. induction x as [|c x IH]; [done|]. exact (f_equal (String c) IH). Qed.

Lemma joined_snoc key fs f :
  joined key (fs ++ [f]) =
  joined key fs +:+ if decide (fragment_key f = key) then fragment_arguments f else "".
Proof.
  unfold joined. rewrite of_key_snoc. induction (of_key key fs) as [|g l IH]; simpl.
  - case_decide; simpl; [apply string_app_nil|done].
  - by rewrite IH, string_app_assoc.
Qed.

Lemma agree_app_l l l' : agree (l ++ l') → agree l.
Proof. intros Ha x y Hx Hy. apply Ha; set_solver. Qed.

Lemma merge_reference l o key field :
  agree l →
  match merge_metadata (head l) o key field with
  | Ok current => agree (l ++ option_list (spoken o)) ∧ current = head (l ++ option_list (spoken o))
  | Err e => ¬ agree (l ++ option_list (spoken o))
  end.
Proof.
  intros Hl. unfold merge_metadata, spoken. destruct o as [next|]; [|by rewrite app_nil_r].
  case_decide; simpl; [by rewrite app_nil_r|].
  destruct l as [|first l]; simpl; [split; [|done]; intros x y; set_solver|].
  case_decide as Hf; [subst first|].
  - split; [|done]. intros x y. rewrite app_comm_cons, !elem_of_app, !list_elem_of_singleton.
    assert (next ∈ next :: l) by set_solver.
    intros [?| ->] [?| ->]; auto.
  - intros Ha. apply Hf. apply Ha; set_solver.
Qed.

Lemma push_all_app a fs fs' :
  push_all a (fs ++ fs') =
  match push_all a fs with
  | (Err e, a) => (Err e, a)
  | (Ok tt, a) => push_all a fs'
  end.
Proof.
  revert a. induction fs as [|f fs IH]; intros a; simpl; [done|].
  destruct (push_fragment a f) as [[[]|e] a']; [apply IH|done].
Qed.

Lemma consistent_snoc fs f :
  consistent (fs ++ [f]) ↔
  consistent fs ∧
  agree (said fragment_id (fragment_key f) fs ++ option_list (spoken (fragment_id f))) ∧
  agree (said fragment_name (fragment_key f) fs ++ option_list (spoken (fragment_name f))).
Proof.
  unfold consistent. split.
  - intros H. split_and!.
    + intros key. destruct (H key) as [Hi Hn]. rewrite said_snoc in Hi, Hn.
      split; by eapply agree_app_l.
    + destruct (H (fragment_key f)) as [Hi _]. by rewrite said_snoc, decide_True in Hi.
    + destruct (H (fragment_key f)) as [_ Hn]. by rewrite said_snoc, decide_True in Hn.
  - intros (H & Hi & Hn) key. rewrite !said_snoc. case_decide; [by subst|].
    rewrite !app_nil_r. apply H.
Qed.

(** The pending call of a key, or the default one the source inserts. *)
Lemma reference_default key fs :
  default PendingToolCall_default (reference key fs) =
  mkPending (head (said fragment_id key fs)) (head (said fragment_name key fs)) (joined key fs).
Proof. unfold reference, said, joined. by destruct (of_key key fs). Qed.

Lemma reference_snoc key fs f :
  reference key (fs ++ [f]) =
  if decide (fragment_key f = key)
  then Some (mkPending (head (said fragment_id key fs ++ option_list (spoken (fragment_id f))))
               (head (said fragment_name key fs ++ option_list (spoken (fragment_name f))))
               (joined key fs +:+ fragment_arguments f))
  else reference key fs.
Proof.
  unfold reference. rewrite !said_snoc, joined_snoc, of_key_snoc. case_decide.
  - by destruct (of_key key fs).
  - by rewrite !app_nil_r, string_app_nil.
Qed.

Lemma push_all_reference fs :
  match push_all new fs with
  | (Ok tt, a) => consistent fs ∧ ∀ key, pending a !! key = reference key fs
  | (Err e, _) => ¬ consistent fs
  end.
Proof.
  induction fs as [|f fs IH] using rev_ind; simpl.
  { split; [intros key; split; intros x y; set_solver|]. intros key. apply lookup_empty. }
  rewrite push_all_app. destruct (push_all new fs) as [[[]|e] a]; simpl;
    [|by rewrite consistent_snoc; naive_solver].
  destruct IH as [Hc Href]. pose proof (consistent_snoc fs f) as Hs. unfold push_fragment.
  rewrite Href, reference_default. simpl.
  destruct (Hc (fragment_key f)) as [Hi Hn].
  pose proof (merge_reference _ (fragment_id f) (fragment_key f) "id" Hi) as Mi.
  pose proof (merge_reference _ (fragment_name f) (fragment_key f) "name" Hn) as Mn.
  destruct (merge_metadata (head (said fragment_id _ _)) _ _ _) as [id|e]; [|intros (_ & ? & _)%Hs; by apply Mi].
  destruct (merge_metadata (head (said fragment_name _ _)) _ _ _) as [name|e]; [|intros (_ & _ & ?)%Hs; by apply Mn].
  destruct Mi as [? ->], Mn as [? ->]. split; [by apply Hs|]. intros key. simpl.
  rewrite reference_snoc, lookup_insert. case_decide as Hk; [by subst|apply Href].
Qed.

Lemma assemble_Ok kp c :
  assemble kp = Ok c ↔
  kp = (call_key c, mkPending (Some (call_id c)) (Some (call_name c)) (call_arguments c)).
Proof.
  destruct kp as [[i t] [[id|] [name|] args]], c; unfold assemble, call_key; simpl;
    (split; [intros [=]|intros [=]]); by subst.
Qed.

Lemma assemble_Err kp e :
  assemble kp = Err e →
  (p_id kp.2 = None ∧ e = MissingMetadata kp.1.1 kp.1.2 "id") ∨
  (p_name kp.2 = None ∧ e = MissingMetadata kp.1.1 kp.1.2 "name").
Proof.
  destruct kp as [[i t] [[id|] [name|] args]]; unfold assemble; simpl; intros [=]; subst; auto.
Qed.

(** [collect] into a [Result] stops at the first error. *)
Lemma collect_spec {E A B} (f : A → result E B) (l : list A) :
  match mapM f l with
  | Ok ys => Forall2 (λ x y, f x = Ok y) l ys
  | Err e => ∃ x, x ∈ l ∧ f x = Err e
  end.
Proof.
  induction l as [|x l IH]; simpl; [constructor|].
  destruct (f x) as [y|e] eqn:Hx; simpl; [|exists x; set_solver].
  destruct (mapM f l) as [ys|e]; simpl; [by constructor|].
  destruct IH as (x' & ? & ?). exists x'. set_solver.
Qed.

Lemma finish_Ok a calls :
  finish a = Ok calls →
  StronglySorted pair_le (call_key <$> calls) ∧ NoDup (call_key <$> calls) ∧
  (∀ c, c ∈ calls ↔ pending a !! call_key c =
     Some (mkPending (Some (call_id c)) (Some (call_name c)) (call_arguments c))) ∧
  (∀ key, is_Some (pending a !! key) → ∃ c, c ∈ calls ∧ call_key c = key).
Proof.
  unfold finish. intros H. pose proof (collect_spec assemble (into_iter pair_le (pending a))) as Hc.
  rewrite H in Hc.
  assert (into_iter pair_le (pending a) = (λ c, (call_key c,
    mkPending (Some (call_id c)) (Some (call_name c)) (call_arguments c))) <$> calls) as Hl.
  { clear H. induction Hc as [|kp c l calls Hkp Hc IH]; csimpl; [done|].
    apply assemble_Ok in Hkp as ->. by rewrite IH. }
  assert ((into_iter pair_le (pending a)).*1 = call_key <$> calls) as Hk
    by by rewrite Hl, <-list_fmap_compose.
  split_and!.
  - rewrite <-Hk. apply into_iter_sorted; apply _.
  - rewrite <-Hk. apply into_iter_NoDup.
  - intros c. rewrite <-(into_iter_elem pair_le), Hl, list_elem_of_fmap. split; [eauto|].
    intros ([] & Heq & Hin). destruct c; unfold call_key in *; simpl in *. by simplify_eq.
  - intros key [p Hp]. apply (into_iter_elem pair_le) in Hp. rewrite Hl in Hp.
    apply list_elem_of_fmap in Hp as (c & [= -> ->] & Hin). eauto.
Qed.

Lemma finish_Err a e :
  finish a = Err e →
  ∃ key p, pending a !! key = Some p ∧
    ((p_id p = None ∧ e = MissingMetadata key.1 key.2 "id") ∨
     (p_name p = None ∧ e = MissingMetadata key.1 key.2 "name")).
Proof.
  unfold finish. intros H. pose proof (collect_spec assemble (into_iter pair_le (pending a))) as Hc.
  rewrite H in Hc. destruct Hc as ([key p] & Hin & He%assemble_Err).
  apply into_iter_elem in Hin. by exists key, p.
Qed.

Lemma reference_Some key fs p :
  reference key fs = Some p ↔
  (∃ f, f ∈ fs ∧ fragment_key f = key) ∧
  p = mkPending (head (said fragment_id key fs)) (head (said fragment_name key fs)) (joined key fs).
Proof.
  unfold reference. destruct (of_key key fs) as [|f l] eqn:Hl.
  - split; [done|]. intros [(f & Hf & Hk) _]. exfalso.
    apply (not_elem_of_nil f). rewrite <-Hl. unfold of_key. by apply list_elem_of_filter.
  - split; [intros [= <-]|intros [_ ->]; done]. split; [|done]. exists f.
    assert (f ∈ of_key key fs) as Hf by (rewrite Hl; set_solver).
    unfold of_key in Hf. apply list_elem_of_filter in Hf as [??]. done.
Qed.

(** The first fragment of a call, and a later one that only carries arguments. *)
Lemma push_fresh a f :
  pending a !! fragment_key f = None →
  push_fragment a f =
  (Ok tt, mkAssembler (<[fragment_key f :=
     mkPending (spoken (fragment_id f)) (spoken (fragment_name f)) (fragment_arguments f)]> (pending a))).
Proof.
  intros Ha. unfold push_fragment. rewrite Ha. simpl. unfold merge_metadata, spoken.
  destruct (fragment_id f) as [i|]; [case_decide|]; (destruct (fragment_name f) as [n|]; [case_decide|]); done.
Qed.

Lemma push_more a f p :
  pending a !! fragment_key f = Some p → fragment_id f = None → fragment_name f = None →
  push_fragment a f =
  (Ok tt, mkAssembler (<[fragment_key f :=
     mkPending (p_id p) (p_name p) (p_arguments p +:+ fragment_arguments f)]> (pending a))).
Proof. intros Ha Hi Hn. unfold push_fragment. by rewrite Ha, Hi, Hn. Qed.

(** [push_event] pushes the fragments of the event, in order. *)
Section Fragments.
Context {J : SerdeJson}.

Definition choice_fragments (choice : Value) : list ToolCallFragment :=
  fragment_of (default 0 (get choice "index" ≫= as_u64)) <$> items (pointer choice "/delta/tool_calls").

Definition event_fragments (e : ProviderStreamEvent) : list ToolCallFragment :=
  match e with Done _ => [] | Data _ data => items (get data "choices") ≫= choice_fragments end.

Definition counted (count : Z) (n : nat) (r : result ToolCallAssemblyError unit * ToolCallAssembler)
    : result ToolCallAssemblyError Z * ToolCallAssembler :=
  match r with (Ok tt, a) => (Ok (count + Z.of_nat n), a) | (Err e, a) => (Err e, a) end.

#[global] Arguments fragment_of : simpl never.
#[global] Arguments push_fragment : simpl never.
#[global] Arguments spoken : simpl never.

Lemma push_calls_fragments a choice calls count :
  push_calls a choice calls count =
  counted count (length calls) (push_all a (fragment_of choice <$> calls)).
Proof.
  revert a count. induction calls as [|call calls IH]; intros a count; csimpl.
  - unfold counted. by rewrite Z.add_0_r.
  - destruct (push_fragment a (fragment_of choice call)) as [[[]|e] a']; [|done].
    rewrite IH. unfold counted. destruct (push_all a' _) as [[[]|e] a'']; [|done].
    do 2 f_equal. lia.
Qed.

Lemma push_choices_fragments a choices count :
  push_choices a choices count =
  counted count (length (choices ≫= choice_fragments)) (push_all a (choices ≫= choice_fragments)).
Proof.
  revert a count. induction choices as [|choice choices IH]; intros a count; csimpl.
  - unfold counted. by rewrite Z.add_0_r.
  - rewrite push_calls_fragments, push_all_app. fold (choice_fragments choice).
    unfold counted at 1. destruct (push_all a _) as [[[]|e] a']; [|done].
    rewrite IH. unfold counted. destruct (push_all a' _) as [[[]|e] a'']; [|done].
    do 2 f_equal. unfold choice_fragments at 2. rewrite length_app, length_fmap. lia.
Qed.

Lemma push_event_fragments a e :
  push_event a e = counted 0 (length (event_fragments e)) (push_all a (event_fragments e)).
Proof. destruct e; [apply push_choices_fragments|done]. Qed.

(** A whole stream, event by event. *)
Fixpoint push_events (a : ToolCallAssembler) (es : list ProviderStreamEvent)
    : result ToolCallAssemblyError unit * ToolCallAssembler :=
  match es with
  | [] => (Ok tt, a)
  | e :: es =>
      match push_event a e with
      | (Err err, a) => (Err err, a)
      | (Ok _, a) => push_events a es
      end
  end.

Lemma push_events_fragments a es : push_events a es = push_all a (es ≫= event_fragments).
Proof.
  revert a. induction es as [|e es IH]; intros a; csimpl; [done|].
  rewrite push_event_fragments, push_all_app. unfold counted.
  destruct (push_all a (event_fragments e)) as [[[]|err] a']; [apply IH|done].
Qed.

End Fragments.

(** Calls numbered from zero, the shape of a single-choice stream. *)
Definition numbered (calls : list AssembledToolCall) : Prop :=
  ∀ k c, calls !! k = Some c → call_key c = (0, Z.of_nat k).

Definition key_le (x y : AssembledToolCall) : Prop := pair_le (call_key x) (call_key y).

Lemma numbered_sorted l : numbered l → NoDup l ∧ StronglySorted key_le l.
Proof.
  induction l as [|x l IH] using rev_ind; intros Hl; [split; constructor|].
  destruct IH as [Hn Hs]; [intros k c Hc; apply Hl; by apply lookup_app_l_Some|].
  assert (call_key x = (0, Z.of_nat (length l))) as Hx by (apply Hl; by apply list_lookup_middle).
  assert (∀ y, y ∈ l → ∃ k, (k < length l)%nat ∧ call_key y = (0, Z.of_nat k)) as Hy.
  { intros y [k Hk]%list_elem_of_lookup. exists k. split; [by eapply lookup_lt_Some|].
    apply Hl. by apply lookup_app_l_Some. }
  split.
  - apply NoDup_app. split_and!; [done| |apply NoDup_singleton].
    intros y Hyl ->%list_elem_of_singleton. destruct (Hy x Hyl) as (k & ? & Hk). rewrite Hx in Hk.
    injection Hk as Hk. lia.
  - apply StronglySorted_app_2; [|done|repeat constructor].
    intros y z Hyl ->%list_elem_of_singleton. destruct (Hy y Hyl) as (k & ? & Hk).
    unfold key_le. rewrite Hx, Hk. right. simpl. lia.
Qed.

Lemma numbered_inj l i j x y :
  numbered l → l !! i = Some x → l !! j = Some y → key_le x y → key_le y x → x = y.
Proof.
  intros Hl Hi Hj. unfold key_le. rewrite (Hl _ _ Hi), (Hl _ _ Hj). unfold pair_le. simpl.
  intros ??. assert (i = j) as -> by lia. congruence.
Qed.

Definition pending_of (c : AssembledToolCall) : PendingToolCall :=
  mkPending (Some (call_id c)) (Some (call_name c)) (call_arguments c).

(** The calls of an assembler whose pending calls are numbered from zero. *)
Lemma finish_numbered a calls :
  numbered calls →
  (∀ i k, pending a !! (i, k) =
     if decide (i = 0 ∧ 0 ≤ k) then pending_of <$> calls !! Z.to_nat k else None) →
  finish a = Ok calls.
Proof.
  intros Hkeys Hp. destruct (finish a) as [calls'|e] eqn:Hfin.
  2:{ apply finish_Err in Hfin as ([i k] & p & Hlk & He). rewrite Hp in Hlk. case_decide; [|done].
      apply fmap_Some in Hlk as (c & _ & ->). naive_solver. }
  apply finish_Ok in Hfin as (Hs & Hnd & Hin & _). f_equal.
  assert (∀ c, c ∈ calls' ↔ c ∈ calls) as Hmem.
  { intros c. rewrite Hin. destruct (call_key c) as [i k] eqn:Hk. rewrite Hp. split.
    - case_decide; [|done]. intros (c' & Hc' & Heq)%fmap_Some.
      assert (c = c') as ->; [|by eapply list_elem_of_lookup_2].
      pose proof (Hkeys _ _ Hc') as Hk'. unfold call_key, pending_of in *.
      destruct c, c'; simpl in *. simplify_eq. f_equal; lia.
    - intros [n Hn]%list_elem_of_lookup. pose proof (Hkeys _ _ Hn) as Hk'. rewrite Hk in Hk'.
      injection Hk' as -> ->. by rewrite decide_True, Nat2Z.id, Hn by lia. }
  destruct (numbered_sorted calls Hkeys) as [Hnd2 Hs2].
  apply (StronglySorted_unique_strong key_le); [| |done|].
  - intros x y Hx Hy. apply Hmem in Hx. apply list_elem_of_lookup in Hx as [i Hi].
    apply list_elem_of_lookup in Hy as [j Hj]. by eapply numbered_inj.
  - clear -Hs. induction calls' as [|c l IH]; csimpl in *; [constructor|].
    apply StronglySorted_cons in Hs as [Hc Hs]. constructor; [by apply IH|].
    exact (proj1 (Forall_fmap _ _ _) Hc).
  - apply NoDup_Permutation; [by apply NoDup_fmap_1 in Hnd|done..].
Qed.

(** ** Properties *)

(** Assembly is exact.  Fragments are accepted exactly when no call is given two
    different identifiers or two different names; the calls then come out in
    index order, one per index that was mentioned, each with the identifier and
    the name it was given and the concatenation of its own argument fragments in
    arrival order, however the fragments of different calls were interleaved; and
    the only error is a call that never received an identifier or a name. *)
Theorem tool_calls_assembled (fs : list ToolCallFragment) :
  (is_ok (push_all new fs).1 = true ↔ consistent fs) ∧
  (is_ok (push_all new fs).1 = true →
   match finish (push_all new fs).2 with
   | Ok calls =>
       StronglySorted pair_le (call_key <$> calls) ∧ NoDup (call_key <$> calls) ∧
       (∀ f, f ∈ fs → ∃ c, c ∈ calls ∧ call_key c = fragment_key f) ∧
       (∀ c, c ∈ calls →
          (∃ f, f ∈ fs ∧ fragment_key f = call_key c) ∧
          head (said fragment_id (call_key c) fs) = Some (call_id c) ∧
          head (said fragment_name (call_key c) fs) = Some (call_name c) ∧
          call_arguments c = joined (call_key c) fs)
   | Err (MissingMetadata i t field) =>
       (∃ f, f ∈ fs ∧ fragment_key f = (i, t)) ∧
       (field = "id"%string ∧ said fragment_id (i, t) fs = [] ∨
        field = "name"%string ∧ said fragment_name (i, t) fs = [])
   | Err (ConflictingMetadata _ _ _ _ _) => False
   end).
Proof.
  pose proof (push_all_reference fs) as Hp. destruct (push_all new fs) as [[[]|e] a]; simpl;
    [|split; [split; [done|naive_solver]|done]].
  destruct Hp as [Hc Href]. split; [done|]. intros _.
  destruct (finish a) as [calls|e] eqn:Hfin.
  - apply finish_Ok in Hfin as (Hs & Hnd & Hin & Hcov). split_and!; [done..| |].
    + intros f Hf. apply Hcov. rewrite Href. eexists. apply reference_Some. eauto.
    + intros c Hx. apply Hin in Hx. rewrite Href in Hx. apply reference_Some in Hx as (? & [= -> -> ->]).
      done.
  - apply finish_Err in Hfin as ([i t] & p & Hp & He). rewrite Href in Hp.
    apply reference_Some in Hp as (? & ->). simpl in He.
    destruct He as [[Hh ->]|[Hh ->]]; apply head_None in Hh; auto.
Qed.

End ToolCall.
