(* ===== verification/Anthropic.v ===== *)
(** * The Anthropic adapter ([crates/gateway-core/src/anthropic.rs]).

    Requests are translated from OpenAI chat completions to Anthropic messages,
    responses and event streams back again; [NativeMessagesDecoder] checks a
    native stream that is relayed as it is.

    JSON values and the base64/JSON encoding of signed thinking come from
    libraries: [SerdeJson] and [ThinkingCodec] are their interfaces. *)

From stdpp Require Import pretty.
From S2P Require Import Prelude Text Json Sse ProviderError Pricing Provider ToolCall.

Module Anthropic.
Import ProviderError.ProviderError (ProviderError, Unsupported, invalid_stream, rate_limited_stream,
  is_rate_limit_payload).
Import Pricing.Pricing Provider.Provider.
Import ToolCall.ToolCall (items, event_fragments, fragment_of, choice_fragments, string_app_nil,
  string_app_assoc, PendingToolCall, mkPending, ToolCallAssembler, pending, spoken, mkFragment, fragment_key,
  push_fragment, push_fresh, push_more, push_all, push_all_app, push_events, push_events_fragments,
  AssembledToolCall, mkAssembled, finish_numbered, pending_of).

Definition DEFAULT_MAX_TOKENS : Z := 4096.
Definition MIN_THINKING_BUDGET : Z := 1024.
Definition REASONING_DETAIL_FORMAT : string := "anthropic-claude-v1".
Definition VERSION : string := "2023-06-01".

Record SignedThinking := mkThinking { thinking : string; signature : string }.

#[global] Instance SignedThinking_eq_dec : EqDecision SignedThinking.
Proof. solve_decision. Defined.

(** [BASE64.encode(serde_json::to_vec(blocks))], and [BASE64.decode] followed by
    [serde_json::from_slice]. *)
Class ThinkingCodec := {
  thinking_encode : list SignedThinking → string;
  thinking_decode : string → option (list SignedThinking);
}.

Class ThinkingCodecLaws (C : ThinkingCodec) : Prop :=
  thinking_round_trip blocks : thinking_decode (thinking_encode blocks) = Some blocks.

Section Anthropic.
Context {J : SerdeJson} {C : ThinkingCodec}.

(** [v.get(k).and_then(Value::as_str)], and the same with [unwrap_or_default]. *)
Definition str_field (v : Value) (k : string) : option string := get v k ≫= as_str.
Definition str_or_default (v : Value) (k : string) : string := default "" (str_field v k).
Definition u64_field (v : Value) (k : string) : option Z := get v k ≫= as_u64.
(** [v.get(k).cloned().unwrap_or(Value::Null)] *)
Definition field_or_null (v : Value) (k : string) : Value := default Null (get v k).

(** ** Signed thinking *)

Definition encrypted_reasoning_detail (tool_call_id : string) (blocks : list SignedThinking) : Value :=
  {{ "type" ⇒ Str "reasoning.encrypted"; "id" ⇒ Str tool_call_id;
     "data" ⇒ Str (thinking_encode blocks); "format" ⇒ Str REASONING_DETAIL_FORMAT }}.

Definition is_encrypted_detail (detail : Value) : bool :=
  says (str_field detail "type") "reasoning.encrypted" &&
  match str_field detail "format" with
  | None => true
  | Some format => bool_decide (format = REASONING_DETAIL_FORMAT)
  end.

Definition signed_thinking_from_details (message : Value) : list SignedThinking :=
  mjoin (omap thinking_decode
    (omap (λ detail, str_field detail "data")
      (filter (λ detail, is_encrypted_detail detail = true)
        (items (get message "reasoning_details"))))).

Definition thinking_blocks_from_details (message : Value) : list Value :=
  (λ block, {{ "type" ⇒ Str "thinking"; "thinking" ⇒ Str (thinking block);
               "signature" ⇒ Str (signature block) }}) <$> signed_thinking_from_details message.

(** ** Usage *)

Definition anthropic_usage (value : Value) : ModelUsage := {|
  mu_input_tokens := default 0 (u64_field value "input_tokens");
  mu_output_tokens := default 0 (u64_field value "output_tokens");
  mu_reasoning_tokens := default 0 (u64_field value "reasoning_tokens");
  mu_cache_read_tokens := default 0 (u64_field value "cache_read_input_tokens");
  mu_cache_write_tokens := default 0 (u64_field value "cache_creation_input_tokens");
|}.

Definition native_message_usage (response : Value) : ModelUsage :=
  anthropic_usage (field_or_null response "usage").

Definition merge_anthropic_usage (usage : ModelUsage) (value : Value) : ModelUsage :=
  let next := anthropic_usage value in
  let pick field old new := match get value field with Some _ => new | None => old end in
  {| mu_input_tokens := pick "input_tokens" (mu_input_tokens usage) (mu_input_tokens next);
     mu_output_tokens := pick "output_tokens" (mu_output_tokens usage) (mu_output_tokens next);
     mu_reasoning_tokens :=
       pick "reasoning_tokens" (mu_reasoning_tokens usage) (mu_reasoning_tokens next);
     mu_cache_read_tokens :=
       pick "cache_read_input_tokens" (mu_cache_read_tokens usage) (mu_cache_read_tokens next);
     mu_cache_write_tokens :=
       pick "cache_creation_input_tokens" (mu_cache_write_tokens usage)
         (mu_cache_write_tokens next) |}%string.

Definition openai_usage (usage : ModelUsage) : Value :=
  {{ "prompt_tokens" ⇒ U64 (saturating_add U64_MAX
       (saturating_add U64_MAX (mu_input_tokens usage) (mu_cache_read_tokens usage))
       (mu_cache_write_tokens usage));
     "completion_tokens" ⇒ U64 (mu_output_tokens usage);
     "total_tokens" ⇒ U64 (total_tokens usage);
     "completion_tokens_details" ⇒ {{ "reasoning_tokens" ⇒ U64 (mu_reasoning_tokens usage) }};
     "prompt_tokens_details" ⇒ {{ "cached_tokens" ⇒ U64 (mu_cache_read_tokens usage);
                                  "cache_write_tokens" ⇒ U64 (mu_cache_write_tokens usage) }} }}.

Definition map_stop_reason (stop_reason : option string) (saw_tool_call : bool) : string :=
  if says stop_reason "tool_use" then "tool_calls"
  else if says stop_reason "max_tokens" then "length"
  else if saw_tool_call then "tool_calls" else "stop".

(** ** Requests *)

Definition thinking_budget (body : Value) (max_tokens : Z) : option Z :=
  effort ← str_field body "reasoning_effort";
  fraction ←
    (if decide (effort = "minimal"%string) then Some 10
     else if decide (effort = "low"%string) then Some 20
     else if decide (effort = "medium"%string) then Some 50
     else if decide (effort = "high"%string ∨ effort = "xhigh"%string) then Some 80
     else None);
  cap ← checked_sub max_tokens MIN_THINKING_BUDGET;
  if cap <? MIN_THINKING_BUDGET then None
  else
    let scaled := saturating_mul U64_MAX max_tokens fraction `div` 100 in
    Some (Z.min (Z.max scaled MIN_THINKING_BUDGET) cap).

Definition parse_tool (tool : Value) : option Value :=
  function ← get tool "function";
  name ← get function "name" ≫= as_str;
  let translated := {{ "name" ⇒ Str name }} in
  let translated :=
    match str_field function "description" with
    | Some description => insert_field translated "description" (Str description)
    | None => translated
    end in
  Some (insert_field translated "input_schema"
    (default {{ "type" ⇒ Str "object" }} (get function "parameters"))).

Definition parse_tools (body : Value) : option (list Value) :=
  tools ← get body "tools" ≫= as_array;
  match omap parse_tool tools with [] => None | tools => Some tools end.

Definition parse_tool_choice (body : Value) : option Value :=
  choice ← get body "tool_choice";
  match as_str choice with
  | Some choice =>
      if decide (choice = "auto"%string) then Some {{ "type" ⇒ Str "auto" }}
      else if decide (choice = "required"%string) then Some {{ "type" ⇒ Str "any" }}
      else if decide (choice = "none"%string) then Some {{ "type" ⇒ Str "none" }}
      else None
  | None =>
      if is_object choice then
        name ← pointer choice "/function/name" ≫= as_str;
        Some {{ "type" ⇒ Str "tool"; "name" ⇒ Str name }}
      else None
  end.

Definition parse_stop_sequences (body : Value) : option (list Value) :=
  stop ← get body "stop";
  match as_str stop with
  | Some stop => Some [Str stop]
  | None =>
      stops ← as_array stop;
      match filter (λ stop, is_string stop = true) stops with [] => None | stops => Some stops end
  end.

Definition content_text (content : option Value) : string :=
  match content with
  | None => ""
  | Some content =>
      match as_str content with
      | Some value => value
      | None =>
          foldr (λ s acc, s +:+ acc) "" (omap (λ part, str_field part "text") (items (Some content)))
      end
  end.

Definition image_block (url : string) : Value :=
  let by_url := {{ "type" ⇒ Str "image"; "source" ⇒ {{ "type" ⇒ Str "url"; "url" ⇒ Str url }} }} in
  match strip_prefix (b "data:") (b url) with
  | None => by_url
  | Some data =>
      match split_once "," data with
      | None => by_url
      | Some (metadata, payload) =>
          let media_type := match split_once ";" metadata with Some (m, _) => m | None => metadata end in
          {{ "type" ⇒ Str "image";
             "source" ⇒ {{ "type" ⇒ Str "base64"; "media_type" ⇒ Str (text media_type);
                           "data" ⇒ Str (text payload) }} }}
      end
  end.

Definition content_block (part : Value) : option Value :=
  let kind := str_field part "type" in
  if says kind "text" then
    t ← get part "text"; Some {{ "type" ⇒ Str "text"; "text" ⇒ t }}
  else if says kind "image_url" then
    url ← pointer part "/image_url/url" ≫= as_str; Some (image_block url)
  else None.

Definition content_blocks (content : option Value) : list Value :=
  match content with
  | None => []
  | Some content =>
      match as_str content with
      | Some value =>
          if decide (value = ""%string) then []
          else [ {{ "type" ⇒ Str "text"; "text" ⇒ Str value }} ]
      | None => omap content_block (items (Some content))
      end
  end.

Definition tool_use_block (call : Value) : Value :=
  let function := field_or_null call "function" in
  let input :=
    match str_field function "arguments" with
    | Some arguments => match from_str arguments with Ok v => v | Err _ => {{ }} end
    | None => {{ }}
    end in
  {{ "type" ⇒ Str "tool_use"; "id" ⇒ field_or_null call "id";
     "name" ⇒ field_or_null function "name"; "input" ⇒ input }}.

(** The blocks one message contributes. *)
Definition message_blocks (message : Value) (role : string) (thinking_enabled : bool) : list Value :=
  let blocks :=
    if decide (role = "tool"%string) then
      [ {{ "type" ⇒ Str "tool_result"; "tool_use_id" ⇒ field_or_null message "tool_call_id";
           "content" ⇒ Str (content_text (get message "content")) }} ]
    else content_blocks (get message "content") in
  if decide (role = "assistant"%string) then
    (if thinking_enabled then thinking_blocks_from_details message else []) ++ blocks ++
    (tool_use_block <$> items (get message "tool_calls"))
  else blocks.

(** [messages.last_mut()] extended in place, or a new message pushed. *)
Definition append_blocks (messages : list Value) (role : string) (blocks : list Value) : list Value :=
  let pushed := messages ++ [ {{ "role" ⇒ Str role; "content" ⇒ Array blocks }} ] in
  match reverse messages with
  | [] => pushed
  | previous :: earlier =>
      if says (str_field previous "role") role then
        match get previous "content" ≫= as_array with
        | Some content =>
            reverse earlier ++ [insert_field previous "content" (Array (content ++ blocks))]
        | None => pushed
        end
      else pushed
  end.

(** One turn of the loop over the messages. *)
Definition add_message (thinking_enabled : bool) (acc : string * list Value) (message : Value)
    : string * list Value :=
  let '(system, messages) := acc in
  let role := default "user"%string (str_field message "role") in
  if decide (role = "system"%string ∨ role = "developer"%string) then
    let t := content_text (get message "content") in
    if decide (t = ""%string) then (system, messages)
    else ((if decide (system = ""%string) then t else system +:+ String LF t), messages)
  else
    let output_role := if decide (role = "assistant"%string) then "assistant"%string else "user"%string in
    match message_blocks message role thinking_enabled with
    | [] => (system, messages)
    | blocks => (system, append_blocks messages output_role blocks)
    end.

Definition build_messages (body : Value) (thinking_enabled : bool) : string * list Value :=
  foldl (add_message thinking_enabled) (""%string, []) (items (get body "messages")).

(** [if let Some(value) = ... { request.insert(key, value) }] *)
Definition put (k : string) (o : option Value) (request : Value) : Value :=
  match o with Some v => insert_field request k v | None => request end.

Definition requested_max_tokens (body : Value) : Z :=
  default DEFAULT_MAX_TOKENS
    (or_else (get body "max_tokens") (get body "max_completion_tokens") ≫= as_u64).

Definition build_request (model : string) (body : Value) : Value :=
  let max_tokens := requested_max_tokens body in
  let thinking := thinking_budget body max_tokens in
  let '(system, messages) :=
    build_messages body (match thinking with Some _ => true | None => false end) in
  let request :=
    {{ "model" ⇒ Str model; "max_tokens" ⇒ U64 max_tokens; "messages" ⇒ Array [] }} in
  let request := insert_field request "messages" (Array messages) in
  let request := put "system" (if decide (system = ""%string) then None else Some (Str system)) request in
  let request :=
    match parse_tools body with
    | Some tools => put "tool_choice" (parse_tool_choice body) (insert_field request "tools" (Array tools))
    | None => request
    end in
  let request :=
    match thinking with
    | Some budget =>
        insert_field request "thinking" {{ "type" ⇒ Str "enabled"; "budget_tokens" ⇒ U64 budget }}
    | None => put "top_p" (get body "top_p") (put "temperature" (get body "temperature") request)
    end in
  let request := put "stop_sequences" (Array <$> parse_stop_sequences body) request in
  insert_field request "stream" (default (Bool false) (get body "stream")).

(** ** Responses *)

Record Content := mkContent {
  c_text : string;
  c_reasoning : string;
  c_signed : list SignedThinking;
  c_tool_calls : list Value;
}.

Definition response_tool_call (block : Value) : Value :=
  {{ "id" ⇒ field_or_null block "id"; "type" ⇒ Str "function";
     "function" ⇒ {{ "name" ⇒ field_or_null block "name";
                     "arguments" ⇒ Str (to_string (field_or_null block "input")) }} }}.

Definition add_block (c : Content) (block : Value) : Content :=
  let kind := str_field block "type" in
  if says kind "text" then
    mkContent (c_text c +:+ str_or_default block "text") (c_reasoning c) (c_signed c) (c_tool_calls c)
  else if says kind "thinking" then
    let t := str_or_default block "thinking" in
    mkContent (c_text c) (c_reasoning c +:+ t)
      (match str_field block "signature" with
       | Some signature => c_signed c ++ [mkThinking t signature]
       | None => c_signed c
       end) (c_tool_calls c)
  else if says kind "tool_use" then
    mkContent (c_text c) (c_reasoning c) (c_signed c) (c_tool_calls c ++ [response_tool_call block])
  else c.

Definition response_message (c : Content) : Value :=
  let message :=
    {{ "role" ⇒ Str "assistant";
       "content" ⇒ if decide (c_text c = ""%string) then Null else Str (c_text c) }} in
  let message :=
    if decide (c_reasoning c = ""%string) then message
    else insert_field message "reasoning_content" (Str (c_reasoning c)) in
  match c_tool_calls c with
  | [] => message
  | first :: _ =>
      let message :=
        match c_signed c with
        | [] => message
        | _ =>
            insert_field message "reasoning_details"
              (Array [encrypted_reasoning_detail (str_or_default first "id") (c_signed c)])
        end in
      insert_field message "tool_calls" (Array (c_tool_calls c))
  end.

Definition decode_chat_response (response : Value) : ProviderResponse :=
  let usage := native_message_usage response in
  let c := foldl add_block (mkContent "" "" [] []) (items (get response "content")) in
  let stop := str_field response "stop_reason" in
  let finish_reason :=
    if says stop "tool_use" then "tool_calls"%string
    else if says stop "max_tokens" then "length"%string else "stop"%string in
  {| response_body :=
       {{ "id" ⇒ field_or_null response "id"; "object" ⇒ Str "chat.completion";
          "model" ⇒ field_or_null response "model";
          "choices" ⇒ Array [ {{ "index" ⇒ U64 0; "message" ⇒ response_message c;
                                 "finish_reason" ⇒ Str finish_reason }} ];
          "usage" ⇒ openai_usage usage }};
     usage := usage |}.

(** ** Event streams *)

Record AnthropicStreamDecoder := mkDecoder {
  d_usage : ModelUsage;
  first_delta : bool;
  pending_thinking : gmap Z SignedThinking;
  completed_thinking : list SignedThinking;
  tool_blocks : gmap Z Z;
  next_tool_index : Z;
  thinking_attached : bool;
  saw_tool_call : bool;
  stop_reason : option string;
  terminal_emitted : bool;
  done : bool;
}.

Definition AnthropicStreamDecoder_default : AnthropicStreamDecoder :=
  mkDecoder ModelUsage_default false ∅ [] ∅ 0 false false None false false.

Definition set_usage d u := mkDecoder u (first_delta d) (pending_thinking d) (completed_thinking d)
  (tool_blocks d) (next_tool_index d) (thinking_attached d) (saw_tool_call d) (stop_reason d)
  (terminal_emitted d) (done d).
Definition set_first_delta d := mkDecoder (d_usage d) true (pending_thinking d) (completed_thinking d)
  (tool_blocks d) (next_tool_index d) (thinking_attached d) (saw_tool_call d) (stop_reason d)
  (terminal_emitted d) (done d).
Definition set_thinking d pending completed := mkDecoder (d_usage d) (first_delta d) pending completed
  (tool_blocks d) (next_tool_index d) (thinking_attached d) (saw_tool_call d) (stop_reason d)
  (terminal_emitted d) (done d).
Definition set_tools d blocks next saw := mkDecoder (d_usage d) (first_delta d) (pending_thinking d)
  (completed_thinking d) blocks next (thinking_attached d) saw (stop_reason d)
  (terminal_emitted d) (done d).
Definition set_attached d := mkDecoder (d_usage d) (first_delta d) (pending_thinking d)
  (completed_thinking d) (tool_blocks d) (next_tool_index d) true (saw_tool_call d) (stop_reason d)
  (terminal_emitted d) (done d).
Definition set_stop_reason d r := mkDecoder (d_usage d) (first_delta d) (pending_thinking d)
  (completed_thinking d) (tool_blocks d) (next_tool_index d) (thinking_attached d) (saw_tool_call d) r
  (terminal_emitted d) (done d).
Definition set_ended d terminal dn := mkDecoder (d_usage d) (first_delta d) (pending_thinking d)
  (completed_thinking d) (tool_blocks d) (next_tool_index d) (thinking_attached d) (saw_tool_call d)
  (stop_reason d) terminal dn.

Definition chunk (delta : Value) (finish_reason : Value) : list (string * Value) :=
  [("choices"%string, Array [ {{ "index" ⇒ U64 0; "delta" ⇒ delta; "finish_reason" ⇒ finish_reason }} ])].

(** [AnthropicStreamDecoder::data] *)
Definition delta_event (d : AnthropicStreamDecoder) (delta : Value)
    : ProviderStreamEvent * AnthropicStreamDecoder :=
  let '(delta, d) :=
    if first_delta d then (delta, d)
    else (if is_object delta then insert_field delta "role" (Str "assistant") else delta,
          set_first_delta d) in
  (Data None (Object (chunk delta Null)), d).

Definition terminal (d : AnthropicStreamDecoder) : ProviderStreamEvent :=
  let finish_reason := map_stop_reason (stop_reason d) (saw_tool_call d) in
  Data None (Object (chunk {{ }} (Str finish_reason) ++ [("usage"%string, openai_usage (d_usage d))])).

Definition emit (r : ProviderStreamEvent * AnthropicStreamDecoder)
    : result ProviderError (list ProviderStreamEvent) * AnthropicStreamDecoder :=
  (Ok [r.1], r.2).

Definition content_block_start (d : AnthropicStreamDecoder) (data : Value)
    : result ProviderError (list ProviderStreamEvent) * AnthropicStreamDecoder :=
  let index := default 0 (u64_field data "index") in
  let block := field_or_null data "content_block" in
  let kind := str_field block "type" in
  if says kind "thinking" then
    (Ok [], set_thinking d
       (<[index := mkThinking (str_or_default block "thinking") (str_or_default block "signature")]>
          (pending_thinking d)) (completed_thinking d))
  else if says kind "tool_use" then
    let tool_index := next_tool_index d in
    let d := set_tools d (<[index := tool_index]> (tool_blocks d))
               (saturating_add U64_MAX (next_tool_index d) 1) true in
    let id := str_or_default block "id" in
    let delta :=
      {{ "tool_calls" ⇒ Array [
           {{ "index" ⇒ U64 tool_index; "id" ⇒ Str id; "type" ⇒ Str "function";
              "function" ⇒ {{ "name" ⇒ Str (str_or_default block "name"); "arguments" ⇒ Str "" }} }} ] }} in
    let '(delta, d) :=
      match thinking_attached d, completed_thinking d with
      | false, _ :: _ =>
          (insert_field delta "reasoning_details"
             (Array [encrypted_reasoning_detail id (completed_thinking d)]), set_attached d)
      | _, _ => (delta, d)
      end in
    emit (delta_event d delta)
  else (Ok [], d).

Definition thinking_entry (d : AnthropicStreamDecoder) (index : Z) : SignedThinking :=
  default (mkThinking "" "") (pending_thinking d !! index).

Definition content_block_delta (d : AnthropicStreamDecoder) (data : Value)
    : result ProviderError (list ProviderStreamEvent) * AnthropicStreamDecoder :=
  let index := default 0 (u64_field data "index") in
  let delta := field_or_null data "delta" in
  let kind := str_field delta "type" in
  if says kind "text_delta" then
    emit (delta_event d {{ "content" ⇒ Str (str_or_default delta "text") }})
  else if says kind "thinking_delta" then
    let t := str_or_default delta "thinking" in
    let entry := thinking_entry d index in
    let d := set_thinking d
      (<[index := mkThinking (thinking entry +:+ t) (signature entry)]> (pending_thinking d))
      (completed_thinking d) in
    emit (delta_event d {{ "reasoning_content" ⇒ Str t }})
  else if says kind "signature_delta" then
    let entry := thinking_entry d index in
    (Ok [], set_thinking d
       (<[index := mkThinking (thinking entry)
                     (signature entry +:+ str_or_default delta "signature")]> (pending_thinking d))
       (completed_thinking d))
  else if says kind "input_json_delta" then
    match tool_blocks d !! index with
    | None =>
        (Err (invalid_stream ("input_json_delta for unknown content block " +:+ pretty index)), d)
    | Some tool_index =>
        emit (delta_event d
          {{ "tool_calls" ⇒ Array [
               {{ "index" ⇒ U64 tool_index;
                  "function" ⇒ {{ "arguments" ⇒ Str (str_or_default delta "partial_json") }} }} ] }})
    end
  else (Ok [], d).

Definition content_block_stop (d : AnthropicStreamDecoder) (data : Value) : AnthropicStreamDecoder :=
  let index := default 0 (u64_field data "index") in
  let completed :=
    match pending_thinking d !! index with
    | Some t =>
        if decide (signature t = ""%string) then completed_thinking d else completed_thinking d ++ [t]
    | None => completed_thinking d
    end in
  let d := set_thinking d (delete index (pending_thinking d)) completed in
  set_tools d (delete index (tool_blocks d)) (next_tool_index d) (saw_tool_call d).

Definition message_delta (d : AnthropicStreamDecoder) (data : Value) : AnthropicStreamDecoder :=
  let d := set_usage d (merge_anthropic_usage (d_usage d) (field_or_null data "usage")) in
  let d :=
    match pointer data "/delta/stop_reason" ≫= as_str with
    | Some reason => set_stop_reason d (Some reason)
    | None => d
    end in
  set_ended d true (done d).

(** The events [message_stop] and [finish] have in common. *)
Definition closing (d : AnthropicStreamDecoder) : list ProviderStreamEvent :=
  (if terminal_emitted d then [] else [terminal d]) ++ (if done d then [] else [Done (d_usage d)]).

(** The event name, unless the data names another type. *)
Definition event_kind (e : SseEvent) (data_type : option string) : option (option string) :=
  match event e, data_type with
  | Some event_name, Some data_type =>
      if decide (event_name = data_type) then Some (Some event_name) else None
  | Some event_name, None => Some (Some event_name)
  | None, _ => Some data_type
  end.

Definition decode_event (d : AnthropicStreamDecoder) (e : SseEvent)
    : result ProviderError (list ProviderStreamEvent) * AnthropicStreamDecoder :=
  match from_str (data e) with
  | Err error => (Err (invalid_stream error), d)
  | Ok data =>
      match event_kind e (str_field data "type") with
      | None => (Err (invalid_stream "Anthropic SSE event name disagrees with data.type"), d)
      | Some kind =>
          if says kind "message_start" then
            (Ok [], set_usage d
               (merge_anthropic_usage (d_usage d) (default Null (pointer data "/message/usage"))))
          else if says kind "content_block_start" then content_block_start d data
          else if says kind "content_block_delta" then content_block_delta d data
          else if says kind "content_block_stop" then (Ok [], content_block_stop d data)
          else if says kind "message_delta" then
            let d := message_delta d data in (Ok [terminal d], d)
          else if says kind "message_stop" then (Ok (closing d), set_ended d true true)
          else if says kind "error" then
            let message :=
              default "Anthropic stream error"%string (pointer data "/error/message" ≫= as_str) in
            (Err (if is_rate_limit_payload data then rate_limited_stream message
                  else invalid_stream message), d)
          else (Ok [], d)
      end
  end.

Definition decoder_finish (d : AnthropicStreamDecoder)
    : result ProviderError (list ProviderStreamEvent) * AnthropicStreamDecoder :=
  if done d then (Ok [], d) else (Ok (closing d), set_ended d true true).

#[global] Instance AnthropicStreamDecoder_impl : ProviderStreamDecoder AnthropicStreamDecoder :=
  {| decode := decode_event; finish := decoder_finish |}.

(** ** The adapter *)

Inductive AnthropicAdapter := anthropic_adapter.

#[global] Instance AnthropicAdapter_impl : ProviderAdapter AnthropicAdapter := {|
  name := λ _, "anthropic"%string;
  capabilities := λ _, mkCapabilities true false true true false;
  encode_request := λ _ surface request,
    match surface with
    | ChatCompletions => Ok (build_request (model request) (body request))
    | Responses => Err (Unsupported
        "Anthropic supports chat completions through the native Messages adapter")
    end;
  decode_response := λ _ surface response,
    match surface with
    | ChatCompletions => Ok (decode_chat_response response)
    | Responses => Err (Unsupported "Anthropic Responses API")
    end;
  stream_decoder := λ _ surface,
    match surface with
    | ChatCompletions => Ok (mkBoxed _ AnthropicStreamDecoder_impl AnthropicStreamDecoder_default)
    | Responses => Err (Unsupported "Anthropic Responses API")
    end;
|}.

(** The chunks of a translated stream carry no event name. *)
Definition unnamed (e : ProviderStreamEvent) : Prop :=
  match e with Data (Some _) _ => False | _ => True end.

Lemma closing_unnamed d : Forall unnamed (closing d).
Proof. unfold closing. destruct (terminal_emitted d), (done d); repeat constructor. Qed.

Lemma delta_unnamed d delta out d' : emit (delta_event d delta) = (Ok out, d') → Forall unnamed out.
Proof. unfold delta_event. destruct (first_delta d); intros [= <- <-]; repeat constructor. Qed.

Lemma decode_unnamed d e out d' : decode_event d e = (Ok out, d') → Forall unnamed out.
Proof.
  unfold decode_event. destruct (from_str (data e)) as [v|]; [|done]. destruct (event_kind _ _) as [kind|]; [|done].
  destruct (says kind "message_start"); [by intros [= <- _]|].
  destruct (says kind "content_block_start").
  { unfold content_block_start. destruct (says _ "thinking"); [by intros [= <- _]|].
    destruct (says _ "tool_use"); [|by intros [= <- _]]. cbv zeta.
    repeat case_match; simplify_eq; apply delta_unnamed. }
  destruct (says kind "content_block_delta").
  { unfold content_block_delta. destruct (says _ "text_delta"); [apply delta_unnamed|].
    destruct (says _ "thinking_delta"); [apply delta_unnamed|].
    destruct (says _ "signature_delta"); [by intros [= <- _]|].
    destruct (says _ "input_json_delta"); [|by intros [= <- _]].
    case_match; [apply delta_unnamed|done]. }
  destruct (says kind "content_block_stop"); [by intros [= <- _]|].
  destruct (says kind "message_delta"); [intros [= <- _]; repeat constructor|].
  destruct (says kind "message_stop"); [intros [= <- _]; apply closing_unnamed|].
  destruct (says kind "error"); [done|by intros [= <- _]].
Qed.

Lemma finish_unnamed d out d' : decoder_finish d = (Ok out, d') → Forall unnamed out.
Proof. unfold decoder_finish. destruct (done d); intros [= <- _]; [done|apply closing_unnamed]. Qed.

(** ** What a stream says

    [transcribe] reads an Anthropic stream for what the model said: its text, its
    reasoning and its tool calls with their raw arguments.  It is the reference
    the translated chunks are compared with.  A block is taken to start empty, as
    the provider's own streams do and the decoder relies on: text, thinking or
    input that a [content_block_start] carried would be in neither. *)

Record Call := mkCall { id : string; tool : string; input : string }.

Record Transcript := mkTranscript {
  t_text : string;
  t_reasoning : string;
  t_calls : list Call;
  t_open : gmap Z nat;
}.

Definition Transcript_empty : Transcript := mkTranscript "" "" [] ∅.

Definition with_input (more : string) (c : Call) : Call := mkCall (id c) (tool c) (input c +:+ more).

Definition transcribe_delta (t : Transcript) (index : Z) (delta : Value) : Transcript :=
  let kind := str_field delta "type" in
  if says kind "text_delta" then
    mkTranscript (t_text t +:+ str_or_default delta "text") (t_reasoning t) (t_calls t) (t_open t)
  else if says kind "thinking_delta" then
    mkTranscript (t_text t) (t_reasoning t +:+ str_or_default delta "thinking") (t_calls t) (t_open t)
  else if says kind "input_json_delta" then
    match t_open t !! index with
    | Some k =>
        mkTranscript (t_text t) (t_reasoning t)
          (alter (with_input (str_or_default delta "partial_json")) k (t_calls t)) (t_open t)
    | None => t
    end
  else t.

Definition transcribe (t : Transcript) (e : SseEvent) : Transcript :=
  match from_str (data e) with
  | Err _ => t
  | Ok data =>
      let kind := or_else (event e) (str_field data "type") in
      let index := default 0 (u64_field data "index") in
      if says kind "content_block_start" then
        let block := field_or_null data "content_block" in
        if says (str_field block "type") "tool_use" then
          mkTranscript (t_text t) (t_reasoning t)
            (t_calls t ++ [mkCall (str_or_default block "id") (str_or_default block "name") ""])
            (<[index := length (t_calls t)]> (t_open t))
        else t
      else if says kind "content_block_delta" then
        transcribe_delta t index (field_or_null data "delta")
      else if says kind "content_block_stop" then
        mkTranscript (t_text t) (t_reasoning t) (t_calls t) (delete index (t_open t))
      else t
  end.

(** The text of one field of the deltas of a chunk. *)
Definition delta_text (k : string) (e : ProviderStreamEvent) : string :=
  match e with
  | Done _ => ""
  | Data _ data =>
      foldr (λ choice s, str_or_default (field_or_null choice "delta") k +:+ s) ""
        (items (get data "choices"))
  end.

Definition stream_text (k : string) (es : list ProviderStreamEvent) : string :=
  foldr (λ e s, delta_text k e +:+ s) "" es.

Section Laws.
Context {L : SerdeJsonLaws J}.

Lemma set_first_delta_tools d delta :
  tool_blocks (delta_event d delta).2 = tool_blocks d ∧
  next_tool_index (delta_event d delta).2 = next_tool_index d.
Proof. unfold delta_event. by destruct (first_delta d). Qed.

(** A delta chunk has the fields of the delta, the role apart. *)
Lemma delta_event_reads d delta :
  is_object delta = true →
  event_fragments (delta_event d delta).1 = fragment_of 0 <$> items (get delta "tool_calls") ∧
  (∀ k, k ≠ "role"%string → delta_text k (delta_event d delta).1 = str_or_default delta k).
Proof.
  intros Hobj.
  assert (∀ delta', (∀ k, k ≠ "role"%string → get delta' k = get delta k) →
    event_fragments (Data None (Object (chunk delta' Null))) =
      fragment_of 0 <$> items (get delta "tool_calls") ∧
    ∀ k, k ≠ "role"%string →
      delta_text k (Data None (Object (chunk delta' Null))) = str_or_default delta k) as Hd.
  { intros delta' Hget. unfold event_fragments, delta_text, chunk, items. json_simpl. split.
    - rewrite app_nil_r. unfold choice_fragments. json_simpl.
      change "/delta/tool_calls"%string with ("/" +:+ "delta" +:+ "/" +:+ "tool_calls")%string.
      rewrite pointer_two by done. json_simpl. by rewrite Hget.
    - intros k Hk. unfold field_or_null. json_simpl.
      unfold str_or_default, str_field. rewrite Hget by done. apply string_app_nil. }
  unfold delta_event. destruct (first_delta d); simpl; [by apply Hd|].
  rewrite Hobj. apply Hd. intros k Hk. by rewrite get_insert_ne.
Qed.

Definition pending_call (c : Call) : PendingToolCall :=
  mkPending (spoken (Some (id c))) (spoken (Some (tool c))) (input c).

(** The decoder and an assembler fed with its chunks follow the transcript. *)
Record follows (d : AnthropicStreamDecoder) (t : Transcript) (a : ToolCallAssembler) : Prop := {
  f_blocks : tool_blocks d = Z.of_nat <$> t_open t;
  f_next : next_tool_index d = Z.of_nat (length (t_calls t));
  f_open i k : t_open t !! i = Some k → (k < length (t_calls t))%nat;
  f_pending i k :
    pending a !! (i, k) =
    if decide (i = 0 ∧ 0 ≤ k) then pending_call <$> t_calls t !! Z.to_nat k else None;
}.

Lemma follows_tools d d' t a :
  follows d t a → tool_blocks d' = tool_blocks d → next_tool_index d' = next_tool_index d →
  follows d' t a.
Proof. intros [] ??. split; congruence || done. Qed.

Lemma follows_text d t a s r : follows d t a → follows d (mkTranscript s r (t_calls t) (t_open t)) a.
Proof. by intros []. Qed.

Lemma event_kind_name e o kind : event_kind e o = Some kind → kind = or_else (event e) o.
Proof. unfold event_kind. destruct (event e), o; try case_decide; by intros [= <-]. Qed.

(** A chunk with one tool call, as [fragment_of] reads it. *)
Lemma call_fragment k id' name' args :
  is_u64 k →
  fragment_of 0 {{ "index" ⇒ U64 k; "id" ⇒ Str id'; "type" ⇒ Str "function";
                   "function" ⇒ {{ "name" ⇒ Str name'; "arguments" ⇒ Str args }} }} =
    mkFragment 0 k (Some id') (Some name') args ∧
  fragment_of 0 {{ "index" ⇒ U64 k; "function" ⇒ {{ "arguments" ⇒ Str args }} }} =
    mkFragment 0 k None None args.
Proof.
  intros Hk. unfold fragment_of.
  change "/function/name"%string with ("/" +:+ "function" +:+ "/" +:+ "name")%string.
  change "/function/arguments"%string with ("/" +:+ "function" +:+ "/" +:+ "arguments")%string.
  rewrite !pointer_two by done. split; by json_simpl.
Qed.

Lemma follows_start d t a index i n d' :
  follows d t a → tool_blocks d' = <[index := next_tool_index d]> (tool_blocks d) →
  next_tool_index d' = next_tool_index d + 1 →
  ∃ a', push_fragment a (mkFragment 0 (next_tool_index d) (Some i) (Some n) "") = (Ok tt, a') ∧
    follows d' (mkTranscript (t_text t) (t_reasoning t) (t_calls t ++ [mkCall i n ""])
                  (<[index := length (t_calls t)]> (t_open t))) a'.
Proof.
  intros [Hb Hn Ho Hp] Hb' Hn'. rewrite push_fresh; simpl.
  2:{ unfold fragment_key. simpl. rewrite Hp. case_decide; [|done]. rewrite Hn, Nat2Z.id.
      by rewrite lookup_ge_None_2. }
  eexists. split; [done|]. split; simpl.
  - by rewrite Hb', Hb, fmap_insert, Hn.
  - rewrite Hn', Hn, length_app. simpl. lia.
  - intros j k. rewrite length_app, lookup_insert. simpl. case_decide; intros; simplify_eq; [lia|].
    assert (k < length (t_calls t))%nat by by eapply Ho. lia.
  - intros j k. unfold fragment_key. simpl. rewrite Hn. destruct (decide (j = 0 ∧ 0 ≤ k)) as [[-> Hk]|Hk].
    + destruct (decide (Z.of_nat (length (t_calls t)) = k)) as [<-|Hne].
      * rewrite lookup_insert_eq, Nat2Z.id, list_lookup_middle by done. done.
      * rewrite lookup_insert_ne by congruence. rewrite Hp, decide_True by done.
        destruct (decide (Z.to_nat k < length (t_calls t))%nat).
        { by rewrite lookup_app_l. }
        rewrite !lookup_ge_None_2; [done|rewrite length_app; simpl; lia|lia].
    + rewrite lookup_insert_ne by (intros [=]; lia). by rewrite Hp, decide_False.
Qed.

Lemma follows_input d t a k i more :
  follows d t a → t_open t !! i = Some k →
  ∃ a', push_fragment a (mkFragment 0 (Z.of_nat k) None None more) = (Ok tt, a') ∧
    follows d (mkTranscript (t_text t) (t_reasoning t) (alter (with_input more) k (t_calls t))
                 (t_open t)) a'.
Proof.
  intros [Hb Hn Ho Hp] Hi.
  destruct (lookup_lt_is_Some_2 (t_calls t) k) as [c Hc]; [by eapply Ho|].
  rewrite (push_more _ _ (pending_call c)); [|unfold fragment_key; simpl|done..].
  2:{ by rewrite Hp, decide_True, Nat2Z.id, Hc by lia. }
  eexists. split; [done|]. split; simpl; [done|by rewrite length_alter|..].
  - intros j k'. rewrite length_alter. apply Ho.
  - intros j k'. unfold fragment_key. simpl. destruct (decide ((0, Z.of_nat k) = (j, k'))) as [[= <- <-]|Hne].
    + rewrite lookup_insert_eq, (decide_True (P := 0 = 0 ∧ _)), Nat2Z.id by lia.
      by rewrite list_lookup_alter_eq, Hc.
    + rewrite lookup_insert_ne by done. rewrite Hp. case_decide as Hjk; [|done]. f_equal.
      rewrite list_lookup_alter_ne; [done|]. intros ->. apply Hne. f_equal; lia.
Qed.

Lemma items_Array l : items (Some (Array l)) = l.
Proof. unfold items. simpl. by rewrite as_array_Array. Qed.

Lemma str_absent v k : get v k = None → str_or_default v k = ""%string.
Proof. intros H. unfold str_or_default, str_field. by rewrite H. Qed.

Lemma str_present v k s : get v k = Some (Str s) → str_or_default v k = s.
Proof. intros H. unfold str_or_default, str_field. rewrite H. simpl. by rewrite as_str_Str. Qed.

Lemma emit_reads d delta out d' :
  emit (delta_event d delta) = (Ok out, d') → is_object delta = true →
  out ≫= event_fragments = fragment_of 0 <$> items (get delta "tool_calls") ∧
  stream_text "content" out = str_or_default delta "content" ∧
  stream_text "reasoning_content" out = str_or_default delta "reasoning_content" ∧
  tool_blocks d' = tool_blocks d ∧ next_tool_index d' = next_tool_index d.
Proof.
  intros [= <- <-] Hobj. destruct (delta_event_reads d delta Hobj) as [Hf Ht].
  csimpl. rewrite app_nil_r, !string_app_nil, !Ht by done. split_and!; [done..| |]; apply set_first_delta_tools.
Qed.

(** What one step has to show. *)
Definition step_ok (t t' : Transcript) (a : ToolCallAssembler) (d' : AnthropicStreamDecoder)
    (out : list ProviderStreamEvent) : Prop :=
  ∃ a', push_all a (out ≫= event_fragments) = (Ok tt, a') ∧ follows d' t' a' ∧
    t_text t' = t_text t +:+ stream_text "content" out ∧
    t_reasoning t' = t_reasoning t +:+ stream_text "reasoning_content" out.

Lemma step_quiet d d' t a :
  follows d t a → tool_blocks d' = tool_blocks d → next_tool_index d' = next_tool_index d →
  step_ok t t a d' [].
Proof.
  intros Hf Hb Hn. exists a. simpl. rewrite !string_app_nil. split_and!; try done. by eapply follows_tools.
Qed.

Lemma step_start d t a data out d' :
  follows d t a → Z.of_nat (length (t_calls t)) < U64_MAX →
  content_block_start d data = (Ok out, d') →
  let block := field_or_null data "content_block" in
  step_ok t
    (if says (str_field block "type") "tool_use" then
       mkTranscript (t_text t) (t_reasoning t)
         (t_calls t ++ [mkCall (str_or_default block "id") (str_or_default block "name") ""])
         (<[default 0 (u64_field data "index") := length (t_calls t)]> (t_open t))
     else t) a d' out.
Proof.
  intros Hf Hlen. unfold content_block_start. set (block := field_or_null data "content_block").
  destruct (says (str_field block "type") "thinking") eqn:Ht.
  { apply says_true in Ht as ->. intros [= <- <-]. by eapply step_quiet. }
  destruct (says (str_field block "type") "tool_use") eqn:Hu; [|intros [= <- <-]; by eapply step_quiet].
  set (index := default 0 (u64_field data "index")).
  set (d1 := set_tools d _ _ _).
  destruct (follows_start d t a index (str_or_default block "id") (str_or_default block "name") d1)
    as (a' & Hpush & Hf'); [done|done| |].
  { pose proof (f_next _ _ _ Hf) as Hn. unfold d1. simpl. rewrite Hn, saturating_add_exact; width_lia. }
  assert (is_u64 (next_tool_index d)) as Hw by (rewrite (f_next _ _ _ Hf); width_lia).
  assert (∀ delta d2, is_object delta = true →
    get delta "tool_calls" = Some (Array [
      {{ "index" ⇒ U64 (next_tool_index d); "id" ⇒ Str (str_or_default block "id");
         "type" ⇒ Str "function";
         "function" ⇒ {{ "name" ⇒ Str (str_or_default block "name"); "arguments" ⇒ Str "" }} }} ]) →
    get delta "content" = None → get delta "reasoning_content" = None →
    tool_blocks d2 = tool_blocks d1 → next_tool_index d2 = next_tool_index d1 →
    emit (delta_event d2 delta) = (Ok out, d') →
    step_ok t (mkTranscript (t_text t) (t_reasoning t)
      (t_calls t ++ [mkCall (str_or_default block "id") (str_or_default block "name") ""])
      (<[index := length (t_calls t)]> (t_open t))) a d' out) as Hemit.
  { intros delta d2 Hobj Hcalls Hc Hr Hb Hn Hd. apply emit_reads in Hd as (Hfr & Htx & Hre & Hb' & Hn'); [|done].
    exists a'. rewrite Hfr, Htx, Hre, Hcalls, items_Array, (str_absent _ _ Hc), (str_absent _ _ Hr).
    cbn [fmap list_fmap push_all]. rewrite (proj1 (call_fragment _ _ _ _ Hw)), Hpush, !string_app_nil.
    split_and!; try done. eapply follows_tools; [done|congruence..]. }
  destruct (thinking_attached d1), (completed_thinking d1); intros Hd;
    (eapply Hemit; [..|exact Hd]); try done; by json_simpl.
Qed.

Lemma step_delta d t a data out d' :
  follows d t a → Z.of_nat (length (t_calls t)) < U64_MAX →
  content_block_delta d data = (Ok out, d') →
  step_ok t (transcribe_delta t (default 0 (u64_field data "index")) (field_or_null data "delta")) a d' out.
Proof.
  intros Hf Hlen. unfold content_block_delta, transcribe_delta.
  set (delta := field_or_null data "delta"). set (index := default 0 (u64_field data "index")).
  destruct (says (str_field delta "type") "text_delta") eqn:H1; [|
  destruct (says (str_field delta "type") "thinking_delta") eqn:H2; [|
  destruct (says (str_field delta "type") "signature_delta") eqn:H3; [|
  destruct (says (str_field delta "type") "input_json_delta") eqn:H4]]].
  - intros Hd. apply emit_reads in Hd as (Hfr & Htx & Hre & Hb & Hn); [|apply is_object_Object].
    rewrite (str_present _ _ (str_or_default delta "text")) in Htx by by json_simpl.
    rewrite str_absent in Hre by by json_simpl. rewrite (get_skip "tool_calls"), get_empty in Hfr by (closed_nodup || done).
    exists a. rewrite Hfr, Htx, Hre. rewrite !string_app_nil. split_and!; try done.
    eapply follows_tools; [by apply follows_text|done..].
  - intros Hd. apply emit_reads in Hd as (Hfr & Htx & Hre & Hb & Hn); [|apply is_object_Object].
    rewrite (str_present _ _ (str_or_default delta "thinking")) in Hre by by json_simpl.
    rewrite str_absent in Htx by by json_simpl. rewrite (get_skip "tool_calls"), get_empty in Hfr by (closed_nodup || done).
    exists a. rewrite Hfr, Htx, Hre. rewrite !string_app_nil. split_and!; try done.
    eapply follows_tools; [by apply follows_text|done..].
  - apply says_true in H3 as ->. intros [= <- <-]. by eapply step_quiet.
  - rewrite (f_blocks _ _ _ Hf), lookup_fmap. destruct (t_open t !! index) as [k|] eqn:Hk; simpl; [|done].
    intros Hd. apply emit_reads in Hd as (Hfr & Htx & Hre & Hb & Hn); [|apply is_object_Object].
    rewrite str_absent in Htx by by json_simpl. rewrite str_absent in Hre by by json_simpl.
    rewrite get_hit, items_Array in Hfr by closed_nodup. csimpl in Hfr.
    destruct (follows_input d t a k index (str_or_default delta "partial_json") Hf Hk) as (a' & Hpush & Hf').
    assert (is_u64 (Z.of_nat k)) as Hw by (pose proof (f_open _ _ _ Hf _ _ Hk); width_lia).
    rewrite (proj2 (call_fragment _ "" "" _ Hw)) in Hfr.
    exists a'. rewrite Hfr, Htx, Hre. cbn [push_all]. rewrite Hpush, !string_app_nil.
    split_and!; try done. by eapply follows_tools.
  - intros [= <- <-]. by eapply step_quiet.
Qed.

Lemma terminal_reads d : event_fragments (terminal d) = [] ∧ ∀ k, delta_text k (terminal d) = ""%string.
Proof.
  unfold terminal, event_fragments, delta_text, chunk, items. simpl. json_simpl. split.
  - unfold choice_fragments, items.
    change "/delta/tool_calls"%string with ("/" +:+ "delta" +:+ "/" +:+ "tool_calls")%string.
    rewrite pointer_two by done. by json_simpl.
  - intros k. unfold field_or_null. json_simpl. by rewrite str_absent by apply get_empty.
Qed.

Lemma step_silent d d' t a out :
  follows d t a → tool_blocks d' = tool_blocks d → next_tool_index d' = next_tool_index d →
  out ≫= event_fragments = [] → (∀ k, stream_text k out = ""%string) → step_ok t t a d' out.
Proof.
  intros Hf Hb Hn Hfr Ht. exists a. rewrite Hfr, !Ht, !string_app_nil. split_and!; try done.
  by eapply follows_tools.
Qed.

Lemma closing_silent d :
  closing d ≫= event_fragments = [] ∧ ∀ k, stream_text k (closing d) = ""%string.
Proof.
  destruct (terminal_reads d) as [Hf Ht]. unfold closing.
  destruct (terminal_emitted d), (done d);
    (split; [cbn [app mbind list_bind]; by rewrite ?Hf
            |intros k; unfold stream_text; cbn [app foldr]; by rewrite ?Ht]).
Qed.

Lemma message_delta_tools d data :
  tool_blocks (message_delta d data) = tool_blocks d ∧
  next_tool_index (message_delta d data) = next_tool_index d.
Proof. unfold message_delta. by destruct (pointer data "/delta/stop_reason" ≫= as_str). Qed.

Lemma step_follows d t a e out d' :
  follows d t a → Z.of_nat (length (t_calls t)) < U64_MAX → decode_event d e = (Ok out, d') →
  step_ok t (transcribe t e) a d' out.
Proof.
  intros Hf Hlen. unfold decode_event, transcribe. destruct (from_str (data e)) as [v|err]; [|done].
  destruct (event_kind e _) as [kind|] eqn:Hk; [|done]. apply event_kind_name in Hk as <-.
  destruct (says kind "message_start") eqn:H1.
  { apply says_true in H1 as ->. intros [= <- <-]. by eapply step_quiet. }
  destruct (says kind "content_block_start") eqn:H2; [by apply step_start|].
  destruct (says kind "content_block_delta") eqn:H3; [by apply step_delta|].
  destruct (says kind "content_block_stop") eqn:H4.
  { intros [= <- <-]. exists a. rewrite !string_app_nil. split_and!; try done.
    destruct Hf as [Hb Hn Ho Hp]. split; simpl; [by rewrite Hb, fmap_delete|done| |done].
    intros i k Hi. eapply Ho. by apply lookup_delete_Some in Hi as [_ Hi]. }
  destruct (says kind "message_delta") eqn:H5.
  { intros [= <- <-]. destruct (message_delta_tools d v), (terminal_reads (message_delta d v)) as [Hfr Ht].
    eapply step_silent; [done..| |]; [cbn [mbind list_bind]; by rewrite Hfr|].
    intros k. unfold stream_text. cbn [foldr]. by rewrite Ht. }
  destruct (says kind "message_stop") eqn:H6.
  { intros [= <- <-]. destruct (closing_silent d). by eapply step_silent. }
  destruct (says kind "error"); [done|]. intros [= <- <-]. by eapply step_quiet.
Qed.

Lemma transcribe_calls t e : (length (t_calls (transcribe t e)) ≤ S (length (t_calls t)))%nat.
Proof.
  unfold transcribe, transcribe_delta. repeat case_match; simpl; rewrite ?length_app, ?length_alter; simpl; lia.
Qed.

Lemma stream_text_app k l l' : stream_text k (l ++ l') = stream_text k l +:+ stream_text k l'.
Proof.
  induction l as [|e l IH]; [done|]. simpl. by rewrite IH, string_app_assoc.
Qed.

Lemma stream_follows events d t a outs d' :
  follows d t a → Z.of_nat (length (t_calls t) + length events) ≤ U64_MAX →
  decode_all d events = (Ok outs, d') →
  step_ok t (foldl transcribe t events) a d' outs.
Proof.
  revert d t a outs. induction events as [|e events IH]; intros d t a outs Hf Hlen; simpl.
  { intros [= <- <-]. by eapply step_quiet. }
  destruct (decode_event d e) as [[out|err] d1] eqn:He; [|done].
  destruct (decode_all d1 events) as [[outs1|err] d2] eqn:Hall; [|done]. intros [= <- <-].
  simpl in Hlen. apply (step_follows d t a) in He as (a1 & Hp1 & Hf1 & Ht1 & Hr1); [|done|lia].
  pose proof (transcribe_calls t e).
  apply (IH d1 (transcribe t e) a1) in Hall as (a2 & Hp2 & Hf2 & Ht2 & Hr2); [|done|lia].
  exists a2. rewrite bind_app, push_all_app, Hp1, !stream_text_app.
  split_and!; [done..| |]; by rewrite ?Ht2, ?Hr2, ?Ht1, ?Hr1, string_app_assoc.
Qed.

(** *** The end of a stream *)

Definition stream_kind (e : SseEvent) (v : Value) : option string :=
  or_else (event e) (str_field v "type").

Definition is_stop (e : SseEvent) : bool :=
  match from_str (data e) with Ok v => says (stream_kind e v) "message_stop" | Err _ => false end.

(** What an event adds to the usage reported so far. *)
Definition reported_usage (u : ModelUsage) (e : SseEvent) : ModelUsage :=
  match from_str (data e) with
  | Err _ => u
  | Ok v =>
      if says (stream_kind e v) "message_start" then
        merge_anthropic_usage u (default Null (pointer v "/message/usage"))
      else if says (stream_kind e v) "message_delta" then
        merge_anthropic_usage u (field_or_null v "usage")
      else u
  end.

(** The events before the first [message_stop]. *)
Fixpoint before_stop (events : list SseEvent) : list SseEvent :=
  match events with
  | [] => []
  | e :: events => if is_stop e then [] else e :: before_stop events
  end.

(** A chunk that states why generation ended. *)
Definition finishes (e : ProviderStreamEvent) : Prop :=
  match e with
  | Done _ => False
  | Data _ data =>
      ∃ choice reason, choice ∈ items (get data "choices") ∧ str_field choice "finish_reason" = Some reason
  end.

Lemma terminal_finishes d : finishes (terminal d).
Proof.
  unfold terminal, finishes, chunk, items. simpl. json_simpl. do 2 eexists. split; [by apply list_elem_of_singleton|].
  unfold str_field. by json_simpl.
Qed.

Definition silent (out : list ProviderStreamEvent) : Prop := Forall (λ e, is_done e = false) out.

(** The fields that end a stream are left alone. *)
Definition keeps_end (d d' : AnthropicStreamDecoder) : Prop :=
  d_usage d' = d_usage d ∧ done d' = done d ∧ terminal_emitted d' = terminal_emitted d.

Lemma emit_keeps_end d delta out d' :
  emit (delta_event d delta) = (Ok out, d') → silent out ∧ keeps_end d d'.
Proof.
  intros [= <- <-]. unfold delta_event. split; destruct (first_delta d); by repeat constructor.
Qed.

Lemma block_start_keeps_end d data out d' :
  content_block_start d data = (Ok out, d') → silent out ∧ keeps_end d d'.
Proof.
  unfold content_block_start. repeat case_match; intros H'; simplify_eq;
    try (by repeat constructor); by apply emit_keeps_end in H'.
Qed.

Lemma block_delta_keeps_end d data out d' :
  content_block_delta d data = (Ok out, d') → silent out ∧ keeps_end d d'.
Proof.
  unfold content_block_delta. repeat case_match; intros H'; simplify_eq;
    try (by repeat constructor); by apply emit_keeps_end in H'.
Qed.

Lemma step_end d e out d' :
  decode_event d e = (Ok out, d') →
  d_usage d' = reported_usage (d_usage d) e ∧
  if is_stop e then out = closing d ∧ done d' = true ∧ terminal_emitted d' = true
  else silent out ∧ done d' = done d ∧
       (terminal_emitted d = true → terminal_emitted d' = true) ∧
       (terminal_emitted d' = true → terminal_emitted d = true ∨ ∃ c, c ∈ out ∧ finishes c).
Proof.
  unfold decode_event, is_stop, reported_usage, stream_kind. destruct (from_str (data e)) as [v|err]; [|done].
  destruct (event_kind e _) as [kind|] eqn:Hk; [|done]. apply event_kind_name in Hk as <-.
  destruct (says kind "message_start") eqn:H1.
  { apply says_true in H1 as ->. says_simpl. intros [= <- <-]. split_and!; [done|constructor|done|done|by left]. }
  destruct (says kind "content_block_start") eqn:H2.
  { apply says_true in H2 as ->. says_simpl. intros (? & -> & -> & ->)%block_start_keeps_end. simpl. naive_solver. }
  destruct (says kind "content_block_delta") eqn:H3.
  { apply says_true in H3 as ->. says_simpl. intros (? & -> & -> & ->)%block_delta_keeps_end. simpl. naive_solver. }
  destruct (says kind "content_block_stop") eqn:H4.
  { apply says_true in H4 as ->. says_simpl. intros [= <- <-]. split_and!; [done|constructor|done|done|by left]. }
  destruct (says kind "message_delta") eqn:H5.
  { apply says_true in H5 as ->. says_simpl. intros [= <- <-]. unfold message_delta. simpl.
    destruct (pointer v "/delta/stop_reason" ≫= as_str); (split_and!; [done|by repeat constructor|done|done|]);
      intros _; right; eexists; (split; [by apply list_elem_of_singleton|apply terminal_finishes]). }
  destruct (says kind "message_stop") eqn:H6; [apply says_true in H6 as ->; by intros [= <- <-]|].
  destruct (says kind "error"); [done|]. intros [= <- <-].
  split_and!; [done|constructor|done|done|by left].
Qed.

Lemma after_done events d outs d' :
  done d = true → terminal_emitted d = true → decode_all d events = (Ok outs, d') →
  silent outs ∧ done d' = true.
Proof.
  revert d outs. induction events as [|e events IH]; intros d outs Hd Ht; simpl.
  { intros [= <- <-]. by split; [constructor|]. }
  destruct (decode_event d e) as [[out|err] d1] eqn:He; [|done].
  destruct (decode_all d1 events) as [[outs1|err] d2] eqn:Hall; [|done]. intros [= <- <-].
  apply step_end in He as [_ He]. destruct (is_stop e).
  - destruct He as (-> & Hd1 & Ht1). destruct (IH d1 outs1 Hd1 Ht1 Hall) as [Hs ?].
    unfold closing. rewrite Hd, Ht. by split.
  - destruct He as (Hs & Hd1 & Ht1 & _). rewrite Hd in Hd1.
    destruct (IH d1 outs1 Hd1 (Ht1 Ht) Hall) as [Hs' ?]. split; [by apply Forall_app|done].
Qed.

(** The one [Done] of a stream: after a finish reason, with the usage reported
    before it. *)
Definition ends_once (outs : list ProviderStreamEvent) (u : ModelUsage) : Prop :=
  ∃ pre post, outs = pre ++ Done u :: post ∧ silent pre ∧ silent post ∧ ∃ c, c ∈ pre ∧ finishes c.

Lemma closing_ends d out post :
  done d = false → (terminal_emitted d = true → ∃ c, c ∈ out ∧ finishes c) →
  silent out → silent post → ends_once (out ++ closing d ++ post) (d_usage d).
Proof.
  intros Hd Ht Hs Hp. unfold closing. rewrite Hd. destruct (terminal_emitted d).
  - exists out, post. split_and!; auto.
  - exists (out ++ [terminal d]), post. split_and!; [by rewrite <-!(assoc_L (++))| |done|].
    + apply Forall_app. split; [done|]. by repeat constructor.
    + exists (terminal d). split; [set_solver|apply terminal_finishes].
Qed.

Lemma until_done events d out0 outs d' :
  done d = false → (terminal_emitted d = true → ∃ c, c ∈ out0 ∧ finishes c) → silent out0 →
  decode_all d events = (Ok outs, d') →
  let u := foldl reported_usage (d_usage d) (before_stop events) in
  if done d' then ends_once (out0 ++ outs) u
  else silent (out0 ++ outs) ∧ d_usage d' = u ∧
       (terminal_emitted d' = true → ∃ c, c ∈ out0 ++ outs ∧ finishes c).
Proof.
  revert d out0 outs. induction events as [|e events IH]; intros d out0 outs Hd Ht Hs; simpl.
  { intros [= <- <-]. by rewrite Hd, app_nil_r. }
  destruct (decode_event d e) as [[out|err] d1] eqn:He; [|done].
  destruct (decode_all d1 events) as [[outs1|err] d2] eqn:Hall; [|done]. intros [= <- <-].
  apply step_end in He as [Hu He]. destruct (is_stop e).
  - destruct He as (-> & Hd1 & Ht1). destruct (after_done _ _ _ _ Hd1 Ht1 Hall) as [Hs1 ->].
    by apply closing_ends.
  - destruct He as (Hs1 & Hd1 & _ & Ht1). rewrite Hd in Hd1. simpl. rewrite <-Hu.
    rewrite (assoc_L (++)). apply IH; [done| |by apply Forall_app|done].
    intros Htd. destruct (Ht1 Htd) as [Hc|(c & ? & ?)].
    + destruct (Ht Hc) as (c & ? & ?). exists c. set_solver.
    + exists c. set_solver.
Qed.

(** *** Requests *)

(** A message of the request: its role and its content blocks. *)
Definition shaped (m : Value) (g : string * list Value) : Prop :=
  is_object m = true ∧ str_field m "role" = Some g.1 ∧ get m "content" = Some (Array g.2).

(** What the caller's conversation says: the blocks of each turn under the role
    it is sent as, and the system texts. *)
Definition role_of (message : Value) : string := default "user" (str_field message "role").
Definition is_system (message : Value) : bool :=
  bool_decide (role_of message = "system"%string ∨ role_of message = "developer"%string).

Definition turn (thinking_enabled : bool) (message : Value) : list (string * Value) :=
  if is_system message then []
  else pair (if decide (role_of message = "assistant"%string) then "assistant" else "user")%string <$>
       message_blocks message (role_of message) thinking_enabled.

Definition system_text (message : Value) : option string :=
  if is_system message then spoken (Some (content_text (get message "content"))) else None.

Fixpoint join_lines (texts : list string) : string :=
  match texts with
  | [] => ""
  | [t] => t
  | t :: texts => t +:+ String LF (join_lines texts)
  end.

Definition tagged (g : string * list Value) : list (string * Value) := pair g.1 <$> g.2.

Definition group_ok (g : string * list Value) : Prop :=
  g.2 ≠ [] ∧ (g.1 = "user"%string ∨ g.1 = "assistant"%string).

(** Adjacent groups have different roles. *)
Definition alternating (gs : list (string * list Value)) : Prop :=
  ∀ i g h, gs !! i = Some g → gs !! S i = Some h → g.1 ≠ h.1.

Lemma alternating_snoc gs g :
  alternating gs → (∀ h, last gs = Some h → h.1 ≠ g.1) → alternating (gs ++ [g]).
Proof.
  intros Ha Hl i x y Hx Hy. destruct (decide (S i < length gs)%nat) as [Hi|Hi].
  - rewrite lookup_app_l in Hx, Hy by lia. by eapply Ha.
  - assert (S i = length gs) as Hlen.
    { apply lookup_lt_Some in Hy. rewrite length_app in Hy. simpl in Hy. lia. }
    rewrite lookup_app_r in Hy by lia. rewrite Hlen, Nat.sub_diag in Hy. injection Hy as <-.
    apply Hl. rewrite last_lookup, <-Hlen. by rewrite lookup_app_l in Hx by lia.
Qed.

Lemma alternating_last gs g g' : alternating (gs ++ [g]) → g'.1 = g.1 → alternating (gs ++ [g']).
Proof.
  intros Ha Hg i x y Hx Hy. destruct (decide (S i < length gs)%nat) as [Hi|Hi].
  - apply (Ha i); [by rewrite lookup_app_l in * by lia|by rewrite lookup_app_l in * by lia].
  - assert (S i = length gs) as Hlen.
    { apply lookup_lt_Some in Hy. rewrite length_app in Hy. simpl in Hy. lia. }
    rewrite lookup_app_r in Hy by lia. rewrite Hlen, Nat.sub_diag in Hy. injection Hy as <-.
    rewrite Hg. apply (Ha i); [by rewrite lookup_app_l in * by lia|].
    rewrite lookup_app_r, Hlen, Nat.sub_diag by lia. done.
Qed.

(** The conversation the messages so far stand for. *)
Definition stands_for (ms : list Value) (said : list (string * Value)) : Prop :=
  ∃ gs, Forall2 shaped ms gs ∧ gs ≫= tagged = said ∧ Forall group_ok gs ∧ alternating gs.

Lemma append_blocks_ok ms said role blocks :
  blocks ≠ [] → role = "user"%string ∨ role = "assistant"%string → stands_for ms said →
  stands_for (append_blocks ms role blocks) (said ++ (pair role <$> blocks)).
Proof.
  intros Hb Hr (gs & Hms & <- & Hok & Ha). unfold append_blocks.
  assert ((∀ h, last gs = Some h → h.1 ≠ role) →
    stands_for (ms ++ [ {{ "role" ⇒ Str role; "content" ⇒ Array blocks }} ])
      ((gs ≫= tagged) ++ (pair role <$> blocks))) as Hpush.
  { intros Hl. exists (gs ++ [(role, blocks)]). split_and!.
    - apply Forall2_app; [done|]. constructor; [|constructor]. unfold shaped, str_field. simpl.
      json_simpl. done.
    - rewrite bind_app. csimpl. by rewrite app_nil_r.
    - apply Forall_app. split; [done|]. constructor; [by split|constructor].
    - by apply alternating_snoc. }
  destruct (reverse ms) as [|previous earlier] eqn:Hrev.
  { apply Hpush. intros h. assert (ms = []) as -> by (apply (inj reverse); by rewrite Hrev).
    inversion Hms. done. }
  assert (ms = reverse earlier ++ [previous]) as -> by (rewrite <-reverse_cons, <-Hrev; by rewrite reverse_involutive).
  apply Forall2_app_inv_l in Hms as (gs1 & gs2 & Hms1 & Hms2 & ->).
  inversion Hms2 as [|? g ? gs3 (Hobj & Hrole & Hcont) Hnil]; subst. inversion Hnil; subst.
  destruct (says (str_field previous "role") role) eqn:Hsays.
  - rewrite Hcont. simpl. rewrite as_array_Array. rewrite Hrole in Hsays. apply says_true in Hsays as [= <-].
    apply Forall_app in Hok as [Hok1 [Hg _]%list.Forall_cons].
    exists (gs1 ++ [(g.1, g.2 ++ blocks)]). split_and!.
    + apply Forall2_app; [done|]. constructor; [|constructor]. unfold shaped. simpl.
      rewrite is_object_insert, get_insert_eq by done. split_and!; [done| |done].
      unfold str_field. by rewrite get_insert_ne by done.
    + rewrite !bind_app. csimpl. unfold tagged. simpl. by rewrite fmap_app, !app_nil_r, (assoc_L (++)).
    + apply Forall_app. split; [done|]. constructor; [|constructor]. split; [|apply Hg]. simpl.
      by intros [_ ?]%app_nil.
    + by eapply alternating_last.
  - apply Hpush. intros h. rewrite last_snoc. intros [= <-] Hh. rewrite Hrole, Hh in Hsays.
    unfold says in Hsays. by rewrite bool_decide_eq_false in Hsays.
Qed.

Lemma join_snoc texts t :
  Forall (λ s, s ≠ ""%string) texts →
  join_lines (texts ++ [t]) =
  if decide (join_lines texts = ""%string) then t else join_lines texts +:+ String LF t.
Proof.
  induction texts as [|x texts IH]; intros Hne; [done|].
  apply list.Forall_cons in Hne as [Hx Hne]. specialize (IH Hne).
  destruct texts as [|y texts]; [simpl; by rewrite decide_False|].
  change (join_lines ((x :: y :: texts) ++ [t])) with (x +:+ String LF (join_lines ((y :: texts) ++ [t]))).
  change (join_lines (x :: y :: texts)) with (x +:+ String LF (join_lines (y :: texts))).
  rewrite IH, (decide_False (P := x +:+ _ = _)) by (by destruct x).
  assert (join_lines (y :: texts) ≠ ""%string) as Hj.
  { apply list.Forall_cons in Hne as [Hy _]. simpl. destruct texts; [done|]. by destruct y. }
  rewrite decide_False by done. by rewrite <-string_app_assoc.
Qed.

Lemma add_message_ok thinking_enabled texts ms said message :
  Forall (λ s, s ≠ ""%string) texts → stands_for ms said →
  let r := add_message thinking_enabled (join_lines texts, ms) message in
  r.1 = join_lines (texts ++ option_list (system_text message)) ∧
  stands_for r.2 (said ++ turn thinking_enabled message).
Proof.
  intros Ht Hms. unfold add_message, system_text, turn, is_system. fold (role_of message).
  destruct (decide (role_of message = "system"%string ∨ _)) as [Hs|Hs].
  - rewrite bool_decide_true by done. unfold spoken. case_decide; simpl; rewrite ?app_nil_r; [done|].
    by rewrite join_snoc.
  - rewrite bool_decide_false by done. simpl. rewrite app_nil_r.
    destruct (message_blocks message (role_of message) thinking_enabled) as [|x bs] eqn:Hb.
    { by rewrite app_nil_r. }
    split; [done|]. apply append_blocks_ok; [done| |done]. case_decide; auto.
Qed.

Lemma add_messages_ok thinking_enabled messages texts ms said :
  Forall (λ s, s ≠ ""%string) texts → stands_for ms said →
  let r := foldl (add_message thinking_enabled) (join_lines texts, ms) messages in
  r.1 = join_lines (texts ++ omap system_text messages) ∧
  stands_for r.2 (said ++ (messages ≫= turn thinking_enabled)).
Proof.
  revert texts ms said. induction messages as [|m messages IH]; intros texts ms said Ht Hms.
  { simpl. by rewrite !app_nil_r. }
  destruct (add_message_ok thinking_enabled texts ms said m Ht Hms) as [H1 H2].
  cbn [foldl]. destruct (add_message _ _ m) as [sys ms'] eqn:Hm. simpl in H1, H2. subst sys.
  destruct (IH (texts ++ option_list (system_text m)) ms' (said ++ turn thinking_enabled m)) as [H3 H4]; [|done|].
  { apply Forall_app. split; [done|]. unfold system_text. case_match; [|constructor].
    unfold spoken. case_decide; by repeat constructor. }
  rewrite H3. csimpl. split; [|by rewrite (assoc_L (++))].
  rewrite <-(assoc_L (++)). by destruct (system_text m).
Qed.

Lemma is_object_put k o r : is_object r = true → is_object (put k o r) = true.
Proof. intros. destruct o; [by apply is_object_insert|done]. Qed.

Lemma get_put_eq k o r : is_object r = true → get (put k o r) k = or_else o (get r k).
Proof. intros. destruct o; simpl; [by apply get_insert_eq|done]. Qed.

Lemma get_put_ne k k' o r : is_object r = true → k ≠ k' → get (put k o r) k' = get r k'.
Proof. intros. destruct o; simpl; [by apply get_insert_ne|done]. Qed.

Ltac put_solve := repeat (first [apply is_object_put | apply is_object_insert | apply is_object_Object]).
Ltac put_simpl :=
  repeat (first
    [ rewrite get_insert_eq by put_solve
    | rewrite get_insert_ne by (first [done | put_solve])
    | rewrite get_put_eq by put_solve
    | rewrite get_put_ne by (first [done | put_solve])]);
  json_simpl.

Lemma thinking_budget_bounds body max_tokens budget :
  thinking_budget body max_tokens = Some budget →
  MIN_THINKING_BUDGET ≤ budget ∧ budget + MIN_THINKING_BUDGET ≤ max_tokens.
Proof.
  unfold thinking_budget, checked_sub. intros H. repeat (apply bind_Some in H as (? & ? & H)).
  repeat case_match; simplify_eq; reflect_bools; unfold MIN_THINKING_BUDGET in *; lia.
Qed.

(** *** Responses *)

Definition thinking_block (t : SignedThinking) : Value :=
  {{ "type" ⇒ Str "thinking"; "thinking" ⇒ Str (thinking t); "signature" ⇒ Str (signature t) }}.

Lemma details_round_trip {CL : ThinkingCodecLaws C} message tool_call_id blocks :
  get message "reasoning_details" = Some (Array [encrypted_reasoning_detail tool_call_id blocks]) →
  signed_thinking_from_details message = blocks.
Proof.
  intros Hm. unfold signed_thinking_from_details. rewrite Hm, items_Array.
  assert (is_encrypted_detail (encrypted_reasoning_detail tool_call_id blocks) = true) as He.
  { unfold is_encrypted_detail, encrypted_reasoning_detail, str_field. json_simpl. says_simpl. done. }
  rewrite filter_cons_True, filter_nil by done. simpl.
  unfold encrypted_reasoning_detail, str_field. json_simpl. rewrite thinking_round_trip. simpl.
  apply app_nil_r.
Qed.

Lemma response_details c first calls :
  c_tool_calls c = first :: calls →
  get (response_message c) "reasoning_details" =
  match c_signed c with
  | [] => None
  | _ => Some (Array [encrypted_reasoning_detail (str_or_default first "id") (c_signed c)])
  end.
Proof.
  intros Hc. unfold response_message. rewrite Hc.
  destruct (c_signed c), (decide (c_reasoning c = ""%string)); by json_simpl.
Qed.

Lemma response_reads c :
  get (response_message c) "content" =
    Some (if decide (c_text c = ""%string) then Null else Str (c_text c)) ∧
  items (get (response_message c) "tool_calls") = c_tool_calls c.
Proof.
  unfold response_message. destruct (c_tool_calls c) as [|first calls] eqn:Hc.
  - destruct (decide (c_reasoning c = ""%string)); (split; json_simpl; done).
  - destruct (c_signed c), (decide (c_reasoning c = ""%string));
      (split; json_simpl; rewrite ?items_Array; done).
Qed.

Lemma field_present v k x : get v k = Some x → field_or_null v k = x.
Proof. intros H. unfold field_or_null. by rewrite H. Qed.

Lemma tool_call_replayed block :
  from_str (to_string (field_or_null block "input")) = Ok (field_or_null block "input") →
  tool_use_block (response_tool_call block) =
  {{ "type" ⇒ Str "tool_use"; "id" ⇒ field_or_null block "id"; "name" ⇒ field_or_null block "name";
     "input" ⇒ field_or_null block "input" }}.
Proof.
  intros Hin. unfold tool_use_block, response_tool_call.
  rewrite (field_present (Object _) "function" {{ "name" ⇒ field_or_null block "name";
    "arguments" ⇒ Str (to_string (field_or_null block "input")) }}) by by json_simpl.
  rewrite (field_present (Object _) "name" (field_or_null block "name")) by by json_simpl.
  rewrite (field_present (Object _) "id" (field_or_null block "id")) by by json_simpl.
  unfold str_field. json_simpl. by rewrite Hin.
Qed.

(** The tool calls of a response, block by block. *)
Definition is_tool_use (block : Value) : bool := says (str_field block "type") "tool_use".

Lemma add_block_calls blocks c :
  c_tool_calls (foldl add_block c blocks) =
  c_tool_calls c ++ (response_tool_call <$> filter (λ x, is_tool_use x = true) blocks).
Proof.
  revert c. induction blocks as [|x blocks IH]; intros c; [by rewrite app_nil_r|].
  cbn [foldl]. rewrite IH, filter_cons. unfold add_block, is_tool_use.
  destruct (says (str_field x "type") "text") eqn:H1.
  { apply says_true in H1 as ->. says_simpl. by rewrite decide_False. }
  destruct (says (str_field x "type") "thinking") eqn:H2.
  { apply says_true in H2 as ->. says_simpl. by rewrite decide_False. }
  destruct (says (str_field x "type") "tool_use") eqn:H3.
  - rewrite decide_True by done. simpl. by rewrite <-(assoc_L (++)).
  - by rewrite decide_False.
Qed.

Definition numbered_call (k : nat) (c : Call) : AssembledToolCall :=
  mkAssembled 0 (Z.of_nat k) (id c) (tool c) (input c).

(** ** Properties *)

(** C39: Translation loses nothing the model said.  The text and the reasoning of the
    chunks are, concatenated, the text and the reasoning of the Anthropic stream;
    and the tool-call assembler, fed with the chunks event by event, returns the
    stream's tool calls in the order they were opened, each with its identifier,
    its name and the concatenation of its own argument pieces, however the
    content blocks were interleaved and whatever their wire indices. *)
Theorem stream_preserves_content (events : list SseEvent) outs d :
  Z.of_nat (length events) ≤ U64_MAX →
  decode_all AnthropicStreamDecoder_default events = (Ok outs, d) →
  let t := foldl transcribe Transcript_empty events in
  stream_text "content" outs = t_text t ∧
  stream_text "reasoning_content" outs = t_reasoning t ∧
  ∃ a, push_events ToolCall.new outs = (Ok tt, a) ∧
    (Forall (λ c, id c ≠ ""%string ∧ tool c ≠ ""%string) (t_calls t) →
     ToolCall.finish a = Ok (imap numbered_call (t_calls t))).
Proof.
  intros Hlen Hd t. rewrite push_events_fragments.
  apply (stream_follows _ _ Transcript_empty ToolCall.new) in Hd as (a & Hp & Hf & Ht & Hr); [|split|done].
  2-3: done.
  2:{ intros i k. simpl. by rewrite lookup_empty. }
  2:{ intros i k. simpl. rewrite lookup_empty. by case_decide. }
  split_and!; [done..|]. exists a. split; [done|]. intros Hcalls.
  apply finish_numbered.
  - intros k c. rewrite list_lookup_imap. intros (c' & _ & ->)%fmap_Some. done.
  - intros i k. rewrite (f_pending _ _ _ Hf). case_decide as Hk; [|done]. fold t.
    rewrite list_lookup_imap. destruct (t_calls t !! Z.to_nat k) as [c|] eqn:Hc; [|done].
    simpl. f_equal. rewrite list.Forall_lookup in Hcalls. destruct (Hcalls _ _ Hc) as [Hi Hn].
    unfold pending_call, pending_of, spoken. by rewrite !decide_False.
Qed.

(** A translated request says what the caller's did.  Its messages are the turns
    of the conversation in order, every block under the role it belongs to, never
    an empty message and never two messages of one role in a row, as the Messages
    API demands; the system texts are joined line by line; and a thinking budget
    leaves the API's minimum on both sides of it and suppresses the sampling
    parameters that are refused beside it, which are otherwise passed on. *)
Theorem request_translated (model : string) (body : Value) :
  let r := build_request model body in
  let max_tokens := requested_max_tokens body in
  let thinking := thinking_budget body max_tokens in
  let conversation := items (get body "messages") in
  get r "model" = Some (Str model) ∧ get r "max_tokens" = Some (U64 max_tokens) ∧
  (∃ ms, get r "messages" = Some (Array ms) ∧
     stands_for ms (conversation ≫= turn (bool_decide (is_Some thinking)))) ∧
  get r "system" = (Str <$> spoken (Some (join_lines (omap system_text conversation)))) ∧
  match thinking with
  | Some budget =>
      MIN_THINKING_BUDGET ≤ budget ∧ budget + MIN_THINKING_BUDGET ≤ max_tokens ∧
      (thinking ← get r "thinking"; get thinking "budget_tokens") = Some (U64 budget) ∧
      get r "temperature" = None ∧ get r "top_p" = None
  | None =>
      get r "thinking" = None ∧
      get r "temperature" = get body "temperature" ∧ get r "top_p" = get body "top_p"
  end.
Proof.
  intros r max_tokens thinking conversation. unfold r, build_request. fold max_tokens. fold thinking.
  assert (∀ te, ∃ ms, build_messages body te = (join_lines (omap system_text conversation), ms) ∧
    stands_for ms (conversation ≫= turn te)) as Hms.
  { intros te. unfold build_messages.
    destruct (add_messages_ok te conversation [] [] []) as [H1 H2];
      [constructor|exists []; by repeat constructor|]. simpl in H1, H2. fold conversation.
    destruct (foldl _ _ conversation) as [sys ms]. exists ms. simpl in *. by subst. }
  destruct (Hms (match thinking with Some _ => true | None => false end)) as (ms & -> & Hst).
  set (sys := join_lines _). unfold spoken.
  assert (∀ te, te = (match thinking with Some _ => true | None => false end) →
    te = bool_decide (is_Some thinking)) as Hte.
  { intros te ->. destruct thinking; [by rewrite bool_decide_true by eauto|].
    rewrite bool_decide_false; [done|]. by intros [? ?]. }
  rewrite <-(Hte _ eq_refl). clear Hte.
  destruct (parse_tools body), thinking as [budget|] eqn:Hth; put_simpl;
    (split_and!; try done; [by eexists|by case_decide|..]);
    first [apply (thinking_budget_bounds body max_tokens budget Hth) | unfold or_else; by case_match].
Qed.

(** A tool-using turn survives the round trip.  The assistant message of a
    translated response, sent back by the caller, is translated to the turn the
    model produced: its signed thinking first, unaltered, then its text, then its
    tool calls with their identifiers, names and inputs. *)
Theorem assistant_turn_replayed {CL : ThinkingCodecLaws C} (blocks : list Value) :
  let c := foldl add_block (mkContent "" "" [] []) blocks in
  let calls := filter (λ x, is_tool_use x = true) blocks in
  calls ≠ [] →
  Forall (λ x, from_str (to_string (field_or_null x "input")) = Ok (field_or_null x "input")) calls →
  message_blocks (response_message c) "assistant" true =
  (thinking_block <$> c_signed c) ++
  (if decide (c_text c = ""%string) then [] else [ {{ "type" ⇒ Str "text"; "text" ⇒ Str (c_text c) }} ]) ++
  ((λ x, {{ "type" ⇒ Str "tool_use"; "id" ⇒ field_or_null x "id"; "name" ⇒ field_or_null x "name";
            "input" ⇒ field_or_null x "input" }}) <$> calls).
Proof.
  intros c calls Hne Hin. pose proof (add_block_calls blocks (mkContent "" "" [] [])) as Hc.
  fold c calls in Hc. simpl in Hc. destruct (response_reads c) as [Ht Hcalls].
  unfold message_blocks. rewrite Ht, Hcalls, Hc. simpl. f_equal; [|f_equal].
  - unfold thinking_blocks_from_details. fold thinking_block. f_equal.
    destruct calls as [|x calls]; [done|]. pose proof (response_details c _ _ Hc) as Hd.
    destruct (c_signed c) eqn:Hs; [|rewrite <-Hs in *; by eapply details_round_trip].
    unfold signed_thinking_from_details. by rewrite Hd.
  - case_decide as Htext; simpl; [rewrite as_str_Null; unfold items; simpl; by rewrite as_array_Null|].
    rewrite as_str_Str. by rewrite decide_False.
  - rewrite <-list_fmap_compose. apply list_fmap_ext. intros i x Hx. simpl.
    apply tool_call_replayed. rewrite list.Forall_lookup in Hin. by eapply Hin.
Qed.

(** Usage survives translation to the OpenAI shape and back: read again, the
    counters are the original ones with cache writes counted as input, the one
    distinction the shape cannot express, and the total is unchanged. *)
Theorem usage_translated (u : ModelUsage) :
  0 ≤ mu_input_tokens u → 0 ≤ mu_output_tokens u → is_u64 (mu_reasoning_tokens u) →
  0 ≤ mu_cache_read_tokens u → 0 ≤ mu_cache_write_tokens u →
  mu_input_tokens u + mu_output_tokens u + mu_cache_read_tokens u + mu_cache_write_tokens u ≤ U64_MAX →
  chat_usage (openai_usage u) =
    mkModelUsage (mu_input_tokens u + mu_cache_write_tokens u) (mu_output_tokens u)
      (mu_reasoning_tokens u) (mu_cache_read_tokens u) 0 ∧
  total_tokens (chat_usage (openai_usage u)) = total_tokens u.
Proof.
  intros. assert (chat_usage (openai_usage u) = mkModelUsage (mu_input_tokens u + mu_cache_write_tokens u)
    (mu_output_tokens u) (mu_reasoning_tokens u) (mu_cache_read_tokens u) 0) as Hu.
  { unfold chat_usage, openai_usage.
    change "/prompt_tokens_details/cached_tokens"%string
      with ("/" +:+ "prompt_tokens_details" +:+ "/" +:+ "cached_tokens")%string.
    change "/completion_tokens_details/reasoning_tokens"%string
      with ("/" +:+ "completion_tokens_details" +:+ "/" +:+ "reasoning_tokens")%string.
    json_simpl. rewrite !pointer_two by done. json_simpl.
    f_equal; width_lia. }
  split; [done|]. rewrite Hu. unfold total_tokens. simpl. width_lia.
Qed.

(** A translated stream ends exactly once: among the chunks of a stream decoded
    without error and closed by [finish] there is one [Done], it comes after a
    chunk that states the finish reason, and it carries the usage reported by the
    events before the first [message_stop] (by all of them when there is none). *)
Theorem stream_ends_once (events : list SseEvent) outs d :
  drive AnthropicStreamDecoder_default events = (Ok outs, d) →
  ends_once outs (foldl reported_usage ModelUsage_default (before_stop events)).
Proof.
  unfold drive. destruct (decode_all _ events) as [[outs1|err] d1] eqn:Hall; [|done].
  apply (until_done _ _ []) in Hall as H; [|done|done|constructor]. simpl in H. unfold finish. simpl.
  unfold decoder_finish. destruct (done d1) eqn:Hd; intros [= <- <-].
  - by rewrite app_nil_r.
  - destruct H as (Hs & <- & Ht). rewrite <-(app_nil_r (closing d1)).
    by apply closing_ends; [..|constructor].
Qed.

End Laws.

End Anthropic.

(** ** Witnesses

    A codec that satisfies its law (the binary digits of an encoding as a number
    stand for base64), and a JSON library whose parser knows the texts of one
    stream with a tool call. *)

Fixpoint bits (p : positive) : string :=
  match p with xH => "" | xO p => String "0" (bits p) | xI p => String "1" (bits p) end.

Fixpoint unbits (s : string) : positive :=
  match s with
  | EmptyString => 1
  | String c s => if decide (c = "0"%char) then xO (unbits s) else xI (unbits s)
  end.

Lemma unbits_bits p : unbits (bits p) = p.
Proof. induction p as [p IH|p IH|]; simpl; [by rewrite IH..|done]. Qed.

#[global] Instance SignedThinking_countable : Countable SignedThinking.
Proof.
  apply (inj_countable' (λ t, (thinking t, signature t)) (λ p, mkThinking p.1 p.2)). by intros [].
Defined.

Definition demo_codec : ThinkingCodec := {|
  thinking_encode blocks := bits (encode blocks);
  thinking_decode s := countable.decode (unbits s);
|}.

Instance demo_codec_laws : ThinkingCodecLaws demo_codec.
Proof. intros blocks. simpl. by rewrite unbits_bits, decode_encode. Qed.

Definition field k v : string * json := (k, v).

Definition demo_parse (s : string) : result string json :=
  if decide (s = "start"%string) then
    Ok (JObj [field "index" (JU64 7); field "content_block"
      (JObj [field "type" (JStr "tool_use"); field "id" (JStr "toolu_1"); field "name" (JStr "search")])])
  else if decide (s = "args"%string) then
    Ok (JObj [field "index" (JU64 7); field "delta"
      (JObj [field "type" (JStr "input_json_delta"); field "partial_json" (JStr "{}")])])
  else if decide (s = "text"%string) then
    Ok (JObj [field "delta" (JObj [field "type" (JStr "text_delta"); field "text" (JStr "hello")])])
  else if decide (s = "usage"%string) then
    Ok (JObj [field "usage" (JObj [field "output_tokens" (JU64 5)])])
  else if decide (s = "{}"%string) then Ok (JObj [])
  else Err "no JSON"%string.

Definition demo_json : SerdeJson := json_model demo_parse (λ _, "{}"%string).

Definition demo_events : list SseEvent :=
  [ mkEvent (Some "content_block_start") "start"; mkEvent (Some "content_block_delta") "args";
    mkEvent (Some "content_block_delta") "text"; mkEvent (Some "message_delta") "usage";
    mkEvent (Some "message_stop") "{}" ]%string.

Definition demo_decoded :=
  @decode_all demo_json _ (@AnthropicStreamDecoder_impl demo_json demo_codec)
    AnthropicStreamDecoder_default demo_events.
Definition demo_outs : list (@ProviderStreamEvent demo_json) :=
  match demo_decoded.1 with Ok outs => outs | Err _ => [] end.

Lemma demo_decodes :
  @decode_all demo_json _ (@AnthropicStreamDecoder_impl demo_json demo_codec)
    AnthropicStreamDecoder_default demo_events = (Ok demo_outs, demo_decoded.2).
Proof. vm_cast_no_check (eq_refl demo_decoded). Qed.

Lemma demo_transcript :
  foldl (@transcribe demo_json) Transcript_empty demo_events =
  mkTranscript "hello" "" [mkCall "toolu_1" "search" "{}"] {[ 7 := 0%nat ]}.
Proof. vm_cast_no_check (eq_refl (foldl (@transcribe demo_json) Transcript_empty demo_events)). Qed.

Lemma stream_preserves_content_witness :
  @stream_text demo_json "content" demo_outs = "hello"%string ∧
  ∃ a, @push_events demo_json ToolCall.new demo_outs = (Ok tt, a) ∧
    ToolCall.finish a = Ok [mkAssembled 0 0 "toolu_1" "search" "{}"].
Proof.
  assert (Z.of_nat (length demo_events) ≤ U64_MAX) as Hlen by (vm_compute; discriminate).
  pose proof (@stream_preserves_content demo_json demo_codec (json_model_laws _ _) demo_events demo_outs
    demo_decoded.2 Hlen demo_decodes) as H.
  rewrite demo_transcript in H. destruct H as (Ht & _ & a & Hp & Hf).
  split; [exact Ht|]. exists a. split; [exact Hp|].
  apply Hf. repeat constructor; discriminate.
Defined.

Lemma stream_ends_once_witness :
  @ends_once demo_json demo_outs (mkModelUsage 0 5 0 0 0).
Proof.
  assert (@drive demo_json _ (@AnthropicStreamDecoder_impl demo_json demo_codec)
    AnthropicStreamDecoder_default demo_events = (Ok demo_outs, demo_decoded.2)) as Hd
    by (vm_cast_no_check (eq_refl demo_decoded)).
  exact (@stream_ends_once demo_json demo_codec (json_model_laws _ _) demo_events demo_outs _ Hd).
Defined.

Definition demo_body : @Value demo_json :=
  JObj [field "reasoning_effort" (JStr "low"); field "max_tokens" (JU64 4096);
        field "temperature" (JU64 1);
        field "messages" (JArr [JObj [field "role" (JStr "user"); field "content" (JStr "hi")]])].

Lemma request_translated_witness :
  let r := @build_request demo_json demo_codec "claude" demo_body in
  get r "temperature" = None ∧ @thinking_budget demo_json demo_body 4096 = Some 1024.
Proof.
  pose proof (@request_translated demo_json demo_codec (json_model_laws _ _) "claude" demo_body)
    as (_ & _ & _ & _ & H).
  split; [exact (proj1 (proj2 (proj2 (proj2 H))))|vm_compute; reflexivity].
Defined.

Definition demo_turn : list (@Value demo_json) :=
  [ JObj [field "type" (JStr "thinking"); field "thinking" (JStr "t"); field "signature" (JStr "s")];
    JObj [field "type" (JStr "tool_use"); field "id" (JStr "toolu_1"); field "name" (JStr "search");
          field "input" (JObj [])] ].

Lemma assistant_turn_replayed_witness :
  @message_blocks demo_json demo_codec
    (@response_message demo_json demo_codec (foldl add_block (mkContent "" "" [] []) demo_turn))
    "assistant" true =
  [ JObj [field "type" (JStr "thinking"); field "thinking" (JStr "t"); field "signature" (JStr "s")];
    JObj [field "type" (JStr "tool_use"); field "id" (JStr "toolu_1"); field "name" (JStr "search");
          field "input" (JObj [])] ].
Proof.
  refine (eq_trans (@assistant_turn_replayed demo_json demo_codec (json_model_laws _ _) demo_codec_laws
    demo_turn _ _) _); [vm_compute; discriminate|vm_compute; repeat constructor|vm_compute; reflexivity].
Defined.

Lemma usage_translated_witness :
  total_tokens (@chat_usage demo_json (@openai_usage demo_json (mkModelUsage 10 5 2 3 4))) = 22.
Proof.
  refine (eq_trans (proj2 (@usage_translated demo_json (json_model_laws _ _) (mkModelUsage 10 5 2 3 4)
    _ _ _ _ _ _)) _); simpl; try width_lia. reflexivity.
Defined.

End Anthropic.
