(* ===== verification/OpenAi.v ===== *)
(** * The OpenAI-compatible adapter ([crates/gateway-core/src/openai.rs]).

    Requests and responses pass through; a stream is relayed event by event
    while its usage is collected. *)

From S2P Require Import Prelude Text Json Sse ProviderError Pricing Provider.

Module OpenAi.
Import ProviderError.ProviderError (ProviderError, InvalidRequest, invalid_stream, rate_limited_stream,
  is_rate_limit_payload).
Import Pricing.Pricing Provider.Provider.

Inductive OpenAiFlavor := OpenAi | Foundry | Compatible.

Record OpenAiCompatibleAdapter := mkAdapter { flavor : OpenAiFlavor }.

Definition openai : OpenAiCompatibleAdapter := mkAdapter OpenAi.
Definition foundry : OpenAiCompatibleAdapter := mkAdapter Foundry.

Definition normalize_foundry_endpoint (endpoint : string) : string :=
  let endpoint := trim_end_matches "/" (trim (b endpoint)) in
  let has_path :=
    match split_once_str (b "://") endpoint with
    | Some (_, authority) => bool_decide ("/"%char ∈ authority)
    | None => false
    end in
  if has_path then text endpoint else text endpoint +:+ "/openai/v1".

Section OpenAi.
Context {J : SerdeJson}.

Definition embeddings_usage (response : Value) : ModelUsage :=
  let u := chat_usage response in
  mkModelUsage (mu_input_tokens u) 0 (mu_reasoning_tokens u) (mu_cache_read_tokens u)
    (mu_cache_write_tokens u).

Definition responses_usage (response : Value) : ModelUsage :=
  match get response "usage" with Some usage => chat_usage usage | None => ModelUsage_default end.

Definition encode_request (surface : Surface) (request : ProviderRequest) : result ProviderError Value :=
  if negb (is_object (body request)) then Err (InvalidRequest "request body must be an object")
  else
    let object := insert_field (body request) "model" (Str (model request)) in
    if bool_decide (surface = ChatCompletions) &&
       bool_decide (get object "stream" ≫= as_bool = Some true) then
      match get object "stream_options" with
      | Some options =>
          if is_object options then
            Ok (insert_field object "stream_options" (insert_field options "include_usage" (Bool true)))
          else Ok (insert_field object "stream_options" {{ "include_usage" ⇒ Bool true }})
      | None => Ok (insert_field object "stream_options" {{ "include_usage" ⇒ Bool true }})
      end
    else Ok object.

Definition decode_response (surface : Surface) (response : Value) : ProviderResponse :=
  {| response_body := response;
     usage := match surface with
              | ChatCompletions => chat_usage response
              | Responses => responses_usage response
              end |}.

Record OpenAiStreamDecoder := mkDecoder {
  o_surface : Surface;
  o_usage : ModelUsage;
  o_done : bool;
}.

Definition new_decoder (surface : Surface) : OpenAiStreamDecoder :=
  mkDecoder surface ModelUsage_default false.

(** Where an event of the surface reports usage, when it does. *)
Definition event_usage (surface : Surface) (data : Value) : option Value :=
  match surface with
  | ChatCompletions => get data "usage"
  | Responses => or_else (pointer data "/response/usage") (get data "usage")
  end.

Definition next_usage (surface : Surface) (u : ModelUsage) (data : Value) : ModelUsage :=
  match event_usage surface data with
  | Some usage => if is_object usage then chat_usage usage else u
  | None => u
  end.

(** The checks of the [Responses] surface on a named event. *)
Definition check_discriminator (surface : Surface) (e : SseEvent) (data_type : option string)
    : result ProviderError unit :=
  match surface with
  | ChatCompletions => Ok tt
  | Responses =>
      match data_type with
      | None => Err (invalid_stream "Responses SSE event is missing data.type")
      | Some data_type =>
          match event e with
          | Some event_name =>
              if decide (event_name = data_type) then Ok tt
              else Err (invalid_stream "Responses SSE event name disagrees with data.type")
          | None => Ok tt
          end
      end
  end.

Definition check_completed (data_type : option string) (data : Value) : result ProviderError unit :=
  if bool_decide (data_type = Some "response.completed"%string) then
    match get data "response" with
    | Some response =>
        if negb (is_object response) then
          Err (invalid_stream "response.completed is missing its completed response object")
        else if bool_decide (get response "status" ≫= as_str = Some "completed"%string) then Ok tt
        else Err (invalid_stream "response.completed is missing status=completed")
    | None => Err (invalid_stream "response.completed is missing its completed response object")
    end
  else Ok tt.

Definition event_name_of (surface : Surface) (e : SseEvent) (data_type : option string) : option string :=
  match surface with ChatCompletions => event e | Responses => or_else (event e) data_type end.

Definition is_sentinel (e : SseEvent) : bool := bool_decide (trim (b (data e)) = b "[DONE]").

Definition decode_event (d : OpenAiStreamDecoder) (e : SseEvent)
    : result ProviderError (list ProviderStreamEvent) * OpenAiStreamDecoder :=
  let surface := o_surface d in
  if is_sentinel e then
    match surface, event e with
    | Responses, Some _ =>
        (Err (invalid_stream "Responses [DONE] sentinel must be a data-only SSE event"), d)
    | _, _ => (Ok [Done (o_usage d)], mkDecoder surface (o_usage d) true)
    end
  else
    match from_str (data e) with
    | Err error => (Err (invalid_stream error), d)
    | Ok data =>
        if is_rate_limit_payload data then
          (Err (rate_limited_stream
             (default "OpenAI stream rate limited"%string (pointer data "/error/message" ≫= as_str))), d)
        else
          let data_type := get data "type" ≫= as_str in
          match check_discriminator surface e data_type with
          | Err err => (Err err, d)
          | Ok tt =>
              match check_completed data_type data with
              | Err err => (Err err, d)
              | Ok tt =>
                  let u := next_usage surface (o_usage d) data in
                  let name := event_name_of surface e data_type in
                  if bool_decide (surface = Responses) &&
                     bool_decide (data_type = Some "response.completed"%string) &&
                     bool_decide (name = Some "response.completed"%string)
                  then (Ok [Data name data; Done u], mkDecoder surface u true)
                  else (Ok [Data name data], mkDecoder surface u (o_done d))
              end
          end
    end.

Definition decoder_finish (d : OpenAiStreamDecoder)
    : result ProviderError (list ProviderStreamEvent) * OpenAiStreamDecoder :=
  if o_done d then (Ok [], d)
  else (Ok [Done (o_usage d)], mkDecoder (o_surface d) (o_usage d) true).

#[global] Instance OpenAiStreamDecoder_impl : ProviderStreamDecoder OpenAiStreamDecoder :=
  {| decode := decode_event; finish := decoder_finish |}.

#[global] Instance OpenAiCompatibleAdapter_impl : ProviderAdapter OpenAiCompatibleAdapter := {|
  name := λ a, match flavor a with
               | OpenAi => "openai" | Foundry => "foundry" | Compatible => "openai_compatible"
               end%string;
  capabilities := λ _, mkCapabilities true true true true false;
  Provider.encode_request := λ _, encode_request;
  Provider.decode_response := λ _ surface response, Ok (decode_response surface response);
  stream_decoder := λ _ surface, Ok (mkBoxed _ OpenAiStreamDecoder_impl (new_decoder surface));
|}.

(** ** Lemmas *)

(** The usage a relayed event leaves behind. *)
Definition relayed_usage (surface : Surface) (u : ModelUsage) (e : ProviderStreamEvent) : ModelUsage :=
  match e with Data _ data => next_usage surface u data | Done _ => u end.

Definition usage_of (surface : Surface) (outs : list ProviderStreamEvent) : ModelUsage :=
  foldl (relayed_usage surface) ModelUsage_default outs.

(** Every [Done] carries the usage relayed before it. *)
Definition done_honest (surface : Surface) (outs : list ProviderStreamEvent) : Prop :=
  ∀ pre u post, outs = pre ++ Done u :: post → u = usage_of surface pre.

Lemma usage_of_snoc surface outs e :
  usage_of surface (outs ++ [e]) = relayed_usage surface (usage_of surface outs) e.
Proof. unfold usage_of. by rewrite foldl_snoc. Qed.

Lemma done_honest_snoc surface outs e :
  done_honest surface outs → (∀ u, e = Done u → u = usage_of surface outs) →
  done_honest surface (outs ++ [e]).
Proof.
  intros Hh He pre u post Heq. destruct post as [|x post] using rev_ind.
  - apply app_inj_tail in Heq as [-> ->]. by apply He.
  - clear IHpost. rewrite app_comm_cons, (assoc_L (++)) in Heq. apply app_inj_tail in Heq as [-> _].
    by eapply Hh.
Qed.

Record relay_ok (surface : Surface) (d : OpenAiStreamDecoder) (seen : list ProviderStreamEvent) : Prop := {
  r_surface : o_surface d = surface;
  r_usage : o_usage d = usage_of surface seen;
  r_honest : done_honest surface seen;
  r_done : o_done d = true → ∃ u, Done u ∈ seen;
}.

Lemma relay_data surface d seen n v :
  relay_ok surface d seen →
  relay_ok surface (mkDecoder surface (next_usage surface (o_usage d) v) (o_done d)) (seen ++ [Data n v]).
Proof.
  intros [Hs Hu Hh Hd]. split; simpl; [done|by rewrite usage_of_snoc, Hu| |].
  - by apply done_honest_snoc.
  - intros H. destruct (Hd H) as [u Hin]. exists u. set_solver.
Qed.

Lemma relay_done surface d seen :
  relay_ok surface d seen →
  relay_ok surface (mkDecoder surface (o_usage d) true) (seen ++ [Done (o_usage d)]).
Proof.
  intros [Hs Hu Hh Hd]. split; simpl; [done|by rewrite usage_of_snoc| |].
  - apply done_honest_snoc; [done|]. intros u [= <-]. done.
  - intros _. exists (o_usage d). set_solver.
Qed.

Lemma decode_relay surface d seen e out d' :
  relay_ok surface d seen → decode_event d e = (Ok out, d') → relay_ok surface d' (seen ++ out).
Proof.
  intros Hr. pose proof (r_surface _ _ _ Hr) as <-. unfold decode_event. destruct (is_sentinel e).
  { destruct (o_surface d) eqn:Hs, (event e); intros [= <- <-]; rewrite <-Hs in *; by apply relay_done. }
  destruct (from_str (data e)) as [v|err]; [|done]. destruct (is_rate_limit_payload v); [done|].
  destruct (check_discriminator _ _ _) as [[]|err]; [|done].
  destruct (check_completed _ _) as [[]|err]; [|done].
  pose proof (relay_data (o_surface d) d seen (event_name_of (o_surface d) e (get v "type" ≫= as_str)) v Hr) as H1.
  case_match; intros [= <- <-]; [|done].
  apply relay_done in H1. simpl in H1. by rewrite <-(assoc_L (++)) in H1.
Qed.

(** The JSON of an event that is not the sentinel. *)
Definition relayed (e : SseEvent) : option Value :=
  if is_sentinel e then None
  else match from_str (data e) with Ok v => Some v | Err _ => None end.

Definition payload (e : ProviderStreamEvent) : option Value :=
  match e with Data _ v => Some v | Done _ => None end.

Lemma decode_payload d e out d' :
  decode_event d e = (Ok out, d') → omap payload out = option_list (relayed e).
Proof.
  unfold decode_event, relayed. destruct (is_sentinel e).
  { destruct (o_surface d), (event e); by intros [= <- <-]. }
  destruct (from_str (data e)) as [v|err]; [|done]. destruct (is_rate_limit_payload v); [done|].
  destruct (check_discriminator _ _ _) as [[]|err]; [|done].
  destruct (check_completed _ _) as [[]|err]; [|done]. case_match; by intros [= <- <-].
Qed.

Lemma decode_all_payload d events outs d' :
  decode_all d events = (Ok outs, d') → omap payload outs = omap relayed events.
Proof.
  revert d outs. induction events as [|e events IH]; intros d outs; simpl; [by intros [= <- <-]|].
  destruct (decode_event d e) as [[out|err] d1] eqn:He; [|done].
  destruct (decode_all d1 events) as [[outs1|err] d2] eqn:Hall; [|done]. intros [= <- <-].
  rewrite omap_app, (decode_payload _ _ _ _ He), (IH _ _ Hall). by destruct (relayed e).
Qed.

(** ** Properties *)

(** An OpenAI stream is relayed faithfully: the payloads handed on are exactly
    the JSON of the events, in order, with only the [DONE] sentinel left out; the
    stream is always closed by a [Done]; and every [Done] carries the usage of
    the last usage object relayed before it. *)
Theorem openai_stream_relayed (surface : Surface) (events : list SseEvent) outs d :
  drive (new_decoder surface) events = (Ok outs, d) →
  omap payload outs = omap relayed events ∧ (∃ u, Done u ∈ outs) ∧ done_honest surface outs.
Proof.
  unfold drive. destruct (decode_all _ events) as [[outs1|err] d1] eqn:Hall; [|done].
  assert (relay_ok surface d1 outs1) as Hr.
  { refine (decode_all_invariant (relay_ok surface) _ [] _ _ _ _ _ Hall).
    - intros d0 seen e out d0'. apply decode_relay.
    - split; [done..| |done]. intros [|] ? ?; done. }
  apply decode_all_payload in Hall. unfold finish. simpl. unfold decoder_finish.
  destruct (o_done d1) eqn:Hd; intros [= <- <-].
  - rewrite app_nil_r. split_and!; [done|by eapply r_done|by eapply r_honest].
  - apply relay_done in Hr. split_and!; [by rewrite omap_app, Hall, app_nil_r| |by eapply r_honest].
    exists (o_usage d1). set_solver.
Qed.

(** A request is forwarded with only what the gateway must change: the model is
    the target's, a streaming chat request asks for usage, every other field is
    the caller's; a body that is not an object is refused. *)
Theorem openai_request_encoded {L : SerdeJsonLaws J} (surface : Surface) (request : ProviderRequest) :
  match encode_request surface request with
  | Err e => is_object (body request) = false ∧ e = InvalidRequest "request body must be an object"
  | Ok object =>
      is_object (body request) = true ∧
      get object "model" = Some (Str (model request)) ∧
      (∀ k, k ≠ "model"%string → k ≠ "stream_options"%string → get object k = get (body request) k) ∧
      (if bool_decide (surface = ChatCompletions) &&
          bool_decide (get (body request) "stream" ≫= as_bool = Some true)
       then ∃ options, get object "stream_options" = Some options ∧
              get options "include_usage" = Some (Bool true) ∧
              ∀ k old, k ≠ "include_usage"%string → get (body request) "stream_options" = Some old →
                get options k = get old k
       else get object "stream_options" = get (body request) "stream_options")
  end.
Proof.
  unfold encode_request. destruct (is_object (body request)) eqn:Ho; [|done]. simpl.
  rewrite (get_insert_ne _ _ "stream") by done.
  set (object := insert_field (body request) "model" (Str (model request))).
  assert (is_object object = true) as Hobj by by apply is_object_insert.
  assert (get object "model" = Some (Str (model request))) as Hm by by apply get_insert_eq.
  assert (∀ k, k ≠ "model"%string → get object k = get (body request) k) as Hk
    by (intros; by apply get_insert_ne).
  assert (∀ options : Value,
    get (insert_field object "stream_options" options) "model" = Some (Str (model request)) ∧
    (∀ k, k ≠ "model"%string → k ≠ "stream_options"%string →
       get (insert_field object "stream_options" options) k = get (body request) k) ∧
    get (insert_field object "stream_options" options) "stream_options" = Some options) as Hins.
  { intros options. rewrite get_insert_eq by done. split_and!; [by rewrite get_insert_ne| |done].
    intros k ??. rewrite get_insert_ne by done. auto. }
  destruct (bool_decide (surface = ChatCompletions) && _); [|split_and!; auto].
  rewrite Hk by done.
  destruct (get (body request) "stream_options") as [old|] eqn:Hold; [destruct (is_object old) eqn:Hob|];
    (split; [done|]; edestruct Hins as (? & ? & ?); split_and!; [done..|]; eexists; split; [done|]).
  - split; [by apply get_insert_eq|]. intros k o Hne [= <-]. by apply get_insert_ne.
  - split; [by json_simpl|]. intros k o Hne [= <-]. rewrite get_skip, get_empty by (closed_nodup || done).
    by rewrite get_not_object.
  - split; [by json_simpl|done].
Qed.

End OpenAi.

(** ** Witnesses *)

Definition demo_value : json := JObj [("usage"%string, JObj [("prompt_tokens"%string, JU64 3)])].
Definition demo_json : SerdeJson := json_model (λ _, Ok demo_value) (λ _, "{}"%string).
Definition demo_events : list SseEvent := [mkEvent None "{}"; mkEvent None "[DONE]"]%string.
Definition demo_outs : list (@ProviderStreamEvent demo_json) :=
  [@Data demo_json None demo_value; Done (mkModelUsage 3 0 0 0 0)].

Lemma openai_stream_relayed_witness :
  omap (@payload demo_json) demo_outs = [demo_value] ∧ @done_honest demo_json ChatCompletions demo_outs.
Proof.
  assert (@drive demo_json _ (@OpenAiStreamDecoder_impl demo_json) (new_decoder ChatCompletions) demo_events =
    (Ok demo_outs, mkDecoder ChatCompletions (mkModelUsage 3 0 0 0 0) true)) as Hd
    by (vm_cast_no_check (eq_refl (@Ok ProviderError _ demo_outs,
          mkDecoder ChatCompletions (mkModelUsage 3 0 0 0 0) true))).
  destruct (@openai_stream_relayed demo_json ChatCompletions demo_events demo_outs _ Hd) as (Hp & _ & Hh).
  split; [rewrite Hp; vm_cast_no_check (eq_refl [demo_value])|exact Hh].
Defined.

Definition demo_request : @ProviderRequest demo_json := @mkRequest demo_json "gpt" demo_value.

Lemma openai_request_encoded_witness :
  match @encode_request demo_json Responses demo_request with
  | Ok object => @get demo_json object "model" = Some (JStr "gpt")
  | Err _ => False
  end.
Proof.
  pose proof (@openai_request_encoded demo_json (json_model_laws _ _) Responses demo_request) as H.
  simpl in H. exact (proj1 (proj2 H)).
Defined.

End OpenAi.
