(* ===== verification/Native.v ===== *)
(** * Native Messages streams ([NativeMessagesDecoder] of
    [crates/gateway-core/src/anthropic.rs]).

    A native stream is relayed as it is; the decoder checks that it is a
    well-formed message while it collects the usage.  The grammar of a complete
    message is stated on its own ([complete_message]) and the decoder is shown to
    accept only streams of that grammar. *)

From S2P Require Import Prelude Text Json Sse ProviderError Pricing Provider ToolCall Anthropic.

Module Native.
Import ProviderError.ProviderError (ProviderError, invalid_stream, rate_limited_stream,
  is_rate_limit_payload).
Import Pricing.Pricing Provider.Provider.
Import Anthropic.Anthropic (str_field, u64_field, field_or_null, merge_anthropic_usage, event_kind,
  event_kind_name, reported_usage, stream_kind).

Record NativeContentBlockState := mkBlock { block_type : string; thinking_signature_seen : bool }.

Record NativeMessagesDecoder := mkDecoder {
  n_usage : ModelUsage;
  n_done : bool;
  started : bool;
  message_delta_seen : bool;
  terminal_delta_seen : bool;
  seen_content_blocks : gset Z;
  open_content_blocks : gmap Z NativeContentBlockState;
}.

Definition new : NativeMessagesDecoder := mkDecoder ModelUsage_default false false false false ∅ ∅.

Definition native_delta_matches_block (block_type delta_type : string) : bool :=
  if decide (block_type = "text"%string) then
    bool_decide (delta_type = "text_delta"%string) || bool_decide (delta_type = "citations_delta"%string)
  else if decide (block_type = "tool_use"%string ∨ block_type = "server_tool_use"%string) then
    bool_decide (delta_type = "input_json_delta"%string)
  else if decide (block_type = "thinking"%string) then
    bool_decide (delta_type = "thinking_delta"%string) || bool_decide (delta_type = "signature_delta"%string)
  else if decide (block_type = "redacted_thinking"%string ∨ block_type = "fallback"%string) then false
  else negb (bool_decide (delta_type = "text_delta"%string)).

Section Native.
Context {J : SerdeJson}.

(** [.is_some_and(f)] on a pointer. *)
Definition pointer_and (data : Value) (p : string) (f : Value → bool) : bool :=
  match pointer data p with Some v => f v | None => false end.
Definition get_and (data : Value) (k : string) (f : Value → bool) : bool :=
  match get data k with Some v => f v | None => false end.

Definition native_block_start_payload_valid (block_type : string) (data : Value) : bool :=
  if decide (block_type = "text"%string) then
    pointer_and data "/content_block/text" (λ v, bool_decide (as_str v = Some ""%string))
  else if decide (block_type = "tool_use"%string ∨ block_type = "server_tool_use"%string) then
    pointer_and data "/content_block/id" is_string && pointer_and data "/content_block/name" is_string &&
    pointer_and data "/content_block/input" is_object
  else if decide (block_type = "thinking"%string) then
    pointer_and data "/content_block/thinking" is_string &&
    pointer_and data "/content_block/signature" is_string
  else true.

Definition native_delta_payload_valid (delta_type : string) (data : Value) : bool :=
  if decide (delta_type = "text_delta"%string) then pointer_and data "/delta/text" is_string
  else if decide (delta_type = "citations_delta"%string) then pointer_and data "/delta/citation" is_object
  else if decide (delta_type = "input_json_delta"%string) then
    pointer_and data "/delta/partial_json" is_string
  else if decide (delta_type = "thinking_delta"%string) then pointer_and data "/delta/thinking" is_string
  else if decide (delta_type = "signature_delta"%string) then
    pointer_and data "/delta/signature"
      (λ v, match as_str v with Some s => negb (bool_decide (s = ""%string)) | None => false end)
  else true.

(** An arm of the match in [decode]: the error it returns, if any, and the state. *)
Definition Transition : Type := option ProviderError * NativeMessagesDecoder.

Definition reject (m : string) (d : NativeMessagesDecoder) : Transition := (Some (invalid_stream m), d).

Definition on_message_start (d : NativeMessagesDecoder) (data_type : option string) (data : Value)
    : Transition :=
  if negb (says data_type "message_start") || started d || negb (get_and data "message" is_object)
     || pointer_and data "/message/usage" (negb ∘ is_object)
  then reject "invalid or duplicate native Messages message_start" d
  else (None, mkDecoder
    (merge_anthropic_usage (n_usage d) (default Null (pointer data "/message/usage")))
    (n_done d) true (message_delta_seen d) (terminal_delta_seen d) (seen_content_blocks d)
    (open_content_blocks d)).

Definition on_block_start (d : NativeMessagesDecoder) (data_type : option string) (data : Value)
    : Transition :=
  match u64_field data "index" with
  | None => reject "native Messages content_block_start is missing index" d
  | Some index =>
      match pointer data "/content_block/type" ≫= as_str with
      | None => reject "native Messages content_block_start is missing block type" d
      | Some block_type =>
          if negb (says data_type "content_block_start") || negb (started d) || message_delta_seen d
             || negb (get_and data "content_block" is_object)
             || negb (native_block_start_payload_valid block_type data)
             || bool_decide (index ∈ seen_content_blocks d)
          then reject "native Messages content block started out of sequence" d
          else (None, mkDecoder (n_usage d) (n_done d) (started d) (message_delta_seen d)
            (terminal_delta_seen d) ({[index]} ∪ seen_content_blocks d)
            (<[index := mkBlock block_type false]> (open_content_blocks d)))
      end
  end.

Definition on_block_delta (d : NativeMessagesDecoder) (data_type : option string) (data : Value)
    : Transition :=
  match u64_field data "index" with
  | None => reject "native Messages content_block_delta is missing index" d
  | Some index =>
      match pointer data "/delta/type" ≫= as_str with
      | None => reject "native Messages content_block_delta is missing delta type" d
      | Some delta_type =>
          match open_content_blocks d !! index with
          | None => reject "native Messages content_block_delta targets an unopened block" d
          | Some block =>
              let thinking := bool_decide (block_type block = "thinking"%string) in
              if negb (says data_type "content_block_delta") || negb (started d) || message_delta_seen d
                 || negb (get_and data "delta" is_object)
                 || negb (native_delta_matches_block (block_type block) delta_type)
                 || negb (native_delta_payload_valid delta_type data)
                 || (thinking && thinking_signature_seen block)
              then reject "native Messages content block delta arrived out of sequence" d
              else if thinking && bool_decide (delta_type = "signature_delta"%string) then
                (None, mkDecoder (n_usage d) (n_done d) (started d) (message_delta_seen d)
                  (terminal_delta_seen d) (seen_content_blocks d)
                  (<[index := mkBlock (block_type block) true]> (open_content_blocks d)))
              else (None, d)
          end
      end
  end.

Definition on_block_stop (d : NativeMessagesDecoder) (data_type : option string) (data : Value)
    : Transition :=
  match u64_field data "index" with
  | None => reject "native Messages content_block_stop is missing index" d
  | Some index =>
      let block := open_content_blocks d !! index in
      let d := mkDecoder (n_usage d) (n_done d) (started d) (message_delta_seen d)
                 (terminal_delta_seen d) (seen_content_blocks d) (delete index (open_content_blocks d)) in
      if negb (says data_type "content_block_stop") || negb (started d) || message_delta_seen d
         || match block with
            | None => true
            | Some block =>
                bool_decide (block_type block = "thinking"%string) && negb (thinking_signature_seen block)
            end
      then reject "native Messages content block stopped out of sequence" d
      else (None, d)
  end.

Definition on_message_delta (d : NativeMessagesDecoder) (data_type : option string) (data : Value)
    : Transition :=
  if negb (says data_type "message_delta") || negb (started d) || terminal_delta_seen d
     || negb (bool_decide (open_content_blocks d = ∅))
     || negb (get_and data "delta" is_object) || get_and data "usage" (negb ∘ is_object)
     || negb (pointer_and data "/delta/stop_reason" (λ v, is_null v || is_string v))
  then reject "native Messages message_delta arrived out of sequence" d
  else (None, mkDecoder (merge_anthropic_usage (n_usage d) (field_or_null data "usage"))
    (n_done d) (started d) true
    (terminal_delta_seen d || pointer_and data "/delta/stop_reason" is_string)
    (seen_content_blocks d) (open_content_blocks d)).

Definition transition (d : NativeMessagesDecoder) (e : SseEvent) (kind data_type : option string)
    (data : Value) : Transition :=
  if says kind "message_start" then on_message_start d data_type data
  else if says kind "content_block_start" then on_block_start d data_type data
  else if says kind "content_block_delta" then on_block_delta d data_type data
  else if says kind "content_block_stop" then on_block_stop d data_type data
  else if says kind "message_delta" then on_message_delta d data_type data
  else if says kind "error" then
    reject (default "Anthropic stream error"%string (pointer data "/error/message" ≫= as_str)) d
  else if says kind "message_stop" && says data_type "message_stop" then (None, d)
  else
    match kind with
    | Some extension =>
        if says (event e) extension && says data_type extension then (None, d)
        else reject "unsupported or discriminator-less native Messages event" d
    | None => reject "unsupported or discriminator-less native Messages event" d
    end.

(** What follows the match: a stop must end a complete message. *)
Definition conclude (kind data_type : option string) (data : Value) (d : NativeMessagesDecoder)
    : result ProviderError (list ProviderStreamEvent) * NativeMessagesDecoder :=
  let terminal := says kind "message_stop" && says data_type "message_stop" in
  if terminal && (negb (started d) || negb (terminal_delta_seen d)
                  || negb (bool_decide (open_content_blocks d = ∅)))
  then (Err (invalid_stream
         "native Messages message_stop arrived before a complete message sequence"), d)
  else if terminal && negb (n_done d) then
    (Ok [Data kind data; Done (n_usage d)],
     mkDecoder (n_usage d) true (started d) (message_delta_seen d)
       (terminal_delta_seen d) (seen_content_blocks d) (open_content_blocks d))
  else (Ok [Data kind data], d).

Definition decode_event (d : NativeMessagesDecoder) (e : SseEvent)
    : result ProviderError (list ProviderStreamEvent) * NativeMessagesDecoder :=
  if n_done d then (Err (invalid_stream "native Messages event arrived after message_stop"), d)
  else
    match from_str (data e) with
    | Err error => (Err (invalid_stream error), d)
    | Ok data =>
        let data_type := str_field data "type" in
        match event_kind e data_type with
        | None => (Err (invalid_stream "native Messages SSE event name disagrees with data.type"), d)
        | Some kind =>
            if is_rate_limit_payload data then
              (Err (rate_limited_stream (default "Anthropic stream rate limited"%string
                 (pointer data "/error/message" ≫= as_str))), d)
            else
              match transition d e kind data_type data with
              | (Some err, d) => (Err err, d)
              | (None, d) => conclude kind data_type data d
              end
        end
    end.

Definition decoder_finish (d : NativeMessagesDecoder)
    : result ProviderError (list ProviderStreamEvent) * NativeMessagesDecoder :=
  if n_done d then (Ok [], d)
  else (Ok [Done (n_usage d)],
        mkDecoder (n_usage d) true (started d) (message_delta_seen d) (terminal_delta_seen d)
          (seen_content_blocks d) (open_content_blocks d)).

#[global] Instance NativeMessagesDecoder_impl : ProviderStreamDecoder NativeMessagesDecoder :=
  {| decode := decode_event; finish := decoder_finish |}.

(** ** The grammar of a message *)

Inductive Token :=
| MessageStart
| BlockStart (index : Z) (kind : string)
| BlockDelta (index : Z) (kind : string)
| BlockStop (index : Z)
| MessageDelta (final : bool)
| MessageStop.

(** The lifecycle token of an event; pings and extensions have none. *)
Definition token_of (e : SseEvent) : option Token :=
  match from_str (data e) with
  | Err _ => None
  | Ok v =>
      let kind := or_else (event e) (str_field v "type") in
      if says kind "message_start" then Some MessageStart
      else if says kind "content_block_start" then
        index ← u64_field v "index"; block ← pointer v "/content_block/type" ≫= as_str;
        Some (BlockStart index block)
      else if says kind "content_block_delta" then
        index ← u64_field v "index"; delta ← pointer v "/delta/type" ≫= as_str;
        Some (BlockDelta index delta)
      else if says kind "content_block_stop" then
        index ← u64_field v "index"; Some (BlockStop index)
      else if says kind "message_delta" then
        Some (MessageDelta (pointer_and v "/delta/stop_reason" is_string))
      else if says kind "message_stop" then Some MessageStop
      else None
  end.

Definition block_index (t : Token) : option Z :=
  match t with BlockStart i _ | BlockDelta i _ | BlockStop i => Some i | _ => None end.

(** The life of one content block. *)
Definition block_tokens (i : Z) (body : list Token) : list Token :=
  filter (λ t, block_index t = Some i) body.

(** Deltas fit the block; a thinking block is signed once, by its last delta. *)
Definition deltas_ok (kind : string) (signed : bool) (deltas : list string) : Prop :=
  Forall (λ delta, native_delta_matches_block kind delta = true) deltas ∧
  (kind = "thinking"%string →
   ∃ before, Forall (λ delta, delta ≠ "signature_delta"%string) before ∧
     deltas = before ++ if signed then ["signature_delta"%string] else []).

Definition block_open (i : Z) (body : list Token) (b : NativeContentBlockState) : Prop :=
  ∃ deltas, block_tokens i body = BlockStart i (block_type b) :: (BlockDelta i <$> deltas) ∧
    deltas_ok (block_type b) (thinking_signature_seen b) deltas.

Definition block_closed (i : Z) (body : list Token) : Prop :=
  ∃ kind deltas signed, block_tokens i body = BlockStart i kind :: (BlockDelta i <$> deltas) ++ [BlockStop i] ∧
    deltas_ok kind signed deltas ∧ (kind = "thinking"%string → signed = true).

(** One start, then the blocks, each opened once and closed, then the message
    deltas of which exactly the last one states a stop reason, then the stop. *)
Definition complete_message (tokens : list Token) : Prop :=
  ∃ body deltas,
    tokens = MessageStart :: body ++ deltas ++ [MessageDelta true; MessageStop] ∧
    Forall (λ t, is_Some (block_index t)) body ∧ Forall (eq (MessageDelta false)) deltas ∧
    ∀ i, block_tokens i body = [] ∨ block_closed i body.

(** ** The decoder follows the grammar *)

Definition blocks_follow (d : NativeMessagesDecoder) (body : list Token) : Prop :=
  ∀ i, match open_content_blocks d !! i with
       | Some b => i ∈ seen_content_blocks d ∧ block_open i body b
       | None => if decide (i ∈ seen_content_blocks d) then block_closed i body else block_tokens i body = []
       end.

Definition deltas_follow (d : NativeMessagesDecoder) (deltas : list Token) : Prop :=
  if message_delta_seen d then
    open_content_blocks d = ∅ ∧
    ∃ before, deltas = before ++ [MessageDelta (terminal_delta_seen d)] ∧
      Forall (eq (MessageDelta false)) before
  else deltas = [] ∧ terminal_delta_seen d = false.

Definition live (d : NativeMessagesDecoder) (tokens : list Token) : Prop :=
  if started d then
    ∃ body deltas, tokens = MessageStart :: body ++ deltas ∧
      Forall (λ t, is_Some (block_index t)) body ∧ deltas_follow d deltas ∧ blocks_follow d body
  else tokens = [] ∧ deltas_follow d [] ∧ blocks_follow d [].

Lemma block_tokens_snoc i body t :
  block_tokens i (body ++ [t]) =
  block_tokens i body ++ if decide (block_index t = Some i) then [t] else [].
Proof. unfold block_tokens. rewrite filter_app. by rewrite filter_cons, filter_nil. Qed.

Lemma block_tokens_other i j body t :
  block_index t = Some j → i ≠ j → block_tokens i (body ++ [t]) = block_tokens i body.
Proof. intros Ht Hne. rewrite block_tokens_snoc, decide_False by congruence. apply app_nil_r. Qed.

Lemma blocks_follow_other d d' body t j :
  blocks_follow d body → block_index t = Some j →
  (∀ i, i ≠ j → open_content_blocks d' !! i = open_content_blocks d !! i) →
  (∀ i, i ≠ j → i ∈ seen_content_blocks d' ↔ i ∈ seen_content_blocks d) →
  (match open_content_blocks d' !! j with
   | Some b => j ∈ seen_content_blocks d' ∧ block_open j (body ++ [t]) b
   | None => if decide (j ∈ seen_content_blocks d') then block_closed j (body ++ [t])
             else block_tokens j (body ++ [t]) = []
   end) →
  blocks_follow d' (body ++ [t]).
Proof.
  intros Hf Ht Ho Hs Hj i. destruct (decide (i = j)) as [->|Hne]; [done|].
  specialize (Hf i). rewrite Ho by done. unfold block_open, block_closed in *.
  rewrite (block_tokens_other i j body t Ht Hne).
  destruct (open_content_blocks d !! i).
  - rewrite Hs by done. done.
  - rewrite (decide_ext _ _ _ _ (Hs i Hne)). done.
Qed.

Lemma message_start_live d data_type v d' tokens :
  live d tokens → on_message_start d data_type v = (None, d') →
  live d' (tokens ++ [MessageStart]).
Proof.
  intros Hl. unfold on_message_start. case_match eqn:Hg; [done|]. reflect_bools. intros [= <-].
  unfold live in *. replace (started d) with false in Hl by done. destruct Hl as (-> & Hd & Hb). simpl. exists [], []. split_and!; [done|constructor|exact Hd|exact Hb].
Qed.

(** A block may only move while the message is started and not ending. *)
Lemma live_body d tokens :
  live d tokens → started d = true → message_delta_seen d = false →
  ∃ body, tokens = MessageStart :: body ∧ Forall (λ t, is_Some (block_index t)) body ∧
    terminal_delta_seen d = false ∧ blocks_follow d body.
Proof.
  unfold live, deltas_follow. intros Hl Hs Hm. rewrite Hs, Hm in Hl.
  destruct Hl as (body & deltas & -> & Hb & [-> Ht] & Hf). exists body. by rewrite app_nil_r.
Qed.

Lemma body_live d body t j :
  started d = true → message_delta_seen d = false → terminal_delta_seen d = false →
  Forall (λ t, is_Some (block_index t)) body → block_index t = Some j → blocks_follow d (body ++ [t]) →
  live d ((MessageStart :: body) ++ [t]).
Proof.
  intros Hs Hm Ht Hb Hj Hf. unfold live, deltas_follow. rewrite Hs, Hm. exists (body ++ [t]), [].
  split_and!; [by rewrite app_nil_r| |done|done|done].
  apply Forall_app. split; [done|]. constructor; [by rewrite Hj|constructor].
Qed.

Lemma block_start_live d data_type v d' tokens :
  live d tokens → on_block_start d data_type v = (None, d') →
  ∃ i kind, u64_field v "index" = Some i ∧ pointer v "/content_block/type" ≫= as_str = Some kind ∧
    live d' (tokens ++ [BlockStart i kind]).
Proof.
  intros Hl. unfold on_block_start. destruct (u64_field v "index") as [i|]; [|done].
  destruct (pointer v "/content_block/type" ≫= as_str) as [kind|]; [|done].
  case_match eqn:Hg; [done|]. reflect_bools. intros [= <-]. exists i, kind. split_and!; [done..|].
  destruct (live_body d tokens) as (body & -> & Hb & Ht & Hf); [done..|].
  apply (body_live _ _ _ i); [done..|]. eapply (blocks_follow_other d _ body _ i); simpl; [done|done|..].
  - intros j Hj. by rewrite lookup_insert_ne.
  - set_solver.
  - rewrite lookup_insert_eq. split; [set_solver|]. specialize (Hf i).
    assert (block_tokens i body = []) as Hnil.
    { destruct (open_content_blocks d !! i); [naive_solver|]. by rewrite decide_False in Hf. }
    exists []. rewrite block_tokens_snoc, Hnil, decide_True by done. split; [done|].
    split; [constructor|]. intros _. exists []. by split; [constructor|].
Qed.

Lemma deltas_ok_snoc kind signed deltas delta :
  deltas_ok kind signed deltas → native_delta_matches_block kind delta = true →
  (kind = "thinking"%string → signed = false) →
  deltas_ok kind (signed || bool_decide (kind = "thinking"%string ∧ delta = "signature_delta"%string))
    (deltas ++ [delta]).
Proof.
  intros [Hm Hs] Hd Hsigned. split; [apply Forall_app; by repeat constructor|].
  intros Hk. destruct (Hs Hk) as (before & Hb & ->). rewrite (Hsigned Hk), app_nil_r. simpl.
  destruct (decide (delta = "signature_delta"%string)) as [->|Hne].
  - exists before. by rewrite bool_decide_true.
  - exists (before ++ [delta]). rewrite bool_decide_false by naive_solver. rewrite app_nil_r.
    split; [|done]. apply Forall_app. by repeat constructor.
Qed.

Lemma block_delta_live d data_type v d' tokens :
  live d tokens → on_block_delta d data_type v = (None, d') →
  ∃ i delta, u64_field v "index" = Some i ∧ pointer v "/delta/type" ≫= as_str = Some delta ∧
    live d' (tokens ++ [BlockDelta i delta]).
Proof.
  intros Hl. unfold on_block_delta. destruct (u64_field v "index") as [i|]; [|done].
  destruct (pointer v "/delta/type" ≫= as_str) as [delta|]; [|done].
  destruct (open_content_blocks d !! i) as [b|] eqn:Hi; [|done].
  case_match eqn:Hg; [done|]. apply orb_false_elim in Hg as [Hg Hsig]. reflect_bools.
  destruct (live_body d tokens) as (body & -> & Hb & Ht & Hf); [done..|].
  pose proof (Hf i) as Hopen. rewrite Hi in Hopen. destruct Hopen as (Hseen & deltas & Htok & Hok).
  set (signed := thinking_signature_seen b ||
    bool_decide (block_type b = "thinking"%string ∧ delta = "signature_delta"%string)).
  assert (block_open i (body ++ [BlockDelta i delta]) (mkBlock (block_type b) signed)) as Ho.
  { exists (deltas ++ [delta]). rewrite block_tokens_snoc, decide_True, Htok, fmap_app by done.
    split; [done|]. apply deltas_ok_snoc; [done..|]. intros Hth. by rewrite bool_decide_true in Hsig. }
  intros Hd. exists i, delta. split_and!; [done..|].
  assert (∃ blocks, d' = mkDecoder (n_usage d) (n_done d) (started d) (message_delta_seen d)
    (terminal_delta_seen d) (seen_content_blocks d) blocks ∧
    blocks !! i = Some (mkBlock (block_type b) signed) ∧
    ∀ j, j ≠ i → blocks !! j = open_content_blocks d !! j) as (blocks & -> & Hbi & Hbj).
  { unfold signed. case_match eqn:Hc; injection Hd as <-; reflect_bools.
    - eexists. split; [done|]. rewrite lookup_insert_eq, (bool_decide_true (_ ∧ _)) by done.
      rewrite orb_true_r. split; [done|]. intros. by rewrite lookup_insert_ne.
    - exists (open_content_blocks d). split; [by destruct d|]. split; [|done]. rewrite Hi.
      rewrite bool_decide_false, orb_false_r; [by destruct b|]. intros [??].
      by rewrite !bool_decide_true in Hc. }
  apply (body_live _ _ _ i); [done..|]. eapply (blocks_follow_other d _ body _ i); simpl; [done|done|done|done|].
  by rewrite Hbi.
Qed.

Lemma block_stop_live d data_type v d' tokens :
  live d tokens → on_block_stop d data_type v = (None, d') →
  ∃ i, u64_field v "index" = Some i ∧ live d' (tokens ++ [BlockStop i]).
Proof.
  intros Hl. unfold on_block_stop. destruct (u64_field v "index") as [i|]; [|done]. simpl.
  destruct (open_content_blocks d !! i) as [b|] eqn:Hi; [|rewrite orb_true_r; by intros [=]].
  case_match eqn:Hg; [done|]. apply orb_false_elim in Hg as [Hg Hsig]. reflect_bools. intros [= <-].
  exists i. split; [done|].
  destruct (live_body d tokens) as (body & -> & Hb & Ht & Hf); [done..|].
  pose proof (Hf i) as Hopen. rewrite Hi in Hopen. destruct Hopen as (Hseen & deltas & Htok & Hok).
  apply (body_live _ _ _ i); [done..|]. eapply (blocks_follow_other d _ body _ i); simpl; [done|done|..].
  - intros j Hj. by rewrite lookup_delete_ne.
  - done.
  - rewrite lookup_delete_eq, decide_True by done.
    exists (block_type b), deltas, (thinking_signature_seen b).
    rewrite block_tokens_snoc, decide_True, Htok by done. split_and!; [done|done|].
    intros Hth. rewrite bool_decide_true in Hsig by done. by destruct (thinking_signature_seen b).
Qed.

Lemma message_delta_live d data_type v d' tokens :
  live d tokens → on_message_delta d data_type v = (None, d') →
  live d' (tokens ++ [MessageDelta (pointer_and v "/delta/stop_reason" is_string)]).
Proof.
  intros Hl. unfold on_message_delta. case_match eqn:Hg; [done|]. reflect_bools. intros [= <-].
  unfold live in *. simpl. match goal with H : started d = true |- _ => rewrite H in * end.
  destruct Hl as (body & deltas & -> & Hb & Hd & Hf).
  exists body, (deltas ++ [MessageDelta (pointer_and v "/delta/stop_reason" is_string)]).
  split_and!; [by rewrite app_comm_cons, (assoc_L (++))|done| |exact Hf].
  unfold deltas_follow in *. simpl. match goal with H : terminal_delta_seen d = false |- _ => rewrite H in * end.
  split; [done|]. exists deltas. split; [done|].
  destruct (message_delta_seen d); [|destruct Hd as [-> _]; constructor].
  destruct Hd as (_ & before & -> & Hbefore). apply Forall_app. by repeat constructor.
Qed.

Lemma live_complete d tokens :
  live d tokens → started d = true → terminal_delta_seen d = true → open_content_blocks d = ∅ →
  complete_message (tokens ++ [MessageStop]).
Proof.
  unfold live, deltas_follow. intros Hl Hs Ht Ho. rewrite Hs in Hl.
  destruct Hl as (body & deltas & -> & Hb & Hd & Hf). rewrite Ht in Hd.
  destruct (message_delta_seen d); [|naive_solver]. destruct Hd as (_ & before & -> & Hbefore).
  exists body, before. split_and!; [|done..|].
  - by rewrite <-app_comm_cons, <-!(assoc_L (++)).
  - intros i. specialize (Hf i). rewrite Ho, lookup_empty in Hf. case_decide; auto.
Qed.

Lemma transition_done d e kind data_type v d' :
  transition d e kind data_type v = (None, d') → n_done d' = n_done d.
Proof.
  unfold transition, on_message_start, on_block_start, on_block_delta, on_block_stop, on_message_delta,
    reject. repeat case_match; intros [= <-]; done.
Qed.

(** The token of an event, from its kind and its data. *)
Definition token (kind : option string) (v : Value) : option Token :=
  if says kind "message_start" then Some MessageStart
  else if says kind "content_block_start" then
    index ← u64_field v "index"; block ← pointer v "/content_block/type" ≫= as_str;
    Some (BlockStart index block)
  else if says kind "content_block_delta" then
    index ← u64_field v "index"; delta ← pointer v "/delta/type" ≫= as_str;
    Some (BlockDelta index delta)
  else if says kind "content_block_stop" then
    index ← u64_field v "index"; Some (BlockStop index)
  else if says kind "message_delta" then
    Some (MessageDelta (pointer_and v "/delta/stop_reason" is_string))
  else if says kind "message_stop" then Some MessageStop
  else None.

Lemma transition_live d e kind data_type v d' tokens :
  live d tokens → transition d e kind data_type v = (None, d') →
  if says kind "message_stop" then d' = d ∧ says data_type "message_stop" = true
  else live d' (tokens ++ option_list (token kind v)).
Proof.
  intros Hl. unfold transition, token.
  destruct (says kind "message_start") eqn:H1.
  { apply says_true in H1 as ->. by apply message_start_live. }
  destruct (says kind "content_block_start") eqn:H2.
  { apply says_true in H2 as ->. intros (i & k & -> & -> & ?)%(block_start_live _ _ _ _ tokens); done. }
  destruct (says kind "content_block_delta") eqn:H3.
  { apply says_true in H3 as ->. intros (i & k & -> & -> & ?)%(block_delta_live _ _ _ _ tokens); done. }
  destruct (says kind "content_block_stop") eqn:H4.
  { apply says_true in H4 as ->. intros (i & -> & ?)%(block_stop_live _ _ _ _ tokens); done. }
  destruct (says kind "message_delta") eqn:H5.
  { apply says_true in H5 as ->. by apply message_delta_live. }
  destruct (says kind "error"); [done|].
  destruct (says kind "message_stop") eqn:H6; simpl.
  - destruct (says data_type "message_stop") eqn:H7; [by intros [= <-]|].
    apply says_true in H6 as ->. rewrite H7, andb_false_r. done.
  - rewrite app_nil_r. destruct kind; [|done]. case_match; [|done]. by intros [= <-].
Qed.

(** One event: the state follows the grammar and the event is handed on as it is. *)
Lemma decode_live d e out d' tokens :
  live d tokens → decode_event d e = (Ok out, d') →
  ∃ v, from_str (data e) = Ok v ∧ n_done d = false ∧
    let relayed := Data (or_else (event e) (str_field v "type")) v in
    if n_done d'
    then complete_message (tokens ++ option_list (token_of e)) ∧ out = [relayed; Done (n_usage d')]
    else live d' (tokens ++ option_list (token_of e)) ∧ out = [relayed].
Proof.
  intros Hl. unfold decode_event, token_of. destruct (n_done d) eqn:Hdone; [done|].
  destruct (from_str (data e)) as [v|err]; [|done]. cbv zeta.
  destruct (event_kind e _) as [kind|] eqn:Hk; [|done]. apply event_kind_name in Hk.
  destruct (is_rate_limit_payload v); [done|].
  destruct (transition d e kind (str_field v "type") v) as [[err|] d1] eqn:Htr; [done|].
  pose proof (transition_done _ _ _ _ _ _ Htr) as Hn. rewrite Hdone in Hn.
  apply (transition_live _ _ _ _ _ _ tokens) in Htr; [|done].
  intros Hc. exists v. rewrite <-Hk. fold (token kind v). split_and!; [done..|]. revert Hc. unfold conclude.
  destruct (says kind "message_stop") eqn:Hstop; simpl.
  - destruct Htr as [-> ->]. simpl. case_match eqn:Hg; [done|]. reflect_bools. rewrite Hn. simpl.
    intros [= <- <-]. simpl. split; [|done]. apply says_true in Hstop as ->.
    by apply (live_complete d).
  - intros [= <- <-]. by rewrite Hn.
Qed.

Lemma transition_usage d e kind v d' :
  kind = or_else (event e) (str_field v "type") → from_str (data e) = Ok v →
  transition d e kind (str_field v "type") v = (None, d') →
  n_usage d' = reported_usage (n_usage d) e.
Proof.
  intros Hk Hv. unfold reported_usage, stream_kind, transition. rewrite Hv, <-Hk.
  destruct (says kind "message_start") eqn:H1.
  { unfold on_message_start, reject. case_match; by intros [= <-]. }
  destruct (says kind "content_block_start") eqn:H2.
  { apply says_true in H2 as ->. says_simpl. unfold on_block_start, reject.
    repeat case_match; by intros [= <-]. }
  destruct (says kind "content_block_delta") eqn:H3.
  { apply says_true in H3 as ->. says_simpl. unfold on_block_delta, reject.
    repeat case_match; by intros [= <-]. }
  destruct (says kind "content_block_stop") eqn:H4.
  { apply says_true in H4 as ->. says_simpl. unfold on_block_stop, reject.
    repeat case_match; by intros [= <-]. }
  destruct (says kind "message_delta"); [unfold on_message_delta, reject; case_match; by intros [= <-]|].
  unfold reject. repeat case_match; by intros [= <-].
Qed.

Lemma decode_usage d e out d' :
  decode_event d e = (Ok out, d') → n_usage d' = reported_usage (n_usage d) e.
Proof.
  unfold decode_event. destruct (n_done d); [done|].
  destruct (from_str (data e)) as [v|err] eqn:Hv; [|done].
  destruct (event_kind e _) as [kind|] eqn:Hk; [|done]. apply event_kind_name in Hk.
  destruct (is_rate_limit_payload v); [done|].
  destruct (transition d e kind _ v) as [[err|] d1] eqn:Htr; [done|].
  apply transition_usage in Htr as <-; [|done..]. unfold conclude. repeat case_match; by intros [= <- <-].
Qed.

(** An event handed on as it is, under its name. *)
Definition relayed (e : SseEvent) (out : ProviderStreamEvent) : Prop :=
  ∃ v, from_str (data e) = Ok v ∧ out = Data (or_else (event e) (str_field v "type")) v.

Lemma decode_all_done d events outs d' :
  n_done d = true → decode_all d events = (Ok outs, d') → events = [] ∧ outs = [] ∧ d' = d.
Proof.
  intros Hd. destruct events as [|e events]; simpl; [by intros [= <- <-]|].
  unfold decode_event. by rewrite Hd.
Qed.

Lemma decode_all_live d events outs d' tokens :
  live d tokens → n_done d = false → decode_all d events = (Ok outs, d') →
  n_usage d' = foldl reported_usage (n_usage d) events ∧
  ∃ relays, Forall2 relayed events relays ∧
    if n_done d'
    then complete_message (tokens ++ omap token_of events) ∧ outs = relays ++ [Done (n_usage d')]
    else live d' (tokens ++ omap token_of events) ∧ outs = relays.
Proof.
  revert d outs tokens. induction events as [|e events IH]; intros d outs tokens Hl Hn; cbn [decode_all foldl].
  { intros [= <- <-]. split; [done|]. exists []. rewrite Hn, app_nil_r. split; [constructor|done]. }
  destruct (decode d e) as [[out|err] d1] eqn:He; [|done].
  destruct (decode_all d1 events) as [[outs1|err] d2] eqn:Hall; [|done]. intros [= <- <-].
  apply decode_usage in He as Hu. rewrite <-Hu.
  apply (decode_live _ _ _ _ tokens) in He as (v & Hv & _ & He); [|done].
  assert (relayed e (Data (or_else (event e) (str_field v "type")) v)) as Hr by by exists v.
  assert (option_list (token_of e) ++ omap token_of events = omap token_of (e :: events)) as Htok
    by (simpl; by destruct (token_of e)).
  destruct (n_done d1) eqn:Hd1.
  - apply decode_all_done in Hall as (-> & -> & ->); [|done]. rewrite Hd1, <-Htok, app_nil_r.
    destruct He as [Hc ->]. split; [done|]. eexists [_]. split; [by repeat constructor|]. done.
  - destruct He as [Hl1 ->]. destruct (IH _ _ _ Hl1 Hd1 Hall) as (Hu2 & relays & Hrs & Hd2).
    split; [done|]. eexists (_ :: relays). split; [by constructor|]. rewrite <-Htok, (assoc_L (++)).
    destruct (n_done d2); by destruct Hd2 as [? ->].
Qed.

(** ** Properties *)

(** A native stream that reached its end was a complete message.  When the
    decoder has accepted a [message_stop], the events form one message: a single
    start, content blocks each opened once, fed only with deltas of its kind (a
    thinking block signed exactly once, by its last delta) and closed, message
    deltas of which exactly the last states a stop reason, and the stop as the very
    last event.  All of them were handed on unchanged and in order, followed by
    one [Done] with the usage they reported. *)
Theorem native_stream_complete (events : list SseEvent) outs d :
  decode_all new events = (Ok outs, d) → n_done d = true →
  complete_message (omap token_of events) ∧
  ∃ relays, Forall2 relayed events relays ∧
    outs = relays ++ [Done (foldl reported_usage ModelUsage_default events)].
Proof.
  intros Hall Hd. apply (decode_all_live _ _ _ _ []) in Hall as (Hu & relays & Hr & H); [| |done].
  - rewrite Hd in H. destruct H as [Hc ->]. rewrite Hu. split; [done|]. by exists relays.
  - unfold live, deltas_follow, blocks_follow. simpl. split_and!; [done..|]. intros i.
    rewrite lookup_empty, decide_False by set_solver. done.
Qed.

End Native.

(** ** Witness *)

Definition obj (kind : string) (fs : list (string * json)) : json := JObj (("type"%string, JStr kind) :: fs).

Definition demo_parse (s : string) : result string json :=
  let block := ("index"%string, JU64 0) in
  if decide (s = "message_start"%string) then Ok (obj s [("message"%string, JObj [])])
  else if decide (s = "content_block_start"%string) then
    Ok (obj s [block; ("content_block"%string, obj "text" [("text"%string, JStr "")])])
  else if decide (s = "content_block_delta"%string) then
    Ok (obj s [block; ("delta"%string, obj "text_delta" [("text"%string, JStr "hi")])])
  else if decide (s = "content_block_stop"%string) then Ok (obj s [block])
  else if decide (s = "message_delta"%string) then
    Ok (obj s [("delta"%string, JObj [("stop_reason"%string, JStr "end_turn")]);
               ("usage"%string, JObj [("output_tokens"%string, JU64 2)])])
  else Ok (obj s []).

Definition demo_json : SerdeJson := json_model demo_parse (λ _, ""%string).

(** The texts name their parses. *)
Definition demo_events : list SseEvent :=
  (λ kind, mkEvent (Some kind) kind) <$>
    ["message_start"; "ping"; "content_block_start"; "content_block_delta"; "content_block_stop";
     "message_delta"; "message_stop"]%string.

Definition demo_result :=
  @decode_all demo_json _ (@NativeMessagesDecoder_impl demo_json) new demo_events.
Definition demo_outs : list (@ProviderStreamEvent demo_json) :=
  match demo_result.1 with Ok outs => outs | Err _ => [] end.

Lemma native_stream_complete_witness :
  complete_message [MessageStart; BlockStart 0 "text"; BlockDelta 0 "text_delta"; BlockStop 0;
                    MessageDelta true; MessageStop] ∧
  last demo_outs = Some (Done (mkModelUsage 0 2 0 0 0)).
Proof.
  assert (demo_result = (Ok demo_outs, demo_result.2)) as Hd
    by (vm_cast_no_check (eq_refl demo_result)).
  assert (n_done demo_result.2 = true) as Hn by (vm_cast_no_check (eq_refl true)).
  destruct (@native_stream_complete demo_json demo_events demo_outs demo_result.2 Hd Hn)
    as (Hc & relays & _ & Ho).
  split; [|rewrite Ho, last_snoc; vm_cast_no_check (eq_refl (Some (@Done demo_json (mkModelUsage 0 2 0 0 0))))].
  assert (omap (@token_of demo_json) demo_events =
    [MessageStart; BlockStart 0 "text"; BlockDelta 0 "text_delta"; BlockStop 0; MessageDelta true;
     MessageStop]) as Ht
    by (vm_cast_no_check (eq_refl (omap (@token_of demo_json) demo_events))).
  rewrite <-Ht. exact Hc.
Defined.

End Native.
