(* ===== verification/Transport.v ===== *)
(** * The HTTP transport ([crates/gateway-transport/src/lib.rs]).

    The bounds on one upstream call, how its answer is read and how its failure
    is classified.  The HTTP client (reqwest), the network and the clock are not
    part of the repository: [network] answers the n-th request that is sent and
    [clock] is the n-th reading of [Instant::now]; a wait that outlasts its
    timeout is an answer of its own ([NoHeaders], [Stalled]). *)

From stdpp Require Import pretty.
From S2P Require Import Prelude Text Json Sse ProviderError Pricing Admission GatewayError Provider.

Module Transport.
Import GatewayError.GatewayError (TimeoutKind, Connect, ResponseHeaders, BufferedBody, StreamIdle, Overall,
  TimeoutBound, Phase, WalkBudget, TransportError, TProvider, TUpstream, THttp, TTimeout, TBodyTooLarge,
  transport_from_upstream).
Import ProviderError.ProviderError (ProviderError).
Import Provider.Provider.

Inductive AuthScheme := Bearer | Header (name : string).

Record Upstream := mkUpstream { base_url : string; api_key : string; auth : AuthScheme }.

Record TransportLimits := mkLimits {
  connect_timeout : Z;
  response_header_timeout : Z;
  buffered_body_timeout : Z;
  stream_idle_timeout : Z;
  max_response_bytes : Z;
  max_error_bytes : Z;
}.

Definition NANOS_PER_MILLI : Z := 1000000.
Definition as_millis (d : Z) : Z := d `div` NANOS_PER_MILLI.

Definition TransportLimits_default : TransportLimits := {|
  connect_timeout := 5000 * NANOS_PER_MILLI;
  response_header_timeout := 30000 * NANOS_PER_MILLI;
  buffered_body_timeout := 30000 * NANOS_PER_MILLI;
  stream_idle_timeout := 120000 * NANOS_PER_MILLI;
  max_response_bytes := 32 * 1024 * 1024;
  max_error_bytes := 64 * 1024;
|}.

(** [Deadline(Option<Instant>)] *)
Definition Deadline : Type := option Z.
Definition at_instant (instant : Z) : Deadline := Some instant.
Definition unbounded : Deadline := None.
Definition remaining (d : Deadline) (now : Z) : option Z :=
  (λ instant, saturating_duration_since instant now) <$> d.
Definition is_expired (d : Deadline) (now : Z) : bool := bool_decide (remaining d now = Some 0).

Definition phase (k : TimeoutKind) : string :=
  match k with
  | Connect => "connecting to the provider"
  | ResponseHeaders => "waiting for provider response headers"
  | BufferedBody => "reading the provider response body"
  | StreamIdle => "waiting for the next provider stream chunk"
  | Overall => "the request's failover budget"
  end.

Definition timeout_message (kind : TimeoutKind) (bound : TimeoutBound) (budget_ms : Z) : string :=
  match kind, bound with
  | Overall, _ => "the request's failover budget was spent before this attempt was dispatched"
  | kind, WalkBudget =>
      phase kind +:+ " exceeded the " +:+ pretty budget_ms +:+ "ms left of the request's failover budget"
  | kind, Phase => phase kind +:+ " exceeded its " +:+ pretty budget_ms +:+ "ms bound"
  end.

(** ** The client and the network *)

(** A [reqwest::Error]: its text, and its URL as the URL library prints it whole
    and with query, fragment, user and password removed. *)
Record ReqwestError := mkReqwestError {
  is_timeout : bool;
  error_text : string;
  error_url : option (string * string);
}.

Inductive ChunkRead := Chunk (bs : bytes) | Broken (e : ReqwestError) | Stalled.

(** The successive reads of a body, [None] at its end; a body need not end. *)
Definition Reads := nat → option ChunkRead.

(** An answer, and how many of its reads are made before the timeout around the
    reading of a whole body; the reads of a stream are under no such timeout. *)
Record HttpResponse := mkReply { http_status : Z; http_reads : Reads; reads_in_time : nat }.

Fixpoint reads_from (s : Reads) (i n : nat) : list ChunkRead :=
  match n with
  | O => [Stalled]
  | S n => match s i with Some c => c :: reads_from s (S i) n | None => [] end
  end.

(** What reading the whole body sees. *)
Definition http_body (r : HttpResponse) : list ChunkRead := reads_from (http_reads r) 0 (reads_in_time r).

(** An answer with a body of so many reads, all in time. *)
Definition mkHttpResponse (status : Z) (chunks : list ChunkRead) : HttpResponse :=
  mkReply status (λ i, chunks !! i) (S (length chunks)).

Inductive SendOutcome := Answered (r : HttpResponse) | SendFailed (e : ReqwestError) | NoHeaders.

Record HttpRequest := mkHttpRequest {
  url : string;
  credential_header : string * string;
  request_headers : list (string * string);
  request_body : string;
}.

(** What has been asked of the world so far. *)
Record Net := mkNet { reads : nat; sent : list HttpRequest }.

Section Transport.
Context {J : SerdeJson} (clock : nat → Z) (network : nat → HttpRequest → SendOutcome)
  (limits : TransportLimits).

Definition now (n : Net) : Z * Net := (clock (reads n), mkNet (S (reads n)) (sent n)).

Definition send_request (r : HttpRequest) (n : Net) : SendOutcome * Net :=
  (network (length (sent n)) r, mkNet (reads n) (sent n ++ [r])).

(** ** Failures *)

Definition redact_url (message : string) (url : option (string * string)) : string :=
  match url with
  | None => message
  | Some (whole, redacted) => text (replace (b whole) (b redacted) (b message))
  end.

Definition transport_failure (e : ReqwestError) : TransportError :=
  THttp (redact_url (error_text e) (error_url e)).

Definition classify (e : ReqwestError) : TransportError :=
  if is_timeout e then TTimeout Connect Phase (as_millis (connect_timeout limits))
  else transport_failure e.

Definition redacted_body (upstream : Upstream) (body : string) : string :=
  text (replace (b (api_key upstream)) (b "[REDACTED]") (b body)).

Definition upstream_failure (provider : string) (upstream : Upstream) (status : Z) (body : string)
    : TransportError :=
  transport_from_upstream provider status (redacted_body upstream body).

(** ** Bounded waiting and reading *)

Definition budget (own : Z) (deadline : Deadline) (n : Net)
    : result TransportError (Z * TimeoutBound) * Net :=
  match deadline with
  | None => (Ok (own, Phase), n)
  | Some _ =>
      let '(t, n) := now n in
      match remaining deadline t with
      | Some time_left =>
          if time_left =? 0 then (Err (TTimeout Overall WalkBudget 0), n)
          else if time_left <? own then (Ok (time_left, WalkBudget), n)
          else (Ok (own, Phase), n)
      | None => (Ok (own, Phase), n)
      end
  end.

Definition send_bounded (req : HttpRequest) (deadline : Deadline) (n : Net)
    : result TransportError HttpResponse * Net :=
  match budget (response_header_timeout limits) deadline n with
  | (Err e, n) => (Err e, n)
  | (Ok (wait, bound), n) =>
      match send_request req n with
      | (Answered resp, n) => (Ok resp, n)
      | (SendFailed e, n) => (Err (classify e), n)
      | (NoHeaders, n) => (Err (TTimeout ResponseHeaders bound (as_millis wait)), n)
      end
  end.

(** [None]: the wait for a chunk outlasted the timeout around the read. *)
Fixpoint read_bounded (limit : Z) (body : bytes) (chunks : list ChunkRead)
    : option (result TransportError string) :=
  match chunks with
  | [] => Some (Ok (text (from_utf8_lossy body)))
  | Stalled :: _ => None
  | Broken e :: _ => Some (Err (transport_failure e))
  | Chunk bs :: chunks =>
      if limit <? Z.of_nat (length body) + Z.of_nat (length bs) then Some (Err (TBodyTooLarge limit))
      else read_bounded limit (body ++ bs) chunks
  end.

Fixpoint read_truncated (limit : nat) (body : bytes) (chunks : list ChunkRead) : option string :=
  if (length body <? limit)%nat then
    match chunks with
    | [] | Broken _ :: _ => Some (text (from_utf8_lossy body))
    | Stalled :: _ => None
    | Chunk bs :: chunks => read_truncated limit (body ++ take (limit - length body) bs) chunks
    end
  else Some (text (from_utf8_lossy body)).

Definition buffered_body (resp : HttpResponse) (deadline : Deadline) (n : Net)
    : result TransportError string * Net :=
  match budget (buffered_body_timeout limits) deadline n with
  | (Err e, n) => (Err e, n)
  | (Ok (wait, bound), n) =>
      (match read_bounded (max_response_bytes limits) [] (http_body resp) with
       | Some r => r
       | None => Err (TTimeout BufferedBody bound (as_millis wait))
       end, n)
  end.

(** The budget only bounds the wait; a spent one leaves an empty message. *)
Definition error_body (resp : HttpResponse) (deadline : Deadline) (n : Net) : string * Net :=
  let n := match deadline with Some _ => (now n).2 | None => n end in
  (default ""%string (read_truncated (Z.to_nat (max_error_bytes limits)) [] (http_body resp)), n).

(** ** Requests *)

Record NativeCall := mkCall {
  call_provider : string;
  call_path : string;
  call_headers : list (string * string);
  call_body : Value;
}.

Definition needs_stream_flag (body : Value) : bool :=
  is_object body && negb (bool_decide (get body "stream" ≫= as_bool = Some true)).

Definition with_stream_flag (body : Value) : Value :=
  if is_object body then insert_field body "stream" (Bool true) else body.

(** The bytes are computed once; computing them again gives the same ones. *)
Definition encoded_json (call : NativeCall) (stream : bool) : string :=
  if negb stream || negb (needs_stream_flag (call_body call)) then to_string (call_body call)
  else to_string (with_stream_flag (call_body call)).

Definition auth_header (upstream : Upstream) : string * string :=
  match auth upstream with
  | Bearer => ("authorization"%string, "Bearer " +:+ api_key upstream)
  | Header name => (name, api_key upstream)
  end.

Definition encoded_json_request (upstream : Upstream) (path : string) (headers : list (string * string))
    (body : string) : HttpRequest := {|
  url := text (trim_end_matches "/" (b (base_url upstream))) +:+ path;
  credential_header := auth_header upstream;
  request_headers := ("content-type", "application/json")%string :: headers;
  request_body := body;
|}.

Definition is_success (status : Z) : bool := (200 <=? status) && (status <? 300).

Definition send_encoded (provider : string) (upstream : Upstream) (path : string)
    (headers : list (string * string)) (body : string) (deadline : Deadline) (n : Net)
    : result TransportError Value * Net :=
  match send_bounded (encoded_json_request upstream path headers body) deadline n with
  | (Err e, n) => (Err e, n)
  | (Ok resp, n) =>
      if negb (is_success (http_status resp)) then
        let '(t, n) := error_body resp deadline n in
        (Err (upstream_failure provider upstream (http_status resp) t), n)
      else
        match buffered_body resp deadline n with
        | (Err e, n) => (Err e, n)
        | (Ok t, n) =>
            (map_err (λ e, THttp ("decode upstream body: " +:+ e)) (from_str t), n)
        end
  end.

(** A stream that opened: what is left of the response. *)
Definition open_encoded_stream (provider : string) (upstream : Upstream) (path : string)
    (headers : list (string * string)) (body : string) (deadline : Deadline) (n : Net)
    : result TransportError Reads * Net :=
  match send_bounded (encoded_json_request upstream path headers body) deadline n with
  | (Err e, n) => (Err e, n)
  | (Ok resp, n) =>
      if negb (is_success (http_status resp)) then
        let '(t, n) := error_body resp deadline n in
        (Err (upstream_failure provider upstream (http_status resp) t), n)
      else (Ok (http_reads resp), n)
  end.

(** The first [i] reads of the body gave chunks. *)
Fixpoint flowing (s : Reads) (i : nat) : bool :=
  match i with
  | O => true
  | S i => flowing s i && match s i with Some (Chunk _) => true | _ => false end
  end.

(** [idle_bounded_stream]: the items of the byte stream, ended by the first
    failure. *)
Definition idle_bounded_stream (s : Reads) (i : nat) : option (result TransportError bytes) :=
  if flowing s i then
    match s i with
    | None => None
    | Some (Chunk bs) => Some (Ok bs)
    | Some (Broken e) => Some (Err (classify e))
    | Some Stalled => Some (Err (TTimeout StreamIdle Phase (as_millis (stream_idle_timeout limits))))
    end
  else None.

Section Adapter.
Context {A : Type} `{!ProviderAdapter A}.

Definition dispatch_encoded (adapter : A) (upstream : Upstream) (surface : Surface) (body : string)
    (deadline : Deadline) (n : Net) : result TransportError ProviderResponse * Net :=
  match send_encoded (name adapter) upstream "/chat/completions" [] body deadline n with
  | (Err e, n) => (Err e, n)
  | (Ok json, n) => (map_err TProvider (decode_response adapter surface json), n)
  end.

Definition dispatch (adapter : A) (upstream : Upstream) (surface : Surface) (request : ProviderRequest)
    (deadline : Deadline) (n : Net) : result TransportError ProviderResponse * Net :=
  match encode_request adapter surface request with
  | Err e => (Err (TProvider e), n)
  | Ok body => dispatch_encoded adapter upstream surface (to_string body) deadline n
  end.

Definition dispatch_stream (adapter : A) (upstream : Upstream) (surface : Surface)
    (request : ProviderRequest) (deadline : Deadline) (n : Net)
    : result TransportError Reads * Net :=
  match encode_request adapter surface request with
  | Err e => (Err (TProvider e), n)
  | Ok body =>
      open_encoded_stream (name adapter) upstream "/chat/completions" []
        (to_string (with_stream_flag body)) deadline n
  end.

End Adapter.

Definition send (upstream : Upstream) (call : NativeCall) (deadline : Deadline) (n : Net)
    : result TransportError Value * Net :=
  send_encoded (call_provider call) upstream (call_path call) (call_headers call)
    (encoded_json call false) deadline n.

Definition send_stream (upstream : Upstream) (call : NativeCall) (deadline : Deadline) (n : Net)
    : result TransportError Reads * Net :=
  open_encoded_stream (call_provider call) upstream (call_path call) (call_headers call)
    (encoded_json call true) deadline n.

(** ** Lemmas *)

(** The bytes a body delivers before it ends, breaks or stalls. *)
Fixpoint delivered (chunks : list ChunkRead) : bytes :=
  match chunks with Chunk bs :: chunks => bs ++ delivered chunks | _ => [] end.

(** How it ends. *)
Fixpoint body_end (chunks : list ChunkRead) : option ChunkRead :=
  match chunks with [] => None | Chunk _ :: chunks => body_end chunks | c :: _ => Some c end.

Lemma read_bounded_spec limit body chunks :
  Z.of_nat (length body) ≤ limit →
  match read_bounded limit body chunks with
  | Some (Ok t) =>
      body_end chunks = None ∧ t = text (from_utf8_lossy (body ++ delivered chunks)) ∧
      Z.of_nat (length (body ++ delivered chunks)) ≤ limit
  | Some (Err e) =>
      (e = TBodyTooLarge limit ∧ limit < Z.of_nat (length (body ++ delivered chunks))) ∨
      (∃ failure, body_end chunks = Some (Broken failure) ∧ e = transport_failure failure ∧
         Z.of_nat (length (body ++ delivered chunks)) ≤ limit)
  | None =>
      body_end chunks = Some Stalled ∧ Z.of_nat (length (body ++ delivered chunks)) ≤ limit
  end.
Proof.
  revert body. induction chunks as [|c chunks IH]; intros body Hb; simpl; [by rewrite app_nil_r|].
  destruct c as [bs|failure|]; simpl; rewrite ?app_nil_r; [|by eauto|done].
  destruct (limit <? _) eqn:Hl; reflect_bools.
  - left. split; [done|]. rewrite !length_app. lia.
  - specialize (IH (body ++ bs)). rewrite length_app in IH. rewrite (assoc_L (++)). apply IH. lia.
Qed.

Lemma read_truncated_prefix limit body chunks t :
  (length body ≤ limit)%nat → read_truncated limit body chunks = Some t →
  ∃ bs, t = text (from_utf8_lossy bs) ∧ (length bs ≤ limit)%nat ∧
    bs `prefix_of` body ++ delivered chunks.
Proof.
  revert body. induction chunks as [|c chunks IH]; intros body Hb; simpl; case_match eqn:Hl.
  - intros [= <-]. exists body. split_and!; [done|lia|]. by apply prefix_app_r.
  - intros [= <-]. exists body. split_and!; [done|lia|]. by apply prefix_app_r.
  - destruct c as [bs|failure|]; simpl; [| |done].
    + intros Hr. apply IH in Hr as (bs' & -> & Hlen & Hp).
      2:{ rewrite length_app, length_take. lia. }
      exists bs'. split_and!; [done..|].
      destruct (decide (length bs ≤ limit - length body)%nat) as [Hfit|Hcut].
      * rewrite take_ge in Hp by lia. by rewrite <-(assoc_L (++)) in Hp.
      * (* the bound was reached: nothing after this chunk was kept *)
        transitivity (body ++ take (limit - length body) bs).
        { apply Nat.ltb_lt in Hl. destruct Hp as [k Hp].
          exists (drop (length bs') (body ++ take (limit - length body) bs)).
          rewrite <-(take_drop (length bs') (body ++ take (limit - length body) bs)) at 1. f_equal.
          assert (length (body ++ take (limit - length body) bs) = limit) as Hfull
            by (rewrite length_app, length_take; lia).
          rewrite <-(take_app_le (body ++ take (limit - length body) bs) (delivered chunks)) by lia.
          rewrite Hp. by rewrite take_app_length. }
        apply prefix_app. eapply transitivity; [apply prefix_take|]. by apply prefix_app_r.
    + intros [= <-]. exists body. split_and!; [done|lia|]. by apply prefix_app_r.
  - intros [= <-]. exists body. split_and!; [done|lia|]. by apply prefix_app_r.
Qed.

(** A phase waits no longer than its own bound and never past the deadline; a
    spent deadline refuses before anything is sent. *)
Lemma budget_spec own deadline n :
  0 ≤ own →
  sent (budget own deadline n).2 = sent n ∧
  match (budget own deadline n).1 with
  | Ok (wait, bound) =>
      wait ≤ own ∧
      ∀ instant, deadline = Some instant → clock (reads n) + wait ≤ instant ∧ clock (reads n) < instant
  | Err e =>
      e = TTimeout Overall WalkBudget 0 ∧ ∃ instant, deadline = Some instant ∧ instant ≤ clock (reads n)
  end.
Proof.
  intros Hown. unfold budget. destruct deadline as [instant|]; [|by split].
  unfold now, remaining. simpl. unfold saturating_duration_since.
  destruct (Z.max 0 (instant - clock (reads n)) =? 0) eqn:H0; reflect_bools; simpl.
  { split_and!; [done..|]. exists instant. split; [done|lia]. }
  destruct (_ <? own) eqn:H1; reflect_bools; simpl; (split_and!; [done|lia|]); intros ? [= <-]; lia.
Qed.

Lemma send_bounded_spec req deadline n :
  0 ≤ response_header_timeout limits →
  match (send_bounded req deadline n).1 with
  | Err (TTimeout Overall _ _) =>
      sent (send_bounded req deadline n).2 = sent n ∧
      ∃ instant, deadline = Some instant ∧ instant ≤ clock (reads n)
  | _ =>
      sent (send_bounded req deadline n).2 = sent n ++ [req] ∧
      ∀ instant, deadline = Some instant → clock (reads n) < instant
  end.
Proof.
  intros Hown. unfold send_bounded. pose proof (budget_spec _ deadline n Hown) as [Hs Hb].
  destruct (budget _ deadline n) as [[[wait bound]|e] n']; simpl in *.
  - destruct Hb as [_ Hb]. rewrite <-Hs.
    destruct (network (length (sent n')) req) as [resp|e|]; simpl; [naive_solver| |naive_solver].
    unfold classify. destruct (is_timeout e); simpl; naive_solver.
  - destruct Hb as [-> Hb]. done.
Qed.

Lemma budget_sent own deadline n : sent (budget own deadline n).2 = sent n.
Proof.
  unfold budget, now. destruct deadline as [instant|]; simpl; [|done].
  destruct (saturating_duration_since _ _ =? 0); [done|]. by destruct (_ <? _).
Qed.

Lemma send_bounded_sent req deadline n :
  ∃ reqs, sent (send_bounded req deadline n).2 = sent n ++ reqs ∧ reqs `sublist_of` [req].
Proof.
  unfold send_bounded. pose proof (budget_sent (response_header_timeout limits) deadline n) as Hs.
  destruct (budget _ deadline n) as [[[wait bound]|e] n']; simpl in *.
  - exists [req]. rewrite <-Hs. by destruct (network _ req).
  - exists []. rewrite app_nil_r. split; [done|apply sublist_nil_l].
Qed.

Lemma buffered_body_sent resp deadline n : sent (buffered_body resp deadline n).2 = sent n.
Proof.
  unfold buffered_body. pose proof (budget_sent (buffered_body_timeout limits) deadline n) as Hs.
  by destruct (budget _ deadline n) as [[[wait bound]|e] n'].
Qed.

Lemma send_encoded_sent provider upstream path headers body deadline n :
  ∃ reqs, sent (send_encoded provider upstream path headers body deadline n).2 = sent n ++ reqs ∧
    reqs `sublist_of` [encoded_json_request upstream path headers body].
Proof.
  unfold send_encoded.
  destruct (send_bounded_sent (encoded_json_request upstream path headers body) deadline n)
    as (reqs & Hs & Hr).
  exists reqs. split; [|done].
  destruct (send_bounded _ deadline n) as [[resp|e] n1]; simpl in *; [|done].
  destruct (is_success (http_status resp)); cbn [negb].
  - pose proof (buffered_body_sent resp deadline n1) as Hb.
    destruct (buffered_body resp deadline n1) as [[t|e] n2]; simpl in *; congruence.
  - by destruct deadline.
Qed.

Lemma open_encoded_stream_sent provider upstream path headers body deadline n :
  ∃ reqs, sent (open_encoded_stream provider upstream path headers body deadline n).2 = sent n ++ reqs ∧
    reqs `sublist_of` [encoded_json_request upstream path headers body].
Proof.
  unfold open_encoded_stream.
  destruct (send_bounded_sent (encoded_json_request upstream path headers body) deadline n)
    as (reqs & Hs & Hr).
  exists reqs. split; [|done].
  destruct (send_bounded _ deadline n) as [[resp|e] n1]; simpl in *; [|done].
  destruct (is_success (http_status resp)); cbn [negb]; [done|].
  by destruct deadline.
Qed.

(** ** Properties *)

(** A provider's error text is cleared of the credential it was sent: a key
    without brackets that is not part of the word REDACTED does not occur in the
    text any failure is classified from or reported with. *)
Theorem credential_redacted (upstream : Upstream) (body : string) :
  let key := b (api_key upstream) in
  key ≠ [] → "["%char ∉ key → "]"%char ∉ key → contains key (b "REDACTED") = false →
  contains key (b (redacted_body upstream body)) = false.
Proof.
  intros key Hne Ho Hc Hw. unfold redacted_body, replace. rewrite b_text. fold key.
  destruct key as [|c key'] eqn:Hk; [done|]. rewrite <-Hk in *. apply not_true_is_false.
  rewrite contains_spec. change (b "[REDACTED]") with ("["%char :: b "REDACTED" ++ ["]"%char]).
  apply replace_removes; try done. rewrite <-contains_spec. congruence.
Qed.

(** Memory is bounded.  A buffered body is returned only whole and within the
    bound, and refused as too large exactly when what arrived exceeds it; a
    provider's error text is built from at most the bytes of its own bound. *)
Theorem bodies_bounded (resp : HttpResponse) (deadline : Deadline) (n : Net) :
  0 ≤ max_response_bytes limits → 0 ≤ max_error_bytes limits →
  let arrived := delivered (http_body resp) in
  match read_bounded (max_response_bytes limits) [] (http_body resp) with
  | Some (Ok t) =>
      body_end (http_body resp) = None ∧ t = text (from_utf8_lossy arrived) ∧
      Z.of_nat (length arrived) ≤ max_response_bytes limits
  | Some (Err (TBodyTooLarge _)) => max_response_bytes limits < Z.of_nat (length arrived)
  | _ => Z.of_nat (length arrived) ≤ max_response_bytes limits ∧ body_end (http_body resp) ≠ None
  end ∧
  ∃ bs, (error_body resp deadline n).1 = text (from_utf8_lossy bs) ∧
    Z.of_nat (length bs) ≤ max_error_bytes limits ∧ bs `prefix_of` arrived.
Proof.
  intros H1 H2 arrived. split.
  - pose proof (read_bounded_spec (max_response_bytes limits) [] (http_body resp) ltac:(done)) as Hr.
    simpl in Hr. destruct (read_bounded _ [] _) as [[t|e]|]; [done| |naive_solver].
    destruct Hr as [[-> Hr]|(failure & Hend & -> & Hr)]; [done|]. simpl. split; [done|].
    by rewrite Hend.
  - unfold error_body. simpl. destruct (read_truncated _ [] _) as [t|] eqn:Ht; simpl.
    + apply read_truncated_prefix in Ht as (bs & -> & Hlen & Hp); [|simpl; lia].
      exists bs. split_and!; [done|lia|done].
    + exists []. split_and!; [done|simpl; lia|apply prefix_nil].
Qed.

Definition spent (deadline : Deadline) (t : Z) : bool :=
  match deadline with Some instant => instant <=? t | None => false end.

(** One call sends one request or none.  When the deadline has passed nothing is
    sent and the failure is the walk's own ([TimeoutKind::Overall]); otherwise
    exactly the caller's request goes out, with its credential in the header the
    provider's scheme asks for, and a refusal by the provider is reported with
    its status and its text cleared of the key. *)
Theorem one_request_per_call (provider : string) (upstream : Upstream) (path : string)
    (headers : list (string * string)) (body : string) (deadline : Deadline) (n : Net) :
  0 ≤ response_header_timeout limits →
  let req := encoded_json_request upstream path headers body in
  let '(r, n') := send_encoded provider upstream path headers body deadline n in
  if spent deadline (clock (reads n))
  then sent n' = sent n ∧ r = Err (TTimeout Overall WalkBudget 0)
  else sent n' = sent n ++ [req] ∧ credential_header req = auth_header upstream ∧
       match network (length (sent n)) req with
       | Answered resp =>
           is_success (http_status resp) = false →
           ∃ t, r = Err (transport_from_upstream provider (http_status resp) (redacted_body upstream t))
       | SendFailed e => r = Err (classify e)
       | NoHeaders => ∃ bound ms, r = Err (TTimeout ResponseHeaders bound ms)
       end.
Proof.
  intros Hown req. unfold send_encoded, send_bounded. fold req.
  pose proof (budget_spec _ deadline n Hown) as [Hs Hb].
  destruct (budget _ deadline n) as [[[wait bound]|e] n1]; simpl in *.
  - assert (spent deadline (clock (reads n)) = false) as ->.
    { destruct deadline as [instant|]; [|done]. simpl. destruct Hb as [_ Hb]. specialize (Hb _ eq_refl). lia. }
    unfold send_request. rewrite Hs.
    destruct (network (length (sent n)) req) as [resp|failure|]; simpl; [|naive_solver..].
    destruct (is_success (http_status resp)); simpl.
    + pose proof (buffered_body_sent resp deadline (mkNet (reads n1) (sent n ++ [req]))) as Hbs.
      destruct (buffered_body resp deadline _) as [[t|e] n2]; simpl in *; by split_and!.
    + split_and!; [by destruct deadline|done|]. intros _. by eexists.
  - destruct Hb as (-> & instant & -> & Hle). simpl. by rewrite (proj2 (Z.leb_le _ _) Hle).
Qed.

End Transport.

(** A call can fail with the timeout kind that stands for "nothing was
    dispatched" after the provider has accepted the request and answered: the
    kind is also what reading the body reports when the deadline passes between
    the headers and the first read. *)
Theorem overall_timeout_after_dispatch {J : SerdeJson} (upstream : Upstream) :
  let clock := λ k, if decide (k = 0%nat) then 5 else 10 in
  let network := λ _ _, Answered (mkHttpResponse 200 [Chunk (b "{}")]) in
  let '(r, n) := send_encoded clock network TransportLimits_default "p" upstream "/m" [] "{}"
                   (at_instant 10) (mkNet 0 []) in
  r = Err (TTimeout Overall WalkBudget 0) ∧ sent n = [encoded_json_request upstream "/m" [] "{}"].
Proof. split; reflexivity. Qed.

(** ** Witnesses *)

Definition demo_upstream : Upstream := mkUpstream "https://api.test" "sk-secret" Bearer.

Lemma credential_redacted_witness :
  contains (b "sk-secret") (b (redacted_body demo_upstream "bad key sk-secret given")) = false.
Proof.
  apply (credential_redacted demo_upstream "bad key sk-secret given");
    [discriminate|vm_compute; set_solver|vm_compute; set_solver|vm_compute; reflexivity].
Defined.

Lemma bodies_bounded_witness :
  ∃ bs, (error_body (λ _, 0) TransportLimits_default (mkHttpResponse 500 [Chunk (b "oops")])
           unbounded (mkNet 0 [])).1 = text (from_utf8_lossy bs) ∧
    Z.of_nat (length bs) ≤ 65536 ∧ bs `prefix_of` b "oops".
Proof.
  exact (proj2 (bodies_bounded (λ _, 0) TransportLimits_default (mkHttpResponse 500 [Chunk (b "oops")])
    unbounded (mkNet 0 []) ltac:(vm_compute; discriminate) ltac:(vm_compute; discriminate))).
Defined.

Lemma one_request_per_call_witness :
  let J := json_model (λ _, Ok JNull) (λ _, ""%string) in
  sent (@send_encoded J (λ _, 0) (λ _ _, NoHeaders) TransportLimits_default "p" demo_upstream "/m" [] "{}"
          (at_instant 7) (mkNet 0 [])).2 = [encoded_json_request demo_upstream "/m" [] "{}"].
Proof.
  intros J.
  pose proof (@one_request_per_call J (λ _, 0) (λ _ _, NoHeaders) TransportLimits_default "p" demo_upstream
    "/m" [] "{}" (at_instant 7) (mkNet 0 []) ltac:(vm_compute; discriminate)) as H.
  destruct (@send_encoded J _ _ _ _ _ _ _ _ _ _) as [r n']. simpl in H |- *.
  exact (proj1 H).
Defined.

End Transport.
