(* ===== verification/Credentials.v ===== *)
(** * Credential pools ([crates/gateway/src/credentials.rs])

    Pools of provider credentials per [(namespace, provider)], the rotation that
    orders the attempts of a request, and the per-credential health that parks a
    rate-limited credential.  The rotation cursor and the health table are the
    state; each of their accesses is one atomic step.  A secret is its text. *)

From S2P Require Import Prelude.

Module Credentials.

Inductive CredentialSource := Platform | Byok.

#[global] Instance CredentialSource_eq_dec : EqDecision CredentialSource.
Proof. solve_decision. Defined.

(** ** The configuration the pools are built from *)

Record Credential := mkCredential {
  c_namespace : string;
  c_provider : string;
  c_env : option string;
  c_id : option string;
  c_weight : Z;
}.

Definition label (c : Credential) : string :=
  match c_id c with
  | Some id => id
  | None => default "unlabelled"%string (c_env c)
  end.

Inductive SelectionStrategy := RoundRobin | Weighted.

Record NamespaceConfig := mkNamespace {
  n_id : string;
  n_default : bool;
  n_allow_platform_fallback : bool;
}.

Record Config := mkConfig {
  credential : list Credential;
  namespaces : list NamespaceConfig;
  strategy_ : SelectionStrategy;
  failure_threshold : Z;
  cooldown_seconds : Z;
}.

Definition default_namespace (cfg : Config) : string :=
  match list_find (λ n, n_default n = true) (namespaces cfg) with
  | Some (_, n) => n_id n
  | None => "platform"
  end.

Definition namespace (cfg : Config) (id : string) : option NamespaceConfig :=
  snd <$> list_find (λ n, n_id n = id) (namespaces cfg).

(** ** Pools *)

Record PoolEntry := mkEntry {
  id : string;
  status_id : option string;
  material : string;
  weight : Z;
  health_key : string;
}.

Record Pool := mkPool { entries : list PoolEntry; cursor : Z; total_weight : Z }.

Definition sum_weights (es : list PoolEntry) : Z := foldr (λ e acc, weight e + acc) 0 es.

Definition Pool_new (es : list PoolEntry) : Pool :=
  {| entries := es; cursor := 0; total_weight := Z.max (sum_weights es) 1 |}.

(** The cumulative-weight ladder: the first entry whose weight covers the
    offset, or the last entry. *)
Fixpoint ladder (es : list PoolEntry) (i : nat) (offset : Z) (otherwise : nat) : nat :=
  match es with
  | [] => otherwise
  | e :: es =>
      if offset <? weight e then i else ladder es (S i) (offset - weight e) otherwise
  end.

Definition start (es : list PoolEntry) (total : Z) (strategy : SelectionStrategy) (tick : Z) : nat :=
  match strategy with
  | RoundRobin => Z.to_nat (tick `mod` Z.of_nat (length es))
  | Weighted => ladder es 0 (tick `mod` total) (length es - 1)
  end.

Definition rotation (start n : nat) : list nat := (λ i, (start + i) `mod` n)%nat <$> seq 0 n.

(** The cursor is a wrapping [AtomicUsize]. *)
Definition order (p : Pool) (strategy : SelectionStrategy) : list nat * Pool :=
  let n := length (entries p) in
  match n with
  | O => ([], p)
  | _ =>
      let tick := cursor p in
      (rotation (start (entries p) (total_weight p) strategy tick) n,
       {| entries := entries p; cursor := (tick + 1) `mod` (U64_MAX + 1);
          total_weight := total_weight p |})
  end.

(** ** Health *)

Record HealthCircuit := mkCircuit { failures : Z; parked_at : option Z }.

Record CredentialHealth := mkHealth {
  threshold : Z;
  cooldown : Z;
  circuits : gmap string HealthCircuit;
}.

Definition health_new (threshold cooldown : Z) : CredentialHealth :=
  {| threshold := Z.max threshold 1; cooldown := cooldown; circuits := ∅ |}.

Inductive Eligibility := Healthy | Probe | Parked.

#[global] Instance Eligibility_eq_dec : EqDecision Eligibility.
Proof. solve_decision. Defined.

Definition set_circuits (h : CredentialHealth) (m : gmap string HealthCircuit) : CredentialHealth :=
  {| threshold := threshold h; cooldown := cooldown h; circuits := m |}.

Definition classify_at (h : CredentialHealth) (key : string) (now : Z)
    : Eligibility * CredentialHealth :=
  match circuits h !! key with
  | None => (Healthy, h)
  | Some c =>
      match parked_at c with
      | None => (Healthy, h)
      | Some t =>
          if cooldown h <=? saturating_duration_since now t then
            (Probe, set_circuits h
              (<[key := {| failures := failures c; parked_at := Some now |}]> (circuits h)))
          else (Parked, h)
      end
  end.

Definition health_success (h : CredentialHealth) (key : string) : CredentialHealth :=
  set_circuits h (delete key (circuits h)).

Definition record_failure_at (h : CredentialHealth) (key : string) (now : Z) : CredentialHealth :=
  let c := default {| failures := 0; parked_at := None |} (circuits h !! key) in
  let n := saturating_add U32_MAX (failures c) 1 in
  set_circuits h
    (<[key := {| failures := n;
                 parked_at := if threshold h <=? n then Some now else parked_at c |}]> (circuits h)).

(** [CredentialState] has the constructors of [Eligibility]. *)
Definition state_at (h : CredentialHealth) (key : string) (now : Z) : Eligibility :=
  match circuits h !! key with
  | None => Healthy
  | Some c =>
      match parked_at c with
      | None => Healthy
      | Some t =>
          if saturating_duration_since now t <? cooldown h then Parked else Probe
      end
  end.

(** ** The credential store *)

Record Credentials := mkCredentials {
  pools : gmap (string * string) Pool;
  platform_ns : string;
  strategy : SelectionStrategy;
  health : CredentialHealth;
}.

Inductive CredentialError :=
| MissingEnv (namespace provider id env : string)
| NoSource (namespace provider id : string).

Definition health_key_of (namespace provider id : string) : string :=
  namespace +:+ "/" +:+ provider +:+ "/" +:+ id.

Definition non_empty (s : string) : bool := negb (bool_decide (s = ""%string)).

Definition filter_opt {A} (p : A → bool) (o : option A) : option A :=
  match o with Some a => if p a then Some a else None | None => None end.

Definition resolve_one (env : gmap string string) (c : Credential) : result CredentialError PoolEntry :=
  match filter_opt non_empty (c_env c) with
  | None => Err (NoSource (c_namespace c) (c_provider c) (label c))
  | Some name =>
      match filter_opt non_empty (env !! name) with
      | None => Err (MissingEnv (c_namespace c) (c_provider c) (label c) name)
      | Some secret =>
          Ok {| id := label c; status_id := c_id c; material := secret; weight := c_weight c;
                health_key := health_key_of (c_namespace c) (c_provider c) (label c) |}
      end
  end.

Fixpoint resolve_pools (env : gmap string string) (cs : list Credential)
    (acc : gmap (string * string) (list PoolEntry))
    : result CredentialError (gmap (string * string) (list PoolEntry)) :=
  match cs with
  | [] => Ok acc
  | c :: cs =>
      e ← resolve_one env c;
      let key := (c_namespace c, c_provider c) in
      resolve_pools env cs (<[key := default [] (acc !! key) ++ [e]]> acc)
  end.

Definition resolve (cfg : Config) (env : gmap string string) : result CredentialError Credentials :=
  ps ← resolve_pools env (credential cfg) ∅;
  mret {| pools := Pool_new <$> ps; platform_ns := default_namespace cfg;
          strategy := strategy_ cfg;
          health := health_new (failure_threshold cfg) (cooldown_seconds cfg * NANOS_PER_SEC) |}.

(** ** Planning *)

Record CredentialLease := mkLease { lease_id : string; secret : string; lease_health_key : string }.

Definition lease (e : PoolEntry) : CredentialLease :=
  {| lease_id := id e; secret := material e; lease_health_key := health_key e |}.

Record CredentialSkip := mkSkip { skip_id : string; reason : string }.

Record CredentialPlan := mkPlan {
  source : CredentialSource;
  attempts : list CredentialLease;
  parked : list CredentialSkip;
}.

Definition allow_platform_fallback (s : Credentials) (cfg : Config) (ns : string) : bool :=
  negb (bool_decide (ns = platform_ns s))
  && match namespace cfg ns with Some n => n_allow_platform_fallback n | None => true end.

(** The key of the pool stands for the borrowed pool. *)
Definition resolve_pool (s : Credentials) (cfg : Config) (ns provider : string)
    : option ((string * string) * Pool * CredentialSource) :=
  match pools s !! (ns, provider) with
  | Some p =>
      Some ((ns, provider), p, if decide (ns = platform_ns s) then Platform else Byok)
  | None =>
      if negb (allow_platform_fallback s cfg ns) then None
      else
        p ← pools s !! (platform_ns s, provider);
        Some ((platform_ns s, provider), p, Platform)
  end.

(** The classification loop of [plan_at]. *)
Fixpoint classify_all (h : CredentialHealth) (now : Z) (es : list PoolEntry)
    (attempts : list CredentialLease) (parked : list PoolEntry)
    : list CredentialLease * list PoolEntry * CredentialHealth :=
  match es with
  | [] => (attempts, parked, h)
  | e :: es =>
      let '(verdict, h) := classify_at h (health_key e) now in
      match verdict with
      | Healthy => classify_all h now es (attempts ++ [lease e]) parked
      | Probe => classify_all h now es (lease e :: attempts) parked
      | Parked => classify_all h now es attempts (parked ++ [e])
      end
  end.

Definition plan_at (s : Credentials) (cfg : Config) (ns provider : string) (now : Z)
    : option CredentialPlan * Credentials :=
  match resolve_pool s cfg ns provider with
  | None => (None, s)
  | Some (key, pool, source) =>
      let '(idx, pool') := order pool (strategy s) in
      let es := omap (λ i, entries pool !! i) idx in
      let '(attempts, parked, h) := classify_all (health s) now es [] [] in
      let s' := {| pools := <[key := pool']> (pools s); platform_ns := platform_ns s;
                   strategy := strategy s; health := h |} in
      let '(attempts, forced) :=
        match attempts with
        | [] =>
            let a := option_list (lease <$> head parked) in (a, lease_id <$> head a)
        | _ => (attempts, None)
        end in
      match attempts with
      | [] => (None, s')
      | _ =>
          (Some {| source := source; attempts := attempts;
                   parked := (λ e, {| skip_id := id e; reason := "parked" |}) <$>
                     filter (λ e, forced ≠ Some (id e)) parked |}, s')
      end
  end.

Definition plan_pinned (s : Credentials) (cfg : Config) (ns provider : string) : option CredentialPlan :=
  '(_, pool, source) ← resolve_pool s cfg ns provider;
  e ← head (entries pool);
  Some {| source := source; attempts := [lease e]; parked := [] |}.

Definition record_success (s : Credentials) (l : CredentialLease) : Credentials :=
  {| pools := pools s; platform_ns := platform_ns s; strategy := strategy s;
     health := health_success (health s) (lease_health_key l) |}.

Definition record_failure (s : Credentials) (l : CredentialLease) (now : Z) : Credentials :=
  {| pools := pools s; platform_ns := platform_ns s; strategy := strategy s;
     health := record_failure_at (health s) (lease_health_key l) now |}.

Definition is_present (s : Credentials) (cfg : Config) (ns provider : string) : bool :=
  if bool_decide (is_Some (pools s !! (ns, provider))) then true
  else allow_platform_fallback s cfg ns
       && bool_decide (is_Some (pools s !! (platform_ns s, provider))).

(** [min_by_key] over the pools of one provider. *)
Definition first_namespace (ps : gmap (string * string) Pool) (provider : string)
    : option (string * Pool) :=
  foldr (λ '((ns, name), p) best,
           if decide (name = provider) then
             match best with
             | Some (ns', p') => if String.leb ns ns' then Some (ns, p) else Some (ns', p')
             | None => Some (ns, p)
             end
           else best) None (map_to_list ps).

Definition discovery_leases (s : Credentials) (cfg : Config) (provider : string) : list CredentialLease :=
  match resolve_pool s cfg (platform_ns s) provider with
  | Some (_, pool, _) => lease <$> entries pool
  | None =>
      match first_namespace (pools s) provider with
      | Some (_, pool) => lease <$> entries pool
      | None => []
      end
  end.

(** ** Lemmas: rotation *)

Lemma rotation_app s n :
  (s ≤ n)%nat → (0 < n)%nat → rotation s n = seq s (n - s) ++ seq 0 s.
Proof.
  intros Hs Hn. unfold rotation. replace (seq 0 n) with (seq 0 (n - s) ++ seq (n - s) s).
  2:{ rewrite <-seq_app. f_equal. lia. }
  rewrite fmap_app. f_equal.
  - transitivity (Nat.add s <$> seq 0 (n - s)); [|by rewrite fmap_add_seq, Nat.add_0_r].
    apply list_fmap_ext. intros i x Hx. apply lookup_seq in Hx as [-> Hi].
    rewrite Nat.mod_small; lia.
  - transitivity ((λ i, (s + i) `mod` n)%nat <$> (Nat.add (n - s) <$> seq 0 s)).
    { by rewrite fmap_add_seq, Nat.add_0_r. }
    rewrite <-list_fmap_compose. rewrite <-(list_fmap_id (seq 0 s)) at 2.
    apply list_fmap_ext. intros i x Hx. apply lookup_seq in Hx as [-> Hi]. simpl.
    replace (s + (n - s + i))%nat with (i + 1 * n)%nat by lia.
    rewrite Nat.Div0.mod_add, Nat.mod_small; lia.
Qed.

Lemma rotation_perm s n : (s < n)%nat → rotation s n ≡ₚ seq 0 n.
Proof.
  intros Hs. rewrite rotation_app by lia. rewrite Permutation_app_comm, <-seq_app.
  f_equiv. lia.
Qed.

Lemma ladder_lt es i offset otherwise m :
  (otherwise < m)%nat → (i + length es ≤ m)%nat → (ladder es i offset otherwise < m)%nat.
Proof.
  revert i offset. induction es as [|e es IH]; intros i offset Ho Hi; simpl in *; [done|].
  case_match; [lia|]. apply IH; lia.
Qed.

Lemma start_lt es total strat tick :
  es ≠ [] → (start es total strat tick < length es)%nat.
Proof.
  intros He. destruct es as [|e es]; [done|]. unfold start. destruct strat.
  - pose proof (Z.mod_pos_bound tick (Z.of_nat (length (e :: es))) ltac:(simpl; lia)). lia.
  - apply ladder_lt; simpl; lia.
Qed.

Lemma omap_fmap {A B C} (f : B → option C) (g : A → B) (l : list A) : omap f (g <$> l) = omap (f ∘ g) l.
Proof. induction l as [|x l IH]; [done|]. rewrite fmap_cons, !omap_cons, IH. done. Qed.

Lemma omap_lookup_seq {A} (l : list A) : omap (λ i, l !! i) (seq 0 (length l)) = l.
Proof.
  induction l as [|x l IH]; [done|]. cbn [length seq]. rewrite omap_cons. simpl. f_equal.
  rewrite <-fmap_S_seq, omap_fmap. exact IH.
Qed.

(** The attempts of a request are all the entries of its pool, rotated. *)
Lemma order_entries p strat :
  omap (λ i, entries p !! i) (order p strat).1 ≡ₚ entries p.
Proof.
  unfold order. destruct (length (entries p)) as [|n] eqn:E.
  - by apply nil_length_inv in E as ->.
  - cbn [fst]. rewrite <-E, rotation_perm.
    + by rewrite omap_lookup_seq.
    + apply start_lt. by destruct (entries p).
Qed.

Lemma order_pool p strat : entries (order p strat).2 = entries p.
Proof. unfold order. by destruct (length (entries p)). Qed.

(** ** Lemmas: shares *)

Lemma sum_weights_nonneg es : Forall (λ e, 0 ≤ weight e) es → 0 ≤ sum_weights es.
Proof. induction 1; simpl; lia. Qed.

(** The ladder stops at entry [i] exactly on the offsets of its own weight. *)
Lemma ladder_spec es base offset otherwise i e :
  Forall (λ e, 0 ≤ weight e) es → es !! i = Some e → 0 ≤ offset < sum_weights es →
  ladder es base offset otherwise = (base + i)%nat ↔
  sum_weights (take i es) ≤ offset < sum_weights (take i es) + weight e.
Proof.
  intros Hw. revert base offset i.
  induction Hw as [|x es Hx Hw IH]; intros base offset i Hi Ho; [done|].
  simpl in Ho |- *. destruct i as [|i]; simpl in *.
  - simplify_eq. destruct (Z.ltb_spec offset (weight e)); [lia|].
    split; [|lia]. intros Hl. exfalso.
    assert (∀ es b o, (b ≤ otherwise)%nat ∨ True → (base < b)%nat → 0 ≤ o < sum_weights es →
      Forall (λ e, 0 ≤ weight e) es → ladder es b o otherwise ≠ base) as Hne.
    { clear. induction es as [|y es IH]; intros b o _ Hb Ho Hw; simpl in *; [lia|].
      apply list.Forall_cons in Hw as [??]. destruct (Z.ltb_spec o (weight y)); [lia|].
      apply IH; auto; lia. }
    apply (Hne es (S base) (offset - weight e)); auto; lia.
  - destruct (Z.ltb_spec offset (weight x)).
    + split; [lia|]. intros Hr.
      pose proof (sum_weights_nonneg (take i es) (Forall_take _ i _ Hw)). lia.
    + replace (base + S i)%nat with (S base + i)%nat by lia. rewrite IH by (done || lia). lia.
Qed.

Lemma sum_weights_take es i e :
  Forall (λ e, 0 ≤ weight e) es → es !! i = Some e →
  0 ≤ sum_weights (take i es) ∧ sum_weights (take i es) + weight e ≤ sum_weights es.
Proof.
  intros Hw. revert i. induction Hw as [|x es Hx Hw IH]; intros i Hi; [done|].
  destruct i as [|i]; simpl in *.
  - simplify_eq. pose proof (sum_weights_nonneg es Hw). lia.
  - specialize (IH i Hi). lia.
Qed.

(** How many of [0 .. n-1] lie in an interval. *)
Lemma count_interval (P : nat → Prop) `{∀ x, Decision (P x)} (lo hi : Z) (n : nat) :
  (∀ j, (j < n)%nat → P j ↔ lo ≤ Z.of_nat j < hi) → 0 ≤ lo ≤ hi → hi ≤ Z.of_nat n →
  Z.of_nat (length (filter P (seq 0 n))) = hi - lo.
Proof.
  intros HP Hlo Hhi.
  assert (∀ m, (m ≤ n)%nat → Z.of_nat (length (filter P (seq 0 m))) =
    Z.max 0 (Z.min hi (Z.of_nat m) - lo)) as Hm.
  { induction m as [|m IH]; intros Hle; [simpl; lia|].
    rewrite seq_S, list.filter_app, length_app, Nat2Z.inj_add, IH by lia. simpl.
    rewrite filter_cons. destruct (decide (P m)) as [Hp|Hp]; simpl;
      rewrite (HP m) in Hp by lia; lia. }
  rewrite Hm by lia. lia.
Qed.

(** ** Lemmas: planning *)

Lemma classify_all_perm es h now att par att' par' h' :
  classify_all h now es att par = (att', par', h') →
  att' ++ (lease <$> par') ≡ₚ att ++ (lease <$> par) ++ (lease <$> es).
Proof.
  revert h att par. induction es as [|e es IH]; intros h att par H; simpl in H.
  - simplify_eq. by rewrite app_nil_r.
  - destruct (classify_at h (health_key e) now) as [[] h1]; apply IH in H; rewrite H; simpl;
      rewrite ?fmap_app; simpl; solve_Permutation.
Qed.

(** Every entry of the pool is planned or parked, once. *)
Lemma classify_pool s now pool att par h idx pool' :
  order pool (strategy s) = (idx, pool') →
  classify_all (health s) now (omap (λ i, entries pool !! i) idx) [] [] = (att, par, h) →
  att ++ (lease <$> par) ≡ₚ lease <$> entries pool.
Proof.
  intros Ho Hc. apply classify_all_perm in Hc. rewrite Hc. simpl.
  apply fmap_Permutation. pose proof (order_entries pool (strategy s)) as Hp. by rewrite Ho in Hp.
Qed.

Definition plan_partition (pool : Pool) (p : CredentialPlan) (rest : list CredentialLease) : Prop :=
  attempts p ≠ [] ∧ attempts p ++ rest ≡ₚ lease <$> entries pool ∧
  (NoDup (id <$> entries pool) → skip_id <$> parked p = lease_id <$> rest).

Lemma skips_all (par : list PoolEntry) (forced : option string) :
  Forall (λ e, forced ≠ Some (id e)) par →
  skip_id <$> ((λ e, {| skip_id := id e; reason := "parked" |}) <$>
    filter (λ e, forced ≠ Some (id e)) par) = lease_id <$> (lease <$> par).
Proof.
  induction 1 as [|e par He _ IH]; [done|]. rewrite filter_cons_True by done. by rewrite !fmap_cons, IH.
Qed.

Lemma plan_at_partition s cfg ns provider now key pool src :
  resolve_pool s cfg ns provider = Some (key, pool, src) → entries pool ≠ [] →
  ∃ p s' rest, plan_at s cfg ns provider now = (Some p, s') ∧ source p = src ∧
    plan_partition pool p rest.
Proof.
  intros Hr Hne. unfold plan_at. rewrite Hr.
  destruct (order pool (strategy s)) as [idx pool'] eqn:Ho.
  destruct (classify_all _ _ _ _ _) as [[att par] h] eqn:Hc.
  pose proof (classify_pool _ _ _ _ _ _ _ _ Ho Hc) as Hp.
  destruct att as [|a att].
  - destruct par as [|e par].
    { apply Permutation_nil_l, eq_sym, fmap_nil_inv in Hp. done. }
    eexists _, _, (lease <$> par). split; [reflexivity|]. split; [done|].
    split; [done|]. split; [exact Hp|]. intros Hnd. cbn [parked].
    assert (NoDup (id <$> e :: par)) as Hnd'.
    { assert ((id <$> e :: par) ≡ₚ (id <$> entries pool)) as ->; [|done].
      apply (fmap_Permutation lease_id) in Hp. simpl in Hp. rewrite <-!list_fmap_compose in Hp.
      exact Hp. }
    apply list.NoDup_cons in Hnd' as [Hni _]. rewrite filter_cons_False by naive_solver.
    apply skips_all, list.Forall_forall. intros x Hx [= E]. apply Hni. simpl in E.
    rewrite E. by apply list_elem_of_fmap_2.
  - eexists _, _, (lease <$> par). split; [reflexivity|]. split; [done|].
    split; [done|]. split; [exact Hp|]. intros _. apply skips_all, list.Forall_forall. done.
Qed.

Lemma resolve_pool_owner s cfg ns provider key pool src :
  resolve_pool s cfg ns provider = Some (key, pool, src) →
  pools s !! key = Some pool ∧
  (key = (ns, provider) ∧ (src = Byok ↔ ns ≠ platform_ns s) ∨
   key = (platform_ns s, provider) ∧ src = Platform ∧ pools s !! (ns, provider) = None ∧
     allow_platform_fallback s cfg ns = true).
Proof.
  unfold resolve_pool. destruct (pools s !! (ns, provider)) as [p|] eqn:E.
  - intros; simplify_eq. split; [done|]. left. split; [done|]. case_decide; split; congruence.
  - destruct (allow_platform_fallback s cfg ns) eqn:Ha; simpl; [|done].
    destruct (pools s !! (platform_ns s, provider)) as [p|] eqn:Ep; simpl; [|done].
    intros; simplify_eq. auto 10.
Qed.

(** *** The life of a store

    What the request path does to it. *)
Inductive use_step (cfg : Config) : Credentials → Credentials → Prop :=
| use_plan s ns provider now : use_step cfg s (plan_at s cfg ns provider now).2
| use_success s l : use_step cfg s (record_success s l)
| use_failure s l now : use_step cfg s (record_failure s l now).

Definition same_material (s s' : Credentials) : Prop :=
  platform_ns s = platform_ns s' ∧ entries <$> pools s = entries <$> pools s'.

Lemma plan_at_material s cfg ns provider now : same_material s (plan_at s cfg ns provider now).2.
Proof.
  unfold plan_at. destruct (resolve_pool s cfg ns provider) as [[[key pool] src]|] eqn:Hr; [|done].
  destruct (order pool (strategy s)) as [idx pool'] eqn:Ho.
  destruct (classify_all _ _ _ _ _) as [[att par] h].
  assert (entries <$> pools s = entries <$> <[key := pool']> (pools s)) as Hm.
  { rewrite fmap_insert. apply resolve_pool_owner in Hr as [Hk _].
    rewrite insert_id; [done|]. rewrite lookup_fmap, Hk. simpl.
    pose proof (order_pool pool (strategy s)) as Hp. rewrite Ho in Hp. simpl in Hp. by rewrite Hp. }
  repeat case_match; simplify_eq; done.
Qed.

Lemma use_material cfg s s' : rtc (use_step cfg) s s' → same_material s s'.
Proof.
  induction 1 as [|s s1 s2 H _ IH]; [done|].
  assert (same_material s s1) as [H1 H2] by (destruct H; [apply plan_at_material|done..]).
  destruct IH as [H3 H4]. split; congruence.
Qed.

(** What [resolve] puts in a pool. *)
Definition configured_for (cfg : Config) (env : gmap string string) (key : string * string)
    (e : PoolEntry) : Prop :=
  ∃ c, c ∈ credential cfg ∧ (c_namespace c, c_provider c) = key ∧ resolve_one env c = Ok e.

Lemma resolve_pools_sound cfg env cs acc ps :
  (∀ c, c ∈ cs → c ∈ credential cfg) →
  (∀ key es, acc !! key = Some es → es ≠ [] ∧ Forall (configured_for cfg env key) es) →
  resolve_pools env cs acc = Ok ps →
  ∀ key es, ps !! key = Some es → es ≠ [] ∧ Forall (configured_for cfg env key) es.
Proof.
  revert acc. induction cs as [|c cs IH]; intros acc Hcs Hacc H; simpl in H; [by simplify_eq|].
  destruct (resolve_one env c) as [e|] eqn:He; simpl in H; [|done].
  eapply IH; [|  |exact H]; [intros; apply Hcs; by apply list_elem_of_further|].
  intros key es. destruct (decide ((c_namespace c, c_provider c) = key)) as [<-|Hk].
  - rewrite lookup_insert_eq. intros; simplify_eq. split; [intros Hnil; by apply app_eq_nil in Hnil as [_ ?]|].
    apply Forall_app. split.
    + destruct (acc !! (c_namespace c, c_provider c)) eqn:Ea; simpl; [by apply Hacc|constructor].
    + apply Forall_singleton. exists c. split; [apply Hcs, list_elem_of_here|]. done.
  - rewrite lookup_insert_ne by done. apply Hacc.
Qed.

Lemma resolve_sound cfg env s key pool :
  resolve cfg env = Ok s → pools s !! key = Some pool →
  entries pool ≠ [] ∧ Forall (configured_for cfg env key) (entries pool).
Proof.
  unfold resolve. intros H Hp. destruct (resolve_pools env (credential cfg) ∅) as [ps|] eqn:E;
    simpl in H; [|done]. injection H as <-. simpl in Hp.
  rewrite lookup_fmap in Hp. apply fmap_Some in Hp as (es & Hes & ->). simpl.
  by eapply (resolve_pools_sound cfg env (credential cfg) ∅).
Qed.

Lemma reached_pool cfg env s0 s key pool :
  resolve cfg env = Ok s0 → rtc (use_step cfg) s0 s → pools s !! key = Some pool →
  entries pool ≠ [] ∧ Forall (configured_for cfg env key) (entries pool).
Proof.
  intros H0 Hr Hp. apply use_material in Hr as [_ Hm].
  assert ((entries <$> pools s) !! key = Some (entries pool)) as Hk
    by (by rewrite lookup_fmap, Hp).
  rewrite <-Hm, lookup_fmap in Hk. apply fmap_Some in Hk as (pool0 & Hp0 & ->).
  by eapply resolve_sound.
Qed.

Lemma plan_attempts_in_pool s cfg ns provider now p s' :
  plan_at s cfg ns provider now = (Some p, s') →
  ∃ key pool, resolve_pool s cfg ns provider = Some (key, pool, source p) ∧
    ∀ l, l ∈ attempts p → l ∈ lease <$> entries pool.
Proof.
  intros H. destruct (resolve_pool s cfg ns provider) as [[[key pool] src]|] eqn:Hr;
    [|unfold plan_at in H; by rewrite Hr in H].
  destruct (entries pool) as [|e es] eqn:He.
  - exfalso. unfold plan_at in H. rewrite Hr in H. unfold order in H. by rewrite He in H.
  - destruct (plan_at_partition s cfg ns provider now key pool src Hr) as
      (p' & s1 & rest & Hp & Hsrc & _ & Hperm & _); [by rewrite He|].
    rewrite H in Hp. simplify_eq. exists key, pool. split; [done|].
    intros l Hl. rewrite <-Hperm. apply elem_of_app. by left.
Qed.

Lemma pinned_attempts_in_pool s cfg ns provider p :
  plan_pinned s cfg ns provider = Some p →
  ∃ key pool, resolve_pool s cfg ns provider = Some (key, pool, source p) ∧
    ∀ l, l ∈ attempts p → l ∈ lease <$> entries pool.
Proof.
  unfold plan_pinned. destruct (resolve_pool s cfg ns provider) as [[[key pool] src]|]; simpl; [|done].
  destruct (entries pool) as [|e es] eqn:He; simpl; [done|]. intros [= <-]. exists key, pool.
  split; [done|]. simpl. intros l Hl. apply list_elem_of_singleton in Hl as ->. rewrite He.
  apply list_elem_of_here.
Qed.

Lemma same_material_pool s s' key : same_material s s' → pools s' !! key = None → pools s !! key = None.
Proof.
  intros [_ Hm] Hn. assert ((entries <$> pools s) !! key = None) as H by (by rewrite Hm, lookup_fmap, Hn).
  rewrite lookup_fmap in H. by apply fmap_None in H.
Qed.

(** Where a lease of a plan, pinned or not, was configured. *)
Lemma planned_lease cfg env s0 s ns provider p l :
  resolve cfg env = Ok s0 → rtc (use_step cfg) s0 s →
  plan_pinned s cfg ns provider = Some p ∨ (∃ now s', plan_at s cfg ns provider now = (Some p, s')) →
  l ∈ attempts p →
  ∃ c e, c ∈ credential cfg ∧ c_provider c = provider ∧ resolve_one env c = Ok e ∧ l = lease e ∧
    (c_namespace c = ns ∨ c_namespace c = default_namespace cfg ∧ pools s0 !! (ns, provider) = None ∧
       allow_platform_fallback s0 cfg ns = true).
Proof.
  intros H0 Hr Hplan Hl.
  assert (∃ key pool, resolve_pool s cfg ns provider = Some (key, pool, source p) ∧
    ∀ l, l ∈ attempts p → l ∈ lease <$> entries pool) as (key & pool & Hp & Hin).
  { destruct Hplan as [Hplan|(now & s' & Hplan)];
      [by apply pinned_attempts_in_pool|by eapply plan_attempts_in_pool]. }
  apply resolve_pool_owner in Hp as [Hk Hown].
  apply Hin, list_elem_of_fmap in Hl as (e & -> & He).
  pose proof (proj1 (list.Forall_forall _ _) (proj2 (reached_pool _ _ _ _ _ _ H0 Hr Hk)) e He) as Hc.
  destruct Hc as (c & Hcin & Hkey & Hone).
  pose proof (use_material _ _ _ Hr) as Hm. assert (platform_ns s0 = platform_ns s) as Hns by apply Hm.
  assert (platform_ns s0 = default_namespace cfg) as Hdef.
  { unfold resolve in H0. destruct (resolve_pools env (credential cfg) ∅); simpl in H0; [|done].
    by injection H0 as <-. }
  exists c, e. rewrite <-Hkey in Hown.
  destruct Hown as [[Heq _]|(Heq & _ & Hnone & Hfb)]; injection Heq as Hn Hpr; split_and!; try done;
    [by left|right]. split_and!; [congruence|by eapply same_material_pool|].
  unfold allow_platform_fallback in *. by rewrite Hns.
Qed.

(** ** Properties *)

(** C37: credentials never cross a tenant boundary: whatever requests, successes
    and failures a store has seen since boot, every credential a plan offers for
    a namespace and provider was configured for that provider in that very
    namespace, or in the platform namespace when the namespace has no pool of
    its own and is allowed the fallback; the plan is attributed to the tenant
    exactly when the keys are the tenant's own. *)
Theorem plan_isolation cfg env s0 s ns provider now p s' :
  resolve cfg env = Ok s0 → rtc (use_step cfg) s0 s →
  plan_at s cfg ns provider now = (Some p, s') →
  Forall (λ l, ∃ c e owner, c ∈ credential cfg ∧ c_provider c = provider ∧ c_namespace c = owner ∧
    resolve_one env c = Ok e ∧ l = lease e ∧
    (owner = ns ∧ (source p = Byok ↔ ns ≠ platform_ns s) ∨
     owner = platform_ns s ∧ source p = Platform ∧ pools s !! (ns, provider) = None ∧
       allow_platform_fallback s cfg ns = true)) (attempts p).
Proof.
  intros H0 Hr H. destruct (plan_attempts_in_pool _ _ _ _ _ _ _ H) as (key & pool & Hp & Hin).
  apply resolve_pool_owner in Hp as [Hk Hown].
  destruct (reached_pool _ _ _ _ _ _ H0 Hr Hk) as [_ Hc].
  apply list.Forall_forall. intros l Hl. apply Hin, list_elem_of_fmap in Hl as (e & -> & He).
  apply (proj1 (list.Forall_forall _ _) Hc) in He as (c & Hcin & Hkey & Hone).
  exists c, e, (c_namespace c). rewrite <-Hkey in Hown.
  destruct Hown as [[Heq ?]|[Heq ?]]; injection Heq as Hn Hpr; auto 10.
Qed.

(** a plan uses the whole pool: whenever a namespace resolves to a pool, the
    request gets at least one credential to try, each credential of the pool is
    tried or parked exactly once, and (labels being distinct) the parked list
    names exactly those not tried. *)
Theorem plan_covers_pool cfg env s0 s ns provider now key pool src :
  resolve cfg env = Ok s0 → rtc (use_step cfg) s0 s →
  resolve_pool s cfg ns provider = Some (key, pool, src) →
  ∃ p s' rest, plan_at s cfg ns provider now = (Some p, s') ∧ source p = src ∧
    attempts p ≠ [] ∧ attempts p ++ rest ≡ₚ lease <$> entries pool ∧
    (NoDup (id <$> entries pool) → skip_id <$> parked p = lease_id <$> rest).
Proof.
  intros H0 Hr Hp. pose proof (resolve_pool_owner _ _ _ _ _ _ _ Hp) as [Hk _].
  destruct (reached_pool _ _ _ _ _ _ H0 Hr Hk) as [Hne _].
  by apply plan_at_partition with key.
Qed.

(** presence is exactly plannability: the catalogue query answers yes exactly
    when a request would get a plan. *)
Theorem is_present_iff_plan cfg env s0 s ns provider now :
  resolve cfg env = Ok s0 → rtc (use_step cfg) s0 s →
  is_present s cfg ns provider = true ↔ is_Some (plan_at s cfg ns provider now).1.
Proof.
  intros H0 Hr. transitivity (is_Some (resolve_pool s cfg ns provider)).
  - unfold is_present, resolve_pool. destruct (pools s !! (ns, provider)) as [p|] eqn:E.
    + rewrite bool_decide_true by eauto. split; eauto.
    + rewrite bool_decide_false by (by intros [??]).
      destruct (allow_platform_fallback s cfg ns); simpl;
        [|split; [done|intros [? [=]]]].
      rewrite bool_decide_eq_true. destruct (pools s !! (platform_ns s, provider)); simpl;
        split; intros [? ?]; try done; eauto.
  - split.
    + intros [[[key pool] src] Hp].
      pose proof (resolve_pool_owner _ _ _ _ _ _ _ Hp) as [Hk _].
      destruct (reached_pool _ _ _ _ _ _ H0 Hr Hk) as [Hne _].
      destruct (plan_at_partition s cfg ns provider now key pool src Hp Hne)
        as (p & s' & rest & -> & _). by exists p.
    + intros [p Hp]. destruct (plan_at s cfg ns provider now) as [o s'] eqn:E. simpl in Hp. subst o.
      apply plan_attempts_in_pool in E as (key & pool & -> & _). eauto.
Qed.

(** selection is fair: over one round of consecutive ticks the weighted
    strategy starts at each credential exactly as often as its weight says, and
    round robin starts at each credential once. *)
Theorem selection_shares (es : list PoolEntry) (round : Z) (i : nat) (e : PoolEntry) :
  Forall (λ e, 0 ≤ weight e) es → es !! i = Some e → 0 < sum_weights es →
  let starts strat total n :=
    length (filter (λ j, start es total strat (round * Z.of_nat n + Z.of_nat j) = i) (seq 0 n)) in
  Z.of_nat (starts Weighted (total_weight (Pool_new es)) (Z.to_nat (sum_weights es))) = weight e ∧
  starts RoundRobin (total_weight (Pool_new es)) (length es) = 1%nat.
Proof.
  intros Hw Hi Hs. cbv zeta. split.
  - pose proof (sum_weights_take es i e Hw Hi) as [Ht1 Ht2].
    pose proof (proj1 (list.Forall_forall _ _) Hw e (list_elem_of_lookup_2 _ _ _ Hi)) as He.
    simpl in He. rewrite (count_interval _ (sum_weights (take i es)) (sum_weights (take i es) + weight e));
      try lia.
    intros j Hj. unfold start. simpl total_weight. rewrite Z.max_l, Z2Nat.id by lia.
    rewrite Z.add_comm, Z.mod_add, Z.mod_small by lia.
    rewrite (ladder_spec es 0 (Z.of_nat j) (length es - 1) i e Hw Hi) by lia. done.
  - apply lookup_lt_Some in Hi. apply Nat2Z.inj.
    rewrite (count_interval _ (Z.of_nat i) (Z.of_nat i + 1)); try lia.
    intros j Hj. unfold start. rewrite Z.add_comm, Z.mod_add, Z.mod_small by lia. lia.
Qed.

(** *** Probes *)

Inductive HealthOp :=
| HClassify (key : string) (now : Z)
| HFailure (key : string) (now : Z)
| HSuccess (key : string).

Definition health_op (h : CredentialHealth) (o : HealthOp) : CredentialHealth :=
  match o with
  | HClassify key now => (classify_at h key now).2
  | HFailure key now => record_failure_at h key now
  | HSuccess key => health_success h key
  end.

(** Operations at or after [now] that do not clear [key]. *)
Definition op_keeps (key : string) (now : Z) (o : HealthOp) : Prop :=
  match o with
  | HClassify _ t | HFailure _ t => now ≤ t
  | HSuccess k => k ≠ key
  end.

Definition parked_since (h : CredentialHealth) (key : string) (now : Z) : Prop :=
  ∃ c t, circuits h !! key = Some c ∧ parked_at c = Some t ∧ now ≤ t.

Lemma op_keeps_parked h key now o :
  op_keeps key now o → parked_since h key now → parked_since (health_op h o) key now.
Proof.
  intros Ho (c & t & Hc & Hp & Ht). destruct o as [k u|k u|k]; simpl in *.
  - unfold classify_at. destruct (circuits h !! k) as [c'|] eqn:Hk; [|by exists c, t].
    destruct (parked_at c') as [t'|] eqn:Hp'; [|by exists c, t].
    destruct (_ <=? _); [|by exists c, t]. simpl.
    destruct (decide (k = key)) as [->|Hne].
    + eexists _, u. simpl. by rewrite lookup_insert_eq.
    + exists c, t. simpl. by rewrite lookup_insert_ne.
  - unfold record_failure_at. cbv zeta. destruct (decide (k = key)) as [->|Hne].
    + rewrite Hc. simpl. eexists _, (if threshold h <=? saturating_add U32_MAX (failures c) 1
        then u else t). simpl. rewrite lookup_insert_eq. split; [done|]. simpl. rewrite Hp.
      by destruct (_ <=? _).
    + exists c, t. simpl. by rewrite lookup_insert_ne.
  - exists c, t. simpl. by rewrite lookup_delete_ne.
Qed.

(** The cooldown is fixed. *)
Lemma health_op_cooldown h o : cooldown (health_op h o) = cooldown h.
Proof. destruct o; simpl; try done. unfold classify_at. by repeat case_match. Qed.

(** one probe per cooldown: once a request is handed the half-open probe of a
    parked credential, no other request gets a probe of it before a whole
    cooldown has passed, whatever classifications and failures happen in
    between, until a success clears it. *)
Theorem single_probe (h h1 : CredentialHealth) (key : string) (now later : Z) (ops : list HealthOp) :
  classify_at h key now = (Probe, h1) → Forall (op_keeps key now) ops →
  now ≤ later < now + cooldown h →
  (classify_at (foldl health_op h1 ops) key later).1 = Parked.
Proof.
  intros H Hops Hl.
  assert (parked_since h1 key now ∧ cooldown h1 = cooldown h) as [Hp Hcd].
  { unfold classify_at in H. repeat case_match; simplify_eq. split; [|done].
    eexists _, now. simpl. by rewrite lookup_insert_eq. }
  rewrite <-Hcd in Hl. clear H Hcd. revert h1 Hp Hl.
  induction Hops as [|o ops Ho _ IH]; intros h1 Hp Hl; simpl.
  - destruct Hp as (c & t & Hc & Ht & ?). unfold classify_at. rewrite Hc, Ht.
    rewrite (proj2 (Z.leb_gt _ _)); [done|]. unfold saturating_duration_since. lia.
  - apply IH; [by apply op_keeps_parked|]. by rewrite health_op_cooldown.
Qed.

(** *** Witnesses *)

Definition demo_cfg : Config := {|
  credential :=
    [mkCredential "acme" "openai" (Some "K1") None 3; mkCredential "acme" "openai" (Some "K2") None 1;
     mkCredential "platform" "openai" (Some "P1") (Some "shared") 1];
  namespaces := [mkNamespace "platform" true false];
  strategy_ := Weighted; failure_threshold := 1; cooldown_seconds := 30 |}%string.

Definition demo_env : gmap string string :=
  list_to_map [("K1", "k-1"); ("K2", "k-2"); ("P1", "p-1")]%string.

Definition demo_store : Credentials :=
  match resolve demo_cfg demo_env with
  | Ok s => s
  | Err _ => {| pools := ∅; platform_ns := ""; strategy := RoundRobin; health := health_new 1 1 |}
  end.

Lemma demo_resolves : resolve demo_cfg demo_env = Ok demo_store.
Proof. vm_compute. reflexivity. Qed.

Definition demo_plan (ns : string) : CredentialPlan :=
  default (mkPlan Byok [] []) (plan_at demo_store demo_cfg ns "openai" 5).1.

(** A namespace without keys of its own is served the platform's. *)
Lemma plan_isolation_witness :
  lease_id <$> attempts (demo_plan "other") = ["shared"%string] ∧
  Forall (λ l, ∃ c e owner, c ∈ credential demo_cfg ∧ c_provider c = "openai"%string ∧
    c_namespace c = owner ∧ resolve_one demo_env c = Ok e ∧ l = lease e ∧
    (owner = "other"%string ∧ (source (demo_plan "other") = Byok ↔ "other"%string ≠ platform_ns demo_store) ∨
     owner = platform_ns demo_store ∧ source (demo_plan "other") = Platform ∧
       pools demo_store !! ("other", "openai")%string = None ∧
       allow_platform_fallback demo_store demo_cfg "other" = true)) (attempts (demo_plan "other")).
Proof.
  split; [vm_compute; reflexivity|].
  apply (plan_isolation demo_cfg demo_env demo_store demo_store "other" "openai" 5
    (demo_plan "other") (plan_at demo_store demo_cfg "other" "openai" 5).2 demo_resolves).
  - apply rtc_refl.
  - vm_compute. reflexivity.
Defined.

Definition acme_pool : Pool :=
  default (Pool_new []) (pools demo_store !! ("acme", "openai")%string).

Lemma acme_resolves :
  resolve_pool demo_store demo_cfg "acme" "openai" = Some (("acme", "openai")%string, acme_pool, Byok).
Proof. vm_compute. reflexivity. Qed.

Lemma plan_covers_pool_witness :
  length (entries acme_pool) = 2%nat ∧
  ∃ p s' rest, plan_at demo_store demo_cfg "acme" "openai" 5 = (Some p, s') ∧
    attempts p ++ rest ≡ₚ lease <$> entries acme_pool.
Proof.
  split; [vm_compute; reflexivity|].
  destruct (plan_covers_pool demo_cfg demo_env demo_store demo_store "acme" "openai" 5
    ("acme", "openai")%string acme_pool Byok demo_resolves (rtc_refl _ _) acme_resolves)
    as (p & s' & rest & Hp & _ & _ & Hperm & _).
  exists p, s', rest. split; [exact Hp|]. exact Hperm.
Defined.

Lemma is_present_iff_plan_witness :
  is_present demo_store demo_cfg "other" "openai" = true ↔
  is_Some (plan_at demo_store demo_cfg "other" "openai" 5).1.
Proof. apply (is_present_iff_plan demo_cfg demo_env demo_store _ _ _ _ demo_resolves), rtc_refl. Defined.

Lemma selection_shares_witness :
  Z.of_nat (length (filter (λ j,
    start (entries acme_pool) (total_weight (Pool_new (entries acme_pool))) Weighted
      (0 * Z.of_nat (Z.to_nat (sum_weights (entries acme_pool))) + Z.of_nat j) = 0%nat)
    (seq 0 (Z.to_nat (sum_weights (entries acme_pool)))))) =
  weight (mkEntry "K1" None "k-1" 3 "acme/openai/K1").
Proof.
  apply (selection_shares (entries acme_pool) 0 0 (mkEntry "K1" None "k-1" 3 "acme/openai/K1")).
  - vm_compute. repeat constructor; discriminate.
  - vm_compute. reflexivity.
  - vm_compute. reflexivity.
Defined.

Lemma single_probe_witness :
  let h := record_failure_at (health_new 1 30) "k" 0 in
  (classify_at (foldl health_op (classify_at h "k" 40).2 [HFailure "k" 41; HClassify "k" 42]) "k" 60).1
  = Parked.
Proof.
  apply (single_probe (record_failure_at (health_new 1 30) "k" 0)
    (classify_at (record_failure_at (health_new 1 30) "k" 0) "k" 40).2 "k" 40 60
    [HFailure "k" 41; HClassify "k" 42]).
  - vm_compute. reflexivity.
  - repeat constructor; simpl; lia.
  - simpl. lia.
Defined.

End Credentials.
