(* ===== verification/Dispatch.v ===== *)
(** * Routing and failover ([crates/gateway/src/routes/dispatch.rs], the route
    table of [routes/mod.rs], [adapter_for] of [state.rs]).

    A request walks its model's targets; at each target it walks the credential
    pool.  The walk reads the clock and sends requests through [Transport]; what
    it mutates, the target circuits and the credential health, is the [World].
    Telemetry is left out. *)

From stdpp Require Import pretty.
From S2P Require Import Prelude Circuit Text Sse Json ProviderError Pricing Admission GatewayError.
From S2P Require Import Provider ToolCall Anthropic OpenAi Native Transport Credentials.

Module Dispatch.
Import ProviderError.ProviderError (ProviderError, InvalidRequest, AllCircuitsOpen, transport,
  affects_provider_health, is_credential_rate_limited, FailoverTarget, mkTarget, qualified_model,
  FailoverDecision, TryNext, Return, decide_failover, is_retryable).
Import GatewayError.GatewayError (TransportError, TProvider, TUpstream, THttp, TTimeout, TBodyTooLarge,
  TimeoutKind, Overall, provider_error, timeout_kind, GatewayError, NoCredential,
  ContinuationAffinityUnavailable, ModelUnprefixed, UnknownProvider, BadRequest).
Import Pricing.Pricing (ModelUsage, Usage, RequestPrice).
Import Provider.Provider.
Import Anthropic.Anthropic (ThinkingCodec, anthropic_adapter, AnthropicAdapter_impl, native_message_usage).
Import Transport.Transport.
Import Credentials.Credentials (CredentialSource, CredentialLease, lease_id, secret, CredentialPlan,
  source, attempts, parked, plan_at, plan_pinned, use_step, use_plan, use_success, use_failure).
Import Circuit.Circuit (CircuitBreaker, allow_at, record_failure_at, CircuitDecision, Allow, Skip).

(** ** Routes *)

Inductive ProviderKind := KOpenai | KAnthropic | KOpenaiCompatible.
Inductive ProviderWire := OpenaiWire | AnthropicWire.

#[global] Instance ProviderWire_eq_dec : EqDecision ProviderWire.
Proof. solve_decision. Defined.

Definition kind_wire (k : ProviderKind) : ProviderWire :=
  match k with KOpenai | KOpenaiCompatible => OpenaiWire | KAnthropic => AnthropicWire end.

Inductive Route := RChatCompletions | RNativeMessages | REmbeddings | RResponses.

#[global] Instance Route_eq_dec : EqDecision Route.
Proof. solve_decision. Defined.

Definition label (r : Route) : string :=
  match r with
  | RChatCompletions => "/v1/chat/completions"
  | RNativeMessages => "/v1/messages"
  | REmbeddings => "/v1/embeddings"
  | RResponses => "/v1/responses"
  end.

Definition upstream_path (r : Route) : string :=
  match r with
  | RChatCompletions => "/chat/completions"
  | RNativeMessages => "/messages"
  | REmbeddings => "/embeddings"
  | RResponses => "/responses"
  end.

Definition route_wire (r : Route) : ProviderWire :=
  match r with
  | RChatCompletions | REmbeddings | RResponses => OpenaiWire
  | RNativeMessages => AnthropicWire
  end.

Definition serves (r : Route) (k : ProviderKind) : bool := bool_decide (route_wire r = kind_wire k).

Inductive StreamDelivery := Reemit | Passthrough.
Inductive Framing := OpenAiSse | NativeFraming | ResponsesFraming.

Definition route_stream_delivery (r : Route) : option StreamDelivery :=
  match r with
  | RChatCompletions => Some Reemit
  | RNativeMessages | RResponses => Some Passthrough
  | REmbeddings => None
  end.

Definition streamable (r : Route) : bool :=
  match route_stream_delivery r with Some _ => true | None => false end.

Definition framing (r : Route) : Framing :=
  match r with
  | RChatCompletions => OpenAiSse
  | RNativeMessages | REmbeddings => NativeFraming
  | RResponses => ResponsesFraming
  end.

Definition pins_affinity (r : Route) : bool := bool_decide (r = RResponses).

Definition route_max_attempts (r : Route) (configured : Z) : Z :=
  if pins_affinity r then 1 else configured.

Definition stream_delivery (r : Route) : result GatewayError StreamDelivery :=
  ok_or (route_stream_delivery r) (BadRequest (label r +:+ " does not support streaming")).

Definition split_model_id (model : string) : result GatewayError (string * string) :=
  match split_once "/" (b model) with
  | None => Err (ModelUnprefixed model)
  | Some (provider, id) =>
      match provider, id with
      | [], _ => Err (UnknownProvider "")
      | _, [] => Err (BadRequest "model id after `/` must not be empty")
      | _, _ => Ok (text provider, text id)
      end
  end.

Record Provider := mkProvider { provider_id : string; kind : ProviderKind; provider_base_url : string }.

Record Target := mkTargetOf { t_provider : string; t_model : string }.

Definition target_key (t : Target) : string := qualified_model (mkTarget (t_provider t) (t_model t)).

Definition auth_scheme (k : ProviderKind) : AuthScheme :=
  match k with KAnthropic => Header "x-api-key" | KOpenai | KOpenaiCompatible => Bearer end.

(** ** Failures *)

Definition transport_display (e : TransportError) (provider_text : ProviderError → string) : string :=
  match e with
  | TProvider e | TUpstream _ e => provider_text e
  | THttp m => "transport: " +:+ m
  | TTimeout kind bound budget_ms => "transport: " +:+ timeout_message kind bound budget_ms
  | TBodyTooLarge limit_bytes =>
      "transport: provider response body exceeded its " +:+ pretty limit_bytes +:+ "-byte bound"
  end.

Definition as_provider_error (e : TransportError) : ProviderError :=
  match e with
  | TProvider pe | TUpstream _ pe => pe
  | THttp message => transport "upstream" message
  | TTimeout _ _ _ | TBodyTooLarge _ => transport "upstream" (transport_display e (λ _, ""%string))
  end.

Definition is_credential_exhausted (e : TransportError) : bool :=
  match provider_error e with Some pe => is_credential_rate_limited pe | None => false end.

Definition was_never_dispatched (e : TransportError) : bool := bool_decide (timeout_kind e = Some Overall).

(** ** The world a walk runs in *)

Record World := mkWorld {
  net : Net;
  target_circuits : CircuitBreaker;
  credentials : Credentials.Credentials.Credentials;
}.

Definition set_net w n := mkWorld n (target_circuits w) (credentials w).
Definition set_circuits w c := mkWorld (net w) c (credentials w).
Definition set_credentials w c := mkWorld (net w) (target_circuits w) c.

(** The configuration snapshot of a request. *)
Record Snapshot := mkSnapshot {
  config : Credentials.Credentials.Config;
  providers : list Provider;
  max_attempts : Z;
  overall_timeout_ms : Z;
}.

Definition provider_of (cfg : Snapshot) (id : string) : option Provider :=
  snd <$> list_find (λ p, provider_id p = id) (providers cfg).

Section Walk.
Context {J : SerdeJson} {C : ThinkingCodec} (clock : nat → Z) (network : nat → HttpRequest → SendOutcome)
  (limits : TransportLimits).

Definition is_continuation (r : Route) (body : Value) : bool :=
  pins_affinity r &&
  match get body "previous_response_id" ≫= as_str with
  | Some id => negb (bool_decide (id = ""%string))
  | None => false
  end.

Definition validate_routing_controls (r : Route) (body : Value) : result GatewayError unit :=
  let stream := get body "stream" in
  if match stream with Some v => match as_bool v with Some _ => false | None => true end | None => false end
  then Err (BadRequest "`stream` must be a boolean when present")
  else if match get body "previous_response_id" with
          | Some v => negb (is_null v) && negb (is_string v)
          | None => false
          end
  then Err (BadRequest "`previous_response_id` must be a string or null when present")
  else if bool_decide (stream ≫= as_bool = Some true) && negb (streamable r)
  then Err (BadRequest (label r +:+ " does not support streaming"))
  else Ok tt.

Definition native_usage (r : Route) (response : Value) : ModelUsage :=
  match r with
  | RNativeMessages => native_message_usage response
  | RResponses => OpenAi.OpenAi.responses_usage response
  | RChatCompletions | REmbeddings => OpenAi.OpenAi.embeddings_usage response
  end.

Record Wire := mkWire { route : Route; wire_headers : list (string * string) }.

Definition wire_call (w : Wire) (body : Value) (provider : string) : NativeCall :=
  mkCall provider (upstream_path (route w)) (wire_headers w) body.

(** [Box<dyn ProviderAdapter>] *)
Record BoxedAdapter := mkBoxedAdapter {
  adapter_type : Type;
  adapter_impl : ProviderAdapter adapter_type;
  adapter : adapter_type;
}.
#[local] Existing Instance adapter_impl.

Definition adapter_for (k : ProviderKind) : BoxedAdapter :=
  match k with
  | KOpenai => mkBoxedAdapter _ OpenAi.OpenAi.OpenAiCompatibleAdapter_impl OpenAi.OpenAi.openai
  | KOpenaiCompatible =>
      mkBoxedAdapter _ OpenAi.OpenAi.OpenAiCompatibleAdapter_impl
        (OpenAi.OpenAi.mkAdapter OpenAi.OpenAi.Compatible)
  | KAnthropic => mkBoxedAdapter _ AnthropicAdapter_impl anthropic_adapter
  end.

(** ** The credential pool *)

Record PooledAttempt := mkAttempt {
  attempt_result : result TransportError ProviderResponse;
  attempt_credential : string;
}.

Inductive PreparedPoolCall := Adapter (encoded : string) | NativePrepared (call : NativeCall).

Definition prepare_pool_call (a : BoxedAdapter) (w : Wire) (target_model : string) (body : Value)
    : result TransportError PreparedPoolCall :=
  match route w with
  | RChatCompletions =>
      match encode_request (adapter a) ChatCompletions (mkRequest target_model body) with
      | Ok encoded => Ok (Adapter (to_string encoded))
      | Err e => Err (TProvider e)
      end
  | _ => Ok (NativePrepared (wire_call w body (name (adapter a))))
  end.

Definition upstream_of (p : Provider) (l : CredentialLease) : Upstream :=
  mkUpstream (provider_base_url p) (secret l) (auth_scheme (kind p)).

(** The call with one credential. *)
Definition perform (a : BoxedAdapter) (w : Wire) (up : Upstream) (call : PreparedPoolCall)
    (deadline : Deadline) (n : Net) : result TransportError ProviderResponse * Net :=
  match call with
  | Adapter encoded => dispatch_encoded clock network limits (adapter a) up ChatCompletions encoded deadline n
  | NativePrepared call =>
      match send clock network limits up call deadline n with
      | (Err e, n) => (Err e, n)
      | (Ok body, n) => (Ok (mkResponse body (native_usage (route w) body)), n)
      end
  end.

Definition record_lease_success (w : World) (l : CredentialLease) : World :=
  set_credentials w (Credentials.Credentials.record_success (credentials w) l).

Definition record_lease_failure (w : World) (l : CredentialLease) : World :=
  let '(t, n) := now clock (net w) in
  set_credentials (set_net w n) (Credentials.Credentials.record_failure (credentials w) l t).

Fixpoint pool_loop (a : BoxedAdapter) (wire : Wire) (p : Provider) (target_model : string) (body : Value)
    (deadline : Deadline) (leases : list CredentialLease) (prepared : option PreparedPoolCall)
    (exhausted : option PooledAttempt) (w : World) : PooledAttempt * World :=
  match leases with
  | [] => (default (mkAttempt (Err (TProvider (InvalidRequest "empty credential pool"))) "") exhausted, w)
  | l :: leases =>
      match (match prepared with
             | Some call => Ok call
             | None => prepare_pool_call a wire target_model body
             end) with
      | Err e => (mkAttempt (Err e) (lease_id l), w)
      | Ok call =>
          let '(r, n) := perform a wire (upstream_of p l) call deadline (net w) in
          let w := set_net w n in
          match r with
          | Ok response => (mkAttempt (Ok response) (lease_id l), record_lease_success w l)
          | Err e =>
              if is_credential_exhausted e then
                pool_loop a wire p target_model body deadline leases (Some call)
                  (Some (mkAttempt (Err e) (lease_id l))) (record_lease_failure w l)
              else (mkAttempt (Err e) (lease_id l), w)
          end
      end
  end.

Definition dispatch_over_pool (p : Provider) (plan : CredentialPlan) (target_model : string) (body : Value)
    (wire : Wire) (deadline : Deadline) (w : World) : PooledAttempt * World :=
  pool_loop (adapter_for (kind p)) wire p target_model body deadline (attempts plan) None None w.

(** ** The targets *)

Definition record_target_success (w : World) (key : string) : World :=
  set_circuits w (Circuit.Circuit.record_success (target_circuits w) key).

Definition blames_target (e : TransportError) : bool :=
  affects_provider_health (as_provider_error e) && negb (is_credential_exhausted e)
  && negb (was_never_dispatched e).

Definition record_target_failure (w : World) (key : string) (e : TransportError) : World :=
  if blames_target e then
    let '(t, n) := now clock (net w) in
    set_circuits (set_net w n) (record_failure_at (target_circuits w) key t)
  else w.

Definition allow_target (w : World) (key : string) : CircuitDecision * World :=
  let '(t, n) := now clock (net w) in
  let '(d, c) := allow_at (target_circuits w) key t in
  (d, set_circuits (set_net w n) c).

Definition plan_target (cfg : Snapshot) (pinned : bool) (ns provider : string) (w : World)
    : option CredentialPlan * World :=
  if pinned then (plan_pinned (credentials w) (config cfg) ns provider, w)
  else
    let '(t, n) := now clock (net w) in
    let '(plan, c) := plan_at (credentials w) (config cfg) ns provider t in
    (plan, set_credentials (set_net w n) c).

Record ServedTarget := mkServed {
  s_provider : string;
  s_model : string;
  s_price : RequestPrice;
  s_source : CredentialSource;
  s_credential_id : string;
}.

Record FailoverOutcome := mkOutcome {
  o_result : result TransportError ProviderResponse;
  o_served : ServedTarget;
  o_attempts : Z;
  o_latency_ms : Z;
  o_ttft_ms : option Z;
}.

Record FailoverWalk := mkWalk {
  walk_attempts : Z;
  skipped_open : list string;
  no_credential : option GatewayError;
  last_outcome : option (TransportError * ServedTarget * Z * option Z);
}.

Definition walk_new : FailoverWalk := mkWalk 0 [] None None.

Definition note_missing_credential (ns : string) (walk : FailoverWalk) (provider : string) : FailoverWalk :=
  mkWalk (walk_attempts walk) (skipped_open walk)
    (match no_credential walk with Some e => Some e | None => Some (NoCredential ns provider) end)
    (last_outcome walk).

Definition note_skipped (walk : FailoverWalk) (key : string) : FailoverWalk :=
  mkWalk (walk_attempts walk) (skipped_open walk ++ [key]) (no_credential walk) (last_outcome walk).

Definition into_error (walk : FailoverWalk) : GatewayError :=
  match skipped_open walk with
  | _ :: _ => GatewayError.GatewayError.Provider (AllCircuitsOpen (skipped_open walk))
  | [] =>
      default (GatewayError.GatewayError.Provider (InvalidRequest "no attemptable target"))
        (no_credential walk)
  end.

Definition failed_outcome (walk : FailoverWalk) (l : TransportError * ServedTarget * Z * option Z)
    : FailoverOutcome :=
  let '(e, served, latency_ms, ttft_ms) := l in
  mkOutcome (Err e) served (walk_attempts walk) latency_ms ttft_ms.

(** The end of the walk. *)
Definition finish_walk (walk : FailoverWalk) : result GatewayError FailoverOutcome :=
  match last_outcome walk with
  | Some l => Ok (failed_outcome walk l)
  | None => Err (into_error walk)
  end.

(** [walk.attempts >= max_attempts || Instant::now() >= deadline]: the clock is
    only read when attempts are left. *)
Definition out_of_budget (limit_attempts deadline : Z) (walk : FailoverWalk) (w : World) : bool * World :=
  if limit_attempts <=? walk_attempts walk then (true, w)
  else let '(t, n) := now clock (net w) in (deadline <=? t, set_net w n).

(** [index + 1 < walk.total && walk.attempts < max_attempts && Instant::now() < deadline] *)
Definition has_next (more_targets : bool) (limit_attempts deadline : Z) (walk : FailoverWalk) (w : World)
    : bool * World :=
  if more_targets && (walk_attempts walk <? limit_attempts) then
    let '(t, n) := now clock (net w) in (t <? deadline, set_net w n)
  else (false, w).

(** [let max_attempts = wire.route.max_attempts(cfg.failover.max_attempts)] *)
Definition limit_attempts (cfg : Snapshot) (wire : Wire) : Z :=
  route_max_attempts (route wire) (max_attempts cfg).

Section Request.
Context (cfg : Snapshot) (ns : string) (price : RequestPrice) (body : Value) (wire : Wire)
  (deadline : Z).

Definition affinity_lost (t : Target) : GatewayError :=
  ContinuationAffinityUnavailable (t_provider t) (t_model t).

(** One attempt at a target, timed. *)
Definition attempt_target (t : Target) (p : Provider) (plan : CredentialPlan) (walk : FailoverWalk)
    (w : World) : result TransportError ProviderResponse * ServedTarget * Z * option Z * World :=
  let req_body := insert_field body "model" (Str (t_model t)) in
  let '(started, n) := now clock (net w) in
  let '(attempt, w) := dispatch_over_pool p plan (t_model t) req_body wire (at_instant deadline) (set_net w n) in
  let '(ended, n) := now clock (net w) in
  let latency_ms := as_millis (saturating_duration_since ended started) in
  (attempt_result attempt,
   mkServed (t_provider t) (t_model t) price (source plan) (attempt_credential attempt),
   latency_ms, if is_ok (attempt_result attempt) then Some latency_ms else None, set_net w n).

Fixpoint target_loop (targets : list Target) (first : bool) (walk : FailoverWalk) (w : World)
    : result GatewayError FailoverOutcome * World :=
  match targets with
  | [] => (finish_walk walk, w)
  | t :: targets =>
      if pins_affinity (route wire) && negb first then (finish_walk walk, w)
      else
        let '(stop, w) := out_of_budget (limit_attempts cfg wire) deadline walk w in
        if stop : bool then (finish_walk walk, w)
        else
          match provider_of cfg (t_provider t) with
          | None =>
              if is_continuation (route wire) body then (Err (affinity_lost t), w) else target_loop targets false walk w
          | Some p =>
              let key := target_key t in
              match allow_target w key with
              | (Skip, w) =>
                  if is_continuation (route wire) body then (Err (affinity_lost t), w)
                  else target_loop targets false (note_skipped walk key) w
              | (Allow _, w) =>
                  match plan_target cfg (pins_affinity (route wire)) ns (provider_id p) w with
                  | (None, w) =>
                      if is_continuation (route wire) body then (Err (affinity_lost t), w)
                      else target_loop targets false
                             (note_missing_credential ns walk (provider_id p)) w
                  | (Some plan, w) =>
                      let '(r, served, latency_ms, ttft_ms, w) := attempt_target t p plan walk w in
                      let walk := mkWalk (walk_attempts walk + 1) (skipped_open walk) (no_credential walk)
                                    (last_outcome walk) in
                      match r with
                      | Ok response =>
                          (Ok (mkOutcome (Ok response) served (walk_attempts walk) latency_ms ttft_ms),
                           record_target_success w key)
                      | Err e =>
                          let w := record_target_failure w key e in
                          let '(next, w) :=
                            has_next (negb (bool_decide (targets = []))) (limit_attempts cfg wire) deadline walk w in
                          let walk := mkWalk (walk_attempts walk) (skipped_open walk) (no_credential walk)
                                        (Some (e, served, latency_ms, ttft_ms)) in
                          match decide_failover (as_provider_error e) next with
                          | Return => (finish_walk walk, w)
                          | TryNext => target_loop targets false walk w
                          end
                      end
                  end
              end
          end
  end.

End Request.

Definition dispatch_with_failover (cfg : Snapshot) (ns : string) (targets : list Target)
    (price : RequestPrice) (body : Value) (wire : Wire) (w : World)
    : result GatewayError FailoverOutcome * World :=
  let '(started, n) := now clock (net w) in
  let deadline := started + overall_timeout_ms cfg * NANOS_PER_MILLI in
  target_loop cfg ns price body wire deadline targets true walk_new (set_net w n).

(** ** Lemmas: what an attempt sends *)

(** The request goes to the provider's base URL under the lease's secret. *)
Definition request_for (p : Provider) (l : CredentialLease) (req : HttpRequest) : Prop :=
  credential_header req = auth_header (upstream_of p l) ∧
  ∃ path, url req = text (trim_end_matches "/" (b (provider_base_url p))) +:+ path.

Lemma encoded_request_for p l path headers body :
  request_for p l (encoded_json_request (upstream_of p l) path headers body).
Proof. split; [done|]. by exists path. Qed.

Lemma perform_sent a w p l call deadline n r n' :
  perform a w (upstream_of p l) call deadline n = (r, n') →
  ∃ reqs, sent n' = sent n ++ reqs ∧ (length reqs ≤ 1)%nat ∧ Forall (request_for p l) reqs.
Proof.
  assert (∀ path headers body reqs,
    reqs `sublist_of` [encoded_json_request (upstream_of p l) path headers body] →
    (length reqs ≤ 1)%nat ∧ Forall (request_for p l) reqs) as Hfor.
  { intros path headers body reqs Hr. split; [by apply sublist_length in Hr|].
    apply list.Forall_forall. intros req Hin. apply (λ H, elem_of_sublist _ _ _ H Hr) in Hin.
    apply list_elem_of_singleton in Hin as ->. apply encoded_request_for. }
  destruct call as [encoded|call]; simpl.
  - unfold dispatch_encoded.
    destruct (send_encoded_sent clock network limits (name (adapter a)) (upstream_of p l)
      "/chat/completions" [] encoded deadline n) as (reqs & Hs & Hr).
    destruct (send_encoded _ _ _ _ _ _ _ _ _ _) as [[json|e] n1]; simpl in Hs;
      intros [= _ <-]; exists reqs; split; eauto.
  - unfold send.
    destruct (send_encoded_sent clock network limits (call_provider call) (upstream_of p l)
      (call_path call) (call_headers call) (encoded_json call false) deadline n) as (reqs & Hs & Hr).
    destruct (send_encoded _ _ _ _ _ _ _ _ _ _) as [[json|e] n1]; simpl in Hs;
      intros [= _ <-]; exists reqs; split; eauto.
Qed.

Section Pool.
Context (cc : Credentials.Credentials.Config).

(** What one walk of a credential pool did: the leases it tried, in the pool's
    order, and the requests it sent for them. *)
Definition pool_effect (p : Provider) (leases : list CredentialLease) (w w' : World)
    (tried : list CredentialLease) (reqs : list HttpRequest) : Prop :=
  tried `prefix_of` leases ∧
  sent (net w') = sent (net w) ++ reqs ∧ (length reqs ≤ length tried)%nat ∧
  Forall (λ req, ∃ l, l ∈ tried ∧ request_for p l req) reqs ∧
  rtc (use_step cc) (credentials w) (credentials w') ∧ target_circuits w' = target_circuits w.

Lemma pool_effect_cons p l leases w w1 w' tried reqs1 reqs :
  sent (net w1) = sent (net w) ++ reqs1 → (length reqs1 ≤ 1)%nat → Forall (request_for p l) reqs1 →
  rtc (use_step cc) (credentials w) (credentials w1) → target_circuits w1 = target_circuits w →
  pool_effect p leases w1 w' tried reqs →
  pool_effect p (l :: leases) w w' (l :: tried) (reqs1 ++ reqs).
Proof.
  intros Hs Hl Hf Hc Ht (Hp & Hs' & Hl' & Hf' & Hc' & Ht'). split_and!.
  - by apply prefix_cons.
  - by rewrite Hs', Hs, (assoc_L (++)).
  - rewrite length_app. simpl. lia.
  - apply Forall_app. split; eapply Forall_impl; try done.
    + intros req Hr. exists l. split; [apply list_elem_of_here|done].
    + intros req (l' & Hin & Hr). exists l'. split; [by apply list_elem_of_further|done].
  - by transitivity (credentials w1).
  - congruence.
Qed.

Lemma pool_effect_nil p leases w : pool_effect p leases w w [] [].
Proof.
  split_and!; [apply prefix_nil|by rewrite app_nil_r|done|constructor|apply rtc_refl|done].
Qed.

Lemma pool_effect_one p l leases w w' reqs :
  sent (net w') = sent (net w) ++ reqs → (length reqs ≤ 1)%nat → Forall (request_for p l) reqs →
  rtc (use_step cc) (credentials w) (credentials w') → target_circuits w' = target_circuits w →
  pool_effect p (l :: leases) w w' [l] reqs.
Proof.
  intros. rewrite <-(app_nil_r reqs). eapply pool_effect_cons; try done. apply pool_effect_nil.
Qed.

Definition lease_names (ls : list CredentialLease) : option string := lease_id <$> last ls.

(** The attempt a pool walk reports is the last lease's. *)
Definition pool_outcome (exhausted : option PooledAttempt) (leases tried : list CredentialLease)
    (a : PooledAttempt) : Prop :=
  (tried = [] → leases = [] ∧ a = default (mkAttempt (Err (TProvider (InvalidRequest
     "empty credential pool"))) "") exhausted) ∧
  (tried ≠ [] → Some (attempt_credential a) = lease_names tried ∧
     (tried = leases ∨ (∃ r, attempt_result a = Ok r) ∨
      ∃ e, attempt_result a = Err e ∧ is_credential_exhausted e = false)).

Lemma prepare_error_not_exhausted k wire model body e :
  prepare_pool_call (adapter_for k) wire model body = Err e → is_credential_exhausted e = false.
Proof.
  unfold prepare_pool_call. destruct (route wire); try done.
  destruct k; simpl; [|done|]; unfold OpenAi.OpenAi.encode_request; cbn [Provider.body];
    repeat case_match; intros; simplify_eq; done.
Qed.

Lemma pool_loop_effect k wire p model body deadline leases prepared exhausted w att w' :
  pool_loop (adapter_for k) wire p model body deadline leases prepared exhausted w = (att, w') →
  ∃ tried reqs, pool_effect p leases w w' tried reqs ∧ pool_outcome exhausted leases tried att.
Proof.
  revert prepared exhausted w. induction leases as [|l leases IH]; intros prepared exhausted w; simpl.
  { intros [= <- <-]. exists [], []. split; [apply pool_effect_nil|]. split; [done|done]. }
  destruct (match prepared with Some call => Ok call | None => prepare_pool_call (adapter_for k) wire model body end)
    as [call|e] eqn:Hprep.
  2:{ intros [= <- <-]. exists [l], []. split.
      - apply pool_effect_one; [by rewrite app_nil_r|simpl; lia|constructor|apply rtc_refl|done].
      - split; [done|]. intros _. split; [done|]. right; right. exists e. split; [done|].
        destruct prepared; [done|]. by eapply prepare_error_not_exhausted. }
  destruct (perform (adapter_for k) wire (upstream_of p l) call deadline (net w)) as [r n] eqn:Hperf.
  apply perform_sent in Hperf as (reqs1 & Hs & Hlen & Hfor).
  destruct r as [response|e].
  { intros [= <- <-]. exists [l], reqs1. split.
    - apply pool_effect_one; try done. apply rtc_once, use_success.
    - split; [done|]. intros _. split; [done|]. right; left. by eexists. }
  destruct (is_credential_exhausted e) eqn:Hex.
  - intros Hloop. apply IH in Hloop as (tried & reqs & Heff & Hout).
    exists (l :: tried), (reqs1 ++ reqs). split.
    + eapply (pool_effect_cons p l leases w (record_lease_failure (set_net w n) l)); try done.
      apply rtc_once. simpl. apply use_failure.
    + destruct Hout as [Hnil Hcons]. split; [done|]. intros _.
      destruct tried as [|l' tried].
      * destruct (Hnil eq_refl) as [-> ->]. split; [done|]. by left.
      * destruct Hcons as [Hid Hend]; [done|]. split; [by rewrite Hid|].
        destruct Hend as [->|Hend]; [by left|by right].
  - intros [= <- <-]. exists [l], reqs1. split.
    + apply pool_effect_one; try done.
    + split; [done|]. intros _. split; [done|]. right; right. by exists e.
Qed.

End Pool.

(** ** Lemmas: the walk over the targets *)

Section Log.
Context (cfg : Snapshot) (ns : string) (price : RequestPrice) (body : Value) (wire : Wire) (deadline : Z).

(** One target that was attempted. *)
Record Attempted := mkAttempted {
  at_target : Target;
  at_provider : Provider;
  at_plan : CredentialPlan;
  at_tried : list CredentialLease;
  at_requests : list HttpRequest;
  at_result : result TransportError ProviderResponse;
  (** The worlds it started and ended in. *)
  at_before : World;
  at_after : World;
}.

Definition requests (log : list Attempted) : list HttpRequest := mjoin (at_requests <$> log).

(** The plan was made for the caller's namespace by a store that has been in use
    since [s0]. *)
Definition planned (s0 : Credentials.Credentials.Credentials) (provider : string) (plan : CredentialPlan)
    : Prop :=
  ∃ s, rtc (use_step (config cfg)) s0 s ∧
    (if pins_affinity (route wire) then plan_pinned s (config cfg) ns provider = Some plan
     else ∃ t s', plan_at s (config cfg) ns provider t = (Some plan, s')).

Definition attempted_ok (s0 : Credentials.Credentials.Credentials) (a : Attempted) : Prop :=
  provider_of cfg (t_provider (at_target a)) = Some (at_provider a) ∧
  planned s0 (provider_id (at_provider a)) (at_plan a) ∧
  at_tried a `prefix_of` attempts (at_plan a) ∧
  (length (at_requests a) ≤ length (at_tried a))%nat ∧
  Forall (λ req, ∃ l, l ∈ at_tried a ∧ request_for (at_provider a) l req) (at_requests a) ∧
  (∀ e, at_result a = Err e → is_credential_exhausted e = true → at_tried a = attempts (at_plan a)).

(** The attempt is the pool's own walk for this request and target, started where
    it says; its requests are the ones sent meanwhile. *)
Definition attempt_ran (a : Attempted) : Prop :=
  let '(_, n) := now clock (net (at_before a)) in
  let '(attempt, w) := dispatch_over_pool (at_provider a) (at_plan a) (t_model (at_target a))
                         (insert_field body "model" (Str (t_model (at_target a)))) wire (at_instant deadline)
                         (set_net (at_before a) n) in
  at_result a = attempt_result attempt ∧ at_after a = set_net w (now clock (net w)).2 ∧
  sent (net (at_after a)) = sent (net (at_before a)) ++ at_requests a.

(** Every attempt but the last failed in a way worth another target. *)
Definition retried (log : list Attempted) : Prop :=
  ∀ i a, log !! i = Some a → (S i < length log)%nat →
    ∃ e, at_result a = Err e ∧ is_retryable (as_provider_error e) = true.

Definition attributed (a : Attempted) (out : FailoverOutcome) : Prop :=
  o_result out = at_result a ∧
  s_provider (o_served out) = t_provider (at_target a) ∧ s_model (o_served out) = t_model (at_target a) ∧
  s_price (o_served out) = price ∧ s_source (o_served out) = source (at_plan a) ∧
  (at_tried a ≠ [] → Some (s_credential_id (o_served out)) = lease_names (at_tried a)).

Definition logged (walk : FailoverWalk) (log : list Attempted) (r : result GatewayError FailoverOutcome)
    : Prop :=
  match r with
  | Ok out =>
      match last log with
      | Some a => o_attempts out = walk_attempts walk + Z.of_nat (length log) ∧ attributed a out
      | None => ∃ l, last_outcome walk = Some l ∧ out = failed_outcome walk l
      end
  | Err _ => log = [] ∧ last_outcome walk = None
  end.

(** Nothing is sent; the clock may be read and the credentials' health noted. *)
Definition quiet (w w' : World) : Prop :=
  sent (net w') = sent (net w) ∧ (reads (net w) ≤ reads (net w'))%nat ∧
  rtc (use_step (config cfg)) (credentials w) (credentials w').

#[local] Instance quiet_trans : Transitive quiet.
Proof.
  intros w1 w2 w3 (H1 & H2 & H3) (H4 & H5 & H6). split_and!; [congruence|lia|by transitivity (credentials w2)].
Qed.

(** The attempts follow one another, with nothing sent before, between or after
    them. *)
Fixpoint chained (w : World) (log : list Attempted) (w' : World) : Prop :=
  match log with
  | [] => quiet w w'
  | a :: log => quiet w (at_before a) ∧ chained (at_after a) log w'
  end.

Lemma chained_quiet w w1 log w' : quiet w w1 → chained w1 log w' → chained w log w'.
Proof.
  destruct log as [|a log]; simpl; intros Hq; [by transitivity w1|].
  intros [H1 H2]. split; [by transitivity w1|done].
Qed.

Lemma out_of_budget_quiet limit walk w stop w' :
  out_of_budget limit deadline walk w = (stop, w') →
  quiet w w' ∧ (stop = false → walk_attempts walk < limit).
Proof.
  unfold out_of_budget. destruct (limit <=? _) eqn:E; simpl; intros; simplify_eq; reflect_bools;
    (split; [split_and!; [done|simpl; lia|apply rtc_refl]|]); [done|lia].
Qed.

Lemma has_next_quiet more limit walk w next w' :
  has_next more limit deadline walk w = (next, w') → quiet w w'.
Proof.
  unfold has_next. destruct (more && _); simpl; intros; simplify_eq;
    (split_and!; [done|simpl; lia|apply rtc_refl]).
Qed.

Lemma allow_target_quiet w key d w' : allow_target w key = (d, w') → quiet w w'.
Proof.
  unfold allow_target. simpl. destruct (allow_at _ _ _) as [d0 c]. intros [= <- <-].
  split_and!; [done|simpl; lia|apply rtc_refl].
Qed.

Lemma record_target_failure_quiet w key e : quiet w (record_target_failure w key e).
Proof. unfold record_target_failure. destruct (blames_target e); (split_and!; [done|simpl; lia|apply rtc_refl]). Qed.

Lemma plan_target_quiet provider w plan w' :
  plan_target cfg (pins_affinity (route wire)) ns provider w = (plan, w') →
  quiet w w' ∧ ∀ p, plan = Some p → planned (credentials w) provider p.
Proof.
  unfold plan_target, planned. destruct (pins_affinity (route wire)); simpl.
  - intros [= <- <-]. split; [split_and!; [done|simpl; lia|apply rtc_refl]|]. intros p Hp. eexists. split; [apply rtc_refl|done].
  - destruct (plan_at _ _ _ _ _) as [plan0 c] eqn:Hp. intros [= <- <-]. split.
    + split_and!; [done|simpl; lia|]. simpl. pose proof (use_plan (config cfg) (credentials w) ns provider (clock (reads (net w)))) as Hu.
      rewrite Hp in Hu. by apply rtc_once.
    + intros p ->. eexists. split; [apply rtc_refl|]. by eexists _, _.
Qed.

Lemma planned_later s0 s provider plan :
  rtc (use_step (config cfg)) s0 s → planned s provider plan → planned s0 provider plan.
Proof. intros H (s1 & H1 & H2). exists s1. split; [by transitivity s|done]. Qed.

Lemma attempted_ok_later s0 s a :
  rtc (use_step (config cfg)) s0 s → attempted_ok s a → attempted_ok s0 a.
Proof. intros H (H1 & H2 & H3). split; [done|]. split; [by eapply planned_later|done]. Qed.

Lemma attempt_target_spec s0 t p plan walk w r served latency ttft w' :
  provider_of cfg (t_provider t) = Some p → planned s0 (provider_id p) plan →
  attempt_target price body wire deadline t p plan walk w = (r, served, latency, ttft, w') →
  ∃ a, attempted_ok s0 a ∧ at_target a = t ∧ at_result a = r ∧
    sent (net w') = sent (net w) ++ at_requests a ∧
    rtc (use_step (config cfg)) (credentials w) (credentials w') ∧
    (∀ n, attributed a (mkOutcome r served n latency ttft)) ∧
    attempt_ran a ∧ at_before a = w ∧ at_after a = w'.
Proof.
  intros Hp Hplan. unfold attempt_target. simpl.
  destruct (dispatch_over_pool _ _ _ _ _ _ _) as [att w1] eqn:Hd. intros [= <- <- <- <- <-].
  unfold dispatch_over_pool in Hd. pose proof Hd as Hd0.
  apply (pool_loop_effect (config cfg)) in Hd as (tried & reqs & (Hpre & Hs & Hl & Hf & Hc & _) & Hnil & Hcons).
  exists (mkAttempted t p plan tried reqs (attempt_result att) w (set_net w1 (now clock (net w1)).2)).
  split; [|split_and!; try done].
  - split_and!; try done. intros e He Hex. simpl in *. destruct tried as [|l tried].
    + by destruct (Hnil eq_refl).
    + destruct Hcons as [_ Hend]; [done|]. destruct Hend as [|[[? ?]|(e' & ? & ?)]]; congruence.
  - intros n. split_and!; try done. intros Ht. by apply Hcons.
  - unfold attempt_ran. simpl. unfold dispatch_over_pool. by rewrite Hd0.
Qed.

(** What the walk did from a given point on. *)
Definition walk_log (targets : list Target) (first : bool) (walk : FailoverWalk) (w w' : World)
    (r : result GatewayError FailoverOutcome) (log : list Attempted) : Prop :=
  (at_target <$> log) `sublist_of` targets ∧ Forall (attempted_ok (credentials w)) log ∧
  sent (net w') = sent (net w) ++ requests log ∧
  (log = [] ∨ walk_attempts walk + Z.of_nat (length log) ≤ limit_attempts cfg wire) ∧
  (pins_affinity (route wire) = true → (length log ≤ if first then 1 else 0)%nat) ∧
  retried log ∧ logged walk log r ∧ Forall attempt_ran log ∧ chained w log w'.

Lemma walk_log_nil targets first walk w w' r :
  quiet w w' → logged walk [] r → walk_log targets first walk w w' r [].
Proof.
  intros Hq Hl. pose proof (proj1 Hq) as Hs. split_and!; try done.
  - apply sublist_nil_l.
  - by rewrite Hs, app_nil_r.
  - by left.
  - simpl. lia.
Qed.

(** A target that was passed over. *)
Lemma walk_log_skip t targets first walk walk' w w1 w' r log :
  quiet w w1 → walk_attempts walk' = walk_attempts walk → last_outcome walk' = last_outcome walk →
  walk_log targets false walk' w1 w' r log → walk_log (t :: targets) first walk w w' r log.
Proof.
  intros Hq Ha Hlast (H1 & H2 & H3 & H4 & H5 & H6 & H7 & H8 & H9).
  pose proof (proj1 Hq) as Hs. pose proof (proj2 (proj2 Hq)) as Hc. split_and!; try done.
  - by apply sublist_cons.
  - eapply Forall_impl; [exact H2|]. intros a. by apply attempted_ok_later.
  - by rewrite H3, Hs.
  - by rewrite <-Ha.
  - intros Hp. specialize (H5 Hp). destruct first; lia.
  - destruct r as [out|e]; simpl in *; rewrite <-Hlast, <-?Ha; [|done].
    destruct (last log); [done|]. destruct H7 as (l & Hl & ->). exists l. split; [done|].
    destruct l as [[[e served] lat] ttft]. simpl. by rewrite Ha.
  - by eapply chained_quiet.
Qed.

Lemma walk_log_last t targets first walk w w' r a :
  at_target a = t → attempted_ok (credentials w) a →
  sent (net w') = sent (net w) ++ at_requests a → walk_attempts walk < limit_attempts cfg wire →
  (pins_affinity (route wire) = true → first = true) →
  logged walk [a] r → attempt_ran a → quiet w (at_before a) → quiet (at_after a) w' →
  walk_log (t :: targets) first walk w w' r [a].
Proof.
  intros <- Hok Hs Ha Hp Hl Hran Hq1 Hq2. split_and!; try done.
  - simpl. apply sublist_skip, sublist_nil_l.
  - by apply Forall_singleton.
  - unfold requests. simpl. by rewrite app_nil_r.
  - right. simpl. lia.
  - intros H. by rewrite (Hp H).
  - intros i x _ Hi. simpl in Hi. lia.
  - by apply Forall_singleton.
Qed.

Lemma retried_cons a log e :
  at_result a = Err e → is_retryable (as_provider_error e) = true → retried log → retried (a :: log).
Proof.
  intros Ha Hr Hlog [|i] x Hi Hlt; simpl in *; [|by apply (Hlog i); [|lia]].
  simplify_eq. by exists e.
Qed.

Lemma walk_log_retry t targets first walk walk' w w1 w' r a e log served latency ttft :
  at_target a = t → attempted_ok (credentials w) a → at_result a = Err e →
  is_retryable (as_provider_error e) = true →
  sent (net w1) = sent (net w) ++ at_requests a →
  rtc (use_step (config cfg)) (credentials w) (credentials w1) →
  walk_attempts walk < limit_attempts cfg wire → (pins_affinity (route wire) = true → first = true) →
  walk_attempts walk' = walk_attempts walk + 1 → last_outcome walk' = Some (e, served, latency, ttft) →
  (∀ n, attributed a (mkOutcome (Err e) served n latency ttft)) →
  attempt_ran a → quiet w (at_before a) → quiet (at_after a) w1 →
  walk_log targets false walk' w1 w' r log → walk_log (t :: targets) first walk w w' r (a :: log).
Proof.
  intros <- Hok Hr Hretry Hs Hc Ha Hp Ha' Hlast Hattr Hran Hq1 Hq2 (H1 & H2 & H3 & H4 & H5 & H6 & H7 & H8 & H9).
  refine (conj _ (conj _ (conj _ (conj _ (conj _ (conj _ (conj _ (conj _ _)))))))).
  - by apply sublist_skip.
  - constructor; [done|]. eapply Forall_impl; [exact H2|]. intros x. by apply attempted_ok_later.
  - rewrite H3, Hs. unfold requests. simpl. by rewrite (assoc_L (++)).
  - right. cbn [length]. destruct H4 as [->|H4]; [simpl; lia|]. lia.
  - intros H. rewrite (Hp H). specialize (H5 H). simpl. lia.
  - by eapply retried_cons.
  - destruct r as [out|err]; simpl in *.
    + rewrite last_cons. destruct (last log) as [x|] eqn:Hx.
      * destruct H7 as [H7 ?]. split; [lia|done].
      * apply last_None in Hx as ->. destruct H7 as (l & Hl & ->).
        rewrite Hlast in Hl. simplify_eq. simpl. split; [lia|apply Hattr].
    + destruct H7 as [_ H7]. congruence.
  - by constructor.
  - split; [done|]. by eapply chained_quiet.
Qed.

Lemma finish_walk_logged walk : logged walk [] (finish_walk walk).
Proof. unfold finish_walk. destruct (last_outcome walk) eqn:E; simpl; [by eexists|done]. Qed.

Lemma quiet_refl w : quiet w w.
Proof. split_and!; [done|done|apply rtc_refl]. Qed.

Lemma decide_try_next e next : decide_failover e next = TryNext → is_retryable e = true.
Proof. unfold decide_failover. destruct next, (is_retryable e); done. Qed.

Lemma target_loop_log targets first walk w r w' :
  (first = true → last_outcome walk = None) →
  target_loop cfg ns price body wire deadline targets first walk w = (r, w') →
  ∃ log, walk_log targets first walk w w' r log.
Proof.
  revert first walk w. induction targets as [|t targets IH]; intros first walk w Hfirst; cbn [target_loop].
  { intros [= <- <-]. exists []. apply walk_log_nil; [apply quiet_refl|apply finish_walk_logged]. }
  destruct (pins_affinity (route wire) && negb first) eqn:Hpin.
  { intros [= <- <-]. exists []. apply walk_log_nil; [apply quiet_refl|apply finish_walk_logged]. }
  assert (pins_affinity (route wire) = true → first = true) as Hpf
    by (intros H; rewrite H in Hpin; by destruct first).
  destruct (out_of_budget _ _ _ _) as [stop w1] eqn:Hb. apply out_of_budget_quiet in Hb as [Hq1 Hlt].
  destruct stop.
  { intros [= <- <-]. exists []. by apply walk_log_nil, finish_walk_logged. }
  specialize (Hlt eq_refl).
  (* a continuation that lost its target is an error of a walk that has done nothing *)
  assert (∀ w', is_continuation (route wire) body = true → quiet w w' →
    walk_log (t :: targets) first walk w w' (Err (affinity_lost t)) []) as Hlost.
  { intros w2 Hcont Hq. apply walk_log_nil; [done|]. split; [done|]. apply Hfirst, Hpf.
    unfold is_continuation in Hcont. by destruct (pins_affinity _). }
  assert (∀ walk' w2, quiet w w2 → walk_attempts walk' = walk_attempts walk →
    last_outcome walk' = last_outcome walk →
    target_loop cfg ns price body wire deadline targets false walk' w2 = (r, w') →
    ∃ log, walk_log (t :: targets) first walk w w' r log) as Hskip.
  { intros walk' w2 Hq Ha Hl Hrest. apply IH in Hrest as [log Hlog]; [|done].
    exists log. by eapply walk_log_skip. }
  destruct (provider_of cfg (t_provider t)) as [p|] eqn:Hp.
  2:{ destruct (is_continuation (route wire) body) eqn:Hcont; [|by apply Hskip].
      intros [= <- <-]. exists []. by apply Hlost. }
  destruct (allow_target w1 (target_key t)) as [[probe|] w2] eqn:Hal.
  all: apply allow_target_quiet in Hal; assert (quiet w w2) as Hq2 by (by transitivity w1).
  2:{ destruct (is_continuation (route wire) body) eqn:Hcont; [|by apply Hskip].
      intros [= <- <-]. exists []. by apply Hlost. }
  destruct (plan_target cfg _ ns (provider_id p) w2) as [[plan|] w3] eqn:Hpl.
  all: apply plan_target_quiet in Hpl as [Hq3 Hplan]; assert (quiet w w3) as Hqw by (by transitivity w2).
  2:{ destruct (is_continuation (route wire) body) eqn:Hcont; [|by apply Hskip].
      intros [= <- <-]. exists []. by apply Hlost. }
  pose proof (planned_later _ _ _ _ (proj2 (proj2 Hq2)) (Hplan plan eq_refl)) as Hpl.
  destruct (attempt_target _ _ _ _ _ _ _ _ _) as [[[[r0 served] latency] ttft] w4] eqn:Hat.
  apply (attempt_target_spec (credentials w)) in Hat as
    (a & Hok & Htgt & Hres & Hs & Hc & Hattr & Hran & Hbef & Haft); [|done..].
  assert (quiet w (at_before a)) as Hqb by by rewrite Hbef.
  rewrite (proj1 Hqw) in Hs. destruct r0 as [response|e].
  { intros [= <- <-]. exists [a]. apply walk_log_last; try done. rewrite Haft. split_and!; [done|done|apply rtc_refl]. }
  destruct (has_next _ _ _ _ _) as [next w6] eqn:Hn. apply has_next_quiet in Hn.
  assert (quiet w4 w6) as Hq6
    by (transitivity (record_target_failure w4 (target_key t) e); [apply record_target_failure_quiet|done]).
  pose proof Hq6 as (Hs6 & _ & Hc6). rewrite <-Haft in Hq6.
  destruct (decide_failover (as_provider_error e) next) eqn:Hd.
  - apply decide_try_next in Hd. intros Hrest. apply IH in Hrest as [log Hlog]; [|done].
    exists (a :: log).
    refine (walk_log_retry t targets first walk _ w w6 w' r a e log served latency ttft
      Htgt Hok Hres Hd _ _ Hlt Hpf _ _ Hattr Hran Hqb Hq6 Hlog); [| |done..].
    + by rewrite Hs6.
    + transitivity (credentials w3); [apply Hqw|]. by transitivity (credentials w4).
  - intros [= <- <-]. exists [a]. apply walk_log_last; try done; [by rewrite Hs6|].
    split; [simpl; lia|apply Hattr].
Qed.

Lemma pinned_requests s0 log :
  Forall (attempted_ok s0) log → pins_affinity (route wire) = true → (length log ≤ 1)%nat →
  (length (requests log) ≤ 1)%nat.
Proof.
  intros Hok Hp Hlen. destruct log as [|a [|]]; simpl in *; [lia| |lia].
  apply Forall_singleton in Hok as (_ & (s & _ & Hplan) & Hpre & Hreq & _).
  unfold requests. simpl. rewrite app_nil_r. rewrite Hp in Hplan.
  apply prefix_length in Hpre. unfold plan_pinned in Hplan.
  destruct (Credentials.Credentials.resolve_pool _ _ _ _) as [[[key pool] src]|]; simpl in Hplan; [|done].
  destruct (head _); simpl in Hplan; [|done]. injection Hplan as Hplan. rewrite <-Hplan in Hpre.
  simpl in Hpre. lia.
Qed.

End Log.

(** A request that a caller in [ns] may cause: to a provider one of the targets
    names, under a credential configured for that provider and for the caller's
    own namespace, or for the default one as a permitted fallback. *)
Definition isolated_request (cfg : Snapshot) (env : gmap string string)
    (s0 : Credentials.Credentials.Credentials) (ns : string) (targets : list Target) (req : HttpRequest)
    : Prop :=
  ∃ t p c e, t ∈ targets ∧ provider_of cfg (t_provider t) = Some p ∧
    c ∈ Credentials.Credentials.credential (config cfg) ∧
    Credentials.Credentials.c_provider c = provider_id p ∧
    Credentials.Credentials.resolve_one env c = Ok e ∧
    request_for p (Credentials.Credentials.lease e) req ∧
    (Credentials.Credentials.c_namespace c = ns ∨
     Credentials.Credentials.c_namespace c =
       Credentials.Credentials.default_namespace (config cfg) ∧
     Credentials.Credentials.pools s0 !! (ns, provider_id p) = None ∧
     Credentials.Credentials.allow_platform_fallback s0 (config cfg) ns = true).

Lemma planned_isolated cfg env s0 s1 ns wire targets t p plan l req :
  Credentials.Credentials.resolve (config cfg) env = Ok s0 → rtc (use_step (config cfg)) s0 s1 →
  t ∈ targets → provider_of cfg (t_provider t) = Some p → planned cfg ns wire s1 (provider_id p) plan →
  l ∈ attempts plan → request_for p l req → isolated_request cfg env s0 ns targets req.
Proof.
  intros H0 Hr Ht Hprov (s & Hs0 & Hplan) Hl Hreq.
  destruct (Credentials.Credentials.planned_lease (config cfg) env s0 s ns (provider_id p) plan l)
    as (c & e & H1 & H2 & H3 & -> & H4); try done.
  - by transitivity s1.
  - destruct (pins_affinity (route wire)); [by left|right].
    destruct Hplan as (now & s' & Hplan). by exists now, s'.
  - by exists t, p, c, e.
Qed.

Lemma attempted_isolated cfg env s0 s1 ns wire targets log :
  Credentials.Credentials.resolve (config cfg) env = Ok s0 → rtc (use_step (config cfg)) s0 s1 →
  (at_target <$> log) `sublist_of` targets → Forall (attempted_ok cfg ns wire s1) log →
  Forall (isolated_request cfg env s0 ns targets) (requests log).
Proof.
  intros H0 Hr Hsub Hok. apply list.Forall_forall. intros req Hreq.
  apply list_elem_of_join in Hreq as (reqs & Hreq & Hin).
  apply list_elem_of_fmap in Hin as (a & -> & Ha).
  pose proof (proj1 (list.Forall_forall _ _) Hok a Ha) as (Hprov & Hplan & Hpre & _ & Hfor & _).
  apply (proj1 (list.Forall_forall _ _) Hfor) in Hreq as (l & Hl & Hreq).
  eapply planned_isolated; try done; [|by eapply elem_of_prefix].
  eapply elem_of_sublist; [|done]. by apply list_elem_of_fmap_2.
Qed.

(** ** Properties *)

(** C12: The failover walk, accounted for.  What a request did is a list of attempts,
    each at a configured target, in the order the model lists them and no more of
    them than the attempt limit.  Every request that left the gateway belongs to
    one of them and was sent to that target's provider under a credential planned
    for the caller; a rate limit is reported only after the whole pool was tried.
    An attempt's result is what the target's pool answered there and then, and
    nothing is sent before, between or after the attempts.  The walk goes on past
    an attempt only if that answer is a failure worth another target.
    It returns an outcome exactly when it attempted something, and then the
    outcome is the last attempt's, attributed to that target and credential; so an
    error means that no request was sent.  A route pinned to one upstream sends at
    most one request. *)
Theorem failover_walk_accounted (cfg : Snapshot) (ns : string) (targets : list Target)
    (price : RequestPrice) (body : Value) (wire : Wire) (w : World) :
  let '(r, w') := dispatch_with_failover cfg ns targets price body wire w in
  ∃ log, (at_target <$> log) `sublist_of` targets ∧
    Forall (attempted_ok cfg ns wire (credentials w)) log ∧
    sent (net w') = sent (net w) ++ requests log ∧
    Forall (attempt_ran body wire (clock (reads (net w)) + overall_timeout_ms cfg * NANOS_PER_MILLI)) log ∧
    chained cfg w log w' ∧
    Z.of_nat (length log) ≤ Z.max 0 (limit_attempts cfg wire) ∧
    (pins_affinity (route wire) = true → (length (requests log) ≤ 1)%nat) ∧
    retried log ∧
    match r with
    | Ok out => ∃ a, last log = Some a ∧ o_attempts out = Z.of_nat (length log) ∧ attributed price a out
    | Err _ => log = []
    end.
Proof.
  destruct (dispatch_with_failover _ _ _ _ _ _ _) as [r w'] eqn:Hd. unfold dispatch_with_failover in Hd.
  simpl in Hd. apply target_loop_log in Hd as (log & H1 & H2 & H3 & H4 & H5 & H6 & H7 & H8 & H9);
    [|done].
  exists log. split_and!; try done.
  - eapply chained_quiet; [|done]. split_and!; [done|simpl; lia|apply rtc_refl].
  - destruct H4 as [->|H4]; simpl in *; lia.
  - intros Hp. by eapply pinned_requests, H5.
  - destruct r as [out|e]; simpl in H7; [|by destruct H7].
    destruct (last log) as [a|]; [|by destruct H7 as (l & Hl & _)].
    exists a. destruct H7 as [H7 ?]. split_and!; [done|simpl in H7; lia|done].
Qed.

(** Tenants stay apart on the wire.  Whatever a gateway has served since its
    credentials were resolved, every request a caller's walk sends goes to the
    base URL of a provider one of the model's targets names, under a credential
    configured for that provider and for the caller's own namespace, or for the
    default namespace when the caller has no pool of its own for that provider
    and is allowed the fallback. *)
Theorem requests_isolated (cfg : Snapshot) (env : gmap string string)
    (s0 : Credentials.Credentials.Credentials) (ns : string) (targets : list Target)
    (price : RequestPrice) (body : Value) (wire : Wire) (w : World) :
  Credentials.Credentials.resolve (config cfg) env = Ok s0 →
  rtc (use_step (config cfg)) s0 (credentials w) →
  let '(_, w') := dispatch_with_failover cfg ns targets price body wire w in
  ∃ new, sent (net w') = sent (net w) ++ new ∧
    Forall (isolated_request cfg env s0 ns targets) new.
Proof.
  intros H0 Hr. destruct (dispatch_with_failover _ _ _ _ _ _ _) as [r w'] eqn:Hd.
  unfold dispatch_with_failover in Hd. simpl in Hd.
  apply target_loop_log in Hd as (log & Hsub & Hok & Hs & _); [|done].
  exists (requests log). split; [done|]. by eapply attempted_isolated.
Qed.

End Walk.

(** ** Witness

    A caller without keys of its own, and a network that never answers: one
    request leaves, under the shared key. *)

Definition demo_json : SerdeJson := json_model (λ _, Ok JNull) (λ _, "{}"%string).

Definition demo_snapshot : Snapshot := {|
  config := Credentials.Credentials.demo_cfg;
  providers := [mkProvider "openai" KOpenai "https://api.test/v1/"];
  max_attempts := 3; overall_timeout_ms := 1000 |}%string.

Definition demo_world : World := {|
  net := mkNet 0 [];
  target_circuits := Circuit.Circuit.new 5 30;
  credentials := Credentials.Credentials.demo_store |}.

Definition demo_walk : World :=
  (@dispatch_with_failover demo_json Anthropic.Anthropic.demo_codec (λ _, 0) (λ _ _, NoHeaders)
     TransportLimits_default demo_snapshot "other" [mkTargetOf "openai" "m"] Pricing.Pricing.unpriced
     (JObj []) (mkWire REmbeddings []) demo_world).2.

Lemma requests_isolated_witness :
  credential_header <$> sent (net demo_walk) = [("authorization", "Bearer p-1")]%string ∧
  ∃ new, sent (net demo_walk) = sent (net demo_world) ++ new ∧
    Forall (isolated_request demo_snapshot Credentials.Credentials.demo_env
      Credentials.Credentials.demo_store "other" [mkTargetOf "openai" "m"]) new.
Proof.
  split; [vm_compute; reflexivity|].
  pose proof (@requests_isolated demo_json Anthropic.Anthropic.demo_codec (λ _, 0) (λ _ _, NoHeaders)
    TransportLimits_default demo_snapshot Credentials.Credentials.demo_env
    Credentials.Credentials.demo_store "other" [mkTargetOf "openai" "m"] Pricing.Pricing.unpriced
    (JObj []) (mkWire REmbeddings []) demo_world Credentials.Credentials.demo_resolves
    (rtc_refl _ _)) as H.
  unfold demo_walk. destruct (dispatch_with_failover _ _ _ _ _ _ _ _ _ _) as [r w']. exact H.
Defined.

End Dispatch.
