(* ===== verification/Store.v ===== *)
(** * The durable store: namespaces, budgets, usage, provider models
    ([crates/gateway/src/store/mod.rs], [crates/gateway/src/store/sqlite.rs],
    [crates/gateway/src/budget/]).

    The database is its tables; an operation is a program over them in a small
    state and error monad in which any statement, and the checkout of the
    connection, may fail.  The connection mutex runs one operation at a time.
    [serde_json] is the class of [Json], [jiff]'s timezones are parameters. *)

From stdpp Require Import pretty.
From S2P Require Import Prelude Text Json Scopes.

Module Store.

Inductive StoreError :=
| Duplicate (id : string)
| NotFound (id : string)
| Unavailable (m : string)
| Invalid (m : string).

#[global] Instance StoreError_eq_dec : EqDecision StoreError.
Proof. solve_decision. Defined.

(** ** Records *)

Inductive BudgetCadence := Monthly | Fixed.

#[global] Instance BudgetCadence_eq_dec : EqDecision BudgetCadence.
Proof. solve_decision. Defined.

Definition cadence_as_str (c : BudgetCadence) : string :=
  match c with Monthly => "monthly" | Fixed => "fixed" end.

Definition cadence_parse (s : string) : option BudgetCadence :=
  if decide (s = "monthly"%string) then Some Monthly
  else if decide (s = "fixed"%string) then Some Fixed else None.

Record BudgetRecord := mkBudgetRecord {
  br_namespace : string;
  br_period : string;
  br_limit : Z;
  br_spent : Z;
  br_reserved : Z;
  br_remaining : Z;
  br_active : bool;
}.

Definition BudgetRecord_new (ns period : string) (limit spent : Z) (active : bool) : BudgetRecord :=
  {| br_namespace := ns; br_period := period; br_limit := limit; br_spent := spent;
     br_reserved := 0; br_remaining := saturating_sub limit spent; br_active := active |}.

Record BudgetPolicy := mkPolicy {
  bp_namespace : string;
  bp_cadence : BudgetCadence;
  bp_limit : Z;
  bp_timezone : string;
  bp_period : string;
  bp_spent : Z;
  bp_reserved : Z;
  bp_remaining : Z;
  bp_active : bool;
}.

Inductive BudgetAdmit := Allowed (period : string) (incarnation : Z) | Exceeded.

#[global] Instance BudgetAdmit_eq_dec : EqDecision BudgetAdmit.
Proof. solve_decision. Defined.

Definition admit_from_ledger (period : option string) (limit spent : option Z) (incarnation : Z)
    : BudgetAdmit :=
  match period, limit, spent with
  | Some period, Some limit, Some spent =>
      if spent <? limit then Allowed period incarnation else Exceeded
  | _, _, _ => Exceeded
  end.

Record UsageAppend := mkUsageAppend {
  request_id : string;
  u_namespace : string;
  u_period : option string;
  u_model : string;
  u_status : string;
  u_cost : option Z;
}.

Record UsageSummaryRow := mkSummaryRow {
  s_model : string;
  s_status : string;
  s_count : Z;
  s_cost : Z;
}.

(** ** Amounts *)

Definition sql_amount (value : Z) : result StoreError Z :=
  if value <=? I64_MAX then Ok value
  else Err (Invalid "microdollar amount exceeds the store integer range").

Definition sql_amount_saturating (value : Z) : Z := if value <=? I64_MAX then value else I64_MAX.

Definition from_sql_amount (value : Z) : Z := if 0 <=? value then value else 0.

(** ** Validation *)

Definition MAX_PERIOD_LEN : nat := 128.

Definition validate_period (period : string) : result StoreError unit :=
  let bs := b period in
  if bool_decide (bs = []) || (MAX_PERIOD_LEN <? length bs)%nat then
    Err (Invalid "period must be 1–128 characters of [A-Za-z0-9._-]")
  else if negb (forallb Namespace.id_byte bs) then
    Err (Invalid "period must be 1–128 characters of [A-Za-z0-9._-]")
  else Ok tt.

(** ** Tables *)

Record Db := mkDb {
  t_namespace : gmap string (string * option string);
  t_incarnation : gmap string Z;
  t_budget : gmap (string * string) (Z * Z);
  t_active : gmap string string;
  t_cadence : gmap string (string * Z * string);
  t_usage : gmap string UsageAppend;
  t_models : gmap string (option string * bool * string * option string);
}.

Definition empty_db : Db := mkDb ∅ ∅ ∅ ∅ ∅ ∅ ∅.

Definition set_namespace db t := mkDb t (t_incarnation db) (t_budget db) (t_active db) (t_cadence db) (t_usage db) (t_models db).
Definition set_incarnation db t := mkDb (t_namespace db) t (t_budget db) (t_active db) (t_cadence db) (t_usage db) (t_models db).
Definition set_budget db t := mkDb (t_namespace db) (t_incarnation db) t (t_active db) (t_cadence db) (t_usage db) (t_models db).
Definition set_active db t := mkDb (t_namespace db) (t_incarnation db) (t_budget db) t (t_cadence db) (t_usage db) (t_models db).
Definition set_cadence db t := mkDb (t_namespace db) (t_incarnation db) (t_budget db) (t_active db) t (t_usage db) (t_models db).
Definition set_usage db t := mkDb (t_namespace db) (t_incarnation db) (t_budget db) (t_active db) (t_cadence db) t (t_models db).
Definition set_models db t := mkDb (t_namespace db) (t_incarnation db) (t_budget db) (t_active db) (t_cadence db) (t_usage db) t.

(** ** Statements and transactions

    The engine says, for each statement it is given in turn, whether it fails and
    with which message.  The state is the database and the number of statements
    run. *)

Definition Engine := nat → option string.

Definition Sql (A : Type) : Type := Engine → Db * nat → result StoreError A * (Db * nat).

#[global] Instance sql_ret : MRet Sql := λ A a eng σ, (Ok a, σ).
#[global] Instance sql_bind : MBind Sql := λ A B k m eng σ,
  match m eng σ with
  | (Ok a, σ) => k a eng σ
  | (Err e, σ) => (Err e, σ)
  end.

Definition throw {A} (e : StoreError) : Sql A := λ eng σ, (Err e, σ).
Definition lift {A} (r : result StoreError A) : Sql A := λ eng σ, (r, σ).

Definition statement {A} (f : Db → A * Db) : Sql A := λ eng '(db, k),
  match eng k with
  | Some m => (Err (Unavailable m), (db, S k))
  | None => let '(a, db) := f db in (Ok a, (db, S k))
  end.

Definition query {A} (f : Db → A) : Sql A := statement (λ db, (f db, db)).
Definition execute (f : Db → Db) : Sql unit := statement (λ db, (tt, f db)).

(** How a transaction body ends: it commits and then answers, or it answers and
    drops the transaction. *)
Inductive TxEnd (A : Type) := Commit (answer : result StoreError A) | Rollback (a : A).
Arguments Commit {A} _.
Arguments Rollback {A} _.

Definition transaction {A} (body : Sql (TxEnd A)) : Sql A := λ eng σ,
  match execute id eng σ with
  | (Err e, σ) => (Err e, σ)
  | (Ok _, (db, k)) =>
      match body eng (db, k) with
      | (Err e, (_, k)) => (Err e, (db, k))
      | (Ok (Rollback a), (_, k)) => (Ok a, (db, k))
      | (Ok (Commit answer), (db', k)) =>
          match execute id eng (db', k) with
          | (Err e, (_, k)) => (Err e, (db, k))
          | (Ok _, σ) => (answer, σ)
          end
      end
  end.

(** The checkout of the connection, then the closure. *)
Definition with_conn {A} (m : Sql A) : Sql A := _ ← execute id; m.

Definition namespace_exists (id : string) : Sql bool :=
  query (λ db, bool_decide (is_Some (t_namespace db !! id))).

(** [COALESCE(i.n, 1)]. *)
Definition incarnation_of (db : Db) (id : string) : Z := default 1 (t_incarnation db !! id).

(** [INSERT ... ON CONFLICT DO UPDATE SET limit]: the spent amount survives. *)
Definition upsert_budget (ns period : string) (limit : Z) (db : Db) : Db :=
  set_budget db
    (<[(ns, period) := (limit, default 0 (snd <$> t_budget db !! (ns, period)))]> (t_budget db)).

Definition upsert_active (ns period : string) (db : Db) : Db :=
  set_active db (<[ns := period]> (t_active db)).

(** [{:04}] and [{:02}] of an integer. *)
Definition pad (width : nat) (n : Z) : string :=
  let digits := pretty (Z.abs_nat n) in
  let sign := if n <? 0 then "-"%string else ""%string in
  sign +:+ text (repeat "0"%char (width - String.length sign - String.length digits)) +:+ digits.

Section Ops.
Context {J : SerdeJson}.
Context {Timestamp TimeZone : Type}.
(** [jiff::tz::TimeZone::get] and the civil year and month of an instant. *)
Variable tz_get : string → option TimeZone.
Variable to_zoned : Timestamp → TimeZone → Z * Z.

Definition DEFAULT_TIMEZONE : string := "UTC".

Definition validate_timezone (name : string) : result StoreError TimeZone :=
  ok_or (tz_get name) (Invalid ("unknown timezone `" +:+ name +:+ "`")).

Definition monthly_period_key (now : Timestamp) (tz : TimeZone) : string :=
  let '(year, month) := to_zoned now tz in pad 4 year +:+ "-" +:+ pad 2 month.

(** *** Namespaces *)

Record NamespaceRecord := mkNsRecord { ns_id : string; attrs : Value; blocklist : option (list string) }.

Record NamespaceResolve := mkResolve { record : NamespaceRecord; budget_admit : BudgetAdmit }.

(** [serde_json]'s [Vec<String>]. *)
Definition list_to_string (l : list string) : string := to_string (Array (Str <$> l)).
Definition list_from_str (s : string) : result string (list string) :=
  v ← from_str s;
  match as_array v with
  | None => Err "expected a sequence"%string
  | Some vs => match mapM as_str vs with Some l => Ok l | None => Err "expected a string"%string end
  end.

Definition row_to_record (id attrs : string) (blocklist : option string)
    : result StoreError NamespaceRecord :=
  a ← map_err (λ e, Unavailable ("namespace `" +:+ id +:+ "` attrs: " +:+ e)) (from_str attrs);
  bl ← match blocklist with
       | None => Ok None
       | Some raw =>
           map_err (λ e, Unavailable ("namespace `" +:+ id +:+ "` blocklist: " +:+ e))
             (Some <$> list_from_str raw)
       end;
  mret {| ns_id := id; attrs := a; blocklist := bl |}.

Definition put_namespace (ns : NamespaceRecord) : Sql unit :=
  with_conn (transaction (
    inserted ← statement (λ db,
      match t_namespace db !! ns_id ns with
      | Some _ => (false, db)
      | None =>
          (true, set_namespace db
            (<[ns_id ns := (to_string (attrs ns), list_to_string <$> blocklist ns)]> (t_namespace db)))
      end);
    if inserted : bool then
      _ ← execute (λ db, set_incarnation db (<[ns_id ns := incarnation_of db (ns_id ns)]> (t_incarnation db)));
      mret (Commit (Ok tt))
    else throw (Duplicate (ns_id ns)))).

Definition get_namespace (id : string) : Sql (option NamespaceRecord) :=
  with_conn (
    row ← query (λ db, t_namespace db !! id);
    match row with
    | None => mret None
    | Some (a, bl) => lift (Some <$> row_to_record id a bl)
    end).

Definition update_namespace (id : string) (a : Value) (bl : option (list string))
    : Sql (option NamespaceRecord) :=
  with_conn (
    row ← statement (λ db,
      match t_namespace db !! id with
      | None => (None, db)
      | Some _ =>
          let row := (to_string a, list_to_string <$> bl) in
          (Some row, set_namespace db (<[id := row]> (t_namespace db)))
      end);
    match row with
    | None => mret None
    | Some (a, bl) => lift (Some <$> row_to_record id a bl)
    end).

Definition delete_namespace (id : string) : Sql bool :=
  with_conn (transaction (
    existed ← namespace_exists id;
    _ ← (if existed : bool then
           execute (λ db, set_incarnation db
             (<[id := match t_incarnation db !! id with Some n => n + 1 | None => 2 end]>
               (t_incarnation db)))
         else mret tt);
    _ ← execute (λ db, set_budget db (filter (λ kv, kv.1.1 ≠ id) (t_budget db)));
    _ ← execute (λ db, set_active db (delete id (t_active db)));
    _ ← execute (λ db, set_cadence db (delete id (t_cadence db)));
    n ← statement (λ db,
      (bool_decide (is_Some (t_namespace db !! id)), set_namespace db (delete id (t_namespace db))));
    mret (Commit (Ok n)))).

(** *** Budgets *)

Definition read_budget (ns period : string) (now : Timestamp) : Sql (option (option BudgetRecord)) :=
  row ← query (λ db,
    match t_namespace db !! ns with
    | None => None
    | Some _ => Some (t_budget db !! (ns, period), t_cadence db !! ns,
                      bool_decide (t_active db !! ns = Some period))
    end);
  match row with
  | None => mret None
  | Some (None, _, _) => mret (Some None)
  | Some (Some (limit, spent), cadence, fixed_active) =>
      active ←
        match cadence with
        | Some (c, _, timezone) =>
            if decide (c = "monthly"%string) then
              tz ← lift (validate_timezone timezone);
              mret (bool_decide (monthly_period_key now tz = period))
            else mret fixed_active
        | None => mret fixed_active
        end;
      mret (Some (Some (BudgetRecord_new ns period (from_sql_amount limit) (from_sql_amount spent)
                          active)))
  end.

Definition put_budget (ns period : string) (limit_microdollars : Z) (now : Timestamp)
    : Sql BudgetRecord :=
  limit ← lift (sql_amount limit_microdollars);
  with_conn (transaction (
    existed ← namespace_exists ns;
    if negb existed then throw (NotFound ns)
    else
      _ ← execute (upsert_active ns period);
      _ ← execute (upsert_budget ns period limit);
      rec ← read_budget ns period now;
      match rec with
      | None => throw (NotFound ns)
      | Some rec => mret (Commit (ok_or rec (Unavailable "budget row missing after put")))
      end)).

Definition get_budget (ns period : string) (now : Timestamp) : Sql (option BudgetRecord) :=
  rec ← with_conn (read_budget ns period now);
  lift (ok_or rec (NotFound ns)).

Definition policy_row (ns : string) (c : BudgetCadence) (timezone period : string) (limit spent : Z)
    : BudgetPolicy :=
  {| bp_namespace := ns; bp_cadence := c; bp_limit := limit; bp_timezone := timezone;
     bp_period := period; bp_spent := spent; bp_reserved := 0;
     bp_remaining := saturating_sub limit spent; bp_active := true |}.

Definition read_budget_policy (ns : string) (now : Timestamp) : Sql (option BudgetPolicy) :=
  cadence ← query (λ db, t_cadence db !! ns);
  match cadence with
  | None =>
      period ← query (λ db, t_active db !! ns);
      match period with
      | None => mret None
      | Some period =>
          row ← query (λ db, t_budget db !! (ns, period));
          match row with
          | None => mret None
          | Some (limit, spent) =>
              mret (Some (policy_row ns Fixed DEFAULT_TIMEZONE period
                            (from_sql_amount limit) (from_sql_amount spent)))
          end
      end
  | Some (c, policy_limit, timezone) =>
      c ← lift (ok_or (cadence_parse c) (Unavailable "invalid budget cadence"));
      tz ← lift (validate_timezone timezone);
      period ← (if decide (c = Monthly) then mret (monthly_period_key now tz)
                else p ← query (λ db, t_active db !! ns); mret (default ""%string p));
      row ← query (λ db, t_budget db !! (ns, period));
      let '(limit, spent) :=
        match row with
        | Some (limit, spent) => (from_sql_amount limit, from_sql_amount spent)
        | None => (from_sql_amount policy_limit, 0)
        end in
      mret (Some (policy_row ns c timezone period limit spent))
  end.

Definition put_budget_policy (ns : string) (c : BudgetCadence) (limit_microdollars : Z)
    (timezone : string) (fixed_period : option string) (now : Timestamp) : Sql BudgetPolicy :=
  limit ← lift (sql_amount limit_microdollars);
  tz ← lift (validate_timezone timezone);
  with_conn (transaction (
    existed ← namespace_exists ns;
    if negb existed then throw (NotFound ns)
    else
      period ←
        match c with
        | Monthly => mret (monthly_period_key now tz)
        | Fixed =>
            match fixed_period with
            | Some period => mret period
            | None =>
                p ← query (λ db, t_active db !! ns);
                lift (ok_or p (Invalid
                  "fixed cadence needs a period: the namespace has no active period"))
            end
        end;
      _ ← execute (λ db, set_cadence db
            (<[ns := (cadence_as_str c, limit, timezone)]> (t_cadence db)));
      _ ← (if decide (c = Fixed) then execute (upsert_active ns period) else mret tt);
      _ ← execute (upsert_budget ns period limit);
      policy ← read_budget_policy ns now;
      mret (Commit (ok_or policy (Unavailable "budget policy missing after put"))))).

Definition get_budget_policy (ns : string) (now : Timestamp) : Sql (option BudgetPolicy) :=
  with_conn (
    existed ← namespace_exists ns;
    if negb existed then throw (NotFound ns) else read_budget_policy ns now).

(** *** Admission and charging *)

Definition admit_monthly (ns : string) (cadence_limit : option Z) (timezone : option string)
    (incarnation : Z) (now : Timestamp) : Sql BudgetAdmit :=
  let timezone := default DEFAULT_TIMEZONE timezone in
  tz ← lift (validate_timezone timezone);
  let period := monthly_period_key now tz in
  row ← query (λ db, t_budget db !! (ns, period));
  match row with
  | Some (limit, spent) => mret (admit_from_ledger (Some period) (Some limit) (Some spent) incarnation)
  | None =>
      transaction (
        existed ← namespace_exists ns;
        if negb existed then mret (Rollback Exceeded)
        else
          limit ← lift (ok_or cadence_limit (Unavailable "monthly cadence limit missing"));
          _ ← execute (λ db,
            match t_budget db !! (ns, period) with
            | Some _ => db
            | None => set_budget db (<[(ns, period) := (limit, 0)]> (t_budget db))
            end);
          row ← query (λ db, t_budget db !! (ns, period));
          mret (Commit (Ok (admit_from_ledger (Some period) (fst <$> row) (snd <$> row) incarnation))))
  end.

(** The joined row the two readers below select. *)
Definition ledger_row (db : Db) (id : string)
    : option ((string * option string) * option (string * Z * string) *
              option string * option (Z * Z) * Z) :=
  match t_namespace db !! id with
  | None => None
  | Some rec =>
      Some (rec, t_cadence db !! id, t_active db !! id,
            t_active db !! id ≫= λ period, t_budget db !! (id, period), incarnation_of db id)
  end.

Definition admit_row (id : string) (cadence : option (string * Z * string)) (period : option string)
    (ledger : option (Z * Z)) (incarnation : Z) (now : Timestamp) : Sql BudgetAdmit :=
  if decide (fst ∘ fst <$> cadence = Some "monthly"%string) then
    admit_monthly id (snd ∘ fst <$> cadence) (snd <$> cadence) incarnation now
  else mret (admit_from_ledger period (fst <$> ledger) (snd <$> ledger) incarnation).

Definition admit_budget_on (ns : string) (now : Timestamp) : Sql BudgetAdmit :=
  row ← query (λ db, ledger_row db ns);
  match row with
  | None => mret Exceeded
  | Some (_, cadence, period, ledger, incarnation) =>
      admit_row ns cadence period ledger incarnation now
  end.

Definition admit_budget (ns : string) (now : Timestamp) : Sql BudgetAdmit :=
  with_conn (admit_budget_on ns now).

Definition resolve_namespace_on (id : string) (now : Timestamp) : Sql (option NamespaceResolve) :=
  row ← query (λ db, ledger_row db id);
  match row with
  | None => mret None
  | Some ((a, bl), cadence, period, ledger, incarnation) =>
      budget ← admit_row id cadence period ledger incarnation now;
      rec ← lift (row_to_record id a bl);
      mret (Some {| record := rec; budget_admit := budget |})
  end.

Definition resolve_namespace (id : string) (now : Timestamp) : Sql (option NamespaceResolve) :=
  with_conn (resolve_namespace_on id now).

Definition charged (spent actual : Z) : Z :=
  if I64_MAX - actual <=? spent then I64_MAX else spent + actual.

Definition charge_budget_on (ns period : string) (incarnation actual : Z) : Sql unit :=
  execute (λ db,
    match t_budget db !! (ns, period) with
    | Some (limit, spent) =>
        if bool_decide (is_Some (t_namespace db !! ns)) && (incarnation_of db ns =? incarnation)
        then set_budget db (<[(ns, period) := (limit, charged spent actual)]> (t_budget db))
        else db
    | None => db
    end).

Definition charge_budget (ns period : string) (incarnation actual_microdollars : Z) : Sql unit :=
  with_conn (charge_budget_on ns period incarnation (sql_amount_saturating actual_microdollars)).

(** *** Usage *)

Definition MAX_USAGE_INDEX_BATCH : nat := Z.to_nat 4096.

Definition insert_usage (e : UsageAppend) (db : Db) : Db :=
  match t_usage db !! request_id e with
  | Some _ => db
  | None =>
      set_usage db (<[request_id e :=
        {| request_id := request_id e; u_namespace := u_namespace e; u_period := u_period e;
           u_model := u_model e; u_status := u_status e;
           u_cost := sql_amount_saturating <$> u_cost e |}]> (t_usage db))
  end.

Fixpoint insert_all (events : list UsageAppend) : Sql unit :=
  match events with
  | [] => mret tt
  | e :: events => _ ← execute (insert_usage e); insert_all events
  end.

Definition insert_usage_batch (events : list UsageAppend) : Sql unit :=
  match events with
  | [] => mret tt
  | _ =>
      if (MAX_USAGE_INDEX_BATCH <? length events)%nat then
        throw (Invalid ("usage-index batch of " +:+ pretty (length events) +:+
          " rows exceeds the bound of " +:+ pretty MAX_USAGE_INDEX_BATCH))
      else transaction (_ ← execute id; _ ← insert_all events; mret (Commit (Ok tt)))
  end.

Definition append_usage_batch (events : list UsageAppend) : Sql unit :=
  with_conn (insert_usage_batch events).

(** The rows of one namespace and period, folded by (model, status). *)
Definition add_row (grouped : gmap (string * string) (Z * Z)) (u : UsageAppend)
    : gmap (string * string) (Z * Z) :=
  let '(count, cost) := default (0, 0) (grouped !! (u_model u, u_status u)) in
  <[(u_model u, u_status u) :=
      (saturating_add U64_MAX count 1, saturating_add I64_MAX cost (default 0 (u_cost u)))]> grouped.

Definition in_scope (ns period : string) (u : UsageAppend) : Prop :=
  u_namespace u = ns ∧ u_period u = Some period.

#[global] Instance in_scope_dec ns period u : Decision (in_scope ns period u).
Proof. unfold in_scope. apply _. Defined.

Definition summarize_rows (db : Db) (ns period : string) : gmap (string * string) (Z * Z) :=
  foldl add_row ∅ (filter (in_scope ns period) (snd <$> map_to_list (t_usage db))).

Definition summarize_usage (ns period : string) : Sql (gmap (string * string) (Z * Z)) :=
  with_conn (
    grouped ← query (λ db, summarize_rows db ns period);
    mret ((λ '(count, cost), (count, from_sql_amount cost)) <$> grouped)).

(** *** Provider models *)

Record ProviderModels := mkModels {
  pm_provider : string;
  pm_fetched_at : option string;
  pm_stale : bool;
  pm_data : list Value;
  pm_source : option string;
}.

Definition empty_stale (provider : string) : ProviderModels :=
  {| pm_provider := provider; pm_fetched_at := None; pm_stale := true; pm_data := [];
     pm_source := None |}.

Definition against_source (m : ProviderModels) (source : string) : ProviderModels :=
  if decide (pm_source m = Some source) then m
  else {| pm_provider := pm_provider m; pm_fetched_at := pm_fetched_at m; pm_stale := true;
          pm_data := pm_data m; pm_source := pm_source m |}.

Definition data_if_source (m : ProviderModels) (source : string) : list Value :=
  if decide (pm_source m = Some source) then pm_data m else [].

Definition put_provider_models (m : ProviderModels) : Sql unit :=
  with_conn (execute (λ db,
    let row := (pm_fetched_at m, pm_stale m, to_string (Array (pm_data m)), pm_source m) in
    match t_models db !! pm_provider m with
    | None => set_models db (<[pm_provider m := row]> (t_models db))
    | Some (_, stale, _, source) =>
        if bool_decide (source = pm_source m) || stale
        then set_models db (<[pm_provider m := row]> (t_models db)) else db
    end)).

Definition mark_stale (provider : string) (which : option string → bool) (db : Db) : Db :=
  match t_models db !! provider with
  | Some (fetched, _, models, source) =>
      if which source then set_models db (<[provider := (fetched, true, models, source)]> (t_models db))
      else db
  | None => db
  end.

Definition mark_provider_models_stale_unless_source (provider source : string) : Sql unit :=
  with_conn (execute (mark_stale provider (λ s, bool_decide (s ≠ Some source)))).

Definition mark_provider_models_stale_if_source (provider source : string) : Sql unit :=
  with_conn (execute (mark_stale provider (λ s, bool_decide (s = Some source)))).

(** ** Operation sequences *)

Inductive Op :=
| OPutNamespace (r : NamespaceRecord)
| OUpdateNamespace (id : string) (a : Value) (bl : option (list string))
| ODeleteNamespace (id : string)
| OPutBudget (ns period : string) (limit : Z) (now : Timestamp)
| OPutPolicy (ns : string) (c : BudgetCadence) (limit : Z) (timezone : string)
    (fixed : option string) (now : Timestamp)
| OAdmit (ns : string) (now : Timestamp)
| OResolve (ns : string) (now : Timestamp)
| OCharge (ns period : string) (incarnation amount : Z)
| OAppend (events : list UsageAppend)
| OPutModels (m : ProviderModels)
| OMarkUnless (provider source : string)
| OMarkIf (provider source : string).

Definition ignore {A} (m : Sql A) : Sql unit := _ ← m; mret tt.

Definition run_op (o : Op) : Sql unit :=
  match o with
  | OPutNamespace r => put_namespace r
  | OUpdateNamespace id a bl => ignore (update_namespace id a bl)
  | ODeleteNamespace id => ignore (delete_namespace id)
  | OPutBudget ns p l now => ignore (put_budget ns p l now)
  | OPutPolicy ns c l tz f now => ignore (put_budget_policy ns c l tz f now)
  | OAdmit ns now => ignore (admit_budget ns now)
  | OResolve ns now => ignore (resolve_namespace ns now)
  | OCharge ns p inc amt => charge_budget ns p inc amt
  | OAppend events => append_usage_batch events
  | OPutModels m => put_provider_models m
  | OMarkUnless p s => mark_provider_models_stale_unless_source p s
  | OMarkIf p s => mark_provider_models_stale_if_source p s
  end.

Definition run_ops (ops : list Op) (eng : Engine) (σ : Db * nat) : Db * nat :=
  foldl (λ σ o, (run_op o eng σ).2) σ ops.

(** ** The abstract store

    What each operation does to the tables when nothing fails, in one step. *)

Definition live (db : Db) (ns : string) : bool := bool_decide (is_Some (t_namespace db !! ns)).

Definition spec_put_namespace (r : NamespaceRecord) (db : Db) : Db :=
  if live db (ns_id r) then db
  else set_incarnation
    (set_namespace db
      (<[ns_id r := (to_string (attrs r), list_to_string <$> blocklist r)]> (t_namespace db)))
    (<[ns_id r := incarnation_of db (ns_id r)]> (t_incarnation db)).

Definition spec_delete (id : string) (db : Db) : Db :=
  mkDb (delete id (t_namespace db))
    (if live db id then <[id := incarnation_of db id + 1]> (t_incarnation db) else t_incarnation db)
    (filter (λ kv, kv.1.1 ≠ id) (t_budget db)) (delete id (t_active db)) (delete id (t_cadence db))
    (t_usage db) (t_models db).

Definition spec_put_budget (ns period : string) (limit : Z) (db : Db) : Db :=
  if live db ns && (limit <=? I64_MAX)
  then upsert_budget ns period limit (upsert_active ns period db) else db.

(** The period a policy change selects. *)
Definition policy_period (db : Db) (ns : string) (c : BudgetCadence) (tz : TimeZone)
    (fixed : option string) (now : Timestamp) : option string :=
  match c with
  | Monthly => Some (monthly_period_key now tz)
  | Fixed => match fixed with Some p => Some p | None => t_active db !! ns end
  end.

Definition spec_put_policy (ns : string) (c : BudgetCadence) (limit : Z) (timezone : string)
    (fixed : option string) (now : Timestamp) (db : Db) : Db :=
  match tz_get timezone with
  | None => db
  | Some tz =>
      match policy_period db ns c tz fixed now with
      | None => db
      | Some period =>
          if live db ns && (limit <=? I64_MAX) then
            let db := set_cadence db (<[ns := (cadence_as_str c, limit, timezone)]> (t_cadence db)) in
            let db := if decide (c = Fixed) then upsert_active ns period db else db in
            upsert_budget ns period limit db
          else db
      end
  end.

(** Admission under a monthly cadence opens the month's ledger. *)
Definition spec_admit (ns : string) (now : Timestamp) (db : Db) : Db :=
  if live db ns then
    match t_cadence db !! ns with
    | Some (c, limit, timezone) =>
        if decide (c = "monthly"%string) then
          match tz_get timezone with
          | Some tz =>
              let period := monthly_period_key now tz in
              match t_budget db !! (ns, period) with
              | Some _ => db
              | None => set_budget db (<[(ns, period) := (limit, 0)]> (t_budget db))
              end
          | None => db
          end
        else db
    | None => db
    end
  else db.

Definition spec_charge (ns period : string) (incarnation actual : Z) (db : Db) : Db :=
  match t_budget db !! (ns, period) with
  | Some (limit, spent) =>
      if live db ns && (incarnation_of db ns =? incarnation)
      then set_budget db (<[(ns, period) := (limit, charged spent actual)]> (t_budget db))
      else db
  | None => db
  end.

Definition apply_op (o : Op) (db : Db) : Db :=
  match o with
  | OPutNamespace r => spec_put_namespace r db
  | OUpdateNamespace id a bl =>
      if live db id
      then set_namespace db (<[id := (to_string a, list_to_string <$> bl)]> (t_namespace db)) else db
  | ODeleteNamespace id => spec_delete id db
  | OPutBudget ns p l now => spec_put_budget ns p l db
  | OPutPolicy ns c l tz f now => spec_put_policy ns c l tz f now db
  | OAdmit ns now | OResolve ns now => spec_admit ns now db
  | OCharge ns p inc amt => spec_charge ns p inc (sql_amount_saturating amt) db
  | OAppend events => foldl (λ db e, insert_usage e db) db events
  | OPutModels m =>
      let row := (pm_fetched_at m, pm_stale m, to_string (Array (pm_data m)), pm_source m) in
      match t_models db !! pm_provider m with
      | None => set_models db (<[pm_provider m := row]> (t_models db))
      | Some (_, stale, _, source) =>
          if bool_decide (source = pm_source m) || stale
          then set_models db (<[pm_provider m := row]> (t_models db)) else db
      end
  | OMarkUnless p s => mark_stale p (λ x, bool_decide (x ≠ Some s)) db
  | OMarkIf p s => mark_stale p (λ x, bool_decide (x = Some s)) db
  end.

(** ** Executing programs *)

Lemma bind_Ok {A B} (m : Sql A) (k : A → Sql B) eng σ x σ' :
  (m ≫= k) eng σ = (Ok x, σ') → ∃ a σ1, m eng σ = (Ok a, σ1) ∧ k a eng σ1 = (Ok x, σ').
Proof. unfold mbind, sql_bind. destruct (m eng σ) as [[a|e] σ1]; naive_solver. Qed.

Lemma statement_Ok {A} (f : Db → A * Db) eng db k a σ' :
  statement f eng (db, k) = (Ok a, σ') → a = (f db).1 ∧ σ' = ((f db).2, S k).
Proof. unfold statement. destruct (eng k); [done|]. destruct (f db). naive_solver. Qed.

Lemma query_Ok {A} (f : Db → A) eng db k a σ' :
  query f eng (db, k) = (Ok a, σ') → a = f db ∧ σ' = (db, S k).
Proof. intros H. by apply statement_Ok in H. Qed.

Lemma execute_Ok f eng db k a σ' :
  execute f eng (db, k) = (Ok a, σ') → σ' = (f db, S k).
Proof. intros H. by apply statement_Ok in H as [_ ->]. Qed.

Lemma lift_Ok {A} (r : result StoreError A) eng σ a σ' :
  lift r eng σ = (Ok a, σ') → r = Ok a ∧ σ' = σ.
Proof. unfold lift. naive_solver. Qed.

Lemma ret_Ok {A} (x : A) eng σ a σ' :
  mret (M := Sql) x eng σ = (Ok a, σ') → x = a ∧ σ' = σ.
Proof. unfold mret, sql_ret. naive_solver. Qed.

Lemma transaction_inv {A} (body : Sql (TxEnd A)) eng db k r σ' :
  transaction body eng (db, k) = (r, σ') →
  (∃ σ, body eng (db, S k) = (Ok (Commit r), σ) ∧ σ'.1 = σ.1) ∨
  σ'.1 = db ∧ (is_ok r = false ∨ ∃ a σ, body eng (db, S k) = (Ok (Rollback a), σ) ∧ r = Ok a).
Proof.
  unfold transaction. unfold execute at 1, statement at 1. destruct (eng k); [naive_solver|]. simpl.
  destruct (body eng (db, S k)) as [[[answer|a]|e] [db1 k1]] eqn:Hb; simpl.
  - unfold execute, statement. destruct (eng k1); simpl; intros; simplify_eq; simpl; eauto.
  - intros; simplify_eq. eauto 10.
  - intros; simplify_eq. simpl. eauto.
Qed.

Lemma with_conn_inv {A} (m : Sql A) eng db k r σ' :
  with_conn m eng (db, k) = (r, σ') →
  m eng (db, S k) = (r, σ') ∨ σ'.1 = db ∧ is_ok r = false.
Proof.
  unfold with_conn, mbind, sql_bind, execute, statement.
  destruct (eng k); [intros; simplify_eq; by right|]. simpl. auto.
Qed.

Lemma lift_bind {A B} (r : result StoreError A) (m : A → Sql B) eng σ x σ' :
  (lift r ≫= m) eng σ = (x, σ') →
  (∃ a, r = Ok a ∧ m a eng σ = (x, σ')) ∨ σ' = σ ∧ is_ok x = false.
Proof. unfold mbind, sql_bind, lift. destruct r; [eauto|]. intros; simplify_eq. by right. Qed.

Lemma query_bind {A B} (f : Db → A) (m : A → Sql B) eng db k x σ' :
  (query f ≫= m) eng (db, k) = (x, σ') →
  m (f db) eng (db, S k) = (x, σ') ∨ σ'.1 = db ∧ is_ok x = false.
Proof.
  unfold mbind, sql_bind, query, statement. destruct (eng k); [|eauto].
  intros; simplify_eq. by right.
Qed.

Lemma ignore_inv {A} (m : Sql A) eng σ r σ' :
  ignore m eng σ = (r, σ') → ∃ r0, m eng σ = (r0, σ') ∧ is_ok r = is_ok r0.
Proof.
  unfold ignore, mbind, sql_bind, mret, sql_ret.
  destruct (m eng σ) as [[a|e] σ1]; intros; simplify_eq; by eexists.
Qed.

(** Runs a committed program step by step. *)
Ltac sql_run :=
  repeat match goal with
  | H : (_ ≫= _) _ _ = (Ok _, _) |- _ => apply bind_Ok in H as (? & [??] & ? & ?)
  | H : query _ _ _ = (Ok _, _) |- _ => apply query_Ok in H as [-> ?]
  | H : execute _ _ _ = (Ok _, _) |- _ => apply execute_Ok in H
  | H : statement _ _ _ = (Ok _, _) |- _ => apply statement_Ok in H as [-> ?]
  | H : lift _ _ _ = (Ok _, _) |- _ => apply lift_Ok in H as [??]
  | H : mret _ _ _ = (Ok _, _) |- _ => apply ret_Ok in H as [??]
  | H : throw _ _ _ = (Ok _, _) |- _ => discriminate H
  | H : namespace_exists _ _ _ = (Ok _, _) |- _ => apply query_Ok in H as [-> ?]
  | H : (_, _) = (_, _) |- _ => injection H as ??
  | H : Some _ = Some _ |- _ => injection H as ?
  | H : Ok _ = Ok _ |- _ => injection H as ?
  | H : Commit _ = Commit _ |- _ => injection H as ?
  | H : Rollback _ = Commit _ |- _ => discriminate H
  | H : Commit _ = Rollback _ |- _ => discriminate H
  end; subst.

(** What an operation may do: the abstract step when it succeeds, nothing when it
    fails. *)
Definition all_or_nothing {A} (db db' spec : Db) (r : result StoreError A) : Prop :=
  if is_ok r then db' = spec else db' = db.

Lemma nothing {A} (db spec : Db) (r : result StoreError A) :
  is_ok r = false → all_or_nothing db db spec r.
Proof. unfold all_or_nothing. by intros ->. Qed.

(** A transaction whose committed answer is always a success. *)
Lemma transaction_atomic {A} (body : Sql (TxEnd A)) eng db k r σ' spec :
  transaction body eng (db, k) = (r, σ') →
  (∀ answer k1 db1 k2, body eng (db, k1) = (Ok (Commit answer), (db1, k2)) →
    is_ok answer = true ∧ db1 = spec) →
  (∀ a k1 σ, body eng (db, k1) = (Ok (Rollback a), σ) → spec = db) →
  all_or_nothing db σ'.1 spec r.
Proof.
  intros H Hc Hr. apply transaction_inv in H as [([db1 k2] & Hb & E)|[E [Hf|(a & σ & Hb & ->)]]].
  - apply Hc in Hb as [Hok ->]. unfold all_or_nothing. by rewrite Hok.
  - rewrite E. by apply nothing.
  - apply Hr in Hb. unfold all_or_nothing. simpl. congruence.
Qed.

Lemma execute_atomic f eng db k r σ' :
  execute f eng (db, k) = (r, σ') → all_or_nothing db σ'.1 (f db) r.
Proof. unfold execute, statement. destruct (eng k); intros; simplify_eq; done. Qed.

Lemma put_namespace_atomic r eng db k x σ' :
  put_namespace r eng (db, k) = (x, σ') → all_or_nothing db σ'.1 (spec_put_namespace r db) x.
Proof.
  intros H. apply with_conn_inv in H as [H|[-> ?]]; [|by apply nothing].
  eapply transaction_atomic; [exact H|..]; clear H.
  - intros answer k1 db1 k2 H. unfold spec_put_namespace, live. sql_run.
    destruct (t_namespace db !! ns_id r) as [?|] eqn:E; simpl in *; [done|]. sql_run.
    done.
  - intros a k1 σ H. sql_run. destruct (t_namespace db !! ns_id r); simpl in *; [done|].
    by sql_run.
Qed.

Lemma delete_namespace_atomic id eng db k x σ' :
  delete_namespace id eng (db, k) = (x, σ') → all_or_nothing db σ'.1 (spec_delete id db) x.
Proof.
  intros H. apply with_conn_inv in H as [H|[-> ?]]; [|by apply nothing].
  eapply transaction_atomic; [exact H|..]; clear H.
  - intros answer k1 db1 k2 H. sql_run. unfold spec_delete, live, incarnation_of.
    destruct (bool_decide (is_Some (t_namespace db !! id))); sql_run; simpl; split; try done.
    by destruct (t_incarnation db !! id).
  - intros a k1 σ H. by sql_run.
Qed.

Lemma sql_amount_Ok v l : sql_amount v = Ok l → l = v ∧ (v <=? I64_MAX) = true.
Proof. unfold sql_amount. case_match; intros; by simplify_eq. Qed.

Lemma read_budget_some ns period now eng db k rec σ' :
  read_budget ns period now eng (db, k) = (Ok rec, σ') →
  is_Some (t_namespace db !! ns) → is_Some (t_budget db !! (ns, period)) →
  (∃ row, rec = Some (Some row)) ∧ σ'.1 = db.
Proof.
  intros H [? Hn] [[limit spent] Hb]. unfold read_budget in H. sql_run.
  rewrite Hn, Hb in *. sql_run.
  destruct (t_cadence db !! ns) as [[[c l] tz]|]; [case_decide|]; sql_run; eauto.
Qed.

Lemma put_budget_atomic ns period limit now eng db k x σ' :
  put_budget ns period limit now eng (db, k) = (x, σ') →
  all_or_nothing db σ'.1 (spec_put_budget ns period limit db) x.
Proof.
  intros H. apply lift_bind in H as [(l & Hl & H)|[-> ?]]; [|by apply nothing].
  apply sql_amount_Ok in Hl as [-> Hmax].
  apply with_conn_inv in H as [H|[-> ?]]; [|by apply nothing].
  eapply transaction_atomic; [exact H|..]; clear H.
  - intros answer k1 db1 k2 H. sql_run. unfold spec_put_budget, live. rewrite Hmax, andb_true_r.
    destruct (bool_decide (is_Some (t_namespace db !! ns))) eqn:E; simpl in *; sql_run.
    match goal with H : read_budget _ _ _ _ _ = _ |- _ => rename H into Hread end.
    pose proof Hread as Hread'. apply read_budget_some in Hread' as [[row ->] Hdb];
      [|by apply bool_decide_eq_true in E|simpl; rewrite lookup_insert_eq; eauto].
    simpl in Hdb. subst. sql_run. done.
  - intros a k1 σ H. sql_run.
    destruct (bool_decide (is_Some (t_namespace db !! ns))); simpl in *; sql_run.
    repeat case_match; by sql_run.
Qed.

Lemma read_policy_some ns now eng db k rec σ' row :
  read_budget_policy ns now eng (db, k) = (Ok rec, σ') → t_cadence db !! ns = Some row →
  is_Some rec ∧ σ'.1 = db.
Proof.
  intros H Hc. unfold read_budget_policy in H. sql_run. rewrite Hc in *.
  destruct row as [[c l] tz]. sql_run.
  match goal with H : context [decide (?c = Monthly)] |- _ => destruct (decide (c = Monthly)) end;
    sql_run; repeat case_match; sql_run; eauto.
Qed.

Lemma read_policy_commit ns now eng d n row d' n' x :
  read_budget_policy ns now eng (d, n) = (Ok row, (d', n')) → t_cadence d !! ns = Some x →
  is_ok (ok_or row (Unavailable "budget policy missing after put")) = true ∧ d' = d.
Proof. intros Hr Hd. apply (read_policy_some _ _ _ _ _ _ _ _ Hr) in Hd as [[? ->] ?]. done. Qed.

Lemma put_policy_atomic ns c limit timezone fixed now eng db k x σ' :
  put_budget_policy ns c limit timezone fixed now eng (db, k) = (x, σ') →
  all_or_nothing db σ'.1 (spec_put_policy ns c limit timezone fixed now db) x.
Proof.
  intros H. apply lift_bind in H as [(l & Hl & H)|[-> ?]]; [|by apply nothing].
  apply sql_amount_Ok in Hl as [-> Hmax].
  apply lift_bind in H as [(tz & Htz & H)|[-> ?]]; [|by apply nothing].
  unfold validate_timezone, ok_or in Htz. destruct (tz_get timezone) as [tz'|] eqn:Etz; [|done].
  injection Htz as ->. apply with_conn_inv in H as [H|[-> ?]]; [|by apply nothing].
  eapply transaction_atomic; [exact H|..]; clear H.
  - intros answer k1 db1 k2 H. sql_run. unfold spec_put_policy, live. rewrite Etz, Hmax, andb_true_r.
    destruct (bool_decide (is_Some (t_namespace db !! ns))) eqn:E; simpl in *; sql_run.
    unfold policy_period.
    destruct (decide (c = Fixed)) as [->|Hc]; [destruct fixed as [p|]|destruct c; [|done]];
      sql_run.
    + eapply read_policy_commit; [done|]. simpl. by rewrite lookup_insert_eq.
    + match goal with H : ok_or ?o _ = _ |- _ => destruct o eqn:Ea; simpl in H; [|done] end.
      sql_run. eapply read_policy_commit; [done|]. simpl. by rewrite lookup_insert_eq.
    + eapply read_policy_commit; [done|]. simpl. by rewrite lookup_insert_eq.
  - intros a k1 σ H. sql_run.
    destruct (bool_decide (is_Some (t_namespace db !! ns))); simpl in *; by sql_run.
Qed.

(** Admission never charges: at most it opens the month's ledger. *)
Lemma admit_row_atomic ns now eng db k x σ' rec cadence period ledger inc :
  ledger_row db ns = Some (rec, cadence, period, ledger, inc) →
  admit_row ns cadence period ledger inc now eng (db, k) = (x, σ') →
  all_or_nothing db σ'.1 (spec_admit ns now db) x.
Proof.
  unfold ledger_row. destruct (t_namespace db !! ns) as [r|] eqn:En; [|done]. intros [= <- <- <- <- <-].
  unfold admit_row, spec_admit, live. rewrite bool_decide_true by eauto.
  destruct (t_cadence db !! ns) as [[[c limit] timezone]|] eqn:Ec; simpl.
  2:{ intros H. by injection H as <- <-. }
  destruct (decide (c = "monthly"%string)) as [->|Hc].
  2:{ rewrite decide_False by (simpl; congruence). intros H. by injection H as <- <-. }
  rewrite decide_True by done. unfold admit_monthly. simpl. intros H.
  apply lift_bind in H as [(tz & Htz & H)|[-> ?]]; [|by apply nothing].
  unfold validate_timezone, ok_or in Htz. destruct (tz_get timezone) as [tz'|]; [|done].
  injection Htz as ->. apply query_bind in H as [H|[-> ?]]; [|by apply nothing].
  destruct (t_budget db !! (ns, monthly_period_key now tz)) as [[l s]|] eqn:Eb.
  { injection H as <- <-. done. }
  eapply transaction_atomic; [exact H|..]; clear H.
  - intros answer k1 db1 k2 H. sql_run. rewrite En in *. simpl in *. sql_run. rewrite Eb. done.
  - intros a k1 σ H. sql_run. rewrite En in *. simpl in *. by sql_run.
Qed.

Lemma admit_atomic ns now eng db k x σ' :
  admit_budget ns now eng (db, k) = (x, σ') → all_or_nothing db σ'.1 (spec_admit ns now db) x.
Proof.
  intros H. apply with_conn_inv in H as [H|[-> ?]]; [|by apply nothing].
  apply query_bind in H as [H|[-> ?]]; [|by apply nothing].
  destruct (ledger_row db ns) as [[[[[rec cadence] period] ledger] inc]|] eqn:E.
  - by eapply admit_row_atomic.
  - injection H as <- <-. unfold all_or_nothing, spec_admit, live. simpl.
    unfold ledger_row in E. destruct (t_namespace db !! ns); [done|].
    by rewrite bool_decide_false by (by intros [??]).
Qed.

(** Resolution admits first and reads the stored record last, so a record that
    does not parse may be reported after the month's ledger was opened. *)
Lemma resolve_effect ns now eng db k x σ' :
  resolve_namespace ns now eng (db, k) = (x, σ') →
  if is_ok x then σ'.1 = spec_admit ns now db else σ'.1 = db ∨ σ'.1 = spec_admit ns now db.
Proof.
  intros H. apply with_conn_inv in H as [H|[-> ->]]; [|by left].
  apply query_bind in H as [H|[-> ->]]; [|by left].
  destruct (ledger_row db ns) as [[[[[[a bl] cadence] period] ledger] inc]|] eqn:E.
  - unfold mbind at 1, sql_bind at 1 in H.
    destruct (admit_row ns cadence period ledger inc now eng (db, S (S k))) as [r1 σ1] eqn:Ha.
    pose proof (admit_row_atomic _ _ _ _ _ _ _ _ _ _ _ _ E Ha) as Hat. unfold all_or_nothing in Hat.
    destruct r1 as [ad|e]; simpl in Hat; [|injection H as <- <-; by left].
    apply lift_bind in H as [(rec & _ & H)|[-> ->]]; [|by right]. by injection H as <- <-.
  - injection H as <- <-. simpl. unfold spec_admit, live.
    unfold ledger_row in E. destruct (t_namespace db !! ns); [done|].
    by rewrite bool_decide_false by (by intros [??]).
Qed.

Lemma update_effect id a bl eng db k x σ' :
  update_namespace id a bl eng (db, k) = (x, σ') →
  let spec := apply_op (OUpdateNamespace id a bl) db in
  if is_ok x then σ'.1 = spec else σ'.1 = db ∨ σ'.1 = spec.
Proof.
  intros H. apply with_conn_inv in H as [H|[-> ->]]; [|by left]. simpl.
  unfold mbind, sql_bind, statement in H. destruct (eng (S k)); [injection H as <- <-; by left|].
  unfold live. destruct (t_namespace db !! id) as [row|] eqn:En.
  - rewrite bool_decide_true by eauto. injection H as <- <-. simpl. case_match; auto.
  - rewrite bool_decide_false by (by intros [??]). by injection H as <- <-.
Qed.

Lemma insert_all_Ok events eng db k a σ' :
  insert_all events eng (db, k) = (Ok a, σ') →
  σ'.1 = foldl (λ db e, insert_usage e db) db events.
Proof.
  revert db k. induction events as [|e events IH]; intros db k H; simpl in H.
  - by injection H as _ <-.
  - sql_run. by apply IH in H0.
Qed.

Lemma append_atomic events eng db k x σ' :
  append_usage_batch events eng (db, k) = (x, σ') →
  all_or_nothing db σ'.1 (foldl (λ db e, insert_usage e db) db events) x.
Proof.
  intros H. apply with_conn_inv in H as [H|[-> ?]]; [|by apply nothing].
  unfold insert_usage_batch in H. destruct events as [|e events]; [by injection H as <- <-|].
  destruct (_ <? _)%nat; [injection H as <- <-; by apply nothing|].
  eapply transaction_atomic; [exact H|..]; clear H.
  - intros answer k1 db1 k2 H. sql_run.
    match goal with H : insert_all _ _ _ = _ |- _ => apply insert_all_Ok in H; simpl in H; subst end.
    done.
  - intros ? k1 σ H. by sql_run.
Qed.

(** Operations that report a failure only when they changed nothing. *)
Definition reports_faithfully (o : Op) : bool :=
  match o with OUpdateNamespace _ _ _ | OResolve _ _ => false | _ => true end.

Lemma run_op_refines o eng db k r σ' :
  run_op o eng (db, k) = (r, σ') →
  if is_ok r then σ'.1 = apply_op o db
  else σ'.1 = db ∨ reports_faithfully o = false ∧ σ'.1 = apply_op o db.
Proof.
  assert (∀ A (x : result StoreError A), is_ok x = is_ok r →
    all_or_nothing db σ'.1 (apply_op o db) x → if is_ok r then σ'.1 = apply_op o db
    else σ'.1 = db ∨ reports_faithfully o = false ∧ σ'.1 = apply_op o db) as Hat.
  { intros A x Hx. unfold all_or_nothing. rewrite Hx. case_match; auto. }
  destruct o; simpl; intros H;
    try (apply ignore_inv in H as (x & H & Hx); symmetry in Hx).
  - by eapply Hat, put_namespace_atomic.
  - pose proof (update_effect _ _ _ _ _ _ _ _ H) as He. simpl in He. rewrite <-Hx. destruct (is_ok x); [done|].
    destruct He; auto.
  - by eapply (Hat _ x Hx), delete_namespace_atomic.
  - by eapply (Hat _ x Hx), put_budget_atomic.
  - by eapply (Hat _ x Hx), put_policy_atomic.
  - by eapply (Hat _ x Hx), admit_atomic.
  - pose proof (resolve_effect _ _ _ _ _ _ _ H) as He. rewrite <-Hx. destruct (is_ok x); [done|].
    destruct He; auto.
  - apply with_conn_inv in H as [H|[E Hf]]; [|rewrite Hf; by left].
    by eapply Hat, execute_atomic.
  - by eapply Hat, append_atomic.
  - apply with_conn_inv in H as [H|[E Hf]]; [|rewrite Hf; by left].
    by eapply Hat, execute_atomic.
  - apply with_conn_inv in H as [H|[E Hf]]; [|rewrite Hf; by left].
    by eapply Hat, execute_atomic.
  - apply with_conn_inv in H as [H|[E Hf]]; [|rewrite Hf; by left].
    by eapply Hat, execute_atomic.
Qed.

(** ** Well-formed databases *)

Definition amount_ok (z : Z) : Prop := 0 ≤ z ≤ I64_MAX.

Record wf (db : Db) : Prop := {
  wf_budget ns p l s : t_budget db !! (ns, p) = Some (l, s) →
    is_Some (t_namespace db !! ns) ∧ amount_ok l ∧ amount_ok s;
  wf_active ns p : t_active db !! ns = Some p → is_Some (t_budget db !! (ns, p));
  wf_cadence ns c l tz : t_cadence db !! ns = Some (c, l, tz) →
    is_Some (t_namespace db !! ns) ∧ is_Some (cadence_parse c) ∧ is_Some (tz_get tz) ∧ amount_ok l;
  wf_incarnation ns n : t_incarnation db !! ns = Some n → 1 ≤ n;
}.

(** Amounts are unsigned. *)
Definition op_ok (o : Op) : Prop :=
  match o with
  | OPutBudget _ _ l _ | OPutPolicy _ _ l _ _ _ => 0 ≤ l
  | OCharge _ _ _ a => 0 ≤ a
  | _ => True
  end.

Lemma live_true db ns : live db ns = true ↔ is_Some (t_namespace db !! ns).
Proof. unfold live. apply bool_decide_eq_true. Qed.

Lemma charged_min s a : charged s a = Z.min I64_MAX (s + a).
Proof. unfold charged. destruct (Z.leb_spec (I64_MAX - a) s); lia. Qed.

Lemma incarnation_pos db ns : wf db → 1 ≤ incarnation_of db ns.
Proof.
  intros Hwf. unfold incarnation_of. destruct (t_incarnation db !! ns) eqn:E; simpl; [|lia].
  by apply (wf_incarnation _ Hwf ns).
Qed.

(** Replacing a ledger row of a live namespace. *)
Lemma wf_set_row db ns p l s :
  wf db → is_Some (t_namespace db !! ns) → amount_ok l → amount_ok s →
  wf (set_budget db (<[(ns, p) := (l, s)]> (t_budget db))).
Proof.
  intros [Hb Ha Hc Hi] Hn Hl Hs. split; simpl; try done.
  - intros ns' p' l' s' [[E E']|[_ H]]%lookup_insert_Some; [simplify_eq; done|by eapply Hb].
  - intros ns' p' H. apply Ha in H. destruct (decide ((ns, p) = (ns', p'))) as [->|];
      [rewrite lookup_insert_eq; eauto|by rewrite lookup_insert_ne].
Qed.

Lemma spent_ok db ns p :
  wf db → amount_ok (default 0 (snd <$> t_budget db !! (ns, p))).
Proof.
  intros Hwf. destruct (t_budget db !! (ns, p)) as [[l s]|] eqn:E; simpl.
  - by apply (wf_budget _ Hwf) in E as (_ & _ & ?).
  - unfold amount_ok, I64_MAX. lia.
Qed.

(** Selecting a period and setting its limit. *)
Lemma wf_select_period db ns p l :
  wf db → is_Some (t_namespace db !! ns) → amount_ok l →
  wf (upsert_budget ns p l (upsert_active ns p db)).
Proof.
  intros Hwf Hn Hl. pose proof (spent_ok db ns p Hwf) as Hs.
  destruct (wf_set_row db ns p l _ Hwf Hn Hl Hs) as [Hb Ha Hc Hi]. simpl in *.
  split; simpl; try done. intros ns' p' [[-> ->]|[_ H]]%lookup_insert_Some; [|by apply Ha].
  rewrite lookup_insert_eq. eauto.
Qed.

Lemma wf_put_budget db ns p l :
  wf db → is_Some (t_namespace db !! ns) → amount_ok l → wf (upsert_budget ns p l db).
Proof. intros Hwf Hn Hl. apply wf_set_row; auto using spent_ok. Qed.

Lemma wf_set_cadence db ns c l tz :
  wf db → is_Some (t_namespace db !! ns) → amount_ok l → is_Some (tz_get tz) →
  wf (set_cadence db (<[ns := (cadence_as_str c, l, tz)]> (t_cadence db))).
Proof.
  intros [Hb Ha Hc Hi] Hn Hl Htz. split; simpl; try done.
  intros ns' c' l' tz' [[-> E]|[_ H]]%lookup_insert_Some; [|by eapply Hc].
  simplify_eq. split_and!; try done; try apply Hl. destruct c; eauto.
Qed.

Lemma wf_delete db id : wf db → wf (spec_delete id db).
Proof.
  intros Hwf. pose proof Hwf as [Hb Ha Hc Hi]. split; simpl.
  - intros ns p l s [H Hne]%map_lookup_filter_Some. simpl in Hne. apply Hb in H as (? & ? & ?).
    by rewrite lookup_delete_ne.
  - intros ns p [Hne H]%lookup_delete_Some. apply Ha in H as [row H]. exists row.
    apply map_lookup_filter_Some. split; [done|]. simpl. congruence.
  - intros ns c l tz [Hne H]%lookup_delete_Some. rewrite lookup_delete_ne by done. by eapply Hc.
  - intros ns n. pose proof (incarnation_pos db id Hwf). case_match; [|apply Hi].
    intros [[_ <-]|[_ H']]%lookup_insert_Some; [lia|by eapply Hi].
Qed.

Lemma wf_admit db ns now : wf db → wf (spec_admit ns now db).
Proof.
  intros Hwf. unfold spec_admit. destruct (live db ns) eqn:E; [|done]. apply live_true in E.
  destruct (t_cadence db !! ns) as [[[c l] tz]|] eqn:Ec; [|done].
  case_decide; [|done]. destruct (tz_get tz); [|done]. cbv zeta. case_match; [done|].
  apply wf_set_row; [done|done|by apply (wf_cadence _ Hwf) in Ec as (_ & _ & _ & ?)|].
  unfold amount_ok, I64_MAX. lia.
Qed.

Lemma wf_charge db ns p inc a : 0 ≤ a → wf db → wf (spec_charge ns p inc a db).
Proof.
  intros Ha Hwf. unfold spec_charge. destruct (t_budget db !! (ns, p)) as [[l s]|] eqn:E; [|done].
  destruct (live db ns && _) eqn:El; [|done]. reflect_bools. apply live_true in H.
  apply (wf_budget _ Hwf) in E as (_ & Hl & Hs). apply wf_set_row; try done.
  rewrite charged_min. unfold amount_ok in *. lia.
Qed.

(** Usage and provider-model rows are not part of the ledger. *)
Lemma wf_frame db db' :
  t_namespace db' = t_namespace db → t_incarnation db' = t_incarnation db →
  t_budget db' = t_budget db → t_active db' = t_active db → t_cadence db' = t_cadence db →
  wf db → wf db'.
Proof. intros E1 E2 E3 E4 E5 []. split; rewrite ?E1, ?E2, ?E3, ?E4, ?E5; done. Qed.

(** The ledger tables of a database. *)
Definition ledger (db : Db) :=
  (t_namespace db, t_incarnation db, t_budget db, t_active db, t_cadence db).

Lemma append_ledger es db : ledger (foldl (λ db e, insert_usage e db) db es) = ledger db.
Proof.
  revert db. induction es as [|e es IH]; intros db; simpl; [done|]. rewrite IH.
  unfold insert_usage. by case_match.
Qed.

Lemma models_ledger o db :
  match o with OPutModels _ | OMarkUnless _ _ | OMarkIf _ _ => True | _ => False end →
  ledger (apply_op o db) = ledger db.
Proof. destruct o; try done; intros _; simpl; unfold mark_stale; by repeat case_match. Qed.

Lemma wf_ledger db db' : ledger db' = ledger db → wf db → wf db'.
Proof. unfold ledger. intros [= ?????]. by apply wf_frame. Qed.

Lemma wf_apply o db : op_ok o → wf db → wf (apply_op o db).
Proof.
  intros Ho Hwf. pose proof Hwf as [Hb Ha Hc Hi].
  destruct o as [r|id a bl|id|ns p l now|ns c l tz f now|ns now|ns now|ns p inc amt|es|m|pr src|pr src];
    simpl in *.
  - unfold spec_put_namespace. destruct (live db (ns_id r)) eqn:E; [done|]. split; simpl; try done.
    + intros ns p l s H. apply Hb in H as (? & ? & ?). rewrite lookup_insert_is_Some'. auto.
    + intros ns c l tz H. apply Hc in H as (? & ? & ?). rewrite lookup_insert_is_Some'. auto.
    + intros ns n [[_ <-]|[_ H]]%lookup_insert_Some; [by apply incarnation_pos|by eapply Hi].
  - destruct (live db id); [|done]. split; simpl; try done.
    + intros ns p l s H. apply Hb in H as (? & ? & ?). rewrite lookup_insert_is_Some'. auto.
    + intros ns c l tz H. apply Hc in H as (? & ? & ?). rewrite lookup_insert_is_Some'. auto.
  - by apply wf_delete.
  - unfold spec_put_budget. destruct (live db ns && _) eqn:E; [|done]. reflect_bools.
    apply live_true in H. by apply wf_select_period.
  - unfold spec_put_policy. destruct (tz_get tz) as [z|] eqn:Etz; [|done].
    destruct (policy_period db ns c z f now) as [p|]; [|done].
    destruct (live db ns && _) eqn:E; [|done]. reflect_bools. apply live_true in H.
    assert (wf (set_cadence db (<[ns := (cadence_as_str c, l, tz)]> (t_cadence db))))
      by (apply wf_set_cadence; eauto; done).
    cbv zeta. case_decide; [by apply wf_select_period|by apply wf_put_budget].
  - by apply wf_admit.
  - by apply wf_admit.
  - apply wf_charge; [|done]. unfold sql_amount_saturating, I64_MAX. case_match; lia.
  - apply (wf_ledger db); [apply append_ledger|done].
  - by apply (wf_ledger db); [apply (models_ledger (OPutModels m))|].
  - by apply (wf_ledger db); [apply (models_ledger (OMarkUnless pr src))|].
  - by apply (wf_ledger db); [apply (models_ledger (OMarkIf pr src))|].
Qed.

(** A property of the abstract steps is a property of every run. *)
Lemma run_ops_ind (P : Db → Prop) (ops : list Op) eng σ :
  (∀ o db, o ∈ ops → P db → P (apply_op o db)) → P σ.1 → P (run_ops ops eng σ).1.
Proof.
  unfold run_ops. revert σ. induction ops as [|o ops IH]; intros [db k] Hstep Hp; simpl; [done|].
  apply IH; [intros; apply Hstep; [by apply list_elem_of_further|done]|].
  destruct (run_op o eng (db, k)) as [r σ'] eqn:E. simpl. apply run_op_refines in E.
  assert (P (apply_op o db)) by (apply Hstep; [apply list_elem_of_here|done]).
  destruct (is_ok r); [by rewrite E|]. destruct E as [->|[_ ->]]; done.
Qed.

(** ** Spend *)

Definition spent (db : Db) (ns p : string) : option Z := snd <$> t_budget db !! (ns, p).

(** What an operation adds to a ledger row. *)
Definition credit (db : Db) (ns p : string) (o : Op) : Z :=
  match o with
  | OCharge ns' p' inc a =>
      if bool_decide (ns' = ns ∧ p' = p) && live db ns && (incarnation_of db ns =? inc)
      then sql_amount_saturating a else 0
  | _ => 0
  end.

(** The charges a run lands on a row. *)
Fixpoint credited (ops : list Op) (ns p : string) (eng : Engine) (σ : Db * nat) : Z :=
  match ops with
  | [] => 0
  | o :: ops =>
      let '(r, σ') := run_op o eng σ in
      (if is_ok r then credit σ.1 ns p o else 0) + credited ops ns p eng σ'
  end.

Lemma spent_upsert db ns p l ns' p' s :
  spent db ns' p' = Some s → spent (upsert_budget ns p l db) ns' p' = Some s.
Proof.
  unfold spent, upsert_budget. simpl. intros H.
  destruct (decide ((ns, p) = (ns', p'))) as [[= -> ->]|];
    [|by rewrite lookup_insert_ne].
  rewrite lookup_insert_eq. simpl. by rewrite H.
Qed.

Lemma spent_apply o db ns p s :
  o ≠ ODeleteNamespace ns → spent db ns p = Some s → s ≤ I64_MAX →
  spent (apply_op o db) ns p = Some (Z.min I64_MAX (s + credit db ns p o)).
Proof.
  intros Hd Hs Hle.
  assert (spent (apply_op o db) ns p = Some s → credit db ns p o = 0 →
    spent (apply_op o db) ns p = Some (Z.min I64_MAX (s + credit db ns p o))) as Hsame.
  { intros -> ->. f_equal. lia. }
  destruct o as [r|id a bl|id|ns' p' l now|ns' c l tz f now|ns' now|ns' now|ns' p' inc amt|es|m|pr src|pr src];
    simpl in *; try (apply Hsame; [|done]).
  - unfold spec_put_namespace. by case_match.
  - by case_match.
  - unfold spent, spec_delete in *. simpl. apply fmap_Some in Hs as (row & Hrow & ->).
    apply fmap_Some. exists row. split; [|done]. apply map_lookup_filter_Some.
    split; [done|]. simpl. congruence.
  - unfold spec_put_budget. case_match; [by apply spent_upsert|done].
  - unfold spec_put_policy. repeat case_match; try done; by apply spent_upsert.
  - unfold spec_admit. repeat case_match; try done. unfold spent in *. simpl.
    rewrite lookup_insert_ne; [done|]. intros Heq. rewrite <-Heq in Hs.
    match goal with H : t_budget db !! _ = None |- _ => by rewrite H in Hs end.
  - unfold spec_admit. repeat case_match; try done. unfold spent in *. simpl.
    rewrite lookup_insert_ne; [done|]. intros Heq. rewrite <-Heq in Hs.
    match goal with H : t_budget db !! _ = None |- _ => by rewrite H in Hs end.
  - unfold spec_charge, spent in *. apply fmap_Some in Hs as ([l s'] & Hrow & ->). simpl in *.
    destruct (decide (ns' = ns ∧ p' = p)) as [[-> ->]|Hne].
    + rewrite Hrow, bool_decide_true by done. simpl. destruct (live db ns && _); simpl.
      * by rewrite lookup_insert_eq, charged_min.
      * rewrite Hrow. simpl. f_equal. lia.
    + rewrite bool_decide_false by done. simpl.
      assert ((ns', p') ≠ (ns, p)) by naive_solver.
      destruct (t_budget db !! (ns', p')) as [[??]|]; [destruct (_ && _)|]; simpl;
        rewrite ?lookup_insert_ne, Hrow by done; simpl; f_equal; lia.
  - pose proof (append_ledger es db) as [= _ _ Hb _ _]. unfold spent in *. by rewrite Hb.
  - pose proof (models_ledger (OPutModels m) db I) as [= _ _ Hb _ _]. unfold spent in *.
    simpl in Hb. by rewrite Hb.
  - pose proof (models_ledger (OMarkUnless pr src) db I) as [= _ _ Hb _ _]. unfold spent in *.
    simpl in Hb. by rewrite Hb.
  - pose proof (models_ledger (OMarkIf pr src) db I) as [= _ _ Hb _ _]. unfold spent in *.
    simpl in Hb. by rewrite Hb.
Qed.

Lemma credit_nonneg db ns p o : op_ok o → 0 ≤ credit db ns p o.
Proof.
  destruct o; simpl; try lia. intros. case_match; [|lia].
  unfold sql_amount_saturating, I64_MAX. case_match; lia.
Qed.

Lemma credited_nonneg ops ns p eng σ : Forall op_ok ops → 0 ≤ credited ops ns p eng σ.
Proof.
  intros Hok. revert σ. induction Hok as [|o ops Ho _ IH]; intros σ; simpl; [lia|].
  destruct (run_op o eng σ) as [r σ']. specialize (IH σ').
  pose proof (credit_nonneg σ.1 ns p o Ho). case_match; lia.
Qed.

(** ** Incarnations *)

Lemma incarnation_mono o db ns : incarnation_of db ns ≤ incarnation_of (apply_op o db) ns.
Proof.
  destruct o as [r|id a bl|id|ns' p' l now|ns' c l tz f now|ns' now|ns' now|ns' p' inc amt|es|m|pr src|pr src];
    simpl; unfold spec_put_namespace, spec_put_budget, spec_put_policy, spec_admit, spec_charge,
      upsert_budget; cbv zeta.
  - case_match; [done|]. unfold incarnation_of. simpl.
    destruct (decide (ns_id r = ns)) as [->|]; [by rewrite lookup_insert_eq|by rewrite lookup_insert_ne].
  - by case_match.
  - unfold spec_delete, incarnation_of. simpl. case_match; [|done].
    destruct (decide (id = ns)) as [->|]; [rewrite lookup_insert_eq; simpl; lia|by rewrite lookup_insert_ne].
  - by case_match.
  - repeat case_match; done.
  - repeat case_match; done.
  - repeat case_match; done.
  - repeat case_match; done.
  - pose proof (append_ledger es db) as [= _ Hi _ _ _]. unfold incarnation_of. by rewrite Hi.
  - by repeat case_match.
  - unfold mark_stale. by repeat case_match.
  - unfold mark_stale. by repeat case_match.
Qed.

Lemma delete_existed ns eng db k σ' :
  delete_namespace ns eng (db, k) = (Ok true, σ') → live db ns = true.
Proof.
  intros H. apply with_conn_inv in H as [H|[_ ?]]; [|done].
  apply transaction_inv in H as [([db1 k1] & Hb & _)|[_ [?|(a & σ & Hb & _)]]]; [|done|by sql_run].
  unfold live. sql_run. destruct (bool_decide (is_Some (t_namespace db !! ns))) eqn:E; [done|].
  sql_run. simpl in *. congruence.
Qed.

(** *** An engine that does not fail *)

Definition healthy : Engine := λ _, None.

Lemma healthy_query {A B} (f : Db → A) (m : A → Sql B) db k :
  (query f ≫= m) healthy (db, k) = m (f db) healthy (db, S k).
Proof. done. Qed.

Lemma healthy_execute {B} f (m : unit → Sql B) db k :
  (execute f ≫= m) healthy (db, k) = m tt healthy (f db, S k).
Proof. done. Qed.

Lemma healthy_lift {A B} (a : A) (m : A → Sql B) σ : (lift (Ok a) ≫= m) healthy σ = m a healthy σ.
Proof. done. Qed.

Lemma healthy_conn {A} (m : Sql A) db k : with_conn m healthy (db, k) = m healthy (db, S k).
Proof. done. Qed.

Lemma healthy_tx {A} (body : Sql (TxEnd A)) db k :
  (transaction body healthy (db, k)).1 =
  match (body healthy (db, S k)).1 with
  | Err e => Err e
  | Ok (Rollback a) => Ok a
  | Ok (Commit answer) => answer
  end.
Proof.
  unfold transaction. simpl. by destruct (body healthy (db, S k)) as [[[]|] [??]].
Qed.

(** ** Admission decisions *)

(** The decision on the tables alone: the active period's ledger, or the current
    month's, opened at the policy limit when it does not exist yet. *)
Definition admit_spec (db : Db) (ns : string) (now : Timestamp) : result StoreError BudgetAdmit :=
  if negb (live db ns) then Ok Exceeded
  else
    let inc := incarnation_of db ns in
    match t_cadence db !! ns with
    | Some (c, limit, timezone) =>
        if decide (c = "monthly"%string) then
          tz ← validate_timezone timezone;
          let period := monthly_period_key now tz in
          let '(l, s) := default (limit, 0) (t_budget db !! (ns, period)) in
          Ok (if s <? l then Allowed period inc else Exceeded)
        else
          Ok (match t_active db !! ns ≫= λ p, pair p <$> t_budget db !! (ns, p) with
              | Some (p, (l, s)) => if s <? l then Allowed p inc else Exceeded
              | None => Exceeded
              end)
    | None =>
        Ok (match t_active db !! ns ≫= λ p, pair p <$> t_budget db !! (ns, p) with
            | Some (p, (l, s)) => if s <? l then Allowed p inc else Exceeded
            | None => Exceeded
            end)
    end.

Lemma fixed_admit db ns inc :
  admit_from_ledger (t_active db !! ns)
    (fst <$> (t_active db !! ns ≫= λ period, t_budget db !! (ns, period)))
    (snd <$> (t_active db !! ns ≫= λ period, t_budget db !! (ns, period))) inc =
  match t_active db !! ns ≫= λ p, pair p <$> t_budget db !! (ns, p) with
  | Some (p, (l, s)) => if s <? l then Allowed p inc else Exceeded
  | None => Exceeded
  end.
Proof.
  destruct (t_active db !! ns) as [p|]; simpl; [|done].
  by destruct (t_budget db !! (ns, p)) as [[l s]|].
Qed.

Lemma admit_row_Ok ns now eng db k a σ' rec cadence period ledger inc :
  ledger_row db ns = Some (rec, cadence, period, ledger, inc) →
  admit_row ns cadence period ledger inc now eng (db, k) = (Ok a, σ') →
  admit_spec db ns now = Ok a.
Proof.
  unfold ledger_row. destruct (t_namespace db !! ns) as [r|] eqn:En; [|done]. intros [= <- <- <- <- <-].
  unfold admit_row, admit_spec. rewrite (proj2 (live_true db ns)) by eauto. simpl.
  destruct (t_cadence db !! ns) as [[[c limit] timezone]|] eqn:Ec; simpl.
  2:{ intros H. injection H as <- _. by rewrite <-fixed_admit. }
  destruct (decide (c = "monthly"%string)) as [->|Hc].
  2:{ rewrite decide_False by congruence. intros H. injection H as <- _. by rewrite <-fixed_admit. }
  rewrite decide_True by done. unfold admit_monthly. simpl. intros H. sql_run.
  match goal with H : validate_timezone _ = Ok ?z |- _ => rewrite H; simpl; rename z into tz end.
  destruct (t_budget db !! (ns, monthly_period_key now tz)) as [[l s]|] eqn:Eb; simpl; sql_run.
  { done. }
  match goal with H : transaction _ _ _ = _ |- _ => apply transaction_inv in H as
    [([db1 k2] & Hb & _)|[_ [Hf|(a' & σ & Hb & Ha)]]] end; [|done|].
  - sql_run. rewrite En in *. simpl in *. sql_run. rewrite Eb. simpl.
    by rewrite lookup_insert_eq.
  - sql_run. rewrite En in *. simpl in *. by sql_run.
Qed.

Lemma admit_Ok ns now eng db k a σ' :
  admit_budget ns now eng (db, k) = (Ok a, σ') → admit_spec db ns now = Ok a.
Proof.
  intros H. apply with_conn_inv in H as [H|[_ ?]]; [|done].
  apply query_bind in H as [H|[_ ?]]; [|done].
  destruct (ledger_row db ns) as [[[[[rec cadence] period] ledger] inc]|] eqn:E.
  - by eapply admit_row_Ok.
  - injection H as <- _. unfold admit_spec, live. unfold ledger_row in E.
    destruct (t_namespace db !! ns); [done|]. by rewrite bool_decide_false by (by intros [??]).
Qed.

(** A reservation names an open ledger with room. *)
Lemma admit_spec_allowed db ns now p inc :
  wf db → admit_spec db ns now = Ok (Allowed p inc) →
  live db ns = true ∧ inc = incarnation_of db ns ∧
  ∃ l s, t_budget (spec_admit ns now db) !! (ns, p) = Some (l, s) ∧ s < l.
Proof.
  intros Hwf. unfold admit_spec, spec_admit. destruct (live db ns) eqn:El; simpl; [|done].
  assert ((match t_active db !! ns ≫= λ p, pair p <$> t_budget db !! (ns, p) with
    | Some (p, (l, s)) => if s <? l then Allowed p (incarnation_of db ns) else Exceeded
    | None => Exceeded
    end) = Allowed p inc → inc = incarnation_of db ns ∧
      ∃ l s, t_budget db !! (ns, p) = Some (l, s) ∧ s < l) as Hfix.
  { destruct (t_active db !! ns) as [p'|]; simpl; [|done].
    destruct (t_budget db !! (ns, p')) as [[l s]|] eqn:Eb; simpl; [|done].
    destruct (Z.ltb_spec s l); [|done]. intros [= -> <-]. eauto. }
  destruct (t_cadence db !! ns) as [[[c limit] timezone]|].
  2:{ intros [= H]. split; [done|]. by apply Hfix. }
  case_decide.
  2:{ intros [= H']. split; [done|]. by apply Hfix. }
  unfold validate_timezone, ok_or. destruct (tz_get timezone) as [tz|]; simpl; [|done].
  destruct (t_budget db !! (ns, monthly_period_key now tz)) as [[l s]|] eqn:Eb; simpl.
  - destruct (Z.ltb_spec s l); [|done]. intros [= <- <-]. eauto 10.
  - destruct (Z.ltb_spec 0 limit); [|done]. intros [= <- <-]. split; [done|]. split; [done|].
    exists limit, 0. by rewrite lookup_insert_eq.
Qed.

(** ** The budget store of the request path *)

Record Reservation := mkReservation {
  r_id : string;
  r_estimate : Z;
  r_period : option string;
  r_incarnation : option Z;
}.

Definition unheld : Reservation := mkReservation "" 0 None None.

Inductive Denial := DenialExceeded | DenialStoreUnavailable.
Inductive Admission := AdmissionAllowed (r : Reservation) | AdmissionDenied (d : Denial).

Definition admission_from_store (a : BudgetAdmit) : Admission :=
  match a with
  | Allowed period incarnation =>
      AdmissionAllowed (mkReservation "" 0 (Some period) (Some incarnation))
  | Exceeded => AdmissionDenied DenialExceeded
  end.

Inductive UnavailablePolicy := PolicyDeny | PolicyAllow.

Definition unavailable_admission (p : UnavailablePolicy) : Admission :=
  match p with
  | PolicyDeny => AdmissionDenied DenialStoreUnavailable
  | PolicyAllow => AdmissionAllowed unheld
  end.

(** [StoreBudget::reserve]; it always answers. *)
Definition reserve (policy : UnavailablePolicy) (ns : string) (now : Timestamp) (eng : Engine)
    (σ : Db * nat) : Admission * (Db * nat) :=
  match admit_budget ns now eng σ with
  | (Ok a, σ) => (admission_from_store a, σ)
  | (Err (Invalid _), σ) => (AdmissionDenied DenialExceeded, σ)
  | (Err _, σ) => (unavailable_admission policy, σ)
  end.

(** [StoreBudget::settle]: a failed charge is logged and dropped. *)
Definition settle (ns : string) (r : Reservation) (actual : Z) (eng : Engine) (σ : Db * nat) : Db * nat :=
  match r_period r, r_incarnation r with
  | Some period, Some incarnation => (charge_budget ns period incarnation actual eng σ).2
  | _, _ => σ
  end.

Definition release (ns : string) (r : Reservation) (eng : Engine) (σ : Db * nat) : Db * nat :=
  settle ns r 0 eng σ.

(** ** Usage *)

Lemma insert_usage_mono e db id row :
  t_usage db !! id = Some row → t_usage (insert_usage e db) !! id = Some row.
Proof.
  intros H. unfold insert_usage. destruct (t_usage db !! request_id e) eqn:E; [done|]. simpl.
  by rewrite lookup_insert_ne by congruence.
Qed.

Lemma insert_all_mono es db id row :
  t_usage db !! id = Some row →
  t_usage (foldl (λ db e, insert_usage e db) db es) !! id = Some row.
Proof. revert db. induction es as [|e es IH]; intros db H; simpl; auto using insert_usage_mono. Qed.

Lemma insert_all_present es db e :
  e ∈ es → is_Some (t_usage (foldl (λ db e, insert_usage e db) db es) !! request_id e).
Proof.
  intros Hin. revert db. induction Hin as [e es|e x es _ IH]; intros db; simpl; [|apply IH].
  assert (is_Some (t_usage (insert_usage e db) !! request_id e)) as [row Hrow].
  { unfold insert_usage. destruct (t_usage db !! request_id e) eqn:E; [by rewrite E|].
    simpl. rewrite lookup_insert_eq. eauto. }
  exists row. by apply insert_all_mono.
Qed.

(** A batch that is already indexed changes nothing. *)
Lemma insert_all_id es db :
  (∀ e, e ∈ es → is_Some (t_usage db !! request_id e)) →
  foldl (λ db e, insert_usage e db) db es = db.
Proof.
  induction es as [|e es IH]; intros H; simpl; [done|].
  destruct (H e (list_elem_of_here _ _)) as [row Hrow]. unfold insert_usage at 2. rewrite Hrow.
  apply IH. intros e' He'. apply H. by apply list_elem_of_further.
Qed.

Definition row_costs (us : list UsageAppend) : Z := foldr (λ u acc, default 0 (u_cost u) + acc) 0 us.

Lemma row_costs_nonneg us : Forall (λ u, 0 ≤ default 0 (u_cost u)) us → 0 ≤ row_costs us.
Proof. induction 1; simpl; lia. Qed.

Lemma msum_upsert {K A} `{Countable K} (f : A → Z) (m : gmap K A) k a0 a :
  f a0 = 0 → msum f (<[k := a]> m) = msum f m - f (default a0 (m !! k)) + f a.
Proof.
  intros H0. destruct (m !! k) as [x|] eqn:E; simpl.
  - by apply msum_update.
  - rewrite msum_insert by done. lia.
Qed.

Definition grouped_ok (g : gmap (string * string) (Z * Z)) : Prop :=
  ∀ key row, g !! key = Some row → 0 ≤ row.1 ∧ 0 ≤ row.2.

Lemma add_rows_total us g :
  Forall (λ u, 0 ≤ default 0 (u_cost u)) us → grouped_ok g →
  msum fst g + Z.of_nat (length us) ≤ U64_MAX → msum snd g + row_costs us ≤ I64_MAX →
  msum fst (foldl add_row g us) = msum fst g + Z.of_nat (length us) ∧
  msum snd (foldl add_row g us) = msum snd g + row_costs us.
Proof.
  intros Hus. revert g. induction Hus as [|u us Hu Hus IH]; intros g Hg Hc Hd; simpl in *; [lia|].
  pose proof (row_costs_nonneg us Hus) as Hnn.
  assert (∃ c d, default (0, 0) (g !! (u_model u, u_status u)) = (c, d) ∧
    0 ≤ c ≤ msum fst g ∧ 0 ≤ d ≤ msum snd g) as (c & d & E & Hc' & Hd').
  { destruct (g !! (u_model u, u_status u)) as [[c d]|] eqn:E; simpl.
    - exists c, d. split; [done|]. destruct (Hg _ _ E) as [? ?]. split; (split; [done|]).
      + apply (msum_elem_le_in fst g (u_model u, u_status u) (c, d)); [|exact E]. intros k a Ha. by destruct (Hg _ _ Ha).
      + apply (msum_elem_le_in snd g (u_model u, u_status u) (c, d)); [|exact E]. intros k a Ha. by destruct (Hg _ _ Ha).
    - exists 0, 0. split; [done|].
      assert (∀ f : Z * Z → Z, (∀ k a, g !! k = Some a → 0 ≤ f a) → 0 ≤ msum f g) as Hpos.
      { intros f Hf. rewrite <-(msum_zero (λ _, 0) g) by done. by apply msum_le. }
      split; (split; [lia|]); apply Hpos; intros k a Ha; by destruct (Hg _ _ Ha). }
  assert (add_row g u = <[(u_model u, u_status u) := (c + 1, d + default 0 (u_cost u))]> g) as Ea.
  { unfold add_row. rewrite E. rewrite !saturating_add_exact by lia. done. }
  assert (msum fst (add_row g u) = msum fst g + 1 ∧
    msum snd (add_row g u) = msum snd g + default 0 (u_cost u)) as [E1 E2].
  { rewrite Ea, !(msum_upsert _ _ _ (0, 0)) by done. rewrite E. simpl. lia. }
  destruct (IH (add_row g u)) as [-> ->]; [| |lia|].
  - rewrite Ea. intros key row [[_ <-]|[_ H]]%lookup_insert_Some; [simpl; lia|by apply Hg in H].
  - lia.
  - lia.
Qed.

Lemma run_well_formed (ops : list Op) (eng : Engine) :
  Forall op_ok ops → wf (run_ops ops eng (empty_db, 0%nat)).1.
Proof.
  intros Hok. apply run_ops_ind.
  - intros o db Ho. apply wf_apply. by apply (proj1 (list.Forall_forall _ _) Hok).
  - split; simpl; intros; by rewrite lookup_empty in *.
Qed.

Lemma admission_ledger (ns : string) (now : Timestamp) (eng : Engine) (db : Db) (k : nat)
    (p : string) (inc : Z) (db' : Db) (k' : nat) :
  wf db → admit_budget ns now eng (db, k) = (Ok (Allowed p inc), (db', k')) →
  admit_spec db ns now = Ok (Allowed p inc) ∧ inc = incarnation_of db' ns ∧ live db' ns = true ∧
  (∃ l s, t_budget db' !! (ns, p) = Some (l, s) ∧ s < l) ∧
  (db' = db ∨ ∃ l, db' = set_budget db (<[(ns, p) := (l, 0)]> (t_budget db)) ∧
     t_budget db !! (ns, p) = None).
Proof.
  intros Hwf H. pose proof (admit_atomic _ _ _ _ _ _ _ H) as Hat. simpl in Hat.
  unfold all_or_nothing in Hat. simpl in Hat. subst db'.
  pose proof (admit_Ok _ _ _ _ _ _ _ H) as Hs.
  destruct (admit_spec_allowed _ _ _ _ _ Hwf Hs) as (Hl & Hi & Hrow).
  assert (incarnation_of (spec_admit ns now db) ns = incarnation_of db ns ∧
    live (spec_admit ns now db) ns = live db ns) as [-> ->]
    by (unfold spec_admit; repeat case_match; done).
  split_and!; try done.
  unfold admit_spec in Hs. unfold spec_admit in *. rewrite Hl in *. simpl in Hs.
  destruct (t_cadence db !! ns) as [[[c l] tz]|]; [|by left]. case_decide; [|by left].
  unfold validate_timezone, ok_or in Hs. destruct (tz_get tz) as [z|]; [|by left]. simpl in *.
  destruct (t_budget db !! (ns, monthly_period_key now z)) as [[??]|] eqn:Eb; [by left|].
  right. exists l. simpl in Hs. destruct (Z.ltb_spec 0 l); [|done]. injection Hs as <- _. done.
Qed.

(** ** Properties *)

(** C3: with any statement, the commit or the connection failing at any point,
    every store operation either makes its whole documented change in one step
    and reports success, or changes nothing and reports the failure; the two
    operations that read a stored record after their write report a record that
    does not parse even though the write stands. *)
Theorem store_ops_atomic (o : Op) (eng : Engine) (db : Db) (k : nat) :
  let '(r, (db', _)) := run_op o eng (db, k) in
  if is_ok r then db' = apply_op o db
  else db' = db ∨ reports_faithfully o = false ∧ db' = apply_op o db.
Proof.
  destruct (run_op o eng (db, k)) as [r [db' k']] eqn:E. by apply run_op_refines in E.
Qed.

(** from an empty database, any sequence of operations with any failures
    leaves the tables well formed: every ledger row, policy and active period
    belongs to a live namespace, an active period has its ledger row, amounts
    fit the store's integers, and stored cadences and timezones are valid. *)
Theorem store_well_formed (ops : list Op) (eng : Engine) :
  Forall op_ok ops → wf (run_ops ops eng (empty_db, 0%nat)).1.
Proof. apply run_well_formed. Qed.

(** C5: spend is conserved: as long as a namespace is not deleted, a ledger row
    that exists keeps existing and its spent amount is exactly what it was plus
    every charge that was acknowledged for its period and incarnation, capped
    at [i64::MAX]; nothing else — limit changes, policy changes, admissions,
    month openings, failed charges, other tenants — moves it. *)
Theorem spend_conserved (ops : list Op) (ns p : string) (eng : Engine) (σ : Db * nat) (s : Z) :
  Forall op_ok ops → Forall (λ o, o ≠ ODeleteNamespace ns) ops →
  spent σ.1 ns p = Some s → s ≤ I64_MAX →
  spent (run_ops ops eng σ).1 ns p = Some (Z.min I64_MAX (s + credited ops ns p eng σ)).
Proof.
  unfold run_ops. intros Hok. revert σ s.
  induction Hok as [|o ops Ho Hok IH]; intros [db k] s Hd Hs Hle; simpl in *.
  { rewrite Hs. f_equal. lia. }
  apply list.Forall_cons in Hd as [Hd Hds].
  destruct (run_op o eng (db, k)) as [r [db' k']] eqn:E. simpl.
  pose proof (run_op_refines _ _ _ _ _ _ E) as Href. simpl in Href.
  pose proof (spent_apply o db ns p s Hd Hs Hle) as Ha.
  pose proof (credit_nonneg db ns p o Ho).
  pose proof (credited_nonneg ops ns p eng (db', k') Hok).
  destruct (is_ok r) eqn:Er.
  - subst db'. rewrite (IH (apply_op o db, k') _ Hds Ha) by lia. f_equal. lia.
  - assert (spent db' ns p = Some s) as Hs'.
    { destruct Href as [->|[Hf ->]]; [done|]. rewrite Ha. f_equal.
      assert (credit db ns p o = 0) as -> by (by destruct o). lia. }
    rewrite (IH (db', k') _ Hds Hs') by lia. done.
Qed.

(** an admission the store grants is a read of its own ledger: it is granted
    exactly by the tables it read, it names the namespace's current incarnation
    and a period whose ledger row exists with spent below limit, and the only
    write it can have made is opening the current month at zero. *)
Theorem admission_reads_ledger (ns : string) (now : Timestamp) (eng : Engine) (db : Db) (k : nat)
    (p : string) (inc : Z) (db' : Db) (k' : nat) :
  wf db → admit_budget ns now eng (db, k) = (Ok (Allowed p inc), (db', k')) →
  admit_spec db ns now = Ok (Allowed p inc) ∧ inc = incarnation_of db' ns ∧ live db' ns = true ∧
  (∃ l s, t_budget db' !! (ns, p) = Some (l, s) ∧ s < l) ∧
  (db' = db ∨ ∃ l, db' = set_budget db (<[(ns, p) := (l, 0)]> (t_budget db)) ∧
     t_budget db !! (ns, p) = None).
Proof. apply admission_ledger. Qed.

(** a reservation taken before a namespace was deleted never charges the
    namespace that later takes its name: after a deletion anywhere in between,
    settling the old reservation leaves every table unchanged. *)
Theorem stale_reservation_inert (ns : string) (now : Timestamp) (eng : Engine)
    (σ0 σ1 σ3 : Db * nat) (p : string) (inc actual : Z) (before after : list Op) :
  wf σ0.1 → Forall op_ok before →
  admit_budget ns now eng σ0 = (Ok (Allowed p inc), σ1) →
  delete_namespace ns eng (run_ops before eng σ1) = (Ok true, σ3) →
  let σ4 := run_ops after eng σ3 in
  (settle ns (mkReservation "" 0 (Some p) (Some inc)) actual eng σ4).1 = σ4.1.
Proof.
  intros Hwf Hok Ha Hdel. cbv zeta. destruct σ0 as [db0 k0], σ1 as [db1 k1]. simpl in Hwf.
  destruct (admission_ledger _ _ _ _ _ _ _ _ _ Hwf Ha) as (_ & -> & _).
  set (σ2 := run_ops before eng (db1, k1)) in *.
  assert (incarnation_of db1 ns ≤ incarnation_of σ2.1 ns) as Hm1.
  { apply (run_ops_ind (λ db, incarnation_of db1 ns ≤ incarnation_of db ns)); [|simpl; lia].
    intros o db _ Hle. pose proof (incarnation_mono o db ns). lia. }
  assert (incarnation_of σ3.1 ns = incarnation_of σ2.1 ns + 1) as Hbump.
  { destruct σ2 as [db2 k2] eqn:E2. pose proof (delete_namespace_atomic _ _ _ _ _ _ Hdel) as Hd.
    unfold all_or_nothing in Hd. simpl in Hd. rewrite Hd. unfold spec_delete, incarnation_of at 1. simpl.
    rewrite (delete_existed _ _ _ _ _ Hdel), lookup_insert_eq. done. }
  assert (incarnation_of σ3.1 ns ≤ incarnation_of (run_ops after eng σ3).1 ns) as Hm2.
  { apply (run_ops_ind (λ db, incarnation_of σ3.1 ns ≤ incarnation_of db ns)); [|lia].
    intros o db _ Hle. pose proof (incarnation_mono o db ns). lia. }
  destruct (run_ops after eng σ3) as [db4 k4] eqn:E4. unfold settle. simpl in *.
  destruct (charge_budget ns p (incarnation_of db1 ns) actual eng (db4, k4)) as [r σ5] eqn:E5.
  pose proof (run_op_refines (OCharge ns p (incarnation_of db1 ns) actual) _ _ _ _ _ E5) as Href.
  simpl in *. assert (spec_charge ns p (incarnation_of db1 ns) (sql_amount_saturating actual) db4 = db4) as Hid.
  { unfold spec_charge. destruct (t_budget db4 !! (ns, p)) as [[l s]|]; [|done].
    rewrite (proj2 (Z.eqb_neq _ _)) by lia. by rewrite andb_false_r. }
  rewrite Hid in Href. destruct (is_ok r); [done|]. by destruct Href as [?|[??]].
Qed.

(** indexing usage is idempotent: a batch that was acknowledged is stored row
    for row, rows already there are never altered, and retrying the batch —
    whatever happened in between — changes nothing. *)
Theorem usage_append_idempotent (es : list UsageAppend) (eng : Engine) (db : Db) (k : nat) (σ1 : Db * nat)
    (ops : list Op) (r : result StoreError unit) (σ3 : Db * nat) :
  append_usage_batch es eng (db, k) = (Ok tt, σ1) →
  append_usage_batch es eng (run_ops ops eng σ1) = (r, σ3) →
  (∀ id row, t_usage db !! id = Some row → t_usage σ1.1 !! id = Some row) ∧
  (∀ e, e ∈ es → is_Some (t_usage σ1.1 !! request_id e)) ∧
  σ3.1 = (run_ops ops eng σ1).1.
Proof.
  intros H1 H3. pose proof (append_atomic _ _ _ _ _ _ H1) as Ha. unfold all_or_nothing in Ha.
  simpl in Ha. rewrite Ha. split; [intros; by apply insert_all_mono|].
  split; [intros; by apply insert_all_present|].
  assert (∀ e, e ∈ es → is_Some (t_usage (run_ops ops eng σ1).1 !! request_id e)) as Hin.
  { intros e He. destruct (insert_all_present es db e He) as [row Hrow]. rewrite <-Ha in Hrow.
    exists row. apply (run_ops_ind (λ db, t_usage db !! request_id e = Some row)); [|done].
    intros o db' _ Hrow'.
    destruct o; simpl; unfold spec_put_namespace, spec_put_budget, spec_put_policy, spec_admit,
      spec_charge, mark_stale, upsert_budget; try (by repeat case_match).
    by apply insert_all_mono. }
  destruct (run_ops ops eng σ1) as [db2 k2]. pose proof (append_atomic _ _ _ _ _ _ H3) as Hb.
  unfold all_or_nothing in Hb. rewrite insert_all_id in Hb by done. by destruct (is_ok r).
Qed.

(** a usage summary accounts for every indexed row of its namespace and period
    exactly once: while the totals fit their integers, the counts add up to the
    number of rows and the costs to the sum of the rows' costs. *)
Theorem summary_totals (db : Db) (ns p : string) :
  let rows := filter (in_scope ns p) (snd <$> map_to_list (t_usage db)) in
  Forall (λ u, 0 ≤ default 0 (u_cost u)) rows →
  Z.of_nat (length rows) ≤ U64_MAX → row_costs rows ≤ I64_MAX →
  msum fst (summarize_rows db ns p) = Z.of_nat (length rows) ∧
  msum snd (summarize_rows db ns p) = row_costs rows.
Proof.
  cbv zeta. intros Hn Hc Hd. unfold summarize_rows.
  destruct (add_rows_total (filter (in_scope ns p) (snd <$> map_to_list (t_usage db))) ∅)
    as [-> ->]; rewrite ?msum_empty; try done.
Qed.

(** a store that cannot be read fails closed under the default stance, an
    invalid policy is refused under either, and an over-cap ledger is refused
    under either; only the fail-open stance admits without a ledger, and such a
    request charges nothing. *)
Theorem reserve_fails_closed (policy : UnavailablePolicy) (ns : string) (now : Timestamp)
    (eng : Engine) (σ : Db * nat) :
  match reserve policy ns now eng σ with
  | (AdmissionAllowed r, σ') =>
      (∃ p inc, r = mkReservation "" 0 (Some p) (Some inc) ∧
         admit_spec σ.1 ns now = Ok (Allowed p inc)) ∨
      policy = PolicyAllow ∧ (∀ actual, settle ns r actual eng σ' = σ') ∧ σ'.1 = σ.1
  | (AdmissionDenied DenialExceeded, σ') =>
      admit_spec σ.1 ns now = Ok Exceeded ∨ σ'.1 = σ.1
  | (AdmissionDenied DenialStoreUnavailable, σ') => policy = PolicyDeny ∧ σ'.1 = σ.1
  end.
Proof.
  unfold reserve. destruct σ as [db k].
  destruct (admit_budget ns now eng (db, k)) as [[a|e] σ'] eqn:E.
  - apply admit_Ok in E. destruct a; simpl; eauto 10.
  - apply admit_atomic in E. unfold all_or_nothing in E. simpl in E.
    destruct e, policy; simpl; auto.
Qed.

(** with an engine that does not fail, every outcome is decided by the tables
    and the request alone: admission answers exactly the ledger's decision, a
    charge is acknowledged, a deletion reports whether the namespace existed,
    and a budget is accepted exactly for a live namespace and an amount the
    store can represent. *)
Theorem healthy_store_exact (db : Db) (k : nat) (ns p : string) (now : Timestamp) (l inc a : Z) :
  wf db →
  (admit_budget ns now healthy (db, k)).1 = admit_spec db ns now ∧
  (charge_budget ns p inc a healthy (db, k)).1 = Ok tt ∧
  (delete_namespace ns healthy (db, k)).1 = Ok (live db ns) ∧
  (is_ok (put_budget ns p l now healthy (db, k)).1 = true ↔ live db ns = true ∧ l ≤ I64_MAX).
Proof.
  intros Hwf. split_and!.
  - unfold admit_budget, admit_budget_on. rewrite healthy_conn, healthy_query.
    unfold ledger_row, admit_row, admit_spec, live.
    destruct (t_namespace db !! ns) as [[at_ bl]|] eqn:En; [|done].
    rewrite bool_decide_true by eauto. cbn [negb].
    destruct (t_cadence db !! ns) as [[[c limit] tz]|] eqn:Ec; simpl; [|by rewrite <-fixed_admit].
    destruct (decide (c = "monthly"%string)) as [->|Hc].
    2:{ rewrite decide_False by congruence. simpl. by rewrite <-fixed_admit. }
    rewrite decide_True by done. unfold admit_monthly. simpl.
    destruct (validate_timezone tz) as [z|e]; [|done]. rewrite healthy_lift, healthy_query. simpl.
    destruct (t_budget db !! (ns, monthly_period_key now z)) as [[l0 s0]|] eqn:Eb; [done|].
    rewrite healthy_tx. unfold namespace_exists. rewrite healthy_query, En. simpl.
    unfold mbind, sql_bind, lift, execute, query, statement. simpl. rewrite Eb. simpl.
    by rewrite lookup_insert_eq.
  - done.
  - unfold delete_namespace, namespace_exists, live. rewrite healthy_conn, healthy_tx, healthy_query.
    by destruct (bool_decide (is_Some (t_namespace db !! ns))) eqn:E;
      unfold mbind, sql_bind, execute, statement; simpl; rewrite ?E.
  - unfold put_budget, sql_amount. destruct (Z.leb_spec l I64_MAX).
    2:{ simpl. split; [done|]. intros [_ ?]. lia. }
    rewrite healthy_lift, healthy_conn, healthy_tx. unfold namespace_exists. rewrite healthy_query.
    rewrite live_true. destruct (t_namespace db !! ns) as [rec|] eqn:En; simpl.
    2:{ split; [done|]. intros [[??] _]. done. }
    rewrite !healthy_execute. unfold read_budget. simpl. split; [eauto|]. intros _.
    unfold mbind, sql_bind, query, statement, mret, sql_ret. simpl. rewrite En, lookup_insert_eq.
    destruct (t_cadence db !! ns) as [[[c limit] tz]|] eqn:Ec; [|done].
    destruct (wf_cadence _ Hwf _ _ _ _ Ec) as (_ & _ & [z Hz] & _).
    case_decide; [|done]. unfold lift, validate_timezone. by rewrite Hz.
Qed.

End Ops.

(** ** A concrete instance *)

Definition demo_json : SerdeJson := json_model (λ s, Err "no JSON"%string) (λ _, "{}"%string).
Definition demo_tz (name : string) : option unit :=
  if decide (name = "UTC"%string) then Some tt else None.
Definition demo_zoned (month : Z) (_ : unit) : Z * Z := (2026, month).

Abbreviation demo_run := (@run_ops demo_json Z unit demo_tz demo_zoned).

Definition acme : @NamespaceRecord demo_json :=
  @mkNsRecord demo_json "acme" (@Null demo_json) None.

Definition demo_ops : list (@Op demo_json Z) :=
  [@OPutNamespace demo_json Z acme; OPutPolicy "acme" Monthly 100 "UTC" None 7; OAdmit "acme" 8].

Definition demo_state : Db * nat := demo_run demo_ops healthy (empty_db, 0%nat).

Lemma store_well_formed_witness : @wf unit demo_tz demo_state.1.
Proof.
  apply (@store_well_formed demo_json Z unit demo_tz demo_zoned demo_ops healthy).
  repeat constructor; simpl; lia.
Defined.

(** Two charges land on the open month; one with an old incarnation does not. *)
Definition demo_charges : list (@Op demo_json Z) :=
  [OCharge "acme" "2026-08" 1 30; OAdmit "acme" 8; OCharge "acme" "2026-08" 1 12;
   OCharge "acme" "2026-08" 0 500].

Lemma spend_conserved_witness :
  spent (demo_run demo_charges healthy demo_state).1 "acme" "2026-08" =
    Some (Z.min I64_MAX (0 + @credited demo_json Z unit demo_tz demo_zoned demo_charges
      "acme" "2026-08" healthy demo_state)) ∧
  @credited demo_json Z unit demo_tz demo_zoned demo_charges "acme" "2026-08" healthy demo_state = 42.
Proof.
  split; [|vm_compute; reflexivity].
  apply (@spend_conserved demo_json Z unit demo_tz demo_zoned demo_charges "acme" "2026-08" healthy
    demo_state 0).
  - repeat constructor; simpl; lia.
  - repeat constructor; discriminate.
  - vm_compute. reflexivity.
  - vm_compute. discriminate.
Defined.

Lemma admission_reads_ledger_witness :
  @admit_spec Z unit demo_tz demo_zoned demo_state.1 "acme" 8 = Ok (Allowed "2026-08" 1).
Proof.
  apply (@admission_reads_ledger Z unit demo_tz demo_zoned "acme" 8 healthy demo_state.1 demo_state.2
    "2026-08" 1 (@admit_budget Z unit demo_tz demo_zoned "acme" 8 healthy demo_state).2.1
    (@admit_budget Z unit demo_tz demo_zoned "acme" 8 healthy demo_state).2.2).
  - apply (@run_well_formed demo_json Z unit demo_tz demo_zoned demo_ops healthy).
    repeat constructor; simpl; lia.
  - vm_compute. reflexivity.
Defined.

Lemma healthy_store_exact_witness :
  (@admit_budget Z unit demo_tz demo_zoned "acme" 8 healthy demo_state).1 =
    @admit_spec Z unit demo_tz demo_zoned demo_state.1 "acme" 8.
Proof.
  apply (@healthy_store_exact Z unit demo_tz demo_zoned demo_state.1 demo_state.2 "acme" "2026-08" 8 1 1 1).
  apply (@run_well_formed demo_json Z unit demo_tz demo_zoned demo_ops healthy).
  repeat constructor; simpl; lia.
Defined.

(** Admit, delete, create again under the same name, settle the old reservation. *)
Definition demo_recreate : list (@Op demo_json Z) :=
  [@OPutNamespace demo_json Z acme; OPutBudget "acme" "2026-08" 100 8].

Lemma stale_reservation_inert_witness :
  let σ1 := (@admit_budget Z unit demo_tz demo_zoned "acme" 8 healthy demo_state).2 in
  let σ3 := (delete_namespace "acme" healthy σ1).2 in
  let σ4 := demo_run demo_recreate healthy σ3 in
  spent σ4.1 "acme" "2026-08" = Some 0 ∧
  (settle "acme" (mkReservation "" 0 (Some "2026-08"%string) (Some 1)) 75 healthy σ4).1 = σ4.1.
Proof.
  split; [vm_compute; reflexivity|].
  apply (@stale_reservation_inert demo_json Z unit demo_tz demo_zoned "acme" 8 healthy demo_state
    (@admit_budget Z unit demo_tz demo_zoned "acme" 8 healthy demo_state).2
    (delete_namespace "acme" healthy (@admit_budget Z unit demo_tz demo_zoned "acme" 8 healthy demo_state).2).2
    "2026-08" 1 75 [] demo_recreate).
  - apply (@run_well_formed demo_json Z unit demo_tz demo_zoned demo_ops healthy).
    repeat constructor; simpl; lia.
  - constructor.
  - vm_compute. reflexivity.
  - vm_compute. reflexivity.
Defined.

Definition demo_usage : list UsageAppend :=
  [mkUsageAppend "r1" "acme" (Some "2026-08") "gpt" "ok" (Some 30);
   mkUsageAppend "r2" "acme" (Some "2026-08") "gpt" "ok" (Some 12)]%string.

Definition demo_indexed : Db * nat := (append_usage_batch demo_usage healthy demo_state).2.

Lemma usage_append_idempotent_witness :
  (append_usage_batch demo_usage healthy (demo_run demo_charges healthy demo_indexed)).2.1 =
  (demo_run demo_charges healthy demo_indexed).1.
Proof.
  apply (@usage_append_idempotent demo_json Z unit demo_tz demo_zoned demo_usage healthy demo_state.1
    demo_state.2 demo_indexed demo_charges
    (append_usage_batch demo_usage healthy (demo_run demo_charges healthy demo_indexed)).1).
  - vm_compute. reflexivity.
  - vm_compute. reflexivity.
Defined.

Lemma summary_totals_witness :
  msum snd (summarize_rows demo_indexed.1 "acme" "2026-08") =
  row_costs (filter (in_scope "acme" "2026-08") (snd <$> map_to_list (t_usage demo_indexed.1))).
Proof.
  apply summary_totals.
  - vm_compute. repeat constructor; discriminate.
  - vm_compute. discriminate.
  - vm_compute. discriminate.
Defined.

End Store.
