(* ===== verification/Ids.v ===== *)
(** * Identity ([crates/gateway/src/desired_state/ids.rs], [usage/identity.rs]).

    Version 7 UUIDs: their sixteen bytes, their one text form, and the generator
    that hands them out in increasing order.  A byte is a [Z] between 0 and 255;
    the operating system's random source and clock are arguments. *)

From S2P Require Import Prelude Text.

Module Ids.

(** ** Bytes *)

Definition is_u8 (z : Z) : Prop := 0 ≤ z < 256.

(** [to_be_bytes] of an [n]-byte integer. *)
Fixpoint be_bytes (n : nat) (v : Z) : list Z :=
  match n with
  | O => []
  | S n => Z.land (Z.shiftr v (8 * Z.of_nat n)) 255 :: be_bytes n v
  end.

(** [from_be_bytes] *)
Fixpoint be_value (bs : list Z) : Z :=
  match bs with [] => 0 | x :: bs => x * 256 ^ Z.of_nat (length bs) + be_value bs end.

(** The derived order on arrays and the order on text. *)
Fixpoint lex_lt (xs ys : list Z) : bool :=
  match xs, ys with
  | [], [] => false
  | [], _ :: _ => true
  | _ :: _, [] => false
  | x :: xs, y :: ys => (x <? y) || ((x =? y) && lex_lt xs ys)
  end.

(** ** [Uuid7] *)

Record Uuid7 := mkUuid { uuid_bytes : list Z }.

Inductive InvalidUuid7 :=
| Shape (t : string)
| Digit (t : string)
| Version (version : Z)
| Variant (variant : Z)
| Timestamp (millis : Z)
| Sequence (sequence : Z).

Definition TEXT_LEN : nat := 36.

Definition from_parts (millis sequence entropy : Z) : result InvalidUuid7 Uuid7 :=
  if Z.shiftl 1 48 <=? millis then Err (Timestamp millis)
  else if Z.shiftl 1 12 <=? sequence then Err (Sequence sequence)
  else
    Ok (mkUuid
      (drop 2 (be_bytes 8 millis)
       ++ [Z.lor 112 (Z.land (Z.land (Z.shiftr sequence 8) 255) 15); Z.land sequence 255]
       ++ match be_bytes 8 entropy with
          | top :: rest => Z.lor (Z.land top 63) 128 :: rest
          | [] => []
          end)).

Definition byte_at (bs : list Z) (i : nat) : Z := nth i bs 0.

Definition from_bytes (bs : list Z) : result InvalidUuid7 Uuid7 :=
  let version := Z.shiftr (byte_at bs 6) 4 in
  if negb (version =? 7) then Err (Version version)
  else
    let variant := Z.shiftr (byte_at bs 8) 6 in
    if negb (variant =? 2) then Err (Variant variant)
    else Ok (mkUuid bs).

Definition timestamp_millis (u : Uuid7) : Z := be_value (take 6 (uuid_bytes u)).
Definition sequence (u : Uuid7) : Z :=
  Z.lor (Z.shiftl (Z.land (byte_at (uuid_bytes u) 6) 15) 8) (byte_at (uuid_bytes u) 7).

(** *** Text *)

Definition DASH : ascii := "-".

Definition nibble (digit : ascii) : option Z :=
  let d := byte_val digit in
  if (48 <=? d) && (d <=? 57) then Some (d - 48)
  else if (97 <=? d) && (d <=? 102) then Some (d - 97 + 10)
  else None.

Fixpoint parse_bytes (t : string) (n : nat) (digits : bytes) : result InvalidUuid7 (list Z) :=
  match n with
  | O => Ok []
  | S n =>
      match digits with
      | high :: low :: digits =>
          match nibble high, nibble low with
          | Some high, Some low =>
              rest ← parse_bytes t n digits; Ok (Z.lor (Z.shiftl high 4) low :: rest)
          | _, _ => Err (Digit t)
          end
      | _ => Err (Shape t)
      end
  end.

Definition dash_at (s : bytes) (i : nat) : bool := bool_decide (s !! i = Some DASH).

Definition parse (t : string) : result InvalidUuid7 Uuid7 :=
  let s := b t in
  if negb (bool_decide (length s = TEXT_LEN)) || negb (dash_at s 8) || negb (dash_at s 13)
     || negb (dash_at s 18) || negb (dash_at s 23)
  then Err (Shape t)
  else
    bs ← parse_bytes t 16 (filter (λ c, c ≠ DASH) s);
    from_bytes bs.

Definition hex_digit (z : Z) : ascii := byte_of (if z <? 10 then 48 + z else 87 + z).

(** [{byte:02x}] *)
Definition hex2 (x : Z) : bytes := [hex_digit (Z.shiftr x 4); hex_digit (Z.land x 15)].

Definition display_byte (index : nat) (x : Z) : bytes :=
  (if decide (index ∈ [4; 6; 8; 10]%nat) then [DASH] else []) ++ hex2 x.

Fixpoint display_from (index : nat) (bs : list Z) : bytes :=
  match bs with [] => [] | x :: bs => display_byte index x ++ display_from (S index) bs end.

Definition display (u : Uuid7) : string := text (display_from 0 (uuid_bytes u)).

(** ** [Uuid7Generator] *)

Definition MAX_SEQUENCE : Z := Z.shiftl 1 12 - 1.
Definition MAX_MILLIS : Z := Z.shiftl 1 48 - 1.
Definition NANOS_PER_MILLI : Z := 1000000.

(** A reading of the wall clock, in nanoseconds since the epoch, as the
    generator uses it. *)
Definition unix_millis (t : Z) : Z :=
  Z.min (if t <? 0 then 0
         else if t `div` NANOS_PER_MILLI <=? U64_MAX then t `div` NANOS_PER_MILLI else MAX_MILLIS)
    MAX_MILLIS.

Definition advance (last : Z * Z) (now : Z) : Z * Z :=
  let '(last_millis, last_sequence) := last in
  if last_millis <? now then (now, 0)
  else if last_sequence <? MAX_SEQUENCE then (last_millis, last_sequence + 1)
  else (Z.min (saturating_add U64_MAX last_millis 1) MAX_MILLIS, 0).

(** One [next]: a clock reading and eight random bytes.  [Err] is the panic of
    the [expect]. *)
Definition generate (last : Z * Z) (t entropy : Z) : result InvalidUuid7 Uuid7 * (Z * Z) :=
  let next := advance last (unix_millis t) in
  (from_parts next.1 next.2 entropy, next).

Fixpoint generate_all (last : Z * Z) (calls : list (Z * Z)) : list (result InvalidUuid7 Uuid7) * (Z * Z) :=
  match calls with
  | [] => ([], last)
  | (t, entropy) :: calls =>
      let '(u, last) := generate last t entropy in
      let '(us, last) := generate_all last calls in
      (u :: us, last)
  end.

(** ** [RequestId] *)

Record RequestId := mkRequestId { request_uuid : Uuid7 }.

Inductive InvalidId := Prefix (expected found : string) | InvalidUuid (e : InvalidUuid7).

Definition PREFIX : string := "req_".

Definition RequestId_parse (t : string) : result InvalidId RequestId :=
  match strip_prefix (b PREFIX) (b t) with
  | None => Err (Prefix PREFIX t)
  | Some uuid =>
      match parse (text uuid) with
      | Ok u => Ok (mkRequestId u)
      | Err e => Err (InvalidUuid e)
      end
  end.

Definition RequestId_display (id : RequestId) : string := PREFIX +:+ display (request_uuid id).

(** ** Lemmas: bytes *)

Lemma land_255 v : Z.land v 255 = v `mod` 256.
Proof. change 255 with (Z.ones 8). by rewrite Z.land_ones. Qed.

Lemma be_bytes_length n v : length (be_bytes n v) = n.
Proof. induction n; simpl; congruence. Qed.

Lemma be_bytes_u8 n v : Forall is_u8 (be_bytes n v).
Proof.
  induction n; simpl; constructor; [|done]. rewrite land_255. unfold is_u8. apply Z.mod_pos_bound. lia.
Qed.

Lemma be_value_app xs ys : be_value (xs ++ ys) = be_value xs * 256 ^ Z.of_nat (length ys) + be_value ys.
Proof.
  induction xs as [|x xs IH]; cbn [app be_value]; [lia|].
  rewrite IH, length_app, Nat2Z.inj_add, Z.pow_add_r by lia. ring.
Qed.

Lemma be_value_range bs : Forall is_u8 bs → 0 ≤ be_value bs < 256 ^ Z.of_nat (length bs).
Proof.
  induction 1 as [|x bs Hx _ IH]; [done|]. cbn [be_value length].
  rewrite Nat2Z.inj_succ, Z.pow_succ_r by lia. unfold is_u8 in Hx. nia.
Qed.

Lemma be_value_bytes n v : be_value (be_bytes n v) = v `mod` 256 ^ Z.of_nat n.
Proof.
  induction n as [|n IH]; [simpl; by rewrite Z.mod_1_r|]. cbn [be_bytes be_value].
  rewrite be_bytes_length, IH, land_255, Z.shiftr_div_pow2, Nat2Z.inj_succ, Z.pow_succ_r by lia.
  replace (2 ^ (8 * Z.of_nat n)) with (256 ^ Z.of_nat n) by (rewrite Z.pow_mul_r by lia; done).
  rewrite (Z.mul_comm 256), (Z.rem_mul_r v) by (try apply Z.pow_nonzero; lia). lia.
Qed.

Lemma lex_lt_value xs ys :
  Forall is_u8 xs → Forall is_u8 ys → length xs = length ys →
  lex_lt xs ys = true ↔ be_value xs < be_value ys.
Proof.
  intros Hx. revert ys. induction Hx as [|x xs Hx Hxs IH]; intros [|y ys] Hys Hlen; try done.
  apply list.Forall_cons in Hys as [Hy Hys]. simpl in Hlen. injection Hlen as Hlen.
  cbn [lex_lt be_value]. pose proof (be_value_range _ Hxs) as Rx. pose proof (be_value_range _ Hys) as Ry.
  specialize (IH ys Hys Hlen). rewrite Hlen in *. unfold is_u8 in *.
  rewrite orb_true_iff, andb_true_iff, IH, Z.ltb_lt, Z.eqb_eq. split; [nia|].
  intros Hlt. destruct (Z.lt_trichotomy x y) as [?|[->|?]]; [by left|right; split; [done|lia]|exfalso; nia].
Qed.

(** A difference in the leading bytes decides. *)
Lemma lex_lt_prefix ps qs xs ys :
  length ps = length qs → lex_lt ps qs = true → lex_lt (ps ++ xs) (qs ++ ys) = true.
Proof.
  revert qs. induction ps as [|p ps IH]; intros [|q qs] Hlen Hlt; try done. simpl in *.
  injection Hlen as Hlen. apply orb_true_iff in Hlt as [Hlt|[He Hlt]%andb_prop].
  - by rewrite Hlt.
  - rewrite He, (IH qs Hlen Hlt). apply orb_true_r.
Qed.

Lemma lex_lt_same ps xs ys : lex_lt (ps ++ xs) (ps ++ ys) = lex_lt xs ys.
Proof. induction ps as [|p ps IH]; [done|]. simpl. by rewrite Z.ltb_irrefl, Z.eqb_refl, IH. Qed.

(** ** Lemmas: the fields of a UUID *)

Definition valid (u : Uuid7) : Prop :=
  length (uuid_bytes u) = 16%nat ∧ Forall is_u8 (uuid_bytes u) ∧ from_bytes (uuid_bytes u) = Ok u.

Lemma version_byte x : 0 ≤ x < 16 → Z.lor 112 x = 112 + x.
Proof.
  intros. assert (x = 0 ∨ x = 1 ∨ x = 2 ∨ x = 3 ∨ x = 4 ∨ x = 5 ∨ x = 6 ∨ x = 7 ∨ x = 8 ∨ x = 9 ∨ x = 10 ∨
    x = 11 ∨ x = 12 ∨ x = 13 ∨ x = 14 ∨ x = 15) as Hx by lia. by destruct_or! Hx; subst.
Qed.

Lemma variant_byte x : 0 ≤ x < 256 → 128 ≤ Z.lor (Z.land x 63) 128 < 192.
Proof.
  intros. assert (Z.land (Z.land x 63) 128 = 0) as H0 by (by rewrite <-Z.land_assoc, Z.land_0_r).
  apply Z.add_nocarry_lxor in H0 as Hadd. rewrite <-Z.lxor_lor, <-Hadd by done.
  change 63 with (Z.ones 6). rewrite Z.land_ones by lia.
  pose proof (Z.mod_pos_bound x (2 ^ 6)) as Hm. change (2 ^ 6) with 64 in *. lia.
Qed.

Lemma sequence_bytes s :
  0 ≤ s < 4096 →
  Z.lor 112 (Z.land (Z.land (Z.shiftr s 8) 255) 15) = 112 + s `div` 256 ∧ Z.land s 255 = s `mod` 256.
Proof.
  intros. split; [|apply land_255]. rewrite land_255, Z.shiftr_div_pow2 by lia.
  change 15 with (Z.ones 4). rewrite Z.land_ones by lia. change (2 ^ 8) with 256. change (2 ^ 4) with 16.
  assert (0 ≤ s `div` 256 < 16) by (split; [apply Z.div_pos|apply Z.div_lt_upper_bound]; lia).
  rewrite (Z.mod_small (s `div` 256) 256), (Z.mod_small (s `div` 256) 16) by lia. by apply version_byte.
Qed.

(** The three fields of a freshly built UUID. *)
Lemma from_parts_shape millis sequence entropy :
  0 ≤ millis < 2 ^ 48 → 0 ≤ sequence < 4096 →
  ∃ top tail, 128 ≤ top < 192 ∧ length tail = 7%nat ∧ Forall is_u8 tail ∧
    from_parts millis sequence entropy =
      Ok (mkUuid (be_bytes 6 millis ++ [112 + sequence `div` 256; sequence `mod` 256] ++ top :: tail)).
Proof.
  intros Hm Hs. unfold from_parts. change (Z.shiftl 1 48) with (2 ^ 48). change (Z.shiftl 1 12) with 4096.
  rewrite (proj2 (Z.leb_gt _ _)), (proj2 (Z.leb_gt _ _)) by lia.
  destruct (sequence_bytes sequence Hs) as [-> ->].
  change (be_bytes 8 entropy) with (Z.land (Z.shiftr entropy 56) 255 :: be_bytes 7 entropy).
  eexists _, _. split_and!; [| | | |done].
  3: { apply be_bytes_length. }
  3: { apply be_bytes_u8. }
  all: rewrite land_255; apply variant_byte, Z.mod_pos_bound; lia.
Qed.

Lemma shape_valid millis sequence top tail :
  0 ≤ millis < 2 ^ 48 → 0 ≤ sequence < 4096 → 128 ≤ top < 192 → length tail = 7%nat → Forall is_u8 tail →
  let u := mkUuid (be_bytes 6 millis ++ [112 + sequence `div` 256; sequence `mod` 256] ++ top :: tail) in
  valid u ∧ timestamp_millis u = millis ∧ Ids.sequence u = sequence.
Proof.
  intros Hm Hs Ht Hl Hf u.
  assert (0 ≤ sequence `div` 256 < 16) as Hd by (split; [apply Z.div_pos|apply Z.div_lt_upper_bound]; lia).
  pose proof (Z.mod_pos_bound sequence 256) as Hr.
  assert (Z.shiftr (112 + sequence `div` 256) 4 = 7) as Hv.
  { rewrite Z.shiftr_div_pow2 by lia. change (2 ^ 4) with 16. symmetry.
    apply (Z.div_unique _ _ _ (sequence `div` 256)); lia. }
  assert (Z.shiftr top 6 = 2) as Ha.
  { rewrite Z.shiftr_div_pow2 by lia. change (2 ^ 6) with 64. symmetry.
    apply (Z.div_unique _ _ _ (top - 128)); lia. }
  split_and!.
  - split_and!; [by simpl; rewrite Hl| |].
    + apply Forall_app. split; [apply be_bytes_u8|]. apply Forall_app. unfold is_u8.
      split; repeat constructor; try lia. done.
    + unfold from_bytes, u. cbn. by rewrite Hv, Ha.
  - change (be_value (be_bytes 6 millis) = millis). rewrite be_value_bytes. by apply Z.mod_small.
  - unfold Ids.sequence, u. cbn -[Z.land Z.lor Z.shiftl]. change 15 with (Z.ones 4).
    rewrite Z.land_ones, Z.shiftl_mul_pow2 by lia. change (2 ^ 4) with 16. change (2 ^ 8) with 256.
    replace ((112 + sequence `div` 256) `mod` 16) with (sequence `div` 256).
    2:{ apply (Z.mod_unique _ _ 7); lia. }
    pose proof (Z.div_mod sequence 256) as Hdm.
    rewrite <-Z.lxor_lor, <-Z.add_nocarry_lxor; [lia| |].
    all: change 256 with (2 ^ 8); apply Z.bits_inj_0; intros n; rewrite Z.land_spec.
    all: destruct (decide (n < 8)) as [Hn|Hn].
    1,3: rewrite Z.mul_pow2_bits_low by lia; done.
    all: rewrite (Z.mod_pow2_bits_high sequence 8 n) by lia; apply andb_false_r.
Qed.

(** ** Lemmas: the text form *)

Lemma hex_digit_val z : 0 ≤ z < 16 → byte_val (hex_digit z) = if z <? 10 then 48 + z else 87 + z.
Proof. intros. unfold hex_digit. apply byte_val_of. destruct (z <? 10); lia. Qed.

Lemma nibble_hex z : 0 ≤ z < 16 → nibble (hex_digit z) = Some z.
Proof.
  intros. unfold nibble. rewrite hex_digit_val by done.
  destruct (Z.ltb_spec z 10); repeat case_match; reflect_bools; try (f_equal; lia);
    repeat match goal with H : (_ && _) = false |- _ => apply andb_false_iff in H as [?|?] end;
    reflect_bools; lia.
Qed.

Lemma nibble_Some c z : nibble c = Some z → 0 ≤ z < 16 ∧ hex_digit z = c.
Proof.
  unfold nibble, hex_digit. intros H. rewrite <-(byte_of_val c).
  repeat case_match; reflect_bools; simplify_eq; (split; [lia|f_equal]);
    destruct (Z.ltb_spec (byte_val c - 48) 10), (Z.ltb_spec (byte_val c - 97 + 10) 10); lia.
Qed.

Lemma hex_digit_dash z : 0 ≤ z < 16 → hex_digit z ≠ DASH.
Proof. intros Hz He. apply (f_equal nibble) in He. by rewrite nibble_hex in He. Qed.

Lemma nibbles_split x : is_u8 x → 0 ≤ Z.shiftr x 4 < 16 ∧ 0 ≤ Z.land x 15 < 16 ∧ x = 16 * Z.shiftr x 4 + Z.land x 15.
Proof.
  unfold is_u8. intros. change 15 with (Z.ones 4). rewrite Z.land_ones, Z.shiftr_div_pow2 by lia.
  change (2 ^ 4) with 16. pose proof (Z.div_mod x 16). pose proof (Z.mod_pos_bound x 16).
  split_and!; lia.
Qed.

Lemma nibbles_join h l : 0 ≤ h < 16 → 0 ≤ l < 16 → Z.lor (Z.shiftl h 4) l = 16 * h + l.
Proof.
  intros. rewrite Z.shiftl_mul_pow2 by lia. rewrite <-Z.lxor_lor, <-Z.add_nocarry_lxor; [lia| |].
  all: apply Z.bits_inj_0; intros n; rewrite Z.land_spec; destruct (decide (n < 4)).
  1,3: rewrite Z.mul_pow2_bits_low by lia; done.
  all: rewrite <-(Z.mod_small l (2 ^ 4)), (Z.mod_pow2_bits_high l 4 n) by lia; apply andb_false_r.
Qed.

Lemma hex2_join h l : 0 ≤ h < 16 → 0 ≤ l < 16 → is_u8 (16 * h + l) ∧ hex2 (16 * h + l) = [hex_digit h; hex_digit l].
Proof.
  intros. assert (is_u8 (16 * h + l)) as Hu by (unfold is_u8; lia). split; [done|].
  destruct (nibbles_split _ Hu) as (? & ? & ?). unfold hex2.
  assert (Z.shiftr (16 * h + l) 4 = h) as -> by lia. by assert (Z.land (16 * h + l) 15 = l) as -> by lia.
Qed.

Definition hex_all (bs : list Z) : bytes := bs ≫= hex2.

Lemma hex_all_length bs : length (hex_all bs) = (2 * length bs)%nat.
Proof. induction bs as [|x bs IH]; [done|]. unfold hex_all in *. csimpl. lia. Qed.

Lemma parse_bytes_hex t bs rest :
  Forall is_u8 bs → parse_bytes t (length bs) (hex_all bs ++ rest) = Ok bs.
Proof.
  induction 1 as [|x bs Hx _ IH]; [done|]. cbn. destruct (nibbles_split x Hx) as (Hh & Hl & He).
  rewrite !nibble_hex by done. fold (hex_all bs). rewrite IH. simpl. by rewrite nibbles_join, <-He.
Qed.

Lemma parse_bytes_Ok t n digits bs :
  parse_bytes t n digits = Ok bs →
  length bs = n ∧ Forall is_u8 bs ∧ ∃ rest, digits = hex_all bs ++ rest.
Proof.
  revert digits bs. induction n as [|n IH]; intros digits bs; simpl.
  { intros [= <-]. split_and!; [done|constructor|]. by exists digits. }
  destruct digits as [|h [|l digits]]; [done..|].
  destruct (nibble h) as [zh|] eqn:Hh, (nibble l) as [zl|] eqn:Hl; try done.
  destruct (parse_bytes t n digits) as [bs'|] eqn:Hp; simpl; [|done]. intros [= <-].
  apply IH in Hp as (Hlen & Hu & rest & ->).
  apply nibble_Some in Hh as [Rh <-]. apply nibble_Some in Hl as [Rl <-].
  rewrite nibbles_join by done. destruct (hex2_join zh zl Rh Rl) as [Hux Hhex].
  split_and!; [simpl; lia|by constructor|]. exists rest.
  unfold hex_all. rewrite bind_cons, Hhex. done.
Qed.

Lemma filter_hex bs : Forall is_u8 bs → filter (λ c, c ≠ DASH) (hex_all bs) = hex_all bs.
Proof.
  induction 1 as [|x bs Hx _ IH]; [done|]. unfold hex_all in *. csimpl.
  destruct (nibbles_split x Hx) as (Hh & Hl & _).
  rewrite !filter_cons_True by (by apply hex_digit_dash). by rewrite IH.
Qed.

(** The four dashes split the text into five groups. *)
Definition groups (s : bytes) : bytes :=
  take 8 s ++ DASH :: take 4 (drop 8 s) ++ DASH :: take 4 (drop 12 s) ++ DASH :: take 4 (drop 16 s)
  ++ DASH :: drop 20 s.

Lemma display_groups bs : length bs = 16%nat → display_from 0 bs = groups (hex_all bs).
Proof. intros H. do 16 (destruct bs as [|? bs]; [done|]). by destruct bs. Qed.

Lemma groups_length s : (20 ≤ length s)%nat → length (groups s) = (4 + length s)%nat.
Proof. intros. unfold groups. repeat (rewrite length_app || rewrite length_take || rewrite length_drop || cbn [length]). lia. Qed.

Lemma groups_concat (s : bytes) :
  s = take 8 s ++ take 4 (drop 8 s) ++ take 4 (drop 12 s) ++ take 4 (drop 16 s) ++ drop 20 s.
Proof.
  rewrite <-(take_drop 8 s) at 1. f_equal. rewrite <-(take_drop 4 (drop 8 s)) at 1. f_equal.
  rewrite drop_drop. change (8 + 4)%nat with 12%nat. rewrite <-(take_drop 4 (drop 12 s)) at 1. f_equal.
  rewrite drop_drop. change (12 + 4)%nat with 16%nat. rewrite <-(take_drop 4 (drop 16 s)) at 1. f_equal.
  by rewrite drop_drop.
Qed.

Lemma groups_filter s : filter (λ c, c ≠ DASH) (groups s) = filter (λ c, c ≠ DASH) s.
Proof.
  transitivity (filter (λ c, c ≠ DASH)
    (take 8 s ++ take 4 (drop 8 s) ++ take 4 (drop 12 s) ++ take 4 (drop 16 s) ++ drop 20 s));
    [|by rewrite <-groups_concat].
  unfold groups. repeat (rewrite filter_app || rewrite filter_cons_False by (intros H; by apply H)). done.
Qed.

Lemma dashed_groups s :
  length s = 36%nat → dash_at s 8 = true → dash_at s 13 = true → dash_at s 18 = true → dash_at s 23 = true →
  ∃ s', length s' = 32%nat ∧ s = groups s'.
Proof.
  intros Hlen. do 36 (destruct s as [|? s]; [done|]). destruct s as [|? s]; [|done].
  unfold dash_at. cbn [lookup list_lookup]. intros H8 H13 H18 H23.
  reflect_bools. simplify_eq.
  match goal with |- ∃ s', _ ∧ ?l = _ =>
    exists (take 8 l ++ take 4 (drop 9 l) ++ take 4 (drop 14 l) ++ take 4 (drop 19 l) ++ drop 24 l) end.
  split; reflexivity.
Qed.

Lemma filter_keeps_length {A} (P : A → Prop) `{!∀ x, Decision (P x)} (l : list A) :
  (length l ≤ length (filter P l))%nat → filter P l = l.
Proof.
  induction l as [|x l IH]; [done|]. pose proof (length_filter P l) as Hle. intros Hl.
  destruct (decide (P x)).
  - rewrite filter_cons_True in * by done. simpl in Hl. f_equal. apply IH. lia.
  - rewrite filter_cons_False in Hl by done. simpl in Hl. lia.
Qed.

Lemma parse_Ok t u : parse t = Ok u ↔ valid u ∧ display u = t.
Proof.
  unfold parse, display. split.
  - destruct (negb _ || _ || _ || _ || _) eqn:Hs; [done|].
    reflect_bools. destruct (dashed_groups (b t)) as (s & Hlen & Hg); [done..|].
    rewrite Hg, groups_filter. destruct (parse_bytes t 16 _) as [bs|] eqn:Hp; simpl; [|done].
    apply parse_bytes_Ok in Hp as (Hbs & Hu & rest & Hf). intros Hfb.
    assert (u = mkUuid bs) as -> by (unfold from_bytes in Hfb; repeat case_match; by simplify_eq).
    split; [done|]. simpl. rewrite display_groups by done. rewrite <-(text_b t), Hg. do 2 f_equal.
    assert (rest = [] ∧ filter (λ c, c ≠ DASH) s = s) as [-> Hfs].
    { pose proof (length_filter (λ c, c ≠ DASH) s) as Hle. pose proof (f_equal length Hf) as Hl.
      rewrite length_app, hex_all_length in Hl. split; [apply nil_length_inv; lia|].
      apply filter_keeps_length. lia. }
    by rewrite Hfs, app_nil_r in Hf.
  - intros [(Hlen & Hu & Hfb) <-]. rewrite b_text, display_groups by done.
    assert (length (hex_all (uuid_bytes u)) = 32%nat) as Hh by (rewrite hex_all_length; lia).
    assert (length (groups (hex_all (uuid_bytes u))) = 36%nat) as -> by (rewrite groups_length; lia).
    rewrite groups_filter, filter_hex by done.
    assert (∀ i, i ∈ [8; 13; 18; 23]%nat → dash_at (groups (hex_all (uuid_bytes u))) i = true) as Hd.
    { intros i Hi. destruct (hex_all (uuid_bytes u)) as [|? l] eqn:E; [done|].
      do 31 (destruct l as [|? l]; [done|]). rewrite !elem_of_cons in Hi.
      destruct_or! Hi; [by subst..|]. by apply elem_of_nil in Hi. }
    rewrite !Hd by set_solver. rewrite bool_decide_true by done. cbn [negb orb].
    rewrite <-(app_nil_r (hex_all _)), <-Hlen, parse_bytes_hex by done. done.
Qed.

(** The order on strings: by their bytes. *)
Definition text_lt (s t : string) : bool := lex_lt (byte_val <$> b s) (byte_val <$> b t).

Lemma hex_digit_order x y :
  0 ≤ x < 16 → 0 ≤ y < 16 →
  (byte_val (hex_digit x) <? byte_val (hex_digit y)) = (x <? y) ∧
  (byte_val (hex_digit x) =? byte_val (hex_digit y)) = (x =? y).
Proof.
  intros. rewrite !hex_digit_val by done. split; apply eq_true_iff_eq;
    rewrite ?Z.ltb_lt, ?Z.eqb_eq; destruct (Z.ltb_spec x 10), (Z.ltb_spec y 10); lia.
Qed.

Lemma hex2_order x y p q :
  is_u8 x → is_u8 y →
  lex_lt (byte_val <$> (hex2 x ++ p)) (byte_val <$> (hex2 y ++ q)) =
  (x <? y) || ((x =? y) && lex_lt (byte_val <$> p) (byte_val <$> q)).
Proof.
  intros Hx Hy. destruct (nibbles_split x Hx) as (Hx1 & Hx2 & Ex). destruct (nibbles_split y Hy) as (Hy1 & Hy2 & Ey).
  unfold hex2. csimpl. destruct (hex_digit_order _ _ Hx1 Hy1) as [-> ->]. destruct (hex_digit_order _ _ Hx2 Hy2) as [-> ->].
  apply eq_true_iff_eq. rewrite !orb_true_iff, !andb_true_iff, !orb_true_iff, !andb_true_iff, !Z.ltb_lt, !Z.eqb_eq.
  clear Hx Hy. generalize dependent (Z.shiftr x 4). generalize dependent (Z.land x 15).
  generalize dependent (Z.shiftr y 4). generalize dependent (Z.land y 15). intros. subst. intuition lia.
Qed.

Lemma display_order i xs ys :
  Forall is_u8 xs → Forall is_u8 ys →
  lex_lt (byte_val <$> display_from i xs) (byte_val <$> display_from i ys) = lex_lt xs ys.
Proof.
  intros Hx. revert i ys. induction Hx as [|x xs Hx _ IH]; intros i [|y ys] Hy; try done.
  - simpl. unfold display_byte. by destruct (decide _).
  - simpl. unfold display_byte. by destruct (decide _).
  - apply list.Forall_cons in Hy as [Hy Hys]. cbn [display_from lex_lt]. unfold display_byte.
    rewrite <-!(assoc_L (++)), !fmap_app, lex_lt_same, <-!fmap_app, hex2_order, IH by done. done.
Qed.

(** ** Lemmas: the generator *)

Definition state_ok (last : Z * Z) : Prop := 0 ≤ last.1 ≤ MAX_MILLIS ∧ 0 ≤ last.2 ≤ MAX_SEQUENCE.

Lemma unix_millis_range t : 0 ≤ unix_millis t ≤ MAX_MILLIS.
Proof.
  unfold unix_millis, NANOS_PER_MILLI. change MAX_MILLIS with 281474976710655.
  repeat case_match; reflect_bools; pose proof (Z.div_pos t 1000000); lia.
Qed.

Lemma advance_ok last now : state_ok last → 0 ≤ now ≤ MAX_MILLIS → state_ok (advance last now).
Proof.
  destruct last as [m s]. unfold state_ok, advance, saturating_add.
  change MAX_MILLIS with 281474976710655. change MAX_SEQUENCE with 4095. simpl. intros.
  unfold U64_MAX in *. repeat case_match; reflect_bools; simpl; lia.
Qed.

(** The state only moves up, unless it has reached its last value. *)
Lemma advance_increases last now :
  state_ok last → 0 ≤ now ≤ MAX_MILLIS → (advance last now).1 < MAX_MILLIS ∨ last.1 < MAX_MILLIS →
  last.1 < (advance last now).1 ∨ last.1 = (advance last now).1 ∧ last.2 < (advance last now).2.
Proof.
  destruct last as [m s]. unfold state_ok, advance, saturating_add.
  change MAX_MILLIS with 281474976710655. change MAX_SEQUENCE with 4095. simpl. intros.
  unfold U64_MAX in *. repeat case_match; reflect_bools; simpl in *; lia.
Qed.

Lemma advance_mono last now : state_ok last → 0 ≤ now ≤ MAX_MILLIS → last.1 ≤ (advance last now).1.
Proof.
  destruct last as [m s]. unfold state_ok, advance, saturating_add.
  change MAX_MILLIS with 281474976710655. change MAX_SEQUENCE with 4095. simpl. intros.
  unfold U64_MAX in *. repeat case_match; reflect_bools; simpl in *; lia.
Qed.

(** A UUID issued at a state: its fields are the state's. *)
Definition issued_at (st : Z * Z) (u : Uuid7) : Prop :=
  valid u ∧ timestamp_millis u = st.1 ∧ sequence u = st.2 ∧
  ∃ top tail, uuid_bytes u = be_bytes 6 st.1 ++ [112 + st.2 `div` 256; st.2 `mod` 256] ++ top :: tail.

Lemma generate_issues last t entropy :
  state_ok last →
  let st := advance last (unix_millis t) in
  state_ok st ∧ ∃ u, generate last t entropy = (Ok u, st) ∧ issued_at st u.
Proof.
  intros H st. pose proof (advance_ok last _ H (unix_millis_range t)) as Hst. fold st in Hst. split; [done|].
  destruct Hst as [Hm Hs]. change MAX_MILLIS with (2 ^ 48 - 1) in Hm. change MAX_SEQUENCE with 4095 in Hs.
  destruct (from_parts_shape st.1 st.2 entropy) as (top & tail & Ht & Hl & Hf & He); [lia..|].
  eexists. unfold generate. fold st. rewrite He. split; [done|].
  destruct (shape_valid st.1 st.2 top tail) as (? & ? & ?); [lia..|done|done|].
  split_and!; try done. by exists top, tail.
Qed.

Lemma issued_order st1 st2 u1 u2 :
  state_ok st1 → state_ok st2 → issued_at st1 u1 → issued_at st2 u2 →
  st1.1 < st2.1 ∨ st1.1 = st2.1 ∧ st1.2 < st2.2 →
  lex_lt (uuid_bytes u1) (uuid_bytes u2) = true.
Proof.
  intros [Hm1 Hs1] [Hm2 Hs2] (_ & _ & _ & top1 & tail1 & ->) (_ & _ & _ & top2 & tail2 & ->) Hlt.
  change MAX_MILLIS with (2 ^ 48 - 1) in *. change MAX_SEQUENCE with 4095 in *.
  destruct Hlt as [Hlt|[-> Hlt]].
  - apply lex_lt_prefix; [by rewrite !be_bytes_length|].
    apply lex_lt_value; [apply be_bytes_u8..|by rewrite !be_bytes_length|].
    rewrite !be_value_bytes. change (256 ^ Z.of_nat 6) with (2 ^ 48). rewrite !Z.mod_small by lia. done.
  - rewrite lex_lt_same. cbn [app lex_lt].
    pose proof (Z.div_mod st1.2 256). pose proof (Z.div_mod st2.2 256).
    pose proof (Z.mod_pos_bound st1.2 256). pose proof (Z.mod_pos_bound st2.2 256).
    destruct (Z.ltb_spec (112 + st1.2 `div` 256) (112 + st2.2 `div` 256)); [done|]. simpl.
    assert (st1.2 `div` 256 = st2.2 `div` 256) as -> by lia. rewrite Z.eqb_refl. simpl.
    apply orb_true_iff. left. apply Z.ltb_lt. lia.
Qed.

Definition state_lt (s1 s2 : Z * Z) : Prop := s1.1 < s2.1 ∨ s1.1 = s2.1 ∧ s1.2 < s2.2.

#[export] Instance state_lt_trans : Transitive state_lt.
Proof. intros [] [] []. unfold state_lt. simpl. lia. Qed.

(** A run issues an id at each of the states it passes through. *)
Lemma generate_all_spec last calls :
  state_ok last →
  ∃ us sts, (generate_all last calls).1 = Ok <$> us ∧
    Forall2 (λ st u, issued_at st u ∧ state_ok st) sts us ∧
    Forall2 (λ c st, unix_millis c.1 ≤ st.1) calls sts ∧
    last.1 ≤ (generate_all last calls).2.1 ∧
    ((generate_all last calls).2.1 < MAX_MILLIS → StronglySorted state_lt (last :: sts)).
Proof.
  revert last. induction calls as [|[t entropy] calls IH]; intros last Hok.
  { exists [], []. cbn. split_and!; try done. intros _. repeat constructor. }
  destruct (generate_issues last t entropy Hok) as (Hst & u & Hg & Hu). cbn [generate_all]. rewrite Hg.
  pose proof (unix_millis_range t) as Hr.
  assert (unix_millis t ≤ (advance last (unix_millis t)).1) as Hnow.
  { destruct last as [m s]. unfold advance. repeat case_match; reflect_bools; simpl in *; [lia|lia|].
    unfold state_ok in Hok. simpl in Hok. unfold saturating_add, U64_MAX. change MAX_MILLIS with 281474976710655 in *. lia. }
  pose proof (advance_mono last _ Hok Hr) as Hmono. pose proof (advance_increases last _ Hok Hr) as Hinc.
  set (st := advance last (unix_millis t)) in *.
  destruct (IH st Hst) as (us & sts & H1 & H2 & H3 & H4 & H5).
  destruct (generate_all st calls) as [rs fin]. simpl in *. exists (u :: us), (st :: sts).
  split_and!; try by constructor.
  - csimpl. by rewrite H1.
  - lia.
  - intros Hfin. specialize (H5 Hfin). assert (state_lt last st) as Hlt by (apply Hinc; lia).
    constructor; [done|]. constructor; [done|].
    inversion H5 as [|? ? _ Hall]; subst. eapply Forall_impl; [exact Hall|]. intros st' ?. by transitivity st.
Qed.

Lemma issued_sorted sts us :
  Forall2 (λ st u, issued_at st u ∧ state_ok st) sts us → StronglySorted state_lt sts →
  StronglySorted (λ u v, lex_lt (uuid_bytes u) (uuid_bytes v) = true) us.
Proof.
  induction 1 as [|st u sts us [Hu Hok] Hrest IH]; intros Hs; [constructor|].
  inversion Hs as [|? ? Hs' Hall]; subst. constructor; [by apply IH|].
  clear IH Hs Hs'. induction Hrest as [|st' u' sts us [Hu' Hok'] _ IH]; [constructor|].
  apply list.Forall_cons in Hall as [Hlt Hall]. constructor; [by eapply (issued_order st st')|by apply IH].
Qed.

Lemma display_text_lt u v :
  valid u → valid v → lex_lt (uuid_bytes u) (uuid_bytes v) = true →
  text_lt (RequestId_display (mkRequestId u)) (RequestId_display (mkRequestId v)) = true.
Proof.
  intros (_ & Hu & _) (_ & Hv & _) Hlt. unfold text_lt, RequestId_display, display.
  rewrite !b_app, !b_text, !fmap_app, lex_lt_same. cbn [request_uuid]. by rewrite display_order.
Qed.

(** ** Properties *)

(** The text form is canonical: a request id parses from exactly one text, the
    one it displays as.  What parses is a well-formed version 7 UUID behind its
    prefix, and every such id parses back to itself. *)
Theorem request_id_round_trip (t : string) (id : RequestId) :
  RequestId_parse t = Ok id ↔ valid (request_uuid id) ∧ RequestId_display id = t.
Proof.
  unfold RequestId_parse, RequestId_display. split.
  - destruct (strip_prefix _ _) as [rest|] eqn:Hp; [|done]. apply strip_prefix_Some in Hp.
    destruct (parse (text rest)) as [u|] eqn:Hu; [|done]. intros [= <-]. apply parse_Ok in Hu as [Hv Ht].
    split; [done|]. simpl. rewrite Ht, <-(text_b t), Hp, <-(text_b (PREFIX +:+ _)), b_app, b_text. done.
  - intros [Hv <-]. rewrite b_app. change (strip_prefix (b PREFIX) (b PREFIX ++ ?x)) with (Some x).
    cbv beta iota. rewrite text_b. assert (parse (display (request_uuid id)) = Ok (request_uuid id)) as -> by (by apply parse_Ok).
    by destruct id.
Qed.

(** Building a UUID: the time and sequence are read back exactly, and a value
    that does not fit its field is refused by name rather than truncated. *)
Theorem uuid_fields (millis seq entropy : Z) :
  0 ≤ millis → 0 ≤ seq →
  match from_parts millis seq entropy with
  | Ok u => valid u ∧ timestamp_millis u = millis ∧ sequence u = seq
  | Err (Timestamp m) => m = millis ∧ 2 ^ 48 ≤ millis
  | Err (Sequence s) => s = seq ∧ 2 ^ 12 ≤ seq
  | Err _ => False
  end.
Proof.
  intros Hm Hs. destruct (decide (millis < 2 ^ 48)) as [H1|H1], (decide (seq < 4096)) as [H2|H2].
  1: { destruct (from_parts_shape millis seq entropy) as (top & tail & ? & ? & ? & ->); [done..|].
       by apply shape_valid. }
  all: unfold from_parts; change (Z.shiftl 1 48) with (2 ^ 48); change (Z.shiftl 1 12) with 4096;
    change (2 ^ 12) with 4096.
  - rewrite (proj2 (Z.leb_gt _ _)), (proj2 (Z.leb_le _ _)) by lia. split; [done|lia].
  - rewrite (proj2 (Z.leb_le _ _)) by lia. split; [done|lia].
  - rewrite (proj2 (Z.leb_le _ _)) by lia. split; [done|lia].
Qed.

(** The generator never panics, whatever the clock does, and its ids are never
    behind the clock.  Until the last representable millisecond they increase
    strictly in the order they are handed out, as bytes and as the text stores
    index, across a clock that stands still or goes backwards. *)
Theorem ids_increase (calls : list (Z * Z)) :
  ∃ us, (generate_all (0, 0) calls).1 = Ok <$> us ∧
    Forall valid us ∧
    Forall2 (λ c u, unix_millis c.1 ≤ timestamp_millis u) calls us ∧
    ((generate_all (0, 0) calls).2.1 < MAX_MILLIS →
     StronglySorted (λ u v, lex_lt (uuid_bytes u) (uuid_bytes v) = true ∧
       text_lt (RequestId_display (mkRequestId u)) (RequestId_display (mkRequestId v)) = true) us).
Proof.
  destruct (generate_all_spec (0, 0) calls) as (us & sts & H1 & H2 & H3 & _ & H5); [done|].
  exists us. assert (Forall valid us) as Hv.
  { eapply Forall2_Forall_r; [exact H2|]. apply Forall_true. by intros st u [[? _] _]. }
  split_and!; [done|done| |].
  - clear -H2 H3. revert us H2. induction H3 as [|c st calls sts Hc _ IH]; intros us H2;
      inversion H2 as [|? u ? us' [(_ & Ht & _) _] Hrest]; subst; constructor; [lia|by apply IH].
  - intros Hfin. specialize (H5 Hfin). inversion H5 as [|? ? Hs _]; subst.
    pose proof (issued_sorted _ _ H2 Hs) as Hsorted. clear -Hv Hsorted.
    induction Hsorted as [|u us _ IH Hall]; [constructor|]. apply list.Forall_cons in Hv as [Hu Hv].
    constructor; [by apply IH|]. apply list.Forall_forall. intros v Hin.
    pose proof (proj1 (list.Forall_forall _ _) Hall v Hin). split; [done|].
    apply display_text_lt; try done. by eapply list.Forall_forall.
Qed.

(** Past its last value the generator goes back: after the last sequence number
    of the last millisecond it hands out an id that sorts before the one it has
    just issued. *)
Theorem exhausted_generator_goes_back (t entropy entropy' : Z) :
  let '(u, st) := generate (MAX_MILLIS, MAX_SEQUENCE - 1) t entropy in
  let '(v, _) := generate st t entropy' in
  st = (MAX_MILLIS, MAX_SEQUENCE) ∧
  match u, v with
  | Ok u, Ok v => lex_lt (uuid_bytes v) (uuid_bytes u) = true
  | _, _ => False
  end.
Proof.
  assert (∀ s, 0 ≤ s ≤ MAX_SEQUENCE → state_ok (MAX_MILLIS, s)) as Hok by (intros; split; simpl; [done|lia]).
  assert (∀ s, s < MAX_SEQUENCE → advance (MAX_MILLIS, s) (unix_millis t) = (MAX_MILLIS, s + 1)) as Hstep.
  { intros s Hs. unfold advance. pose proof (unix_millis_range t).
    by rewrite (proj2 (Z.ltb_ge _ _)), (proj2 (Z.ltb_lt _ _)) by lia. }
  assert (advance (MAX_MILLIS, MAX_SEQUENCE) (unix_millis t) = (MAX_MILLIS, 0)) as Hlast.
  { unfold advance. pose proof (unix_millis_range t). by rewrite (proj2 (Z.ltb_ge _ _)) by lia. }
  destruct (generate_issues _ t entropy (Hok (MAX_SEQUENCE - 1) ltac:(done))) as (Hs1 & u & -> & Hu).
  rewrite Hstep in * by done. change (MAX_SEQUENCE - 1 + 1) with MAX_SEQUENCE in *.
  destruct (generate_issues _ t entropy' (Hok MAX_SEQUENCE ltac:(done))) as (Hs2 & v & -> & Hv).
  rewrite Hlast in *. split; [done|]. eapply (issued_order _ _ v u Hs2 Hs1 Hv Hu). right. done.
Qed.

(** ** Witnesses *)

Lemma uuid_fields_witness :
  match from_parts 1700000000000 7 99 with
  | Ok u => timestamp_millis u = 1700000000000 ∧ sequence u = 7
  | Err _ => False
  end.
Proof. exact (proj2 (uuid_fields 1700000000000 7 99 ltac:(lia) ltac:(lia))). Defined.

(** A clock that goes back a second. *)
Lemma ids_increase_witness :
  ∃ us, length us = 2%nat ∧
    StronglySorted (λ u v, lex_lt (uuid_bytes u) (uuid_bytes v) = true ∧
      text_lt (RequestId_display (mkRequestId u)) (RequestId_display (mkRequestId v)) = true) us.
Proof.
  destruct (ids_increase [(1700000001000000000, 1); (1700000000000000000, 0)]) as (us & Hus & _ & _ & Hs).
  exists us. split.
  - apply (f_equal length) in Hus. rewrite length_fmap in Hus. rewrite <-Hus. vm_compute. reflexivity.
  - apply Hs. vm_compute. reflexivity.
Defined.

End Ids.
