(* ===== verification/Canonical.v ===== *)
(** * Canonical bytes and checksums ([crates/gateway/src/desired_state/canonical.rs],
    [desired_state/resource.rs])

    One byte representation for a state: tagged, length-prefixed, with maps sorted
    by their keys and sets by their members' own encodings.  A byte is an integer
    below 256, a string its UTF-8 bytes.  SHA-256 is a parameter; the decoder,
    which only the tests use, is left out. *)

From stdpp Require Import sorting.
From S2P Require Import Prelude Text Ids.

Module Canonical.
Import Ids.Ids (is_u8, be_bytes, be_value, nibble, hex2, hex_digit).

(** ** Values *)

Inductive CanonicalValue :=
| Bool (value : bool)
| Integer (value : Z)
| Str (value : string)
| Bytes (value : list Z)
| List (items : list CanonicalValue)
| Set_ (members : list CanonicalValue)
| Map (fields : list (string * CanonicalValue)).

Inductive CanonicalError :=
| ControlCharacter (codepoint : Z)
| ByteOrderMark
| DuplicateKey (key : string)
| DuplicateSetMember.

#[export] Instance CanonicalError_eq_dec : EqDecision CanonicalError.
Proof. solve_decision. Defined.

Definition tag (v : CanonicalValue) : Z :=
  match v with
  | Bool _ => 1 | Integer _ => 2 | Str _ => 3 | Bytes _ => 4 | List _ => 5 | Set_ _ => 6 | Map _ => 7
  end.

(** ** Strings *)

Definition str_bytes (s : string) : list Z := byte_val <$> b s.

(** The scalar value of one UTF-8 sequence. *)
Definition codepoint (c : list Z) : Z :=
  match c with
  | [a] => a
  | [a; x] => (a `mod` 32) * 64 + x `mod` 64
  | [a; x; y] => (a `mod` 16) * 4096 + (x `mod` 64) * 64 + y `mod` 64
  | [a; x; y; z] => (a `mod` 8) * 262144 + (x `mod` 64) * 4096 + (y `mod` 64) * 64 + z `mod` 64
  | _ => 65533
  end.

(** [chars], one per round. *)
Fixpoint chars_rounds (rounds : nat) (s : bytes) : list Z :=
  match rounds, s with
  | S rounds, c :: rest =>
      let n := (first_part c rest).1 in
      codepoint (byte_val <$> take n s) :: chars_rounds rounds (drop n s)
  | _, _ => []
  end.

Definition chars (s : string) : list Z := chars_rounds (length (b s)) (b s).

(** [char::is_control]: the general category Cc. *)
Definition is_control (c : Z) : bool := (c <? 32) || ((127 <=? c) && (c <? 160)).

Fixpoint check_chars (cs : list Z) : result CanonicalError unit :=
  match cs with
  | [] => Ok tt
  | c :: cs =>
      if c =? 65279 then Err ByteOrderMark
      else if is_control c then Err (ControlCharacter c)
      else check_chars cs
  end.

Definition check_string (s : string) : result CanonicalError (list Z) :=
  _ ← check_chars (chars s); Ok (str_bytes s).

(** ** Encoding *)

Definition write_len (n : nat) : list Z := be_bytes 8 (Z.of_nat n).

(** Comparison of byte slices. *)
Fixpoint bytes_le (xs ys : list Z) : bool :=
  match xs, ys with
  | [], _ => true
  | _ :: _, [] => false
  | x :: xs, y :: ys => (x <? y) || ((x =? y) && bytes_le xs ys)
  end.

Definition slice_le (xs ys : list Z) : Prop := bytes_le xs ys = true.
#[export] Instance slice_le_dec : RelDecision slice_le.
Proof. intros xs ys. unfold slice_le. apply _. Defined.

(** By length, then content: the order of the keys' own encodings. *)
Definition key_le (s t : string) : Prop :=
  (length (str_bytes s) < length (str_bytes t))%nat ∨
  length (str_bytes s) = length (str_bytes t) ∧ slice_le (str_bytes s) (str_bytes t).
#[export] Instance key_le_dec : RelDecision key_le.
Proof. intros s t. unfold key_le. apply _. Defined.

(** Fields sort by key.  The order of two fields of one key, which the sort leaves
    open and which is refused, is taken to be that of their encodings. *)
Definition field_le (x y : string * list Z) : Prop :=
  x.1 = y.1 ∧ slice_le x.2 y.2 ∨ x.1 ≠ y.1 ∧ key_le x.1 y.1.
#[export] Instance field_le_dec : RelDecision field_le.
Proof. intros x y. unfold field_le. apply _. Defined.

(** [windows(2)]: two neighbours that agree. *)
Fixpoint adjacent {A} `{EqDecision A} (xs : list A) : option A :=
  match xs with
  | x :: (y :: _) as rest => if decide (x = y) then Some x else adjacent rest
  | _ => None
  end.

Definition write_string (s : string) : result CanonicalError (list Z) :=
  bs ← check_string s; Ok (3 :: write_len (length bs) ++ bs).

Definition write_set (encoded : list (list Z)) : result CanonicalError (list Z) :=
  let sorted := merge_sort slice_le encoded in
  match adjacent sorted with
  | Some _ => Err DuplicateSetMember
  | None => Ok (write_len (length sorted) ++ concat sorted)
  end.

Definition write_map (encoded : list (string * list Z)) : result CanonicalError (list Z) :=
  let sorted := merge_sort field_le encoded in
  match adjacent sorted.*1 with
  | Some key => Err (DuplicateKey key)
  | None => Ok (write_len (length sorted) ++ concat sorted.*2)
  end.

Fixpoint write (v : CanonicalValue) : result CanonicalError (list Z) :=
  let all := fix all (vs : list CanonicalValue) : result CanonicalError (list (list Z)) :=
    match vs with [] => Ok [] | v :: vs => x ← write v; xs ← all vs; Ok (x :: xs) end in
  let fields := fix fields (fs : list (string * CanonicalValue)) : result CanonicalError (list (string * list Z)) :=
    match fs with
    | [] => Ok []
    | (k, v) :: fs => key ← write_string k; x ← write v; xs ← fields fs; Ok ((k, key ++ x) :: xs)
    end in
  match v with
  | Bool value => Ok [1; if value then 1 else 0]
  | Integer value => Ok (2 :: be_bytes 16 value)
  | Str value => write_string value
  | Bytes value => Ok (4 :: write_len (length value) ++ value)
  | List items => xs ← all items; Ok (5 :: write_len (length xs) ++ concat xs)
  | Set_ members => xs ← all members; ys ← write_set xs; Ok (6 :: ys)
  | Map fs => xs ← fields fs; ys ← write_map xs; Ok (7 :: ys)
  end.

(** [SerializerVersion::V1] *)
Definition MAGIC : list Z := str_bytes "axond.desired-state" ++ [0].
Definition VERSION_TAG : Z := 1.

Definition encode (v : CanonicalValue) : result CanonicalError (list Z) :=
  x ← write v; Ok (MAGIC ++ VERSION_TAG :: x).

Definition to_canonical_bytes := encode.

(** ** The same state

    What the encoding must and must not distinguish: a list's order is part of it,
    a set's and a record's are not. *)
Inductive same : CanonicalValue → CanonicalValue → Prop :=
| same_bool x : same (Bool x) (Bool x)
| same_integer n : same (Integer n) (Integer n)
| same_str s : same (Str s) (Str s)
| same_bytes bs : same (Bytes bs) (Bytes bs)
| same_list vs ws : Forall2 same vs ws → same (List vs) (List ws)
| same_set vs vs' ws' ws :
    vs ≡ₚ vs' → Forall2 same vs' ws' → ws' ≡ₚ ws → same (Set_ vs) (Set_ ws)
| same_map fs fs' gs' gs :
    fs ≡ₚ fs' → Forall2 (λ f g, f.1 = g.1 ∧ same f.2 g.2) fs' gs' → gs' ≡ₚ gs → same (Map fs) (Map gs).

(** Values the program can hold: 128-bit integers, bytes, lengths of the machine. *)
Inductive representable : CanonicalValue → Prop :=
| rep_bool x : representable (Bool x)
| rep_integer n : -2 ^ 127 ≤ n < 2 ^ 127 → representable (Integer n)
| rep_str s : Z.of_nat (String.length s) < 2 ^ 64 → representable (Str s)
| rep_bytes bs : Z.of_nat (length bs) < 2 ^ 64 → representable (Bytes bs)
| rep_list vs : Z.of_nat (length vs) < 2 ^ 64 → Forall representable vs → representable (List vs)
| rep_set vs : Z.of_nat (length vs) < 2 ^ 64 → Forall representable vs → representable (Set_ vs)
| rep_map fs : Z.of_nat (length fs) < 2 ^ 64 →
    Forall (λ f, Z.of_nat (String.length f.1) < 2 ^ 64 ∧ representable f.2) fs → representable (Map fs).

(** Induction that reaches the members. *)
Section Induction.
Variable P : CanonicalValue → Prop.
Hypothesis Pbool : ∀ x, P (Bool x).
Hypothesis Pint : ∀ n, P (Integer n).
Hypothesis Pstr : ∀ s, P (Str s).
Hypothesis Pbytes : ∀ bs, P (Bytes bs).
Hypothesis Plist : ∀ vs, Forall P vs → P (List vs).
Hypothesis Pset : ∀ vs, Forall P vs → P (Set_ vs).
Hypothesis Pmap : ∀ fs, Forall (λ f, P f.2) fs → P (Map fs).

Fixpoint value_ind' (v : CanonicalValue) : P v :=
  let all := fix all (vs : list CanonicalValue) : Forall P vs :=
    match vs with
    | [] => @List.Forall_nil _ P
    | v :: vs => @List.Forall_cons _ P v vs (value_ind' v) (all vs)
    end in
  let fields := fix fields (fs : list (string * CanonicalValue)) : Forall (λ f, P f.2) fs :=
    match fs with
    | [] => @List.Forall_nil _ (λ f, P f.2)
    | (k, v) :: fs => @List.Forall_cons _ (λ f, P f.2) (k, v) fs (value_ind' v) (fields fs)
    end in
  match v with
  | Bool x => Pbool x | Integer n => Pint n | Str s => Pstr s | Bytes bs => Pbytes bs
  | List vs => Plist vs (all vs) | Set_ vs => Pset vs (all vs) | Map fs => Pmap fs (fields fs)
  end.
End Induction.

(** ** The encoding, by relations *)

Definition encodes (v : CanonicalValue) (x : list Z) : Prop := write v = Ok x.
Definition field_encodes (f : string * CanonicalValue) (e : string * list Z) : Prop :=
  e.1 = f.1 ∧ ∃ key x, write_string f.1 = Ok key ∧ encodes f.2 x ∧ e.2 = key ++ x.

Fixpoint write_all (vs : list CanonicalValue) : result CanonicalError (list (list Z)) :=
  match vs with [] => Ok [] | v :: vs => x ← write v; xs ← write_all vs; Ok (x :: xs) end.

Fixpoint write_fields (fs : list (string * CanonicalValue)) : result CanonicalError (list (string * list Z)) :=
  match fs with
  | [] => Ok []
  | (k, v) :: fs => key ← write_string k; x ← write v; xs ← write_fields fs; Ok ((k, key ++ x) :: xs)
  end.

Lemma write_list vs : write (List vs) = xs ← write_all vs; Ok (5 :: write_len (length xs) ++ concat xs).
Proof. done. Qed.
Lemma write_set_eq vs : write (Set_ vs) = xs ← write_all vs; ys ← write_set xs; Ok (6 :: ys).
Proof. done. Qed.
Lemma write_map_eq fs : write (Map fs) = xs ← write_fields fs; ys ← write_map xs; Ok (7 :: ys).
Proof. done. Qed.

Lemma bind_Ok_inv {E A B} (r : result E A) (k : A → result E B) y :
  r ≫= k = Ok y → ∃ a, r = Ok a ∧ k a = Ok y.
Proof. destruct r; simpl; [eauto|done]. Qed.

Lemma write_all_Ok vs xs : write_all vs = Ok xs ↔ Forall2 encodes vs xs.
Proof.
  split.
  - revert xs. induction vs as [|v vs IH]; intros xs H; simpl in H; [injection H as <-; constructor|].
    apply bind_Ok_inv in H as (x & Hx & H). apply bind_Ok_inv in H as (ys & Hys & H). injection H as <-.
    constructor; [done|by apply IH].
  - induction 1 as [|v x vs xs Hx _ IH]; [done|]. simpl. by rewrite Hx, IH.
Qed.

Lemma write_fields_Ok fs es : write_fields fs = Ok es ↔ Forall2 field_encodes fs es.
Proof.
  split.
  - revert es. induction fs as [|[k v] fs IH]; intros es H; simpl in H; [injection H as <-; constructor|].
    apply bind_Ok_inv in H as (key & Hk & H). apply bind_Ok_inv in H as (x & Hx & H).
    apply bind_Ok_inv in H as (ys & Hys & H). injection H as <-.
    constructor; [split; [done|]; by exists key, x|by apply IH].
  - induction 1 as [|[k v] [k' e] fs es (Hk & key & x & H1 & H2 & H3) _ IH]; [done|]. simpl in *. subst.
    by rewrite H1, H2, IH.
Qed.

(** ** The orders *)

Lemma slice_le_cons x xs y ys : slice_le (x :: xs) (y :: ys) ↔ x < y ∨ x = y ∧ slice_le xs ys.
Proof. unfold slice_le. simpl. rewrite orb_true_iff, andb_true_iff, Z.ltb_lt, Z.eqb_eq. done. Qed.

#[export] Instance slice_le_total : Total slice_le.
Proof.
  intros xs. induction xs as [|x xs IH]; intros [|y ys]; [by left|by left|by right|].
  rewrite !slice_le_cons. destruct (Z.lt_trichotomy x y) as [?|[->|?]]; [by left; left| |by right; left].
  destruct (IH ys); [left|right]; auto.
Qed.
#[export] Instance slice_le_trans : Transitive slice_le.
Proof.
  intros xs. induction xs as [|x xs IH]; intros [|y ys] [|z zs]; try done. rewrite !slice_le_cons.
  intros [?|[-> H1]] [?|[-> H2]]; [left; lia|by left|by left|]. right. split; [done|]. by eapply IH.
Qed.
#[export] Instance slice_le_antisymm : AntiSymm eq slice_le.
Proof.
  intros xs. induction xs as [|x xs IH]; intros [|y ys]; try done. rewrite !slice_le_cons.
  intros [?|[-> H1]] [?|[? H2]]; try lia. f_equal. by apply IH.
Qed.

Lemma str_bytes_inj s t : str_bytes s = str_bytes t → s = t.
Proof.
  unfold str_bytes. intros H. rewrite <-(text_b s), <-(text_b t). f_equal.
  apply (f_equal (map byte_of)) in H. rewrite !map_map in H.
  assert (∀ l, map (λ c, byte_of (byte_val c)) l = l) as Hid.
  { induction l as [|c l IH]; [done|]. simpl. by rewrite byte_of_val, IH. }
  by rewrite !Hid in H.
Qed.

#[export] Instance key_le_total : Total key_le.
Proof.
  intros s t. unfold key_le. destruct (Nat.lt_trichotomy (length (str_bytes s)) (length (str_bytes t))) as [?|[He|?]];
    [by left; left| |by right; left]. destruct (total slice_le (str_bytes s) (str_bytes t)); [left|right]; right; auto.
Qed.
#[export] Instance key_le_trans : Transitive key_le.
Proof.
  intros s t u. unfold key_le. intros [?|[He1 H1]] [?|[He2 H2]]; [left; lia..|]. right. split; [lia|].
  by transitivity (str_bytes t).
Qed.
#[export] Instance key_le_antisymm : AntiSymm eq key_le.
Proof.
  intros s t. unfold key_le. intros [?|[He1 H1]] [?|[He2 H2]]; [lia..|].
  apply str_bytes_inj. by apply (anti_symm slice_le).
Qed.

#[export] Instance field_le_total : Total field_le.
Proof.
  intros [k x] [k' y]. unfold field_le. simpl. destruct (decide (k = k')) as [->|Hne].
  - destruct (total slice_le x y); auto.
  - destruct (total key_le k k'); auto.
Qed.
#[export] Instance field_le_trans : Transitive field_le.
Proof.
  intros [k x] [k' y] [k'' z]. unfold field_le. simpl. intros [[<- H1]|[Hn1 H1]] [[<- H2]|[Hn2 H2]]; auto.
  - left. split; [done|]. by transitivity y.
  - right. assert (key_le k k'') as H by (by transitivity k'). split; [|done]. intros ->.
    apply Hn1. by apply (anti_symm key_le).
Qed.
#[export] Instance field_le_antisymm : AntiSymm eq field_le.
Proof.
  intros [k x] [k' y]. unfold field_le. simpl. intros [[<- H1]|[Hn1 H1]] [[H2 H3]|[Hn2 H2]]; subst; try done.
  - f_equal. by apply (anti_symm slice_le).
  - destruct Hn1. by apply (anti_symm key_le).
Qed.

(** What is sorted does not depend on the order it came in. *)
Lemma sort_unique {A} (R : relation A) `{!RelDecision R, !Transitive R, !Total R, !AntiSymm eq R} xs ys :
  xs ≡ₚ ys → merge_sort R xs = merge_sort R ys.
Proof.
  intros H. apply (StronglySorted_unique R); [by apply StronglySorted_merge_sort|by apply StronglySorted_merge_sort|].
  by rewrite !merge_sort_Permutation.
Qed.

(** ** Equal states have equal bytes *)

Lemma Forall2_perm {A B} (R : A → B → Prop) xs xs' ys :
  Forall2 R xs ys → xs ≡ₚ xs' → ∃ ys', ys ≡ₚ ys' ∧ Forall2 R xs' ys'.
Proof.
  intros H Hp. destruct (Permutation_Forall2 Hp H) as (ys' & H1 & H2). by exists ys'.
Qed.

Definition bytes_follow (v : CanonicalValue) : Prop := ∀ w x, same v w → write v = Ok x → write w = Ok x.

Lemma members_follow vs ws xs :
  Forall bytes_follow vs → Forall2 same vs ws → Forall2 encodes vs xs → Forall2 encodes ws xs.
Proof.
  intros H Hs. revert xs. induction Hs as [|v w vs ws Hv _ IH]; intros xs Hx; inversion Hx; subst; constructor.
  - apply list.Forall_cons in H as [H _]. by eapply H.
  - apply list.Forall_cons in H as [_ H]. by apply IH.
Qed.

Lemma fields_follow fs gs es :
  Forall (λ f, bytes_follow f.2) fs → Forall2 (λ f g, f.1 = g.1 ∧ same f.2 g.2) fs gs →
  Forall2 field_encodes fs es → Forall2 field_encodes gs es.
Proof.
  intros H Hs. revert es. induction Hs as [|f g fs gs [Hk Hv] _ IH]; intros es Hx;
    inversion Hx as [|? e ? es' He Hes]; subst; constructor.
  - destruct He as (H1 & key & x & H2 & H3 & H4).
    apply list.Forall_cons in H as [H _]. split; [congruence|]. exists key, x. rewrite <-Hk.
    split_and!; [done| |done]. by eapply H.
  - apply list.Forall_cons in H as [_ H]. by apply IH.
Qed.

Lemma same_inv v w :
  same v w →
  match v with
  | List vs => ∃ ws, w = List ws ∧ Forall2 same vs ws
  | Set_ vs => ∃ vs' ws' ws, w = Set_ ws ∧ vs ≡ₚ vs' ∧ Forall2 same vs' ws' ∧ ws' ≡ₚ ws
  | Map fs => ∃ fs' gs' gs, w = Map gs ∧ fs ≡ₚ fs' ∧ Forall2 (λ f g, f.1 = g.1 ∧ same f.2 g.2) fs' gs' ∧ gs' ≡ₚ gs
  | v => w = v
  end.
Proof. destruct 1; eauto 10. Qed.

Lemma same_bytes_follow v : bytes_follow v.
Proof.
  induction v as [x|n|s|bs|vs IH|vs IH|fs IH] using value_ind'; intros w x' Hsame Hx; apply same_inv in Hsame;
    [by subst..| | |].
  - destruct Hsame as (ws & -> & Hf).
    rewrite write_list in *. apply bind_Ok_inv in Hx as (xs & Hxs & Hx). apply write_all_Ok in Hxs.
    rewrite (proj2 (write_all_Ok ws xs)); [done|]. by eapply members_follow.
  - destruct Hsame as (vs' & ws' & ws & -> & Hp1 & Hf & Hp2).
    rewrite write_set_eq in *. apply bind_Ok_inv in Hx as (xs & Hxs & Hx). apply write_all_Ok in Hxs.
    destruct (Forall2_perm _ _ _ _ Hxs Hp1) as (xs' & Hp & Hxs').
    assert (Forall2 encodes ws' xs') as Hws by (eapply members_follow; [|done|done]; by rewrite <-Hp1).
    destruct (Forall2_perm _ _ _ _ Hws Hp2) as (ys & Hp' & Hys).
    rewrite (proj2 (write_all_Ok ws ys)) by done. simpl. unfold write_set in *.
    rewrite <-(sort_unique slice_le xs ys); [done|]. by transitivity xs'.
  - destruct Hsame as (fs' & gs' & gs & -> & Hp1 & Hf & Hp2).
    rewrite write_map_eq in *. apply bind_Ok_inv in Hx as (es & Hes & Hx). apply write_fields_Ok in Hes.
    destruct (Forall2_perm _ _ _ _ Hes Hp1) as (es' & Hp & Hes').
    assert (Forall2 field_encodes gs' es') as Hgs by (eapply fields_follow; [|done|done]; by rewrite <-Hp1).
    destruct (Forall2_perm _ _ _ _ Hgs Hp2) as (ys & Hp' & Hys).
    rewrite (proj2 (write_fields_Ok gs ys)) by done. simpl. unfold write_map in *.
    rewrite <-(sort_unique field_le es ys); [done|]. by transitivity es'.
Qed.

(** ** Equal bytes have equal states *)

Lemma Ok_inv {E} (x y : Z) l k : @Ok E (list Z) (x :: l) = Ok (y :: k) → l = k.
Proof. by intros [= _ ->]. Qed.
Lemma Ok_eq {E A} (x y : A) : @Ok E A x = Ok y → x = y.
Proof. by intros [= ->]. Qed.
Lemma cons_inv (x y : Z) l k : x :: l = y :: k → x = y ∧ l = k.
Proof. by intros [= -> ->]. Qed.

Lemma write_tag v x : write v = Ok x → ∃ y, x = tag v :: y.
Proof.
  destruct v as [x0|n|s|bs|vs|vs|fs]; simpl; intros H; try (injection H as <-; by eexists).
  - unfold write_string in H. apply bind_Ok_inv in H as (bs & _ & H). injection H as <-. by eexists.
  - apply bind_Ok_inv in H as (xs & _ & H). injection H as <-. by eexists.
  - apply bind_Ok_inv in H as (xs & _ & H). apply bind_Ok_inv in H as (ys & _ & H). injection H as <-. by eexists.
  - apply bind_Ok_inv in H as (xs & _ & H). apply bind_Ok_inv in H as (ys & _ & H). injection H as <-. by eexists.
Qed.

Lemma be_bytes_inj n x y r r' :
  be_bytes n x ++ r = be_bytes n y ++ r' → x `mod` 256 ^ Z.of_nat n = y `mod` 256 ^ Z.of_nat n ∧ r = r'.
Proof.
  intros H. apply app_inj_1 in H as [H ->]; [|by rewrite !Ids.Ids.be_bytes_length].
  by rewrite <-!Ids.Ids.be_value_bytes, H.
Qed.

Lemma write_len_inj n m r r' :
  Z.of_nat n < 2 ^ 64 → Z.of_nat m < 2 ^ 64 → write_len n ++ r = write_len m ++ r' → n = m ∧ r = r'.
Proof.
  intros Hn Hm H. apply be_bytes_inj in H as [H ->]. change (256 ^ Z.of_nat 8) with (2 ^ 64) in H.
  rewrite !Z.mod_small in H by lia. split; [lia|done].
Qed.

Lemma prefixed_inj (xs ys r r' : list Z) :
  Z.of_nat (length xs) < 2 ^ 64 → Z.of_nat (length ys) < 2 ^ 64 →
  (write_len (length xs) ++ xs) ++ r = (write_len (length ys) ++ ys) ++ r' → xs = ys ∧ r = r'.
Proof.
  intros Hx Hy H. rewrite <-!app_assoc in H. apply write_len_inj in H as [Hl H]; [|done..].
  by apply app_inj_1 in H.
Qed.

Lemma str_bytes_length s : length (str_bytes s) = String.length s.
Proof.
  unfold str_bytes. rewrite length_fmap. unfold b. induction s as [|c s IH]; [done|]. simpl. by rewrite IH.
Qed.

Lemma write_string_Ok s x : write_string s = Ok x → x = 3 :: write_len (length (str_bytes s)) ++ str_bytes s.
Proof.
  unfold write_string, check_string. intros H. apply bind_Ok_inv in H as (bs & H1 & H). injection H as <-.
  apply bind_Ok_inv in H1 as (u & _ & H1). by injection H1 as <-.
Qed.

Lemma write_string_inj s t x y r r' :
  Z.of_nat (String.length s) < 2 ^ 64 → Z.of_nat (String.length t) < 2 ^ 64 →
  write_string s = Ok x → write_string t = Ok y → x ++ r = y ++ r' → s = t ∧ r = r'.
Proof.
  intros Hs Ht Hx Hy H. apply write_string_Ok in Hx, Hy. subst. rewrite <-!app_comm_cons in H. apply cons_inv in H as [_ H].
  apply prefixed_inj in H as [H ->]; [|by rewrite str_bytes_length..]. split; [|done]. by apply str_bytes_inj.
Qed.

Lemma signed_inj n m :
  -2 ^ 127 ≤ n < 2 ^ 127 → -2 ^ 127 ≤ m < 2 ^ 127 → n `mod` 2 ^ 128 = m `mod` 2 ^ 128 → n = m.
Proof.
  intros Hn Hm H. pose proof (Z.div_mod n (2 ^ 128) ltac:(lia)). pose proof (Z.div_mod m (2 ^ 128) ltac:(lia)).
  assert (n - m = 2 ^ 128 * (n `div` 2 ^ 128 - m `div` 2 ^ 128)) by lia.
  assert (n `div` 2 ^ 128 - m `div` 2 ^ 128 = 0) by lia. lia.
Qed.

(** The encoding of one value tells where it ends, and which state it is. *)
Definition parses (v : CanonicalValue) : Prop := ∀ w x y r r',
  representable v → representable w → write v = Ok x → write w = Ok y → x ++ r = y ++ r' → same v w ∧ r = r'.

Lemma members_parse vs : Forall parses vs → ∀ ws xs ys r r',
  Forall representable vs → Forall representable ws → Forall2 encodes vs xs → Forall2 encodes ws ys →
  length vs = length ws → concat xs ++ r = concat ys ++ r' → Forall2 same vs ws ∧ r = r'.
Proof.
  induction 1 as [|v vs Hv _ IH]; intros [|w ws] xs ys r r' Rv Rw Hx Hy Hl H; try done;
    inversion Hx; inversion Hy; subst; [done|]. simpl in H. rewrite <-!app_assoc in H.
  apply list.Forall_cons in Rv as [Rv Rvs]. apply list.Forall_cons in Rw as [Rw Rws].
  eapply Hv in H as [Hs H]; [|done..]. simpl in Hl. injection Hl as Hl.
  eapply IH in H as [Hss ->]; [|done..]. split; [by constructor|done].
Qed.

Lemma fields_parse fs : Forall (λ f, parses f.2) fs → ∀ gs es ds r r',
  Forall (λ f, Z.of_nat (String.length f.1) < 2 ^ 64 ∧ representable f.2) fs →
  Forall (λ f, Z.of_nat (String.length f.1) < 2 ^ 64 ∧ representable f.2) gs →
  Forall2 field_encodes fs es → Forall2 field_encodes gs ds →
  length fs = length gs → concat es.*2 ++ r = concat ds.*2 ++ r' →
  Forall2 (λ f g, f.1 = g.1 ∧ same f.2 g.2) fs gs ∧ r = r'.
Proof.
  induction 1 as [|f fs Hf _ IH]; intros [|g gs] es ds r r' Rf Rg He Hd Hl H; try done;
    inversion He as [|? e ? es' Hfe Hes]; inversion Hd as [|? d ? ds' Hgd Hds]; subst; [done|].
  destruct Hfe as (_ & kf & xf & F1 & F2 & F3). destruct Hgd as (_ & kg & xg & G1 & G2 & G3).
  csimpl in H. rewrite F3, G3, <-!app_assoc in H.
  apply list.Forall_cons in Rf as [[Rk Rv] Rfs]. apply list.Forall_cons in Rg as [[Rk' Rv'] Rgs].
  apply (write_string_inj f.1 g.1) in H as [Hk H]; [|done..]. apply (Hf g.2) in H as [Hs H]; [|done..].
  simpl in Hl. injection Hl as Hl. eapply IH in H as [Hss ->]; [|done..]. split; [by constructor|done].
Qed.

Lemma encodings_parse v : parses v.
Proof.
  induction v as [x0|n|s|bs|vs IH|vs IH|fs IH] using value_ind'; intros w x y r r' Rv Rw Hx Hy H.
  all: destruct (write_tag _ _ Hx) as [x1 ->], (write_tag _ _ Hy) as [y1 ->]; rewrite <-!app_comm_cons in H; apply cons_inv in H as [Ht H].
  all: destruct w as [x2|m|t|cs|ws|ws|gs]; try discriminate Ht; inversion Rv; inversion Rw; subst.
  - apply Ok_inv in Hx as <-. apply Ok_inv in Hy as <-. apply cons_inv in H as [H ->].
    split; [|done]. destruct x0, x2; try done; constructor.
  - apply Ok_inv in Hx as <-. apply Ok_inv in Hy as <-. apply be_bytes_inj in H as [H ->].
    change (256 ^ Z.of_nat 16) with (2 ^ 128) in H. split; [|done]. assert (n = m) as ->; [|constructor].
    by eapply signed_inj.
  - destruct (write_string_inj s t _ _ r r' ltac:(done) ltac:(done) Hx Hy) as [-> ->]; [|split; [constructor|done]].
    exact (f_equal (cons 3) H).
  - apply Ok_inv in Hx as <-. apply Ok_inv in Hy as <-. apply prefixed_inj in H as [-> ->]; [|done..].
    split; [constructor|done].
  - rewrite write_list in Hx, Hy. apply bind_Ok_inv in Hx as (xs & Hxs & Hx). apply bind_Ok_inv in Hy as (ys & Hys & Hy).
    apply Ok_inv in Hx as <-. apply Ok_inv in Hy as <-. apply write_all_Ok in Hxs, Hys.
    pose proof (Forall2_length _ _ _ Hxs) as L1. pose proof (Forall2_length _ _ _ Hys) as L2.
    rewrite <-!app_assoc in H. apply write_len_inj in H as [Hl H]; [|lia..].
    eapply members_parse in H as [Hss ->]; [|done..|congruence]. split; [by constructor|done].
  - rewrite write_set_eq in Hx, Hy. apply bind_Ok_inv in Hx as (xs & Hxs & Hx). apply bind_Ok_inv in Hy as (ys & Hys & Hy).
    apply bind_Ok_inv in Hx as (xs' & Hsx & Hx). apply bind_Ok_inv in Hy as (ys' & Hsy & Hy).
    apply Ok_inv in Hx as <-. apply Ok_inv in Hy as <-. apply write_all_Ok in Hxs, Hys.
    unfold write_set in Hsx, Hsy. repeat case_match; try done. 
    apply Ok_eq in Hsx as <-. apply Ok_eq in Hsy as <-.
    pose proof (Forall2_length _ _ _ Hxs) as L1. pose proof (Forall2_length _ _ _ Hys) as L2.
    pose proof (merge_sort_Permutation slice_le xs) as P1. pose proof (merge_sort_Permutation slice_le ys) as P2.
    rewrite (Permutation_length P1), (Permutation_length P2), <-!app_assoc in H.
    apply write_len_inj in H as [Hl H]; [|lia..].
    destruct (Forall2_perm (flip encodes) xs _ vs ltac:(by apply Forall2_flip) (symmetry P1)) as (vs' & Q1 & E1).
    destruct (Forall2_perm (flip encodes) ys _ ws ltac:(by apply Forall2_flip) (symmetry P2)) as (ws' & Q2 & E2).
    eapply (members_parse vs') in H as [Hss ->]; [split; [by eapply same_set|done]|..];
      [by rewrite <-Q1|by rewrite <-Q1|by rewrite <-Q2|by apply Forall2_flip|by apply Forall2_flip|].
    rewrite <-(Permutation_length Q1), <-(Permutation_length Q2). congruence.
  - rewrite write_map_eq in Hx, Hy. apply bind_Ok_inv in Hx as (xs & Hxs & Hx). apply bind_Ok_inv in Hy as (ys & Hys & Hy).
    apply bind_Ok_inv in Hx as (xs' & Hsx & Hx). apply bind_Ok_inv in Hy as (ys' & Hsy & Hy).
    apply Ok_inv in Hx as <-. apply Ok_inv in Hy as <-. apply write_fields_Ok in Hxs, Hys.
    unfold write_map in Hsx, Hsy. repeat case_match; try done. 
    apply Ok_eq in Hsx as <-. apply Ok_eq in Hsy as <-.
    pose proof (Forall2_length _ _ _ Hxs) as L1. pose proof (Forall2_length _ _ _ Hys) as L2.
    pose proof (merge_sort_Permutation field_le xs) as P1. pose proof (merge_sort_Permutation field_le ys) as P2.
    rewrite (Permutation_length P1), (Permutation_length P2), <-!app_assoc in H.
    apply write_len_inj in H as [Hl H]; [|lia..].
    destruct (Forall2_perm (flip field_encodes) xs _ fs ltac:(by apply Forall2_flip) (symmetry P1)) as (fs' & Q1 & E1).
    destruct (Forall2_perm (flip field_encodes) ys _ gs ltac:(by apply Forall2_flip) (symmetry P2)) as (gs' & Q2 & E2).
    eapply (fields_parse fs') in H as [Hss ->]; [split; [by eapply same_map|done]|..];
      [by rewrite <-Q1|by rewrite <-Q1|by rewrite <-Q2|by apply Forall2_flip|by apply Forall2_flip|].
    rewrite <-(Permutation_length Q1), <-(Permutation_length Q2). congruence.
Qed.

(** ** What has a canonical form *)

(** Clean strings, no two members of a set the same, no key twice. *)
Inductive canonical_form : CanonicalValue → Prop :=
| form_bool x : canonical_form (Bool x)
| form_integer n : canonical_form (Integer n)
| form_str s : is_ok (check_string s) = true → canonical_form (Str s)
| form_bytes bs : canonical_form (Bytes bs)
| form_list vs : Forall canonical_form vs → canonical_form (List vs)
| form_set vs :
    Forall canonical_form vs → (∀ i j v w, i ≠ j → vs !! i = Some v → vs !! j = Some w → ¬ same v w) →
    canonical_form (Set_ vs)
| form_map fs :
    Forall (λ f, is_ok (check_string f.1) = true ∧ canonical_form f.2) fs → NoDup fs.*1 → canonical_form (Map fs).

Lemma adjacent_sorted {A} `{EqDecision A} (R : relation A) `{!Transitive R, !AntiSymm eq R} xs :
  StronglySorted R xs → adjacent xs = None ↔ NoDup xs.
Proof.
  induction 1 as [|x xs Hs IH Hx]; [by split; constructor|].
  destruct xs as [|y xs]; [split; [|done]; intros _; apply NoDup_singleton|].
  cbn [adjacent]. rewrite NoDup_cons. case_decide as Hxy.
  - split; [done|]. intros [Hin _]. destruct Hin. subst. left.
  - rewrite IH. split; [|by intros [_ ?]]. intros Hn. split; [|done]. intros Hin.
    apply elem_of_cons in Hin as [?|Hin]; [done|]. apply list.Forall_cons in Hx as [Hxy' Hx].
    apply StronglySorted_inv in Hs as [_ Hy]. destruct Hxy. apply (anti_symm R); [done|].
    by eapply (proj1 (list.Forall_forall _ _)) in Hy.
Qed.

Lemma write_set_is_ok xs : is_ok (write_set xs) = true ↔ NoDup xs.
Proof.
  unfold write_set. rewrite <-(merge_sort_Permutation slice_le xs) at 2.
  rewrite <-(adjacent_sorted slice_le); [by destruct (adjacent _)|]. apply (StronglySorted_merge_sort slice_le).
Qed.

Lemma field_sorted_keys es : StronglySorted field_le es → StronglySorted key_le es.*1.
Proof.
  induction 1 as [|e es _ IH He]; csimpl; constructor; [done|]. apply Forall_fmap. eapply Forall_impl; [exact He|].
  intros f [[Hk _]|[_ ?]]; [|done]. simpl. rewrite Hk. by destruct (total key_le f.1 f.1).
Qed.

Lemma write_map_is_ok es : is_ok (write_map es) = true ↔ NoDup es.*1.
Proof.
  unfold write_map. rewrite <-(merge_sort_Permutation field_le es) at 2.
  rewrite <-(adjacent_sorted key_le); [by destruct (adjacent _)|].
  apply field_sorted_keys, (StronglySorted_merge_sort field_le).
Qed.

Lemma is_ok_bind {E A B} (r : result E A) (k : A → result E B) :
  is_ok (r ≫= k) = true ↔ ∃ a, r = Ok a ∧ is_ok (k a) = true.
Proof. destruct r; simpl; [naive_solver|]. split; [done|]. by intros (? & ? & ?). Qed.

Lemma is_ok_Ok {E A} (r : result E A) : is_ok r = true ↔ ∃ a, r = Ok a.
Proof. destruct r; simpl; naive_solver. Qed.

(** On representable values that encode, the encodings agree exactly when the states
    do. *)
Lemma encodings_same v w x y :
  representable v → representable w → write v = Ok x → write w = Ok y → x = y ↔ same v w.
Proof.
  intros Rv Rw Hx Hy. split.
  - intros ->. by destruct (encodings_parse v w y y [] [] Rv Rw Hx Hy).
  - intros Hs. apply (same_bytes_follow v w x Hs) in Hx. congruence.
Qed.

Lemma members_distinct vs xs :
  Forall representable vs → Forall2 encodes vs xs →
  NoDup xs ↔ ∀ i j v w, i ≠ j → vs !! i = Some v → vs !! j = Some w → ¬ same v w.
Proof.
  intros Rv Hx. rewrite NoDup_alt. split.
  - intros Hn i j v w Hij Hi Hj Hs.
    destruct (Forall2_lookup_l _ _ _ _ _ Hx Hi) as (x & Hxi & Hex). destruct (Forall2_lookup_l _ _ _ _ _ Hx Hj) as (y & Hxj & Hey).
    destruct Hij. apply (Hn i j x); [done|]. rewrite Hxj. f_equal. symmetry.
    eapply encodings_same; [..|exact Hs]; try done; by eapply (proj1 (Forall_lookup _ _)).
  - intros Hd i j x Hi Hj. destruct (decide (i = j)) as [|Hij]; [done|]. exfalso.
    destruct (Forall2_lookup_r _ _ _ _ _ Hx Hi) as (v & Hvi & Hev). destruct (Forall2_lookup_r _ _ _ _ _ Hx Hj) as (w & Hwj & Hew).
    apply (Hd i j v w); try done. eapply (encodings_same v w x x); try done; by eapply (proj1 (Forall_lookup _ _)).
Qed.

Lemma Forall2_exists {A B} (R : A → B → Prop) (P : A → Prop) xs :
  (∀ x, x ∈ xs → P x → ∃ y, R x y) → Forall P xs → ∃ ys, Forall2 R xs ys.
Proof.
  intros H HP. revert H. induction HP as [|x xs Hx _ IH]; intros H; [exists []; constructor|].
  destruct (H x ltac:(left) Hx) as [y Hy]. destruct IH as [ys Hys]; [intros; apply H; [by right|done]|].
  exists (y :: ys). by constructor.
Qed.

Definition form_spec (v : CanonicalValue) : Prop := representable v → is_ok (write v) = true ↔ canonical_form v.

Lemma all_forms vs :
  Forall form_spec vs → Forall representable vs → (∃ xs, Forall2 encodes vs xs) ↔ Forall canonical_form vs.
Proof.
  intros IH R. rewrite list.Forall_forall in IH. split.
  - intros [xs Hx]. apply list.Forall_forall. intros v Hv. apply (IH v Hv); [by eapply (proj1 (list.Forall_forall _ _)) in R|].
    apply is_ok_Ok. apply list_elem_of_lookup in Hv as [i Hi]. destruct (Forall2_lookup_l _ _ _ _ _ Hx Hi) as (x & _ & Hex).
    by exists x.
  - intros Hf. eapply Forall2_exists; [|exact Hf]. intros v Hv Hc. apply is_ok_Ok.
    apply (IH v Hv); [by eapply (proj1 (list.Forall_forall _ _)) in R|done].
Qed.

Lemma fields_keys fs es : Forall2 field_encodes fs es → es.*1 = fs.*1.
Proof. induction 1 as [|f e fs es [He _] _ IH]; [done|]. csimpl. by rewrite He, IH. Qed.

Lemma all_field_forms fs :
  Forall (λ f, form_spec f.2) fs → Forall (λ f, Z.of_nat (String.length f.1) < 2 ^ 64 ∧ representable f.2) fs →
  (∃ es, Forall2 field_encodes fs es) ↔ Forall (λ f, is_ok (check_string f.1) = true ∧ canonical_form f.2) fs.
Proof.
  intros IH R. rewrite list.Forall_forall in IH. rewrite list.Forall_forall in R. split.
  - intros [es He]. apply list.Forall_forall. intros f Hf. destruct (R f Hf) as [_ Rf].
    apply list_elem_of_lookup in Hf as Hi. destruct Hi as [i Hi].
    destruct (Forall2_lookup_l _ _ _ _ _ He Hi) as (e & _ & _ & key & x & H1 & H2 & _). split.
    + unfold write_string in H1. by destruct (check_string f.1).
    + apply (IH f Hf Rf). apply is_ok_Ok. by exists x.
  - intros Hf. eapply Forall2_exists; [|exact Hf]. intros f Hin [Hk Hc]. destruct (R f Hin) as [_ Rf].
    apply is_ok_Ok in Hk as [bs Hk]. apply (IH f Hin Rf), is_ok_Ok in Hc as [x Hx].
    exists (f.1, (3 :: write_len (length bs) ++ bs) ++ x). split; [done|].
    exists (3 :: write_len (length bs) ++ bs), x. unfold write_string. by rewrite Hk.
Qed.

Lemma canonical_form_spec v : form_spec v.
Proof.
  induction v as [x0|n|s|bs|vs IH|vs IH|fs IH] using value_ind'; intros R; inversion R; subst;
    try (by split; [constructor|]).
  - unfold write, write_string. split.
    + intros H. constructor. by destruct (check_string s).
    + intros H. inversion H. by destruct (check_string s).
  - rewrite write_list, is_ok_bind. split.
    + intros (xs & Hx%write_all_Ok & _). constructor. apply all_forms; eauto.
    + intros Hf. inversion Hf; subst. destruct (proj2 (all_forms vs IH ltac:(done)) ltac:(done)) as [xs Hx].
      exists xs. split; [by apply write_all_Ok|done].
  - rewrite write_set_eq, is_ok_bind. split.
    + intros (xs & Hx%write_all_Ok & Hok). apply is_ok_bind in Hok as (ys & Hys & _).
      constructor; [apply all_forms; eauto|]. apply (members_distinct vs xs); [done|done|].
      apply write_set_is_ok. by rewrite Hys.
    + intros Hf. inversion Hf; subst. destruct (proj2 (all_forms vs IH ltac:(done)) ltac:(done)) as [xs Hx].
      exists xs. split; [by apply write_all_Ok|]. apply is_ok_bind.
      assert (is_ok (write_set xs) = true) as [ys ->]%is_ok_Ok; [|by exists ys].
      apply write_set_is_ok. by apply (members_distinct vs xs).
  - rewrite write_map_eq, is_ok_bind. split.
    + intros (es & He%write_fields_Ok & Hok). apply is_ok_bind in Hok as (ys & Hys & _).
      constructor; [apply all_field_forms; eauto|]. rewrite <-(fields_keys _ _ He).
      apply write_map_is_ok. by rewrite Hys.
    + intros Hf. inversion Hf; subst. destruct (proj2 (all_field_forms fs IH ltac:(done)) ltac:(done)) as [es He].
      exists es. split; [by apply write_fields_Ok|]. apply is_ok_bind.
      assert (is_ok (write_map es) = true) as [ys ->]%is_ok_Ok; [|by exists ys].
      apply write_map_is_ok. by rewrite (fields_keys _ _ He).
Qed.

(** ** Checksums

    A digest is 32 bytes. *)

Section Checksum.
Variable sha256 : list Z → list Z.

Definition CHECKSUM_ALGORITHM : string := "sha256".

Definition Checksum_of (payload : list Z) : list Z := sha256 payload.

Definition checksum (v : CanonicalValue) : result CanonicalError (list Z) :=
  bs ← to_canonical_bytes v; Ok (Checksum_of bs).

Inductive InvalidChecksum := Algorithm (t : string) | Digits (t : string).

(** [chunks_exact(2)] *)
Fixpoint digit_pairs (ds : list Z) : list Z :=
  match ds with
  | high :: low :: ds => Z.lor (Z.shiftl high 4) low :: digit_pairs ds
  | _ => []
  end.

Definition Checksum_parse (t : string) : result InvalidChecksum (list Z) :=
  match strip_prefix (b CHECKSUM_ALGORITHM) (b t) ≫= strip_prefix (b ":") with
  | None => Err (Algorithm t)
  | Some digits =>
      if negb (length digits =? 64)%nat then Err (Digits t)
      else match mapM nibble digits with
           | None => Err (Digits t)
           | Some ds => Ok (digit_pairs ds)
           end
  end.

Definition Checksum_display (c : list Z) : string :=
  (CHECKSUM_ALGORITHM +:+ ":" +:+ text (c ≫= hex2))%string.

Definition is_checksum (c : list Z) : Prop := length c = 32%nat ∧ Forall is_u8 c.

(** ** Blobs *)

Inductive BlobKind := CatalogSnapshot.

Definition kind_as_str (k : BlobKind) : string := match k with CatalogSnapshot => "catalog-snapshot" end.

Record BlobRef := mkBlobRef { blob_kind : BlobKind; digest : list Z; size_bytes : Z }.

Inductive BlobError :=
| Size (expected : list Z) (expected_bytes actual_bytes : Z)
| Digest (expected actual : list Z).

Definition BlobRef_of (k : BlobKind) (payload : list Z) : BlobRef :=
  mkBlobRef k (Checksum_of payload) (Z.of_nat (length payload)).

Definition verify (r : BlobRef) (payload : list Z) : result BlobError unit :=
  if negb (Z.of_nat (length payload) =? size_bytes r) then
    Err (Size (digest r) (size_bytes r) (Z.of_nat (length payload)))
  else
    let actual := Checksum_of payload in
    if decide (actual = digest r) then Ok tt else Err (Digest (digest r) actual).

(** [CanonicalValue::map]: sorted by key, the encoder's order. *)
Definition name_le (f g : string * CanonicalValue) : Prop := key_le f.1 g.1.
#[export] Instance name_le_dec : RelDecision name_le.
Proof. intros f g. unfold name_le. apply _. Defined.

Definition value_map (fields : list (string * CanonicalValue)) : CanonicalValue :=
  Map (merge_sort name_le fields).

Definition canonical_blob (r : BlobRef) : CanonicalValue :=
  value_map [("kind", Str (kind_as_str (blob_kind r))); ("digest", Bytes (digest r));
             ("size_bytes", Integer (size_bytes r))].

(** ** Lemmas: digits *)

Lemma digit_pairs_hex c :
  Forall is_u8 c → ∃ ds, mapM nibble (Ids.Ids.hex_all c) = Some ds ∧ digit_pairs ds = c.
Proof.
  induction 1 as [|x c Hx _ IH]; [by exists []|]. destruct IH as (ds & Hds & Hp).
  destruct (Ids.Ids.nibbles_split x Hx) as (Hh & Hl & He).
  exists (Z.shiftr x 4 :: Z.land x 15 :: ds). split.
  - unfold Ids.Ids.hex_all in *. rewrite bind_cons. cbn -[hex_digit nibble].
    rewrite !Ids.Ids.nibble_hex by done. cbn -[hex_digit nibble]. by rewrite Hds.
  - cbn [digit_pairs]. rewrite Hp, Ids.Ids.nibbles_join by done. by rewrite <-He.
Qed.

Lemma hex_digit_pairs n digits ds :
  length digits = (2 * n)%nat → mapM nibble digits = Some ds →
  length (digit_pairs ds) = n ∧ Forall is_u8 (digit_pairs ds) ∧ Ids.Ids.hex_all (digit_pairs ds) = digits.
Proof.
  revert digits ds. induction n as [|n IH]; intros [|h [|l digits]] ds Hl H; try (simpl in Hl; lia).
  { by injection H as <-. }
  rewrite mapM_Some in H. inversion H as [|? zh ? ? Hh H1]; subst. inversion H1 as [|? zl ? ds' Hlo H2]; subst.
  destruct (IH digits ds') as (L & U & E); [simpl in Hl; lia|by apply mapM_Some|].
  apply Ids.Ids.nibble_Some in Hh as [Rh <-]. apply Ids.Ids.nibble_Some in Hlo as [Rl <-].
  cbn [digit_pairs]. rewrite Ids.Ids.nibbles_join by done.
  destruct (Ids.Ids.hex2_join zh zl Rh Rl) as [Hu Hhex].
  split_and!; [simpl; lia|by constructor|]. unfold Ids.Ids.hex_all in *. by rewrite bind_cons, Hhex, E.
Qed.

(** ** Properties *)

(** C36: The bytes identify the state: of two values that encode, the bytes agree
    exactly when the values are the same state, whatever order their sets and
    records were built in, and if only their checksums agree then SHA-256 has
    been made to collide. *)
Theorem canonical_bytes_identify (v w : CanonicalValue) (x y : list Z) :
  representable v → representable w → to_canonical_bytes v = Ok x → to_canonical_bytes w = Ok y →
  (x = y ↔ same v w) ∧
  (checksum v = checksum w → same v w ∨ (x ≠ y ∧ sha256 x = sha256 y)).
Proof.
  intros Rv Rw Hx Hy.
  assert (x = y ↔ same v w) as Hiff.
  { unfold to_canonical_bytes, encode in *. apply bind_Ok_inv in Hx as (x' & Hx & Ex).
    apply bind_Ok_inv in Hy as (y' & Hy & Ey). apply Ok_eq in Ex as <-. apply Ok_eq in Ey as <-. split.
    - intros H. apply app_inj_1 in H as [_ H]; [|done]. apply cons_inv in H as [_ H].
      destruct (encodings_parse v w x' y' [] [] Rv Rw Hx Hy) as [Hs _]; [|done].
      by rewrite H.
    - intros H. rewrite (same_bytes_follow v w x' H Hx) in Hy. by apply Ok_eq in Hy as <-. }
  split; [done|]. unfold checksum. rewrite Hx, Hy. simpl. intros H. apply Ok_eq in H.
  destruct (decide (x = y)) as [He|Hn]; [left; by apply Hiff|by right].
Qed.

(** What has canonical bytes: every value whose strings hold no control character
    and no byte order mark, whose records repeat no key and whose sets no member. *)
Theorem canonical_form_exact (v : CanonicalValue) :
  representable v → is_ok (to_canonical_bytes v) = true ↔ canonical_form v.
Proof.
  intros R. unfold to_canonical_bytes, encode. rewrite <-(canonical_form_spec v R).
  by destruct (write v).
Qed.

(** A checksum has one spelling: a text parses exactly when it is what the
    checksum it parses as displays as, and every 32-byte checksum parses back. *)
Theorem checksum_text_exact (t : string) (c : list Z) :
  Checksum_parse t = Ok c ↔ is_checksum c ∧ Checksum_display c = t.
Proof.
  unfold Checksum_parse, Checksum_display, is_checksum. fold (Ids.Ids.hex_all c). split.
  - destruct (strip_prefix _ (b t)) as [rest|] eqn:H1; [|done]. apply strip_prefix_Some in H1.
    cbn [mbind option_bind].
    destruct (strip_prefix (b ":") rest) as [digits|] eqn:H2; [|done]. apply strip_prefix_Some in H2.
    destruct (Nat.eqb_spec (length digits) 64) as [Hl|]; [|done]. cbn [negb].
    destruct (mapM nibble digits) as [ds|] eqn:Hd; [|done]. intros He. apply Ok_eq in He as <-.
    destruct (hex_digit_pairs 32 digits ds Hl Hd) as (L & U & E). split; [done|].
    rewrite E, <-(text_b t), H1, H2, <-(text_b (_ +:+ _)), !b_app, b_text. done.
  - intros [[Hl Hu] <-]. rewrite !b_app, b_text.
    assert (∀ p q, strip_prefix p (p ++ q) = Some q) as Hs by (intros p q; by apply strip_prefix_Some).
    rewrite Hs. cbn [mbind option_bind]. rewrite Hs. rewrite Ids.Ids.hex_all_length, Hl. cbn [Nat.eqb Nat.mul Nat.add negb].
    destruct (digit_pairs_hex c Hu) as (ds & -> & ->). done.
Qed.

(** A reference accepts its own payload, and a payload it accepts is that one or
    a collision; what it refuses it refuses by length first, then by digest. *)
Theorem blob_verifies (k : BlobKind) (payload other : list Z) :
  match verify (BlobRef_of k payload) other with
  | Ok _ => other = payload ∨ (other ≠ payload ∧ length other = length payload ∧ sha256 other = sha256 payload)
  | Err (Size d n m) => d = sha256 payload ∧ n = Z.of_nat (length payload) ∧ m = Z.of_nat (length other) ∧ n ≠ m
  | Err (Digest d d') => length other = length payload ∧ d = sha256 payload ∧ d' = sha256 other ∧ d ≠ d'
  end ∧ verify (BlobRef_of k payload) payload = Ok tt.
Proof.
  unfold verify, BlobRef_of, Checksum_of. simpl.
  split; [|rewrite Z.eqb_refl; cbn [negb]; by case_decide]. destruct (Z.eqb_spec (Z.of_nat (length other)) (Z.of_nat (length payload))) as [He|Hn];
    [|split_and!; done || congruence].
  apply Nat2Z.inj in He. cbn [negb]. case_decide as Hd; [|split_and!; done || congruence]. destruct (decide (other = payload)); [by left|by right].
Qed.
End Checksum.

(** ** Witnesses *)

Definition demo_member (n : Z) : CanonicalValue := Map [("ordinal", Integer n); ("name", Str "gpt")].
Definition demo_state : CanonicalValue := Set_ [demo_member 1; demo_member (-1)].
Definition demo_reordered : CanonicalValue :=
  Set_ [Map [("name", Str "gpt"); ("ordinal", Integer (-1))]; demo_member 1].
Definition demo_hash (bs : list Z) : list Z := be_bytes 32 (be_value bs).

Lemma demo_rep n : -2 ^ 127 ≤ n < 2 ^ 127 → representable (demo_member n).
Proof. intros. repeat constructor; simpl; lia. Qed.

Lemma canonical_bytes_identify_witness :
  same demo_state demo_reordered ∧ ∃ x, to_canonical_bytes demo_state = Ok x.
Proof.
  set (x := match to_canonical_bytes demo_state with Ok x => x | Err _ => [] end).
  split; [|exists x; vm_compute; reflexivity].
  assert (representable demo_state) as R1.
  { constructor; [done|]. repeat apply list.Forall_cons_2; [..|apply list.Forall_nil_2]; apply demo_rep; lia. }
  assert (representable demo_reordered) as R2.
  { constructor; [done|]. repeat apply list.Forall_cons_2; [..|apply list.Forall_nil_2]; repeat constructor; simpl; lia. }
  apply (canonical_bytes_identify demo_hash demo_state demo_reordered x x R1 R2); vm_compute; reflexivity.
Defined.

Lemma canonical_form_exact_witness : ~ canonical_form (Map [("a", Integer 1); ("a", Integer 2)]).
Proof.
  rewrite <-canonical_form_exact; [|repeat constructor; simpl; lia]. vm_compute. discriminate.
Defined.

End Canonical.
