(* ===== verification/Usage.v ===== *)
(** * Usage records ([crates/gateway/src/usage/mod.rs]).

    The record every terminated request produces and the vocabulary of its
    loss. *)

From S2P Require Import Prelude Text Json.

Module Usage.

Inductive Status := SOk | UpstreamError | ClientCancelled | Partial | Rejected.

#[global] Instance Status_eq_dec : EqDecision Status.
Proof. solve_decision. Defined.

Definition Status_as_str (s : Status) : string :=
  match s with
  | SOk => "ok"
  | UpstreamError => "upstream_error"
  | ClientCancelled => "client_cancelled"
  | Partial => "partial"
  | Rejected => "rejected"
  end.

Definition is_error (s : Status) : bool := match s with UpstreamError => true | _ => false end.

Section Record.
Context {J : SerdeJson}.

Record UsageRecord := mkUsageRecord {
  schema_version : Z;
  request_id : string;
  trace_id : option string;
  namespace : string;
  attrs : option Value;
  period : option string;
  subject : string;
  signer_kid : option string;
  model : string;
  target_provider : string;
  target_model : string;
  credential_source : string;
  credential_id : string;
  status : Status;
  input_tokens : Z;
  cache_read_tokens : Z;
  cache_write_tokens : Z;
  output_tokens : Z;
  cost_microdollars : option Z;
  catalog_version : Z;
  price_book : option string;
  price_book_checksum : option string;
  price_catalog : option string;
  latency_ms : Z;
  attempts : Z;
}.

(** The derived [PartialEq], given the one on JSON values. *)
#[global] Instance UsageRecord_eq_dec `{!EqDecision Value} : EqDecision UsageRecord.
Proof. solve_decision. Defined.

Definition SCHEMA_VERSION : Z := 2.

Definition settle_cost (r : UsageRecord) : Z := default 0 (cost_microdollars r).

(** A record and when the fan-out first saw it. *)
Record ObservedRecord := mkObservedRecord { record : UsageRecord; observed_at : Z }.

End Record.

Inductive DropReason := BufferFull | SinkError | Shutdown.

Definition DropReason_as_str (r : DropReason) : string :=
  match r with BufferFull => "buffer_full" | SinkError => "sink_error" | Shutdown => "shutdown" end.

Inductive FlushOutcome :=
| Flushed (records : Z)
| Failed (records : Z) (error : string)
| TimedOut (abandoned : Z).

Definition FlushOutcome_as_str (o : FlushOutcome) : string :=
  match o with Flushed _ => "flushed" | Failed _ _ => "failed" | TimedOut _ => "timeout" end.

Definition is_complete (o : FlushOutcome) : bool := match o with Flushed _ => true | _ => false end.

End Usage.
