(* ===== verification/Journal.v ===== *)
(** * The usage journal ([crates/gateway/src/usage/journal.rs] and its contract
    oracle [journal/oracle.rs]).

    A durable outbox: appends are keyed, a claim leases at most one event of each
    ordering key to a consumer, and delivery state is kept per consumer.  The
    oracle is the definition every journal of the source is held to; each
    operation is one step on its storage, the mutex being its transaction.

    Times are numbers without a bound.  [SystemTime + Duration] panics where the
    sum is beyond what the platform's clock can represent; the two places that
    add, the retention of an acknowledged event and the expiry of a lease, are
    modelled for sums it can represent. *)

From S2P Require Import Prelude Text Json Ids Usage.

Module Journal.
Import Ids.Ids (RequestId, RequestId_parse, RequestId_display, InvalidId).
Import Usage.Usage.

Inductive DeliveryMode := TelemetryGrade | BillingGrade.

Definition DeliveryMode_as_str (m : DeliveryMode) : string :=
  match m with TelemetryGrade => "telemetry_grade" | BillingGrade => "billing_grade" end.

Definition is_durable (m : DeliveryMode) : bool := match m with BillingGrade => true | _ => false end.

Definition IdempotencyKey : Type := string.
Definition key_of_id (id : RequestId) : IdempotencyKey := RequestId_display id.

(** Namespace and subject. *)
Definition OrderingKey : Type := string * string.

Inductive InvalidConsumerId := Empty | TooLong (name : string) (max : nat) | Character (name : string) (c : ascii).

Definition ConsumerId : Type := string.
Definition MAX_LEN : nat := 63.

Definition consumer_char (c : ascii) : bool :=
  is_ascii_lowercase c || is_ascii_digit c || bool_decide (c = "-"%char) || bool_decide (c = "_"%char).

(** [Character] names the character by its first byte. *)
Definition ConsumerId_parse (name : string) : result InvalidConsumerId ConsumerId :=
  if bool_decide (name = ""%string) then Err Empty
  else if (MAX_LEN <? length (b name))%nat then Err (TooLong name MAX_LEN)
  else match list_find (λ c, consumer_char c = false) (b name) with
       | Some (_, c) => Err (Character name c)
       | None => Ok name
       end.

Inductive PoisonReason := Malformed | RejectedRecord | AttemptsExhausted.

Inductive CapacityPolicy := Refuse | DropOldest.

Definition can_lose_events (p : CapacityPolicy) : bool := match p with DropOldest => true | Refuse => false end.

Record Capacity := mkCapacity {
  max_events : Z;
  max_delivery_attempts : Z;
  retain_acknowledged : Z;
  policy : CapacityPolicy;
}.

Definition BILLING_GRADE : Capacity := {|
  max_events := 1000000;
  max_delivery_attempts := 8;
  retain_acknowledged := 24 * 60 * 60 * NANOS_PER_SEC;
  policy := Refuse |}.

Inductive Appended := Accepted (position : Z) | AlreadyPresent (position : Z).

Definition is_new (a : Appended) : bool := match a with Accepted _ => true | _ => false end.

Record Claim := mkClaim { claim_max_events : nat; claim_lease : Z; claim_now : Z }.

Record DeliveryId := mkDeliveryId { d_consumer : ConsumerId; d_event : RequestId; d_attempt : Z }.

Definition is_redelivery (d : DeliveryId) : bool := 1 <? d_attempt d.

Inductive JournalError :=
| AtCapacity (pending : Z) (capacity : Capacity)
| Conflict (key : IdempotencyKey)
| NotOutstanding (delivery : DeliveryId)
| Quarantined (delivery : DeliveryId)
| AlreadyAcknowledged (delivery : DeliveryId)
| Backend (message : string).

Record JournalStats := mkStats {
  pending : Z;
  in_flight : Z;
  quarantined_events : Z;
  oldest_pending_age : option Z;
  dropped_events : Z;
}.

Definition is_drained (s : JournalStats) : bool := (pending s =? 0) && (in_flight s =? 0).

(** One consumer's delivery state. *)
Record ConsumerState := mkConsumer {
  acked : gset Z;
  quarantined : gmap Z PoisonReason;
  handed : gmap Z Z;
  leases : gmap Z Z;
}.

Definition consumer_default : ConsumerState := mkConsumer ∅ ∅ ∅ ∅.

Section Journal.
Context {J : SerdeJson} `{!EqDecision Value} (capacity : Capacity).

(** ** Events *)

Record UsageEvent := mkEvent {
  event_id : RequestId;
  idempotency_key : IdempotencyKey;
  ordering_key : OrderingKey;
  event_record : UsageRecord;
  event_observed_at : Z;
}.

Definition ordering_of (r : UsageRecord) : OrderingKey := (namespace r, subject r).

(** [UsageEvent::new]; the error is the identity's. *)
Definition UsageEvent_new (o : ObservedRecord) : result (string * InvalidId) UsageEvent :=
  match RequestId_parse (request_id (record o)) with
  | Err e => Err (request_id (record o), e)
  | Ok id => Ok (mkEvent id (key_of_id id) (ordering_of (record o)) (record o) (observed_at o))
  end.

Definition is_same_fact_as (e e' : UsageEvent) : bool := bool_decide (event_record e = event_record e').

Record Delivery := mkDelivery { delivery_id : DeliveryId; delivery_event : UsageEvent; lease_expires_at : Z }.

(** ** Storage *)

Record Entry := mkEntry { position : Z; event : UsageEvent }.

Record Storage := mkStorage {
  entries : list Entry;
  positions : gmap IdempotencyKey Z;
  consumers : gmap ConsumerId ConsumerState;
  next_position : Z;
  dropped : Z;
}.

Definition storage_default : Storage := mkStorage [] ∅ ∅ 0 0.

Definition set_consumers (s : Storage) (m : gmap ConsumerId ConsumerState) : Storage :=
  mkStorage (entries s) (positions s) m (next_position s) (dropped s).

Definition entry (s : Storage) (p : Z) : option Entry :=
  snd <$> list_find (λ e, position e = p) (entries s).

Definition is_quarantined (s : Storage) (p : Z) : bool :=
  existsb (λ c, bool_decide (is_Some (quarantined c !! p))) (snd <$> map_to_list (consumers s)).

Definition acked_by_all (s : Storage) (p : Z) : bool :=
  forallb (λ c, bool_decide (p ∈ acked c)) (snd <$> map_to_list (consumers s)).

Definition delivered (s : Storage) : list Z :=
  if decide (consumers s = ∅) then []
  else filter (λ p, acked_by_all s p = true) (filter (λ p, is_quarantined s p = false) (position <$> entries s)).

(** Every trace of a position but a poison verdict. *)
Definition forget_state (p : Z) (c : ConsumerState) : ConsumerState :=
  mkConsumer (acked c ∖ {[p]}) (quarantined c) (delete p (handed c)) (delete p (leases c)).

Definition remove_at (p : Z) (es : list Entry) : list Entry :=
  match list_find (λ e, position e = p) es with
  | Some (i, _) => delete i es
  | None => es
  end.

Definition forget (s : Storage) (p : Z) : Storage :=
  match entry s p with
  | None => s
  | Some removed =>
      mkStorage (remove_at p (entries s)) (delete (idempotency_key (event removed)) (positions s))
        (forget_state p <$> consumers s) (next_position s) (dropped s)
  end.

Fixpoint reclaim (max : Z) (ps : list Z) (s : Storage) : Storage :=
  match ps with
  | [] => s
  | p :: ps => if Z.of_nat (length (entries s)) <? max then s else reclaim max ps (forget s p)
  end.

Definition reclaim_delivered (s : Storage) (max : Z) : Storage := reclaim max (delivered s) s.

(** [observed_at + retain], not beyond the clock's range. *)
Definition expired_at (s : Storage) (retain now : Z) (p : Z) : bool :=
  match entry s p with Some e => event_observed_at (event e) + retain <=? now | None => false end.

Definition prune_acknowledged (s : Storage) (retain now : Z) : Storage :=
  foldl forget s (filter (λ p, expired_at s retain now p = true) (delivered s)).

(** ** Operations *)

Definition store_entry (s : Storage) (e : UsageEvent) : Storage :=
  mkStorage (entries s ++ [mkEntry (next_position s) e])
    (<[idempotency_key e := next_position s]> (positions s)) (consumers s) (next_position s + 1) (dropped s).

Definition full (s : Storage) : bool := max_events capacity <=? Z.of_nat (length (entries s)).

Definition at_capacity (s : Storage) : JournalError := AtCapacity (Z.of_nat (length (entries s))) capacity.

Definition count_dropped (s : Storage) : Storage :=
  mkStorage (entries s) (positions s) (consumers s) (next_position s) (dropped s + 1).

(** The room a new event needs, or the refusal. *)
Definition make_room (s : Storage) : result JournalError unit * Storage :=
  let s := if full s then reclaim_delivered s (max_events capacity) else s in
  if full s then
    match policy capacity with
    | Refuse => (Err (at_capacity s), s)
    | DropOldest =>
        match list_find (λ p, is_quarantined s p = false) (position <$> entries s) with
        | None => (Err (at_capacity s), s)
        | Some (_, oldest) => (Ok tt, count_dropped (forget s oldest))
        end
    end
  else (Ok tt, s).

(** [None] is the panic of the [expect] on the index. *)
Definition append (s : Storage) (now : Z) (e : UsageEvent) : option (result JournalError Appended * Storage) :=
  let s := prune_acknowledged s (retain_acknowledged capacity) now in
  match positions s !! idempotency_key e with
  | Some p =>
      stored ← entry s p;
      Some (if is_same_fact_as (event stored) e then (Ok (AlreadyPresent p), s)
            else (Err (Conflict (idempotency_key e)), s))
  | None =>
      Some (match make_room s with
            | (Err err, s) => (Err err, s)
            | (Ok _, s) => (Ok (Accepted (next_position s)), store_entry s e)
            end)
  end.

(** *** Claims *)

Record ClaimState := mkClaimState {
  cs_state : ConsumerState;
  cs_busy : gset OrderingKey;
  cs_claimed : list Delivery;
  cs_poisoned : list Z;
}.

Definition drop_lease (p : Z) (c : ConsumerState) : ConsumerState :=
  mkConsumer (acked c) (quarantined c) (handed c) (delete p (leases c)).

Definition hand_out (p attempt expiry : Z) (c : ConsumerState) : ConsumerState :=
  mkConsumer (acked c) (quarantined c) (<[p := attempt]> (handed c)) (<[p := expiry]> (leases c)).

Definition condemn (reason : PoisonReason) (p : Z) (c : ConsumerState) : ConsumerState :=
  mkConsumer (acked c) (<[p := reason]> (quarantined c)) (handed c) (delete p (leases c)).

Definition resolved (c : ConsumerState) (p : Z) : bool :=
  bool_decide (p ∈ acked c) || bool_decide (is_Some (quarantined c !! p)).

(** The end of the loop body, once the entry holds no lease; [claim.now +
    claim.lease] is not beyond the clock's range. *)
Definition claim_free (consumer : ConsumerId) (claim : Claim) (e : Entry) (c : ConsumerState) (cs : ClaimState)
    : bool * ClaimState :=
  let p := position e in
  let key := ordering_key (event e) in
  if decide (key ∈ cs_busy cs) then (false, mkClaimState c (cs_busy cs) (cs_claimed cs) (cs_poisoned cs))
  else
    let attempt := default 0 (handed c !! p) + 1 in
    if max_delivery_attempts capacity <? attempt then
      (false, mkClaimState c (cs_busy cs) (cs_claimed cs) (cs_poisoned cs ++ [p]))
    else
      let expiry := claim_now claim + claim_lease claim in
      let claimed := cs_claimed cs ++
        [mkDelivery (mkDeliveryId consumer (event_id (event e)) attempt) (event e) expiry] in
      ((claim_max_events claim <=? length claimed)%nat,
       mkClaimState (hand_out p attempt expiry c) ({[key]} ∪ cs_busy cs) claimed (cs_poisoned cs)).

(** One entry: [true] when the batch is full and the loop breaks. *)
Definition claim_entry (consumer : ConsumerId) (claim : Claim) (e : Entry) (cs : ClaimState)
    : bool * ClaimState :=
  let p := position e in
  let key := ordering_key (event e) in
  let c := cs_state cs in
  if resolved c p then (false, cs)
  else
    match leases c !! p with
    | Some expiry =>
        if claim_now claim <? expiry then
          (false, mkClaimState c ({[key]} ∪ cs_busy cs) (cs_claimed cs) (cs_poisoned cs))
        else claim_free consumer claim e (drop_lease p c) cs
    | None => claim_free consumer claim e c cs
    end.

Fixpoint claim_loop (consumer : ConsumerId) (claim : Claim) (es : list Entry) (cs : ClaimState) : ClaimState :=
  match es with
  | [] => cs
  | e :: es =>
      let '(stop, cs) := claim_entry consumer claim e cs in
      if stop : bool then cs else claim_loop consumer claim es cs
  end.

Definition claim_events (s : Storage) (consumer : ConsumerId) (claim : Claim) : list Delivery * Storage :=
  let c := default consumer_default (consumers s !! consumer) in
  let cs := claim_loop consumer claim (entries s) (mkClaimState c ∅ [] []) in
  let c := foldl (λ c p, condemn AttemptsExhausted p c) (cs_state cs) (cs_poisoned cs) in
  (cs_claimed cs, set_consumers s (<[consumer := c]> (consumers s))).

(** *** Verdicts *)

Definition position_of (s : Storage) (d : DeliveryId) : option Z := positions s !! key_of_id (d_event d).

Definition put_consumer (s : Storage) (d : DeliveryId) (c : ConsumerState) : Storage :=
  set_consumers s (<[d_consumer d := c]> (consumers s)).

Definition ack (s : Storage) (d : DeliveryId) : result JournalError unit * Storage :=
  match position_of s d with
  | None => (Ok tt, s)
  | Some p =>
      match consumers s !! d_consumer d with
      | None => (Err (NotOutstanding d), s)
      | Some c =>
          if decide (p ∈ acked c) then (Ok tt, s)
          else if decide (is_Some (quarantined c !! p)) then (Err (Quarantined d), s)
          else if decide (handed c !! p = None) then (Err (NotOutstanding d), s)
          else (Ok tt, put_consumer s d
                  (mkConsumer ({[p]} ∪ acked c) (quarantined c) (handed c) (delete p (leases c))))
      end
  end.

Definition relinquish (s : Storage) (d : DeliveryId) : result JournalError unit * Storage :=
  match position_of s d with
  | None => (Ok tt, s)
  | Some p =>
      match consumers s !! d_consumer d with
      | None => (Err (NotOutstanding d), s)
      | Some c =>
          if resolved c p then (Ok tt, s)
          else
            match handed c !! p with
            | None => (Err (NotOutstanding d), s)
            | Some n =>
                (Ok tt, put_consumer s d
                   (mkConsumer (acked c) (quarantined c)
                      (if n =? d_attempt d then <[p := saturating_sub n 1]> (handed c) else handed c)
                      (leases c)))
            end
      end
  end.

Definition quarantine (s : Storage) (d : DeliveryId) (reason : PoisonReason)
    : result JournalError unit * Storage :=
  match position_of s d with
  | None => (Err (NotOutstanding d), s)
  | Some p =>
      match consumers s !! d_consumer d with
      | None => (Err (NotOutstanding d), s)
      | Some c =>
          if decide (is_Some (quarantined c !! p)) then (Ok tt, s)
          else if decide (p ∈ acked c) then (Err (AlreadyAcknowledged d), s)
          else if decide (handed c !! p = None) then (Err (NotOutstanding d), s)
          else (Ok tt, put_consumer s d (condemn reason p c))
      end
  end.

(** *** Statistics *)

Inductive Delivered := IsQuarantined | IsAcked | IsInFlight | IsPending.

Definition disposition (c : option ConsumerState) (now p : Z) : Delivered :=
  match c with
  | None => IsPending
  | Some c =>
      if decide (is_Some (quarantined c !! p)) then IsQuarantined
      else if decide (p ∈ acked c) then IsAcked
      else match leases c !! p with
           | Some expiry => if now <? expiry then IsInFlight else IsPending
           | None => IsPending
           end
  end.

Definition add_stats (st : JournalStats * option Z) (d : Delivered) (observed : Z) : JournalStats * option Z :=
  let '(s, oldest) := st in
  match d with
  | IsQuarantined =>
      (mkStats (pending s) (in_flight s) (quarantined_events s + 1) (oldest_pending_age s) (dropped_events s), oldest)
  | IsAcked => (s, oldest)
  | IsInFlight =>
      (mkStats (pending s) (in_flight s + 1) (quarantined_events s) (oldest_pending_age s) (dropped_events s), oldest)
  | IsPending =>
      (mkStats (pending s + 1) (in_flight s) (quarantined_events s) (oldest_pending_age s) (dropped_events s),
       match oldest with
       | Some current => if observed <? current then Some observed else oldest
       | None => Some observed
       end)
  end.

Definition stats (s : Storage) (consumer : ConsumerId) (now : Z) : JournalStats :=
  let c := consumers s !! consumer in
  let '(st, oldest) := foldl (λ st e, add_stats st (disposition c now (position e)) (event_observed_at (event e)))
    (mkStats 0 0 0 None (dropped s), None) (entries s) in
  mkStats (pending st) (in_flight st) (quarantined_events st)
    ((λ observed, saturating_duration_since now observed) <$> oldest) (dropped_events st).

(** ** The invariant *)

Definition stored (s : Storage) (p : Z) : Prop := ∃ e, e ∈ entries s ∧ position e = p.

(** Two entries of one caller, the first ahead of the second. *)
Definition ahead (e e' : Entry) : Prop :=
  ordering_key (event e) = ordering_key (event e') ∧ position e < position e'.

Record consumer_wf (s : Storage) (c : ConsumerState) : Prop := {
  verdict_exclusive p : p ∈ acked c → quarantined c !! p = None;
  resolved_unleased p : resolved c p = true → leases c !! p = None;
  leased_handed p : is_Some (leases c !! p) → is_Some (handed c !! p);
  handed_bounded p n : handed c !! p = Some n → 0 ≤ n ≤ max_delivery_attempts capacity;
  acked_stored p : p ∈ acked c → stored s p;
  quarantined_stored p : is_Some (quarantined c !! p) → stored s p;
  handed_stored p : is_Some (handed c !! p) → stored s p;
  (** whatever is leased has nothing unresolved ahead of it *)
  leased_in_order e e' :
    e ∈ entries s → e' ∈ entries s → ahead e e' → is_Some (leases c !! position e') →
    resolved c (position e) = true;
}.

Record storage_wf (s : Storage) : Prop := {
  positions_sorted : StronglySorted Z.lt (position <$> entries s);
  positions_below : Forall (λ e, 0 ≤ position e < next_position s) (entries s);
  positions_index k p :
    positions s !! k = Some p ↔ ∃ e, e ∈ entries s ∧ position e = p ∧ idempotency_key (event e) = k;
  entries_bounded : Z.of_nat (length (entries s)) ≤ Z.max 0 (max_events capacity);
  consumers_wf name c : consumers s !! name = Some c → consumer_wf s c;
  position_range : 0 ≤ next_position s;
}.

(** ** Lemmas: finding and forgetting *)

Lemma resolved_true c p : resolved c p = true ↔ p ∈ acked c ∨ is_Some (quarantined c !! p).
Proof. unfold resolved. by rewrite orb_true_iff, !bool_decide_eq_true. Qed.

Lemma sorted_nodup (l : list Z) : StronglySorted Z.lt l → NoDup l.
Proof.
  induction 1 as [|x l _ IH Hx]; constructor; [|done]. intros Hin.
  apply (proj1 (list.Forall_forall _ _) Hx) in Hin. lia.
Qed.

Lemma entry_unique s e e' :
  storage_wf s → e ∈ entries s → e' ∈ entries s → position e = position e' → e = e'.
Proof.
  intros Hwf He He' Hp. pose proof (sorted_nodup _ (positions_sorted s Hwf)) as Hnd.
  apply list_elem_of_lookup in He as [i Hi]. apply list_elem_of_lookup in He' as [j Hj].
  assert (i = j) as <-; [|congruence].
  eapply NoDup_lookup; [exact Hnd| |]; rewrite list_lookup_fmap; [by rewrite Hi|by rewrite Hj, Hp].
Qed.

Lemma sorted_lookup_lt s i j x y :
  storage_wf s → entries s !! i = Some x → entries s !! j = Some y → (i < j)%nat → position x < position y.
Proof.
  intros Hwf Hx Hy Hij. pose proof (positions_sorted s Hwf) as Hs. clear Hwf.
  revert i j Hx Hy Hij. induction (entries s) as [|e es IH]; intros i j Hx Hy Hij; [done|].
  csimpl in Hs. inversion Hs as [|? ? Hs' Hall]; subst. destruct j as [|j]; [lia|]. simpl in Hy.
  destruct i as [|i]; simpl in Hx.
  - simplify_eq. refine (proj1 (list.Forall_forall _ _) Hall (position y) _).
    apply list_elem_of_fmap_2. by eapply list_elem_of_lookup_2.
  - apply (IH Hs' i j); [done..|lia].
Qed.

Lemma entry_Some s p e : storage_wf s → entry s p = Some e ↔ e ∈ entries s ∧ position e = p.
Proof.
  intros Hwf. unfold entry. split.
  - intros ([i e'] & Hf & [= <-])%fmap_Some. apply list_find_Some in Hf as (Hi & Hp & _).
    split; [by eapply list_elem_of_lookup_2|done].
  - intros [He Hp]. destruct (list_find _ (entries s)) as [[i e']|] eqn:Hf.
    + apply list_find_Some in Hf as (Hi & Hp' & _). simpl. f_equal.
      eapply (entry_unique s); [done|by eapply list_elem_of_lookup_2|done|congruence].
    + apply list_find_None in Hf. by apply (proj1 (list.Forall_forall _ _) Hf) in He.
Qed.

Lemma remove_at_filter p es : NoDup (position <$> es) → remove_at p es = filter (λ e, position e ≠ p) es.
Proof.
  unfold remove_at. induction es as [|e es IH]; [done|]. cbn [fmap list_fmap]. intros [Hn Hnd]%NoDup_cons.
  cbn [list_find]. destruct (decide (position e = p)) as [<-|Hp].
  - rewrite filter_cons_False by (intros H; by apply H). simpl. symmetry. apply filter_all.
    intros x Hx He. apply Hn. rewrite <-He. by apply list_elem_of_fmap_2.
  - rewrite filter_cons_True by done. rewrite <-(IH Hnd).
    destruct (list_find (λ e, position e = p) es) as [[i x]|]; done.
Qed.

Lemma forget_entries s p :
  storage_wf s → entries (forget s p) = filter (λ e, position e ≠ p) (entries s).
Proof.
  intros Hwf. unfold forget. destruct (entry s p) as [e|] eqn:He; simpl.
  - apply remove_at_filter, sorted_nodup, Hwf.
  - symmetry. apply filter_all. intros x Hx Hp.
    assert (entry s p = Some x); [|congruence]. by apply entry_Some.
Qed.

Lemma forget_state_resolved p c q : q ≠ p → resolved (forget_state p c) q = resolved c q.
Proof.
  intros Hq. apply eq_true_iff_eq. rewrite !resolved_true. simpl. set_solver.
Qed.

Lemma forget_state_wf s s' p c :
  (∀ q, stored s q → q ≠ p → stored s' q) →
  (∀ e, e ∈ entries s' → e ∈ entries s ∧ position e ≠ p) →
  quarantined c !! p = None → consumer_wf s c → consumer_wf s' (forget_state p c).
Proof.
  intros Hst Hsub Hq Hwf. split; simpl.
  - intros q Hin. apply (verdict_exclusive _ _ Hwf). set_solver.
  - intros q Hr. destruct (decide (q = p)) as [->|Hqp]; [by apply lookup_delete_eq|].
    rewrite lookup_delete_ne by done. apply (resolved_unleased _ _ Hwf).
    by rewrite forget_state_resolved in Hr.
  - intros q. destruct (decide (q = p)) as [->|Hqp]; [rewrite lookup_delete_eq; by intros []|].
    rewrite !lookup_delete_ne by done. apply (leased_handed _ _ Hwf).
  - intros q n [_ Hn]%lookup_delete_Some. by eapply (handed_bounded _ _ Hwf).
  - intros q Hin. apply Hst; [|set_solver]. apply (acked_stored _ _ Hwf). set_solver.
  - intros q Hin. apply Hst; [by apply (quarantined_stored _ _ Hwf)|].
    intros ->. rewrite Hq in Hin. by destruct Hin.
  - intros q [n [Hne Hn]%lookup_delete_Some]. apply Hst; [|done]. by apply (handed_stored _ _ Hwf).
  - intros e e' He He' Ha Hl. apply Hsub in He as [He Hp], He' as [He' Hp'].
    rewrite forget_state_resolved by done. apply (leased_in_order _ _ Hwf e e'); [done..|].
    by rewrite lookup_delete_ne in Hl.
Qed.

Lemma forget_filter s p : storage_wf s → ∀ e, e ∈ entries (forget s p) ↔ e ∈ entries s ∧ position e ≠ p.
Proof. intros Hwf e. rewrite forget_entries, list_elem_of_filter by done. naive_solver. Qed.

Lemma forget_stored s p q : storage_wf s → stored (forget s p) q ↔ stored s q ∧ q ≠ p.
Proof. intros Hwf. unfold stored. setoid_rewrite forget_filter; [|done]. naive_solver. Qed.

Lemma is_quarantined_false s p :
  is_quarantined s p = false ↔ ∀ name c, consumers s !! name = Some c → quarantined c !! p = None.
Proof.
  unfold is_quarantined. rewrite <-not_true_iff_false, existsb_exists. split.
  - intros Hn name c Hc. destruct (quarantined c !! p) as [r|] eqn:Hq; [|done]. destruct Hn.
    exists c. split; [|by apply bool_decide_eq_true]. apply list_elem_of_In, list_elem_of_fmap.
    exists (name, c). by rewrite elem_of_map_to_list.
  - intros Hall (c & Hin & Hq%bool_decide_eq_true). apply list_elem_of_In, list_elem_of_fmap in Hin
      as ([name c'] & -> & Hin). apply elem_of_map_to_list in Hin. simpl in *.
    rewrite (Hall name c' Hin) in Hq. by destruct Hq.
Qed.

Lemma forget_wf s p : storage_wf s → is_quarantined s p = false → storage_wf (forget s p).
Proof.
  intros Hwf Hq. pose proof (forget_filter s p Hwf) as Hin. pose proof (forget_entries s p Hwf) as He.
  pose proof (forget_stored s p) as Hst.
  assert (next_position (forget s p) = next_position s) as Hn by (unfold forget; by destruct (entry s p)).
  split.
  - rewrite He. apply StronglySorted_fmap_filter, Hwf.
  - rewrite Hn. apply list.Forall_forall. intros e [Hes _]%Hin.
    exact (proj1 (list.Forall_forall _ _) (positions_below s Hwf) e Hes).
  - intros k q. setoid_rewrite Hin. unfold forget. destruct (entry s p) as [x|] eqn:Hx; simpl.
    + apply entry_Some in Hx as [Hx Hxp]; [|done].
      rewrite lookup_delete_Some, (positions_index s Hwf). split.
      * intros [Hk (e & Hes & Hp & He')]. exists e. split_and!; try done. intros Heq. apply Hk.
        rewrite (entry_unique s x e); [done..|congruence].
      * intros (e & [Hes Hep] & Hp & He'). split; [|by exists e]. intros Hk.
        assert (positions s !! k = Some (position x)) as H1 by (apply (positions_index s Hwf); by exists x).
        assert (positions s !! k = Some (position e)) as H2 by (apply (positions_index s Hwf); by exists e).
        congruence.
    + rewrite (positions_index s Hwf). split; intros (e & Hes & ?); exists e; [|naive_solver].
      split; [|done]. split; [done|]. intros Heq.
      assert (entry s p = Some e); [|congruence]. by apply entry_Some.
  - rewrite He. pose proof (entries_bounded s Hwf). pose proof (length_filter (λ e, position e ≠ p) (entries s)). lia.
  - intros name c Hc. destruct (entry s p) as [x|] eqn:Hx.
    + assert (consumers (forget s p) = forget_state p <$> consumers s) as Hcs by (unfold forget; by rewrite Hx).
      rewrite Hcs, lookup_fmap in Hc. apply fmap_Some in Hc as (c0 & Hc0 & ->).
      eapply (forget_state_wf s); [| |by eapply is_quarantined_false|by eapply (consumers_wf s)].
      * intros q Hs Hqp. by apply Hst.
      * intros e. apply Hin.
    + assert (forget s p = s) as Hf by (unfold forget; by rewrite Hx). rewrite Hf in *.
      by eapply (consumers_wf s).
  - rewrite Hn. by apply Hwf.
Qed.

(** ** Lemmas: giving up delivered events *)

(** Every registered consumer has acknowledged it, there is one, and nobody has
    set it aside. *)
Definition is_delivered (s : Storage) (p : Z) : Prop :=
  consumers s ≠ ∅ ∧ is_quarantined s p = false ∧
  ∀ name c, consumers s !! name = Some c → p ∈ acked c.

Lemma delivered_elem s p : p ∈ delivered s → stored s p ∧ is_delivered s p.
Proof.
  unfold delivered. destruct (decide (consumers s = ∅)); [by intros ?%elem_of_nil|].
  rewrite !list_elem_of_filter, list_elem_of_fmap. intros (Ha & Hq & e & -> & He).
  split; [by exists e|]. split_and!; [done..|]. intros name c Hc.
  unfold acked_by_all in Ha. apply forallb_true, list.Forall_forall with (x := c) in Ha.
  - by apply bool_decide_eq_true in Ha.
  - apply list_elem_of_fmap. exists (name, c). by rewrite elem_of_map_to_list.
Qed.

Lemma forget_quarantined s p q : is_quarantined (forget s p) q = is_quarantined s q.
Proof.
  apply eq_true_iff_eq. rewrite <-!not_false_iff_true, !is_quarantined_false. unfold forget.
  destruct (entry s p); [|done]. simpl. apply not_iff_compat. split.
  - intros Hn name c Hc. apply (Hn name (forget_state p c)). by rewrite lookup_fmap, Hc.
  - intros Hn name c Hc. rewrite lookup_fmap in Hc. apply fmap_Some in Hc as (c0 & Hc & ->).
    by apply (Hn name c0).
Qed.

Lemma forget_all s ps :
  storage_wf s → Forall (λ p, is_quarantined s p = false) ps →
  storage_wf (foldl forget s ps) ∧
  (∀ e, e ∈ entries (foldl forget s ps) ↔ e ∈ entries s ∧ position e ∉ ps) ∧
  next_position (foldl forget s ps) = next_position s ∧ dropped (foldl forget s ps) = dropped s ∧
  (∀ p, is_quarantined (foldl forget s ps) p = is_quarantined s p).
Proof.
  revert s. induction ps as [|p ps IH]; intros s Hwf Hq.
  { simpl. split_and!; try done. set_solver. }
  apply list.Forall_cons in Hq as [Hp Hq]. cbn [foldl].
  destruct (IH (forget s p)) as (H1 & H2 & H3 & H4 & H5); [by apply forget_wf| |].
  { eapply Forall_impl; [exact Hq|]. intros q. by rewrite forget_quarantined. }
  split_and!; [done| | | |].
  - intros e. rewrite H2, forget_filter by done. set_solver.
  - rewrite H3. unfold forget. by destruct (entry s p).
  - rewrite H4. unfold forget. by destruct (entry s p).
  - intros q. by rewrite H5, forget_quarantined.
Qed.

(** Nothing is lost that has not been delivered. *)
Definition gives_up_delivered (s s' : Storage) : Prop :=
  storage_wf s' ∧ next_position s' = next_position s ∧ dropped s' = dropped s ∧
  (∀ p, is_quarantined s' p = is_quarantined s p) ∧
  (∀ p, is_delivered s' p → is_delivered s p) ∧
  (∀ e, e ∈ entries s' → e ∈ entries s) ∧
  ∀ e, e ∈ entries s → e ∈ entries s' ∨ is_delivered s (position e).

Lemma forget_is_delivered s ps p : is_delivered (foldl forget s ps) p → is_delivered s p.
Proof.
  revert s. induction ps as [|q ps IH]; intros s; [done|]. simpl. intros (Hne & Hq & Ha)%IH.
  rewrite forget_quarantined in Hq. unfold forget in Hne, Ha. destruct (entry s q); [|done]. simpl in *.
  split_and!; [|done|].
  - intros H0. apply Hne. by rewrite H0, fmap_empty.
  - intros name c Hc. specialize (Ha name (forget_state q c)). rewrite lookup_fmap, Hc in Ha.
    specialize (Ha eq_refl). simpl in Ha. set_solver.
Qed.

Lemma forget_delivered s ps :
  storage_wf s → (∀ p, p ∈ ps → p ∈ delivered s) → gives_up_delivered s (foldl forget s ps).
Proof.
  intros Hwf Hd. destruct (forget_all s ps Hwf) as (H1 & H2 & H3 & H4 & H5).
  { apply list.Forall_forall. intros p Hp. by apply Hd, delivered_elem in Hp as (_ & _ & ? & _). }
  split_and!; try done.
  - intros p. apply forget_is_delivered.
  - intros e He. by apply H2 in He as [? _].
  - intros e He. destruct (decide (position e ∈ ps)) as [Hp|Hp].
    + right. by apply Hd, delivered_elem in Hp as [_ ?].
    + left. by apply H2.
Qed.

Lemma prune_gives_up s retain now : storage_wf s → gives_up_delivered s (prune_acknowledged s retain now).
Proof.
  intros Hwf. apply forget_delivered; [done|]. intros p Hp. by apply list_elem_of_filter in Hp as [_ ?].
Qed.

Lemma reclaim_prefix max ps s : ∃ qs, qs `prefix_of` ps ∧ reclaim max ps s = foldl forget s qs.
Proof.
  revert s. induction ps as [|p ps IH]; intros s; simpl; [by exists []|].
  destruct (_ <? max); [exists []; split; [apply prefix_nil|done]|].
  destruct (IH (forget s p)) as (qs & Hp & He). exists (p :: qs). split; [by apply prefix_cons|done].
Qed.

Lemma reclaim_gives_up s max : storage_wf s → gives_up_delivered s (reclaim_delivered s max).
Proof.
  intros Hwf. unfold reclaim_delivered. destruct (reclaim_prefix max (delivered s) s) as (qs & Hp & ->).
  apply forget_delivered; [done|]. intros p Hin. by eapply elem_of_prefix.
Qed.

Lemma gives_up_refl s : storage_wf s → gives_up_delivered s s.
Proof. intros. split_and!; auto. Qed.

Lemma gives_up_trans s1 s2 s3 :
  gives_up_delivered s1 s2 → gives_up_delivered s2 s3 → gives_up_delivered s1 s3.
Proof.
  intros (A1 & A2 & A3 & A4 & A5 & A6 & A7) (B1 & B2 & B3 & B4 & B5 & B6 & B7). split_and!.
  - done.
  - congruence.
  - congruence.
  - intros p. by rewrite B4.
  - auto.
  - auto.
  - intros e He. destruct (A7 e He) as [He'|?]; [|by right]. destruct (B7 e He') as [?|?]; auto.
Qed.

(** ** Lemmas: appending *)

Lemma full_false s : full s = false ↔ Z.of_nat (length (entries s)) < max_events capacity.
Proof. unfold full. by rewrite Z.leb_gt. Qed.

(** The oldest event is given up to make room. *)
Definition drops_oldest (s s' : Storage) : Prop :=
  policy capacity = DropOldest ∧ storage_wf s' ∧ next_position s' = next_position s ∧
  dropped s' = dropped s + 1 ∧ full s' = false ∧
  ∃ x s1, gives_up_delivered s s1 ∧ x ∈ entries s1 ∧ is_quarantined s (position x) = false ∧
    Forall (λ e, position e < position x → is_quarantined s (position e) = true) (entries s1) ∧
    ∀ e, e ∈ entries s' ↔ e ∈ entries s1 ∧ e ≠ x.

Lemma entries_shrink s p : storage_wf s → stored s p → (length (entries (forget s p)) < length (entries s))%nat.
Proof.
  intros Hwf (e & He & <-). rewrite forget_entries by done. apply length_filter_lt with e; [done|by intros H].
Qed.

Lemma count_dropped_wf s : storage_wf s → storage_wf (count_dropped s).
Proof.
  intros [H1 H2 H3 H4 H5 H6]. split; try done. intros name c Hc. destruct (H5 name c Hc). by split.
Qed.

Lemma make_room_spec s :
  storage_wf s →
  match make_room s with
  | (Ok _, s') => (gives_up_delivered s s' ∧ full s' = false) ∨ drops_oldest s s'
  | (Err e, s') =>
      gives_up_delivered s s' ∧ e = at_capacity s' ∧ full s' = true ∧
      (policy capacity = Refuse ∨ Forall (λ e, is_quarantined s' (position e) = true) (entries s'))
  end.
Proof.
  intros Hwf. unfold make_room.
  assert (gives_up_delivered s (if full s then reclaim_delivered s (max_events capacity) else s)) as Hg
    by (destruct (full s); [by apply reclaim_gives_up|by apply gives_up_refl]).
  set (s1 := if full s then _ else s) in *. destruct (full s1) eqn:Hf; [|by left].
  destruct (policy capacity) eqn:Hpol; [by auto|].
  destruct (list_find _ _) as [[i p]|] eqn:Hfind.
  - apply list_find_Some in Hfind as (Hi & Hq & Hmin). right.
    pose proof Hg as (Hwf1 & Hn & Hd & Hqs & _).
    rewrite list_lookup_fmap in Hi. apply fmap_Some in Hi as (x & Hx & ->).
    assert (x ∈ entries s1) as Hin by (by eapply list_elem_of_lookup_2).
    assert (storage_wf (forget s1 (position x))) as Hwf' by (by apply forget_wf).
    split_and!; [done|by apply count_dropped_wf| | | |].
    + simpl. unfold forget. by destruct (entry s1 (position x)).
    + simpl. rewrite <-Hd. unfold forget. by destruct (entry s1 (position x)).
    + apply full_false. simpl.
      pose proof (entries_shrink s1 (position x) Hwf1 ltac:(by exists x)).
      pose proof (entries_bounded s1 Hwf1). unfold full in Hf. reflect_bools. lia.
    + exists x, s1. split_and!; [done..|by rewrite <-Hqs| |].
      * apply list.Forall_forall. intros e He Hlt. rewrite <-Hqs. apply not_false_iff_true. intros Hqe.
        apply list_elem_of_lookup in He as [j Hj].
        destruct (decide (j < i)%nat) as [Hji|Hji].
        -- apply (Hmin j (position e)); [by rewrite list_lookup_fmap, Hj|done|done].
        -- destruct (decide (j = i)) as [->|Hne]; [simplify_eq; lia|].
           assert (position x < position e); [|lia].
           apply (sorted_lookup_lt s1 i j); [done|done|done|lia].
      * simpl. intros e. rewrite forget_filter by done. split; intros [He Hne]; (split; [done|]).
        -- intros ->. done.
        -- intros Hp. apply Hne. by eapply (entry_unique s1).
  - split_and!; try done. right. apply list.Forall_forall. intros e He. apply not_false_iff_true.
    apply list_find_None in Hfind. refine (proj1 (list.Forall_forall _ _) Hfind (position e) _).
    by apply list_elem_of_fmap_2.
Qed.

Lemma position_below s e : storage_wf s → e ∈ entries s → 0 ≤ position e < next_position s.
Proof. intros Hwf He. exact (proj1 (list.Forall_forall _ _) (positions_below s Hwf) e He). Qed.

Lemma fresh_position s : storage_wf s → ¬ stored s (next_position s).
Proof. intros Hwf (e & He & Hp). pose proof (position_below s e Hwf He). lia. Qed.

Lemma store_entry_consumer s e c :
  storage_wf s → consumer_wf s c → consumer_wf (store_entry s e) c.
Proof.
  intros Hwf Hc. pose proof (fresh_position s Hwf) as Hfresh.
  assert (∀ p, stored s p → stored (store_entry s e) p) as Hst.
  { intros p (x & Hx & <-). exists x. split; [|done]. apply elem_of_app. by left. }
  split; try (by apply Hc).
  - intros p Hp. by apply Hst, (acked_stored _ _ Hc).
  - intros p Hp. by apply Hst, (quarantined_stored _ _ Hc).
  - intros p Hp. by apply Hst, (handed_stored _ _ Hc).
  - intros x y Hx Hy Ha Hl. simpl in Hx, Hy. apply elem_of_app in Hx, Hy. destruct Hy as [Hy|Hy].
    + destruct Hx as [Hx|Hx]; [by eapply (leased_in_order _ _ Hc)|].
      apply list_elem_of_singleton in Hx as ->. destruct Ha as [_ Ha]. simpl in Ha.
      pose proof (position_below s y Hwf Hy). lia.
    + apply list_elem_of_singleton in Hy as ->. simpl in Hl. destruct Hfresh.
      by apply (handed_stored _ _ Hc), (leased_handed _ _ Hc).
Qed.

Lemma store_entry_wf s e :
  storage_wf s → full s = false → positions s !! idempotency_key e = None → storage_wf (store_entry s e).
Proof.
  intros Hwf Hf Hk. pose proof Hwf as [H1 H2 H3 H4 H5 H6]. split; simpl.
  - rewrite fmap_app. apply StronglySorted_app_2; [|done|simpl; repeat constructor].
    intros p q Hp Hq. simpl in Hq. apply list_elem_of_singleton in Hq as ->.
    apply list_elem_of_fmap in Hp as (x & -> & Hx). by apply (proj1 (list.Forall_forall _ _) H2).
  - apply Forall_app. split; [|repeat constructor; simpl; lia]. eapply Forall_impl; [exact H2|].
    simpl. intros x ?. lia.
  - intros k p. rewrite lookup_insert_Some, H3. setoid_rewrite elem_of_app. setoid_rewrite list_elem_of_singleton.
    split.
    + intros [[<- <-]|(Hne & x & ? & ?)]; [by eexists; split; [right|]|exists x; auto].
    + intros (x & [Hx| ->] & <- & <-); [|by left]. right. split; [|by exists x].
      intros He. assert (positions s !! idempotency_key e = Some (position x)); [|congruence].
      apply H3. exists x. by rewrite He.
  - apply full_false in Hf. rewrite length_app. simpl. lia.
  - intros name c Hc. apply store_entry_consumer; [done|by eapply H5].
  - lia.
Qed.

(** ** Lemmas: claiming *)

(** What the loop has done to the entries before it. *)
Record claim_inv (s : Storage) (c0 : ConsumerState) (claim : Claim) (consumer : ConsumerId) (done : list Entry)
    (cs : ClaimState) : Prop := {
  ci_acked : acked (cs_state cs) = acked c0;
  ci_quarantined : quarantined (cs_state cs) = quarantined c0;
  ci_unleased p : resolved c0 p = true → leases (cs_state cs) !! p = None;
  ci_handed p : is_Some (leases (cs_state cs) !! p) → is_Some (handed (cs_state cs) !! p);
  ci_bounded p n : handed (cs_state cs) !! p = Some n → 0 ≤ n ≤ max_delivery_attempts capacity;
  ci_stored p : is_Some (handed (cs_state cs) !! p) → stored s p;
  ci_poisoned p : p ∈ cs_poisoned cs → leases (cs_state cs) !! p = None ∧ p ∉ acked c0 ∧
    ∃ e, e ∈ done ∧ position e = p;
  (** the entries seen so far that still have something in front of others *)
  ci_busy e : e ∈ done → resolved c0 (position e) = false → position e ∉ cs_poisoned cs →
    ordering_key (event e) ∈ cs_busy cs;
  ci_busy_leased k : k ∈ cs_busy cs → ∃ e, e ∈ done ∧ ordering_key (event e) = k ∧
    ∃ expiry, leases (cs_state cs) !! position e = Some expiry ∧
      (claim_now claim < expiry ∨ expiry = claim_now claim + claim_lease claim);
  ci_order e e' : e ∈ entries s → e' ∈ entries s → ahead e e' → is_Some (leases (cs_state cs) !! position e') →
    resolved c0 (position e) = true ∨ position e ∈ cs_poisoned cs;
  ci_later e : e ∈ entries s → e ∉ done →
    leases (cs_state cs) !! position e = leases c0 !! position e;
  ci_claimed d : d ∈ cs_claimed cs → ∃ e, e ∈ done ∧ resolved c0 (position e) = false ∧
    delivery_event d = event e ∧ lease_expires_at d = claim_now claim + claim_lease claim ∧
    delivery_id d = mkDeliveryId consumer (event_id (event e)) (d_attempt (delivery_id d)) ∧
    leases (cs_state cs) !! position e = Some (lease_expires_at d) ∧
    handed (cs_state cs) !! position e = Some (d_attempt (delivery_id d)) ∧ 1 ≤ d_attempt (delivery_id d);
  ci_keys : NoDup ((λ d, ordering_key (delivery_event d)) <$> cs_claimed cs);
  ci_keys_busy d : d ∈ cs_claimed cs → ordering_key (delivery_event d) ∈ cs_busy cs;
}.

Section ClaimStep.
Context (s : Storage) (c0 : ConsumerState) (claim : Claim) (consumer : ConsumerId).
Context (Hwf : storage_wf s) (Hc0 : consumer_wf s c0).
Context (seen rest : list Entry) (e : Entry) (Hsplit : entries s = seen ++ e :: rest).

Lemma current_stored : e ∈ entries s.
Proof. rewrite Hsplit. set_solver. Qed.

Lemma seen_stored x : x ∈ seen → x ∈ entries s.
Proof. rewrite Hsplit. set_solver. Qed.

Lemma seen_other x : x ∈ seen → position x ≠ position e.
Proof.
  intros Hx. apply list_elem_of_lookup in Hx as [i Hi].
  assert (position x < position e); [|lia].
  apply (sorted_lookup_lt s i (length seen) x e Hwf); rewrite ?Hsplit.
  - rewrite lookup_app_l; [done|]. by eapply lookup_lt_Some.
  - by rewrite list_lookup_middle.
  - by eapply lookup_lt_Some.
Qed.

(** Entries ahead of the current one have been seen. *)
Lemma ahead_seen x : x ∈ entries s → position x < position e → x ∈ seen.
Proof.
  intros Hx Hlt. rewrite Hsplit in Hx. apply elem_of_app in Hx as [Hx|Hx]; [done|].
  apply list_elem_of_lookup in Hx as [[|i] Hi]; simpl in Hi; [simplify_eq; lia|].
  assert (position e < position x); [|lia].
  apply (sorted_lookup_lt s (length seen) (length seen + S i) e x Hwf); rewrite ?Hsplit; [| |lia].
  - by rewrite list_lookup_middle.
  - rewrite lookup_app_r by lia. by replace (length seen + S i - length seen)%nat with (S i) by lia.
Qed.

Lemma seen_extend x : x ∈ seen ++ [e] ↔ x ∈ seen ∨ x = e.
Proof. rewrite elem_of_app, list_elem_of_singleton. done. Qed.

(** The current entry stays out of the way: it is resolved, or its key is busy. *)
Lemma claim_skip cs ls busy :
  claim_inv s c0 claim consumer seen cs →
  (∀ p, p ≠ position e → ls !! p = leases (cs_state cs) !! p) →
  (ls !! position e = leases (cs_state cs) !! position e ∨ ls !! position e = None) →
  cs_busy cs ⊆ busy →
  (∀ k, k ∈ busy → k ∈ cs_busy cs ∨ k = ordering_key (event e) ∧ ∃ expiry, ls !! position e = Some expiry ∧
     claim_now claim < expiry) →
  (resolved c0 (position e) = true ∨ ordering_key (event e) ∈ busy) →
  claim_inv s c0 claim consumer (seen ++ [e])
    (mkClaimState (mkConsumer (acked (cs_state cs)) (quarantined (cs_state cs)) (handed (cs_state cs)) ls)
       busy (cs_claimed cs) (cs_poisoned cs)).
Proof.
  intros [I1 I2 I3 I4 I5 I6 I7 I8 I9 I10 I11 I12 I13 I14] Hls Hle Hb Hbk Hskip.
  assert (∀ p, is_Some (ls !! p) → is_Some (leases (cs_state cs) !! p)) as Hsub.
  { intros p Hp. destruct (decide (p = position e)) as [->|Hne]; [|by rewrite <-Hls].
    destruct Hle as [<-|Hn]; [done|]. rewrite Hn in Hp. by destruct Hp. }
  assert (∀ p, leases (cs_state cs) !! p = None → ls !! p = None) as Hnone.
  { intros p Hp. destruct (ls !! p) eqn:E; [|done]. destruct (Hsub p) as [y Hy]; [by rewrite E|congruence]. }
  split; simpl; try done.
  - intros p Hr. by apply Hnone, I3.
  - intros p Hp. by apply I4, Hsub.
  - intros p Hp. destruct (I7 p Hp) as (Hl & Hn & x & Hx & Hxp). split_and!; [by apply Hnone|done|].
    exists x. split; [|done]. apply seen_extend. by left.
  - intros x [Hx| ->]%seen_extend Hr Hp; [by apply Hb, I8|]. destruct Hskip; [congruence|done].
  - intros k Hk. destruct (Hbk k Hk) as [Hk'|(-> & expiry & Hex & Hlt)].
    + destruct (I9 k Hk') as (x & Hx & Hkx & expiry & Hl & He). exists x.
      split_and!; [apply seen_extend; by left|done|]. exists expiry. by rewrite Hls by (by apply seen_other).
    + exists e. split_and!; [apply seen_extend; by right|done|]. exists expiry. auto.
  - intros x y Hx Hy Ha Hl. eapply I10; eauto.
  - intros x Hx Hn. rewrite Hls; [|].
    + apply I11; [done|]. intros H. apply Hn, seen_extend. by left.
    + intros Hp. apply Hn, seen_extend. right. by eapply (entry_unique s); [| |apply current_stored|].
  - intros d Hd. destruct (I12 d Hd) as (x & Hx & Hr & H1 & H2 & H3 & H4 & H5). exists x.
    destruct H5 as [H5 H6].
    split_and!; try done; [apply seen_extend; by left|]. by rewrite Hls by (by apply seen_other).
  - intros d Hd. by apply Hb, I14.
Qed.

(** The current entry has used up its attempts. *)
Lemma claim_poison cs :
  claim_inv s c0 claim consumer seen cs → resolved c0 (position e) = false →
  claim_inv s c0 claim consumer (seen ++ [e])
    (mkClaimState (drop_lease (position e) (cs_state cs)) (cs_busy cs) (cs_claimed cs)
       (cs_poisoned cs ++ [position e])).
Proof.
  intros [I1 I2 I3 I4 I5 I6 I7 I8 I9 I10 I11 I12 I13 I14] Hr. split; simpl; try done.
  - intros p Hp. apply lookup_delete_None. right. by apply I3.
  - intros p [z [_ Hz]%lookup_delete_Some]. apply I4. by exists z.
  - intros p [Hp|Hp]%elem_of_app.
    + destruct (I7 p Hp) as (Hl & Hn & x & Hx & Hxp). split_and!; [apply lookup_delete_None; by right|done|].
      exists x. split; [|done]. apply seen_extend. by left.
    + apply list_elem_of_singleton in Hp as ->. split_and!; [apply lookup_delete_eq| |].
      * intros Ha. assert (resolved c0 (position e) = true) by (apply resolved_true; by left). congruence.
      * exists e. split; [|done]. apply seen_extend. by right.
  - intros x [Hx| ->]%seen_extend Hrx Hp; [apply I8; set_solver|]. set_solver.
  - intros k Hk. destruct (I9 k Hk) as (x & Hx & Hkx & expiry & Hl & He). exists x.
    split_and!; [apply seen_extend; by left|done|]. exists expiry.
    rewrite lookup_delete_ne by (apply not_eq_sym; by apply seen_other). done.
  - intros x y Hx Hy Ha [z [_ Hz]%lookup_delete_Some].
    destruct (I10 x y) as [?|?]; [done..|by exists z|by left|]. right. set_solver.
  - intros x Hx Hn. rewrite lookup_delete_ne.
    + apply I11; [done|]. intros H. apply Hn, seen_extend. by left.
    + intros Hp. apply Hn, seen_extend. right. eapply (entry_unique s); [done|done|apply current_stored|congruence].
  - intros d Hd. destruct (I12 d Hd) as (x & Hx & Hrx & H1 & H2 & H3 & H4 & H5 & H6). exists x.
    split_and!; try done; [apply seen_extend; by left|].
    rewrite lookup_delete_ne by (apply not_eq_sym; by apply seen_other). done.
Qed.

(** The current entry is handed out. *)
Lemma claim_hand_out cs attempt :
  claim_inv s c0 claim consumer seen cs → resolved c0 (position e) = false →
  ordering_key (event e) ∉ cs_busy cs → 1 ≤ attempt ≤ max_delivery_attempts capacity →
  let expiry := claim_now claim + claim_lease claim in
  claim_inv s c0 claim consumer (seen ++ [e])
    (mkClaimState (hand_out (position e) attempt expiry (drop_lease (position e) (cs_state cs)))
       ({[ordering_key (event e)]} ∪ cs_busy cs)
       (cs_claimed cs ++ [mkDelivery (mkDeliveryId consumer (event_id (event e)) attempt) (event e) expiry])
       (cs_poisoned cs)).
Proof.
  intros [I1 I2 I3 I4 I5 I6 I7 I8 I9 I10 I11 I12 I13 I14] Hr Hb Hat expiry.
  assert (∀ p, p ≠ position e →
    <[position e:=expiry]> (delete (position e) (leases (cs_state cs))) !! p = leases (cs_state cs) !! p) as Hne.
  { intros p Hp. by rewrite lookup_insert_ne, lookup_delete_ne. }
  split; simpl; try done.
  - intros p Hp. rewrite Hne; [by apply I3|]. intros ->. congruence.
  - intros p Hp. destruct (decide (p = position e)) as [->|Hpe]; [by rewrite lookup_insert_eq|].
    rewrite lookup_insert_ne by done. apply I4. by rewrite Hne in Hp.
  - intros p n [[<- <-]|[_ Hp]]%lookup_insert_Some; [lia|by eapply I5].
  - intros p [n [[<- _]|[_ Hp]]%lookup_insert_Some]; [exists e; by split; [apply current_stored|]|].
    apply I6. by exists n.
  - intros p Hp. destruct (I7 p Hp) as (Hl & Hn & x & Hx & Hxp).
    split_and!; [rewrite Hne; [done|rewrite <-Hxp; by apply seen_other]|done|].
    exists x. split; [|done]. apply seen_extend. by left.
  - intros x [Hx| ->]%seen_extend Hrx Hp; [|set_solver]. apply elem_of_union. right. by apply I8.
  - intros k [Hk|Hk]%elem_of_union.
    + apply elem_of_singleton in Hk as ->. exists e. split_and!; [apply seen_extend; by right|done|].
      exists expiry. rewrite lookup_insert_eq. auto.
    + destruct (I9 k Hk) as (x & Hx & Hkx & ex & Hl & He). exists x.
      split_and!; [apply seen_extend; by left|done|]. exists ex. by rewrite Hne by (by apply seen_other).
  - intros x y Hx Hy [Hk Hlt] Hl. destruct (decide (position y = position e)) as [Hye|Hye].
    + assert (y = e) as -> by (by eapply (entry_unique s); [| |apply current_stored|]).
      destruct (resolved c0 (position x)) eqn:Hrx; [by left|].
      destruct (decide (position x ∈ cs_poisoned cs)) as [Hp|Hp]; [by right|]. destruct Hb. rewrite <-Hk.
      apply I8; [by apply ahead_seen|done|done].
    + rewrite Hne in Hl by done. by apply (I10 x y).
  - intros x Hx Hn. rewrite Hne.
    + apply I11; [done|]. intros H. apply Hn, seen_extend. by left.
    + intros Hp. apply Hn, seen_extend. right. by eapply (entry_unique s); [| |apply current_stored|].
  - intros d [Hd|Hd]%elem_of_app.
    + destruct (I12 d Hd) as (x & Hx & Hrx & H1 & H2 & H3 & H4 & H5 & H6). exists x.
      pose proof (seen_other x Hx) as Hxe.
      split_and!; try done; [apply seen_extend; by left|by rewrite Hne|by rewrite lookup_insert_ne].
    + apply list_elem_of_singleton in Hd as ->. exists e. simpl. rewrite !lookup_insert_eq.
      split_and!; try done; [apply seen_extend; by right|lia].
  - rewrite fmap_app. apply NoDup_app. split_and!; [done| |apply NoDup_singleton].
    intros k Hk Hk'. apply list_elem_of_fmap in Hk as (d & -> & Hd). simpl in Hk'.
    apply list_elem_of_singleton in Hk'. apply Hb. rewrite <-Hk'. by apply I14.
  - intros d [Hd|Hd]%elem_of_app; [apply elem_of_union; right; by apply I14|].
    apply list_elem_of_singleton in Hd as ->. set_solver.
Qed.

Lemma claim_free_inv cs c :
  claim_inv s c0 claim consumer seen cs → resolved c0 (position e) = false →
  c = drop_lease (position e) (cs_state cs) →
  claim_inv s c0 claim consumer (seen ++ [e]) (claim_free consumer claim e c cs).2.
Proof.
  intros Hinv Hr ->. unfold claim_free. destruct (decide (_ ∈ cs_busy cs)) as [Hb|Hb]; simpl.
  - apply claim_skip; try done.
    + intros p Hp. by apply lookup_delete_ne.
    + right. apply lookup_delete_eq.
    + auto.
    + by right.
  - destruct (max_delivery_attempts capacity <? _) eqn:Hm; simpl; [by apply claim_poison|]. reflect_bools.
    apply claim_hand_out; try done. split; [|done].
    destruct (handed (cs_state cs) !! position e) as [n|] eqn:Hn; simpl; [|lia].
    pose proof (ci_bounded _ _ _ _ _ _ Hinv _ _ Hn). lia.
Qed.

Lemma claim_entry_inv cs :
  claim_inv s c0 claim consumer seen cs →
  claim_inv s c0 claim consumer (seen ++ [e]) (claim_entry consumer claim e cs).2.
Proof.
  intros Hinv. pose proof Hinv as [I1 I2 _ _ _ _ _ _ _ _ _ _ _ _].
  assert (resolved (cs_state cs) (position e) = resolved c0 (position e)) as Hres
    by (unfold resolved; by rewrite I1, I2).
  assert (cs = mkClaimState (mkConsumer (acked (cs_state cs)) (quarantined (cs_state cs))
    (handed (cs_state cs)) (leases (cs_state cs))) (cs_busy cs) (cs_claimed cs) (cs_poisoned cs)) as Hcs
    by (by destruct cs as [[] ? ? ?]).
  unfold claim_entry. rewrite Hres. destruct (resolved c0 (position e)) eqn:Hr; simpl.
  { rewrite Hcs. apply claim_skip; auto. }
  destruct (leases (cs_state cs) !! position e) as [expiry|] eqn:Hl.
  - destruct (claim_now claim <? expiry) eqn:Hlive; simpl; [|by apply claim_free_inv].
    reflect_bools. destruct (cs_state cs) as [a q h ls] eqn:Hst. simpl in *.
    pose proof (claim_skip cs ls ({[ordering_key (event e)]} ∪ cs_busy cs) Hinv) as Hskip.
    rewrite Hst in Hskip. simpl in Hskip. apply Hskip; auto; [set_solver| |right; set_solver].
    intros k [Hk|Hk]%elem_of_union; [|by left]. right. apply elem_of_singleton in Hk as ->. eauto.
  - apply claim_free_inv; [done..|]. unfold drop_lease. rewrite delete_id by done.
    by destruct (cs_state cs).
Qed.

End ClaimStep.

Lemma claim_loop_inv s c0 claim consumer seen rest cs :
  storage_wf s → consumer_wf s c0 → entries s = seen ++ rest →
  claim_inv s c0 claim consumer seen cs →
  (length (cs_claimed cs) < Nat.max 1 (claim_max_events claim))%nat →
  ∃ seen' rest', entries s = seen' ++ rest' ∧
    claim_inv s c0 claim consumer seen' (claim_loop consumer claim rest cs) ∧
    (rest' = [] ∨ (claim_max_events claim ≤ length (cs_claimed (claim_loop consumer claim rest cs)))%nat) ∧
    (length (cs_claimed (claim_loop consumer claim rest cs)) ≤ Nat.max 1 (claim_max_events claim))%nat.
Proof.
  intros Hwf Hc0. revert seen cs. induction rest as [|e rest IH]; intros seen cs Hs Hinv Hlen; simpl.
  { exists seen, []. split_and!; auto. lia. }
  pose proof (claim_entry_inv s c0 claim consumer Hwf Hc0 seen rest e Hs cs Hinv) as Hnext.
  destruct (claim_entry consumer claim e cs) as [stop cs'] eqn:He. simpl in Hnext.
  assert (entries s = (seen ++ [e]) ++ rest) as Hs' by (by rewrite <-(assoc_L (++))).
  assert (if stop then (claim_max_events claim ≤ length (cs_claimed cs') ≤ Nat.max 1 (claim_max_events claim))%nat
    else (length (cs_claimed cs') < Nat.max 1 (claim_max_events claim))%nat) as Hstop.
  { clear -He Hlen. unfold claim_entry, claim_free in He.
    repeat case_match; simplify_eq; simpl in *; rewrite ?length_app in *; simpl in *;
      repeat match goal with
      | H : (_ <=? _)%nat = true |- _ => apply Nat.leb_le in H
      | H : (_ <=? _)%nat = false |- _ => apply Nat.leb_gt in H
      end; lia. }
  destruct stop; [|by eapply IH].
  exists (seen ++ [e]), rest. split_and!; [done..| |]; [right|]; lia.
Qed.

Lemma claim_start s c0 claim consumer :
  consumer_wf s c0 → claim_inv s c0 claim consumer [] (mkClaimState c0 ∅ [] []).
Proof.
  intros Hc. split; simpl; try set_solver.
  - intros p. apply (resolved_unleased _ _ Hc).
  - intros p. apply (leased_handed _ _ Hc).
  - intros p n. apply (handed_bounded _ _ Hc).
  - intros p. apply (handed_stored _ _ Hc).
  - intros e e' He He' Ha Hl. left. by eapply (leased_in_order _ _ Hc).
  - constructor.
Qed.

Lemma consumer_default_wf s : consumer_wf s consumer_default.
Proof.
  split; unfold consumer_default, resolved; simpl;
    try (by intros p ?%elem_of_empty); try (intros p; rewrite lookup_empty; by intros []).
  intros p n. by rewrite lookup_empty.
Qed.

(** The verdicts at the end of a claim. *)
Lemma condemn_all c ps :
  let c' := foldl (λ c p, condemn AttemptsExhausted p c) c ps in
  acked c' = acked c ∧ handed c' = handed c ∧
  (∀ p, is_Some (quarantined c' !! p) ↔ is_Some (quarantined c !! p) ∨ p ∈ ps) ∧
  (∀ p, leases c' !! p = if decide (p ∈ ps) then None else leases c !! p).
Proof.
  revert c. induction ps as [|q ps IH]; intros c; cbn [foldl].
  { split_and!; try done. intros p. split; [by left|]. intros [?|?%elem_of_nil]; done. }
  destruct (IH (condemn AttemptsExhausted q c)) as (H1 & H2 & H3 & H4). simpl in *. split_and!; [done..| |].
  - intros p. rewrite H3, elem_of_cons. simpl. destruct (decide (p = q)) as [->|Hp].
    + rewrite lookup_insert_eq. naive_solver.
    + rewrite lookup_insert_ne by done. naive_solver.
  - intros p. rewrite H4. simpl. destruct (decide (p = q)) as [->|Hp].
    + rewrite lookup_delete_eq, (decide_True (P := q ∈ q :: ps)) by set_solver. by destruct (decide _).
    + rewrite lookup_delete_ne by done. apply decide_ext. set_solver.
Qed.

(** What a claim hands out, and the state it leaves. *)
Definition handed_out (s : Storage) (claim : Claim) (consumer : ConsumerId) (c' : ConsumerState) (d : Delivery)
    : Prop :=
  ∃ e, e ∈ entries s ∧ delivery_event d = event e ∧ resolved c' (position e) = false ∧
    lease_expires_at d = claim_now claim + claim_lease claim ∧
    delivery_id d = mkDeliveryId consumer (event_id (event e)) (d_attempt (delivery_id d)) ∧
    1 ≤ d_attempt (delivery_id d) ≤ max_delivery_attempts capacity ∧
    leases c' !! position e = Some (lease_expires_at d) ∧
    ∀ x, x ∈ entries s → ahead x e → resolved c' (position x) = true.

Lemma claim_events_spec s consumer claim :
  storage_wf s →
  ∃ c', (claim_events s consumer claim).2 = set_consumers s (<[consumer := c']> (consumers s)) ∧
    consumer_wf s c' ∧
    (∀ p, resolved (default consumer_default (consumers s !! consumer)) p = true → resolved c' p = true) ∧
    acked c' = acked (default consumer_default (consumers s !! consumer)) ∧
    let ds := (claim_events s consumer claim).1 in
    (length ds ≤ Nat.max 1 (claim_max_events claim))%nat ∧
    NoDup ((λ d, ordering_key (delivery_event d)) <$> ds) ∧
    Forall (handed_out s claim consumer c') ds ∧
    ((length ds < claim_max_events claim)%nat →
     ∀ e, e ∈ entries s → resolved c' (position e) = false →
       ∃ x expiry, x ∈ entries s ∧ ordering_key (event x) = ordering_key (event e) ∧
         position x ≤ position e ∧ leases c' !! position x = Some expiry ∧
         (claim_now claim < expiry ∨ expiry = claim_now claim + claim_lease claim)).
Proof.
  intros Hwf. unfold claim_events. set (c0 := default consumer_default (consumers s !! consumer)).
  assert (consumer_wf s c0) as Hc0.
  { unfold c0. destruct (consumers s !! consumer) as [c|] eqn:Hc; simpl;
      [by eapply consumers_wf|apply consumer_default_wf]. }
  destruct (claim_loop_inv s c0 claim consumer [] (entries s) (mkClaimState c0 ∅ [] []) Hwf Hc0 eq_refl
    (claim_start s c0 claim consumer Hc0)) as (seen & rest & Hs & Hinv & Hend & Hlen); [simpl; lia|].
  set (cs := claim_loop consumer claim (entries s) _) in *. clearbody cs.
  destruct (condemn_all (cs_state cs) (cs_poisoned cs)) as (Ha & Hh & Hq & Hl).
  set (c' := foldl _ _ _) in *. clearbody c'. simpl. exists c'.
  pose proof Hinv as [I1 I2 I3 I4 I5 I6 I7 I8 I9 I10 I11 I12 I13 I14].
  assert (∀ p, resolved c' p = true ↔ resolved c0 p = true ∨ p ∈ cs_poisoned cs) as Hres.
  { intros p. rewrite !resolved_true, Hq, Ha, I1, I2. tauto. }
  assert (∀ p v, leases c' !! p = Some v → p ∉ cs_poisoned cs ∧ leases (cs_state cs) !! p = Some v) as Hls.
  { intros p v. rewrite Hl. destruct (decide _); [done|]. auto. }
  assert (∀ e e', e ∈ entries s → e' ∈ entries s → ahead e e' → is_Some (leases c' !! position e') →
    resolved c' (position e) = true) as Horder.
  { intros e e' He He' Hah [v Hv]. apply Hls in Hv as [_ Hv]. apply Hres. eapply I10; eauto. }
  assert (consumer_wf s c') as Hwf'.
  { split.
    - intros p Hp. rewrite Ha, I1 in Hp. apply eq_None_not_Some. rewrite Hq, I2. intros [H|H].
      + pose proof (verdict_exclusive _ _ Hc0 p Hp) as Hn. rewrite Hn in H. by destruct H.
      + by destruct (I7 p H) as (_ & ? & _).
    - intros p Hr. rewrite Hl. destruct (decide (p ∈ cs_poisoned cs)) as [|Hn]; [done|].
      apply Hres in Hr as [Hr|Hr]; [by apply I3|done].
    - intros p [v Hv]. apply Hls in Hv as [_ Hv]. rewrite Hh. by apply I4; eexists.
    - intros p n. rewrite Hh. apply I5.
    - intros p. rewrite Ha, I1. apply (acked_stored _ _ Hc0).
    - intros p. rewrite Hq, I2. intros [Hp|Hp]; [by apply (quarantined_stored _ _ Hc0)|].
      destruct (I7 p Hp) as (_ & _ & e & He & <-). exists e. split; [|done]. rewrite Hs. set_solver.
    - intros p. rewrite Hh. apply I6.
    - apply Horder. }
  split_and!; [done|done| | |done|done| |].
  - intros p Hr. apply Hres. by left.
  - by rewrite Ha, I1.
  - apply list.Forall_forall. intros d Hd. destruct (I12 d Hd) as (e & He & Hr & H1 & H2 & H3 & H4 & H5 & H6).
    assert (position e ∉ cs_poisoned cs) as Hp by (intros Hp; destruct (I7 _ Hp) as (? & _); congruence).
    assert (leases c' !! position e = Some (lease_expires_at d)) as Hle by (rewrite Hl, decide_False; done).
    assert (e ∈ entries s) as Hes by (rewrite Hs; set_solver).
    exists e. split_and!; try done.
    + apply not_true_is_false. rewrite Hres. naive_solver.
    + by apply (I5 (position e)).
    + intros x Hx Hah. apply (Horder x e); [done..|by rewrite Hle].
  - intros Hroom e He Hr. destruct Hend as [->|Hend]; [|lia]. rewrite app_nil_r in Hs. subst seen.
    assert (¬ (resolved c0 (position e) = true ∨ position e ∈ cs_poisoned cs)) as Hnr
      by (rewrite <-Hres; congruence).
    destruct (I9 (ordering_key (event e))) as (x & Hx & Hk & expiry & Hlx & Hex).
    { apply I8; [done|destruct (resolved c0 _); naive_solver|naive_solver]. }
    assert (position x ∉ cs_poisoned cs) as Hp by (intros Hp; destruct (I7 _ Hp) as (? & _); congruence).
    assert (leases c' !! position x = Some expiry) as Hle by (rewrite Hl, decide_False; done).
    exists x, expiry. split_and!; try done.
    destruct (decide (position x ≤ position e)) as [?|Hlt]; [done|].
    assert (resolved c' (position e) = true); [|congruence]. apply (Horder e x); [done..| |by rewrite Hle].
    split; [done|lia].
Qed.

(** ** Lemmas: verdicts *)

Lemma set_consumer_wf s name c :
  storage_wf s → consumer_wf s c → storage_wf (set_consumers s (<[name := c]> (consumers s))).
Proof.
  intros [H1 H2 H3 H4 H5 H6] Hc. split; try done. simpl.
  intros name' c' [[_ <-]|[_ Hc']]%lookup_insert_Some; [by destruct Hc; split|].
  destruct (H5 name' c' Hc'). by split.
Qed.

Lemma acked_wf s c p :
  consumer_wf s c → stored s p → quarantined c !! p = None →
  consumer_wf s (mkConsumer ({[p]} ∪ acked c) (quarantined c) (handed c) (delete p (leases c))).
Proof.
  intros [H1 H2 H3 H4 H5 H6 H7 H8] Hst Hq. split; simpl.
  - intros q [->%elem_of_singleton|Hin]%elem_of_union; [done|by apply H1].
  - intros q Hr. apply lookup_delete_None. destruct (decide (p = q)) as [|Hne]; [by left|right].
    apply H2. apply resolved_true in Hr as [Hr|Hr]; apply resolved_true; simpl in *; [left; set_solver|by right].
  - intros q [v [_ Hv]%lookup_delete_Some]. apply H3. by exists v.
  - done.
  - intros q [->%elem_of_singleton|Hin]%elem_of_union; [done|by apply H5].
  - done.
  - done.
  - intros e e' He He' Ha [v [_ Hv]%lookup_delete_Some].
    assert (resolved c (position e) = true) as Hr by (by apply (H8 e e'); [..|exists v]).
    apply resolved_true in Hr as [Hr|Hr]; apply resolved_true; simpl; [left; set_solver|by right].
Qed.

Lemma condemned_wf s c p reason :
  consumer_wf s c → stored s p → p ∉ acked c → consumer_wf s (condemn reason p c).
Proof.
  intros [H1 H2 H3 H4 H5 H6 H7 H8] Hst Hn. split; simpl.
  - intros q Hq. rewrite lookup_insert_ne; [by apply H1|]. by intros ->.
  - intros q Hr. apply lookup_delete_None. destruct (decide (p = q)) as [|Hne]; [by left|right].
    apply H2. apply resolved_true in Hr. apply resolved_true. simpl in Hr. by rewrite lookup_insert_ne in Hr.
  - intros q [v [_ Hv]%lookup_delete_Some]. apply H3. by exists v.
  - done.
  - done.
  - intros q [v [[<- _]|[_ Hv]]%lookup_insert_Some]; [done|]. apply H6. by exists v.
  - done.
  - intros e e' He He' Ha [v [_ Hv]%lookup_delete_Some].
    assert (resolved c (position e) = true) as Hr by (by apply (H8 e e'); [..|exists v]).
    apply resolved_true in Hr as [Hr|Hr]; apply resolved_true; simpl; [by left|right].
    apply lookup_insert_is_Some. destruct (decide (p = position e)); auto.
Qed.

Lemma refunded_wf s c p n d :
  consumer_wf s c → handed c !! p = Some n →
  consumer_wf s (mkConsumer (acked c) (quarantined c)
    (if n =? d then <[p := saturating_sub n 1]> (handed c) else handed c) (leases c)).
Proof.
  intros Hc Hn. destruct (n =? d); [|by destruct c].
  destruct Hc as [H1 H2 H3 H4 H5 H6 H7 H8]. split; simpl; try done.
  - intros q Hl. apply lookup_insert_is_Some. destruct (decide (p = q)); auto.
  - intros q m [[<- <-]|[_ Hm]]%lookup_insert_Some; [|by eapply H4].
    pose proof (H4 _ _ Hn). unfold saturating_sub. lia.
  - intros q [m [[<- _]|[_ Hm]]%lookup_insert_Some]; apply H7; by eexists.
Qed.

Lemma indexed_stored s k p : storage_wf s → positions s !! k = Some p → stored s p.
Proof. intros Hwf (e & He & Hp & _)%(positions_index s Hwf). by exists e. Qed.

Lemma ack_wf s d : storage_wf s → storage_wf (ack s d).2.
Proof.
  intros Hwf. unfold ack. destruct (position_of s d) as [p|] eqn:Hp; [|done].
  destruct (consumers s !! d_consumer d) as [c|] eqn:Hc; [|done].
  repeat case_decide; try done. apply set_consumer_wf; [done|].
  apply acked_wf; [by eapply consumers_wf|by eapply indexed_stored|by apply eq_None_not_Some].
Qed.

Lemma relinquish_wf s d : storage_wf s → storage_wf (relinquish s d).2.
Proof.
  intros Hwf. unfold relinquish. destruct (position_of s d) as [p|] eqn:Hp; [|done].
  destruct (consumers s !! d_consumer d) as [c|] eqn:Hc; [|done].
  destruct (resolved c p); [done|]. destruct (handed c !! p) as [n|] eqn:Hn; [|done].
  apply set_consumer_wf; [done|]. apply refunded_wf; [by eapply consumers_wf|done].
Qed.

Lemma quarantine_wf s d reason : storage_wf s → storage_wf (quarantine s d reason).2.
Proof.
  intros Hwf. unfold quarantine. destruct (position_of s d) as [p|] eqn:Hp; [|done].
  destruct (consumers s !! d_consumer d) as [c|] eqn:Hc; [|done].
  repeat case_decide; try done. apply set_consumer_wf; [done|].
  apply condemned_wf; [by eapply consumers_wf|by eapply indexed_stored|done].
Qed.

(** ** The life of a journal *)

Inductive JournalOp :=
| OAppend (now : Z) (o : ObservedRecord)
| OClaim (consumer : ConsumerId) (claim : Claim)
| OAck (d : DeliveryId)
| ORelinquish (d : DeliveryId)
| OQuarantine (d : DeliveryId) (reason : PoisonReason).

(** [None] is a panic. *)
Definition step (s : Storage) (o : JournalOp) : option Storage :=
  match o with
  | OAppend now o =>
      match UsageEvent_new o with
      | Ok e => snd <$> append s now e
      | Err _ => Some s
      end
  | OClaim consumer claim => Some (claim_events s consumer claim).2
  | OAck d => Some (ack s d).2
  | ORelinquish d => Some (relinquish s d).2
  | OQuarantine d reason => Some (quarantine s d reason).2
  end.

Fixpoint run (s : Storage) (ops : list JournalOp) : option Storage :=
  match ops with [] => Some s | o :: ops => s ← step s o; run s ops end.

(** An event as [UsageEvent::new] makes it. *)
Definition event_ok (e : UsageEvent) : Prop :=
  UsageEvent_new (mkObservedRecord (event_record e) (event_observed_at e)) = Ok e.

Definition journal_ok (s : Storage) : Prop := storage_wf s ∧ ∀ e, e ∈ entries s → event_ok (event e).

Lemma UsageEvent_new_ok o e : UsageEvent_new o = Ok e → event_ok e.
Proof.
  unfold event_ok, UsageEvent_new. destruct o as [r t]. simpl.
  destruct (RequestId_parse (request_id r)) as [id|] eqn:Hid; [|done]. intros [= <-]. simpl. by rewrite Hid.
Qed.

Lemma event_ok_key e : event_ok e → idempotency_key e = key_of_id (event_id e).
Proof.
  unfold event_ok, UsageEvent_new. simpl. destruct (RequestId_parse _); [|done]. by intros [= <-].
Qed.

(** What an append can do. *)
Definition append_effect (s : Storage) (now : Z) (e : UsageEvent) (r : result JournalError Appended)
    (s' : Storage) : Prop :=
  let s1 := prune_acknowledged s (retain_acknowledged capacity) now in
  gives_up_delivered s s1 ∧
  match positions s1 !! idempotency_key e with
  | Some p =>
      s' = s1 ∧ ∃ x, x ∈ entries s1 ∧ position x = p ∧
        r = if is_same_fact_as (event x) e then Ok (AlreadyPresent p) else Err (Conflict (idempotency_key e))
  | None =>
      match r with
      | Ok a => a = Accepted (next_position s) ∧
          ∃ s2, (gives_up_delivered s s2 ∨ drops_oldest s1 s2) ∧ full s2 = false ∧ s' = store_entry s2 e ∧
            next_position s2 = next_position s ∧ storage_wf s'
      | Err err => gives_up_delivered s s' ∧ err = at_capacity s' ∧ full s' = true ∧
          (policy capacity = Refuse ∨ Forall (λ x, is_quarantined s' (position x) = true) (entries s'))
      end
  end.

Lemma append_total s now e : storage_wf s → ∃ r s', append s now e = Some (r, s') ∧ append_effect s now e r s'.
Proof.
  intros Hwf. unfold append, append_effect. cbv zeta.
  pose proof (prune_gives_up s (retain_acknowledged capacity) now Hwf) as Hg.
  set (s1 := prune_acknowledged s (retain_acknowledged capacity) now) in *.
  pose proof Hg as (Hwf1 & Hn1 & _). destruct (positions s1 !! idempotency_key e) as [p|] eqn:Hp.
  - apply (positions_index s1 Hwf1) in Hp as (x & Hx & Hxp & _).
    rewrite (proj2 (entry_Some s1 p x Hwf1)) by done. simpl.
    destruct (is_same_fact_as (event x) e) eqn:Hsame; eexists _, _;
      (split; [done|]); (split; [done|]); (split; [done|]); exists x; by rewrite Hsame.
  - pose proof (make_room_spec s1 Hwf1) as Hroom. destruct (make_room s1) as [[[]|err] s2].
    + eexists _, _. split; [done|]. split; [done|].
      assert (next_position s2 = next_position s1 ∧ full s2 = false ∧ storage_wf s2) as (Hn2 & Hf2 & Hwf2).
      { destruct Hroom as [[(? & ? & _) ?]|(_ & ? & ? & _ & ? & _)]; done. }
      split; [by rewrite Hn2, Hn1|]. exists s2.
      assert (positions s2 !! idempotency_key e = None) as Hnone.
      { apply eq_None_not_Some. intros [q Hq]. apply (positions_index s2 Hwf2) in Hq as (x & Hx & Hxq & Hk).
        assert (x ∈ entries s1) as Hx1.
        { destruct Hroom as [[(_ & _ & _ & _ & _ & Hsub & _) _]|(_ & _ & _ & _ & _ & y & s3 & Hg3 & _ & _ & _ & Hy)].
          - by apply Hsub.
          - apply Hy in Hx as [Hx _]. destruct Hg3 as (_ & _ & _ & _ & _ & Hsub & _). by apply Hsub. }
        assert (positions s1 !! idempotency_key e = Some (position x)); [|congruence].
        apply (positions_index s1 Hwf1). by exists x. }
      split_and!; [|done|done|by rewrite Hn2|by apply store_entry_wf].
      destruct Hroom as [[Hg2 _]|Hd]; [left; by eapply gives_up_trans|by right].
    + eexists _, _. split; [done|]. split; [done|]. destruct Hroom as (Hg2 & Hrest). split; [|done].
      by eapply gives_up_trans.
Qed.

(** What an append leaves stored was stored before, or is the new event. *)
Lemma append_effect_entries s now e r s' x :
  append_effect s now e r s' → x ∈ entries s' → x ∈ entries s ∨ x = mkEntry (next_position s) e.
Proof.
  unfold append_effect. cbv zeta. set (s1 := prune_acknowledged _ _ _).
  intros [(_ & _ & _ & _ & _ & Hsub & _) Hcase] Hx.
  destruct (positions s1 !! idempotency_key e) as [p|].
  { destruct Hcase as [-> _]. left. by apply Hsub. }
  destruct r as [a|err].
  - destruct Hcase as (_ & s2 & Hs2 & _ & -> & Hn & _). simpl in Hx.
    apply elem_of_app in Hx as [Hx|Hx]; [left|right; apply list_elem_of_singleton in Hx; by rewrite <-Hn].
    destruct Hs2 as [(_ & _ & _ & _ & _ & Hsub2 & _)|(_ & _ & _ & _ & _ & y & s3 & Hg & _ & _ & _ & Hy)].
    + by apply Hsub2.
    + apply Hy in Hx as [Hx _]. destruct Hg as (_ & _ & _ & _ & _ & Hsub2 & _). by apply Hsub, Hsub2.
  - destruct Hcase as ((_ & _ & _ & _ & _ & Hsub2 & _) & _). left. by apply Hsub2.
Qed.

Lemma append_effect_wf s now e r s' : append_effect s now e r s' → storage_wf s'.
Proof.
  unfold append_effect. cbv zeta. set (s1 := prune_acknowledged _ _ _). intros [(Hwf & _) Hcase].
  destruct (positions s1 !! idempotency_key e) as [p|]; [by destruct Hcase as [-> _]|].
  destruct r; [by destruct Hcase as (_ & s2 & _ & _ & _ & _ & ?)|by destruct Hcase as ((? & _) & _)].
Qed.

Lemma same_entries s o s' :
  match o with OAppend _ _ => False | _ => True end → step s o = Some s' → entries s' = entries s.
Proof.
  destruct o as [now ob|consumer claim|d|d|d reason]; [done|..]; intros _ [= <-].
  - done.
  - unfold ack. repeat case_match; done.
  - unfold relinquish. repeat case_match; done.
  - unfold quarantine. repeat case_match; done.
Qed.

Lemma step_ok s o : journal_ok s → ∃ s', step s o = Some s' ∧ journal_ok s'.
Proof.
  intros [Hwf Hev].
  assert (∀ s', step s o = Some s' → entries s' = entries s → storage_wf s' → ∃ s', step s o = Some s' ∧ journal_ok s')
    as Hsame by (intros s' H1 H2 H3; exists s'; split; [done|]; split; [done|by rewrite H2]).
  destruct o as [now ob|consumer claim|d|d|d reason].
  - simpl. destruct (UsageEvent_new ob) as [e|err] eqn:He; [|by eexists].
    destruct (append_total s now e Hwf) as (r & s' & -> & Heff). simpl. exists s'. split; [done|].
    split; [by eapply append_effect_wf|]. intros x Hx.
    destruct (append_effect_entries _ _ _ _ _ _ Heff Hx) as [?| ->]; [by apply Hev|by eapply UsageEvent_new_ok].
  - destruct (claim_events_spec s consumer claim Hwf) as (c' & Hs' & Hc' & _).
    eapply Hsame; [done|by rewrite Hs'|]. rewrite Hs'. by apply set_consumer_wf.
  - eapply Hsame; [done|by apply (same_entries s (OAck d))|by apply ack_wf].
  - eapply Hsame; [done|by apply (same_entries s (ORelinquish d))|by apply relinquish_wf].
  - eapply Hsame; [done|by apply (same_entries s (OQuarantine d reason))|by apply quarantine_wf].
Qed.

Lemma run_ok s ops : journal_ok s → ∃ s', run s ops = Some s' ∧ journal_ok s'.
Proof.
  revert s. induction ops as [|o ops IH]; intros s Hok; [by exists s|]. simpl.
  destruct (step_ok s o Hok) as (s1 & -> & Hok1). simpl. by apply IH.
Qed.

Lemma default_ok : journal_ok storage_default.
Proof.
  split; [|by intros e ?%elem_of_nil]. split; simpl; try done.
  - constructor.
  - intros k p. rewrite lookup_empty. split; [done|]. by intros (e & ?%elem_of_nil & _).
  - lia.
Qed.

(** *** A verdict outlives everything *)

(** The consumer has acknowledged the position or set it aside, or it is gone. *)
Definition settled (s : Storage) (consumer : ConsumerId) (p : Z) : Prop :=
  p < next_position s ∧
  (stored s p → ∃ c, consumers s !! consumer = Some c ∧ resolved c p = true).

Lemma forget_settled s ps consumer p :
  storage_wf s → Forall (λ q, is_quarantined s q = false) ps → settled s consumer p →
  settled (foldl forget s ps) consumer p.
Proof.
  revert s. induction ps as [|q ps IH]; intros s Hwf Hq Hset; [done|].
  apply list.Forall_cons in Hq as [Hq Hqs]. simpl. apply IH; [by apply forget_wf| |].
  { eapply Forall_impl; [exact Hqs|]. intros x. by rewrite forget_quarantined. }
  destruct Hset as [Hlt Hset]. split; [unfold forget; by destruct (entry s q)|].
  intros [Hst Hne]%forget_stored; [|done]. destruct (Hset Hst) as (c & Hc & Hr).
  unfold forget. destruct (entry s q); simpl; [|by exists c].
  exists (forget_state q c). rewrite lookup_fmap, Hc. split; [done|]. by rewrite forget_state_resolved.
Qed.

Lemma delivered_unquarantined s ps :
  (∀ p, p ∈ ps → p ∈ delivered s) → Forall (λ p, is_quarantined s p = false) ps.
Proof. intros Hd. apply list.Forall_forall. intros p Hp. by apply Hd, delivered_elem in Hp as (_ & _ & ? & _). Qed.

Lemma prune_settled s retain now consumer p :
  storage_wf s → settled s consumer p → settled (prune_acknowledged s retain now) consumer p.
Proof.
  intros Hwf. apply forget_settled; [done|]. apply delivered_unquarantined. intros q Hq.
  by apply list_elem_of_filter in Hq as [_ ?].
Qed.

Lemma make_room_settled s consumer p :
  storage_wf s → settled s consumer p → settled (make_room s).2 consumer p.
Proof.
  intros Hwf Hset. unfold make_room.
  assert (storage_wf (if full s then reclaim_delivered s (max_events capacity) else s) ∧
    settled (if full s then reclaim_delivered s (max_events capacity) else s) consumer p) as [Hwf1 Hset1].
  { destruct (full s); [|done]. split; [by apply reclaim_gives_up|].
    unfold reclaim_delivered. destruct (reclaim_prefix (max_events capacity) (delivered s) s) as (qs & Hp & ->).
    apply forget_settled; [done| |done]. apply delivered_unquarantined. intros q Hq. by eapply elem_of_prefix. }
  set (s1 := if full s then _ else s) in *. destruct (full s1); [|done].
  destruct (policy capacity); [done|]. destruct (list_find _ _) as [[i q]|] eqn:Hf; [|done].
  apply list_find_Some in Hf as (_ & Hq & _). apply (forget_settled s1 [q]); [done|by repeat constructor|done].
Qed.

Lemma store_entry_settled s e consumer p : settled s consumer p → settled (store_entry s e) consumer p.
Proof.
  intros [Hlt Hset]. split; [simpl; lia|]. intros (x & Hx & Hxp). apply Hset. simpl in Hx.
  apply elem_of_app in Hx as [Hx|Hx]; [by exists x|]. apply list_elem_of_singleton in Hx as ->. simpl in Hxp. lia.
Qed.

Lemma append_settled s now e r s' consumer p :
  storage_wf s → append s now e = Some (r, s') → settled s consumer p → settled s' consumer p.
Proof.
  intros Hwf Ha Hset. unfold append in Ha. cbv zeta in Ha.
  pose proof (prune_gives_up s (retain_acknowledged capacity) now Hwf) as (Hwf1 & _).
  pose proof (prune_settled s (retain_acknowledged capacity) now consumer p Hwf Hset) as Hset1.
  set (s1 := prune_acknowledged s (retain_acknowledged capacity) now) in *.
  destruct (positions s1 !! idempotency_key e) as [q|].
  - destruct (entry s1 q); simpl in Ha; [|done]. destruct (is_same_fact_as _ _); by simplify_eq.
  - pose proof (make_room_settled s1 consumer p Hwf1 Hset1) as Hset2.
    destruct (make_room s1) as [[[]|err] s2]; simplify_eq; simpl in *; [by apply store_entry_settled|done].
Qed.

(** Replacing one consumer's state keeps its verdicts. *)
Lemma put_settled s name c c' consumer p :
  (default consumer_default (consumers s !! name) = c) → (∀ q, resolved c q = true → resolved c' q = true) →
  settled s consumer p → settled (set_consumers s (<[name := c']> (consumers s))) consumer p.
Proof.
  intros Hc Hmono [Hlt Hset]. split; [done|]. intros Hst. destruct (Hset Hst) as (c1 & Hc1 & Hr). simpl.
  destruct (decide (name = consumer)) as [->|Hne].
  - exists c'. rewrite lookup_insert_eq. split; [done|]. apply Hmono. rewrite Hc1 in Hc. simpl in Hc. by subst.
  - exists c1. by rewrite lookup_insert_ne.
Qed.

Lemma resolved_mono c c' :
  acked c ⊆ acked c' → (∀ q, is_Some (quarantined c !! q) → is_Some (quarantined c' !! q)) →
  ∀ q, resolved c q = true → resolved c' q = true.
Proof. intros Ha Hq q. rewrite !resolved_true. intros [?|?]; [left; set_solver|right; auto]. Qed.

Lemma step_settled s o s' consumer p :
  storage_wf s → step s o = Some s' → settled s consumer p → settled s' consumer p.
Proof.
  intros Hwf Hstep Hset. destruct o as [now ob|name claim|d|d|d reason]; cbn [step] in Hstep.
  - destruct (UsageEvent_new ob) as [e|]; [|by simplify_eq].
    destruct (append s now e) as [[r s1]|] eqn:Ha; [|done]. simplify_eq/=. by eapply append_settled.
  - destruct (claim_events_spec s name claim Hwf) as (c' & Hs' & _ & Hmono & _).
    apply (inj Some) in Hstep as <-. rewrite Hs'. by eapply put_settled.
  - simplify_eq. unfold ack. destruct (position_of s d) as [q|]; [|done].
    destruct (consumers s !! d_consumer d) as [c|] eqn:Hc; [|done]. repeat case_decide; try done.
    eapply put_settled; [by rewrite Hc| |done]. apply resolved_mono; simpl; [set_solver|done].
  - simplify_eq. unfold relinquish. destruct (position_of s d) as [q|]; [|done].
    destruct (consumers s !! d_consumer d) as [c|] eqn:Hc; [|done].
    destruct (resolved c q); [done|]. destruct (handed c !! q); [|done].
    eapply put_settled; [by rewrite Hc| |done]. by apply resolved_mono.
  - simplify_eq. unfold quarantine. destruct (position_of s d) as [q|]; [|done].
    destruct (consumers s !! d_consumer d) as [c|] eqn:Hc; [|done]. repeat case_decide; try done.
    eapply put_settled; [by rewrite Hc| |done]. apply resolved_mono; simpl; [done|].
    intros x Hx. apply lookup_insert_is_Some. destruct (decide (q = x)); auto.
Qed.

Lemma run_settled s ops s' consumer p :
  journal_ok s → run s ops = Some s' → settled s consumer p → settled s' consumer p.
Proof.
  revert s. induction ops as [|o ops IH]; intros s Hok; simpl; [by intros [= <-]|].
  destruct (step_ok s o Hok) as (s1 & Hs & Hok1). rewrite Hs. simpl. intros Hr Hset.
  eapply IH; [done..|]. eapply step_settled; [apply Hok|done|done].
Qed.

(** ** Properties *)

(** C13: The journal never panics and never corrupts itself: from an empty journal,
    every sequence of appends, claims and verdicts runs, and leaves an index that
    is exactly the stored events', positions in append order, at most
    [max_events] events, verdicts that exclude each other, attempts within their
    limit, and leases only on events with nothing unresolved ahead of them. *)
Theorem journal_invariant (ops : list JournalOp) :
  ∃ s, run storage_default ops = Some s ∧ storage_wf s ∧ Forall (λ x, event_ok (event x)) (entries s).
Proof.
  destruct (run_ok storage_default ops default_ok) as (s & Hs & Hwf & Hev). exists s.
  split_and!; [done..|]. by apply list.Forall_forall.
Qed.

(** C17: No event is lost before it was delivered.  An operation of a running journal
    removes only events every registered consumer has acknowledged and none has
    set aside, except that an append to a full journal that may drop gives up the
    oldest event not set aside, and counts it. *)
Theorem no_silent_loss (ops : list JournalOp) (s : Storage) (o : JournalOp) (s' : Storage) (x : Entry) :
  run storage_default ops = Some s → step s o = Some s' → x ∈ entries s → x ∉ entries s' →
  is_delivered s (position x) ∨
  policy capacity = DropOldest ∧ is_quarantined s (position x) = false ∧ dropped s' = dropped s + 1 ∧
    Forall (λ y, position y < position x → is_quarantined s (position y) = true) (entries s').
Proof.
  intros Hrun Hstep Hx Hx'. destruct (run_ok _ ops default_ok) as (s0 & Hs0 & Hwf & Hev). simplify_eq.
  destruct o as [now ob|consumer claim|d|d|d reason];
    
    try (destruct Hx'; refine (eq_ind_r (λ l, x ∈ l) Hx (same_entries s _ s' _ Hstep)); exact I).
  simpl in Hstep. destruct (UsageEvent_new ob) as [e|]; [|by simplify_eq].
  destruct (append_total s now e Hwf) as (r & s1 & Ha & Heff). rewrite Ha in Hstep. simplify_eq/=.
  unfold append_effect in Heff. cbv zeta in Heff. set (s1 := prune_acknowledged _ _ _) in *.
  destruct Heff as [Hg Hcase]. pose proof Hg as (_ & _ & Hd1 & Hq1 & Hdel & _ & Hkeep).
  destruct (positions s1 !! idempotency_key e) as [p|].
  { destruct Hcase as [-> _]. left. destruct (Hkeep x Hx); done. }
  destruct r as [a|err]; [|left; destruct Hcase as ((_ & _ & _ & _ & _ & _ & Hk) & _); by destruct (Hk x Hx)].
  destruct Hcase as (_ & s2 & Hs2 & _ & -> & Hn2 & _).
  assert (x ∉ entries s2) as Hx2 by (intros H; apply Hx', elem_of_app; by left).
  destruct Hs2 as [(_ & _ & _ & _ & _ & _ & Hk)|(Hpol & _ & _ & Hd & _ & y & s3 & Hg3 & Hy & Hqy & Hmin & Hent)].
  { left. by destruct (Hk x Hx). }
  destruct (Hkeep x Hx) as [Hx1|?]; [|by left].
  destruct Hg3 as (Hwf3 & _ & _ & _ & Hdel3 & _ & Hk3).
  destruct (Hk3 x Hx1) as [Hx3|?]; [|left; by apply Hdel].
  destruct (decide (position x = position y)) as [Hxy|Hne].
  2:{ destruct Hx2. apply Hent. split; [done|]. by intros ->. }
  assert (x = y) as -> by (by eapply (entry_unique s3)).
  right. split_and!; [done|by rewrite <-Hq1|simpl; lia|].
  apply list.Forall_forall. intros z [Hz|Hz]%elem_of_app Hlt.
  - apply Hent in Hz as [Hz _]. rewrite <-Hq1.
    exact (proj1 (list.Forall_forall _ _) Hmin z Hz Hlt).
  - apply list_elem_of_singleton in Hz as ->. simpl in Hlt. pose proof (position_below s y Hwf Hx). lia.
Qed.

(** C26: A caller's events are delivered in order, one at a time.  A claim hands out at
    most the events it asked for and at most one of each caller; each is a stored
    event this consumer has not resolved, leased for the time asked, under an
    attempt number within the limit, and everything stored ahead of it for the
    same caller has been acknowledged or set aside. *)
Theorem claims_in_order (ops : list JournalOp) (s : Storage) (consumer : ConsumerId) (claim : Claim) :
  run storage_default ops = Some s →
  let '(ds, s') := claim_events s consumer claim in
  entries s' = entries s ∧
  (length ds ≤ Nat.max 1 (claim_max_events claim))%nat ∧
  NoDup ((λ d, ordering_key (delivery_event d)) <$> ds) ∧
  ∃ c', consumers s' !! consumer = Some c' ∧ Forall (handed_out s claim consumer c') ds.
Proof.
  intros Hrun. destruct (run_ok _ ops default_ok) as (s0 & Hs0 & Hwf & _). rewrite Hrun in Hs0.
  apply (inj Some) in Hs0 as <-.
  destruct (claim_events_spec s consumer claim Hwf) as (c' & Hs' & _ & _ & _ & Hlen & Hkeys & Hout & _).
  destruct (claim_events s consumer claim) as [ds s']. simpl in *. subst s'. split_and!; [done..|].
  exists c'. simpl. by rewrite lookup_insert_eq.
Qed.

(** Nothing is stuck.  After a claim that had room for more, every stored event
    this consumer has not resolved is in flight, or waits for an event of the same
    caller, not behind it, that is: a live lease some claimant holds, or the one
    this claim has just handed out.  In particular an event whose leases have
    expired is delivered again. *)
Theorem claim_progress (ops : list JournalOp) (s : Storage) (consumer : ConsumerId) (claim : Claim) :
  run storage_default ops = Some s →
  let '(ds, s') := claim_events s consumer claim in
  (length ds < claim_max_events claim)%nat →
  ∃ c', consumers s' !! consumer = Some c' ∧
    ∀ e, e ∈ entries s → resolved c' (position e) = false →
      ∃ x expiry, x ∈ entries s ∧ ordering_key (event x) = ordering_key (event e) ∧
        position x ≤ position e ∧ leases c' !! position x = Some expiry ∧
        (claim_now claim < expiry ∨ expiry = claim_now claim + claim_lease claim).
Proof.
  intros Hrun. destruct (run_ok _ ops default_ok) as (s0 & Hs0 & Hwf & _). rewrite Hrun in Hs0.
  apply (inj Some) in Hs0 as <-.
  destruct (claim_events_spec s consumer claim Hwf) as (c' & Hs' & _ & _ & _ & _ & _ & _ & Hprog).
  destruct (claim_events s consumer claim) as [ds s']. simpl in *. subst s'. intros Hroom.
  exists c'. simpl. rewrite lookup_insert_eq. split; [done|]. by apply Hprog.
Qed.

(** A verdict is final.  Once a consumer has acknowledged an event or set it
    aside, no later claim of that consumer hands it out again, whatever else
    happens to the journal. *)
Theorem verdicts_final (before after : list JournalOp) (s s' : Storage) (consumer : ConsumerId)
    (c : ConsumerState) (claim : Claim) (x : Entry) :
  run storage_default before = Some s → consumers s !! consumer = Some c → x ∈ entries s →
  resolved c (position x) = true → run s after = Some s' →
  Forall (λ d, idempotency_key (delivery_event d) ≠ idempotency_key (event x) ∨ x ∉ entries s')
    (claim_events s' consumer claim).1.
Proof.
  intros Hrun Hc Hx Hr Hafter. destruct (run_ok _ before default_ok) as (s0 & Hs0 & Hok). rewrite Hrun in Hs0.
  apply (inj Some) in Hs0 as <-.
  assert (settled s consumer (position x)) as Hset.
  { split; [by apply (position_below s x (proj1 Hok))|]. intros _. by exists c. }
  apply (run_settled _ _ _ _ _ Hok Hafter) in Hset as [_ Hset].
  destruct (run_ok s after Hok) as (s1 & Hs1 & Hwf' & _). rewrite Hafter in Hs1. apply (inj Some) in Hs1 as <-.
  destruct (claim_events_spec s' consumer claim Hwf') as (c' & _ & _ & Hmono & _ & _ & _ & Hout & _).
  eapply Forall_impl; [exact Hout|]. intros d (e & He & Hd & Hun & _). rewrite Hd.
  destruct (decide (idempotency_key (event e) = idempotency_key (event x))) as [Hk|?]; [|by left].
  right. intros Hx'. destruct Hset as (c1 & Hc1 & Hr1); [by exists x|].
  assert (positions s' !! idempotency_key (event e) = Some (position e)) as H1
    by (apply (positions_index s' Hwf'); by exists e).
  assert (positions s' !! idempotency_key (event e) = Some (position x)) as H2
    by (apply (positions_index s' Hwf'); by exists x).
  rewrite H1 in H2. simplify_eq.
  assert (resolved c' (position x) = true); [|congruence]. apply Hmono. by rewrite Hc1.
Qed.

(** What an append answers.  Appending a fact the journal holds changes nothing
    but the retention it applies first, and says so; different content under the
    same identity is refused.  A new fact is stored at the next position, after
    room was made for it if need be, and refused only when nothing can be given
    up. *)
Theorem append_answers (ops : list JournalOp) (s : Storage) (now : Z) (e : UsageEvent) :
  run storage_default ops = Some s → ∃ r s', append s now e = Some (r, s') ∧ append_effect s now e r s'.
Proof.
  intros Hrun. destruct (run_ok _ ops default_ok) as (s0 & Hs0 & Hwf & _). rewrite Hrun in Hs0.
  apply (inj Some) in Hs0 as <-. by apply append_total.
Qed.

End Journal.

(** ** Witnesses *)

#[local] Existing Instance unit_json.
#[local] Existing Instance unit_value_eq.

Definition demo_record (id subject : string) : @UsageRecord unit_json := {|
  schema_version := SCHEMA_VERSION; request_id := id; trace_id := None; namespace := "acme"; attrs := None;
  period := None; subject := subject; signer_kid := None; model := "m"; target_provider := "p";
  target_model := "m"; credential_source := "byok"; credential_id := "c"; status := SOk; input_tokens := 1;
  cache_read_tokens := 0; cache_write_tokens := 0; output_tokens := 1; cost_microdollars := None;
  catalog_version := 0; price_book := None; price_book_checksum := None; price_catalog := None;
  latency_ms := 1; attempts := 1 |}%string.

Definition id_a : string := "req_01890a5d-ac96-774b-bcce-b302099a8057".
Definition id_b : string := "req_01890a5d-ac97-774b-bcce-b302099a8057".

Definition demo_appends : list (@JournalOp unit_json) :=
  [OAppend 0 (mkObservedRecord (demo_record id_a "s") 0); OAppend 1 (mkObservedRecord (demo_record id_b "s") 1)].

Definition demo_claim : Claim := mkClaim 8 30 2.

Definition ran (ops : list (@JournalOp unit_json)) : Storage :=
  default storage_default (run BILLING_GRADE storage_default ops).

Definition demo_entry : @Entry unit_json :=
  default (mkEntry 0 (mkEvent (Ids.Ids.mkRequestId (Ids.Ids.mkUuid [])) "" ("", "") (demo_record "" "") 0))%string
    (head (entries (ran demo_appends))).

Definition demo_delivery : DeliveryId := mkDeliveryId "sink" (event_id (event demo_entry)) 1.

(** Two events of one caller: the claim hands out the first. *)
Lemma claims_in_order_witness :
  event_id ∘ delivery_event <$> (claim_events BILLING_GRADE (ran demo_appends) "sink" demo_claim).1
    = [event_id (event demo_entry)] ∧
  let '(ds, s') := claim_events BILLING_GRADE (ran demo_appends) "sink" demo_claim in
  ∃ c', consumers s' !! "sink"%string = Some c' ∧
    Forall (handed_out BILLING_GRADE (ran demo_appends) demo_claim "sink" c') ds.
Proof.
  split; [vm_compute; reflexivity|].
  assert (run BILLING_GRADE storage_default demo_appends = Some (ran demo_appends)) as Hrun
    by (vm_compute; reflexivity).
  pose proof (claims_in_order BILLING_GRADE demo_appends (ran demo_appends) "sink" demo_claim Hrun) as H.
  destruct (claim_events _ _ _ _) as [ds s']. exact (proj2 (proj2 (proj2 H))).
Defined.

Lemma claim_progress_witness :
  let '(ds, s') := claim_events BILLING_GRADE (ran demo_appends) "sink" demo_claim in
  ∃ c', consumers s' !! "sink"%string = Some c' ∧
    ∀ e, e ∈ entries (ran demo_appends) → resolved c' (position e) = false →
      ∃ x expiry, x ∈ entries (ran demo_appends) ∧ ordering_key (event x) = ordering_key (event e) ∧
        position x ≤ position e ∧ leases c' !! position x = Some expiry ∧ (2 < expiry ∨ expiry = 2 + 30).
Proof.
  assert (run BILLING_GRADE storage_default demo_appends = Some (ran demo_appends)) as Hrun
    by (vm_compute; reflexivity).
  pose proof (claim_progress BILLING_GRADE demo_appends (ran demo_appends) "sink" demo_claim Hrun) as H.
  assert (length (claim_events BILLING_GRADE (ran demo_appends) "sink" demo_claim).1 < 8)%nat as Hlen
    by (vm_compute; lia).
  destruct (claim_events _ _ _ _) as [ds s']. exact (H Hlen).
Defined.

Definition demo_acked : list (@JournalOp unit_json) :=
  demo_appends ++ [OClaim "sink" demo_claim; OAck demo_delivery].

Definition demo_consumer : ConsumerState := default consumer_default (consumers (ran demo_acked) !! "sink"%string).

(** After its acknowledgement the first event is not handed out again. *)
Lemma verdicts_final_witness :
  Forall (λ d, idempotency_key (delivery_event d) ≠ idempotency_key (event demo_entry) ∨
      demo_entry ∉ entries (ran demo_acked))
    (claim_events BILLING_GRADE (ran demo_acked) "sink" (mkClaim 8 30 500)).1.
Proof.
  apply (verdicts_final BILLING_GRADE demo_acked [] (ran demo_acked) (ran demo_acked) "sink" demo_consumer).
  - vm_compute. reflexivity.
  - vm_compute. reflexivity.
  - vm_compute. apply list_elem_of_here.
  - vm_compute. reflexivity.
  - reflexivity.
Defined.

Definition one_slot : Capacity := mkCapacity 1 8 1000 DropOldest.

(** A journal of one slot that may drop: the second append gives up the first. *)
Lemma no_silent_loss_witness :
  let s := default storage_default (run one_slot storage_default (take 1 demo_appends)) in
  let s' := default storage_default (run one_slot storage_default demo_appends) in
  is_delivered s (position demo_entry) ∨
  policy one_slot = DropOldest ∧ is_quarantined s (position demo_entry) = false ∧ dropped s' = dropped s + 1 ∧
    Forall (λ y, position y < position demo_entry → is_quarantined s (position y) = true) (entries s').
Proof.
  intros s s'.
  apply (no_silent_loss one_slot (take 1 demo_appends) s
    (OAppend 1 (mkObservedRecord (demo_record id_b "s") 1)) s' demo_entry).
  - vm_compute. reflexivity.
  - vm_compute. reflexivity.
  - vm_compute. apply list_elem_of_here.
  - vm_compute. intros H. inversion H as [|? ? ? H']; subst. inversion H'.
Defined.

Lemma append_answers_witness :
  ∃ r s', append BILLING_GRADE (ran demo_appends) 2 (event demo_entry) = Some (r, s') ∧
    append_effect BILLING_GRADE (ran demo_appends) 2 (event demo_entry) r s'.
Proof.
  apply (append_answers BILLING_GRADE demo_appends). vm_compute. reflexivity.
Defined.

End Journal.
