(* ===== verification/Worker.v ===== *)
(** * The journal's delivery worker ([crates/gateway/src/usage/journal/worker.rs])

    One task claims a batch, writes it to the sinks that answer for a write,
    attributes a refusal by halving, and gives each event its verdict.  Every await
    is one call of an environment that may let other users of the journal run
    first, take time, signal the stop, fail, or lose the answer of a call that took
    effect; a pass raced against the stop or a deadline is dropped at an await.
    The journal is the oracle of [Journal]. *)

From S2P Require Import Prelude Text Json Ids Usage Journal.

Module Worker.
Import Ids.Ids (RequestId_parse).
Import Usage.Usage Journal.Journal.

Definition DRAIN_MARGIN : Z := 1000000000.
Definition CLOSING_READ : Z := 500000000.
Definition PROBE_WRITES : nat := 32.

Record WorkerSettings := mkSettings {
  consumer : ConsumerId;
  claim_batch : nat;
  lease : Z;
  poll_interval : Z;
  maintain_interval : Z;
}.

Record DrainReport := mkReport {
  delivered_events : Z;
  failed_batches : Z;
  undelivered : Z;
  quarantined_left : Z;
  drained : bool;
  reported : bool;
  counted : bool;
  unwaited : bool;
}.

Definition report_default : DrainReport := mkReport 0 0 0 0 false false false false.

Definition caught_up (r : DrainReport) : option bool := if counted r then Some (drained r) else None.

Definition observe (s : JournalStats) (r : DrainReport) : DrainReport :=
  mkReport (delivered_events r) (failed_batches r) (pending s + in_flight s) (quarantined_events s)
    (is_drained s) (reported r) true (unwaited r).

Definition add_delivered (n : Z) (r : DrainReport) : DrainReport :=
  mkReport (delivered_events r + n) (failed_batches r) (undelivered r) (quarantined_left r) (drained r)
    (reported r) (counted r) (unwaited r).

Definition add_failed (r : DrainReport) : DrainReport :=
  mkReport (delivered_events r) (failed_batches r + 1) (undelivered r) (quarantined_left r) (drained r)
    (reported r) (counted r) (unwaited r).

(** A half-open range of indices. *)
Abbreviation Range := (nat * nat)%type.

Definition halve (r : Range) : Range * Range :=
  let mid := (r.1 + (r.2 - r.1) / 2)%nat in ((r.1, mid), (mid, r.2)).

Record Delivered := mkDelivered { landed : list nat; refused : list nat }.
Definition delivered_default : Delivered := mkDelivered [] [].

Definition indices (r : Range) : list nat := seq r.1 (r.2 - r.1).
Definition slice {A} (l : list A) (r : Range) : list A := take (r.2 - r.1) (drop r.1 l).

Section Worker.
Context {J : SerdeJson} `{!EqDecision Value} (capacity : Capacity) (settings : WorkerSettings).

(** How many destinations answer for a write, and how many only listen. *)
Context (sinks advisory : nat).

(** ** The world *)

(** What one await meets. *)
Record Fate := mkFate {
  meanwhile : list JournalOp;  (* other users of the journal, before this call *)
  took : Z;
  signal : option Z;           (* the stop signal, with its budget, arrives during it *)
  effect : bool;               (* the call takes effect *)
  answer : bool;               (* and says so *)
  fired : bool;                (* a deadline that passes meanwhile finds it pending *)
}.

Context (journal_fate : nat → Fate) (sink_fate : nat → nat → list ObservedRecord → Fate).

Record World := mkWorld {
  clock : Z;
  calls : nat;
  jstate : Storage;
  stop : option Z;
  report : DrainReport;
  taken : list (nat * list ObservedRecord);  (* what each answering sink wrote *)
  told : list (nat * list ObservedRecord);   (* what each listening sink was given *)
}.

Definition set_jstate (s : Storage) (w : World) : World :=
  mkWorld (clock w) (calls w) s (stop w) (report w) (taken w) (told w).
Definition set_report (f : DrainReport → DrainReport) (w : World) : World :=
  mkWorld (clock w) (calls w) (jstate w) (stop w) (f (report w)) (taken w) (told w).
Definition take_batch (k : nat) (batch : list ObservedRecord) (w : World) : World :=
  mkWorld (clock w) (calls w) (jstate w) (stop w) (report w) (taken w ++ [(k, batch)]) (told w).
Definition tell_batch (k : nat) (batch : list ObservedRecord) (w : World) : World :=
  mkWorld (clock w) (calls w) (jstate w) (stop w) (report w) (taken w) (told w ++ [(k, batch)]).

(** The others run, time passes, the signal may come. *)
Definition elapse (f : Fate) (w : World) : World :=
  mkWorld (clock w + took f) (S (calls w)) (default (jstate w) (Journal.run capacity (jstate w) (meanwhile f)))
    (match stop w with Some b => Some b | None => signal f end) (report w) (taken w) (told w).

(** What an await is raced against. *)
Inductive Race := Unraced | StopSignal | Deadline (at_ : Z).

Definition drops (r : Race) (f : Fate) (w : World) : bool :=
  match r with
  | Unraced => false
  | StopSignal => bool_decide (stop w ≠ None)
  | Deadline at_ => (at_ <=? clock w) && fired f
  end.

(** Code of a pass: [None] when it is dropped at an await. *)
Definition M (A : Type) : Type := World → option A * World.
#[local] Instance M_ret : MRet M := λ A a w, (Some a, w).
#[local] Instance M_bind : MBind M := λ A B k m w,
  match m w with (Some a, w) => k a w | (None, w) => (None, w) end.

Definition modify (g : World → World) : M unit := λ w, (Some tt, g w).

(** An await on a call that answers [ok] of what it did, or fails with [err]. *)
Definition await {A B} (r : Race) (fate : World → Fate) (act : World → B * World) (ok : B → A) (err : A) : M A :=
  λ w,
    let f := fate w in
    let w := elapse f w in
    let '(b, w') := act w in
    let w := if effect f then w' else w in
    if drops r f w then (None, w)
    else (Some (if effect f && answer f then ok b else err), w).

Definition on_journal {B} (act : Storage → B * Storage) (w : World) : B * World :=
  let '(b, s) := act (jstate w) in (b, set_jstate s w).

Definition journal_call {A} (r : Race) (act : Storage → result JournalError A * Storage) : M (result JournalError A) :=
  await r (λ w, journal_fate (calls w)) (on_journal act) id (Err (Backend "")).

(** The claim reads the clock before it is sent. *)
Definition claim_call (r : Race) : M (result JournalError (list Delivery)) := λ w,
  let c := mkClaim (claim_batch settings) (lease settings) (clock w) in
  journal_call r (λ s, let '(ds, s) := claim_events capacity s (consumer settings) c in (Ok ds, s)) w.

(** One [record_batch] of a sink. *)
Definition sink_call (r : Race) (k : nat) (batch : list ObservedRecord) (give : World → World) : M bool :=
  await r (λ w, sink_fate (calls w) k batch) (λ w, (true, give w)) id false.

Definition observed (e : UsageEvent) : ObservedRecord := mkObservedRecord (event_record e) (event_observed_at e).

(** ** Delivery *)

(** The batch, to every destination until one refuses it. *)
Fixpoint write_sinks (r : Race) (batch : list ObservedRecord) (ks : list nat) : M bool :=
  match ks with
  | [] => mret true
  | k :: ks =>
      ok ← sink_call r k batch (take_batch k batch);
      if ok : bool then write_sinks r batch ks else mret false
  end.

Definition write (r : Race) (claimed : list Delivery) : M bool :=
  write_sinks r ((λ d, observed (delivery_event d)) <$> claimed) (seq 0 sinks).

Record Search := mkSearch { s_landed : list nat; s_orphans : list nat; s_refusals : nat }.

(** One level: [None] when the search is given up. *)
Fixpoint probe (r : Race) (claimed : list Delivery) (ranges : list Range) (next : list (Range * Range)) (s : Search)
    : M (option (Search * list (Range * Range))) :=
  match ranges with
  | [] => mret (Some (s, next))
  | range :: ranges =>
      ok ← write r (slice claimed range);
      if ok : bool then
        probe r claimed ranges next (mkSearch (s_landed s ++ indices range) (s_orphans s) (s_refusals s))
      else
        let s := mkSearch (s_landed s)
          (if (range.2 - range.1 =? 1)%nat then s_orphans s ++ [range.1] else s_orphans s) (S (s_refusals s)) in
        let next := if (range.2 - range.1 =? 1)%nat then next else next ++ [halve range] in
        if bool_decide (s_landed s = []) && (PROBE_WRITES <=? s_refusals s)%nat then mret None
        else probe r claimed ranges next s
  end.

Definition halves (level : list (Range * Range)) : list Range := level ≫= λ p, [p.1; p.2].

Inductive Isolation := Isolated (s : Search) | GaveUp | Unfinished.

Fixpoint bisect (fuel : nat) (r : Race) (claimed : list Delivery) (level : list (Range * Range)) (s : Search)
    : M Isolation :=
  match level with
  | [] => mret (Isolated s)
  | _ =>
      match fuel with
      | O => mret Unfinished
      | S fuel =>
          found ← probe r claimed (halves level) [] s;
          match found with
          | None => mret GaveUp
          | Some (s, next) => bisect fuel r claimed next s
          end
      end
  end.

(** [None] only if the fuel ran out. *)
Definition deliver_durably (r : Race) (claimed : list Delivery) : M (option Delivered) :=
  ok ← write r claimed;
  if ok : bool then mret (Some (mkDelivered (indices (0, length claimed)%nat) []))
  else if (length claimed =? 1)%nat then mret (Some delivered_default)
  else
    found ← bisect (length claimed) r claimed [halve (0, length claimed)%nat] (mkSearch [] [] 1);
    match found with
    | Unfinished => mret None
    | GaveUp => mret (Some delivered_default)
    | Isolated s =>
        if decide (s_landed s = []) then mret (Some (mkDelivered (s_landed s) []))
        else mret (Some (mkDelivered (s_landed s) (s_orphans s)))
    end.

Fixpoint tell_sinks (r : Race) (batch : list ObservedRecord) (ks : list nat) : M unit :=
  match ks with
  | [] => mret tt
  | k :: ks => _ ← sink_call r k batch (tell_batch k batch); tell_sinks r batch ks
  end.

Definition tell_advisory (r : Race) (claimed : list Delivery) (landed : list nat) : M unit :=
  if (advisory =? 0)%nat || bool_decide (landed = []) then mret tt
  else tell_sinks r (omap (λ i, (λ d, observed (delivery_event d)) <$> claimed !! i) landed) (seq sinks advisory).

Definition deliver (r : Race) (claimed : list Delivery) : M (option Delivered) :=
  outcome ← deliver_durably r claimed;
  match outcome with
  | None => mret None
  | Some d => _ ← tell_advisory r claimed (landed d); mret (Some d)
  end.

(** ** Verdicts *)

Definition spend_attempt (r : Race) (d : Delivery) : M unit :=
  if d_attempt (delivery_id d) <? max_delivery_attempts capacity then mret tt
  else _ ← journal_call r (λ s, quarantine s (delivery_id d) RejectedRecord); mret tt.

Definition give_back (r : Race) (d : Delivery) : M unit :=
  _ ← journal_call r (λ s, relinquish s (delivery_id d)); mret tt.

Fixpoint each {A} (f : A → M unit) (l : list A) : M unit :=
  match l with [] => mret tt | x :: l => _ ← f x; each f l end.

(** What nobody accepted and nobody answered for. *)
Definition unattributed (d : Delivered) (claimed : list Delivery) : list Delivery :=
  omap (λ i, claimed !! i) (filter (λ i, i ∉ landed d ∧ i ∉ refused d) (seq 0 (length claimed))).

Definition pick (claimed : list Delivery) (ixs : list nat) : list Delivery := omap (λ i, claimed !! i) ixs.

(** The trait's default: one acknowledgement after the other. *)
Fixpoint ack_all (r : Race) (ds : list Delivery) : M (list (result JournalError unit)) :=
  match ds with
  | [] => mret []
  | d :: ds =>
      v ← journal_call r (λ s, ack s (delivery_id d));
      vs ← ack_all r ds;
      mret (v :: vs)
  end.

Definition settle_refusals (r : Race) (claimed : list Delivery) (d : Delivered) : M unit :=
  if (length (landed d) <? length claimed)%nat then
    _ ← modify (set_report add_failed);
    _ ← each (spend_attempt r) (pick claimed (refused d));
    each (give_back r) (unattributed d claimed)
  else mret tt.

(** The outer [None]: the fuel of the bisection. *)
Definition pump (r : Race) : M (option (result JournalError nat)) :=
  claimed ← claim_call r;
  match claimed with
  | Err e => mret (Some (Err e))
  | Ok [] => mret (Some (Ok O))
  | Ok claimed =>
      outcome ← deliver r claimed;
      match outcome with
      | None => mret None
      | Some d =>
          _ ← settle_refusals r claimed d;
          if decide (landed d = []) then mret (Some (Ok O))
          else
            verdicts ← ack_all r (pick claimed (landed d));
            let acknowledged := length (filter (λ v, is_ok v = true) verdicts) in
            _ ← modify (set_report (add_delivered (Z.of_nat acknowledged)));
            mret (Some (Ok acknowledged))
      end
  end.

(** ** The task

    Housekeeping is three journal calls; the oracle keeps the trait's defaults, by
    which they change nothing, so what matters of them is what happens meanwhile. *)

Definition idle_call : M (result JournalError unit) := journal_call Unraced (λ s, (Ok tt, s)).

Definition maintain : M unit :=
  _ ← idle_call; _ ← idle_call; _ ← idle_call; mret tt.

Definition maintain_if_due (next : Z) (w : World) : Z * World :=
  if clock w <? next then (next, w)
  else let w := (maintain w).2 in (clock w + maintain_interval settings, w).

Inductive Pumped := Idle | Signalled (budget : Z) | Starved.

Fixpoint pump_until_idle (fuel : nat) (next : Z) (w : World) : Pumped * Z * World :=
  match fuel with
  | O => (Starved, next, w)
  | S fuel =>
      if decide (stop w ≠ None) then (Idle, next, w)
      else
        let '(next, w) := maintain_if_due next w in
        match stop w with
        | Some budget => (Signalled budget, next, w)
        | None =>
            match pump StopSignal w with
            | (None, w) => (Signalled (default 0 (stop w)), next, w)
            | (Some None, w) => (Starved, next, w)
            | (Some (Some (Err _)), w) | (Some (Some (Ok O)), w) => (Idle, next, w)
            | (Some (Some (Ok (S _))), w) => pump_until_idle fuel next w
            end
        end
  end.

(** The wait between rounds: one await of the environment. *)
Definition wait (w : World) : World := elapse (journal_fate (calls w)) w.

(** Until the stop signal: its budget, or [None] while there is fuel for no more. *)
Fixpoint serve (fuel : nat) (next : Z) (w : World) : option Z * World :=
  match fuel with
  | O => (None, w)
  | S fuel =>
      match pump_until_idle (S fuel) next w with
      | (Starved, _, w) => (None, w)
      | (Signalled budget, _, w) => (Some budget, w)
      | (Idle, next, w) =>
          let '(next, w) := if decide (stop w = None) then maintain_if_due next w else (next, w) in
          let w := match stop w with Some _ => w | None => wait w end in
          match stop w with
          | Some budget => (Some budget, w)
          | None => serve fuel next w
          end
      end
  end.

(** [false] when the fuel ran out. *)
Fixpoint drain_passes (fuel : nat) (deadline : Z) (w : World) : bool * World :=
  match fuel with
  | O => (false, w)
  | S fuel =>
      if deadline <? clock w then (true, w)
      else
        match pump (Deadline deadline) w with
        | (Some None, w) => (false, w)
        | (Some (Some (Ok (S _))), w) => drain_passes fuel deadline w
        | (_, w) => (true, w)
        end
  end.

Definition closing_read (w : World) : World :=
  match await (Deadline (clock w + CLOSING_READ)) (λ w, journal_fate (calls w))
          (λ w, (stats (jstate w) (consumer settings) (clock w), w)) Some None w with
  | (Some (Some s), w) => set_report (observe s) w
  | (_, w) => w
  end.

Definition start_report : DrainReport := mkReport 0 0 0 0 false true false false.

(** [DeliveryWorker::run], once the signal has come. *)
Definition run_worker (fuel : nat) (w : World) : option World :=
  let w := set_report (λ _, start_report) w in
  match serve fuel (clock w + maintain_interval settings) w with
  | (None, _) => None
  | (Some budget, w) =>
      match drain_passes fuel (clock w + budget) w with
      | (false, _) => None
      | (true, w) => Some (closing_read w)
      end
  end.

(** ** Reasoning about passes

    What a piece of a pass leaves: [Q] of its answer, [D] if it was dropped. *)

Definition triple {A} (P : World → Prop) (m : M A) (Q : A → World → Prop) (D : World → Prop) : Prop :=
  ∀ w, P w → match m w with (Some a, w') => Q a w' | (None, w') => D w' end.

Lemma triple_ret {A} (a : A) (Q : A → World → Prop) D : triple (Q a) (mret a) Q D.
Proof. by intros w. Qed.

Lemma triple_bind {A B} P (m : M A) R (k : A → M B) Q D :
  triple P m R D → (∀ a, triple (R a) (k a) Q D) → triple P (m ≫= k) Q D.
Proof.
  intros Hm Hk w Hw. specialize (Hm w Hw). unfold mbind, M_bind. destruct (m w) as [[a|] w']; [|done].
  by apply Hk.
Qed.

Lemma triple_conseq {A} (P P' : World → Prop) (m : M A) (Q Q' : A → World → Prop) (D D' : World → Prop) :
  triple P' m Q' D' → (∀ w, P w → P' w) → (∀ a w, Q' a w → Q a w) → (∀ w, D' w → D w) → triple P m Q D.
Proof.
  intros H HP HQ HD w Hw. specialize (H w (HP w Hw)). destruct (m w) as [[a|] w']; auto.
Qed.

(** A condition that does not change is carried along. *)
Lemma triple_assume {A} (φ : Prop) (P : World → Prop) (m : M A) Q D :
  (φ → triple P m Q D) → triple (λ w, φ ∧ P w) m Q D.
Proof. intros H w [Hφ Hw]. by apply (H Hφ w). Qed.

Lemma triple_modify g (Q : unit → World → Prop) D : triple (λ w, Q tt (g w)) (modify g) Q D.
Proof. by intros w. Qed.

(** An await: the world the others left, then the call or not. *)
Lemma triple_await {A B} r fate (act : World → B * World) (ok : B → A) err P Q D :
  (∀ w, P w →
     let w1 := elapse (fate w) w in let w2 := (act w1).2 in
     (effect (fate w) = false → D w1 ∧ Q err w1) ∧
     (effect (fate w) = true → D w2 ∧ Q (if answer (fate w) then ok (act w1).1 else err) w2)) →
  triple P (await r fate act ok err) Q D.
Proof.
  intros H w Hw. destruct (H w Hw) as [H1 H2]. clear H. unfold await. cbv zeta.
  destruct (act (elapse (fate w) w)) as [b w2]. simpl in *.
  destruct (effect (fate w)) eqn:He; destruct (drops r (fate w) _); [apply H2|apply H2|apply H1|apply H1]; done.
Qed.

Lemma triple_each {A} (f : A → M unit) l (I : World → Prop) (D : World → Prop) :
  (∀ x, x ∈ l → triple I (f x) (λ _, I) D) → triple I (each f l) (λ _, I) D.
Proof.
  induction l as [|x l IH]; intros H; [by intros w Hw|]. cbn [each]. eapply triple_bind.
  - apply H, elem_of_cons. by left.
  - intros a. apply IH. intros y Hy. apply H, elem_of_cons. by right.
Qed.

(** ** Attribution *)

Section Attribution.
Context (claimed : list Delivery) (r : Race).

(** Every destination wrote a batch that held the event. *)
Definition wrote (t : list (nat * list ObservedRecord)) (e : UsageEvent) : Prop :=
  ∀ k, (k < sinks)%nat → ∃ batch, (k, batch) ∈ t ∧ observed e ∈ batch.
Definition written (w : World) (e : UsageEvent) : Prop := wrote (taken w) e.

Definition written_at (w : World) (i : nat) : Prop := ∃ d, claimed !! i = Some d ∧ written w (delivery_event d).

(** Nothing written is lost, and at most [c] calls were made. *)
Definition grows (t : list (nat * list ObservedRecord)) (c : nat) (w : World) : Prop :=
  t ⊆ taken w ∧ (calls w ≤ c)%nat.

Lemma written_mono w w' e : taken w ⊆ taken w' → written w e → written w' e.
Proof. intros Hs H k Hk. destruct (H k Hk) as (batch & Hb & He). exists batch. split; [by apply Hs|done]. Qed.
Lemma written_at_mono w w' i : taken w ⊆ taken w' → written_at w i → written_at w' i.
Proof. intros Hs (d & Hd & H). exists d. split; [done|by eapply written_mono]. Qed.

Lemma sink_call_spec k batch give t c :
  (∀ w, taken w ⊆ taken (give w) ∧ calls (give w) = calls w) →
  triple (grows t c) (sink_call r k batch give) (λ ok w, grows t (S c) w ∧ (ok = true → ∃ w0, w = give w0)) (λ _, True).
Proof.
  intros Hg. apply triple_await. intros w [Ht Hc]. cbv zeta. simpl. split; intros He; (split; [done|]).
  - split; [split; [done|simpl; lia]|done].
  - destruct (Hg (elapse (sink_fate (calls w) k batch) w)) as [G1 G2]. split; [|intros _; by eexists].
    split; [by intros x Hx; apply G1, Ht|rewrite G2; simpl; lia].
Qed.

Lemma write_sinks_spec batch ks t c :
  triple (grows t c) (write_sinks r batch ks)
    (λ ok w, grows t (c + length ks) w ∧ (ok = true → ∀ k, k ∈ ks → (k, batch) ∈ taken w)) (λ _, True).
Proof.
  revert t c. induction ks as [|k ks IH]; intros t c; simpl.
  - intros w Hw. simpl. split; [by rewrite Nat.add_0_r|]. by intros _ k ?%elem_of_nil.
  - eapply triple_bind; [apply sink_call_spec; intros w; simpl; set_solver|].
    intros [|]; [|intros w [[Ht Hc] _]; simpl; by split; [split; [done|lia]|]].
    intros w [[Ht Hc] Hgive]. destruct (Hgive eq_refl) as [w0 ->].
    pose proof (IH (taken (take_batch k batch w0)) (S c) (take_batch k batch w0) (conj (reflexivity _) Hc)) as H.
    destruct (write_sinks r batch ks _) as [[ok|] w']; [|done]. destruct H as [[Hg Hc'] H].
    split; [split; [by intros x Hx; apply Hg, Ht|lia]|]. intros Hok k' [->|Hk']%elem_of_cons; [|by apply H].
    apply Hg. simpl. set_solver.
Qed.

Lemma write_spec ds t c :
  triple (grows t c) (write r ds)
    (λ ok w, grows t (c + sinks) w ∧ (ok = true → ∀ d, d ∈ ds → written w (delivery_event d))) (λ _, True).
Proof.
  unfold write. eapply triple_conseq; [apply write_sinks_spec|done| |done]. cbn beta.
  intros ok w [Hg H]. rewrite length_seq in Hg. split; [done|]. intros Hok d Hd k Hk.
  eexists. split; [apply (H Hok), elem_of_seq; lia|].
  by apply (list_elem_of_fmap_2 (λ d, observed (delivery_event d))).
Qed.

(** *** Ranges *)

Definition proper (range : Range) : Prop := (range.1 < range.2 ≤ length claimed)%nat.
Definition within (d : nat) (range : Range) : Prop := (range.2 - range.1 ≤ 2 ^ d)%nat.
(** A range one level down. *)
Definition below (d : nat) (range : Range) : Prop := (1 ≤ d)%nat ∧ within (d - 1) range.

Lemma indices_slice range i : proper range → i ∈ indices range → ∃ d, claimed !! i = Some d ∧ d ∈ slice claimed range.
Proof.
  intros [Hp1 Hp2] [Hi1 Hi2]%elem_of_seq. destruct (lookup_lt_is_Some_2 claimed i) as [d Hd]; [lia|].
  exists d. split; [done|]. apply list_elem_of_lookup. exists (i - range.1)%nat. unfold slice.
  rewrite lookup_take_lt by lia. rewrite lookup_drop. by replace (range.1 + (i - range.1))%nat with i by lia.
Qed.

Lemma half_of n d : (2 ≤ n → n ≤ 2 ^ d → 1 ≤ n / 2 ∧ n / 2 < n ∧ 1 ≤ d ∧ n - n / 2 ≤ 2 ^ (d - 1) ∧ n / 2 ≤ 2 ^ (d - 1))%nat.
Proof.
  intros H Hd. pose proof (Nat.div_mod_eq n 2). pose proof (Nat.mod_upper_bound n 2 ltac:(lia)).
  destruct d as [|d]; [simpl in Hd; lia|]. rewrite Nat.pow_succ_r' in Hd. simpl (S d - 1)%nat. rewrite Nat.sub_0_r. lia.
Qed.

Lemma halve_spec range d :
  proper range → within d range → (range.2 - range.1 =? 1)%nat = false →
  indices (halve range).1 ++ indices (halve range).2 = indices range ∧
  proper (halve range).1 ∧ proper (halve range).2 ∧ below d (halve range).1 ∧ below d (halve range).2.
Proof.
  intros [Hp1 Hp2] Hs Hn. apply Nat.eqb_neq in Hn.
  destruct (half_of (range.2 - range.1) d ltac:(lia) Hs) as (H1 & H2 & H3 & H4 & H5).
  unfold halve, indices, proper, below, within in *. cbv zeta. cbn [fst snd].
  set (h := ((range.2 - range.1) / 2)%nat) in *. split_and!; try lia.
  replace (range.1 + h - range.1)%nat with h by lia.
  trans (seq range.1 (h + (range.2 - (range.1 + h)))); [by rewrite seq_app|f_equal; lia].
Qed.

Lemma Forall_two {A} (P : A → Prop) x y : P x → P y → Forall P [x; y].
Proof. intros. by apply list.Forall_cons; split; [|apply list.Forall_cons; split; [|apply list.Forall_nil]]. Qed.

Definition covered (s : Search) (ranges : list Range) : Prop :=
  s_landed s ++ s_orphans s ++ (ranges ≫= indices) ≡ₚ seq 0 (length claimed).

(** Where the search stands, with these ranges to come. *)
Record searching (t : list (nat * list ObservedRecord)) (c : nat) (s : Search) (ranges : list Range) (w : World)
    : Prop := {
  search_covers : covered s ranges;
  search_written i : i ∈ s_landed s → written_at w i;
  search_taken : t ⊆ taken w;
  search_calls : s_landed s = [] → (calls w ≤ c + s_refusals s * sinks ∧ s_refusals s < PROBE_WRITES)%nat;
}.

Lemma searching_landed t c s range ranges w w' :
  proper range → searching t c s (range :: ranges) w → taken w ⊆ taken w' →
  (∀ d, d ∈ slice claimed range → written w' (delivery_event d)) →
  searching t c (mkSearch (s_landed s ++ indices range) (s_orphans s) (s_refusals s)) ranges w'.
Proof.
  intros Hp [H1 H2 H3 H4] Ht Hw. split; unfold covered in *; cbn [s_landed s_orphans s_refusals].
  - rewrite <-H1, bind_cons, <-!app_assoc. apply Permutation_app_head.
    rewrite !app_assoc. apply Permutation_app_tail, Permutation_app_comm.
  - intros i [Hi|Hi]%elem_of_app; [eapply written_at_mono; eauto|].
    destruct (indices_slice range i Hp Hi) as (d & Hd & Hin). exists d. split; [done|by apply Hw].
  - by etransitivity.
  - intros He. exfalso. apply app_eq_nil in He as [_ He]. unfold indices in He.
    destruct Hp as [Hp _]. destruct (range.2 - range.1)%nat eqn:E; [lia|done].
Qed.
Definition refuse (range : Range) (s : Search) : Search :=
  mkSearch (s_landed s) (if (range.2 - range.1 =? 1)%nat then s_orphans s ++ [range.1] else s_orphans s)
    (S (s_refusals s)).
Definition push_halves (range : Range) (next : list (Range * Range)) : list (Range * Range) :=
  if (range.2 - range.1 =? 1)%nat then next else next ++ [halve range].

Lemma searching_refused t c s d range ranges next w w' :
  proper range → within d range → searching t c s (range :: ranges ++ halves next) w → taken w ⊆ taken w' →
  (calls w' ≤ calls w + sinks)%nat → (s_landed s = [] → S (s_refusals s) < PROBE_WRITES)%nat →
  searching t c (refuse range s) (ranges ++ halves (push_halves range next)) w'.
Proof.
  intros Hp Hm [H1 H2 H3 H4] Ht Hc Hlt. split; unfold covered, refuse, push_halves in *; cbn [s_landed s_orphans s_refusals].
  - rewrite <-H1, bind_cons. apply Permutation_app_head. destruct (range.2 - range.1 =? 1)%nat eqn:E.
    + assert (indices range = [range.1]) as -> by (apply Nat.eqb_eq in E; unfold indices; by rewrite E).
      by rewrite <-app_assoc.
    + destruct (halve_spec range d Hp Hm E) as (<- & _). unfold halves. rewrite !bind_app.
      change (([halve range] ≫= λ p, [p.1; p.2]) ≫= indices) with
        (indices (halve range).1 ++ indices (halve range).2 ++ []).
      rewrite app_nil_r. apply Permutation_app_head.
      generalize (indices (halve range).1 ++ indices (halve range).2), (ranges ≫= indices),
        ((next ≫= λ p, [p.1; p.2]) ≫= indices). intros l1 l2 l3. by rewrite (Permutation_app_comm l1), app_assoc.
  - intros i Hi. eapply written_at_mono; eauto.
  - by etransitivity.
  - intros He. destruct (H4 He). specialize (Hlt He). split; [lia|done].
Qed.

Lemma push_halves_proper d range next :
  proper range → within d range → Forall proper (halves next) → Forall (below d) (halves next) →
  Forall proper (halves (push_halves range next)) ∧ Forall (below d) (halves (push_halves range next)).
Proof.
  intros Hp Hm H1 H2. unfold push_halves. destruct (range.2 - range.1 =? 1)%nat eqn:E; [done|].
  destruct (halve_spec range d Hp Hm E) as (_ & ? & ? & ? & ?). unfold halves in *. rewrite bind_app.
  split; (apply Forall_app; split; [done|]); by apply Forall_two.
Qed.

Lemma probe_spec t c d ranges next s :
  Forall proper ranges → Forall (within d) ranges →
  Forall proper (halves next) → Forall (below d) (halves next) →
  triple (searching t c s (ranges ++ halves next)) (probe r claimed ranges next s)
    (λ o w, match o with
            | Some (s', next') => searching t c s' (halves next') w ∧ Forall proper (halves next') ∧
                Forall (below d) (halves next')
            | None => t ⊆ taken w ∧ (calls w ≤ c + PROBE_WRITES * sinks)%nat
            end) (λ _, True).
Proof.
  intros Hp. revert next s. induction Hp as [|range ranges Hr Hp IH]; intros next s Hm Hn1 Hn2.
  { intros w Hw. by simpl. }
  apply list.Forall_cons in Hm as [Hm Hms]. cbn [probe]. intros w Hw.
  pose proof (write_spec (slice claimed range) (taken w) (calls w) w (conj (reflexivity _) (le_n _))) as H.
  unfold mbind, M_bind. destruct (write r (slice claimed range) w) as [[[|]|] w1]; [| |done].
  - destruct H as [[Ht Hc] H]. apply (IH next); [done..|].
    eapply searching_landed; [done|exact Hw|done|by apply H].
  - destruct H as [[Ht Hc] _]. fold (refuse range s) (push_halves range next).
    destruct (push_halves_proper d range next) as [Hq1 Hq2]; [done..|].
    pose proof (search_taken _ _ _ _ _ Hw) as Htw. pose proof (search_calls _ _ _ _ _ Hw) as Hcw.
    destruct (bool_decide (s_landed (refuse range s) = []) && (PROBE_WRITES <=? s_refusals (refuse range s))%nat) eqn:E.
    + apply andb_true_iff in E as [E1%bool_decide_eq_true E2%Nat.leb_le]. simpl in E1, E2.
      destruct (Hcw E1). split; [by etransitivity|]. nia.
    + apply IH; [done..|]. eapply searching_refused; [done..|]. intros He.
      apply andb_false_iff in E as [E%bool_decide_eq_false|E%Nat.leb_gt]; [by destruct E|done].
Qed.

Lemma bisect_spec t c d fuel level s :
  Forall proper (halves level) → Forall (within d) (halves level) → (d < fuel)%nat →
  triple (searching t c s (halves level)) (bisect fuel r claimed level s)
    (λ o w, match o with
            | Isolated s' => searching t c s' [] w
            | GaveUp => t ⊆ taken w ∧ (calls w ≤ c + PROBE_WRITES * sinks)%nat
            | Unfinished => False
            end) (λ _, True).
Proof.
  revert d level s. induction fuel as [|fuel IH]; intros d [|[l l'] level] s Hp Hm Hd; try lia; [by intros w Hw|].
  cbn [bisect]. eapply triple_bind; [eapply triple_conseq|].
  - apply (probe_spec t c d (halves ((l, l') :: level)) []); [done|done|constructor|constructor].
  - intros w Hw. unfold halves at 2. cbn. by rewrite app_nil_r.
  - intros a w H. exact H.
  - done.
  - intros [[s' next]|]; [|intros w Hw; exact Hw]. intros w (Hw & Hp' & Hm'). destruct next as [|p next].
    { destruct fuel; exact Hw. }
    destruct p as [a b]. assert (1 ≤ d)%nat as H1 by (unfold halves in Hm'; cbn in Hm'; inversion Hm' as [|? ? [? _]]; done).
    apply (IH (d - 1)%nat); [done| |lia|done]. eapply Forall_impl; [exact Hm'|]. by intros range [_ ?].
Qed.

(** What a pass establishes of its batch. *)
Definition attributed (t : list (nat * list ObservedRecord)) (c : nat) (d : Delivered) (w : World) : Prop :=
  t ⊆ taken w ∧
  (landed d ≠ [] → landed d ++ refused d ≡ₚ seq 0 (length claimed)) ∧
  (landed d = [] → refused d = [] ∧ (calls w ≤ c + PROBE_WRITES * sinks)%nat) ∧
  ∀ i, i ∈ landed d → written_at w i.

Lemma deliver_durably_spec t c :
  claimed ≠ [] →
  triple (λ w, t ⊆ taken w ∧ calls w = c) (deliver_durably r claimed)
    (λ o w, match o with Some d => attributed t c d w | None => False end) (λ _, True).
Proof.
  intros Hne w [Ht <-]. unfold deliver_durably, mbind at 1, M_bind at 1.
  assert (proper (0, length claimed)%nat) as Hp by (unfold proper; destruct claimed; [done|simpl; lia]).
  pose proof (write_spec claimed (taken w) (calls w) w (conj (reflexivity _) (le_n _))) as H.
  destruct (write r claimed w) as [[[|]|] w1]; [| |done]; destruct H as [[Hg Hc] H].
  - unfold attributed, indices. simpl. rewrite Nat.sub_0_r, app_nil_r. split_and!; [by etransitivity|done| |].
    + intros He. destruct claimed; [done|discriminate He].
    + intros i Hi. destruct (indices_slice (0, length claimed)%nat i Hp) as (d & Hd & Hin).
      { unfold indices. simpl. by rewrite Nat.sub_0_r. }
      exists d. split; [done|]. apply (H eq_refl). by eapply list_elem_of_lookup_2.
  - destruct (length claimed =? 1)%nat eqn:E.
    + split_and!; [by etransitivity|done| |by intros i ?%elem_of_nil]. intros _. split; [done|]. unfold PROBE_WRITES. simpl. nia.
    + set (n := length claimed) in *.
      assert (within (Nat.log2_up n) (0, n)%nat) as Hw.
      { unfold within. simpl. rewrite Nat.sub_0_r. destruct Hp as [Hp _]. simpl in Hp.
        destruct (decide (n = 1)%nat) as [->|]; [done|]. apply Nat.log2_up_spec. lia. }
      assert (Nat.log2_up n < n)%nat as Hl.
      { destruct Hp as [Hp _]. simpl in Hp. destruct (Nat.log2_up_spec n ltac:(apply Nat.eqb_neq in E; lia)) as [H1 _].
        pose proof (Nat.pow_gt_lin_r 2 (pred (Nat.log2_up n)) ltac:(lia)). lia. }
      destruct (halve_spec (0, n)%nat (Nat.log2_up n) Hp Hw) as (Hi & P1 & P2 & [_ B1] & [_ B2]).
      { cbn [fst snd]. by rewrite Nat.sub_0_r. }
      pose proof (bisect_spec t (calls w) (Nat.log2_up n - 1) n [halve (0, n)%nat] (mkSearch [] [] 1)) as Hb.
      assert (searching t (calls w) (mkSearch [] [] 1) (halves [halve (0, n)%nat]) w1) as H0.
      { split; cbn [s_landed s_orphans s_refusals].
        - unfold covered, halves. cbn -[halve indices]. rewrite app_nil_r, Hi. unfold indices. cbn [fst snd].
          by rewrite Nat.sub_0_r.
        - by intros i ?%elem_of_nil.
        - by etransitivity.
        - intros _. unfold PROBE_WRITES. lia. }
      specialize (Hb ltac:(by apply Forall_two) ltac:(by apply Forall_two) ltac:(lia) w1 H0).
      unfold mbind, M_bind. destruct (bisect n r claimed _ _ w1) as [[[s| |]|] w2]; [| |done|done].
      * destruct Hb as [H1 H2 H3 H4].
        unfold covered in H1. cbn in H1. rewrite app_nil_r in H1. simpl in H2, H3, H4.
        destruct (decide (s_landed s = [])) as [He|Hn]; unfold mret, M_ret, attributed; cbn [landed refused].
        { rewrite He in *. split_and!; [done|done|intros _; split; [done|]|by intros i ?%elem_of_nil].
          destruct (H4 eq_refl). pose proof (Nat.mul_le_mono_r (s_refusals s) PROBE_WRITES sinks ltac:(lia)). lia. }
        split_and!; [done|done|by intros ?|done].
      * destruct Hb as [H1 H2]. by split_and!; [|done| |intros i ?%elem_of_nil].
Qed.
End Attribution.

(** ** What others can do to the journal *)

Definition state_of (s : Storage) (name : ConsumerId) : ConsumerState := default consumer_default (consumers s !! name).

(** A consumer's state but for what was forgotten. *)
Definition calm (c c' : ConsumerState) : Prop :=
  acked c' ⊆ acked c ∧ quarantined c' = quarantined c ∧
  ∀ p n, handed c' !! p = Some n → handed c !! p = Some n ∧ resolved c' p = resolved c p.

#[local] Instance calm_preorder : PreOrder calm.
Proof.
  split; [by intros c|]. intros c1 c2 c3 (A1 & B1 & C1) (A2 & B2 & C2). split_and!; [by etransitivity|congruence|].
  intros p n Hn. destruct (C2 p n Hn) as [H1 H2]. destruct (C1 p n H1). split; [done|congruence].
Qed.

Lemma forget_calm s p name : calm (state_of s name) (state_of (forget s p) name).
Proof.
  unfold state_of, forget. destruct (entry s p); [|done]. cbn [consumers]. rewrite lookup_fmap.
  destruct (consumers s !! name) as [c|]; [|done]. simpl. split_and!; simpl; [set_solver|done|].
  intros q n [Hq Hn]%lookup_delete_Some. split; [done|]. by apply forget_state_resolved.
Qed.

Lemma forget_all_calm s ps name : calm (state_of s name) (state_of (foldl forget s ps) name).
Proof.
  revert s. induction ps as [|p ps IH]; intros s; [done|]. cbn [foldl]. etransitivity; [apply forget_calm|apply IH].
Qed.

Lemma reclaim_calm s max name : calm (state_of s name) (state_of (reclaim_delivered s max) name).
Proof.
  unfold reclaim_delivered. destruct (reclaim_prefix max (delivered s) s) as (qs & _ & ->). apply forget_all_calm.
Qed.

Lemma make_room_calm s name : calm (state_of s name) (state_of (make_room capacity s).2 name).
Proof.
  unfold make_room. set (s1 := if full capacity s then _ else _).
  assert (calm (state_of s name) (state_of s1 name)) as H1 by (unfold s1; destruct (full capacity s); [apply reclaim_calm|done]).
  destruct (full capacity s1); [|done]. destruct (policy capacity); [done|].
  destruct (list_find _ _) as [[i oldest]|]; [|done]. etransitivity; [exact H1|]. apply (forget_calm s1 oldest).
Qed.

Lemma append_calm s now e o name :
  append capacity s now e = Some o → calm (state_of s name) (state_of o.2 name).
Proof.
  unfold append. set (s1 := prune_acknowledged s _ now).
  assert (calm (state_of s name) (state_of s1 name)) as H1 by apply forget_all_calm.
  destruct (positions s1 !! idempotency_key e) as [p|].
  - destruct (entry s1 p); simpl; [|done]. intros [= <-]. by destruct (is_same_fact_as _ _).
  - intros [= <-]. pose proof (make_room_calm s1 name) as H2.
    destruct (make_room capacity s1) as [[]]; (etransitivity; [exact H1|exact H2]).
Qed.

Definition acked_by (s : Storage) (name : ConsumerId) : gset Z := acked (state_of s name).

(** Not an acknowledgement in the worker's name. *)
Definition foreign (o : JournalOp) : Prop :=
  match o with OAck d => d_consumer d ≠ consumer settings | _ => True end.

Lemma put_acked s name (c : ConsumerState) :
  acked c = acked_by s name → ∀ n, acked_by (set_consumers s (<[name := c]> (consumers s))) n = acked_by s n.
Proof.
  intros H n. unfold acked_by, state_of in *. simpl. destruct (decide (n = name)) as [->|Hn];
    [by rewrite lookup_insert_eq|by rewrite lookup_insert_ne].
Qed.

Lemma relinquish_acked s d n : acked_by (relinquish s d).2 n = acked_by s n.
Proof.
  unfold relinquish, put_consumer. repeat case_match; try done; apply put_acked; unfold acked_by, state_of;
    match goal with H : consumers s !! _ = Some _ |- _ => by rewrite H end.
Qed.
Lemma quarantine_acked s d reason n : acked_by (quarantine s d reason).2 n = acked_by s n.
Proof.
  unfold quarantine, put_consumer. repeat case_match; try done; apply put_acked; unfold acked_by, state_of;
    match goal with H : consumers s !! _ = Some _ |- _ => by rewrite H end.
Qed.
Lemma claim_acked s name c n : storage_wf capacity s → acked_by (claim_events capacity s name c).2 n = acked_by s n.
Proof.
  intros Hwf. destruct (claim_events_spec capacity s name c Hwf) as (c' & -> & _ & _ & Ha & _). by apply put_acked.
Qed.
Lemma ack_acked_other s d n : n ≠ d_consumer d → acked_by (ack s d).2 n = acked_by s n.
Proof.
  intros Hn. unfold ack, put_consumer. repeat case_match; try done. unfold acked_by, state_of. simpl. by rewrite lookup_insert_ne.
Qed.

(** What is stored and acknowledged afterwards was both before. *)
Lemma foreign_step s o s' x :
  journal_ok capacity s → foreign o → step capacity s o = Some s' → x ∈ entries s' →
  position x ∈ acked_by s' (consumer settings) → x ∈ entries s ∧ position x ∈ acked_by s (consumer settings).
Proof.
  intros [Hwf Hev] Hf Hs Hx Ha.
  destruct o as [now ob|name c|d|d|d reason].
  2-5: (assert (entries s' = entries s) as He by (eapply same_entries; [|exact Hs]; exact I));
    (split; [by rewrite <-He|]); apply (inj Some) in Hs as <-.
  - simpl in Hs. destruct (UsageEvent_new ob) as [e|]; [|by injection Hs as <-].
    destruct (append_total capacity s now e Hwf) as (r & s1 & Happ & Heff). rewrite Happ in Hs. injection Hs as <-.
    destruct (append_calm s now e _ (consumer settings) Happ) as [Hsub _]. split; [|by apply Hsub].
    destruct (append_effect_entries _ _ _ _ _ _ _ Heff Hx) as [?| ->]; [done|]. exfalso. apply Hsub in Ha. simpl in Ha.
    unfold acked_by, state_of in Ha. destruct (consumers s !! consumer settings) as [c|] eqn:Hc; [|done].
    apply (acked_stored _ _ _ (consumers_wf _ _ Hwf _ _ Hc)) in Ha. by eapply fresh_position.
  - by rewrite claim_acked in Ha.
  - by rewrite ack_acked_other in Ha.
  - by rewrite relinquish_acked in Ha.
  - by rewrite quarantine_acked in Ha.
Qed.

Lemma foreign_run s ops s' x :
  journal_ok capacity s → Forall foreign ops → Journal.run capacity s ops = Some s' → x ∈ entries s' →
  position x ∈ acked_by s' (consumer settings) → x ∈ entries s ∧ position x ∈ acked_by s (consumer settings).
Proof.
  revert s. induction ops as [|o ops IH]; intros s Hok Hf; simpl; [by intros [= <-]|].
  apply list.Forall_cons in Hf as [Ho Hf]. destruct (step_ok capacity s o Hok) as (s1 & Hs & Hok1). rewrite Hs. simpl.
  intros Hr Hx Ha. destruct (IH s1 Hok1 Hf Hr Hx Ha). by eapply foreign_step.
Qed.

Lemma triple_conj {A} P P' (m : M A) Q Q' (D D' : World → Prop) :
  triple P m Q D → triple P' m Q' D' →
  triple (λ w, P w ∧ P' w) m (λ a w, Q a w ∧ Q' a w) (λ w, D w ∧ D' w).
Proof. intros H H' w [Hw Hw']. specialize (H w Hw). specialize (H' w Hw'). destruct (m w) as [[a|] w']; auto. Qed.

Lemma triple_at {A} (P : World → Prop) (m : M A) Q D :
  (∀ w0, P w0 → triple (λ w, w = w0) m Q D) → triple P m Q D.
Proof. intros H w Hw. by apply (H w Hw). Qed.

(** ** What the destinations' calls keep *)

Record kept (I : World → Prop) : Prop := {
  kept_sink k batch w : I w → I (elapse (sink_fate (calls w) k batch) w);
  kept_take k batch w : I w → I (take_batch k batch w);
  kept_told k batch w : I w → I (tell_batch k batch w);
}.

Section Kept.
Context (I : World → Prop) (HI : kept I) (r : Race).

Lemma kept_sink_call k batch give :
  (∀ w, I w → I (give w)) → triple I (sink_call r k batch give) (λ _, I) I.
Proof.
  intros H. apply triple_await. intros w Hw. cbv zeta. apply (kept_sink I HI k batch) in Hw. specialize (H _ Hw).
  simpl. by split.
Qed.

Lemma kept_write ds : triple I (write r ds) (λ _, I) I.
Proof.
  unfold write. induction (seq 0 sinks) as [|k ks IH]; [by intros w Hw|]. cbn [write_sinks].
  apply (triple_bind _ _ (λ _, I)); [by apply kept_sink_call, kept_take|]. intros [|]; [apply IH|by intros w Hw].
Qed.

Lemma kept_probe claimed ranges next s : triple I (probe r claimed ranges next s) (λ _, I) I.
Proof.
  revert next s. induction ranges as [|range ranges IH]; intros next s; [by intros w Hw|]. cbn [probe].
  apply (triple_bind _ _ (λ _, I)); [apply kept_write|]. intros [|]; [apply IH|]. cbv zeta.
  destruct (_ && _); [by intros w Hw|apply IH].
Qed.

Lemma kept_bisect fuel claimed level s : triple I (bisect fuel r claimed level s) (λ _, I) I.
Proof.
  revert level s. induction fuel as [|fuel IH]; intros [|p level] s; try by intros w Hw. cbn [bisect].
  apply (triple_bind _ _ (λ _, I)); [apply kept_probe|]. intros [[s' next]|]; [apply IH|by intros w Hw].
Qed.

Lemma kept_deliver_durably claimed : triple I (deliver_durably r claimed) (λ _, I) I.
Proof.
  unfold deliver_durably. apply (triple_bind _ _ (λ _, I)); [apply kept_write|].
  intros [|]; [by intros w Hw|]. destruct (_ =? _)%nat; [by intros w Hw|].
  apply (triple_bind _ _ (λ _, I)); [apply kept_bisect|]. intros [s| |]; [|by intros w Hw..].
  destruct (decide _); by intros w Hw.
Qed.

Lemma kept_tell claimed ls : triple I (tell_advisory r claimed ls) (λ _, I) I.
Proof.
  unfold tell_advisory. destruct (_ || _); [by intros w Hw|].
  induction (seq sinks advisory) as [|k ks IH]; [by intros w Hw|]. cbn [tell_sinks].
  apply (triple_bind _ _ (λ _, I)); [by apply kept_sink_call, kept_told|]. intros ?. apply IH.
Qed.
End Kept.

(** ** What is acknowledged was written *)

(** Under this identity, an event every destination wrote. *)
Definition accepted (t : list (nat * list ObservedRecord)) (key : IdempotencyKey) : Prop :=
  ∃ e, event_ok e ∧ idempotency_key e = key ∧ wrote t e.

Lemma accepted_mono t t' key : t ⊆ t' → accepted t key → accepted t' key.
Proof.
  intros Hs (e & H1 & H2 & H3). exists e. split_and!; [done..|]. intros k Hk.
  destruct (H3 k Hk) as (batch & Hb & He). exists batch. split; [by apply Hs|done].
Qed.

Section Safety.
Context (before : gset Z).

Definition sound (w : World) : Prop :=
  journal_ok capacity (jstate w) ∧
  ∀ x, x ∈ entries (jstate w) → position x ∈ acked_by (jstate w) (consumer settings) →
    position x ∈ before ∨ accepted (taken w) (idempotency_key (event x)).

Definition standing (t : list (nat * list ObservedRecord)) (w : World) : Prop := sound w ∧ t ⊆ taken w.

Definition env_foreign : Prop :=
  (∀ n, Forall foreign (meanwhile (journal_fate n))) ∧ (∀ n k batch, Forall foreign (meanwhile (sink_fate n k batch))).

Lemma standing_elapse f t w : Forall foreign (meanwhile f) → standing t w → standing t (elapse f w).
Proof.
  intros Hf [[Hok Ha] Ht]. split; [|done]. unfold sound, elapse. cbn [jstate taken].
  destruct (run_ok capacity (jstate w) (meanwhile f) Hok) as (s' & Hr & Hok'). rewrite Hr. split; [done|].
  intros x Hx Hax. simpl in *. destruct (foreign_run _ _ _ x Hok Hf Hr Hx Hax). by apply Ha.
Qed.

Lemma standing_act t w s :
  standing t w → journal_ok capacity s → entries s = entries (jstate w) →
  (∀ p, p ∈ acked_by s (consumer settings) → p ∈ acked_by (jstate w) (consumer settings) ∨
     ∀ x, x ∈ entries s → position x = p → accepted t (idempotency_key (event x))) →
  standing t (set_jstate s w).
Proof.
  intros [[Hok Ha] Ht] Hs He Hp. split; [|done]. split; [done|]. cbn [jstate set_jstate taken].
  intros x Hx Hax. destruct (Hp _ Hax) as [H|H]; [apply Ha; [by rewrite <-He|done]|].
  right. eapply accepted_mono; [exact Ht|by apply H].
Qed.

Lemma standing_journal_call {A} r (act : Storage → result JournalError A * Storage) t :
  env_foreign → (∀ w, standing t w → standing t (set_jstate (act (jstate w)).2 w)) →
  triple (standing t) (journal_call r act) (λ _, standing t) (standing t).
Proof.
  intros [Hj _] H. apply triple_await. intros w Hw. cbv zeta.
  apply (standing_elapse (journal_fate (calls w)) t w (Hj _)) in Hw.
  specialize (H _ Hw). unfold on_journal. destruct (act _) as [b s']. simpl in *. by split.
Qed.

Lemma standing_given w g t :
  jstate (g w) = jstate w → taken w ⊆ taken (g w) → standing t w → standing t (g w).
Proof.
  intros Hj Hg [[Hok Ha] Ht]. split; [|by etransitivity]. unfold sound. rewrite Hj. split; [done|]. intros x Hx Hax.
  destruct (Ha x Hx Hax); [by left|right]. by eapply accepted_mono.
Qed.

Lemma standing_kept t : env_foreign → kept (standing t).
Proof.
  intros [Hj Hs]. split; intros *.
  - by apply standing_elapse.
  - by apply standing_given; [|simpl; set_solver].
  - by apply standing_given.
Qed.

Lemma standing_deliver_durably r claimed t :
  env_foreign → triple (standing t) (deliver_durably r claimed) (λ _, standing t) (standing t).
Proof. intros He. by apply kept_deliver_durably, standing_kept. Qed.

Lemma standing_tell r claimed ls t :
  env_foreign → triple (standing t) (tell_advisory r claimed ls) (λ _, standing t) (standing t).
Proof. intros He. by apply kept_tell, standing_kept. Qed.

(** *** Verdicts *)

(** A delivery of the worker's own claim. *)
Definition known (d : Delivery) : Prop :=
  event_ok (delivery_event d) ∧ key_of_id (d_event (delivery_id d)) = idempotency_key (delivery_event d).

Lemma verdict_wf s o : journal_ok capacity s → ∀ s', step capacity s o = Some s' → journal_ok capacity s'.
Proof. intros Hok s' Hs. destruct (step_ok capacity s o Hok) as (s1 & H1 & H2). congruence. Qed.

Lemma standing_verdict t w o s' :
  standing t w → foreign o → match o with OAppend _ _ => False | _ => True end →
  step capacity (jstate w) o = Some s' → standing t (set_jstate s' w).
Proof.
  intros Hw Hf Ho Hs. pose proof (same_entries capacity (jstate w) o s' Ho Hs) as He.
  apply standing_act; [done|by eapply verdict_wf; [apply Hw|]|done|]. intros p Hp.
  destruct (decide (p ∈ acked_by (jstate w) (consumer settings))); [by left|right]. intros x Hx <-. exfalso.
  by destruct (foreign_step _ _ _ x (proj1 (proj1 Hw)) Hf Hs Hx Hp).
Qed.

Lemma ack_acked s d p :
  p ∈ acked_by (ack s d).2 (consumer settings) →
  p ∈ acked_by s (consumer settings) ∨ positions s !! key_of_id (d_event d) = Some p.
Proof.
  destruct (decide (d_consumer d = consumer settings)) as [He|Hn]; [|rewrite ack_acked_other by done; by left].
  unfold ack, position_of, put_consumer. destruct (positions s !! _) as [q|]; [|by left].
  rewrite He. destruct (consumers s !! consumer settings) as [c|] eqn:Hc; [|by left].
  destruct (decide (q ∈ acked c)); [by left|]. destruct (decide (is_Some _)); [by left|]. destruct (decide (_ = None)); [by left|].
  unfold acked_by, state_of. simpl. rewrite lookup_insert_eq, Hc. simpl. rewrite elem_of_union, elem_of_singleton. intros [->|?]; auto.
Qed.

Lemma standing_ack t w d :
  standing t w → known d → wrote t (delivery_event d) → standing t (set_jstate (ack (jstate w) (delivery_id d)).2 w).
Proof.
  intros Hw [Hok Hk] Hd. pose proof (proj1 (proj1 Hw)) as [Hwf _].
  assert (step capacity (jstate w) (OAck (delivery_id d)) = Some (ack (jstate w) (delivery_id d)).2) as Hs by done.
  assert (entries (ack (jstate w) (delivery_id d)).2 = entries (jstate w)) as He
    by (eapply same_entries; [|exact Hs]; exact I).
  apply standing_act; [done|by eapply verdict_wf; [apply Hw|]|done|]. intros p Hp.
  apply ack_acked in Hp as [?|Hp]; [by left|right]. intros x Hx <-.
  apply (positions_index _ _ Hwf) in Hp as (y & Hy & Hyx & Hyk). rewrite He in Hx.
  assert (y = x) as -> by (by eapply (entry_unique capacity)). exists (delivery_event d). by rewrite Hyk.
Qed.

Lemma standing_spend r d t : env_foreign → triple (standing t) (spend_attempt r d) (λ _, standing t) (standing t).
Proof.
  intros He. unfold spend_attempt. destruct (_ <? _); [by intros w Hw|].
  apply (triple_bind _ _ (λ _, standing t)); [|by intros a w Hw]. apply standing_journal_call; [done|]. intros w Hw.
  exact (standing_verdict t w (OQuarantine (delivery_id d) RejectedRecord) _ Hw I I eq_refl).
Qed.

Lemma standing_give_back r d t : env_foreign → triple (standing t) (give_back r d) (λ _, standing t) (standing t).
Proof.
  intros He. unfold give_back. apply (triple_bind _ _ (λ _, standing t)); [|by intros a w Hw]. apply standing_journal_call; [done|]. intros w Hw.
  exact (standing_verdict t w (ORelinquish (delivery_id d)) _ Hw I I eq_refl).
Qed.

Lemma standing_report g t : triple (standing t) (modify (set_report g)) (λ _, standing t) (standing t).
Proof. by intros w Hw. Qed.

Lemma standing_settle r claimed d t :
  env_foreign → triple (standing t) (settle_refusals r claimed d) (λ _, standing t) (standing t).
Proof.
  intros He. unfold settle_refusals. destruct (_ <? _)%nat; [|by intros w Hw].
  eapply triple_bind; [apply standing_report|]. intros a. eapply triple_bind.
  - apply triple_each. intros x _. by apply standing_spend.
  - intros a'. apply triple_each. intros x _. by apply standing_give_back.
Qed.

Lemma standing_ack_all r ds t :
  env_foreign → Forall (λ d, known d ∧ wrote t (delivery_event d)) ds →
  triple (standing t) (ack_all r ds) (λ _, standing t) (standing t).
Proof.
  intros He. induction 1 as [|d ds [Hk Hw] _ IH]; [by intros w Hw|]. cbn [ack_all]. eapply triple_bind.
  - apply standing_journal_call; [done|]. intros w Hs. by apply standing_ack.
  - intros v. eapply triple_bind; [exact IH|]. by intros vs w Hs.
Qed.

Lemma claimed_known s c :
  journal_ok capacity s → Forall known (claim_events capacity s (consumer settings) c).1.
Proof.
  intros [Hwf Hev]. destruct (claim_events_spec capacity s (consumer settings) c Hwf) as (c' & _ & _ & _ & _ & _ & _ & Hout & _).
  eapply Forall_impl; [exact Hout|]. intros d (e & He & Hd & _ & _ & Hid & _). unfold known. rewrite Hd, Hid.
  split; [by apply Hev|]. by rewrite (event_ok_key _ (Hev e He)).
Qed.

Lemma standing_claim_at r t c :
  env_foreign →
  triple (standing t)
    (journal_call r (λ s, let '(ds, s) := claim_events capacity s (consumer settings) c in (Ok ds, s)))
    (λ o w, standing t w ∧ match o with Ok ds => Forall known ds | Err _ => True end) (standing t).
Proof.
  intros [Hj _]. apply triple_await. intros w Hw. cbv zeta.
  apply (standing_elapse (journal_fate (calls w)) t w (Hj _)) in Hw. set (w1 := elapse _ w) in *.
  unfold on_journal. pose proof (claimed_known (jstate w1) c (proj1 (proj1 Hw))) as Hk.
  assert (standing t (set_jstate (claim_events capacity (jstate w1) (consumer settings) c).2 w1)) as Hs
    by exact (standing_verdict t w1 (OClaim (consumer settings) c) _ Hw I I eq_refl).
  destruct (claim_events capacity (jstate w1) (consumer settings) c) as [ds s']. simpl in *.
  split; [by split|]. intros _. split; [done|]. split; [done|]. by destruct (answer _).
Qed.

Lemma pick_elem claimed ixs d : d ∈ pick claimed ixs ↔ ∃ i, i ∈ ixs ∧ claimed !! i = Some d.
Proof. unfold pick. by rewrite list_elem_of_omap. Qed.

Lemma standing_weaken t t' w : t ⊆ t' → standing t' w → standing t w.
Proof. intros Hs [H1 H2]. split; [done|by etransitivity]. Qed.

(** The outcome of a delivery, its writes being part of what no later step loses. *)
Definition outcome (claimed : list Delivery) (t : list (nat * list ObservedRecord)) (d : Delivered) (w : World) : Prop :=
  ∃ t', t ⊆ t' ∧ standing t' w ∧
    (landed d ≠ [] → landed d ++ refused d ≡ₚ seq 0 (length claimed)) ∧
    (landed d = [] → refused d = []) ∧
    Forall (λ x, wrote t' (delivery_event x)) (pick claimed (landed d)).

Lemma standing_deliver r claimed t :
  env_foreign → claimed ≠ [] →
  triple (standing t) (deliver r claimed)
    (λ o w, match o with Some d => outcome claimed t d w | None => False end) (standing t).
Proof.
  intros He Hne. unfold deliver. apply triple_at. intros w0 Hw0.
  eapply triple_bind; [eapply triple_conseq|].
  - exact (triple_conj _ _ _ _ _ _ _ (standing_deliver_durably r claimed t He)
      (deliver_durably_spec claimed r (taken w0) (calls w0) Hne)).
  - by intros w ->.
  - intros o w H. exact H.
  - by intros w [H _].
  - intros [d|]; [|by intros w [_ []]]. intros w1 [Hw1 (Hg & Hperm & Hnone & Hl)].
    assert (standing (taken w1) w1) as Hs by (split; [apply Hw1|done]).
    assert (t ⊆ taken w1) as Ht by apply Hw1.
    assert (Forall (λ x, wrote (taken w1) (delivery_event x)) (pick claimed (landed d))) as Hp.
    { apply list.Forall_forall. intros x (i & Hi & Hx)%pick_elem. destruct (Hl i Hi) as (d' & Hd' & Hwr). rewrite Hx in Hd'. by apply (inj Some) in Hd' as ->. }
    assert (landed d = [] → refused d = []) as Hr by (intros H; by destruct (Hnone H)).
    revert w1 Hs Ht Hw1 Hg Hperm Hnone Hl Hp. intros w1 Hs Ht _ _ Hperm _ _ Hp.
    generalize dependent (taken w1). intros t' Hs Ht Hp.
    assert (triple (standing t') (tell_advisory r claimed (landed d) ≫= λ _, mret (Some d))
      (λ o w, match o with Some d => outcome claimed t d w | None => False end) (standing t)) as H; [|by apply H].
    apply (triple_bind _ _ (λ _, standing t')).
    + eapply triple_conseq; [by apply standing_tell|done|done|intros v; by apply standing_weaken].
    + intros a w Hw. by exists t'.
Qed.

Lemma standing_pump r t : env_foreign → triple (standing t) (pump r) (λ o w, o ≠ None ∧ standing t w) (standing t).
Proof.
  intros He. unfold pump. apply (triple_bind _ _ _ _ _ _ (λ w H, standing_claim_at r t _ He w H)).
  intros [claimed|err]; [|by intros w [Hw _]]. apply triple_at. intros w0 [Hw0 Hk].
  destruct claimed as [|d0 claimed']; [by intros w ->|].
  assert (d0 :: claimed' ≠ []) as Hne by done. set (claimed := d0 :: claimed') in *. clearbody claimed.
  eapply triple_bind; [eapply triple_conseq; [exact (standing_deliver r claimed t He Hne)|by intros w ->|intros o w H; exact H|done]|].
  intros [d|]; [|by intros w []]. apply triple_at. intros w1 (t' & Ht & Hs & _ & _ & Hl).
  apply (triple_conseq _ (standing t') _ _ (λ o w, o ≠ None ∧ standing t' w) _ (standing t')); [|by intros w ->| |intros v; by apply standing_weaken].
  2: { intros o w [? ?]. split; [done|by eapply standing_weaken]. }
  apply (triple_bind _ _ (λ _, standing t')); [by apply standing_settle|]. intros a.
  destruct (decide (landed d = [])); [by intros w Hw|].
  apply (triple_bind _ _ (λ _, standing t')).
  - apply standing_ack_all; [done|]. apply list.Forall_forall. intros x Hx. split.
    + apply pick_elem in Hx as (i & _ & Hx). by apply (proj1 (list.Forall_forall _ _) Hk x), list_elem_of_lookup_2 with i.
    + by apply (proj1 (list.Forall_forall _ _) Hl x).
  - intros vs. apply (triple_bind _ _ (λ _, standing t')); [apply standing_report|]. by intros b w Hw.
Qed.

(** *** The task *)

Lemma standing_maintain next w t : env_foreign → standing t w → standing t (maintain_if_due next w).2.
Proof.
  intros He Hw. unfold maintain_if_due. destruct (_ <? _); [done|]. cbn [snd].
  assert (triple (standing t) maintain (λ _, standing t) (standing t)) as H.
  { unfold maintain. do 3 (apply (triple_bind _ _ (λ _, standing t)); [by apply standing_journal_call|intros ?]).
    by intros v Hv. }
  specialize (H w Hw). by destruct (maintain w) as [[u|] w'].
Qed.

Lemma standing_pump_until_idle fuel next w t :
  env_foreign → standing t w → standing t (pump_until_idle fuel next w).2.
Proof.
  intros He. revert next w. induction fuel as [|fuel IH]; intros next w Hw; [done|]. cbn [pump_until_idle].
  destruct (decide _); [done|]. pose proof (standing_maintain next w t He Hw) as Hm.
  destruct (maintain_if_due next w) as [next' w1]. cbn [snd] in Hm. destruct (stop w1); [done|].
  pose proof (standing_pump StopSignal t He w1 Hm) as Hp. destruct (pump StopSignal w1) as [[[[[|m]|err]|]|] w2];
    [apply Hp|by apply IH, Hp|apply Hp|apply Hp|exact Hp].
Qed.

Lemma standing_serve fuel next w t : env_foreign → standing t w → standing t (serve fuel next w).2.
Proof.
  intros He. revert next w. induction fuel as [|fuel IH]; intros next w Hw; [done|]. cbn [serve].
  pose proof (standing_pump_until_idle (S fuel) next w t He Hw) as Hp.
  destruct (pump_until_idle (S fuel) next w) as [[[|budget|] next1] w1]; [|done..]. cbn [snd] in Hp.
  assert (standing t (if decide (stop w1 = None) then maintain_if_due next1 w1 else (next1, w1)).2) as Hm
    by (destruct (decide _); [by apply standing_maintain|done]).
  destruct (if decide (stop w1 = None) then _ else _) as [next2 w2]. cbn [snd] in Hm.
  assert (standing t (match stop w2 with Some _ => w2 | None => wait w2 end)) as Hwait.
  { destruct (stop w2); [done|]. by apply standing_elapse; [apply He|]. }
  destruct (stop (match stop w2 with Some _ => w2 | None => wait w2 end)); [done|by apply IH].
Qed.

Lemma standing_drain_passes fuel deadline w t :
  env_foreign → standing t w → standing t (drain_passes fuel deadline w).2.
Proof.
  intros He. revert w. induction fuel as [|fuel IH]; intros w Hw; [done|]. cbn [drain_passes].
  destruct (_ <? _); [done|].
  pose proof (standing_pump (Deadline deadline) t He w Hw) as Hp.
  destruct (pump (Deadline deadline) w) as [[[[[|m]|err]|]|] w2]; [apply Hp|by apply IH, Hp|apply Hp|apply Hp|exact Hp].
Qed.
End Safety.

(** ** A pass takes time *)

Definition timely : Prop := (∀ n, 1 ≤ took (journal_fate n)) ∧ (∀ n k batch, 0 ≤ took (sink_fate n k batch)).

Definition timed (c : Z) (w : World) : Prop := c ≤ clock w.

Section Timed.
Context (Ht : timely).

Lemma timed_kept c : kept (timed c).
Proof.
  split; intros *; unfold timed; simpl; try done. intros H. pose proof (proj2 Ht (calls w) k batch). lia.
Qed.

Lemma timed_journal_call {A} r (act : Storage → result JournalError A * Storage) c :
  triple (timed c) (journal_call r act) (λ _, timed (c + 1)) (timed (c + 1)).
Proof.
  apply triple_await. intros w Hw. cbv zeta. pose proof (proj1 Ht (calls w)). unfold timed, on_journal in *.
  destruct (act _) as [b s']. simpl. split; intros _; split; lia.
Qed.

Lemma timed_call {A} r (act : Storage → result JournalError A * Storage) c :
  triple (timed c) (journal_call r act) (λ _, timed c) (timed c).
Proof.
  eapply triple_conseq; [apply timed_journal_call|done|intros ? w|intros w]; unfold timed; lia.
Qed.

Lemma timed_each {A} r (act : A → Storage → result JournalError unit * Storage) (f : A → M unit) l c :
  (∀ x, f x = mret tt ∨ f x = (_ ← journal_call r (act x); mret tt)) → triple (timed c) (each f l) (λ _, timed c) (timed c).
Proof.
  intros H. apply triple_each. intros x _. destruct (H x) as [->| ->]; [by intros w Hw|].
  apply (triple_bind _ _ (λ _, timed c)); [apply timed_call|by intros ? w Hw].
Qed.

Lemma timed_ack_all r ds c : triple (timed c) (ack_all r ds) (λ _, timed c) (timed c).
Proof.
  induction ds as [|d ds IH]; [by intros w Hw|]. cbn [ack_all].
  apply (triple_bind _ _ (λ _, timed c)); [apply timed_call|intros v].
  apply (triple_bind _ _ (λ _, timed c)); [apply IH|by intros vs w Hw].
Qed.

Lemma timed_pump r c : triple (timed c) (pump r) (λ _, timed (c + 1)) (timed (c + 1)).
Proof.
  unfold pump. apply (triple_bind _ _ (λ _, timed (c + 1))).
  { intros w Hw. exact (timed_journal_call r _ c w Hw). }
  generalize (c + 1). clear c. intros c [[|d0 ds]|err]; [by intros w Hw| |by intros w Hw].
  apply (triple_bind _ _ (λ _, timed c)).
  { unfold deliver. apply (triple_bind _ _ (λ _, timed c)); [apply kept_deliver_durably, timed_kept|].
    intros [d|]; [|by intros w Hw]. apply (triple_bind _ _ (λ _, timed c)); [apply kept_tell, timed_kept|by intros u w Hw]. }
  intros [d|]; [|by intros w Hw]. apply (triple_bind _ _ (λ _, timed c)).
  { unfold settle_refusals. destruct (_ <? _)%nat; [|by intros w Hw].
    apply (triple_bind _ _ (λ _, timed c)); [by intros w Hw|intros ?].
    apply (triple_bind _ _ (λ _, timed c)); [|intros ?].
    - apply (timed_each r (λ d s, quarantine s (delivery_id d) RejectedRecord)). intros x. unfold spend_attempt.
      destruct (_ <? _); auto.
    - apply (timed_each r (λ d s, relinquish s (delivery_id d))). intros x. by right. }
  intros ?. destruct (decide _); [by intros w Hw|].
  apply (triple_bind _ _ (λ _, timed c)); [apply timed_ack_all|intros vs].
  apply (triple_bind _ _ (λ _, timed c)); by intros ? Hw || by intros ? ? Hw.
Qed.
End Timed.

(** ** An outage condemns no one *)

Section Outage.
Context (aside : gmap Z PoisonReason) (some_attempt : 1 ≤ max_delivery_attempts capacity).

Definition mine (s : Storage) : ConsumerState := state_of s (consumer settings).

(** Not done in the worker's name. *)
Definition bystander (o : JournalOp) : Prop :=
  match o with
  | OAppend _ _ => True
  | OClaim name _ => name ≠ consumer settings
  | OAck d | ORelinquish d | OQuarantine d _ => d_consumer d ≠ consumer settings
  end.

(** Nobody was set aside since, and no attempt is spent but those of the
    deliveries in hand. *)
Record spared (ds : list DeliveryId) (s : Storage) : Prop := {
  spared_ok : journal_ok capacity s;
  spared_aside : quarantined (mine s) = aside;
  spared_attempts p n : handed (mine s) !! p = Some n → resolved (mine s) p = false →
    n < max_delivery_attempts capacity ∨
    ∃ d, d ∈ ds ∧ d_attempt d = n ∧ positions s !! key_of_id (d_event d) = Some p;
}.

Lemma others_step s o s' :
  bystander o → match o with OAppend _ _ => False | _ => True end → step capacity s o = Some s' →
  mine s' = mine s ∧ positions s' = positions s.
Proof.
  intros Hb Ho Hs. destruct o as [now ob|name c|d|d|d reason]; [done|..]; apply (inj Some) in Hs as <-; simpl in Hb;
    unfold mine, state_of.
  - unfold claim_events. simpl. by rewrite lookup_insert_ne.
  - unfold ack, put_consumer. repeat case_match; try done. simpl. by rewrite lookup_insert_ne.
  - unfold relinquish, put_consumer. repeat case_match; try done; simpl; by rewrite lookup_insert_ne.
  - unfold quarantine, put_consumer. repeat case_match; try done. simpl. by rewrite lookup_insert_ne.
Qed.

Lemma append_positions s now e r s' p k :
  journal_ok capacity s → append_effect capacity s now e r s' → stored s p → stored s' p →
  positions s !! k = Some p → positions s' !! k = Some p.
Proof.
  intros [Hwf _] Heff Hp (x & Hx & <-) Hk. pose proof (append_effect_wf _ _ _ _ _ _ Heff) as Hwf'.
  apply (positions_index _ _ Hwf) in Hk as (y & Hy & Hyx & Hyk). apply (positions_index _ _ Hwf').
  exists x. split_and!; [done..|].
  destruct (append_effect_entries _ _ _ _ _ _ _ Heff Hx) as [Hxs| ->].
  - assert (y = x) as -> by (by eapply (entry_unique capacity s)). done.
  - simpl in Hp. destruct (fresh_position capacity s Hwf Hp).
Qed.

Lemma spared_bystander ds s o s' : spared ds s → bystander o → step capacity s o = Some s' → spared ds s'.
Proof.
  intros [H1 H2 H3] Hb Hs. destruct (step_ok capacity s o H1) as (s1 & Hs1 & Hok). rewrite Hs in Hs1.
  apply (inj Some) in Hs1 as <-. destruct o as [now ob|name c|d|d|d reason].
  2-5: (destruct (others_step _ _ _ Hb I Hs) as [Hm Hp]; split; [done|by rewrite Hm|];
    intros p n; rewrite Hm, Hp; apply H3).
  cbn [step] in Hs. destruct (UsageEvent_new ob) as [e|]; [|by apply (inj Some) in Hs as <-].
  destruct (append_total capacity s now e (proj1 H1)) as (r & s1 & Happ & Heff). rewrite Happ in Hs.
  assert (Some s1 = Some s') as Hs1 by exact Hs. apply (inj Some) in Hs1 as <-. destruct (append_calm s now e _ (consumer settings) Happ) as (_ & Hq & Hh).
  cbn [snd] in Hq, Hh. fold (mine s) (mine s1) in Hq, Hh. split; [done|by rewrite <-H2|].
  intros p n Hn Hr. destruct (Hh p n Hn) as [Hn0 Hr0]. rewrite Hr0 in Hr.
  destruct (H3 p n Hn0 Hr) as [?|(d & Hd & Ha & Hp)]; [by left|right]. exists d. split_and!; [done..|].
  apply (append_positions s now e r s1 p _ H1 Heff); [| |exact Hp].
  - unfold mine, state_of in Hn0. destruct (consumers s !! _) as [c|] eqn:Hc; [|done].
    apply (handed_stored _ _ _ (consumers_wf _ _ (proj1 H1) _ _ Hc)). by eexists.
  - unfold mine, state_of in Hn. destruct (consumers s1 !! _) as [c|] eqn:Hc; [|done].
    apply (handed_stored _ _ _ (consumers_wf _ _ (proj1 Hok) _ _ Hc)). by eexists.
Qed.

Lemma spared_run ds s ops s' :
  spared ds s → Forall bystander ops → Journal.run capacity s ops = Some s' → spared ds s'.
Proof.
  revert s. induction ops as [|o ops IH]; intros s H Hb; simpl; [by intros [= <-]|].
  apply list.Forall_cons in Hb as [Ho Hb]. destruct (step_ok capacity s o (spared_ok _ _ H)) as (s1 & Hs & _). rewrite Hs.
  simpl. apply IH; [by eapply spared_bystander|done].
Qed.

(** An attempt is given back. *)
Lemma spared_relinquish d ds s :
  d_consumer d = consumer settings → spared (d :: ds) s → spared ds (relinquish s d).2.
Proof.
  intros Hd [H1 H2 H3]. destruct (step_ok capacity s (ORelinquish d) H1) as (s1 & Hs1 & Hok).
  apply (inj Some) in Hs1 as <-. pose proof (relinquish_acked s d (consumer settings)) as Ha.
  assert (∀ p n, handed (mine s) !! p = Some n → resolved (mine s) p = false →
    positions s !! key_of_id (d_event d) ≠ Some p ∨ d_attempt d ≠ n →
    n < max_delivery_attempts capacity ∨ ∃ d', d' ∈ ds ∧ d_attempt d' = n ∧ positions s !! key_of_id (d_event d') = Some p) as H3'.
  { intros p n Hn Hr Hne. destruct (H3 p n Hn Hr) as [?|(d' & Hd' & H4 & H5)]; [by left|].
    apply elem_of_cons in Hd' as [->|Hd']; [naive_solver|]. right. by exists d'. }
  assert (mine s = default consumer_default (consumers s !! d_consumer d)) as Hm by (by rewrite Hd).
  unfold relinquish, position_of in *. destruct (positions s !! key_of_id (d_event d)) as [q|] eqn:Hq; cbn [snd] in *.
  2: { split; [done..|]. intros p n Hn Hr. apply H3'; [done..|by left]. }
  destruct (consumers s !! d_consumer d) as [c|] eqn:Hc; cbn [snd] in *; simpl in Hm.
  2: { split; [done..|]. intros p n Hn. by rewrite Hm in Hn. }
  destruct (resolved c q) eqn:Hrq; cbn [snd] in *.
  { split; [done..|]. intros p n Hn Hr. apply H3'; [done..|]. left. intros [= ->]. rewrite Hm in Hr. congruence. }
  destruct (handed c !! q) as [m|] eqn:Hh; cbn [snd] in *.
  2: { split; [done..|]. intros p n Hn Hr. apply H3'; [done..|]. left. intros [= ->]. rewrite Hm in Hn. congruence. }
  assert (mine (put_consumer s d (mkConsumer (acked c) (quarantined c)
    (if m =? d_attempt d then <[q := saturating_sub m 1]> (handed c) else handed c) (leases c))) =
    mkConsumer (acked c) (quarantined c)
    (if m =? d_attempt d then <[q := saturating_sub m 1]> (handed c) else handed c) (leases c)) as Hm'
    by (unfold mine, state_of, put_consumer; simpl; by rewrite Hd, lookup_insert_eq).
  split; [done|by rewrite Hm', <-H2, Hm|]. rewrite Hm'. cbn [handed]. intros p n Hn Hr.
  change (resolved c p = false) in Hr. rewrite Hm in H3'. change (positions (put_consumer _ _ _)) with (positions s).
  destruct (Z.eqb_spec m (d_attempt d)) as [He|Hne].
  - destruct (decide (p = q)) as [->|Hpq].
    + rewrite lookup_insert_eq in Hn. injection Hn as <-. left.
      pose proof (handed_bounded _ _ _ (consumers_wf _ _ (proj1 H1) _ _ Hc) _ _ Hh) as Hb. unfold saturating_sub.
      lia.
    + rewrite lookup_insert_ne in Hn by done. apply H3'; [done..|]. left. congruence.
  - apply H3'; [done..|]. destruct (decide (p = q)) as [->|Hpq]; [right; congruence|left; congruence].
Qed.

(** A claim of events that all have an attempt left. *)
Record unspent (c0 : ConsumerState) (seen : list Entry) (cs : ClaimState) : Prop := {
  unspent_acked : acked (cs_state cs) = acked c0;
  unspent_aside : quarantined (cs_state cs) = quarantined c0;
  unspent_poisoned : cs_poisoned cs = [];
  unspent_handed p n : handed (cs_state cs) !! p = Some n → handed c0 !! p = Some n ∨
    ∃ e d, e ∈ seen ∧ position e = p ∧ d ∈ cs_claimed cs ∧ d_attempt (delivery_id d) = n ∧
      d_event (delivery_id d) = event_id (event e);
}.

Lemma claim_entry_unspent c0 seen cl e cs :
  (∀ p n, handed c0 !! p = Some n → resolved c0 p = false → n < max_delivery_attempts capacity) →
  position e ∉ position <$> seen → unspent c0 seen cs →
  unspent c0 (seen ++ [e]) (claim_entry capacity (consumer settings) cl e cs).2.
Proof.
  intros H0 Hn [H1 H2 H3 H4].
  assert (resolved (cs_state cs) (position e) = resolved c0 (position e)) as Hr by (unfold resolved; by rewrite H1, H2).
  assert (∀ c, acked c = acked c0 → quarantined c = quarantined c0 → handed c = handed (cs_state cs) →
    ∀ busy, unspent c0 (seen ++ [e]) (mkClaimState c busy (cs_claimed cs) (cs_poisoned cs))) as Hkeep.
  { intros c E1 E2 E3 busy. split; simpl; [done..|]. rewrite E3. intros p k Hp. destruct (H4 p k Hp) as [?|(x & d & Hx & ?)];
      [by left|right]. exists x, d. split; [set_solver|done]. }
  assert (cs = mkClaimState (cs_state cs) (cs_busy cs) (cs_claimed cs) (cs_poisoned cs)) as Hcs by by destruct cs.
  unfold claim_entry. rewrite Hr. destruct (resolved c0 (position e)) eqn:Hres; simpl; [rewrite Hcs; by apply Hkeep|].
  assert (∀ c, acked c = acked c0 → quarantined c = quarantined c0 → handed c = handed (cs_state cs) →
    unspent c0 (seen ++ [e]) (claim_free capacity (consumer settings) cl e c cs).2) as Hfree.
  { intros c E1 E2 E3. unfold claim_free. destruct (decide _); simpl; [by apply Hkeep|].
    assert (default 0 (handed c !! position e) < max_delivery_attempts capacity) as Hlt.
    { rewrite E3. destruct (handed (cs_state cs) !! position e) as [a|] eqn:Hh; simpl; [|lia].
      destruct (H4 _ _ Hh) as [?|(x & d & Hx & Hpx & _)]; [by eapply H0|]. destruct Hn.
      rewrite <-Hpx. by apply list_elem_of_fmap_2. }
    rewrite (proj2 (Z.ltb_ge _ _)) by lia. simpl. split; simpl; [done..|]. intros p k. rewrite E3.
    destruct (decide (p = position e)) as [->|Hpe].
    - rewrite lookup_insert_eq. intros [= <-]. right. exists e. eexists. split_and!;
        [set_solver|done|apply elem_of_app; right; by apply list_elem_of_singleton|done|done].
    - rewrite lookup_insert_ne by done. intros Hp. destruct (H4 p k Hp) as [?|(x & d & Hx & Hpx & Hd & ?)]; [by left|right].
      exists x, d. split_and!; [set_solver|done|set_solver|naive_solver..]. }
  destruct (leases (cs_state cs) !! position e) as [expiry|]; [|by apply Hfree].
  destruct (_ <? _); simpl; [by apply Hkeep|by apply Hfree].
Qed.

Lemma claim_loop_unspent c0 cl seen rest cs :
  (∀ p n, handed c0 !! p = Some n → resolved c0 p = false → n < max_delivery_attempts capacity) →
  NoDup (position <$> (seen ++ rest)) → unspent c0 seen cs →
  ∃ seen', seen' ⊆ seen ++ rest ∧ unspent c0 seen' (claim_loop capacity (consumer settings) cl rest cs).
Proof.
  intros H0. revert seen cs. induction rest as [|e rest IH]; intros seen cs Hnd H; simpl.
  { exists seen. split; [set_solver|done]. }
  assert (position e ∉ position <$> seen) as Hn.
  { rewrite fmap_app in Hnd. apply NoDup_app in Hnd as (_ & Hd & _). intros Hin. apply (Hd _ Hin). rewrite fmap_cons, elem_of_cons. by left. }
  pose proof (claim_entry_unspent c0 seen cl e cs H0 Hn H) as Hnext.
  destruct (claim_entry capacity (consumer settings) cl e cs) as [[|] cs']; cbn [snd] in Hnext.
  - exists (seen ++ [e]). split; [set_solver|done].
  - destruct (IH (seen ++ [e]) cs') as (seen' & Hs & Hu); [by rewrite <-app_assoc|done|].
    exists seen'. split; [by rewrite <-app_assoc in Hs|done].
Qed.

Lemma spared_claim s cl :
  spared [] s →
  let '(ds, s') := claim_events capacity s (consumer settings) cl in spared (delivery_id <$> ds) s'.
Proof.
  intros [H1 H2 H3]. destruct (step_ok capacity s (OClaim (consumer settings) cl) H1) as (s1 & Hs1 & Hok).
  apply (inj Some) in Hs1 as <-. unfold claim_events in *.
  change (default consumer_default (consumers s !! consumer settings)) with (mine s) in *.
  destruct (claim_loop_unspent (mine s) cl [] (entries s) (mkClaimState (mine s) ∅ [] [])) as (seen & Hseen & [U1 U2 U3 U4]).
  - intros p n Hn Hr. destruct (H3 p n Hn Hr) as [?|(d & Hd & _)]; [done|by apply elem_of_nil in Hd].
  - apply sorted_nodup, H1.
  - split; [done..|]. intros p n Hp. by left.
  - set (cs := claim_loop _ _ _ _ _) in *. rewrite U3 in *. simpl in *. 
    assert (mine (set_consumers s (<[consumer settings := cs_state cs]> (consumers s))) = cs_state cs) as Hm
      by (unfold mine, state_of; simpl; by rewrite lookup_insert_eq).
    split; [done|by rewrite Hm, U2|]. rewrite Hm. intros p n Hn Hr. destruct (U4 p n Hn) as [Hn0|(e & d & He & Hp & Hd & Ha & Hk)].
    + assert (resolved (mine s) p = false) as Hr0 by (unfold resolved in *; by rewrite <-U1, <-U2).
      destruct (H3 p n Hn0 Hr0) as [?|(d & Hd & _)]; [by left|by apply elem_of_nil in Hd].
    + right. exists (delivery_id d). split_and!; [by apply list_elem_of_fmap_2|done|]. simpl. rewrite Hk.
      apply Hseen in He. rewrite <-(event_ok_key _ (proj2 H1 e He)). apply (positions_index _ _ (proj1 H1)). by exists e.
Qed.

(** The journal answers; every destination refuses everything, or does not say
    that it took it; nothing is done in the worker's name but by the worker, and
    nobody stops it. *)
Definition outage : Prop :=
  (∀ n, let f := journal_fate n in
     Forall bystander (meanwhile f) ∧ signal f = None ∧ effect f = true ∧ answer f = true) ∧
  (∀ n k batch, let f := sink_fate n k batch in Forall bystander (meanwhile f) ∧ signal f = None ∧ answer f = false).

Definition patient (ds : list DeliveryId) (w : World) : Prop := spared ds (jstate w) ∧ stop w = None.
Definition undropped (r : Race) : Prop := match r with Deadline _ => False | _ => True end.

Lemma patient_elapse f ds w :
  Forall bystander (meanwhile f) → signal f = None → patient ds w → patient ds (elapse f w).
Proof.
  intros Hf Hsig [Hs Hw]. split; unfold elapse; cbn [jstate stop]; [|by rewrite Hw].
  destruct (run_ok capacity (jstate w) (meanwhile f) (spared_ok _ _ Hs)) as (s' & Hr & _). rewrite Hr. by eapply spared_run.
Qed.

Lemma never_dropped r f w : undropped r → stop w = None → drops r f w = false.
Proof. destruct r; [done| |done]. intros _ H. simpl. by rewrite H. Qed.

Context (out : outage) (r : Race) (Hr : undropped r).

Lemma outage_sink k batch give ds :
  (∀ w, jstate (give w) = jstate w ∧ stop (give w) = stop w) →
  triple (patient ds) (sink_call r k batch give) (λ ok w, ok = false ∧ patient ds w) (λ _, False).
Proof.
  intros Hg w Hw. destruct (proj2 out (calls w) k batch) as (H1 & H2 & H3).
  apply (patient_elapse _ ds w H1 H2) in Hw. unfold sink_call, await. cbv zeta. set (w1 := elapse _ w) in *. simpl.
  rewrite H3, andb_false_r. destruct (Hg w1) as [G1 G2].
  assert (patient ds (give w1)) as Hgw by (unfold patient; rewrite G1, G2; exact Hw).
  destruct (effect _); rewrite never_dropped by (done || apply Hw || apply Hgw); done.
Qed.

Lemma outage_journal {A} (act : Storage → result JournalError A * Storage) ds :
  triple (patient ds) (journal_call r act)
    (λ o w, ∃ w1, patient ds w1 ∧ o = (act (jstate w1)).1 ∧ w = set_jstate (act (jstate w1)).2 w1) (λ _, False).
Proof.
  intros w Hw. destruct (proj1 out (calls w)) as (H1 & H2 & H3 & H4).
  apply (patient_elapse _ ds w H1 H2) in Hw. unfold journal_call, await. cbv zeta. set (w1 := elapse _ w) in *.
  unfold on_journal. destruct (act (jstate w1)) as [b s'] eqn:Ha. rewrite H3, H4. simpl.
  rewrite never_dropped by (done || apply Hw). exists w1. by rewrite Ha.
Qed.

Lemma outage_write ds claimed : (0 < sinks)%nat → triple (patient ds) (write r claimed) (λ ok w, ok = false ∧ patient ds w) (λ _, False).
Proof.
  intros Hs. unfold write. destruct sinks as [|n]; [lia|]. cbn [seq write_sinks].
  eapply triple_bind; [by apply outage_sink|]. intros [|]; [by intros w [? _]|]. intros w [_ Hw]. done.
Qed.

Lemma outage_probe ds claimed ranges next s :
  (0 < sinks)%nat → s_landed s = [] →
  triple (patient ds) (probe r claimed ranges next s)
    (λ o w, patient ds w ∧ match o with Some (s', _) => s_landed s' = [] | None => True end) (λ _, False).
Proof.
  intros Hs. revert next s. induction ranges as [|range ranges IH]; intros next s He; [by intros w Hw|]. cbn [probe].
  eapply triple_bind; [by apply outage_write|]. intros [|]; [by intros w [? _]|]. cbv zeta. intros w [_ Hw]. revert w Hw.
  destruct (_ && _); [by intros w Hw|]. by apply IH.
Qed.

Lemma outage_bisect fuel ds claimed level s :
  (0 < sinks)%nat → s_landed s = [] →
  triple (patient ds) (bisect fuel r claimed level s)
    (λ o w, patient ds w ∧ match o with Isolated s' => s_landed s' = [] | _ => True end) (λ _, False).
Proof.
  intros Hs. revert level s. induction fuel as [|fuel IH]; intros [|p level] s He; try by intros w Hw. cbn [bisect].
  eapply triple_bind; [by apply outage_probe|]. intros [[s' next]|]; [|by intros w [Hw _]].
  intros w [Hw He']. by apply IH.
Qed.

Lemma outage_deliver_durably ds claimed :
  (0 < sinks)%nat → claimed ≠ [] →
  triple (patient ds) (deliver_durably r claimed) (λ o w, patient ds w ∧ o = Some delivered_default) (λ _, False).
Proof.
  intros Hs Hne. apply triple_at. intros w0 Hw0.
  apply (triple_conseq _ (λ w, patient ds w ∧ (taken w0 ⊆ taken w ∧ calls w = calls w0)) _ _
    (λ o w, (patient ds w ∧ (o = None ∨ o = Some delivered_default)) ∧
      match o with Some d => attributed claimed (taken w0) (calls w0) d w | None => False end) _ (λ _, False ∧ True)).
  - apply triple_conj; [|by apply deliver_durably_spec].
    unfold deliver_durably. eapply triple_bind; [by apply outage_write|]. intros [|]; [by intros w [? _]|].
    intros w [_ Hw]. revert w Hw. destruct (_ =? _)%nat; [intros w Hw; split; [done|by right]|].
    eapply triple_bind; [by apply outage_bisect|]. intros [s| |]; intros w [Hw He]; [|split; [done|by right]|split; [done|by left]].
    rewrite He. destruct (decide _); [|done]. split; [done|by right].
  - by intros w ->.
  - intros [d|] w [[Hw He] H]; [|done]. destruct He as [He|He]; done.
  - by intros w [? _].
Qed.

Lemma pick_all claimed : pick claimed (seq 0 (length claimed)) = claimed.
Proof.
  unfold pick. assert (∀ pre rest : list Delivery, omap (λ i, (pre ++ rest) !! i) (seq (length pre) (length rest)) = rest) as H.
  { intros pre rest. revert pre. induction rest as [|x rest IH]; intros pre; [done|]. cbn [length seq].
    cbn [omap list_omap]. rewrite list_lookup_middle by done. f_equal.
    specialize (IH (pre ++ [x])). rewrite length_app, Nat.add_1_r, <-app_assoc in IH. exact IH. }
  apply (H []).
Qed.

Lemma unattributed_all claimed : unattributed delivered_default claimed = claimed.
Proof.
  unfold unattributed. rewrite filter_all.
  - apply pick_all.
  - intros i _. simpl. split; apply not_elem_of_nil.
Qed.

Lemma outage_give_back d ds :
  d_consumer (delivery_id d) = consumer settings →
  triple (patient (delivery_id d :: ds)) (give_back r d) (λ _, patient ds) (λ _, False).
Proof.
  intros Hd. unfold give_back. eapply triple_bind; [apply outage_journal|]. intros o w (w1 & [Hs Hw] & _ & ->). simpl.
  split; [by apply spared_relinquish|done].
Qed.

Lemma outage_give_back_all ds :
  Forall (λ d, d_consumer (delivery_id d) = consumer settings) ds →
  triple (patient (delivery_id <$> ds)) (each (give_back r) ds) (λ _, patient []) (λ _, False).
Proof.
  induction 1 as [|d ds Hd _ IH]; [by intros w Hw|]. cbn [each fmap list_fmap].
  apply (triple_bind _ _ (λ _, patient (delivery_id <$> ds))); [by apply outage_give_back|by intros ?].
Qed.

Lemma outage_pump :
  (0 < sinks)%nat → triple (patient []) (pump r) (λ o w, patient [] w ∧ o = Some (Ok O)) (λ _, False).
Proof.
  intros Hs. unfold pump.
  apply (triple_bind _ _ (λ o w, ∃ ds, o = Ok ds ∧ patient (delivery_id <$> ds) w ∧
    Forall (λ d, d_consumer (delivery_id d) = consumer settings) ds)).
  - intros w Hw. unfold claim_call. refine (triple_conseq _ _ _ _ _ _ _ (outage_journal _ []) _ _ _ w Hw); [done| |done].
    intros o w2 (w1 & [Hs1 Hw1] & -> & ->). set (cl := mkClaim _ _ _).
    pose proof (spared_claim (jstate w1) cl Hs1) as H.
    destruct (claim_events_spec capacity (jstate w1) (consumer settings) cl (proj1 (spared_ok _ _ Hs1)))
      as (c' & _ & _ & _ & _ & _ & _ & Hout & _).
    destruct (claim_events capacity (jstate w1) (consumer settings) cl) as [ds s']. exists ds. split_and!; [done|done|].
    eapply Forall_impl; [exact Hout|]. intros d (e & _ & _ & _ & _ & Hid & _). by rewrite Hid.
  - intros o w (ds & -> & Hw & Hd). destruct ds as [|d0 ds']; [by split|].
    assert (d0 :: ds' ≠ []) as Hne by done. set (claimed := d0 :: ds') in *. clearbody claimed.
    revert w Hw.
    apply (triple_bind _ _ (λ o w, patient (delivery_id <$> claimed) w ∧ o = Some delivered_default)).
    { unfold deliver. eapply triple_bind; [by apply outage_deliver_durably|]. intros o w [Hw ->].
      unfold tell_advisory, mbind, M_bind. simpl. rewrite orb_true_r. simpl. done. }
    intros o w [Hw ->]. revert w Hw. cbn [landed delivered_default].
    apply (triple_bind _ _ (λ _, patient [])); [|by intros ? w Hw].
    unfold settle_refusals. cbn [landed refused delivered_default length]. rewrite unattributed_all.
    rewrite (proj2 (Nat.ltb_lt _ _)) by (destruct claimed; [done|simpl; lia]).
    apply (triple_bind _ _ (λ _, patient (delivery_id <$> claimed))); [by intros w Hw|]. intros a.
    apply (triple_bind _ _ (λ _, patient (delivery_id <$> claimed))); [by intros w Hw|]. intros a'.
    by apply outage_give_back_all.
Qed.
End Outage.

Lemma outage_serve aside (some_attempt : 1 ≤ max_delivery_attempts capacity) (out : outage) fuel next w :
  (0 < sinks)%nat → patient aside [] w → (serve fuel next w).1 = None ∧ patient aside [] (serve fuel next w).2.
Proof.
  intros Hs. pose proof (λ r Hr, outage_pump aside some_attempt out r Hr Hs) as Hpump.
  assert (∀ next w, patient aside [] w → patient aside [] (maintain_if_due next w).2) as Hm.
  { intros next1 w1 Hw. unfold maintain_if_due. destruct (_ <? _); [done|]. cbn [snd].
    assert (triple (patient aside []) maintain (λ _, patient aside []) (λ _, False)) as H.
    { unfold maintain. do 3 (apply (triple_bind _ _ (λ _, patient aside []));
        [eapply triple_conseq; [by apply outage_journal|done| |done]; by intros u1 v (v' & Hv & _ & ->)|intros ?]).
      by intros v Hv. }
    specialize (H w1 Hw). by destruct (maintain w1) as [[u|] w']. }
  assert (∀ f next w, patient aside [] w → ∀ P next' w', pump_until_idle f next w = (P, next', w') →
    (P = Idle ∨ P = Starved) ∧ patient aside [] w') as Hpi.
  { intros [|f] next1 w1 Hw P next' w'; cbn [pump_until_idle]; [intros [= <- <- <-]; auto|].
    rewrite decide_False by (intros H; apply H, Hw). specialize (Hm next1 w1 Hw).
    destruct (maintain_if_due next1 w1) as [n2 w2]. cbn [snd] in Hm. rewrite (proj2 Hm).
    specialize (Hpump StopSignal I w2 Hm). destruct (pump StopSignal w2) as [[o|] w3]; [|done].
    destruct Hpump as [Hw3 ->]. intros [= <- <- <-]. auto. }
  revert next w. induction fuel as [|fuel IH]; intros next w Hw; [done|]. cbn [serve].
  destruct (pump_until_idle (S fuel) next w) as [[P n1] w1] eqn:Hp.
  destruct (Hpi _ _ _ Hw _ _ _ Hp) as [[->| ->] Hw1]; [|done]. rewrite decide_True by apply Hw1.
  specialize (Hm n1 w1 Hw1). destruct (maintain_if_due n1 w1) as [n2 w2]. cbn [snd] in Hm.
  rewrite (proj2 Hm). assert (patient aside [] (wait w2)) as Hwait.
  { destruct (proj1 out (calls w2)) as (H1 & H2 & _). by apply patient_elapse. }
  rewrite (proj2 Hwait). by apply IH.
Qed.

(** ** A poisoned event is told from its siblings *)

Section Poison.
Context (poison : ObservedRecord → bool) (claimed : list Delivery).

(** The destinations refuse exactly the batches that hold a poisoned event. *)
Definition picky : Prop := ∀ n k batch, let f := sink_fate n k batch in effect f && answer f = negb (existsb poison batch).

Definition bad (i : nat) : bool :=
  match claimed !! i with Some d => poison (observed (delivery_event d)) | None => false end.
Definition bads (ixs : list nat) : nat := length (filter (λ i, bad i = true) ixs).

Context (pick_y : picky) (some_sink : (0 < sinks)%nat).

Lemma bads_app xs ys : bads (xs ++ ys) = (bads xs + bads ys)%nat.
Proof. unfold bads. by rewrite filter_app, length_app. Qed.

Lemma slice_bad range :
  proper claimed range →
  existsb poison ((λ d, observed (delivery_event d)) <$> slice claimed range) = existsb bad (indices range).
Proof.
  intros Hp. apply eq_true_iff_eq. rewrite !existsb_exists. split.
  - intros (o & Ho%list_elem_of_In & Hb). apply list_elem_of_fmap in Ho as (d & -> & Hd).
    unfold slice in Hd. apply list_elem_of_lookup in Hd as [i Hi]. apply lookup_take_Some in Hi as [Hi Hlt].
    rewrite lookup_drop in Hi. exists (range.1 + i)%nat. split; [apply list_elem_of_In, elem_of_seq; lia|].
    unfold bad. by rewrite Hi.
  - intros (i & Hi%list_elem_of_In & Hb). destruct (indices_slice claimed range i Hp Hi) as (d & Hd & Hin).
    exists (observed (delivery_event d)). split; [by apply list_elem_of_In, (list_elem_of_fmap_2 (λ d, observed (delivery_event d)))|].
    unfold bad in Hb. by rewrite Hd in Hb.
Qed.

Lemma picky_write ds :
  triple (λ _, True) (write Unraced ds)
    (λ ok _, ok = negb (existsb poison ((λ d, observed (delivery_event d)) <$> ds))) (λ _, False).
Proof.
  unfold write. set (batch := _ <$> ds). clearbody batch. destruct sinks as [|m]; [lia|].
  assert (∀ k, triple (λ _, True) (sink_call Unraced k batch (take_batch k batch)) (λ ok _, ok = negb (existsb poison batch)) (λ _, False)) as Hc.
  { intros k w _. unfold sink_call, await. simpl. rewrite (pick_y (calls w) k batch). by destruct (negb _). }
  assert (∀ ks, existsb poison batch = false → triple (λ _, True) (write_sinks Unraced batch ks) (λ ok _, ok = true) (λ _, False)) as Hall.
  { intros ks He. induction ks as [|k ks IH]; [by intros w Hw|]. cbn [write_sinks].
    eapply triple_bind; [apply Hc|]. rewrite He. intros [|]; [|by intros w ?]. intros w _. by apply IH. }
  cbn [seq write_sinks]. eapply triple_bind; [apply Hc|]. destruct (existsb poison batch) eqn:He; intros [|]; try (by intros w ?).
  intros w _. apply (Hall _ eq_refl w I).
Qed.

Lemma bads_single range : proper claimed range → (range.2 - range.1 =? 1)%nat = true → existsb bad (indices range) = bad range.1.
Proof. intros _ E%Nat.eqb_eq. unfold indices. rewrite E. simpl. by rewrite orb_false_r. Qed.

Lemma bads_pos ixs : existsb bad ixs = true → (1 ≤ bads ixs)%nat.
Proof.
  intros (i & Hi%list_elem_of_In & Hb)%existsb_exists. unfold bads.
  assert (i ∈ filter (λ i, bad i = true) ixs) as Hf by (by apply list_elem_of_filter).
  destruct (filter _ ixs); [by apply elem_of_nil in Hf|simpl; lia].
Qed.

(** What landed is healthy, what was isolated is not. *)
Definition sorted_out (s : Search) : Prop :=
  (∀ i, i ∈ s_landed s → bad i = false) ∧ (∀ i, i ∈ s_orphans s → bad i = true).

Lemma picky_probe ranges next s :
  Forall (proper claimed) ranges → sorted_out s → (s_refusals s + bads (ranges ≫= indices) < PROBE_WRITES)%nat →
  triple (λ _, True) (probe Unraced claimed ranges next s)
    (λ o _, match o with
            | Some (s', _) => sorted_out s' ∧ (s_refusals s' ≤ s_refusals s + bads (ranges ≫= indices))%nat
            | None => False
            end) (λ _, False).
Proof.
  intros Hp. revert next s. induction Hp as [|range ranges Hr _ IH]; intros next s [S1 S2] Hlt.
  { intros w _. split; [done|]. simpl. lia. }
  rewrite bind_cons, bads_app in Hlt. cbn [probe]. eapply triple_bind; [apply picky_write|]. rewrite slice_bad by done.
  destruct (existsb bad (indices range)) eqn:Hb; intros [|]; try (by intros w ?); cbv zeta; intros w _.
  - pose proof (bads_pos _ Hb). rewrite bind_cons, bads_app.
    rewrite (proj2 (Nat.leb_gt _ _)), andb_false_r by (cbn [s_refusals]; lia).
    refine (triple_conseq _ _ _ _ _ _ _ (IH _ _ _ _) _ _ _ w I); [| |done| |done].
    + split; [done|]. cbn [s_orphans]. destruct (range.2 - range.1 =? 1)%nat eqn:E; [|done].
      intros i [Hi|Hi]%elem_of_app; [by apply S2|]. apply list_elem_of_singleton in Hi as ->. by rewrite <-(bads_single range).
    + cbn [s_refusals]. lia.
    + cbn [s_refusals]. intros [[s' next']|] v; [|done]. intros [? ?]. split; [done|lia].
  - rewrite bind_cons, bads_app. refine (triple_conseq _ _ _ _ _ _ _ (IH _ _ _ _) _ _ _ w I); [| |done| |done].
    + split; [|done]. cbn [s_landed]. intros i [Hi|Hi]%elem_of_app; [by apply S1|]. apply not_true_is_false. intros Hbi.
      apply not_true_iff_false in Hb. apply Hb, existsb_exists. exists i. split; [by apply list_elem_of_In|done].
    + cbn [s_refusals]. lia.
    + cbn [s_refusals]. intros [[s' next']|] v; [|done]. intros [? ?]. split; [done|lia].
Qed.

Lemma bads_perm xs ys : xs ≡ₚ ys → bads xs = bads ys.
Proof. intros H. unfold bads. by rewrite H. Qed.

Lemma picky_bisect t c d fuel level s :
  Forall (proper claimed) (halves level) → Forall (within d) (halves level) → (d < fuel)%nat →
  sorted_out s → (s_refusals s + S d * bads (seq 0 (length claimed)) < PROBE_WRITES)%nat →
  triple (searching claimed t c s (halves level)) (bisect fuel Unraced claimed level s)
    (λ o w, ∃ s', o = Isolated s' ∧ sorted_out s' ∧ searching claimed t c s' [] w) (λ _, False).
Proof.
  revert d level s. induction fuel as [|fuel IH]; intros d [|p level] s Hp Hm Hd Hs Hlt; try lia; [by intros w Hw; exists s|].
  set (K := bads (seq 0 (length claimed))) in *. cbn [bisect]. intros w Hw.
  assert (bads (halves (p :: level) ≫= indices) ≤ K)%nat as HK.
  { pose proof (bads_perm _ _ (search_covers _ _ _ _ _ _ Hw)) as H. rewrite !bads_app in H. unfold K. lia. }
  pose proof (triple_conj _ _ _ _ _ _ _ (probe_spec claimed Unraced t c d (halves (p :: level)) [] s Hp Hm
    (List.Forall_nil _) (List.Forall_nil _)) (picky_probe (halves (p :: level)) [] s Hp Hs ltac:(lia)) w) as H.
  specialize (H ltac:(split; [unfold halves at 2; cbn; by rewrite app_nil_r|done])).
  unfold mbind, M_bind. destruct (probe _ _ _ _ _ w) as [[[[s1 next]|]|] w1]; [|by destruct H..].
  destruct H as [(Hw1 & Hp1 & Hm1) [Hs1 Hr1]]. destruct next as [|q next]; [by destruct fuel; exists s1|].
  assert (1 ≤ d)%nat as H1 by (unfold halves in Hm1; cbn in Hm1; inversion Hm1 as [|? ? [? _]]; done).
  apply (IH (d - 1)%nat); [done| |lia|done| |done].
  - eapply Forall_impl; [exact Hm1|]. by intros range [_ ?].
  - fold K. replace (S (d - 1)) with d by lia. simpl in Hlt. lia.
Qed.

Lemma poison_deliver t c :
  (∃ i, (i < length claimed)%nat ∧ bad i = false) →
  (1 + Nat.log2_up (length claimed) * bads (seq 0 (length claimed)) < PROBE_WRITES)%nat →
  triple (λ w, t ⊆ taken w ∧ calls w = c) (deliver_durably Unraced claimed)
    (λ o w, ∃ d, o = Some d ∧ attributed claimed t c d w ∧
       (∀ i, i ∈ landed d → bad i = false) ∧ (∀ i, i ∈ refused d → bad i = true) ∧ landed d ≠ []) (λ _, False).
Proof.
  intros (i & Hi & Hbi) Hlt. set (n := length claimed) in *.
  assert (claimed ≠ []) as Hne by (intros He; unfold n in Hi; rewrite He in Hi; simpl in Hi; lia).
  assert (proper claimed (0, n)%nat) as Hp by (unfold proper; simpl; lia).
  assert (indices (0, n)%nat = seq 0 n) as Hix by (unfold indices; simpl; by rewrite Nat.sub_0_r).
  assert (slice claimed (0, n)%nat = claimed) as Hsl by (unfold slice; simpl; rewrite Nat.sub_0_r; apply firstn_all).
  intros w Hw. pose proof (deliver_durably_spec claimed Unraced t c Hne w Hw) as Hspec.
  assert (match deliver_durably Unraced claimed w with
    | (Some o, w') => ∃ d, o = Some d ∧ (∀ i, i ∈ landed d → bad i = false) ∧ (∀ i, i ∈ refused d → bad i = true) ∧ landed d ≠ []
    | (None, _) => False end) as Hmain.
  2: { destruct (deliver_durably Unraced claimed w) as [[o|] w']; [|done]. destruct Hmain as (d & -> & ? & ? & ?). by exists d. }
  clear Hspec. destruct Hw as [Ht <-]. unfold deliver_durably, mbind at 1, M_bind at 1. fold n.
  pose proof (triple_conj _ _ _ _ _ _ _ (write_spec Unraced claimed (taken w) (calls w)) (picky_write claimed) w
    (conj (conj (reflexivity _) (le_n _)) I)) as H.
  assert (existsb poison ((λ d, observed (delivery_event d)) <$> claimed) = existsb bad (seq 0 n)) as Hpb
    by (by rewrite <-Hix, <-slice_bad, Hsl).
  rewrite Hpb in H.
  destruct (write Unraced claimed w) as [[ok|] w1]; [|by destruct H]. destruct H as [[[Hg Hc] _] ->].
  destruct (existsb bad (seq 0 n)) eqn:Hb; cbn [negb].
  2: { rewrite Hix. eexists. split; [done|]. cbn [landed refused]. split_and!; [|by intros j ?%elem_of_nil|].
       - intros j Hj. apply not_true_is_false. intros Hbj. apply not_true_iff_false in Hb. apply Hb, existsb_exists.
         exists j. split; [by apply list_elem_of_In|done].
       - destruct n; [lia|done]. }
  assert (n ≠ 1)%nat as Hn1. { intros E. rewrite E in *. simpl in Hb. assert (i = 0)%nat as -> by lia. by rewrite Hbi in Hb. }
  rewrite (proj2 (Nat.eqb_neq n 1)) by done.
  destruct (half_of n (Nat.log2_up n) ltac:(lia) (proj2 (Nat.log2_up_spec n ltac:(lia)))) as (_ & _ & Hl1 & _).
  assert (Nat.log2_up n < n)%nat as Hl.
  { destruct (Nat.log2_up_spec n ltac:(lia)) as [H1 _]. pose proof (Nat.pow_gt_lin_r 2 (pred (Nat.log2_up n)) ltac:(lia)). lia. }
  assert (within (Nat.log2_up n) (0, n)%nat) as Hwi by (unfold within; simpl; rewrite Nat.sub_0_r; apply Nat.log2_up_spec; lia).
  destruct (halve_spec claimed (0, n)%nat (Nat.log2_up n) Hp Hwi) as (Hcov & P1 & P2 & [_ B1] & [_ B2]).
  { cbn [fst snd]. by rewrite Nat.sub_0_r, (proj2 (Nat.eqb_neq n 1)). }
  pose proof (picky_bisect t (calls w) (Nat.log2_up n - 1) n [halve (0, n)%nat] (mkSearch [] [] 1)) as Hbis.
  specialize (Hbis ltac:(by apply Forall_two) ltac:(by apply Forall_two) ltac:(lia)
    ltac:(by split; intros j ?%elem_of_nil) ltac:(cbn [s_refusals]; fold n; replace (S (Nat.log2_up n - 1)) with (Nat.log2_up n) by lia; done) w1).
  assert (searching claimed t (calls w) (mkSearch [] [] 1) (halves [halve (0, n)%nat]) w1) as H0.
  { split; cbn [s_landed s_orphans s_refusals].
    - unfold covered, halves. cbn -[halve indices]. by rewrite app_nil_r, Hcov, Hix.
    - by intros j ?%elem_of_nil.
    - by etransitivity.
    - intros _. unfold PROBE_WRITES. lia. }
  specialize (Hbis H0). unfold mbind, M_bind. cbv beta. destruct (bisect n Unraced claimed _ _ w1) as [[o|] w2]; [|done].
  destruct Hbis as (s & -> & [G1 G2] & Hs). pose proof (search_covers _ _ _ _ _ _ Hs) as Hcv. unfold covered in Hcv.
  cbn in Hcv. rewrite app_nil_r in Hcv.
  assert (i ∈ s_landed s) as Hland.
  { assert (i ∈ seq 0 n) as Hin by (apply elem_of_seq; lia). unfold n in Hin. rewrite <-Hcv in Hin.
    apply elem_of_app in Hin as [?|Hin]; [done|]. by rewrite (G2 i Hin) in Hbi. }
  destruct (decide (s_landed s = [])) as [He|Hn]; [by rewrite He in Hland; apply elem_of_nil in Hland|].
  unfold mret, M_ret. eexists. by split_and!.
Qed.
End Poison.

Lemma filter_none {A} (P : A → Prop) `{!∀ x, Decision (P x)} (l : list A) :
  (∀ x, x ∈ l → ¬ P x) → filter P l = [].
Proof.
  induction l as [|x l IH]; intros Hl; [done|]. rewrite filter_cons_False by apply Hl, list_elem_of_here.
  apply IH. intros y Hy. by apply Hl, list_elem_of_further.
Qed.

(** ** Properties *)

(** C18: What is acknowledged was written.  Whatever fails, times out, is dropped or
    lost, whatever others do to the journal meanwhile and whenever the stop comes,
    once the worker has run, every event acknowledged in its name since it started
    reached every destination under its identity. *)
Theorem acknowledged_was_written (fuel : nat) (w w' : World) (x : Entry) :
  env_foreign → journal_ok capacity (jstate w) → run_worker fuel w = Some w' →
  x ∈ entries (jstate w') → position x ∈ acked_by (jstate w') (consumer settings) →
  position x ∈ acked_by (jstate w) (consumer settings) ∨ accepted (taken w') (idempotency_key (event x)).
Proof.
  intros He Hok. unfold run_worker. set (before := acked_by (jstate w) (consumer settings)).
  set (w0 := set_report _ w).
  assert (standing before [] w0) as Hw0 by (split; [split; [done|by left]|set_solver]).
  pose proof (standing_serve before fuel (clock w0 + maintain_interval settings) w0 [] He Hw0) as Hs.
  destruct (serve fuel _ w0) as [[budget|] w1]; [|done]. cbn [snd] in Hs.
  pose proof (standing_drain_passes before fuel (clock w1 + budget) w1 [] He Hs) as Hd.
  destruct (drain_passes fuel _ w1) as [[|] w2]; [|done]. cbn [snd] in Hd. intros [= <-].
  assert (standing before [] (closing_read w2)) as [[_ H] _]; [|intros; by apply H].
  unfold closing_read, await. cbv zeta. pose proof (standing_elapse before _ [] w2 (proj1 He (calls w2)) Hd) as Hc.
  set (w3 := elapse _ w2) in *. cbn [fst snd]. by repeat case_match; simplify_eq.
Qed.

(** Every refusal is attributed.  A delivery never runs out of halvings; when
    anything landed, each event of the batch either reached every destination or
    was refused alone, never both; when nothing did, nobody is charged and the
    destinations were tried a bounded number of times. *)
Theorem refusals_attributed (r : Race) (claimed : list Delivery) (w w' : World) (o : option Delivered) :
  claimed ≠ [] → deliver_durably r claimed w = (Some o, w') →
  ∃ d, o = Some d ∧
    (landed d ≠ [] → landed d ++ refused d ≡ₚ seq 0 (length claimed)) ∧
    (landed d = [] → refused d = [] ∧ (calls w' ≤ calls w + PROBE_WRITES * sinks)%nat) ∧
    ∀ i, i ∈ landed d → ∃ x, claimed !! i = Some x ∧ wrote (taken w') (delivery_event x).
Proof.
  intros Hne Hd. pose proof (deliver_durably_spec claimed r (taken w) (calls w) Hne w (conj (reflexivity _) eq_refl)) as H.
  rewrite Hd in H. destruct o as [d|]; [|done]. exists d. destruct H as (_ & H1 & H2 & H3). by split_and!.
Qed.

(** C19: An outage condemns no one.  While the destinations take nothing, however long
    it lasts, the worker serves on, sets nothing aside and spends no attempt:
    every event that had an attempt left still has one. *)
Theorem outage_condemns_no_one (fuel : nat) (next : Z) (w : World) :
  1 ≤ max_delivery_attempts capacity → (0 < sinks)%nat → outage →
  journal_ok capacity (jstate w) → stop w = None →
  (∀ p n, handed (mine (jstate w)) !! p = Some n → resolved (mine (jstate w)) p = false → n < max_delivery_attempts capacity) →
  let '(budget, w') := serve fuel next w in
  budget = None ∧ quarantined (mine (jstate w')) = quarantined (mine (jstate w)) ∧
  ∀ p n, handed (mine (jstate w')) !! p = Some n → resolved (mine (jstate w')) p = false → n < max_delivery_attempts capacity.
Proof.
  intros Hmax Hs Hout Hok Hstop Hh.
  assert (patient (quarantined (mine (jstate w))) [] w) as Hw by (split; [split; [done..|by left; eauto]|done]).
  destruct (outage_serve _ Hmax Hout fuel next w Hs Hw) as [H1 H2]. destruct (serve fuel next w) as [budget w'].
  simpl in *. destruct H2 as [[_ H3 H4] _]. split_and!; [done..|]. intros p n Hp Hr.
  by destruct (H4 p n Hp Hr) as [?|(d & ?%elem_of_nil & _)].
Qed.

(** C20: A poisoned event is told from its siblings.  When the destinations refuse
    exactly the batches that hold a poisoned event, some event is healthy, and the
    poisoned ones are few enough for the bound on refused writes, then what landed
    are the healthy events and what is refused are the poisoned ones. *)
Theorem poison_isolated (poison : ObservedRecord → bool) (claimed : list Delivery) (w : World) :
  picky poison → (0 < sinks)%nat → (∃ i, (i < length claimed)%nat ∧ bad poison claimed i = false) →
  (1 + Nat.log2_up (length claimed) * bads poison claimed (seq 0 (length claimed)) < PROBE_WRITES)%nat →
  ∃ d w', deliver_durably Unraced claimed w = (Some (Some d), w') ∧
    landed d ≡ₚ filter (λ i, bad poison claimed i = false) (seq 0 (length claimed)) ∧
    refused d ≡ₚ filter (λ i, bad poison claimed i = true) (seq 0 (length claimed)).
Proof.
  intros Hp Hs Hh Hb. pose proof (poison_deliver poison claimed Hp Hs (taken w) (calls w) Hh Hb w (conj (reflexivity _) eq_refl)) as H.
  destruct (deliver_durably Unraced claimed w) as [[o|] w']; [|done].
  destruct H as (d & -> & (_ & Hcov & _) & Hl & Hr & Hne). exists d, w'. split; [done|].
  specialize (Hcov Hne). rewrite <-Hcov, !filter_app.
  rewrite (filter_all (λ i, bad poison claimed i = false) (landed d)) by done.
  rewrite (filter_all (λ i, bad poison claimed i = true) (refused d)) by done.
  rewrite (filter_none _ (refused d)) by (intros i Hi; rewrite (Hr i Hi); done).
  rewrite (filter_none _ (landed d)) by (intros i Hi; rewrite (Hl i Hi); done).
  by rewrite app_nil_r.
Qed.

(** The drain ends.  As a call of the journal takes some time, the passes after the
    stop signal, each of which has acknowledged something but the last, end once
    the budget is over. *)
Theorem drain_ends (fuel : nat) (deadline : Z) (w : World) :
  env_foreign → timely → journal_ok capacity (jstate w) →
  Z.max 0 (deadline - clock w + 1) < Z.of_nat fuel →
  ∃ w', drain_passes fuel deadline w = (true, w') ∧ journal_ok capacity (jstate w').
Proof.
  intros He Ht Hok.
  assert (standing (acked_by (jstate w) (consumer settings)) [] w) as Hw by (split; [split; [done|by left]|set_solver]).
  revert Hw. generalize (acked_by (jstate w) (consumer settings)). intros before. clear Hok. revert w.
  induction fuel as [|fuel IH]; intros w Hw Hf; [lia|]. cbn [drain_passes].
  destruct (Z.ltb_spec deadline (clock w)) as [Hlt|Hle]; [exists w; split; [done|apply Hw]|].
  pose proof (standing_pump before (Deadline deadline) [] He w Hw) as Hp.
  pose proof (timed_pump Ht (Deadline deadline) (clock w) w (Z.le_refl _)) as Hc. unfold timed in Hc.
  destruct (pump (Deadline deadline) w) as [[[[[|m]|err]|]|] w2];
    [exists w2; split; [done|apply Hp]| |exists w2; split; [done|apply Hp]|by destruct Hp|exists w2; split; [done|apply Hp]].
  apply IH; [apply Hp|lia].
Qed.
End Worker.

(** ** The handle *)

Inductive Joined :=
| Finished (after : Z) (report : DrainReport)
| Panicked (after : Z)
| Overran.

Inductive BacklogRead :=
| Read (after : Z) (stats : JournalStats)
| ReadFailed (after : Z)
| ReadTimedOut.

Definition abandon : DrainReport := mkReport 0 0 0 0 false false false true.

(** The report and what it cost. *)
Definition unreported (backlog : BacklogRead) : DrainReport * Z :=
  let '(r, cost) := match backlog with
    | Read after stats => (observe stats report_default, after)
    | ReadFailed after => (report_default, after)
    | ReadTimedOut => (report_default, CLOSING_READ)
    end in
  (mkReport (delivered_events r) (failed_batches r) (undelivered r) (quarantined_left r) false
     (reported r) (counted r) (unwaited r), cost).

Definition drain (budget : Z) (task : Joined) (backlog : BacklogRead) : DrainReport * Z :=
  match task with
  | Finished after report => (report, after)
  | Panicked after => let '(r, cost) := unreported backlog in (r, after + cost)
  | Overran => let '(r, cost) := unreported backlog in (r, budget + DRAIN_MARGIN + cost)
  end.

(** A report the worker handed back is its own; without one the backlog is read
    from the journal, never called drained, and the wait for both is bounded. *)
Theorem drain_bounded (budget : Z) (task : Joined) (backlog : BacklogRead) :
  match task with Finished after _ | Panicked after => after ≤ budget + DRAIN_MARGIN | Overran => True end →
  match backlog with Read after _ | ReadFailed after => after ≤ CLOSING_READ | ReadTimedOut => True end →
  let '(r, cost) := drain budget task backlog in
  cost ≤ budget + DRAIN_MARGIN + CLOSING_READ ∧
  match task with
  | Finished _ report => r = report
  | _ => reported r = false ∧ caught_up r ≠ Some true ∧
      (counted r = true ↔ ∃ after s, backlog = Read after s ∧ undelivered r = pending s + in_flight s)
  end.
Proof.
  intros Ht Hb. unfold drain, unreported. destruct task as [after r|after|], backlog as [cost s|cost|];
    unfold CLOSING_READ in *; simpl; split; try lia; try done; (split_and!; [done|done|]); split; try done;
    try (by intros (? & ? & ? & ?)); intros _; by exists cost, s.
Qed.

(** ** Witnesses *)

#[local] Existing Instance unit_json.
#[local] Existing Instance unit_value_eq.

Definition demo_settings : WorkerSettings := mkSettings "billing" 8 30 1 1000.

(** Two events of two callers. *)
Definition demo_ops : list (@JournalOp unit_json) :=
  [OAppend 0 (mkObservedRecord (demo_record id_a "s") 0); OAppend 1 (mkObservedRecord (demo_record id_b "t") 1)].

Definition start (s : @Storage unit_json) : World := mkWorld 2 0 s None report_default [] [].
Definition demo_world : World := start (ran demo_ops).

(** All goes well; the stop signal comes with the 13th call. *)
Definition well (n : nat) : @Fate unit_json := mkFate [] 1 (if (n =? 12)%nat then Some 10 else None) true true false.
Definition well_sink (n k : nat) (batch : list (@ObservedRecord unit_json)) : Fate := well n.

Definition demo_end : World :=
  default demo_world (run_worker BILLING_GRADE demo_settings 1 1 well well_sink 20 demo_world).

Definition demo_last : @Entry unit_json := default (mkEntry 9 (event demo_entry)) (last (entries (ran demo_ops))).

Lemma demo_ok : journal_ok BILLING_GRADE (ran demo_ops).
Proof.
  destruct (run_ok BILLING_GRADE storage_default demo_ops (default_ok _)) as (s & Hs & Hok).
  unfold ran. by rewrite Hs.
Qed.

Lemma well_foreign : env_foreign demo_settings well well_sink.
Proof. by split; intros; constructor. Qed.

Lemma acknowledged_was_written_witness :
  accepted 1 (taken demo_end) (idempotency_key (event demo_last)).
Proof.
  destruct (acknowledged_was_written BILLING_GRADE demo_settings 1 1 well well_sink 20 demo_world demo_end demo_last) as [H|H].
  - apply well_foreign.
  - apply demo_ok.
  - vm_compute. reflexivity.
  - vm_compute. in_list.
  - apply (bool_decide_eq_true_1 _). vm_compute. reflexivity.
  - apply (bool_decide_eq_true_2 _) in H. vm_compute in H. discriminate H.
  - exact H.
Defined.

Definition demo_claimed : list (@Delivery unit_json) :=
  (claim_events BILLING_GRADE (ran demo_ops) "billing" (mkClaim 8 30 2)).1.

(** The destinations refuse the second event. *)
Definition is_poison (o : @ObservedRecord unit_json) : bool := bool_decide (request_id (record o) = id_b).
Definition picky_sink (n k : nat) (batch : list (@ObservedRecord unit_json)) : Fate :=
  mkFate [] 1 None (negb (existsb is_poison batch)) true false.

Definition picky_outcome : option (option Delivered) * World :=
  deliver_durably BILLING_GRADE 1 picky_sink Unraced demo_claimed demo_world.

Lemma refusals_attributed_witness :
  ∃ d, picky_outcome.1 = Some (Some d) ∧ refused d = [1%nat] ∧
    landed d ++ refused d ≡ₚ seq 0 (length demo_claimed).
Proof.
  destruct (refusals_attributed BILLING_GRADE 1 well picky_sink Unraced demo_claimed demo_world
    picky_outcome.2 (default None picky_outcome.1)) as (d & Hd & H & _).
  - by vm_compute.
  - reflexivity.
  - exists d. rewrite <-Hd. assert (d = mkDelivered [0%nat] [1%nat]) as ->.
    { apply (inj Some). rewrite <-Hd. vm_compute. reflexivity. }
    split; [vm_compute; reflexivity|]. split; [reflexivity|]. by apply H.
Defined.

Lemma poison_isolated_witness :
  ∃ d w', picky_outcome = (Some (Some d), w') ∧ refused d ≡ₚ [1%nat].
Proof.
  destruct (poison_isolated BILLING_GRADE 1 well picky_sink is_poison demo_claimed demo_world) as (d & w' & H & _ & Hr).
  - intros n k batch. simpl. by rewrite andb_true_r.
  - lia.
  - exists O. split; [vm_compute; lia|vm_compute; reflexivity].
  - vm_compute. lia.
  - exists d, w'. split; [exact H|]. etrans; [exact Hr|]. vm_compute. reflexivity.
Defined.

(** Nothing answers but the journal. *)
Definition calm_fate (n : nat) : @Fate unit_json := mkFate [] 1 None true true false.
Definition down (n k : nat) (batch : list (@ObservedRecord unit_json)) : Fate := mkFate [] 1 None true false false.
Definition demo_outage : option Z * World := serve BILLING_GRADE demo_settings 1 1 calm_fate down 5 50 demo_world.

Lemma outage_condemns_no_one_witness :
  demo_outage.1 = None ∧ quarantined (mine demo_settings (jstate demo_outage.2)) = ∅.
Proof.
  pose proof (outage_condemns_no_one BILLING_GRADE demo_settings 1 1 calm_fate down 5 50 demo_world) as H.
  specialize (H ltac:(by vm_compute) ltac:(lia)).
  assert (outage demo_settings calm_fate down) as Ho
    by (split; intros; cbv zeta; split_and!; (constructor || reflexivity)).
  specialize (H Ho demo_ok eq_refl). assert (∀ p n, handed (mine demo_settings (jstate demo_world)) !! p = Some n →
    resolved (mine demo_settings (jstate demo_world)) p = false → n < max_delivery_attempts BILLING_GRADE) as Hh.
  { intros p n Hn. vm_compute in Hn. discriminate Hn. }
  specialize (H Hh). unfold demo_outage. destruct (serve _ _ _ _ _ _ _ _ _) as [b0 w'].
  destruct H as (H1 & H2 & _). split; [exact H1|]. simpl. rewrite H2. vm_compute. reflexivity.
Defined.

Lemma drain_ends_witness :
  ∃ w', drain_passes BILLING_GRADE demo_settings 1 1 well well_sink 20 10 demo_world = (true, w').
Proof.
  destruct (drain_ends BILLING_GRADE demo_settings 1 1 well well_sink 20 10 demo_world) as (w' & H & _).
  - apply well_foreign.
  - split; intros; simpl; lia.
  - apply demo_ok.
  - vm_compute. reflexivity.
  - exists w'. exact H.
Defined.

Lemma drain_bounded_witness :
  (drain 0 Overran (Read 3 (mkStats 1 2 0 None 0))).2 ≤ 0 + DRAIN_MARGIN + CLOSING_READ.
Proof. exact (proj1 (drain_bounded 0 Overran (Read 3 (mkStats 1 2 0 None 0)) I ltac:(vm_compute; discriminate))). Defined.

(** A worker that overran costs its caller more than the budget and the margin. *)
Lemma drain_overruns_margin : ∃ task backlog, (drain 0 task backlog).2 > 0 + DRAIN_MARGIN.
Proof. exists Overran, ReadTimedOut. by vm_compute. Qed.

(** A pass dropped while the destination writes has spent an attempt of what it
    claimed. *)
Lemma dropped_pass_spends_attempt :
  let stopping (n : nat) : @Fate unit_json := mkFate [] 1 (if (n =? 1)%nat then Some 10 else None) true true false in
  let w := (pump BILLING_GRADE demo_settings 1 1 stopping (λ n _ _, stopping n) StopSignal demo_world).2 in
  handed (mine demo_settings (jstate demo_world)) !! 0 = None ∧
  stop w = Some 10 ∧ handed (mine demo_settings (jstate w)) !! 0 = Some 1.
Proof. vm_compute. auto. Qed.

End Worker.
