(* ===== verification/UsageDelivery.v ===== *)
(** * How usage leaves the request path ([crates/gateway/src/usage/mod.rs])

    [UsageDelivery.record] in its two modes, the fan-out's bounded flush, and the
    worker of the management index: a bounded queue and one task, whose steps
    interleave with the request path and with the shutdown.  The blocking (SQLite)
    and the cancellable (Postgres) worker are one machine: only the second may time
    a write out or be cut off.  Metrics and log lines are left out, but for the
    limit on their rate. *)

From S2P Require Import Prelude Text Json Ids Usage Journal Store Worker.

Module UsageDelivery.
Import Ids.Ids (InvalidId).
Import Usage.Usage.
Module Outbox := Journal.Journal.
Module Rows := Store.Store.
Import Worker.Worker (DRAIN_MARGIN).

Definition MAX_USAGE_INDEX_BATCH : Z := 256.

Record UsageIndexSettings := mkSettings {
  capacity : Z;
  max_batch : Z;
  flush_interval : Z;
  write_timeout : Z;
}.

Definition settings_default : UsageIndexSettings := mkSettings 1024 256 50000000 2000000000.

Definition bounded (s : UsageIndexSettings) : UsageIndexSettings :=
  let capacity := Z.max 1 (capacity s) in
  mkSettings capacity (Z.min (Z.max 1 (Z.min (max_batch s) MAX_USAGE_INDEX_BATCH)) capacity)
    (flush_interval s) (write_timeout s).

Lemma bounded_batch s : 1 ≤ capacity (bounded s) ∧ 1 ≤ max_batch (bounded s) ≤ Z.min MAX_USAGE_INDEX_BATCH (capacity (bounded s)).
Proof. unfold bounded, MAX_USAGE_INDEX_BATCH. cbn. lia. Qed.

Inductive IndexOutcome := IAccepted | ISaturated | IClosed | IFailed | ITimeout.

Definition IndexOutcome_as_str (o : IndexOutcome) : string :=
  match o with
  | IAccepted => "accepted" | ISaturated => "saturated" | IClosed => "closed"
  | IFailed => "failed" | ITimeout => "timeout"
  end.

Record IndexWorkerReport := mkWorkerReport { written : Z; leftover : Z; failed : bool }.

Record IndexDrainReport := mkDrainReport {
  r_written : Z; r_leftover : Z; r_failed : bool; r_drained : bool; r_reported : bool; r_unwaited : bool
}.

Definition drain_report_default : IndexDrainReport := mkDrainReport 0 0 false false false false.

Definition into_drain (r : IndexWorkerReport) : IndexDrainReport :=
  mkDrainReport (written r) (leftover r) (failed r) (leftover r =? 0) true false.

Definition abandoned (r : IndexDrainReport) : option Z := if r_reported r then Some (r_leftover r) else None.
Definition caught_up (r : IndexDrainReport) : option bool := if r_reported r then Some (r_drained r) else None.

(** ** The index worker *)

Section Index.
Context {Event : Type} (settings : UsageIndexSettings) (blocking : bool).

(** Where the task stands: at its receive; holding the event it just took, before
    it looks at the stop flag; gathering; before the second look; in the store's
    write; emptying the queue; about to end, its receiver still there; ended; cut
    off. *)
Inductive Task :=
| Waiting
| Holding (first : Event)
| Gathering
| Checking
| Writing
| Discarding
| Leaving (r : IndexWorkerReport)
| Ended (r : IndexWorkerReport)
| Aborted.

Record Index := mkIndex {
  queue : list Event;
  sender : bool;            (* [index_tx] holds the queue *)
  stop : bool;              (* [index_stop] *)
  task : Task;
  batch : list Event;
  written_rows : Z;
  lost_rows : Z;            (* [leftover] *)
  any_failed : bool;
  (* what happened *)
  enqueued : list Event;
  writes : list (list Event * IndexOutcome);
  discarded : list Event;
  outcomes : IndexOutcome → Z;
}.

Definition index_started : Index := mkIndex [] true false Waiting [] 0 0 false [] [] [] (λ _, 0).

#[local] Instance IndexOutcome_eq_dec : EqDecision IndexOutcome.
Proof. solve_decision. Defined.

Definition count (o : IndexOutcome) (n : Z) (f : IndexOutcome → Z) : IndexOutcome → Z :=
  λ x, if decide (x = o) then f x + n else f x.

Definition set_queue s v := mkIndex v (sender s) (stop s) (task s) (batch s) (written_rows s) (lost_rows s) (any_failed s) (enqueued s) (writes s) (discarded s) (outcomes s).
Definition set_sender s v := mkIndex (queue s) v (stop s) (task s) (batch s) (written_rows s) (lost_rows s) (any_failed s) (enqueued s) (writes s) (discarded s) (outcomes s).
Definition set_stop s v := mkIndex (queue s) (sender s) v (task s) (batch s) (written_rows s) (lost_rows s) (any_failed s) (enqueued s) (writes s) (discarded s) (outcomes s).
Definition set_task s v := mkIndex (queue s) (sender s) (stop s) v (batch s) (written_rows s) (lost_rows s) (any_failed s) (enqueued s) (writes s) (discarded s) (outcomes s).
Definition set_batch s v := mkIndex (queue s) (sender s) (stop s) (task s) v (written_rows s) (lost_rows s) (any_failed s) (enqueued s) (writes s) (discarded s) (outcomes s).
Definition log_enqueued s e := mkIndex (queue s) (sender s) (stop s) (task s) (batch s) (written_rows s) (lost_rows s) (any_failed s) (enqueued s ++ [e]) (writes s) (discarded s) (outcomes s).
Definition log_write s o := mkIndex (queue s) (sender s) (stop s) (task s) (batch s) (written_rows s) (lost_rows s) (any_failed s) (enqueued s) (writes s ++ [(batch s, o)]) (discarded s) (outcomes s).
Definition log_outcome s o n := mkIndex (queue s) (sender s) (stop s) (task s) (batch s) (written_rows s) (lost_rows s) (any_failed s) (enqueued s) (writes s) (discarded s) (count o n (outcomes s)).
Definition add_written s n := mkIndex (queue s) (sender s) (stop s) (task s) (batch s) (saturating_add U64_MAX (written_rows s) n) (lost_rows s) (any_failed s) (enqueued s) (writes s) (discarded s) (outcomes s).
Definition set_failed s := mkIndex (queue s) (sender s) (stop s) (task s) (batch s) (written_rows s) (lost_rows s) true (enqueued s) (writes s) (discarded s) (outcomes s).
Definition lose s (es : list Event) := mkIndex (queue s) (sender s) (stop s) (task s) (batch s) (written_rows s) (saturating_add U64_MAX (lost_rows s) (Z.of_nat (length es))) (any_failed s) (enqueued s) (writes s) (discarded s ++ es) (outcomes s).

(** The receiver is gone. *)
Definition gone s : bool := match task s with Ended _ | Aborted => true | _ => false end.

(** [try_enqueue] *)
Definition try_enqueue (s : Index) (e : Event) : result IndexOutcome Index :=
  if gone s then Err IClosed
  else if Z.of_nat (length (queue s)) <? capacity settings then Ok (log_enqueued (set_queue s (queue s ++ [e])) e)
  else Err ISaturated.

(** [append_store], its queue attached. *)
Definition append_store (s : Index) (e : Event) : Index :=
  if negb (sender s) then log_outcome s IClosed 1
  else match try_enqueue s e with Ok s => s | Err o => log_outcome s o 1 end.

Definition report_of (s : Index) : IndexWorkerReport := mkWorkerReport (written_rows s) (lost_rows s) (any_failed s).

(** The end of the loop: the channel is closed and empty. *)
Definition dequeue (s : Index) : option Index :=
  match task s, queue s with
  | Waiting, e :: rest => Some (set_task (set_queue s rest) (Holding e))
  | Waiting, [] => if sender s then None else Some (set_task s (Leaving (report_of s)))
  | _, _ => None
  end.

Definition gather_more (s : Index) : Index :=
  if Z.of_nat (length (batch s)) <? max_batch settings then set_task s Gathering else set_task s Checking.

Definition look_first (s : Index) : option Index :=
  match task s with
  | Holding e => Some (if stop s then set_task (lose s [e]) Discarding else gather_more (set_batch s (batch s ++ [e])))
  | _ => None
  end.

(** One more event, or the channel's end. *)
Definition gather (s : Index) : option Index :=
  match task s, queue s with
  | Gathering, e :: rest => Some (gather_more (set_batch (set_queue s rest) (batch s ++ [e])))
  | Gathering, [] => if sender s then None else Some (set_task s Checking)
  | _, _ => None
  end.

Definition interval_over (s : Index) : option Index :=
  match task s with Gathering => Some (set_task s Checking) | _ => None end.

Definition look_again (s : Index) : option Index :=
  match task s with
  | Checking => Some (if stop s then set_task (set_batch (lose s (batch s)) []) Discarding else set_task s Writing)
  | _ => None
  end.

(** The store's answer to the batch. *)
Definition wrote (s : Index) (o : IndexOutcome) : option Index :=
  match task s, o with
  | Writing, IAccepted =>
      let n := Z.of_nat (length (batch s)) in
      Some (set_task (set_batch (log_outcome (log_write (add_written s n) o) o n) []) Waiting)
  | Writing, (IFailed | ITimeout) =>
      if blocking && bool_decide (o = ITimeout) then None
      else
        let n := Z.of_nat (length (batch s)) in
        Some (set_task (set_batch (log_outcome (log_write (set_failed s) o) o n) []) Waiting)
  | _, _ => None
  end.

Definition discard_queued (s : Index) : option Index :=
  match task s, queue s with
  | Discarding, e :: rest => Some (lose (set_queue s rest) [e])
  | Discarding, [] => Some (set_task s (Leaving (report_of s)))
  | _, _ => None
  end.

Definition leave (s : Index) : option Index :=
  match task s with Leaving r => Some (set_task s (Ended r)) | _ => None end.

Inductive Action :=
| Append (e : Event)
| Dequeue | LookFirst | Gather | IntervalOver | LookAgain | Wrote (o : IndexOutcome) | Discard | Leave
| CloseQueue              (* [drain_index] takes the sender *)
| SetStop                 (* [abandon_index], [Drop], or a join that timed out *)
| Abort.                  (* [handle.abort()], at an await *)

Definition at_await (s : Index) : bool := match task s with Waiting | Gathering | Writing => true | _ => false end.

Definition step (s : Index) (a : Action) : option Index :=
  match a with
  | Append e => Some (append_store s e)
  | Dequeue => dequeue s
  | LookFirst => look_first s
  | Gather => gather s
  | IntervalOver => interval_over s
  | LookAgain => look_again s
  | Wrote o => wrote s o
  | Discard => discard_queued s
  | Leave => leave s
  | CloseQueue => Some (set_sender s false)
  | SetStop => Some (set_stop s true)
  | Abort => if negb blocking && at_await s then Some (set_task s Aborted) else None
  end.

Fixpoint run (s : Index) (acts : list Action) : option Index :=
  match acts with [] => Some s | a :: acts => s ← step s a; run s acts end.

(** The worker's own steps, on which the others have no say. *)
Definition own (a : Action) : bool :=
  match a with Dequeue | LookFirst | Gather | IntervalOver | LookAgain | Wrote _ | Discard | Leave => true | _ => false end.

(** What [drain_index] says of a worker that answered, or did not in time. *)
Definition join_index_worker (joined : option (option IndexWorkerReport)) : IndexDrainReport :=
  match joined with
  | Some (Some r) => into_drain r
  | _ => drain_report_default
  end.

Definition drain_index (worker : option (option (option IndexWorkerReport))) : IndexDrainReport :=
  match worker with
  | None => mkDrainReport 0 0 false true true false
  | Some joined => join_index_worker joined
  end.

Definition abandon_index : IndexDrainReport := mkDrainReport 0 0 false false false true.

(** ** Where the events are *)

Definition handed (s : Index) : list Event := concat (writes s).*1.
Definition rows_of (o : IndexOutcome) (s : Index) : Z :=
  Z.of_nat (length (concat (filter (λ x, x.2 = o) (writes s)).*1)).

Definition in_hand (s : Index) : list Event := match task s with Holding e => [e] | _ => [] end.

Record index_inv (s : Index) : Prop := {
  inv_order : enqueued s = handed s ++ (batch s ++ discarded s ++ in_hand s) ++ queue s;
  inv_queue : Z.of_nat (length (queue s)) ≤ capacity settings;
  inv_batch : match task s with
              | Waiting | Holding _ | Discarding | Leaving _ | Ended _ => batch s = []
              | Gathering => 0 < Z.of_nat (length (batch s)) < max_batch settings
              | Checking | Writing => 0 < Z.of_nat (length (batch s)) ≤ max_batch settings
              | Aborted => Z.of_nat (length (batch s)) ≤ max_batch settings
              end;
  inv_discarded : discarded s = [] ∨ (stop s = true ∧ match task s with Discarding | Leaving _ | Ended _ => True | _ => False end);
  inv_writes x : x ∈ writes s → 0 < Z.of_nat (length x.1) ≤ max_batch settings ∧
    match x.2 with IAccepted | IFailed | ITimeout => True | _ => False end;
  inv_written : written_rows s = Z.min U64_MAX (rows_of IAccepted s);
  inv_lost : lost_rows s = Z.min U64_MAX (Z.of_nat (length (discarded s)));
  inv_failed : any_failed s = negb (forallb (λ x, bool_decide (x.2 = IAccepted)) (writes s));
  inv_outcomes o : match o with IAccepted | IFailed | ITimeout => outcomes s o = rows_of o s | _ => 0 ≤ outcomes s o end;
  inv_report : match task s with Leaving r | Ended r => r = report_of s | _ => True end;
  inv_left : match task s with
             | Discarding => stop s = true
             | Leaving _ | Ended _ => stop s = false → queue s = [] ∧ sender s = false
             | _ => True
             end;
}.

Context (some_batch : 1 ≤ max_batch settings) (some_room : 1 ≤ capacity settings).

Lemma index_started_inv : index_inv index_started.
Proof. split; cbn; try done; try lia; [by left|by intros x ?%elem_of_nil|by intros []]. Qed.

(** Only the queue and the counts of what did not enter it change. *)
Lemma inv_refused s o : o = ISaturated ∨ o = IClosed → index_inv s → index_inv (log_outcome s o 1).
Proof.
  intros Ho [H1 H2 H3 H4 H5 H6 H7 H8 H9 H10 H11]. split; cbn; try done.
  intros o'. specialize (H9 o'). unfold count. change (rows_of o' (log_outcome s o 1)) with (rows_of o' s).
  destruct (decide (o' = o)) as [->|]; [|done]. destruct Ho as [->| ->]; lia.
Qed.

Lemma append_store_inv s e : index_inv s → index_inv (append_store s e).
Proof.
  intros Hs. unfold append_store. destruct (negb (sender s)) eqn:Hsend; [apply inv_refused; auto|].
  unfold try_enqueue. destruct (gone s) eqn:Hg; [apply inv_refused; auto|].
  destruct (Z.ltb_spec (Z.of_nat (length (queue s))) (capacity settings)); [|apply inv_refused; auto].
  destruct Hs as [H1 H2 H3 H4 H5 H6 H7 H8 H9 H10 H11]. split; cbn; try done.
  - rewrite H1. unfold in_hand. cbn. by rewrite <-!app_assoc.
  - rewrite length_app. cbn. lia.
  - destruct (task s); try done; intros Hst; by rewrite (proj2 (H11 Hst)) in Hsend.
Qed.

(** Moving between the places of the worker. *)
Lemma gather_more_inv s :
  index_inv s → ∀ q b,
  enqueued s = handed s ++ (b ++ discarded s) ++ q → Z.of_nat (length q) ≤ capacity settings →
  0 < Z.of_nat (length b) ≤ max_batch settings → discarded s = [] →
  index_inv (gather_more (set_batch (set_queue s q) b)).
Proof.
  intros [H1 H2 H3 H4 H5 H6 H7 H8 H9 H10 H11] q b0 Ho Hq Hb Hd. unfold gather_more. cbn.
  destruct (Z.ltb_spec (Z.of_nat (length b0)) (max_batch settings)); split; cbn; try done; try lia; try (by left);
    rewrite ?app_nil_r; unfold in_hand; cbn; rewrite ?app_nil_r; done.
Qed.


Lemma nothing_discarded s :
  index_inv s → match task s with Discarding | Leaving _ | Ended _ => False | _ => True end → discarded s = [].
Proof. intros [_ _ _ H4 _ _ _ _ _ _ _] Ht. destruct H4 as [?|[_ H4]]; [done|]. by destruct (task s). Qed.

(** One event moves, or none: what the place of the worker asks for is to be shown. *)
Ltac open_inv Hs Hd :=
  pose proof (nothing_discarded _ Hs) as Hd; destruct Hs as [H1 H2 H3 H4 H5 H6 H7 H8 H9 H10 H11];
  unfold in_hand in *; unfold handed in *.
Ltac places := split; unfold in_hand, handed; cbn; try done; try lia; try (by left).

Lemma dequeue_inv s s' : dequeue s = Some s' → index_inv s → index_inv s'.
Proof.
  intros H Hs. open_inv Hs Hd. unfold dequeue in H. destruct (task s) eqn:Ht; try done. specialize (Hd I). rewrite Hd, H3 in *.
  destruct (queue s) as [|e rest] eqn:Hq.
  - destruct (sender s) eqn:Hsend; simplify_eq. places; rewrite ?Hq, ?Hd, ?H3; try done; try (by left).
  - simplify_eq. cbn in H2. places; rewrite ?Hd, ?H3; try done; try (by left).
Qed.

Lemma look_first_inv s s' : look_first s = Some s' → index_inv s → index_inv s'.
Proof.
  intros H Hs. pose proof Hs as Hs0. open_inv Hs Hd. unfold look_first in H. destruct (task s) eqn:Ht; try done. specialize (Hd I). rewrite Hd, H3 in *.
  destruct (stop s) eqn:Hstop; simplify_eq.
  - places; rewrite ?H3, ?Hd, ?Hstop; try done; try (by right). by rewrite H7.
  - replace (set_batch s ([] ++ [first])) with (set_batch (set_queue s (queue s)) [first]) by (by destruct s).
    apply gather_more_inv; try done; try (cbn; lia); unfold handed; rewrite ?Hd; rewrite ?H1; by cbn.
Qed.

Lemma gather_inv s s' : gather s = Some s' → index_inv s → index_inv s'.
Proof.
  intros H Hs. pose proof Hs as Hs0. open_inv Hs Hd. unfold gather in H. destruct (task s) eqn:Ht; try done. specialize (Hd I). rewrite Hd in *.
  destruct (queue s) as [|e rest] eqn:Hq.
  - destruct (sender s) eqn:Hsend; simplify_eq. places; rewrite ?Hq, ?Hd; try done; try (by left).
  - simplify_eq. rewrite app_nil_r in H1. change (set_batch (set_queue s rest) (batch s ++ [e])) with (set_batch (set_queue s rest) (batch s ++ [e])).
    cbn in H2. apply gather_more_inv; try done; rewrite ?length_app; try (cbn; lia).
    unfold handed. rewrite Hd, H1. by rewrite app_nil_r, <-app_assoc.
Qed.

Lemma interval_over_inv s s' : interval_over s = Some s' → index_inv s → index_inv s'.
Proof.
  intros H Hs. open_inv Hs Hd. unfold interval_over in H. destruct (task s) eqn:Ht; try done. specialize (Hd I).
  simplify_eq. places; rewrite ?Hd; try done; try (by left).
Qed.

Lemma look_again_inv s s' : look_again s = Some s' → index_inv s → index_inv s'.
Proof.
  intros H Hs. open_inv Hs Hd. unfold look_again in H. destruct (task s) eqn:Ht; try done. specialize (Hd I). rewrite Hd in *.
  destruct (stop s) eqn:Hstop; simplify_eq; places; rewrite ?Hd, ?Hstop; try done; try (by left); try (by right).
  rewrite H7. unfold saturating_add. cbn. lia.
Qed.

Lemma rows_of_log s b0 o o' ws :
  ws = writes s ++ [(b0, o)] → Z.of_nat (length (concat (filter (λ x : list Event * IndexOutcome, x.2 = o') ws).*1)) =
    rows_of o' s + (if decide (o' = o) then Z.of_nat (length b0) else 0).
Proof.
  intros ->. unfold rows_of. rewrite filter_app, fmap_app, concat_app, length_app, filter_cons. cbn [snd].
  destruct (decide (o = o')) as [->|Hn]; [rewrite decide_True by done|rewrite decide_False by congruence]; cbn; rewrite ?app_nil_r; lia.
Qed.

Lemma wrote_inv s o s' : wrote s o = Some s' → index_inv s → index_inv s'.
Proof.
  intros H Hs. open_inv Hs Hd. unfold wrote in H. destruct (task s) eqn:Ht; try done. specialize (Hd I). rewrite Hd in *.
  assert (∀ s1, o = IAccepted ∧ s1 = add_written s (Z.of_nat (length (batch s))) ∨
      (o = IFailed ∨ o = ITimeout) ∧ s1 = set_failed s →
    index_inv (set_task (set_batch (log_outcome (log_write s1 o) o (Z.of_nat (length (batch s)))) []) Waiting)) as Hgo.
  { intros s1 Hs1.
    assert (∀ o', Z.of_nat (length (concat (filter (λ x : list Event * IndexOutcome, x.2 = o') (writes s ++ [(batch s, o)])).*1)) =
      rows_of o' s + (if decide (o' = o) then Z.of_nat (length (batch s)) else 0)) as Hrows by (intros o'; by apply rows_of_log).
    assert (concat (writes s ++ [(batch s, o)]).*1 = concat (writes s).*1 ++ batch s) as Hh
      by (rewrite fmap_app, concat_app; cbn; by rewrite app_nil_r).
    destruct Hs1 as [[-> ->]|[Hne ->]].
    - split; unfold rows_of; cbn; rewrite ?Hd; try done; try (by left).
      + unfold handed, in_hand. cbn. rewrite Hh, H1. by rewrite ?Hd, !app_nil_r, <-app_assoc.
      + intros x [Hx|Hx%list_elem_of_singleton]%elem_of_app; [by apply H5|subst; cbn; split; [lia|done]].
      + rewrite Hrows, H6, decide_True by done. unfold saturating_add. lia.
      + rewrite forallb_app, H8. cbn. by rewrite andb_true_r.
      + intros o'. specialize (H9 o'). unfold count. rewrite Hrows. destruct o'; repeat case_decide; try done; rewrite ?H9; lia.
    - assert (o ≠ IAccepted) as Hno by naive_solver. split; unfold rows_of; cbn; rewrite ?Hd; try done; try (by left).
      + unfold handed, in_hand. cbn. rewrite Hh, H1. by rewrite ?Hd, !app_nil_r, <-app_assoc.
      + intros x [Hx|Hx%list_elem_of_singleton]%elem_of_app; [by apply H5|subst; cbn; split; [lia|naive_solver]].
      + rewrite Hrows, H6, decide_False by congruence. lia.
      + rewrite forallb_app. cbn. rewrite bool_decide_eq_false_2 by done. by rewrite andb_false_r.
      + intros o'. specialize (H9 o'). unfold count. rewrite Hrows. destruct o'; repeat case_decide; try done; rewrite ?H9; lia. }
  destruct o; try done; [|destruct (blocking && _); [done|]..]; simplify_eq.
  all: apply Hgo; auto.
Qed.

Lemma discard_queued_inv s s' : discard_queued s = Some s' → index_inv s → index_inv s'.
Proof.
  intros H Hs. open_inv Hs Hd. unfold discard_queued in H. destruct (task s) eqn:Ht; try done. clear Hd. rewrite H3 in *.
  destruct (queue s) as [|e rest] eqn:Hq; simplify_eq.
  - places; rewrite ?Hq, ?H3, ?H11; try done; naive_solver.
  - cbn in H2. places; rewrite ?Ht, ?H11, ?H3; try done; try (by right).
    + rewrite H1. cbn. by rewrite !app_nil_r, <-!app_assoc.
    + rewrite H7, length_app. unfold saturating_add. cbn. lia.
Qed.

Lemma leave_inv s s' : leave s = Some s' → index_inv s → index_inv s'.
Proof.
  intros H Hs. open_inv Hs Hd. unfold leave in H. destruct (task s) eqn:Ht; try done. clear Hd. rewrite H3 in *. simplify_eq.
  places; rewrite ?H3; try done; naive_solver.
Qed.

Lemma close_queue_inv s : index_inv s → index_inv (set_sender s false).
Proof. intros Hs. open_inv Hs Hd. places. destruct (task s); naive_solver. Qed.

Lemma set_stop_inv s : index_inv s → index_inv (set_stop s true).
Proof. intros Hs. open_inv Hs Hd. places; [naive_solver|]. by destruct (task s). Qed.

Lemma abort_inv s : at_await s = true → index_inv s → index_inv (set_task s Aborted).
Proof.
  intros Ha Hs. open_inv Hs Hd. unfold at_await in Ha. destruct (task s) eqn:Ht; try done; specialize (Hd I);
    rewrite ?H3 in *; places; rewrite ?Hd, ?H3; try done; try (by left); cbn; try lia.
  by rewrite H1, Hd.
Qed.

Lemma index_step_inv s a s' : step s a = Some s' → index_inv s → index_inv s'.
Proof.
  destruct a; cbn [step]; intros H Hs;
    [|by eapply dequeue_inv|by eapply look_first_inv|by eapply gather_inv|by eapply interval_over_inv
    |by eapply look_again_inv|by eapply wrote_inv|by eapply discard_queued_inv|by eapply leave_inv| | |].
  - simplify_eq. by apply append_store_inv.
  - simplify_eq. by apply close_queue_inv.
  - simplify_eq. by apply set_stop_inv.
  - destruct (negb blocking && at_await s) eqn:Ha; [|done]. apply andb_true_iff in Ha as [_ Ha]. simplify_eq.
    by apply abort_inv.
Qed.

Lemma index_run_inv s acts s' : run s acts = Some s' → index_inv s → index_inv s'.
Proof.
  revert s. induction acts as [|a acts IH]; intros s; cbn; [by intros [= <-]|].
  destruct (step s a) as [s1|] eqn:H; [|done]. cbn. intros Hr Hs. eapply IH; [done|]. by eapply index_step_inv.
Qed.

(** ** The worker left to itself *)

Definition place (t : Task) : nat :=
  match t with
  | Ended _ | Aborted => 0 | Leaving _ => 1 | Waiting => 2 | Discarding => 2 | Writing => 3
  | Checking => 4 | Gathering => 5 | Holding _ => 6
  end.

(** What the worker may still do by itself. *)
Definition work (s : Index) : nat := (5 * length (queue s) + place (task s))%nat.

Lemma own_step_works s a s' : own a = true → step s a = Some s' →
  (work s' < work s)%nat ∧ sender s' = sender s ∧ stop s' = stop s ∧ enqueued s' = enqueued s ∧ task s' ≠ Aborted.
Proof.
  unfold work, own. destruct a; try done; intros _; cbn [step];
    unfold dequeue, look_first, gather, interval_over, look_again, wrote, discard_queued, leave, gather_more; intros H;
    destruct (task s) eqn:Ht; try done;
    repeat (case_match; try done); simplify_eq;
    cbn -[Nat.mul]; repeat match goal with Hq : queue s = _ |- _ => rewrite Hq end; try rewrite Ht; cbn -[Nat.mul];
    split_and!; try done; try lia.
Qed.

(** As long as it is not over it can move. *)
Lemma own_step_exists s :
  sender s = false → gone s = false → ∃ a s', own a = true ∧ step s a = Some s'.
Proof.
  intros Hs Hg. unfold gone in Hg. destruct (task s) eqn:Ht; try done.
  - exists Dequeue. cbn. unfold dequeue. rewrite Ht, Hs. destruct (queue s); by eexists.
  - exists LookFirst. cbn. unfold look_first. rewrite Ht. by eexists.
  - exists Gather. cbn. unfold gather. rewrite Ht, Hs. destruct (queue s); by eexists.
  - exists LookAgain. cbn. unfold look_again. rewrite Ht. by eexists.
  - exists (Wrote IAccepted). cbn. unfold wrote. rewrite Ht. by eexists.
  - exists Discard. cbn. unfold discard_queued. rewrite Ht. destruct (queue s); by eexists.
  - exists Leave. cbn. unfold leave. rewrite Ht. by eexists.
Qed.

Lemma own_run_works s acts s' :
  forallb own acts = true → run s acts = Some s' →
  (length acts + work s' ≤ work s)%nat ∧ sender s' = sender s ∧ stop s' = stop s ∧ enqueued s' = enqueued s ∧
  (task s' = Aborted → task s = Aborted).
Proof.
  revert s. induction acts as [|a acts IH]; intros s; cbn -[work]; [by intros _ [= <-]; split_and!|].
  intros [Ha Hacts]%andb_true_iff. destruct (step s a) as [s1|] eqn:H; [|done]. cbn [mbind option_bind]. intros Hr.
  destruct (own_step_works s a s1 Ha H) as (Hw & Hs & Hst & He & Hn). destruct (IH s1 Hacts Hr) as (Hw' & Hs' & Hst' & He' & Hn').
  split_and!; [lia|congruence..|]. intros Ha'. by destruct (Hn (Hn' Ha')).
Qed.

Lemma own_run_ends s : sender s = false → ∃ acts s', forallb own acts = true ∧ run s acts = Some s' ∧ gone s' = true.
Proof.
  remember (work s) as n eqn:Hn. revert s Hn. induction (lt_wf n) as [n _ IH]. intros s -> Hs.
  destruct (gone s) eqn:Hg; [by exists [], s|].
  destruct (own_step_exists s Hs Hg) as (a & s1 & Ha & Hstep). destruct (own_step_works s a s1 Ha Hstep) as (Hw & Hs1 & _).
  destruct (IH (work s1) Hw s1 eq_refl ltac:(congruence)) as (acts & s' & Hacts & Hr & Hg').
  exists (a :: acts), s'. cbn. by rewrite Ha, Hacts, Hstep.
Qed.

Definition reachable (s : Index) : Prop := ∃ acts, run index_started acts = Some s.

Lemma index_reachable_inv s : reachable s → index_inv s.
Proof. intros [acts H]. eapply index_run_inv; [done|apply index_started_inv]. Qed.

(** A worker told to stop: what it may still hand over. *)
Lemma stopped_step s a s' :
  stop s = true → step s a = Some s' →
  stop s' = true ∧
  (writes s' = writes s ∧ (task s' = Writing → task s = Writing ∧ batch s' = batch s) ∨
   task s = Writing ∧ task s' ≠ Writing ∧ ∃ o, writes s' = writes s ++ [(batch s, o)]).
Proof.
  intros Hst. destruct a; cbn [step];
    unfold append_store, try_enqueue, dequeue, look_first, gather, interval_over, look_again, wrote, discard_queued, leave, gather_more;
    rewrite ?Hst; intros H; repeat (case_match; try done); simplify_eq; cbn; (split; [done|]);
    first [right; split_and!; [done|done|by eexists]|left; split; [done|intros ?; first [done|congruence|by split]]].
Qed.

Lemma stopped_run s acts s' :
  stop s = true → run s acts = Some s' →
  writes s' = writes s ∧ (task s' = Writing → task s = Writing ∧ batch s' = batch s) ∨
  task s = Writing ∧ task s' ≠ Writing ∧ ∃ o, writes s' = writes s ++ [(batch s, o)].
Proof.
  revert s. induction acts as [|a acts IH]; intros s Hst; cbn; [intros [= <-]; eauto|].
  destruct (step s a) as [s1|] eqn:H; [|done]. cbn [mbind option_bind]. intros Hr.
  destruct (stopped_step _ _ _ Hst H) as [Hst1 Hone]. specialize (IH _ Hst1 Hr).
  destruct Hone as [[Hw Ht]|(Ht & Hn & o & Hw)], IH as [[Hw' Ht']|(Ht1 & Hn' & o' & Hw')]; try done.
  - left. rewrite Hw', Hw. split; [done|]. intros Hs'. destruct (Ht' Hs') as [Ht1 ->]. by apply Ht.
  - right. destruct (Ht Ht1) as [-> Hb]. rewrite Hb in Hw'. rewrite Hw', Hw. eauto.
  - right. rewrite Hw', Hw. split_and!; [done| |by eexists]. intros Hs'. by destruct (Ht' Hs') as [? _].
Qed.

(** C22: whatever the order of appends, worker steps, stop and shutdown, every
    event that entered the queue is in exactly one place and in order: handed to
    the store, in the batch, given up after a stop, in the worker's hand, or
    queued; the queue holds at most [capacity], every write is of 1 to
    [max_batch] events, a failure counts every row of its batch once, and the
    report of an ended worker counts what was accepted and what was given up. *)
Theorem index_conserved acts s :
  run index_started acts = Some s →
  enqueued s = handed s ++ (batch s ++ discarded s ++ in_hand s) ++ queue s ∧
  Z.of_nat (length (queue s)) ≤ capacity settings ∧
  Forall (λ w, 0 < Z.of_nat (length w.1) ≤ max_batch settings) (writes s) ∧
  (discarded s ≠ [] → stop s = true) ∧
  (∀ o, o = IAccepted ∨ o = IFailed ∨ o = ITimeout → outcomes s o = rows_of o s) ∧
  (∀ r, task s = Ended r →
    written r = Z.min U64_MAX (rows_of IAccepted s) ∧
    leftover r = Z.min U64_MAX (Z.of_nat (length (discarded s))) ∧
    (failed r = false ↔ Forall (λ w, w.2 = IAccepted) (writes s))).
Proof.
  intros Hr. assert (index_inv s) as [H1 H2 H3 H4 H5 H6 H7 H8 H9 H10 H11] by (apply index_reachable_inv; by exists acts).
  split_and!; try done.
  - apply list.Forall_forall. intros w Hw. by apply H5.
  - intros Hd. by destruct H4 as [?|[? _]].
  - intros o Ho. specialize (H9 o). destruct Ho as [->|[->| ->]]; done.
  - intros r Ht. rewrite Ht in H10. subst r. cbn. split_and!; try done. rewrite H8, negb_false_iff, forallb_forall, list.Forall_forall.
    split; intros Hf w Hw; [apply list_elem_of_In in Hw; by eapply bool_decide_eq_true_1, Hf|].
    apply bool_decide_eq_true_2, Hf. by apply list_elem_of_In.
Qed.

(** C23: a drain finishes.  Once its sender is gone a worker that was not told to
    stop, wherever it stands, ends of itself within [work s] steps, and then every
    event that had entered the queue has been handed to the store, in order and in
    batches, and its report says that nothing is left over. *)
Theorem index_drains s s0 :
  reachable s0 → gone s0 = false → stop s0 = false → s = set_sender s0 false →
  (∃ acts s', forallb own acts = true ∧ run s acts = Some s' ∧ gone s' = true) ∧
  ∀ acts s', forallb own acts = true → run s acts = Some s' →
    (length acts ≤ work s0)%nat ∧ enqueued s' = enqueued s0 ∧
    ((∀ a, own a = true → step s' a = None) → gone s' = true) ∧
    (gone s' = true → ∃ r, task s' = Ended r ∧ handed s' = enqueued s0 ∧ leftover r = 0 ∧ r_drained (into_drain r) = true).
Proof.
  intros [acts0 Hr0] Hg Hst ->. split; [by apply own_run_ends|]. intros acts s' Hown Hr.
  destruct (own_run_works _ _ _ Hown Hr) as (Hw & Hs & Hst' & He & Ha). cbn in Hs, Hst', He.
  assert (index_inv s') as Hinv
    by (eapply index_run_inv; [done|]; apply close_queue_inv, index_reachable_inv; by exists acts0).
  assert (task s' ≠ Aborted) as Hna by (intros Hab; specialize (Ha Hab); cbn in Ha; unfold gone in Hg; by rewrite Ha in Hg).
  change (work (set_sender s0 false)) with (work s0) in Hw. split_and!; [lia|done| |].
  - intros Hstuck. destruct (gone s') eqn:Hg'; [done|]. destruct (own_step_exists s' Hs Hg') as (a & s1 & Hoa & Hstep).
    by rewrite Hstuck in Hstep.
  - intros Hg'. unfold gone in Hg'. destruct (task s') eqn:Ht; try done. exists r.
    destruct Hinv as [H1 H2 H3 H4 H5 H6 H7 H8 H9 H10 H11]. rewrite Ht in H3, H10, H11. rewrite Hst', Hst in H4, H11.
    destruct H4 as [H4|[[=] _]]. destruct (H11 eq_refl) as [H12 _]. unfold in_hand in H1. rewrite Ht, H3, H4, H12 in H1.
    rewrite !app_nil_r in H1. rewrite <-He. subst r. cbn. rewrite H4 in H7. cbn in H7. rewrite H7. by split_and!.
Qed.

(** a stop bites.  Once the worker was told to stop (an abandoned index, a
    dropped delivery, an overrun drain), whatever follows it hands over nothing
    but, at most, the batch whose write had begun. *)
Theorem index_stops s acts s' :
  stop s = true → run s acts = Some s' →
  (writes s' = writes s ∨ task s = Writing ∧ ∃ o, writes s' = writes s ++ [(batch s, o)]) ∧
  (task s ≠ Writing → handed s' = handed s).
Proof.
  intros Hst Hr. destruct (stopped_run s acts s' Hst Hr) as [[Hw _]|(Ht & _ & o & Hw)]; unfold handed; rewrite Hw.
  - split; [by left|done].
  - split; [right; eauto|done].
Qed.

End Index.

(** ** Recording *)

Inductive UndurablePolicy := URefuse | UServe.

Definition UndurablePolicy_as_str (p : UndurablePolicy) : string :=
  match p with URefuse => "refuse" | UServe => "serve" end.

Definition refuses (p : UndurablePolicy) : bool := match p with URefuse => true | UServe => false end.

Record NotDurable := mkNotDurable { nd_request_id : string; nd_reason : string; nd_detail : string }.

Section Delivery.
Context {J : SerdeJson} `{!EqDecision Value}.

(** What the request path asks of a [dyn UsageJournal], and what it relies on: an
    append that succeeds leaves the fact stored. *)
Class UsageJournal (Jn : Type) := {
  j_mode : Jn → Outbox.DeliveryMode;
  j_append : Jn → Z → Outbox.UsageEvent → option (result Outbox.JournalError Outbox.Appended * Jn);
  j_stored : Jn → UsageRecord → Prop;
  j_ok : Jn → Prop;
  j_append_total j now e : j_ok j → Outbox.event_ok e →
    ∃ r j', j_append j now e = Some (r, j') ∧ j_ok j' ∧
      (∀ a, r = Ok a → j_stored j' (Outbox.event_record e));
}.

(** What is said of an error: the display of [thiserror], which the model keeps
    abstract. *)
Context (show_invalid : string * InvalidId → string) (show_error : Outbox.JournalError → string).
Context (settings : UsageIndexSettings) {Jn : Type} `{!UsageJournal Jn}.

Record UsageDelivery := mkDelivery {
  fanned : list UsageRecord;                 (* what the fan-out was handed *)
  d_journal : option Jn;
  on_undurable : UndurablePolicy;
  d_index : option (@Index Rows.UsageAppend); (* a store was attached *)
  lost : list (string * string);             (* [record_usage_journal_lost] *)
}.

Definition telemetry : UsageDelivery := mkDelivery [] None UServe None [].
Definition billing (j : Jn) (p : UndurablePolicy) : UsageDelivery := mkDelivery [] (Some j) p None [].

Definition set_index (d : UsageDelivery) i := mkDelivery (fanned d) (d_journal d) (on_undurable d) i (lost d).
Definition set_journal (d : UsageDelivery) j := mkDelivery (fanned d) (Some j) (on_undurable d) (d_index d) (lost d).
Definition fan_out (d : UsageDelivery) r := mkDelivery (fanned d ++ [r]) (d_journal d) (on_undurable d) (d_index d) (lost d).
Definition count_lost (d : UsageDelivery) (n : NotDurable) :=
  mkDelivery (fanned d) (d_journal d) (on_undurable d) (d_index d) (lost d ++ [(nd_request_id n, nd_reason n)]).

(** A second store is ignored; [spawned] is whether the worker started. *)
Definition attach_store (d : UsageDelivery) (spawned : bool) : UsageDelivery :=
  match d_index d with
  | Some _ => d
  | None => set_index d (Some (if spawned then index_started else set_sender index_started false))
  end.

Definition usage_append (r : UsageRecord) : Rows.UsageAppend :=
  Rows.mkUsageAppend (request_id r) (namespace r) (period r) (model r) (Status_as_str (status r)) (cost_microdollars r).

Definition append_usage (d : UsageDelivery) (r : UsageRecord) : UsageDelivery :=
  match d_index d with
  | None => d
  | Some i => set_index d (Some (append_store settings i (usage_append r)))
  end.

Definition mode (d : UsageDelivery) : Outbox.DeliveryMode :=
  from_option j_mode Outbox.TelemetryGrade (d_journal d).
Definition appends (d : UsageDelivery) : bool := if d_journal d then true else false.

Definition undurable (d : UsageDelivery) (r : UsageRecord) (reason detail : string) : result NotDurable unit * UsageDelivery :=
  let n := mkNotDurable (request_id r) reason detail in
  if refuses (on_undurable d) then (Err n, d) else (Ok tt, count_lost d n).

Definition reason_of (e : Outbox.JournalError) : string :=
  match e with
  | Outbox.AtCapacity _ _ => "at_capacity"
  | Outbox.Conflict _ => "conflict"
  | _ => "backend"
  end.

(** [None] is a panic of the journal's. *)
Definition record (d : UsageDelivery) (now : Z) (r : UsageRecord) : option (result NotDurable unit * UsageDelivery) :=
  match d_journal d with
  | None => Some (Ok tt, fan_out (append_usage d r) r)
  | Some j =>
      match Outbox.UsageEvent_new (mkObservedRecord r now) with
      | Err e => Some (undurable d r "invalid_event" (show_invalid e))
      | Ok e =>
          '(a, j) ← j_append j now e;
          let d := set_journal d j in
          Some (match a with
                | Ok _ => (Ok tt, append_usage d r)
                | Err err => undurable d r (reason_of err) (show_error err)
                end)
      end
  end.

Definition count_unheard_refusal (d : UsageDelivery) (n : NotDurable) : UsageDelivery := count_lost d n.

Definition record_terminal (d : UsageDelivery) (now : Z) (r : UsageRecord) : option UsageDelivery :=
  '(a, d) ← record d now r;
  Some (match a with Ok _ => d | Err n => count_lost d n end).

Lemma event_of_record r now e : Outbox.UsageEvent_new (mkObservedRecord r now) = Ok e → Outbox.event_ok e ∧ Outbox.event_record e = r.
Proof.
  intros H. split; [by eapply Outbox.UsageEvent_new_ok|]. unfold Outbox.UsageEvent_new in H.
  destruct (Ids.Ids.RequestId_parse _); [|done]. by injection H as <-.
Qed.

Lemma append_usage_same d r :
  fanned (append_usage d r) = fanned d ∧ d_journal (append_usage d r) = d_journal d ∧
  on_undurable (append_usage d r) = on_undurable d ∧ lost (append_usage d r) = lost d.
Proof. unfold append_usage. by destruct (d_index d). Qed.

(** C21: a record is never lost in silence.  Over any journal that keeps what it
    accepts, recording an event always answers: either the fact is stored and no
    loss is counted; or the deployment refuses, the caller is told and nothing
    else changes; or it chose to serve and exactly one loss is counted, under the
    request's name.  The fan-out is never handed a record the journal owns, the
    index only a record that is stored; and where the caller cannot be refused any
    more, the record is stored or exactly one loss is counted under either
    policy. *)
Theorem record_never_silent d j now r :
  d_journal d = Some j → j_ok j →
  ∃ a d' j', record d now r = Some (a, d') ∧ d_journal d' = Some j' ∧ j_ok j' ∧ fanned d' = fanned d ∧
    (d_index d' = d_index d ∨ j_stored j' r ∧ d_index d' = d_index (append_usage d r)) ∧
    match a with
    | Ok _ => (j_stored j' r ∧ lost d' = lost d) ∨
        (on_undurable d = UServe ∧ ∃ reason, lost d' = lost d ++ [(request_id r, reason)])
    | Err n => on_undurable d = URefuse ∧ nd_request_id n = request_id r ∧ lost d' = lost d
    end ∧
    ∃ d'', record_terminal d now r = Some d'' ∧
      (j_stored j' r ∧ lost d'' = lost d ∨ ∃ reason, lost d'' = lost d ++ [(request_id r, reason)]).
Proof.
  intros Hj Hok. unfold record_terminal, record. rewrite Hj.
  destruct (Outbox.UsageEvent_new (mkObservedRecord r now)) as [e|e] eqn:He.
  - destruct (event_of_record _ _ _ He) as [Hev <-]. destruct (j_append_total j now e Hok Hev) as (a & j' & Ha & Hok' & Hst).
    rewrite Ha. cbn. destruct a as [a|err].
    + specialize (Hst a eq_refl). unfold append_usage. cbn. exists (Ok tt). destruct (d_index d); eexists _, j'; (split; [reflexivity|]); cbn; split_and!; eauto 6.
    + unfold undurable. destruct (on_undurable d) eqn:Hp; cbn; rewrite Hp; cbn; eexists _, _, j'; (split; [reflexivity|]); cbn; split_and!; eauto 7.
  - unfold undurable. destruct (on_undurable d) eqn:Hp; cbn; eexists _, _, j; (split; [reflexivity|]); cbn; split_and!; eauto 7.
Qed.

End Delivery.

(** The in-memory journal keeps that promise, whatever its capacity. *)
Definition in_memory_journal `{J : SerdeJson} `{!EqDecision Value} (capacity : Outbox.Capacity) :
  UsageJournal Outbox.Storage.
Proof.
  refine {| j_mode := λ _, Outbox.TelemetryGrade; j_append := Outbox.append capacity;
    j_stored := λ s r, ∃ x, x ∈ Outbox.entries s ∧ Outbox.event_record (Outbox.event x) = r;
    j_ok := Outbox.storage_wf capacity |}.
  intros s now e Hwf _. destruct (Outbox.append_total capacity s now e Hwf) as (r & s' & Ha & Heff).
  exists r, s'. split_and!; [done|by eapply Outbox.append_effect_wf|]. intros a ->.
  destruct Heff as [_ Hcase]. destruct (Outbox.positions _ !! _) as [p|].
  - destruct Hcase as (-> & x & Hx & _ & Hr). exists x. split; [done|].
    destruct (Outbox.is_same_fact_as (Outbox.event x) e) eqn:Hsame; [|done]. by apply bool_decide_eq_true_1 in Hsame.
  - destruct Hcase as (_ & s2 & _ & _ & -> & _). eexists. split; [cbn; apply elem_of_app; right; by apply list_elem_of_singleton|done].
Defined.

(** ** The bounded flush *)

(** A sink as a flush meets it: how long its flush takes, if it ends; what it then
    says; what it gives up when it is cut off. *)
Record Sink := mkSink { sink_name : string; takes : option Z; says : FlushOutcome; abandons : Z }.

(** The timer looks at the flush before the clock. *)
Definition flush_sink (s : Sink) (remaining : Z) : FlushOutcome * Z :=
  match takes s with
  | Some t => if t <=? remaining then (says s, t) else (TimedOut (abandons s), remaining)
  | None => (TimedOut (abandons s), remaining)
  end.

(** The report, and the time at its end; [deadline] is shared. *)
Fixpoint flush_from (deadline now : Z) (sinks : list Sink) : list (string * FlushOutcome) * Z :=
  match sinks with
  | [] => ([], now)
  | s :: sinks =>
      let '(o, t) := flush_sink s (Z.max 0 (deadline - now)) in
      let '(report, ended) := flush_from deadline (now + t) sinks in
      ((sink_name s, o) :: report, ended)
  end.

Definition flush (sinks : list Sink) (now budget : Z) : list (string * FlushOutcome) * Z :=
  flush_from (now + budget) now sinks.

Definition report_is_complete (report : list (string * FlushOutcome)) : bool := forallb (λ s, is_complete s.2) report.

Lemma flush_from_bounded deadline sinks now :
  Forall (λ s, ∀ t, takes s = Some t → 0 ≤ t) sinks →
  now ≤ (flush_from deadline now sinks).2 ≤ Z.max now deadline ∧ (flush_from deadline now sinks).1.*1 = sink_name <$> sinks.
Proof.
  intros Hs. revert now. induction Hs as [|s sinks Hs _ IH]; intros now; cbn; [split; [lia|done]|].
  destruct (flush_sink s (Z.max 0 (deadline - now))) as [o t] eqn:Hf.
  assert (0 ≤ t ≤ Z.max 0 (deadline - now)) as Ht.
  { unfold flush_sink in Hf. destruct (takes s) as [t'|] eqn:Htk; [|simplify_eq; lia].
    destruct (Z.leb_spec t' (Z.max 0 (deadline - now))); simplify_eq; [|lia]. specialize (Hs _ eq_refl). lia. }
  specialize (IH (now + t)). destruct (flush_from deadline (now + t) sinks) as [report ended]. cbn in *.
  destruct IH as [IH ->]. split; [lia|done].
Qed.

(** The time the sinks ahead of one take for themselves. *)
Definition spent_before (sinks : list Sink) : Z := foldr (λ s acc, default 0 (takes s) + acc) 0 sinks.

Lemma spent_before_cons s sinks t : takes s = Some t → spent_before (s :: sinks) = t + spent_before sinks.
Proof. unfold spent_before. cbn. by intros ->. Qed.

Lemma spent_before_nonneg sinks : Forall (λ s, ∃ t, takes s = Some t ∧ 0 ≤ t) sinks → 0 ≤ spent_before sinks.
Proof.
  induction 1 as [|s sinks (t & Ht & H0) _ IH]; [done|]. rewrite (spent_before_cons s sinks t Ht). lia.
Qed.

Lemma flush_from_ready deadline sinks now :
  Forall (λ s, ∃ t, takes s = Some t ∧ 0 ≤ t) sinks → now + spent_before sinks ≤ deadline →
  flush_from deadline now sinks = ((λ s, (sink_name s, says s)) <$> sinks, now + spent_before sinks).
Proof.
  intros Hs. revert now. induction Hs as [|s sinks (t & Ht & H0) Hs IH]; intros now; [intros _; by rewrite Z.add_0_r|].
  rewrite (spent_before_cons s sinks t Ht). intros Hd. pose proof (spent_before_nonneg sinks Hs) as Hsp.
  cbn [flush_from]. unfold flush_sink. rewrite Ht, (proj2 (Z.leb_le _ _)) by lia. rewrite IH by lia.
  by rewrite Z.add_assoc.
Qed.

(** the fan-out's part of a shutdown is bounded.  However many sinks there
    are and however long theirs take, the flush of them all ends within the one
    budget, with one line per sink in order; sinks that need no more than the
    budget together are all heard; and the report is complete exactly if every
    sink said it drained in time. *)
Theorem flush_bounded sinks now budget :
  0 ≤ budget → Forall (λ s, ∀ t, takes s = Some t → 0 ≤ t) sinks →
  now ≤ (flush sinks now budget).2 ≤ now + budget ∧
  (flush sinks now budget).1.*1 = sink_name <$> sinks ∧
  (Forall (λ s, is_Some (takes s)) sinks → spent_before sinks ≤ budget →
    (flush sinks now budget).1 = (λ s, (sink_name s, says s)) <$> sinks) ∧
  (report_is_complete (flush sinks now budget).1 = true → Forall (λ s, is_Some (takes s) ∧ is_complete (says s) = true) sinks).
Proof.
  intros Hb Hs. unfold flush. destruct (flush_from_bounded (now + budget) sinks now Hs) as [H1 H2].
  split_and!; [lia|lia|done| |].
  - intros Ht Hsp. rewrite flush_from_ready; [done| |lia].
    apply list.Forall_forall. intros s Hin. rewrite list.Forall_forall in Hs, Ht.
    destruct (Ht s Hin) as [t Htk]. exists t. split; [done|]. by eapply Hs.
  - clear. generalize now at 2 as n. induction sinks as [|s sinks IH]; intros n; [by constructor|]. cbn.
    destruct (flush_sink s (Z.max 0 (now + budget - n))) as [o t] eqn:Hf. specialize (IH (n + t)).
    destruct (flush_from (now + budget) (n + t) sinks) as [report ended]. cbn. intros [Ho Hr]%andb_true_iff.
    apply list.Forall_cons. split; [|by apply IH]. unfold flush_sink in Hf.
    destruct (takes s) as [t'|]; [destruct (t' <=? _)|]; simplify_eq; [|done..]. by split.
Qed.

(** ** Keys a journal takes over *)

Inductive UsageSinkKind := Stdout | Postgres | Otlp.

Record UsageSinkConfig := mkSinkConfig {
  kind : UsageSinkKind;
  dsn_env : option string;
  sink_table : option string;
  create_table : bool;
  buffer_capacity : Z;
  sink_max_batch : Z;
  max_batch_explicit : bool;
  flush_interval_ms : Z;
}.

Definition sink_config_default : UsageSinkConfig := mkSinkConfig Stdout None None false 10000 500 false 1000.

Definition JOURNAL_OWNED_BATCH_KEYS : list string := ["buffer_capacity"; "max_batch"; "flush_interval_ms"].

Definition name_key (named : list string) (k : string * bool) : list string :=
  if k.2 && negb (bool_decide (k.1 ∈ named)) then named ++ [k.1] else named.

Definition was_set (c : UsageSinkConfig) : list bool :=
  [negb (buffer_capacity c =? buffer_capacity sink_config_default); max_batch_explicit c;
   negb (flush_interval_ms c =? flush_interval_ms sink_config_default)].

Lemma name_keys_elem ks named k : k ∈ foldl name_key named ks ↔ k ∈ named ∨ (k, true) ∈ ks.
Proof.
  revert named. induction ks as [|[k' b] ks IH]; intros named; cbn; [set_solver|]. rewrite IH. unfold name_key. cbn.
  destruct b; cbn; [|set_solver]. destruct (bool_decide_reflect (k' ∈ named)); cbn; set_solver.
Qed.

Lemma name_keys_nodup ks named : NoDup named → NoDup (foldl name_key named ks).
Proof.
  revert named. induction ks as [|[k b] ks IH]; intros named Hn; cbn; [done|]. apply IH. unfold name_key. cbn.
  destruct b; cbn; [|done]. destruct (bool_decide_reflect (k ∈ named)); cbn; [done|].
  apply NoDup_app. split_and!; [done|set_solver|apply NoDup_singleton].
Qed.

Definition name_config (named : list string) (c : UsageSinkConfig) : list string :=
  match kind c with
  | Postgres => foldl name_key named (zip JOURNAL_OWNED_BATCH_KEYS (was_set c))
  | _ => named
  end.

Definition journal_owned_batch_keys (configs : list UsageSinkConfig) : list string := foldl name_config [] configs.

Definition sets_key (k : string) (c : UsageSinkConfig) : Prop :=
  kind c = Postgres ∧ (k, true) ∈ zip JOURNAL_OWNED_BATCH_KEYS (was_set c).

Lemma name_config_spec named c k :
  (NoDup named → NoDup (name_config named c)) ∧ (k ∈ name_config named c ↔ k ∈ named ∨ sets_key k c).
Proof.
  unfold name_config, sets_key. destruct (kind c); [split; [done|naive_solver]| |split; [done|naive_solver]].
  split; [apply name_keys_nodup|]. rewrite name_keys_elem. naive_solver.
Qed.

(** Each key is named once, and exactly if some Postgres sink set it. *)
Lemma owned_keys_exact configs k :
  NoDup (journal_owned_batch_keys configs) ∧
  (k ∈ journal_owned_batch_keys configs ↔ ∃ c, c ∈ configs ∧ sets_key k c).
Proof.
  unfold journal_owned_batch_keys.
  assert (∀ named, NoDup named → NoDup (foldl name_config named configs) ∧
    (k ∈ foldl name_config named configs ↔ k ∈ named ∨ ∃ c, c ∈ configs ∧ sets_key k c)) as H.
  { induction configs as [|c configs IH]; intros named Hn; cbn [foldl].
    - split; [done|]. split; [by left|]. intros [?|(c & Hc & _)]; [done|]. by apply elem_of_nil in Hc.
    - destruct (name_config_spec named c k) as [Hd Hk]. destruct (IH (name_config named c)) as [Hd' ->]; [by apply Hd|].
      split; [done|]. rewrite Hk. setoid_rewrite elem_of_cons. naive_solver. }
  destruct (H [] NoDup_nil_2) as [Hd ->]. split; [done|]. split; [intros [Hk|?]; [by apply elem_of_nil in Hk|done]|by right].
Qed.

(** ** The limit on a repeated log line *)

Definition INTERVAL : Z := 10 * NANOS_PER_SEC.

Record RateLimitedLog := mkLog { last_emitted : option Z; suppressed : Z }.

Definition log_new : RateLimitedLog := mkLog None 0.

Definition should_emit (l : RateLimitedLog) (now : Z) : option Z * RateLimitedLog :=
  match last_emitted l with
  | Some last => if Z.max 0 (now - last) <? INTERVAL then (None, mkLog (Some last) (suppressed l + 1))
                 else (Some (suppressed l), mkLog (Some now) 0)
  | None => (Some (suppressed l), mkLog (Some now) 0)
  end.

(** The lines emitted: when, and for how many occurrences that went unlogged. *)
Fixpoint emissions (l : RateLimitedLog) (times : list Z) : list (Z * Z) * RateLimitedLog :=
  match times with
  | [] => ([], l)
  | t :: times =>
      let '(line, l) := should_emit l t in
      let '(lines, l) := emissions l times in
      (match line with Some n => (t, n) :: lines | None => lines end, l)
  end.

Fixpoint apart (last : option Z) (lines : list (Z * Z)) : Prop :=
  match lines with
  | [] => True
  | (t, _) :: lines => match last with Some t' => INTERVAL ≤ t - t' | None => True end ∧ apart (Some t) lines
  end.

Definition stands_for (lines : list (Z * Z)) : Z := foldr (λ line acc, line.2 + 1 + acc) 0 lines.

(** Lines are an interval apart, and no occurrence goes uncounted. *)
Lemma log_accounts l times :
  apart (last_emitted l) (emissions l times).1 ∧
  stands_for (emissions l times).1 + suppressed (emissions l times).2 = suppressed l + Z.of_nat (length times).
Proof.
  revert l. induction times as [|t times IH]; intros l; [cbn; split; [done|lia]|]. cbn [emissions length].
  destruct (should_emit l t) as [line l'] eqn:He. specialize (IH l'). destruct (emissions l' times) as [lines l2].
  cbn [fst snd] in *. unfold should_emit in He. unfold stands_for in *. destruct IH as [Ha Hs]. destruct (last_emitted l) as [last|].
  - destruct (Z.ltb_spec (Z.max 0 (t - last)) INTERVAL) as [Hlt|Hlt]; simplify_eq; cbn in *.
    + split; [done|lia].
    + split; [split; [unfold INTERVAL, NANOS_PER_SEC in *; lia|done]|]. lia.
  - simplify_eq. cbn in *. split; [done|lia].
Qed.

(** ** Witnesses *)

Definition demo_settings : UsageIndexSettings := bounded (mkSettings 3 2 0 1000).

Definition demo_index_run : list (@Action nat) :=
  [Append 1%nat; Append 2%nat; Append 3%nat; Append 4%nat; Dequeue; LookFirst; Gather; LookAgain; Wrote IFailed].

Definition demo_index : @Index nat := default index_started (run demo_settings true index_started demo_index_run).

(** The third event is still queued, the fourth found the queue full. *)
Example demo_index_full :
  queue demo_index = [3%nat] ∧ outcomes demo_index ISaturated = 1 ∧ outcomes demo_index IFailed = 2.
Proof. vm_compute. done. Qed.

Lemma demo_index_reached : run demo_settings true index_started demo_index_run = Some demo_index.
Proof.
  unfold demo_index. destruct (run demo_settings true index_started demo_index_run) as [s|] eqn:E; [done|]. by vm_compute in E.
Qed.

Lemma index_conserved_witness : enqueued demo_index = handed demo_index ++ (batch demo_index ++ discarded demo_index ++ in_hand demo_index) ++ queue demo_index.
Proof.
  exact (proj1 (index_conserved demo_settings true ltac:(by vm_compute) ltac:(by vm_compute) demo_index_run demo_index demo_index_reached)).
Defined.

Lemma index_drains_witness :
  ∃ acts s', forallb own acts = true ∧ run demo_settings true (set_sender demo_index false) acts = Some s' ∧ gone s' = true.
Proof.
  refine (proj1 (index_drains demo_settings true _ _ (set_sender demo_index false) demo_index _ _ _ eq_refl)).
  - by vm_compute.
  - by vm_compute.
  - exists demo_index_run. exact demo_index_reached.
  - by vm_compute.
  - by vm_compute.
Defined.

Definition demo_stopped : @Index nat :=
  default index_started (run demo_settings true index_started [Append 1%nat; Append 2%nat; Dequeue; LookFirst; Gather; SetStop]).

Lemma index_stops_witness :
  ∃ s', run demo_settings true demo_stopped [LookAgain; Discard; Leave] = Some s' ∧ handed s' = handed demo_stopped.
Proof.
  destruct (run demo_settings true demo_stopped [LookAgain; Discard; Leave]) as [s'|] eqn:H; [|by vm_compute in H].
  exists s'. split; [done|]. by refine (proj2 (index_stops demo_settings true demo_stopped _ s' _ H) _).
Defined.

Lemma flush_bounded_witness :
  (flush [mkSink "a" (Some 5) (Flushed 1) 0; mkSink "b" None (Flushed 0) 7; mkSink "c" (Some 1) (Flushed 2) 3] 0 10).1.*1 = ["a"; "b"; "c"]%string.
Proof.
  refine (proj1 (proj2 (flush_bounded _ 0 10 _ _))); [done|]. repeat constructor; cbn; intros t; intros [=]; lia.
Defined.

#[local] Existing Instance unit_json.
#[local] Existing Instance unit_value_eq.

#[local] Instance demo_journal : UsageJournal Outbox.Storage := in_memory_journal Outbox.one_slot.

Lemma record_never_silent_witness :
  ∃ a d', record (λ _, ""%string) (λ _, ""%string) demo_settings (billing Outbox.storage_default URefuse) 0
    (Outbox.demo_record Outbox.id_a "s") = Some (a, d').
Proof.
  pose proof (record_never_silent (λ _, ""%string) (λ _, ""%string) demo_settings (billing Outbox.storage_default URefuse)
    Outbox.storage_default 0 (Outbox.demo_record Outbox.id_a "s") eq_refl) as H.
  destruct H as (a & d' & _ & Hr & _); [|by exists a, d'].
  exact (proj1 (Outbox.default_ok Outbox.one_slot)).
Defined.

(** A worker whose every write failed still reports a drained queue with nothing
    left over. *)
Lemma failed_batch_not_left :
  ∃ s r, run demo_settings true index_started
      [Append 1%nat; Dequeue; LookFirst; IntervalOver; LookAgain; Wrote IFailed; CloseQueue; Dequeue; Leave] = Some s ∧
    task s = Ended r ∧ enqueued s = [1%nat] ∧ written r = 0 ∧ leftover r = 0 ∧ r_drained (into_drain r) = true.
Proof.
  destruct (run demo_settings true index_started _) as [s|] eqn:E; [|by vm_compute in E].
  exists s, (mkWorkerReport 0 0 true). split; [done|]. vm_compute in E. apply (inj Some) in E as <-. by split_and!.
Qed.

End UsageDelivery.
