(* ===== verification/Accounting.v ===== *)
(** * A request's accounting ([crates/gateway/src/core_accounting.rs],
    [routes/accounting.rs], [BudgetKey] of [budget/mod.rs]).

    The budget hold a request is admitted under, the settlement capacity it
    reserved, and the one settlement it leaves behind.  Work handed to
    [Settlements] is a [Job]; running it is [perform] and dropping it unrun is
    [abandon], so that what a request is charged for can be counted on every
    path.  A reservation of settlement capacity is named by its task in
    [Settlement]. *)

From S2P Require Import Prelude Text Json Pricing Admission GatewayError Ids Usage Credentials Store.

Module Accounting.
Import GatewayError.GatewayError (GatewayError, BudgetExceeded, BudgetUnavailable, UsageNotDurable,
  PromptTooLarge, OutputLimitExceeded).
Import Pricing.Pricing (ModelUsage, requested_output_tokens).
Import Ids.Ids (RequestId, RequestId_display).
Import Usage.Usage.
Import Store.Store (Reservation, r_period, AdmissionAllowed, AdmissionDenied, DenialExceeded,
  DenialStoreUnavailable).
Import Credentials.Credentials (CredentialSource, Platform, Byok).

Record BudgetKey := mkBudgetKey { key_namespace : string; key_subject : string }.

(** The parts of the authenticated caller a request is attributed to. *)
Record EventIdentity := mkIdentity { event_request_id : RequestId; event_trace_id : option string }.

Definition credential_source_str (s : CredentialSource) : string :=
  match s with Platform => "platform" | Byok => "byok" end.

(** An armed hold; its settlement slot is the request's. *)
Record CoreBudgetHold := mkHold {
  hold_key : BudgetKey;
  hold_reservation : Reservation;
  hold_estimated_input_tokens : Z;
}.

Section Accounting.
Context {J : SerdeJson}.

(** ** What accounting asks of the world *)

(** [budget.settle]; [budget.release] settles zero.  [usage.record] and
    [usage.record_terminal]. *)
Inductive Effect :=
| Charge (key : BudgetKey) (reservation : Reservation) (actual : Z)
| Recorded (record : UsageRecord)
| RecordedTerminal (record : UsageRecord).

Definition release_effect (key : BudgetKey) (reservation : Reservation) : Effect := Charge key reservation 0.

(** The futures handed to [Settlements], with the holds they own. *)
Inductive Work :=
| BufferedWork (hold : CoreBudgetHold) (record : UsageRecord)
| StreamWork (hold : option CoreBudgetHold) (key : BudgetKey) (reservation : Reservation) (charged : Z)
    (record : UsageRecord)
| TerminalWork (record : UsageRecord)
| ReleaseWork (key : BudgetKey) (reservation : Reservation).

(** A future run to its end. *)
Definition perform (w : Work) : list Effect :=
  match w with
  | BufferedWork hold record =>
      [Charge (hold_key hold) (hold_reservation hold) (settle_cost record); Recorded record]
  | StreamWork (Some hold) _ _ charged record =>
      [Charge (hold_key hold) (hold_reservation hold) charged; RecordedTerminal record]
  | StreamWork None key reservation charged record => [Charge key reservation charged; RecordedTerminal record]
  | TerminalWork record => [RecordedTerminal record]
  | ReleaseWork key reservation => [release_effect key reservation]
  end.

(** What a request hands over: an effect it awaits itself, work spawned under
    its reservation or under capacity [try_spawn] took, work that was refused and
    reported, a reservation given back unspawned. *)
Inductive Job :=
| Inline (e : Effect)
| Background (slot : option nat) (w : Work)
| RefusedWork (what : string) (w : Work)
| Returned (slot : nat).

Section Room.
(** Whether [try_spawn] finds capacity. *)
Context (room : bool).

(** [spawn_reserved] of work that owns no hold. *)
Definition spawn_reserved (slot : option nat) (w : Work) (what : string) : list Job :=
  match slot with
  | Some t => [Background (Some t) w]
  | None => if room then [Background None w] else [RefusedWork what w]
  end.

(** The drop of an armed hold. *)
Definition drop_hold (slot : option nat) (hold : CoreBudgetHold) : list Job :=
  spawn_reserved slot (ReleaseWork (hold_key hold) (hold_reservation hold)) "zero-charge budget release".

Definition hold_of (w : Work) : option CoreBudgetHold :=
  match w with BufferedWork hold _ => Some hold | StreamWork hold _ _ _ _ => hold | _ => None end.

(** A future dropped before it ran: the hold it owns drops armed, its slot long
    since taken. *)
Definition abandon (w : Work) : list Job :=
  match hold_of w with Some hold => drop_hold None hold | None => [] end.

(** [match settlement { Some(reserved) => spawn, None => try_spawn or refuse }] *)
Definition spawn_or_refuse (slot : option nat) (w : Work) (what : string) : list Job :=
  match slot with
  | Some t => [Background (Some t) w]
  | None => if room then [Background None w] else RefusedWork what w :: abandon w
  end.

(** ** [CoreAccounting] *)

Record CoreAccounting := mkCore { core_budget : option CoreBudgetHold; settlement : option nat }.

Definition core_default : CoreAccounting := mkCore None None.

Definition reserve_settlement (c : CoreAccounting) (t : nat) : CoreAccounting := mkCore (core_budget c) (Some t).

Definition take_settlement (c : CoreAccounting) : option nat * CoreAccounting :=
  (settlement c, mkCore (core_budget c) None).

(** [admission] is the preloaded admit or the answer of [budget.reserve]. *)
Definition reserve_budget (c : CoreAccounting) (key : BudgetKey) (estimated_input_tokens : Z) (alias : string)
    (admission : Store.Store.Admission) : result GatewayError CoreAccounting :=
  match admission with
  | AdmissionAllowed reservation =>
      Ok (mkCore (Some (mkHold key reservation estimated_input_tokens)) (settlement c))
  | AdmissionDenied DenialExceeded => Err (BudgetExceeded alias)
  | AdmissionDenied DenialStoreUnavailable => Err BudgetUnavailable
  end.

Definition core_budget_context (c : CoreAccounting) : option (BudgetKey * Reservation * Z) :=
  (λ h, (hold_key h, hold_reservation h, hold_estimated_input_tokens h)) <$> core_budget c.

Definition take_core_budget (c : CoreAccounting) : option CoreBudgetHold * CoreAccounting :=
  (core_budget c, mkCore None (settlement c)).

Definition hold_settle (h : CoreBudgetHold) (actual : Z) : Effect := Charge (hold_key h) (hold_reservation h) actual.
Definition hold_release (h : CoreBudgetHold) : Effect := release_effect (hold_key h) (hold_reservation h).

Definition release_core_budget (c : CoreAccounting) : list Job * CoreAccounting :=
  match core_budget c with
  | None => ([], c)
  | Some h => ([Inline (hold_release h)], mkCore None (settlement c))
  end.

(** The owner goes out of scope: its hold first, which takes the shared slot. *)
Definition drop_core (c : CoreAccounting) : list Job :=
  match core_budget c with
  | Some h => drop_hold (settlement c) h
  | None => match settlement c with Some t => [Returned t] | None => [] end
  end.

(** ** [BufferedResponseAccounting] *)

Record BufferedResponseAccounting := mkBuffered {
  b_hold : option CoreBudgetHold;
  b_record : option UsageRecord;
  b_settlement : option nat;
}.

Definition from_core (hold : CoreBudgetHold) (record : UsageRecord) (slot : option nat)
    : BufferedResponseAccounting := mkBuffered (Some hold) (Some record) slot.

Definition spawn_buffered_response_accounting (hold : CoreBudgetHold) (record : UsageRecord) (slot : option nat)
    : list Job := spawn_or_refuse slot (BufferedWork hold record) "buffered response accounting".

Definition set_status (r : UsageRecord) (s : Status) : UsageRecord :=
  mkUsageRecord (schema_version r) (request_id r) (trace_id r) (namespace r) (attrs r) (period r) (subject r)
    (signer_kid r) (model r) (target_provider r) (target_model r) (credential_source r) (credential_id r) s
    (input_tokens r) (cache_read_tokens r) (cache_write_tokens r) (output_tokens r) (cost_microdollars r)
    (catalog_version r) (price_book r) (price_book_checksum r) (price_catalog r) (latency_ms r) (attempts r).

(** The owner with its hold and record taken. *)
Definition disarmed : BufferedResponseAccounting := mkBuffered None None None.

(** [finish] up to its await; [None] is the panic of its [expect]s. *)
Definition finish (a : BufferedResponseAccounting) (s : Status) : option (list Job * BufferedResponseAccounting) :=
  hold ← b_hold a; record ← b_record a;
  Some (spawn_buffered_response_accounting hold (set_status record s) (b_settlement a), disarmed).

(** The verdict the settlement reported, [None] when it was abandoned. *)
Definition finish_result (verdict : option (result string unit)) : result GatewayError unit :=
  match verdict with
  | Some (Ok _) => Ok tt
  | Some (Err reason) => Err (UsageNotDurable reason)
  | None => Err (UsageNotDurable "the settlement did not report before it was abandoned")
  end.

Definition drop_buffered (a : BufferedResponseAccounting) : option (list Job) :=
  match b_hold a with
  | None => Some []
  | Some hold =>
      record ← b_record a;
      Some (spawn_buffered_response_accounting hold (set_status record ClientCancelled) (b_settlement a))
  end.

(** ** Records of requests that end for another reason *)

(** [appends]: a journal or store takes the record off the sinks' hands. *)
Definition record_usage_terminal (appends : bool) (slot : option nat) (record : UsageRecord) : list Job :=
  if negb appends then
    Inline (RecordedTerminal record) :: match slot with Some t => [Returned t] | None => [] end
  else
    match slot with
    | Some t => [Background (Some t) (TerminalWork record)]
    | None => if room then [Background None (TerminalWork record)] else [Inline (RecordedTerminal record)]
    end.

End Room.

(** ** Building the record *)

(** The caller, as authentication resolved it. *)
Record Caller := mkCaller {
  caller_namespace : string;
  caller_subject : string;
  caller_signer_kid : option string;
  caller_max_request_microdollars : option Z;
  caller_attrs : option Value;
}.

Record RecordArgs := mkArgs {
  ra_identity : EventIdentity;
  ra_caller : Caller;
  ra_alias : string;
  ra_target_provider : string;
  ra_target_model : string;
  ra_source : CredentialSource;
  ra_credential_id : string;
  ra_status : Status;
  ra_usage : ModelUsage;
  ra_cost : option Z;
  ra_latency_ms : Z;
  ra_attempts : Z;
  ra_attrs : option Value;
  ra_period : option string;
}.

Definition build_record (a : RecordArgs) : UsageRecord := {|
  schema_version := SCHEMA_VERSION;
  request_id := RequestId_display (event_request_id (ra_identity a));
  trace_id := event_trace_id (ra_identity a);
  namespace := caller_namespace (ra_caller a);
  attrs := match ra_attrs a with Some v => Some v | None => caller_attrs (ra_caller a) end;
  period := ra_period a;
  subject := caller_subject (ra_caller a);
  signer_kid := caller_signer_kid (ra_caller a);
  model := ra_alias a;
  target_provider := ra_target_provider a;
  target_model := ra_target_model a;
  credential_source := credential_source_str (ra_source a);
  credential_id := ra_credential_id a;
  status := ra_status a;
  input_tokens := Pricing.Pricing.mu_input_tokens (ra_usage a);
  cache_read_tokens := Pricing.Pricing.mu_cache_read_tokens (ra_usage a);
  cache_write_tokens := Pricing.Pricing.mu_cache_write_tokens (ra_usage a);
  output_tokens := Pricing.Pricing.mu_output_tokens (ra_usage a);
  cost_microdollars := ra_cost a;
  catalog_version := 0;
  price_book := None;
  price_book_checksum := None;
  price_catalog := None;
  latency_ms := ra_latency_ms a;
  attempts := ra_attempts a;
|}.

(** ** The ceilings on one request *)

Definition check_estimate_bounds (body : Value) (estimate : Pricing.Pricing.Usage)
    (limits : Admission.AdmissionLimits) : result GatewayError unit :=
  match Admission.max_prompt_tokens limits with
  | Some limit_tokens =>
      if limit_tokens <? Pricing.Pricing.input_tokens estimate then Err (PromptTooLarge limit_tokens) else Ok tt
  | None => Ok tt
  end ≫= λ _,
  match Admission.max_output_tokens limits, requested_output_tokens body with
  | Some limit_tokens, Some requested_tokens =>
      if limit_tokens <? requested_tokens then Err (OutputLimitExceeded requested_tokens limit_tokens) else Ok tt
  | _, _ => Ok tt
  end.

(** ** Counting

    The effects of a job that runs to its end, whoever runs it. *)
Definition effects_of (j : Job) : list Effect :=
  match j with Inline e => [e] | Background _ w => perform w | RefusedWork _ _ | Returned _ => [] end.

Definition charges (js : list Job) : list (BudgetKey * Reservation * Z) :=
  omap (λ e, match e with Charge k r n => Some (k, r, n) | _ => None end) (js ≫= effects_of).

Definition records (js : list Job) : list UsageRecord :=
  omap (λ e, match e with Recorded r | RecordedTerminal r => Some r | _ => None end) (js ≫= effects_of).

(** The reservation of settlement capacity is spent or given back by these jobs. *)
Definition slots (js : list Job) : list nat :=
  omap (λ j, match j with Background (Some t) _ | Returned t => Some t | _ => None end) js.

Definition refusals (js : list Job) : list string :=
  omap (λ j, match j with RefusedWork what _ => Some what | _ => None end) js.

Lemma charges_app js js' : charges (js ++ js') = charges js ++ charges js'.
Proof. unfold charges. by rewrite bind_app, omap_app. Qed.

Lemma records_app js js' : records (js ++ js') = records js ++ records js'.
Proof. unfold records. by rewrite bind_app, omap_app. Qed.

(** ** One account

    What a request that armed [hold] under the slot [t] leaves behind: one charge
    to its reservation, the slot, and no refusal.  With a record the charge is
    what the record says it cost; without one it is zero. *)
Definition accounted (hold : CoreBudgetHold) (t : nat) (record : option UsageRecord) (js : list Job) : Prop :=
  charges js = [(hold_key hold, hold_reservation hold, default 0 (settle_cost <$> record))] ∧
  records js = option_list record ∧ slots js = [t] ∧ refusals js = [].

Section Accounts.
Context (room : bool) (hold : CoreBudgetHold) (t : nat).

Notation core := (mkCore (Some hold) (Some t)).

Lemma drop_accounted : accounted hold t None (drop_core room core).
Proof. by split. Qed.

Lemma release_accounted :
  accounted hold t None ((release_core_budget core).1 ++ drop_core room (release_core_budget core).2).
Proof. by split. Qed.

Lemma stream_accounted key reservation record :
  accounted hold t (Some record)
    (spawn_or_refuse room (Some t) (StreamWork (Some hold) key reservation (settle_cost record) record) "stream settlement").
Proof. by split. Qed.

(** The owner of a buffered response, settled by [finish] or by its drop. *)
Lemma finish_accounted record s :
  ∃ js, finish room (from_core hold record (Some t)) s = Some (js, disarmed) ∧
    accounted hold t (Some (set_status record s)) js ∧ drop_buffered room disarmed = Some [].
Proof. eexists. split; [reflexivity|]. by split. Qed.

Lemma drop_buffered_accounted record :
  ∃ js, drop_buffered room (from_core hold record (Some t)) = Some js ∧
    accounted hold t (Some (set_status record ClientCancelled)) js.
Proof. eexists. split; [reflexivity|]. by split. Qed.

(** A buffered failure releases the hold, then hands over its record. *)
Lemma terminal_accounted appends record :
  settle_cost record = 0 →
  accounted hold t (Some record)
    ((release_core_budget core).1 ++ record_usage_terminal room appends (Some t) record).
Proof. intros H. destruct appends; (split; [cbn; by rewrite H|by split]). Qed.

End Accounts.

End Accounting.
End Accounting.
