(* ===== verification/Streaming.v ===== *)
(** * The streaming relay ([crates/gateway/src/streaming.rs]).

    A relay reads an upstream byte stream, decodes it, and hands the caller
    either the provider's own chunks or re-rendered events, under bounds on its
    size and duration; before any content it may rotate to another credential's
    stream.  Whichever way it ends, its accounting settles once.  [turn] is one
    round of the loop in [next_chunk] and [step] what the response body does: it
    takes a queued chunk or runs a turn.  A caller that hangs up drops the relay
    between steps.

    The clock and the network are those of [Transport]; whether the wait for a
    chunk, or for a reopened stream, outlasts its deadline is the environment's
    answer ([elapses], [reopen_elapses]).  Telemetry is left out. *)

From stdpp Require Import pretty.
From S2P Require Import Prelude Text Sse Json ProviderError Pricing Admission GatewayError Provider Transport Credentials Dispatch Ids Usage Store Accounting Anthropic OpenAi.

Module Streaming.
Import ProviderError.ProviderError (ProviderError, InvalidRequest, ContextWindowExceeded, Unsupported,
  ModelUnavailable, Dependency, InvalidStream, RateLimitedStream, AllCircuitsOpen, is_credential_rate_limited).
Import GatewayError.GatewayError (TransportError, TProvider, TUpstream, THttp, TTimeout, TBodyTooLarge,
  provider_error).
Import Pricing.Pricing (ModelUsage, mkModelUsage, ModelUsage_default, mu_input_tokens, mu_output_tokens,
  mu_reasoning_tokens, mu_cache_read_tokens, mu_cache_write_tokens, RequestPrice,
  request_cost_microdollars, to_usage, is_some).
Import Provider.Provider.
Import Credentials.Credentials (CredentialSource, CredentialLease, lease_id).
Import Dispatch.Dispatch (World, net, set_net, StreamDelivery, Reemit, Passthrough, Framing, OpenAiSse,
  NativeFraming, ResponsesFraming, transport_display).
Import Store.Store (Reservation, r_period).
Import Usage.Usage (Status, SOk, UpstreamError, ClientCancelled, UsageRecord, mkUsageRecord).
Import Accounting.Accounting (BudgetKey, EventIdentity, event_request_id, event_trace_id, Job,
  CoreAccounting, take_core_budget, take_settlement, drop_core, spawn_or_refuse, StreamWork).
Import Transport.Transport (now, as_millis).

(** ** Texts *)

(** [Display for ProviderError] and for [StreamParseError]. *)
Definition provider_error_display (e : ProviderError) : string :=
  match e with
  | InvalidRequest m => "invalid provider request: " +:+ m
  | ContextWindowExceeded m => "context window exceeded: " +:+ m
  | Unsupported m => "surface unsupported by provider: " +:+ m
  | ModelUnavailable _ => "upstream model unavailable"
  | Dependency _ => "provider dependency failed"
  | InvalidStream m => "provider stream was invalid: " +:+ m
  | RateLimitedStream m => "provider stream was rate limited: " +:+ m
  | AllCircuitsOpen _ => "all provider circuits are open"
  end.

Definition stream_parse_error_display (e : Sse.Sse.StreamParseError) : string :=
  match e with
  | Sse.Sse.BufferLimit max => "SSE buffer exceeded " +:+ pretty max +:+ " bytes"
  | Sse.Sse.Incomplete => "stream ended with an incomplete SSE event"
  end.

Definition transport_caller_message (e : TransportError) : string :=
  match e with
  | THttp _ => "upstream transport failure"
  | other => transport_display other provider_error_display
  end.

Definition STREAM_DURATION_EXCEEDED : string := "stream exceeded the gateway's maximum stream duration".
Definition STREAM_BYTES_EXCEEDED : string := "stream exceeded the gateway's maximum stream size".

Definition is_stream_rate_limited (e : TransportError) : bool :=
  match provider_error e with Some error => is_credential_rate_limited error | None => false end.

(** [SseDecoder::default()] *)
Definition SseDecoder_default : Sse.Sse.SseDecoder := Sse.Sse.new (1024 * 1024).

Section Streaming.
Context {J : SerdeJson} (clock : nat → Z) (deserialize : string → Sse.Sse.visit).

(** ** Frames *)

Definition frame (lines : string) : bytes := b lines ++ [LF; LF].

Definition data_event (name : option string) (data : Value) : bytes :=
  match name with
  | Some name => b "event: " ++ b name ++ [LF] ++ b "data: " ++ frame (to_string data)
  | None => b "data: " ++ frame (to_string data)
  end.

Definition done_event : bytes := b "data: " ++ frame "[DONE]".

Definition error_frame (payload : Value) : bytes :=
  b "event: error" ++ [LF] ++ b "data: " ++ frame (to_string payload).

Definition error_event (message : string) : bytes :=
  error_frame {{ "error" ⇒ {{ "type" ⇒ Str "upstream_stream_error"; "message" ⇒ Str message }} }}.

Definition native_error_event (message : string) : bytes :=
  error_frame {{ "type" ⇒ Str "error";
                 "error" ⇒ {{ "type" ⇒ Str "upstream_stream_error"; "message" ⇒ Str message }} }}.

Definition responses_error_event (message : string) : bytes :=
  error_frame {{ "type" ⇒ Str "error"; "code" ⇒ Str "upstream_stream_error"; "message" ⇒ Str message }}.

Definition framing_done (f : Framing) : option bytes :=
  match f with OpenAiSse => Some done_event | NativeFraming | ResponsesFraming => None end.

Definition framing_error (f : Framing) (message : string) : bytes :=
  match f with
  | OpenAiSse => error_event message
  | NativeFraming => native_error_event message
  | ResponsesFraming => responses_error_event message
  end.

(** ** Observed output *)

(** [text.chars().count()] *)
Definition text_chars (t : string) : Z := Z.of_nat (length (filter (λ c, is_continuation c = false) (b t))).

Definition string_len (o : option Value) : Z := default 0 (text_chars <$> (o ≫= as_str)).

Definition relayed_text_len (data : Value) : Z :=
  foldr (λ choice n, string_len (pointer choice "/delta/content")
                     + string_len (pointer choice "/delta/reasoning_content") + n) 0
    (default [] (get data "choices" ≫= as_array))
  + string_len (pointer data "/delta/text") + string_len (pointer data "/content_block/text")
  + string_len (pointer data "/delta/partial_json") + string_len (get data "delta").

(** ** Accounting *)

Record StreamContext := mkContext {
  ctx_namespace : string;
  ctx_attrs : option Value;
  ctx_subject : string;
  ctx_signer_kid : option string;
  ctx_alias : string;
  ctx_target_provider : string;
  ctx_target_model : string;
  ctx_source : CredentialSource;
  ctx_credential_id : string;
  ctx_identity : EventIdentity;
  ctx_price : RequestPrice;
  ctx_budget_key : BudgetKey;
  ctx_reservation : Reservation;
  (** The admission permits of a task of [Admission]. *)
  ctx_admission_permit : option nat;
  ctx_estimated_input_tokens : Z;
  ctx_attempts : Z;
}.

Definition set_credential_id (c : StreamContext) (id : string) : StreamContext :=
  mkContext (ctx_namespace c) (ctx_attrs c) (ctx_subject c) (ctx_signer_kid c) (ctx_alias c) (ctx_target_provider c)
    (ctx_target_model c) (ctx_source c) id (ctx_identity c) (ctx_price c) (ctx_budget_key c) (ctx_reservation c)
    (ctx_admission_permit c) (ctx_estimated_input_tokens c) (ctx_attempts c).

Record StreamAccounting := mkAccounting {
  ctx : StreamContext;
  started : Z;
  a_usage : ModelUsage;
  observed_output_chars : Z;
  carried_output_tokens : Z;
  core_accounting : CoreAccounting;
  settled : bool;
}.

Definition new_with_core (c : StreamContext) (started : Z) (core : CoreAccounting) : StreamAccounting :=
  mkAccounting c started ModelUsage_default 0 0 core false.

Definition count_observed_output (a : StreamAccounting) (data : Value) : StreamAccounting :=
  mkAccounting (ctx a) (started a) (a_usage a)
    (saturating_add U64_MAX (observed_output_chars a) (relayed_text_len data))
    (carried_output_tokens a) (core_accounting a) (settled a).

Definition set_usage (a : StreamAccounting) (u : ModelUsage) : StreamAccounting :=
  mkAccounting (ctx a) (started a) u (observed_output_chars a) (carried_output_tokens a) (core_accounting a)
    (settled a).

Definition CHARS_PER_TOKEN : Z := 4.
Definition div_ceil (n d : Z) : Z := (n + d - 1) `div` d.

(** The output of one attempt: reported, or measured. *)
Definition output_estimate (a : StreamAccounting) : Z :=
  if 0 <? mu_output_tokens (a_usage a) then mu_output_tokens (a_usage a)
  else div_ceil (observed_output_chars a) CHARS_PER_TOKEN.

Definition fold_attempt (a : StreamAccounting) : StreamAccounting :=
  mkAccounting (ctx a) (started a) ModelUsage_default 0
    (saturating_add U64_MAX (carried_output_tokens a) (output_estimate a)) (core_accounting a) (settled a).

Definition chargeable_usage (a : StreamAccounting) : ModelUsage :=
  let u := a_usage a in
  if (carried_output_tokens a =? 0)
     && ((0 <? mu_input_tokens u) || (0 <? mu_output_tokens u) || (0 <? mu_cache_read_tokens u)
         || (0 <? mu_cache_write_tokens u))
  then u
  else
    let has_output := (0 <? carried_output_tokens a) || (0 <? mu_output_tokens u)
                      || (0 <? observed_output_chars a) in
    if negb has_output && (mu_input_tokens u =? 0) then ModelUsage_default
    else
      mkModelUsage
        (if 0 <? mu_input_tokens u then mu_input_tokens u
         else if has_output then ctx_estimated_input_tokens (ctx a) else 0)
        ((carried_output_tokens a + output_estimate a) `mod` 2 ^ 64)
        (mu_reasoning_tokens u) (mu_cache_read_tokens u) (mu_cache_write_tokens u).

Definition settlement_record (a : StreamAccounting) (status : Status) (latency_ms : Z) : UsageRecord :=
  let c := ctx a in let u := chargeable_usage a in {|
  Usage.Usage.schema_version := Usage.Usage.SCHEMA_VERSION;
  Usage.Usage.request_id := Ids.Ids.RequestId_display (event_request_id (ctx_identity c));
  Usage.Usage.trace_id := event_trace_id (ctx_identity c);
  Usage.Usage.namespace := ctx_namespace c;
  Usage.Usage.attrs := ctx_attrs c;
  Usage.Usage.period := r_period (ctx_reservation c);
  Usage.Usage.subject := ctx_subject c;
  Usage.Usage.signer_kid := ctx_signer_kid c;
  Usage.Usage.model := ctx_alias c;
  Usage.Usage.target_provider := ctx_target_provider c;
  Usage.Usage.target_model := ctx_target_model c;
  Usage.Usage.credential_source := Accounting.Accounting.credential_source_str (ctx_source c);
  Usage.Usage.credential_id := ctx_credential_id c;
  Usage.Usage.status := status;
  Usage.Usage.input_tokens := mu_input_tokens u;
  Usage.Usage.cache_read_tokens := mu_cache_read_tokens u;
  Usage.Usage.cache_write_tokens := mu_cache_write_tokens u;
  Usage.Usage.output_tokens := mu_output_tokens u;
  Usage.Usage.cost_microdollars := request_cost_microdollars (ctx_price c) (to_usage u);
  Usage.Usage.catalog_version := 0;
  Usage.Usage.price_book := None;
  Usage.Usage.price_book_checksum := None;
  Usage.Usage.price_catalog := None;
  Usage.Usage.latency_ms := latency_ms;
  Usage.Usage.attempts := ctx_attempts c;
|}.

(** ** The environment *)

Record Env := mkEnv {
  world : World;
  (** How often a chunk was waited for under a deadline. *)
  polls : nat;
  (** What the stream handed to [Settlements]. *)
  jobs : list Job;
  (** Admission permits given back. *)
  released : list nat;
}.

Definition set_world e w := mkEnv w (polls e) (jobs e) (released e).
Definition add_jobs e js := mkEnv (world e) (polls e) (jobs e ++ js) (released e).
Definition count_poll e := mkEnv (world e) (S (polls e)) (jobs e) (released e).
Definition release_permit e (p : option nat) :=
  mkEnv (world e) (polls e) (jobs e) (released e ++ option_list p).

Definition read_clock (e : Env) : Z * Env :=
  let '(t, n) := now clock (net (world e)) in (t, set_world e (set_net (world e) n)).

Section Settle.
(** Whether [try_spawn] finds capacity. *)
Context (room : bool).

(** The hold, where the request has one, is taken into the settlement. *)
Definition stream_work (a : StreamAccounting) (record : UsageRecord) : Accounting.Accounting.Work :=
  StreamWork (take_core_budget (core_accounting a)).1 (ctx_budget_key (ctx a)) (ctx_reservation (ctx a))
    (default 0 (Usage.Usage.cost_microdollars record)) record.

Definition settle (a : StreamAccounting) (status : Status) (e : Env) : StreamAccounting * Env :=
  if settled a then (a, e)
  else
    let '(ended, e) := read_clock e in
    let record := settlement_record a status (as_millis (saturating_duration_since ended (started a))) in
    let core := (take_core_budget (core_accounting a)).2 in
    let '(slot, core) := take_settlement core in
    (mkAccounting (ctx a) (started a) (a_usage a) (observed_output_chars a) (carried_output_tokens a) core true,
     add_jobs e (spawn_or_refuse room slot (stream_work a record) "stream settlement")).

(** [Drop for Accounting], then its fields: the permit, the core accounting. *)
Definition drop_accounting (a : StreamAccounting) (e : Env) : Env :=
  let '(a, e) := settle a ClientCancelled e in
  let e := release_permit e (ctx_admission_permit (ctx a)) in
  add_jobs e (drop_core room (core_accounting a)).

Definition settle_upstream_error_with_accounting (c : StreamContext) (started : Z) (core : CoreAccounting)
    (e : Env) : Env :=
  let '(a, e) := settle (new_with_core c started core) UpstreamError e in drop_accounting a e.

End Settle.

(** ** Rotation *)

(** A byte stream, at a point: the items it yields, [None] where it ends, and how
    many were taken.  It need not end. *)
Record ByteStream := mkStream {
  item_at : nat → option (result TransportError bytes);
  items_read : nat;
}.

Definition skip (n : nat) (s : ByteStream) : ByteStream := mkStream (item_at s) (n + items_read s).

(** [bytes.next()] *)
Definition next_item (s : ByteStream) : option (result TransportError bytes * ByteStream) :=
  match item_at s (items_read s) with Some item => Some (item, skip 1 s) | None => None end.

(** A stream of these items. *)
Definition of_list (l : list (result TransportError bytes)) : ByteStream := mkStream (λ i, l !! i) 0.

(** The stream goes on with these chunks. *)
Definition starts (s : ByteStream) (chunks : list bytes) : Prop :=
  ∀ i chunk, chunks !! i = Some chunk → item_at s (items_read s + i) = Some (Ok chunk).

(** Nothing is left of it. *)
Definition over (s : ByteStream) : Prop := next_item s = None.

Lemma skip_0 s : skip 0 s = s.
Proof. by destruct s. Qed.

Lemma skip_skip n m s : skip n (skip m s) = skip (m + n) s.
Proof. unfold skip. cbn. f_equal. lia. Qed.

Lemma next_item_some s item rest :
  next_item s = Some (item, rest) → rest = skip 1 s ∧ item_at s (items_read s) = Some item.
Proof. unfold next_item. destruct (item_at s (items_read s)); [|done]. by intros [= <- <-]. Qed.

Lemma starts_nil s : starts s [].
Proof. by intros []. Qed.

Lemma starts_one s chunk rest : next_item s = Some (Ok chunk, rest) → starts s [chunk].
Proof.
  intros [_ H]%next_item_some [|i] ch Hi; [|done]. cbn in Hi. injection Hi as <-.
  by rewrite Nat.add_0_r.
Qed.

Lemma starts_app s l l' : starts s l → starts (skip (length l) s) l' → starts s (l ++ l').
Proof.
  intros H H' i chunk [Hi|[Hi Hl]]%lookup_app_Some; [by apply H|]. apply H' in Hl. cbn in Hl. rewrite <-Hl. f_equal. lia.
Qed.

(** It yields exactly these chunks. *)
Definition yields (s : ByteStream) (chunks : list bytes) : Prop := starts s chunks ∧ over (skip (length chunks) s).

Lemma yields_of_list chunks : yields (of_list (Ok <$> chunks)) chunks.
Proof.
  split.
  - intros i chunk Hi. cbn. by rewrite list_lookup_fmap, Hi.
  - unfold over, next_item. cbn. by rewrite Nat.add_0_r, lookup_ge_None_2 by by rewrite length_fmap.
Qed.

Lemma yields_nil s : yields s [] → next_item s = None.
Proof. intros [_ H]. unfold over in H. by rewrite skip_0 in H. Qed.

Lemma yields_cons s chunk chunks :
  yields s (chunk :: chunks) → next_item s = Some (Ok chunk, skip 1 s) ∧ yields (skip 1 s) chunks.
Proof.
  intros [H Hn]. split_and!.
  - unfold next_item. pose proof (H 0%nat chunk eq_refl) as Hc. rewrite Nat.add_0_r in Hc. by rewrite Hc.
  - split; [|by rewrite skip_skip]. intros i ch Hi. cbn. pose proof (H (S i) ch Hi) as Hc. by rewrite Nat.add_succ_r in Hc.
Qed.

Record OpenedStream := mkOpened {
  stream_items : ByteStream;
  stream_decoder : BoxedDecoder;
}.

Record RotationHandle := mkRotation {
  remaining : list (CredentialLease * nat);
  serving : CredentialLease;
  opener : World → CredentialLease → nat → result TransportError OpenedStream * World;
  rotation_deadline : option Z;
  on_failure : World → CredentialLease → World;
  on_success : World → CredentialLease → World;
}.

Definition new_with_deadline (leases : list CredentialLease) (serving : CredentialLease)
    (first_lease_index : nat)
    (opener : World → CredentialLease → nat → result TransportError OpenedStream * World)
    (deadline : option Z) (on_failure on_success : World → CredentialLease → World) : RotationHandle :=
  mkRotation (zip leases (seq first_lease_index (length leases))) serving opener deadline on_failure on_success.

Definition with_leases (h : RotationHandle) (ls : list (CredentialLease * nat)) (s : CredentialLease) :=
  mkRotation ls s (opener h) (rotation_deadline h) (on_failure h) (on_success h).

Definition record_serving_failure (h : RotationHandle) (e : Env) : Env :=
  set_world e (on_failure h (world e) (serving h)).

Definition record_serving_success (h : RotationHandle) (e : Env) : Env :=
  set_world e (on_success h (world e) (serving h)).

Section Relay.
(** Whether the n-th bounded wait for a chunk, and the reopening that follows the
    n-th reading of the clock, outlast their deadline. *)
Context (elapses reopen_elapses : nat → bool) (room : bool).

(** One lease popped from [remaining] per round. *)
Fixpoint open_next_loop (ls : list (CredentialLease * nat)) (h : RotationHandle) (e : Env)
    : result TransportError (option (CredentialLease * OpenedStream)) * RotationHandle * Env :=
  match ls with
  | [] => (Ok None, with_leases h [] (serving h), e)
  | (lease, lease_index) :: ls =>
      let '(spent, elapsed, e) :=
        match rotation_deadline h with
        | Some deadline =>
            let '(t, e) := read_clock e in
            (saturating_duration_since deadline t =? 0,
             reopen_elapses (Transport.Transport.reads (net (world e))), e)
        | None => (false, false, e)
        end in
      if spent : bool then (Ok None, with_leases h ls (serving h), e)
      else
        let '(opened, w) := opener h (world e) lease lease_index in
        let e := set_world e w in
        if elapsed : bool then (Ok None, with_leases h ls (serving h), e)
        else
          match opened with
          | Ok opened => (Ok (Some (lease, opened)), with_leases h ls lease, e)
          | Err err =>
              if is_stream_rate_limited err then
                open_next_loop ls h (set_world e (on_failure h (world e) lease))
              else (Err err, with_leases h ls (serving h), e)
          end
  end.

Definition open_next (h : RotationHandle) (e : Env) := open_next_loop (remaining h) h e.

(** ** The relay *)

Inductive Phase := Streaming | Failed (message : string) | Finished | Ended.

(** What is fixed when the relay is built. *)
Record RelayConfig := mkConfig {
  framing : Framing;
  delivery : StreamDelivery;
  rendered_byte_limit : option Z;
  stream_terminal_grace : Z;
  deadline : option Z;
  max_bytes : option Z;
}.

(** What is left of the upstream, and the decoding of it. *)
Record Source := mkSource {
  items : ByteStream;
  carry : bytes;
  sse : option Sse.Sse.SseDecoder;
  decoder : BoxedDecoder;
}.

Record Progress := mkProgress {
  rendered_bytes : Z;
  relayed_bytes : Z;
  terminal_seen : bool;
  terminal_deadline : option Z;
  queued_downstream : bool;
}.

Record Relay := mkRelay {
  cfg : RelayConfig;
  src : Source;
  progress : Progress;
  pending : list bytes;
  phase : Phase;
  accounting : StreamAccounting;
  rotation : option RotationHandle;
}.

Definition set_src r v := mkRelay (cfg r) v (progress r) (pending r) (phase r) (accounting r) (rotation r).
Definition set_progress r v := mkRelay (cfg r) (src r) v (pending r) (phase r) (accounting r) (rotation r).
Definition set_pending r v := mkRelay (cfg r) (src r) (progress r) v (phase r) (accounting r) (rotation r).
Definition set_phase r v := mkRelay (cfg r) (src r) (progress r) (pending r) v (accounting r) (rotation r).
Definition set_accounting r v := mkRelay (cfg r) (src r) (progress r) (pending r) (phase r) v (rotation r).
Definition set_rotation r v := mkRelay (cfg r) (src r) (progress r) (pending r) (phase r) (accounting r) v.

Definition set_items s v := mkSource v (carry s) (sse s) (decoder s).
Definition set_carry s v := mkSource (items s) v (sse s) (decoder s).
Definition set_sse s v := mkSource (items s) (carry s) v (decoder s).
Definition set_decoder s v := mkSource (items s) (carry s) (sse s) v.

Definition set_rendered p v :=
  mkProgress v (relayed_bytes p) (terminal_seen p) (terminal_deadline p) (queued_downstream p).
Definition set_relayed p v :=
  mkProgress (rendered_bytes p) v (terminal_seen p) (terminal_deadline p) (queued_downstream p).
Definition set_terminal p d :=
  mkProgress (rendered_bytes p) (relayed_bytes p) true (Some d) (queued_downstream p).
Definition set_queued p :=
  mkProgress (rendered_bytes p) (relayed_bytes p) (terminal_seen p) (terminal_deadline p) true.

(** [self.queued_downstream = true; self.pending.push_back(bytes)] *)
Definition queue (r : Relay) (bs : bytes) : Relay :=
  set_pending (set_progress r (set_queued (progress r))) (pending r ++ [bs]).

Definition fail (r : Relay) (message : string) : Relay := set_phase r (Failed message).
Definition is_streaming (r : Relay) : bool := match phase r with Streaming => true | _ => false end.
Definition is_passthrough (r : Relay) : bool :=
  match delivery (cfg r) with Passthrough => true | Reemit => false end.

(** Byte-faithful, and past the provider's terminal event. *)
Definition past_terminal (r : Relay) : bool := is_passthrough r && terminal_seen (progress r).

Definition relay_opened_with_accounting (c : StreamContext) (opened : OpenedStream) (started : Z) (f : Framing)
    (rot : option RotationHandle) (core : CoreAccounting) (d : StreamDelivery)
    (limits : Admission.AdmissionLimits) (grace : Z) : Relay := {|
  cfg := mkConfig f d (match d with Reemit => Admission.max_stream_bytes limits | Passthrough => None end) grace
           ((λ budget, started + budget * Transport.Transport.NANOS_PER_MILLI) <$> Admission.max_stream_duration limits)
           (Admission.max_stream_bytes limits);
  src := mkSource (stream_items opened) [] (Some SseDecoder_default) (stream_decoder opened);
  progress := mkProgress 0 0 false None false;
  pending := [];
  phase := Streaming;
  accounting := new_with_core c started core;
  rotation := rot;
|}.

Definition reserve_rendered_bytes (r : Relay) (bytes : nat) : option Relay :=
  let next := rendered_bytes (progress r) + Z.of_nat bytes in
  if (U64_MAX <? Z.of_nat bytes) || (U64_MAX <? next) then None
  else
    match rendered_byte_limit (cfg r) with
    | Some limit => if limit <? next then None else Some (set_progress r (set_rendered (progress r) next))
    | None => Some (set_progress r (set_rendered (progress r) next))
    end.

Definition fail_rendered_bytes (r : Relay) : Relay := fail r STREAM_BYTES_EXCEEDED.
Definition fail_stream_duration (r : Relay) : Relay := fail r STREAM_DURATION_EXCEEDED.

(** The text of a chunk and what is carried to the next; it never fails. *)
Definition decode_utf8 (carry chunk : bytes) : bytes * bytes :=
  let s := carry ++ chunk in
  match from_utf8 s with
  | ValidUtf8 => (from_utf8_lossy s, [])
  | CutShort n => (from_utf8_lossy (take n s), drop n s)
  | Malformed => (from_utf8_lossy s, [])
  end.

Definition decode_boxed (d : BoxedDecoder) (ev : SseEvent)
    : result ProviderError (list ProviderStreamEvent) * BoxedDecoder :=
  let '(out, s) := @decode J _ (decoder_impl d) (Provider.Provider.decoder d) ev in
  (out, mkBoxed _ (decoder_impl d) s).

Definition finish_boxed (d : BoxedDecoder) : result ProviderError (list ProviderStreamEvent) * BoxedDecoder :=
  let '(out, s) := @finish J _ (decoder_impl d) (Provider.Provider.decoder d) in
  (out, mkBoxed _ (decoder_impl d) s).

(** [SseDecoder::push]; its [unreachable!] arm is not reached ([push_total]). *)
Definition sse_push (d : Sse.Sse.SseDecoder) (t : bytes)
    : result Sse.Sse.StreamParseError (list SseEvent) * Sse.Sse.SseDecoder :=
  let '(r, d) := Sse.Sse.push deserialize d t in (default (Err Sse.Sse.Incomplete) r, d).

Lemma drain_never_refuses rounds buf search consumed acc :
  is_ok (Sse.Sse.drain_blocks deserialize rounds false buf search consumed acc) = true.
Proof.
  revert search consumed acc. induction rounds as [|rounds IH]; intros search consumed acc; simpl; [done|].
  destruct (Sse.Sse.event_end _); [|done]. destruct (Sse.Sse.parse_event _); apply IH.
Qed.

Lemma push_total d t : is_Some (Sse.Sse.push deserialize d t).1.
Proof.
  unfold Sse.Sse.push, Sse.Sse.push_inner. destruct (_ <? _); [by eexists|].
  pose proof (drain_never_refuses (S (length (Sse.Sse.buffer d ++ t))) (Sse.Sse.buffer d ++ t)
    (Sse.Sse.scanned d) 0 []) as H.
  destruct (Sse.Sse.drain_blocks _ _ _ _ _ _ _) as [[evs n]|err]; [by eexists|done].
Qed.

(** [if self.deadline.is_some_and(|deadline| Instant::now() >= deadline)] *)
Definition past_deadline (r : Relay) (e : Env) : bool * Env :=
  match deadline (cfg r) with
  | Some d => let '(t, e) := read_clock e in (d <=? t, e)
  | None => (false, e)
  end.

Fixpoint emit (events : list ProviderStreamEvent) (r : Relay) (e : Env) : Relay * Env :=
  match events with
  | [] => (r, e)
  | ev :: events =>
      let '(late, e) := past_deadline r e in
      if late : bool then (fail_stream_duration r, e)
      else
        match ev with
        | Done usage =>
            let r := set_accounting r (set_usage (accounting r) usage) in
            if is_passthrough r then
              if terminal_seen (progress r) then (fail r "stream emitted more than one terminal event", e)
              else
                let '(t, e) := read_clock e in
                emit events (set_progress r (set_terminal (progress r) (t + stream_terminal_grace (cfg r)))) e
            else emit events (set_phase r Finished) e
        | Data name data =>
            let r := set_accounting r (count_observed_output (accounting r) data) in
            if is_passthrough r then emit events r e
            else
              let rendered := data_event name data in
              match reserve_rendered_bytes r (length rendered) with
              | None => (fail_rendered_bytes r, e)
              | Some r => emit events (queue r rendered) e
              end
        end
  end.

Definition rotate (r : Relay) (e : Env) : result TransportError bool * Relay * Env :=
  match rotation r with
  | None => (Ok false, r, e)
  | Some h =>
      let e := record_serving_failure h e in
      let r := set_src r (mkSource (of_list []) [] (Some SseDecoder_default) (decoder (src r))) in
      match open_next h e with
      | (Ok (Some (lease, opened)), h, e) =>
          let a := fold_attempt (accounting r) in
          let a := mkAccounting (set_credential_id (ctx a) (lease_id lease)) (started a) (a_usage a)
                     (observed_output_chars a) (carried_output_tokens a) (core_accounting a) (settled a) in
          (Ok true,
           set_rotation
             (set_accounting
                (set_phase (set_src r (mkSource (stream_items opened) [] (Some SseDecoder_default)
                                         (stream_decoder opened))) Streaming) a) (Some h), e)
      | (Ok None, h, e) => (Ok false, set_rotation r (Some h), e)
      | (Err err, h, e) => (Err err, set_rotation r (Some h), e)
      end
  end.

(** What a decoder error does. *)
Definition decode_failed (r : Relay) (err : ProviderError) (e : Env) : Relay * Env :=
  if is_credential_rate_limited err then
    match framing (cfg r), is_streaming r, queued_downstream (progress r) with
    | OpenAiSse, true, false =>
        match rotate r e with
        | (Ok true, r, e) => (r, e)
        | (Ok false, r, e) => (fail r (provider_error_display err), e)
        | (Err open_err, r, e) => (fail r (transport_caller_message open_err), e)
        end
    | _, false, _ => (r, e)
    | _, _, _ =>
        (fail r (provider_error_display err),
         match rotation r with Some h => record_serving_failure h e | None => e end)
    end
  else (fail r (provider_error_display err), e).

(** The events of one chunk. *)
Fixpoint on_events (events : list SseEvent) (r : Relay) (e : Env) : Relay * Env :=
  match events with
  | [] => (r, e)
  | ev :: events =>
      let '(decoded, d) := decode_boxed (decoder (src r)) ev in
      let r := set_src r (set_decoder (src r) d) in
      match decoded with
      | Ok decoded =>
          let '(r, e) := emit decoded r e in
          if negb (is_streaming r) || past_terminal r then (r, e) else on_events events r e
      | Err err => decode_failed r err e
      end
  end.

(** The decoding of a chunk; byte-faithful, it stops at the terminal event. *)
Definition observe_chunk (chunk : bytes) (r : Relay) (e : Env) : Relay * Env :=
  if past_terminal r then (r, e)
  else
    let '(t, rest) := decode_utf8 (carry (src r)) chunk in
    let r := set_src r (set_carry (src r) rest) in
    match sse (src r) with
    | None => (r, e)
    | Some d =>
        let '(pushed, d) := sse_push d t in
        let r := set_src r (set_sse (src r) (Some d)) in
        match pushed with
        | Ok events => on_events events r e
        | Err err => (fail r (stream_parse_error_display err), e)
        end
    end.

Definition on_chunk (chunk : bytes) (r : Relay) (e : Env) : Relay * Env :=
  let relayed := relayed_bytes (progress r) + Z.of_nat (length chunk) in
  if U64_MAX <? relayed then (fail r STREAM_BYTES_EXCEEDED, e)
  else
    let r := set_progress r (set_relayed (progress r) relayed) in
    if match max_bytes (cfg r) with Some max => max <? relayed | None => false end
    then (fail r STREAM_BYTES_EXCEEDED, e)
    else observe_chunk chunk (if is_passthrough r then queue r chunk else r) e.

Definition on_transport_error (err : TransportError) (r : Relay) (e : Env) : Relay * Env :=
  if past_terminal r then (set_phase r Finished, e) else (fail r (transport_caller_message err), e).

Definition finish_upstream (r : Relay) (e : Env) : Relay * Env :=
  if past_terminal r then
    (set_phase (set_src r (set_sse (set_carry (src r) []) None)) Finished, e)
  else
    let parsed := match sse (src r) with Some d => Sse.Sse.finish d | None => Ok tt end in
    let r := set_src r (set_sse (src r) None) in
    match parsed with
    | Err err => (fail r (stream_parse_error_display err), e)
    | Ok _ =>
        match carry (src r) with
        | _ :: _ => (fail r "stream ended mid-character", e)
        | [] =>
            let '(decoded, d) := finish_boxed (decoder (src r)) in
            let r := set_src r (set_decoder (src r) d) in
            match decoded with
            | Ok decoded =>
                let '(r, e) := emit decoded r e in
                if is_streaming r then (set_phase r Finished, e) else (r, e)
            | Err err => (fail r (provider_error_display err), e)
            end
        end
    end.

(** The deadline a chunk is waited for under, and whether it is the terminal one. *)
Definition wait_deadline (r : Relay) : option Z * bool :=
  match deadline (cfg r), terminal_deadline (progress r) with
  | Some total, Some terminal => if terminal <=? total then (Some terminal, true) else (Some total, false)
  | Some total, None => (Some total, false)
  | None, Some terminal => (Some terminal, true)
  | None, None => (None, false)
  end.

Definition on_elapsed (r : Relay) : Relay :=
  if (wait_deadline r).2 || past_terminal r then set_phase r Finished else fail_stream_duration r.

Definition on_next (r : Relay) (e : Env) : Relay * Env :=
  match next_item (items (src r)) with
  | None => finish_upstream r e
  | Some (Ok chunk, rest) => on_chunk chunk (set_src r (set_items (src r) rest)) e
  | Some (Err err, rest) => on_transport_error err (set_src r (set_items (src r) rest)) e
  end.

Definition poll_upstream (r : Relay) (e : Env) : Relay * Env :=
  match wait_deadline r with
  | (Some _, _) =>
      if elapses (polls e) then (on_elapsed r, count_poll e) else on_next r (count_poll e)
  | (None, _) => on_next r e
  end.

(** The terminal phases. *)
Definition on_failed (message : string) (r : Relay) (e : Env) : Relay * Env :=
  let r := set_pending r (pending r ++ framing_error (framing (cfg r)) message
                            :: option_list (framing_done (framing (cfg r)))) in
  let '(a, e) := settle room (accounting r) UpstreamError e in
  (set_phase (set_accounting r a) Ended, e).

Definition on_finished (r : Relay) (e : Env) : Relay * Env :=
  let done := framing_done (framing (cfg r)) in
  match (if is_passthrough r then Some r
         else match done with Some d => reserve_rendered_bytes r (length d) | None => Some r end) with
  | None => (fail_rendered_bytes r, e)
  | Some r =>
      let r := set_pending r (pending r ++ option_list done) in
      let e := match rotation r with Some h => record_serving_success h e | None => e end in
      let '(a, e) := settle room (accounting r) SOk e in
      (set_phase (set_accounting r a) Ended, e)
  end.

(** A round of the loop with nothing queued. *)
Definition turn (r : Relay) (e : Env) : Relay * Env :=
  match phase r with
  | Streaming => poll_upstream r e
  | Failed message => on_failed message r e
  | Finished => on_finished r e
  | Ended => (r, e)
  end.

(** ** The response body *)

(** One round of [next_chunk]: the chunk it returns, or a turn; [None] at the end. *)
Definition step (r : Relay) (e : Env) : option (option bytes * Relay * Env) :=
  match pending r, phase r with
  | bs :: rest, _ => Some (Some bs, set_pending r rest, e)
  | [], Ended => None
  | [], _ => let '(r, e) := turn r e in Some (None, r, e)
  end.

(** What the caller has received after at most [n] rounds. *)
Fixpoint run (n : nat) (r : Relay) (e : Env) : list bytes * Relay * Env :=
  match n with
  | O => ([], r, e)
  | S n =>
      match step r e with
      | None => ([], r, e)
      | Some (bs, r, e) => let '(out, r, e) := run n r e in (option_list bs ++ out, r, e)
      end
  end.

(** [next_chunk]: rounds until a chunk or the end; [None] when the fuel is spent. *)
Fixpoint next_chunk (fuel : nat) (r : Relay) (e : Env) : option (option bytes * Relay * Env) :=
  match fuel with
  | O => None
  | S fuel =>
      match step r e with
      | None => Some (None, r, e)
      | Some (Some bs, r, e) => Some (Some bs, r, e)
      | Some (None, r, e) => next_chunk fuel r e
      end
  end.

(** The body is dropped. *)
Definition drop_relay (r : Relay) (e : Env) : Env := drop_accounting room (accounting r) e.

(** ** What streaming leaves alone

    Until it settles, a relay keeps its configuration and everything it will
    settle with, but for the credential a rotation moved to. *)
(** The contexts differ at most in the credential. *)
Definition same_request (c c' : StreamContext) : Prop := set_credential_id c "" = set_credential_id c' "".

Definition terminal_ok (p : Progress) : Prop := terminal_deadline p ≠ None → terminal_seen p = true.

Record quiet (r r' : Relay) (e e' : Env) : Prop := {
  quiet_cfg : cfg r' = cfg r;
  quiet_core : core_accounting (accounting r') = core_accounting (accounting r);
  quiet_settled : settled (accounting r') = settled (accounting r);
  quiet_started : started (accounting r') = started (accounting r);
  quiet_ctx : same_request (ctx (accounting r')) (ctx (accounting r));
  quiet_jobs : jobs e' = jobs e;
  quiet_released : released e' = released e;
  quiet_ended : phase r' = Ended → phase r = Ended;
  quiet_terminal : terminal_ok (progress r) → terminal_ok (progress r');
}.

Lemma streaming_quiet_refl r e : quiet r r e e.
Proof. by split. Qed.

Lemma streaming_quiet_trans r r1 r2 e e1 e2 : quiet r r1 e e1 → quiet r1 r2 e1 e2 → quiet r r2 e e2.
Proof. intros [] []. unfold same_request in *. split; unfold same_request; try congruence; auto. Qed.

(** The bytes of some frames. *)
Definition total (bs : list bytes) : Z := Z.of_nat (length (concat bs)).

Lemma total_app bs bs' : total (bs ++ bs') = total bs + total bs'.
Proof. unfold total. rewrite concat_app, length_app. lia. Qed.

(** The frames of some pieces of content. *)
Definition frames (ds : list (option string * Value)) : list bytes := uncurry data_event <$> ds.

Lemma frames_app ds ds' : frames (ds ++ ds') = frames ds ++ frames ds'.
Proof. apply fmap_app. Qed.

Definition leases_left (r : Relay) : nat :=
  match rotation r with Some h => length (remaining h) | None => 0%nat end.

(** A part of a turn that stays with its upstream: [out] is queued for the caller. *)
Record emitted (r r' : Relay) (e e' : Env) : Prop := {
  emitted_quiet : quiet r r' e e';
  emitted_polls : polls e' = polls e;
  emitted_items : items (src r') = items (src r);
  emitted_rotation : rotation r' = rotation r;
  emitted_credential : ctx (accounting r') = ctx (accounting r);
  emitted_relayed : relayed_bytes (progress r') = relayed_bytes (progress r);
  emitted_out : ∃ out, pending r' = pending r ++ out ∧
    rendered_bytes (progress r') = rendered_bytes (progress r) + total out ∧
    (is_passthrough r = true → out = []) ∧
    (queued_downstream (progress r') = false → queued_downstream (progress r) = false ∧ out = []);
  emitted_limit limit : rendered_byte_limit (cfg r) = Some limit →
    rendered_bytes (progress r) ≤ limit → rendered_bytes (progress r') ≤ limit;
  emitted_terminal : terminal_seen (progress r) = true → terminal_seen (progress r') = true;
}.

Lemma emitted_none r r' e e' :
  quiet r r' e e' → polls e' = polls e → items (src r') = items (src r) → rotation r' = rotation r →
  ctx (accounting r') = ctx (accounting r) → relayed_bytes (progress r') = relayed_bytes (progress r) →
  pending r' = pending r → rendered_bytes (progress r') = rendered_bytes (progress r) →
  queued_downstream (progress r') = queued_downstream (progress r) →
  (terminal_seen (progress r) = true → terminal_seen (progress r') = true) → emitted r r' e e'.
Proof.
  intros ???????? Hq ?. split; try done; [|intros; congruence].
  exists []. rewrite app_nil_r. split_and!; [done|unfold total; simpl; lia|done|]. by rewrite Hq.
Qed.

Lemma emitted_trans r r1 r2 e e1 e2 : emitted r r1 e e1 → emitted r1 r2 e1 e2 → emitted r r2 e e2.
Proof.
  intros [Hq1 ? ? ? ? ? (o1 & Hp1 & Hr1 & Hn1 & Hd1) Hl1 ?] [Hq2 ? ? ? ? ? (o2 & Hp2 & Hr2 & Hn2 & Hd2) Hl2 ?].
  pose proof (quiet_cfg _ _ _ _ Hq1) as Hc.
  split; try congruence; [by eapply streaming_quiet_trans| |intros limit ??|auto].
  - exists (o1 ++ o2). rewrite Hp2, Hp1, Hr2, Hr1, total_app, <-app_assoc. split_and!; [done|lia| |].
    + intros Hpass. rewrite Hn1, Hn2; [done| |done]. unfold is_passthrough in *. by rewrite Hc.
    + intros [Hq ->]%Hd2. by apply Hd1 in Hq as [? ->].
  - apply (Hl2 limit); [congruence|]. by apply Hl1.
Qed.

Lemma reserve_some r n r' :
  reserve_rendered_bytes r n = Some r' →
  r' = set_progress r (set_rendered (progress r) (rendered_bytes (progress r) + Z.of_nat n)) ∧
  ∀ limit, rendered_byte_limit (cfg r) = Some limit → rendered_bytes (progress r) + Z.of_nat n ≤ limit.
Proof.
  unfold reserve_rendered_bytes. destruct (_ || _); [done|].
  destruct (rendered_byte_limit (cfg r)) as [l|].
  - destruct (Z.ltb_spec l (rendered_bytes (progress r) + Z.of_nat n)); [done|].
    intros [= <-]. split; [done|]. intros ? [= <-]. lia.
  - by intros [= <-].
Qed.

Lemma past_deadline_quiet r e late e' :
  past_deadline r e = (late, e') → quiet r r e e' ∧ polls e' = polls e.
Proof. unfold past_deadline, read_clock. intros. repeat case_match; by simplify_eq. Qed.

Lemma queue_emitted r e rendered r1 :
  is_passthrough r = false → reserve_rendered_bytes r (length rendered) = Some r1 →
  emitted r (queue r1 rendered) e e.
Proof.
  intros Hp [-> Hl]%reserve_some. split; try done; cbn; [|intros; by apply Hl].
  exists [rendered]. split_and!; [done| |congruence|done]. unfold total. simpl. by rewrite app_nil_r.
Qed.

Lemma emit_emitted events r e r' e' : emit events r e = (r', e') → emitted r r' e e'.
Proof.
  revert r e. induction events as [|ev events IH]; intros r e H; simpl in H.
  { simplify_eq. by apply emitted_none. }
  destruct (past_deadline r e) as [late e1] eqn:Hl. apply past_deadline_quiet in Hl as [Hl Hpo].
  assert (emitted r r e e1) as Hlate by by apply emitted_none.
  destruct late. { simplify_eq. eapply emitted_trans; [done|]. by apply emitted_none. }
  eapply emitted_trans; [done|]. destruct ev as [name data|usage].
  - set (r1 := set_accounting r (count_observed_output (accounting r) data)) in *.
    assert (emitted r r1 e1 e1) as H1 by by apply emitted_none.
    destruct (is_passthrough r1) eqn:Hp; [eapply emitted_trans; [done|by apply IH]|].
    destruct (reserve_rendered_bytes r1 _) as [r2|] eqn:Hr; eapply emitted_trans; try done.
    + eapply emitted_trans; [by eapply queue_emitted|by apply IH].
    + simplify_eq. by apply emitted_none.
  - set (r1 := set_accounting r (set_usage (accounting r) usage)) in *.
    assert (emitted r r1 e1 e1) as H1 by by apply emitted_none.
    eapply emitted_trans; [done|]. destruct (is_passthrough r1).
    + unfold read_clock, now in H. case_match; [simplify_eq; by apply emitted_none|].
      eapply emitted_trans; [|by apply IH]. by apply emitted_none.
    + eapply emitted_trans; [|by apply IH]. by apply emitted_none.
Qed.

(** A part of a turn that may also have reopened the upstream, before anything
    was queued. *)
Record handled (r r' : Relay) (e e' : Env) : Prop := {
  handled_quiet : quiet r r' e e';
  handled_polls : polls e' = polls e;
  handled_relayed : relayed_bytes (progress r') = relayed_bytes (progress r);
  handled_out : ∃ out, pending r' = pending r ++ out ∧
    rendered_bytes (progress r') = rendered_bytes (progress r) + total out ∧
    (is_passthrough r = true → out = []) ∧
    (queued_downstream (progress r') = false → queued_downstream (progress r) = false ∧ out = []);
  handled_limit limit : rendered_byte_limit (cfg r) = Some limit →
    rendered_bytes (progress r) ≤ limit → rendered_bytes (progress r') ≤ limit;
  handled_terminal : terminal_seen (progress r) = true → terminal_seen (progress r') = true;
  handled_source :
    (items (src r') = items (src r) ∧ leases_left r' = leases_left r ∧
     ctx (accounting r') = ctx (accounting r)) ∨
    (framing (cfg r) = OpenAiSse ∧ queued_downstream (progress r') = false ∧
     (leases_left r' ≤ leases_left r)%nat ∧
     (is_streaming r' = true → (leases_left r' < leases_left r)%nat));
}.

Lemma emitted_handled r r' e e' : emitted r r' e e' → handled r r' e e'.
Proof. intros []. split; try done. left. unfold leases_left. by rewrite emitted_rotation0. Qed.

Lemma emitted_then_handled r r1 r2 e e1 e2 : emitted r r1 e e1 → handled r1 r2 e1 e2 → handled r r2 e e2.
Proof.
  intros [Hq1 ? Hi Hro Hcr ? (o1 & Hp1 & Hr1 & Hn1 & Hd1) Hl1 ?] [Hq2 ? ? (o2 & Hp2 & Hr2 & Hn2 & Hd2) Hl2 ? Hs].
  pose proof (quiet_cfg _ _ _ _ Hq1) as Hc.
  split; [by eapply streaming_quiet_trans|congruence|congruence| |intros limit ??|auto|].
  - exists (o1 ++ o2). rewrite Hp2, Hp1, Hr2, Hr1, total_app, <-app_assoc. split_and!; [done|lia| |].
    + intros Hpass. rewrite Hn1, Hn2; [done| |done]. unfold is_passthrough in *. by rewrite Hc.
    + intros [Hq ->]%Hd2. by apply Hd1 in Hq as [? ->].
  - apply (Hl2 limit); [congruence|]. by apply Hl1.
  - assert (leases_left r1 = leases_left r) as Hll by (unfold leases_left; by rewrite Hro).
    rewrite Hc, Hi, Hll, Hcr in Hs. done.
Qed.

Lemma open_next_loop_spec ls h e res h' e' :
  open_next_loop ls h e = (res, h', e') →
  (length (remaining h') ≤ length ls)%nat ∧
  (∀ o, res = Ok (Some o) → (length (remaining h') < length ls)%nat) ∧
  jobs e' = jobs e ∧ released e' = released e ∧ polls e' = polls e.
Proof.
  revert e. induction ls as [|[lease i] ls IH]; intros e H; simpl in H; [by simplify_eq|].
  destruct (match rotation_deadline h with Some _ => _ | None => _ end) as [[spent late] e1] eqn:Hd.
  assert (jobs e1 = jobs e ∧ released e1 = released e ∧ polls e1 = polls e) as (Hj & Hr & Hpo).
  { unfold read_clock, now in Hd. by repeat case_match; simplify_eq. }
  destruct spent; [simplify_eq; simpl; by split_and!; [lia| | | |]|].
  destruct (opener h (world e1) lease i) as [opened w].
  destruct late; [simplify_eq; simpl; by split_and!; [lia| | | |]|].
  destruct opened as [o|err]; [simplify_eq; simpl; split_and!; [lia|intros; lia|done..]|].
  destruct (is_stream_rate_limited err); [|simplify_eq; simpl; by split_and!; [lia| | | |]].
  apply IH in H as (? & Ho & -> & -> & ->). simpl. split_and!; [lia| |done..].
  intros o ->. specialize (Ho o eq_refl). lia.
Qed.

Lemma rotate_handled r e res r' e' :
  rotate r e = (res, r', e') → framing (cfg r) = OpenAiSse → queued_downstream (progress r) = false →
  is_streaming r = true →
  (res = Ok true → handled r r' e e') ∧ (res ≠ Ok true → ∀ m, handled r (fail r' m) e e').
Proof.
  intros H Hf Hq Hs. unfold rotate in H. destruct (rotation r) as [h|] eqn:Hrot.
  2: { simplify_eq. split; [done|]. intros _ m. by apply emitted_handled, emitted_none. }
  destruct (open_next h _) as [[opened h'] e1] eqn:Ho.
  apply open_next_loop_spec in Ho as (Hle & Hlt & Hj & Hrel & Hpo). simpl in Hj, Hrel, Hpo.
  assert (∀ ph a src', core_accounting a = core_accounting (accounting r) →
            settled a = settled (accounting r) → started a = started (accounting r) →
            same_request (ctx a) (ctx (accounting r)) → ph ≠ Ended →
            (ph = Streaming → (length (remaining h') < length (remaining h))%nat) →
            handled r (mkRelay (cfg r) src' (progress r) (pending r) ph a (Some h')) e e1) as Hgo.
  { intros ph a src' ????? Hph. split; try done.
    - exists []. rewrite app_nil_r. split_and!; [done|unfold total; simpl; lia|done|done].
    - right. unfold leases_left, is_streaming. simpl. rewrite Hrot. split_and!; [done..|].
      destruct ph; try done. by intros _; apply Hph. }
  destruct opened as [[[lease o]|]|err]; simplify_eq; split; try done.
  - intros _. apply Hgo; try done. intros _. by eapply Hlt.
  - intros _ m. by apply Hgo.
  - intros _ m. by apply Hgo.
Qed.

Lemma decode_failed_handled r err e r' e' : decode_failed r err e = (r', e') → handled r r' e e'.
Proof.
  unfold decode_failed. destruct (is_credential_rate_limited err).
  2: { intros. simplify_eq. by apply emitted_handled, emitted_none. }
  assert (handled r (fail r (provider_error_display err)) e
            match rotation r with Some h => record_serving_failure h e | None => e end) as Hfail.
  { apply emitted_handled, emitted_none; try done; by destruct (rotation r). }
  destruct (framing (cfg r)) eqn:Hf, (is_streaming r) eqn:Hs, (queued_downstream (progress r)) eqn:Hq;
    intros H; try (by simplify_eq; first [done|apply emitted_handled, emitted_none]).
  destruct (rotate r e) as [[res r1] e1] eqn:Hr.
  apply rotate_handled in Hr as [Ht Hn]; [|done..].
  destruct res as [[]|open_err]; simplify_eq; [by apply Ht|by apply Hn..].
Qed.

Lemma on_events_handled events r e r' e' : on_events events r e = (r', e') → handled r r' e e'.
Proof.
  revert r e. induction events as [|ev events IH]; intros r e H; simpl in H.
  { simplify_eq. by apply emitted_handled, emitted_none. }
  destruct (decode_boxed _ ev) as [decoded d].
  set (r1 := set_src r (set_decoder (src r) d)) in *.
  eapply (emitted_then_handled _ r1); [by apply emitted_none|].
  destruct decoded as [decoded|err]; [|by eapply decode_failed_handled].
  destruct (emit decoded r1 e) as [r2 e2] eqn:He. apply emit_emitted in He.
  destruct (_ || _); [simplify_eq; by apply emitted_handled|].
  eapply emitted_then_handled; [done|by apply IH].
Qed.

(** ** One wait for the upstream *)

(** [done]: the upstream ended, or may be closed because its terminal event was seen. *)
Definition complete (r : Relay) : Prop := over (items (src r)) ∨ past_terminal r = true.

Record polled (r r' : Relay) (e e' : Env) : Prop := {
  polled_quiet : quiet r r' e e';
  (** Passthrough queues exactly the chunks it takes, within the limit. *)
  polled_passthrough : is_passthrough r = true → framing (cfg r) ≠ OpenAiSse →
    ∃ sent, starts (items (src r)) sent ∧ pending r' = pending r ++ sent ∧
      (sent ≠ [] → relayed_bytes (progress r') = relayed_bytes (progress r) + total sent ∧
         ∀ limit, max_bytes (cfg r) = Some limit → relayed_bytes (progress r') ≤ limit) ∧
      (is_streaming r' = true → items (src r') = skip (length sent) (items (src r)) ∧ sent ≠ []) ∧
      (phase r' = Finished → complete r);
  (** Re-emission queues what it rendered, within the limit. *)
  polled_reemit : is_passthrough r = false →
    ∃ out, pending r' = pending r ++ out ∧
      rendered_bytes (progress r') = rendered_bytes (progress r) + total out ∧
      (queued_downstream (progress r') = false → queued_downstream (progress r) = false ∧ out = []);
  polled_limit limit : rendered_byte_limit (cfg r) = Some limit →
    rendered_bytes (progress r) ≤ limit → rendered_bytes (progress r') ≤ limit;
  polled_terminal : terminal_seen (progress r) = true → terminal_seen (progress r') = true;
  polled_queued : queued_downstream (progress r') = false →
    queued_downstream (progress r) = false ∧ pending r' = pending r;
  (** Once something is queued, the stream is never reopened. *)
  polled_committed : queued_downstream (progress r) = true →
    queued_downstream (progress r') = true ∧ ctx (accounting r') = ctx (accounting r) ∧
    leases_left r' = leases_left r;
  polled_progress : (leases_left r' < leases_left r)%nat ∨
    (leases_left r' = leases_left r ∧ ¬ over (items (src r)) ∧ items (src r') = skip 1 (items (src r))) ∨
    ((leases_left r' ≤ leases_left r)%nat ∧ is_streaming r' = false);
}.

Lemma handled_no_queue r r' e e' :
  handled r r' e e' → queued_downstream (progress r) = true →
  queued_downstream (progress r') = true ∧ ctx (accounting r') = ctx (accounting r) ∧
  leases_left r' = leases_left r ∧ items (src r') = items (src r).
Proof.
  intros [_ _ _ (out & _ & _ & _ & Hq) _ _ Hs] Hqr.
  destruct (queued_downstream (progress r')) eqn:Hq'; [|destruct Hq as [? _]; congruence].
  destruct Hs as [(? & ? & ?)|(_ & ? & _)]; [done|congruence].
Qed.

(** A part of a turn that takes nothing from the upstream and ends the streaming. *)
Lemma handled_polled r r' e e' :
  handled r r' e e' → is_streaming r' = false → (phase r' = Finished → is_passthrough r = true → complete r) →
  polled r r' e e'.
Proof.
  intros Hh Hs Hf. pose proof (handled_no_queue _ _ _ _ Hh) as Hn.
  destruct Hh as [Hq _ Hrel (out & Hp & Hr & Hpass & Hqd) Hl Ht Hsrc]. split; try done.
  - intros Hpt _. exists []. rewrite Hp, (Hpass Hpt). split_and!; try done; [congruence|].
    by intros; apply Hf.
  - intros _. by exists out.
  - intros [? ->]%Hqd. by rewrite Hp, app_nil_r.
  - intros H. by destruct (Hn H) as (? & ? & ? & ?).
  - right; right. split; [|done]. destruct Hsrc as [(_ & -> & _)|(_ & _ & ? & _)]; lia.
Qed.

Lemma emitted_polled r r' e e' :
  emitted r r' e e' → is_streaming r' = false → (phase r' = Finished → is_passthrough r = true → complete r) →
  polled r r' e e'.
Proof. intros. by apply handled_polled; [apply emitted_handled|..]. Qed.

Lemma emit_passthrough_phase events r e r' e' :
  emit events r e = (r', e') → is_passthrough r = true → phase r' = Finished → phase r = Finished.
Proof.
  revert r e. induction events as [|ev events IH]; intros r e H Hp Hf; simpl in H; [by simplify_eq|].
  destruct (past_deadline r e) as [[] e1]; [by simplify_eq|].
  destruct ev as [name data|usage]; change (is_passthrough (set_accounting r _)) with (is_passthrough r) in H;
    rewrite Hp in H; [by apply IH in H|].
  unfold read_clock, now in H. case_match; [by simplify_eq|]. by apply IH in H.
Qed.

Lemma on_events_passthrough_phase events r e r' e' :
  on_events events r e = (r', e') → is_passthrough r = true → framing (cfg r) ≠ OpenAiSse →
  phase r' = Finished → phase r = Finished.
Proof.
  revert r e. induction events as [|ev events IH]; intros r e H Hp Hfr Hf; simpl in H; [by simplify_eq|].
  destruct (decode_boxed _ ev) as [decoded d]. set (r1 := set_src r (set_decoder (src r) d)) in *.
  destruct decoded as [decoded|err].
  - destruct (emit decoded r1 e) as [r2 e2] eqn:He.
    assert (phase r2 = Finished → phase r = Finished) as Hr2.
    { intros Hf2. exact (emit_passthrough_phase _ _ _ _ _ He Hp Hf2). }
    apply emit_emitted in He as [[Hc _ _ _ _ _ _ _] _ _ _ _ _ _ _ _].
    destruct (_ || _); [simplify_eq; auto|]. apply Hr2.
    eapply IH; [done| | |done]; [|by rewrite Hc]. unfold is_passthrough. by rewrite Hc.
  - unfold decode_failed in H. destruct (is_credential_rate_limited err); [|by simplify_eq].
    by repeat case_match; simplify_eq.
Qed.

(** The relay once a chunk within the limits is counted and, byte-faithful, queued. *)
Definition taken (r : Relay) (chunk : bytes) (rest : ByteStream) : Relay :=
  let r := set_src r (set_items (src r) rest) in
  let r := set_progress r (set_relayed (progress r) (relayed_bytes (progress r) + Z.of_nat (length chunk))) in
  if is_passthrough r then queue r chunk else r.

Lemma taken_polled r chunk rest r' e e' :
  next_item (items (src r)) = Some (Ok chunk, rest) →
  (∀ limit, max_bytes (cfg r) = Some limit → relayed_bytes (progress r) + Z.of_nat (length chunk) ≤ limit) →
  handled (taken r chunk rest) r' e e' →
  (phase r' = Finished → is_passthrough r = true → framing (cfg r) ≠ OpenAiSse → complete r) →
  polled r r' e e'.
Proof.
  intros Hi Hmax Hh Hf. pose proof (handled_no_queue _ _ _ _ Hh) as Hn.
  assert (quiet r (taken r chunk rest) e e) as Hq0 by (unfold taken; by case_match).
  assert (cfg (taken r chunk rest) = cfg r) as Hc by apply Hq0.
  assert (items (src (taken r chunk rest)) = rest) as Hi1 by (unfold taken; by case_match).
  assert (leases_left (taken r chunk rest) = leases_left r) as Hl1 by (unfold taken; by case_match).
  assert (is_passthrough (taken r chunk rest) = is_passthrough r) as Hp1
    by (unfold is_passthrough; by rewrite Hc).
  assert (ctx (accounting (taken r chunk rest)) = ctx (accounting r)) as Hx by (unfold taken; by case_match).
  assert (is_passthrough r = true → pending (taken r chunk rest) = pending r ++ [chunk] ∧
            relayed_bytes (progress (taken r chunk rest)) = relayed_bytes (progress r) + Z.of_nat (length chunk))
    as Htp by (intros E; unfold taken, is_passthrough in *; cbn; by rewrite E).
  assert (is_passthrough r = false → taken r chunk rest = set_progress (set_src r (set_items (src r) rest))
            (set_relayed (progress r) (relayed_bytes (progress r) + Z.of_nat (length chunk))))
    as Htr by (intros E; unfold taken, is_passthrough in *; cbn; by rewrite E).
  destruct Hh as [Hq _ Hrel (out & Hp & Hr & Hpass & Hqd) Hl Ht Hs].
  rewrite Hp1 in Hpass. rewrite Hi1, Hl1, Hx in Hs, Hn.
  split; [by eapply streaming_quiet_trans| | | | | | |].
  - intros Hpt Hfr. destruct (Htp Hpt) as [Hp0 Hr0]. exists [chunk].
    rewrite Hp, (Hpass Hpt), app_nil_r, Hp0, Hrel, Hr0. unfold total. simpl. rewrite app_nil_r.
    split_and!; try done.
    + by eapply starts_one.
    + intros _. split; [|done]. apply next_item_some in Hi as [<- _].
      destruct Hs as [(? & _)|(? & _)]; [done|]. rewrite Hc in *. done.
    + intros H. by apply Hf.
  - intros Hpt. exists out. by rewrite (Htr Hpt) in Hp, Hr, Hqd.
  - intros limit Hlim Hle. apply (Hl limit); [by rewrite Hc|]. unfold taken. by case_match.
  - intros H. apply Ht. unfold taken. by case_match.
  - intros [Hq1 ->]%Hqd. destruct (is_passthrough r) eqn:Hpt; [|by rewrite Hp, (Htr eq_refl), app_nil_r in *].
    unfold taken, is_passthrough in Hq1, Hpt. cbn in Hq1. by rewrite Hpt in Hq1.
  - intros H. destruct Hn as (? & ? & ? & ?); [unfold taken; by case_match|done].
  - destruct Hs as [(Hi' & Hl' & _)|(_ & _ & Hl' & Hs')].
    + right; left. rewrite Hi'. unfold over. rewrite Hi. apply next_item_some in Hi as [-> _]. done.
    + destruct (is_streaming r'); [left; auto|right; right; done].
Qed.

Lemma observe_chunk_handled chunk r e r' e' : observe_chunk chunk r e = (r', e') → handled r r' e e'.
Proof.
  unfold observe_chunk. intros H.
  destruct (past_terminal r); [simplify_eq; by apply emitted_handled, emitted_none|].
  destruct (decode_utf8 _ chunk) as [t left].
  change (sse (src (set_src r _))) with (sse (src r)) in H.
  destruct (sse (src r)) as [d|]; [|simplify_eq; by apply emitted_handled, emitted_none].
  destruct (sse_push d t) as [[events|err] d'];
    [|simplify_eq; by apply emitted_handled, emitted_none].
  eapply emitted_then_handled; [|by eapply on_events_handled]. by apply emitted_none.
Qed.

Lemma observe_chunk_phase chunk r e r' e' :
  observe_chunk chunk r e = (r', e') → is_passthrough r = true → framing (cfg r) ≠ OpenAiSse →
  phase r' = Finished → phase r = Finished.
Proof.
  unfold observe_chunk. intros H Hp Hf Hph.
  destruct (past_terminal r); [by simplify_eq|].
  destruct (decode_utf8 _ chunk) as [t left].
  change (sse (src (set_src r _))) with (sse (src r)) in H.
  destruct (sse (src r)) as [d|]; [|by simplify_eq].
  destruct (sse_push d t) as [[events|err] d']; [|by simplify_eq].
  by apply on_events_passthrough_phase in H.
Qed.

Lemma on_chunk_polled r chunk rest e r' e' :
  next_item (items (src r)) = Some (Ok chunk, rest) → phase r = Streaming →
  on_chunk chunk (set_src r (set_items (src r) rest)) e = (r', e') → polled r r' e e'.
Proof.
  intros Hi Hph H. unfold on_chunk in H. cbv zeta in H.
  change (progress (set_src r (set_items (src r) rest))) with (progress r) in H.
  assert (∀ p m, rendered_bytes p = rendered_bytes (progress r) →
            queued_downstream p = queued_downstream (progress r) →
            terminal_seen p = terminal_seen (progress r) →
            terminal_deadline p = terminal_deadline (progress r) →
            polled r (fail (set_progress (set_src r (set_items (src r) rest)) p) m) e e) as Hfail.
  { intros p m Hr Hq Ht Htd. split; cbn.
    - split; try done. unfold terminal_ok. cbn. by rewrite Ht, Htd.
    - intros _ _. exists []. rewrite app_nil_r. split_and!; [apply starts_nil|done..].
    - intros _. exists []. rewrite app_nil_r, Hr, Hq. split_and!; [done|unfold total; simpl; lia|done].
    - intros. by rewrite Hr.
    - by rewrite Ht.
    - by rewrite Hq.
    - by rewrite Hq.
    - by right; right. }
  destruct (U64_MAX <? _). { simplify_eq. by apply (Hfail (progress r)). }
  destruct (match max_bytes _ with Some max => _ | None => _ end) eqn:Hmax.
  { simplify_eq. by apply Hfail. }
  eapply taken_polled; [done| |by eapply observe_chunk_handled|].
  - intros limit Hl. cbn in Hmax. rewrite Hl in Hmax. apply Z.ltb_ge in Hmax. lia.
  - intros Hf Hp Hfr. exfalso. apply observe_chunk_phase in H; try done.
    + by destruct (is_passthrough (set_progress _ _)); cbn in H; rewrite Hph in H.
    + unfold is_passthrough in *. cbn. by rewrite Hp.
    + by destruct (is_passthrough (set_progress _ _)).
Qed.

Lemma finish_upstream_emitted r e r' e' :
  finish_upstream r e = (r', e') → phase r ≠ Ended →
  emitted r r' e e' ∧ (phase r = Streaming → is_streaming r' = false).
Proof.
  intros H Hne. unfold finish_upstream in H. destruct (past_terminal r).
  { simplify_eq. split; [by apply emitted_none|done]. }
  set (parsed := match sse (src r) with Some d => _ | None => _ end) in H. clearbody parsed.
  destruct parsed as [u|err]; [|simplify_eq; split; [by apply emitted_none|done]].
  change (carry (src (set_src r _))) with (carry (src r)) in H.
  destruct (carry (src r)); [|simplify_eq; split; [by apply emitted_none|done]].
  destruct (finish_boxed _) as [[decoded|err] d]; [|simplify_eq; split; [by apply emitted_none|done]].
  set (r1 := set_src (set_src r (set_sse (src r) None)) _) in H.
  assert (emitted r r1 e e) as H1 by by apply emitted_none.
  destruct (emit decoded r1 e) as [r2 e2] eqn:He. apply emit_emitted in He.
  assert (emitted r r2 e e2) as H2 by by eapply emitted_trans.
  assert (phase r2 ≠ Ended) as Hne2 by (intros ?%(quiet_ended _ _ _ _ (emitted_quiet _ _ _ _ H2)); done).
  unfold is_streaming in *. destruct (phase r2) eqn:Hp2; simplify_eq; rewrite ?Hp2; split; try done.
  eapply emitted_trans; [done|]. by apply emitted_none.
Qed.

Lemma on_next_polled r e r' e' : phase r = Streaming → on_next r e = (r', e') → polled r r' e e'.
Proof.
  intros Hph H. unfold on_next in H. destruct (next_item (items (src r))) as [[[chunk|err] rest]|] eqn:Hi.
  3:{ apply finish_upstream_emitted in H as [H1 H2]; [|congruence].
      apply emitted_polled; [done|auto|]. by left. }
  - by eapply on_chunk_polled.
  - unfold on_transport_error in H.
    change (past_terminal (set_src r _)) with (past_terminal r) in H.
    assert (∀ ph, ph ≠ Streaming → ph ≠ Ended → (ph = Finished → past_terminal r = true) →
              polled r (set_phase (set_src r (set_items (src r) rest)) ph) e e) as Hgo.
    { intros ph Hs He Hf. split; cbn; try done.
      - intros _ _. exists []. rewrite app_nil_r. split_and!; try done.
        + unfold is_streaming. cbn. by destruct ph.
        + right. auto.
      - intros _. exists []. rewrite app_nil_r. split_and!; [done|unfold total; simpl; lia|done].
      - right; right. split; [done|]. unfold is_streaming. cbn. by destruct ph. }
    destruct (past_terminal r) eqn:Hpt; simplify_eq; by apply Hgo.
Qed.

Lemma on_next_polls r e r' e' : phase r = Streaming → on_next r e = (r', e') → polls e' = polls e.
Proof.
  unfold on_next. intros Hph H. destruct (next_item (items (src r))) as [[[chunk|err] rest]|].
  - unfold on_chunk in H. destruct (U64_MAX <? _); [by simplify_eq|].
    destruct (match max_bytes _ with Some _ => _ | None => _ end) in H; [by simplify_eq|].
    by apply observe_chunk_handled, handled_polls in H.
  - unfold on_transport_error in H. by destruct (past_terminal _); simplify_eq.
  - apply finish_upstream_emitted in H as [H _]; [by apply emitted_polls in H|congruence].
Qed.

Lemma on_elapsed_polled r e : phase r = Streaming → terminal_ok (progress r) → polled r (on_elapsed r) e e.
Proof.
  intros Hph Hok. apply emitted_polled; unfold on_elapsed.
  - by destruct (_ || _); apply emitted_none.
  - by destruct (_ || _).
  - destruct ((wait_deadline r).2) eqn:Hw; simpl.
    + intros _ Hpt. right. unfold past_terminal. rewrite Hpt. simpl. apply Hok.
      unfold wait_deadline in Hw. by repeat case_match.
    + destruct (past_terminal r) eqn:Hpt; [|done]. intros _ _. by right.
Qed.

Lemma polled_env r r' e e1 e' :
  polled r r' e1 e' → jobs e1 = jobs e → released e1 = released e → polled r r' e e'.
Proof. intros [[]] ? ?. split; try done. split; congruence || done. Qed.

Lemma poll_upstream_polled r e r' e' :
  phase r = Streaming → terminal_ok (progress r) → poll_upstream r e = (r', e') → polled r r' e e'.
Proof.
  intros Hph Hok H. unfold poll_upstream in H.
  destruct (wait_deadline r) as [[d|] t]; [|by apply on_next_polled].
  destruct (elapses (polls e)).
  - simplify_eq. eapply polled_env; [by apply on_elapsed_polled|done..].
  - eapply polled_env; [by apply on_next_polled|done..].
Qed.

(** ** What is relayed, and from where

    [content] holds of what the decoders give, [supply] of the byte streams that
    are read; [sources] says so of the streams and decoders a relay meets. *)

Section Sources.
Context (content : option string * Value → Prop) (decoder_ok : BoxedDecoder → Prop)
  (supply : ByteStream → Prop).

Definition gives (out : result ProviderError (list ProviderStreamEvent)) : Prop :=
  ∀ events name data, out = Ok events → Data name data ∈ events → content (name, data).

Record sources : Prop := {
  sources_decode d ev : decoder_ok d → gives (decode_boxed d ev).1 ∧ decoder_ok (decode_boxed d ev).2;
  sources_finish d : decoder_ok d → gives (finish_boxed d).1 ∧ decoder_ok (finish_boxed d).2;
  sources_skip s : ¬ over s → supply s → supply (skip 1 s);
  sources_empty : supply (of_list []);
}.

(** Every stream a rotation opens is one of them. *)
Definition reopens (rot : option RotationHandle) : Prop :=
  ∀ h w lease i o w', rot = Some h → opener h w lease i = (Ok o, w') →
    supply (stream_items o) ∧ decoder_ok (stream_decoder o).

Definition sound (r : Relay) : Prop :=
  supply (items (src r)) ∧ decoder_ok (decoder (src r)) ∧ reopens (rotation r).

(** A part of a turn that stays with them; re-emission queues frames of content. *)
Definition goes (r r' : Relay) : Prop :=
  sound r → sound r' ∧ cfg r' = cfg r ∧
    (is_passthrough r = false → ∃ ds, pending r' = pending r ++ frames ds ∧ Forall content ds).

Lemma goes_same r r' :
  src r' = src r → rotation r' = rotation r → cfg r' = cfg r → pending r' = pending r → goes r r'.
Proof.
  intros Hs Hr Hc Hp (H1 & H2 & H3). unfold sound. rewrite Hs, Hr. split_and!; [done..|].
  intros _. exists []. by rewrite app_nil_r.
Qed.

Lemma goes_trans r r1 r2 : goes r r1 → goes r1 r2 → goes r r2.
Proof.
  intros H1 H2 Hs. destruct (H1 Hs) as (Hs1 & Hc1 & Hp1). destruct (H2 Hs1) as (Hs2 & Hc2 & Hp2).
  split_and!; [done|congruence|]. intros Hp. destruct (Hp1 Hp) as (ds1 & E1 & F1).
  destruct Hp2 as (ds2 & E2 & F2); [unfold is_passthrough in *; by rewrite Hc1|].
  exists (ds1 ++ ds2). rewrite E2, E1, frames_app, (assoc_L (++)). split; [done|by apply Forall_app].
Qed.

Lemma goes_set_src r s :
  (supply (items (src r)) → supply (items s)) → (decoder_ok (decoder (src r)) → decoder_ok (decoder s)) →
  goes r (set_src r s).
Proof.
  intros H1 H2 (Hs & Hd & Hr). split_and!; [by split_and!; auto|done|].
  intros _. exists []. by rewrite app_nil_r.
Qed.

Lemma queue_goes r name data : content (name, data) → goes r (queue r (data_event name data)).
Proof. intros Hc Hs. split_and!; [exact Hs|done|]. intros _. exists [(name, data)]. by repeat constructor. Qed.

Lemma emit_goes events r e r' e' : emit events r e = (r', e') → gives (Ok events) → goes r r'.
Proof.
  revert r e. induction events as [|ev events IH]; intros r e H Hg; simpl in H.
  { simplify_eq. by apply goes_same. }
  assert (gives (Ok events)) as Hg' by (intros evs n v [= <-] Hin; eapply Hg; [done|by right]).
  destruct (past_deadline r e) as [[] e1]; [simplify_eq; by apply goes_same|].
  destruct ev as [name data|usage].
  - set (r1 := set_accounting r _) in H.
    destruct (is_passthrough r1); [apply (goes_trans r r1); [by apply goes_same|by eapply IH]|].
    destruct (reserve_rendered_bytes r1 _) as [r2|] eqn:Hr; [|simplify_eq; by apply goes_same].
    apply reserve_some in Hr as [-> _].
    eapply goes_trans; [|by eapply IH].
    eapply goes_trans; [|apply queue_goes; eapply Hg; [done|left]]. by apply goes_same.
  - set (r1 := set_accounting r _) in H. destruct (is_passthrough r1).
    + destruct (terminal_seen _); [simplify_eq; by apply goes_same|].
      destruct (read_clock e1) as [t e2]. eapply goes_trans; [|by eapply IH]. by apply goes_same.
    + eapply goes_trans; [|by eapply IH]. by apply goes_same.
Qed.

Lemma open_next_loop_opens ls h e res h' e' :
  open_next_loop ls h e = (res, h', e') →
  opener h' = opener h ∧
  ∀ lease o, res = Ok (Some (lease, o)) → ∃ w i w', opener h w lease i = (Ok o, w').
Proof.
  revert e. induction ls as [|[lease i] ls IH]; intros e H; simpl in H; [by simplify_eq|].
  destruct (match rotation_deadline h with Some _ => _ | None => _ end) as [[spent late] e1].
  destruct spent; [by simplify_eq|].
  destruct (opener h (world e1) lease i) as [opened w] eqn:Ho. destruct late; [by simplify_eq|].
  destruct opened as [o|err].
  - simplify_eq. split; [done|]. intros l' o' [= <- <-]. by eexists _, _, _.
  - destruct (is_stream_rate_limited err); [by apply IH in H|by simplify_eq].
Qed.

Hypothesis Hsources : sources.

Lemma rotate_goes r e res r' e' : rotate r e = (res, r', e') → goes r r'.
Proof.
  unfold rotate. destruct (rotation r) as [h|] eqn:Hrot; [|intros; simplify_eq; by apply goes_same].
  destruct (open_next h _) as [[opened h'] e1] eqn:Ho. apply open_next_loop_opens in Ho as [Hop Hl].
  intros H (H1 & H2 & H3). rewrite Hrot in H3.
  assert (reopens (Some h')) as H3'.
  { intros h0 w l i o w' [= <-]. rewrite Hop. by apply H3. }
  pose proof (sources_empty Hsources) as He.
  destruct opened as [[[lease o]|]|err]; simplify_eq;
    (split; [|split; [done|intros _; exists []; by rewrite app_nil_r]]); [|by split_and!..].
  destruct (Hl lease o eq_refl) as (w & i & w' & Hw). destruct (H3 h w lease i o w' eq_refl Hw). by split_and!.
Qed.

Lemma decode_failed_goes r err e r' e' : decode_failed r err e = (r', e') → goes r r'.
Proof.
  unfold decode_failed. intros H. destruct (is_credential_rate_limited err); [|simplify_eq; by apply goes_same].
  destruct (framing (cfg r)), (is_streaming r), (queued_downstream (progress r));
    try (simplify_eq; by apply goes_same).
  destruct (rotate r e) as [[res r1] e1] eqn:Hr. apply rotate_goes in Hr.
  destruct res as [[]|open_err]; simplify_eq; [done|..]; (eapply goes_trans; [done|by apply goes_same]).
Qed.

Lemma decoder_goes r d : (decoder_ok (decoder (src r)) → decoder_ok d) → goes r (set_src r (set_decoder (src r) d)).
Proof. intros H. by apply goes_set_src. Qed.

(** What a sound relay's decoder says, then what is done with it. *)
Lemma goes_sound r r' : (sound r → goes r r') → goes r r'.
Proof. intros H Hs. by apply H. Qed.

Lemma on_events_goes events r e r' e' : on_events events r e = (r', e') → goes r r'.
Proof.
  revert r e. induction events as [|ev events IH]; intros r e H; simpl in H; [simplify_eq; by apply goes_same|].
  apply goes_sound. intros (_ & Hok & _). destruct (sources_decode Hsources _ ev Hok) as [Hg Hd].
  destruct (decode_boxed _ ev) as [decoded d]. cbn [fst snd] in *. set (r1 := set_src r _) in H.
  assert (goes r r1) as H1 by by apply decoder_goes. eapply goes_trans; [exact H1|].
  destruct decoded as [decoded|err]; [|by eapply decode_failed_goes].
  destruct (emit decoded r1 e) as [r2 e2] eqn:He. apply emit_goes in He; [|done].
  destruct (_ || _); [by simplify_eq|]. eapply goes_trans; [done|by eapply IH].
Qed.

Lemma observe_chunk_goes chunk r e r' e' : observe_chunk chunk r e = (r', e') → goes r r'.
Proof.
  unfold observe_chunk. intros H. destruct (past_terminal r); [simplify_eq; by apply goes_same|].
  destruct (decode_utf8 _ chunk) as [t left].
  assert (∀ s, items s = items (src r) → decoder s = decoder (src r) → goes r (set_src r s)) as Hsrc.
  { intros s E1 E2. apply goes_set_src; congruence. }
  change (sse (src (set_src r _))) with (sse (src r)) in H.
  destruct (sse (src r)) as [d|]; [|simplify_eq; by apply Hsrc].
  destruct (sse_push d t) as [[events|err] d'].
  - eapply goes_trans; [|by eapply on_events_goes]. by apply (Hsrc (set_sse (set_carry (src r) left) (Some d'))).
  - simplify_eq. eapply goes_trans; [by apply (Hsrc (set_sse (set_carry (src r) left) (Some d')))|by apply goes_same].
Qed.

Lemma finish_upstream_goes r e r' e' : finish_upstream r e = (r', e') → goes r r'.
Proof.
  unfold finish_upstream. intros H.
  assert (∀ s, items s = items (src r) → decoder s = decoder (src r) → goes r (set_src r s)) as Hsrc.
  { intros s E1 E2. apply goes_set_src; congruence. }
  destruct (past_terminal r).
  { simplify_eq. eapply goes_trans; [by apply (Hsrc (set_sse (set_carry (src r) []) None))|by apply goes_same]. }
  set (parsed := match sse (src r) with Some d => _ | None => _ end) in H. clearbody parsed.
  set (r1 := set_src r (set_sse (src r) None)) in H. assert (goes r r1) as H1 by by apply Hsrc.
  eapply goes_trans; [exact H1|]. clearbody r1.
  destruct parsed as [u|err]; [|simplify_eq; by apply goes_same].
  destruct (carry (src r1)); [|simplify_eq; by apply goes_same].
  apply goes_sound. intros (_ & Hok & _). destruct (sources_finish Hsources _ Hok) as [Hg Hd].
  destruct (finish_boxed _) as [decoded d]. cbn [fst snd] in *. set (r2 := set_src r1 _) in H.
  assert (goes r1 r2) as H2 by by apply decoder_goes. eapply goes_trans; [exact H2|].
  destruct decoded as [decoded|err]; [|simplify_eq; by apply goes_same].
  destruct (emit decoded r2 e) as [r3 e3] eqn:He. apply emit_goes in He; [|done].
  destruct (is_streaming r3); simplify_eq; [|done]. eapply goes_trans; [done|by apply goes_same].
Qed.

Lemma on_next_goes r e r' e' : on_next r e = (r', e') → goes r r'.
Proof.
  unfold on_next. intros H. destruct (next_item (items (src r))) as [[item rest]|] eqn:Hi;
    [|by eapply finish_upstream_goes].
  assert (¬ over (items (src r))) as Hno by (unfold over; by rewrite Hi).
  apply next_item_some in Hi as [-> _].
  set (r1 := set_src r (set_items (src r) (skip 1 (items (src r))))) in *.
  assert (goes r r1) as H1 by (apply goes_set_src; [by apply (sources_skip Hsources)|done]).
  destruct item as [chunk|err].
  - unfold on_chunk in H. destruct (U64_MAX <? _); [simplify_eq; eapply goes_trans; [exact H1|by apply goes_same]|].
    set (r2 := set_progress r1 _) in H. assert (goes r r2) as H2 by (eapply goes_trans; [exact H1|by apply goes_same]).
    destruct (match max_bytes _ with Some _ => _ | None => _ end);
      [simplify_eq; eapply goes_trans; [exact H2|by apply goes_same]|].
    eapply goes_trans; [|by eapply observe_chunk_goes]. eapply goes_trans; [exact H2|].
    destruct (is_passthrough r2) eqn:Hp; [|by apply goes_same].
    intros Hs. split_and!; [exact Hs|done|]. by rewrite Hp.
  - unfold on_transport_error in H. eapply goes_trans; [exact H1|].
    destruct (past_terminal r1); simplify_eq; by apply goes_same.
Qed.

Lemma poll_upstream_goes r e r' e' : poll_upstream r e = (r', e') → goes r r'.
Proof.
  unfold poll_upstream, on_elapsed. intros H. destruct (wait_deadline r) as [[d|] t]; [|by eapply on_next_goes].
  destruct (elapses (polls e)); [|by eapply on_next_goes].
  destruct (_ || _); simplify_eq; by apply goes_same.
Qed.

End Sources.

(** ** Whole streams *)

Definition settlement_jobs (core : CoreAccounting) (c : StreamContext) (record : UsageRecord) : list Job :=
  spawn_or_refuse room (Accounting.Accounting.settlement core)
    (StreamWork (Accounting.Accounting.core_budget core) (ctx_budget_key c) (ctx_reservation c)
       (Usage.Usage.settle_cost record) record) "stream settlement".

(** The relay settled, with this status, for what its accounting shows. *)
Definition ended_as (core : CoreAccounting) (c : StreamContext) (e0 : Env) (r : Relay) (e : Env)
    (status : Status) : Prop :=
  ∃ latency, jobs e = jobs e0 ++ settlement_jobs core c (settlement_record (accounting r) status latency).

Section Streams.
Context (c : StreamContext) (core : CoreAccounting) (e0 : Env) (config : RelayConfig).

(** The frames that close a stream. *)
Inductive closing (r : Relay) (e : Env) : list bytes → Prop :=
| closed_ok : ended_as core c e0 r e SOk → closing r e (option_list (framing_done (framing config)))
| closed_failed m : ended_as core c e0 r e UpstreamError →
    closing r e (framing_error (framing config) m :: option_list (framing_done (framing config))).

(** What every relay built for [c] keeps; [sent] is all that was queued. *)
Record running (sent : list bytes) (r : Relay) (e : Env) : Prop := {
  running_cfg : cfg r = config;
  running_terminal : terminal_ok (progress r);
  running_ctx : same_request (ctx (accounting r)) c;
  running_released : released e = released e0;
  running_open : phase r ≠ Ended →
    settled (accounting r) = false ∧ core_accounting (accounting r) = core ∧ jobs e = jobs e0;
  running_ended : phase r = Ended → settled (accounting r) = true ∧
    core_accounting (accounting r) = Accounting.Accounting.core_default ∧
    ∃ body tail, sent = body ++ tail ∧ closing r e tail;
}.

Lemma ctx_upto a b : same_request a b →
  ctx_budget_key a = ctx_budget_key b ∧ ctx_reservation a = ctx_reservation b ∧
  ctx_admission_permit a = ctx_admission_permit b.
Proof. unfold same_request. destruct a, b. intros H. by injection H. Qed.

Lemma settle_spec a status e a' e' :
  settle room a status e = (a', e') → settled a = false → core_accounting a = core →
  same_request (ctx a) c →
  settled a' = true ∧ core_accounting a' = Accounting.Accounting.core_default ∧ ctx a' = ctx a ∧
  released e' = released e ∧
  ∃ latency, settlement_record a' status latency = settlement_record a status latency ∧
    jobs e' = jobs e ++ settlement_jobs core c (settlement_record a' status latency).
Proof.
  unfold settle, read_clock, now. intros H Hs Hcore Hctx%ctx_upto. rewrite Hs in H. cbn in H. simplify_eq. cbn.
  split_and!; try done. eexists. split; [done|].
  destruct Hctx as (Hk & Hr & _). unfold settlement_jobs, stream_work. by rewrite Hk, Hr.
Qed.

Lemma quiet_running sent sent' r r' e e' :
  quiet r r' e e' → running sent r e → phase r ≠ Ended → running sent' r' e'.
Proof.
  intros [] [] Hne. destruct (running_open0 Hne) as (? & ? & ?).
  split; try congruence; auto.
  - intros _. split_and!; congruence.
  - intros ?%quiet_ended0. done.
Qed.

Lemma ended_running sent tail r e :
  cfg r = config → terminal_ok (progress r) → same_request (ctx (accounting r)) c → released e = released e0 →
  phase r = Ended → settled (accounting r) = true →
  core_accounting (accounting r) = Accounting.Accounting.core_default → closing r e tail →
  running (sent ++ tail) r e.
Proof. intros. split; try done. intros _. split_and!; [done..|]. by exists sent, tail. Qed.

(** One step of a body that has not ended. *)
Lemma turn_running sent r e r' e' :
  turn r e = (r', e') → running sent r e → pending r = [] → phase r ≠ Ended →
  match phase r with
  | Streaming => polled r r' e e'
  | Failed m => phase r' = Ended ∧ src r' = src r ∧ progress r' = progress r ∧
      pending r' = framing_error (framing config) m :: option_list (framing_done (framing config)) ∧
      ended_as core c e0 r' e' UpstreamError
  | Finished =>
      (phase r' = Failed STREAM_BYTES_EXCEEDED ∧ emitted r r' e e' ∧ pending r' = [] ∧
       progress r' = progress r) ∨
      (phase r' = Ended ∧ src r' = src r ∧ pending r' = option_list (framing_done (framing config)) ∧
       terminal_seen (progress r') = terminal_seen (progress r) ∧
       (∀ limit, is_passthrough r = false → rendered_byte_limit config = Some limit →
          framing config = OpenAiSse → rendered_bytes (progress r) + total (pending r') ≤ limit) ∧
       ended_as core c e0 r' e' SOk)
  | Ended => True
  end ∧ running (sent ++ pending r') r' e'.
Proof.
  intros H Hr Hp Hne. pose proof Hr as [Hc Hok Hx Hrel Ho _]. destruct (Ho Hne) as (Hs & Hcore & Hj).
  unfold turn in H. destruct (phase r) as [|m| |] eqn:Hph; [| | |done].
  - apply poll_upstream_polled in H; [|done..]. split; [done|]. destruct H as [Hq _ _ _ _ _ _].
    eapply quiet_running; [done..|congruence].
  - unfold on_failed in H. cbn in H. destruct (settle _ _ _ _) as [a e1] eqn:Hset. simplify_eq. cbn.
    rewrite Hp, Hc. apply settle_spec in Hset as (Hst & Hcd & Hcx & Hre & l & _ & Hjs); [|done..].
    set (r' := set_phase _ Ended).
    assert (ended_as core c e0 r' e' UpstreamError) as Hend by (exists l; cbn; by rewrite Hjs, Hj).
    split; [by split_and!|]. apply ended_running; try done; cbn; [by rewrite Hcx|by rewrite Hre|].
    by apply closed_failed.
  - unfold on_finished in H.
    destruct (if is_passthrough r then _ else _) as [r1|] eqn:Hres.
    2: { simplify_eq. assert (emitted r (fail_rendered_bytes r) e' e') as He by by apply emitted_none.
         split; [left; by split_and!|]. eapply quiet_running; [apply He|done|congruence]. }
    assert (∃ p, r1 = set_progress r p ∧ terminal_seen p = terminal_seen (progress r) ∧
              terminal_deadline p = terminal_deadline (progress r) ∧
              ∀ limit, is_passthrough r = false → rendered_byte_limit config = Some limit →
                framing config = OpenAiSse → rendered_bytes (progress r) + total [done_event] ≤ limit)
      as (p & -> & Hts & Htt & Hlim).
    { destruct (is_passthrough r) eqn:Hpt; [simplify_eq; exists (progress r1); split_and!; [by destruct r1|done|done|congruence]|].
      destruct (framing_done (framing (cfg r))) as [d|] eqn:Hd.
      - apply reserve_some in Hres as [-> Hl]. eexists; split_and!; [done..|].
        intros limit _ Hb Hf. rewrite Hc, Hf in Hd. cbn in Hd. injection Hd as <-. unfold total.
        cbn [concat app]. rewrite app_nil_r. by apply Hl; rewrite Hc.
      - simplify_eq. exists (progress r1). split_and!; [by destruct r1|done..|].
        intros limit _ _ Hf. by rewrite Hc, Hf in Hd. }
    cbn in H. destruct (settle _ _ _ _) as [a e1] eqn:Hset.
    apply settle_spec in Hset as (Hst & Hcd & Hcx & Hre & l & _ & Hjs); [|done..]. simplify_eq. cbn. rewrite Hp, Hc.
    cbn. set (r' := set_phase _ Ended).
    assert (ended_as core c e0 r' e' SOk) as Hend.
    { exists l. cbn. rewrite Hjs. by destruct (rotation r); cbn; rewrite Hj. }
    split.
    + right. split_and!; try done. intros limit Hpt Hb Hf. rewrite Hf. cbn. by apply Hlim.
    + apply ended_running; try done; cbn; [|by rewrite Hcx| |by apply closed_ok].
      * intros Htd. cbn. rewrite Hts. by apply Hok; rewrite <-Htt.
      * rewrite Hre. by destruct (rotation r).
Qed.

End Streams.

(** What [run] preserves, [sent] being all that was queued. *)
Lemma run_invariant (P : list bytes → Relay → Env → Prop) n got r e out r' e' :
  (∀ sent r e bs rest, P sent r e → pending r = bs :: rest → P sent (set_pending r rest) e) →
  (∀ sent r e r' e', P sent r e → pending r = [] → phase r ≠ Ended → turn r e = (r', e') →
     P (sent ++ pending r') r' e') →
  P (got ++ pending r) r e → run n r e = (out, r', e') → P (got ++ out ++ pending r') r' e'.
Proof.
  intros Hpop Hturn. revert got r e out. induction n as [|n IH]; intros got r e out HP H; simpl in H.
  { by simplify_eq. }
  unfold step in H. destruct (pending r) as [|bs rest] eqn:Hp.
  - destruct (phase r) eqn:Hph; cbn in H; try (simplify_eq; by rewrite Hp);
      destruct (turn r e) as [r1 e1] eqn:Ht;
      destruct (run n r1 e1) as [[out1 r2] e2] eqn:Hrun; simplify_eq; eapply IH; try done;
      rewrite app_nil_r in HP; eapply Hturn; congruence || done.
  - destruct (run n (set_pending r rest) e) as [[out1 r2] e2] eqn:Hrun. simplify_eq.
    replace (got ++ (option_list (Some bs) ++ out1) ++ pending r')
      with ((got ++ [bs]) ++ out1 ++ pending r') by (cbn; by rewrite <-!app_assoc).
    eapply IH; [|done]. rewrite <-app_assoc. cbn. by eapply Hpop.
Qed.

Lemma running_start c core e0 opened started f rot d limits grace :
  let r := relay_opened_with_accounting c opened started f rot core d limits grace in
  running c core e0 (cfg r) [] r e0.
Proof. split; try done. by intros []. Qed.

Lemma running_pop c core e0 config sent r e rest :
  running c core e0 config sent r e → running c core e0 config sent (set_pending r rest) e.
Proof.
  intros []. split; try done. cbn. intros H. destruct (running_ended0 H) as (? & ? & body & tail & -> & Hc).
  split_and!; [done..|]. exists body, tail. split; [done|]. destruct Hc; [by apply closed_ok|by apply closed_failed].
Qed.

Lemma running_run c core e0 opened started f rot d limits grace n out r e :
  let r0 := relay_opened_with_accounting c opened started f rot core d limits grace in
  run n r0 e0 = (out, r, e) → running c core e0 (cfg r0) (out ++ pending r) r e.
Proof.
  intros r0 H. change (out ++ pending r) with ([] ++ out ++ pending r).
  eapply (run_invariant (running c core e0 (cfg r0)) n [] r0 e0); [| |apply running_start|done].
  - intros. by apply running_pop.
  - intros sent r1 e1 r2 e2 Hr Hp Hph Ht. by eapply turn_running in Ht as [_ ?].
Qed.

Lemma drop_relay_jobs c core e0 config sent r e :
  running c core e0 config sent r e →
  ∃ status latency,
    jobs (drop_relay r e) =
      jobs e0 ++ settlement_jobs core c (settlement_record (accounting r) status latency) ∧
    (phase r ≠ Ended → status = ClientCancelled) ∧
    (phase r = Ended → (status = SOk ∨ status = UpstreamError) ∧
       jobs e = jobs e0 ++ settlement_jobs core c (settlement_record (accounting r) status latency)) ∧
    released (drop_relay r e) = released e0 ++ option_list (ctx_admission_permit c).
Proof.
  intros [Hc Hok Hx Hrel Ho He]. apply ctx_upto in Hx as Hx'. destruct Hx' as (_ & _ & Hpm).
  unfold drop_relay, drop_accounting.
  assert (phase r = Ended ∨ phase r ≠ Ended) as [Hph|Hph] by (destruct (phase r); auto).
  - destruct (He Hph) as (Hs & Hcd & body & tail & _ & Hcl). unfold settle. rewrite Hs, Hcd. cbn.
    rewrite app_nil_r, Hrel, Hpm. destruct Hcl as [[l Hl]|m [l Hl]];
      (eexists _, l; split_and!; [exact Hl|done|intros _; split; [auto|exact Hl]|done]).
  - destruct (Ho Hph) as (Hs & Hcore & Hj). destruct (settle _ _ _ _) as [a e1] eqn:Hset.
    apply (settle_spec c core) in Hset as (_ & Hcd & Hcx & Hre & l & Hrec & Hjs); [|done..].
    exists ClientCancelled, l. rewrite Hrec in Hjs. rewrite Hcd. cbn. rewrite app_nil_r, Hjs, Hj, Hre, Hrel, Hcx, Hpm.
    by split_and!.
Qed.

(** What a settlement does when it runs: one charge, then one record. *)
Definition settlement_effects (core : CoreAccounting) (c : StreamContext) (record : UsageRecord) :=
  [match Accounting.Accounting.core_budget core with
   | Some hold => Accounting.Accounting.hold_settle hold (Usage.Usage.settle_cost record)
   | None => Accounting.Accounting.Charge (ctx_budget_key c) (ctx_reservation c) (Usage.Usage.settle_cost record)
   end; Accounting.Accounting.RecordedTerminal record].

Lemma settlement_jobs_effects core c record :
  is_some (Accounting.Accounting.settlement core) || room = true →
  settlement_jobs core c record ≫= Accounting.Accounting.effects_of = settlement_effects core c record ∧
  Accounting.Accounting.slots (settlement_jobs core c record)
    = option_list (Accounting.Accounting.settlement core).
Proof.
  destruct core as [hold [t|]]; unfold settlement_jobs, settlement_effects; cbn; [|intros ->];
    destruct hold; by split.
Qed.

(** Nothing follows the end but what is queued. *)
Lemma run_ended n r e out r' e' :
  run n r e = (out, r', e') → phase r = Ended →
  out ++ pending r' = pending r ∧ accounting r' = accounting r ∧ phase r' = Ended ∧ e' = e.
Proof.
  revert r out. induction n as [|n IH]; intros r out H Hph; simpl in H; [by simplify_eq|].
  unfold step in H. destruct (pending r) as [|bs rest] eqn:Hp; [rewrite Hph in H; simplify_eq; by rewrite Hp|].
  destruct (run n _ e) as [[out1 r1] e1] eqn:Hr. simplify_eq.
  destruct (IH _ _ Hr Hph) as (Ho & Ha & He & ->). simpl in Ho. by rewrite <-Ho.
Qed.

(** The turn that ended a stream. *)
Lemma run_ends n r e out r' e' :
  run n r e = (out, r', e') → phase r ≠ Ended → phase r' = Ended →
  ∃ k sent r1 e1 r2, (k < n)%nat ∧ run k r e = (sent, r1, e1) ∧ pending r1 = [] ∧ phase r1 ≠ Ended ∧
    turn r1 e1 = (r2, e') ∧ phase r2 = Ended ∧ accounting r' = accounting r2 ∧
    out ++ pending r' = sent ++ pending r2.
Proof.
  revert r e out. induction n as [|n IH]; intros r e out H Hne Hend; simpl in H; [by simplify_eq|].
  destruct (step r e) as [[[bs r0] e0]|] eqn:Hs; [|by simplify_eq].
  destruct (run n r0 e0) as [[out0 r3] e3] eqn:Hr. simplify_eq.
  assert (phase r0 = Ended ∨ phase r0 ≠ Ended) as [Hp0|Hp0] by (destruct (phase r0); auto).
  - destruct (run_ended _ _ _ _ _ _ Hr Hp0) as (Ho & Ha & _ & ->).
    assert (pending r = [] ∧ turn r e = (r0, e0) ∧ bs = None) as (Hp & Ht & ->).
    { unfold step in Hs. destruct (pending r); [|by simplify_eq].
      destruct (phase r) eqn:Hph; try done; destruct (turn r e); by simplify_eq. }
    exists 0%nat, [], r, e, r0. split_and!; try done. lia.
  - destruct (IH _ _ _ Hr Hp0 Hend) as (k & sent & r1 & e1 & r2 & Hk & Hrun & Hp1 & Hph1 & Ht & Hp2 & Ha & Ho).
    exists (S k), (option_list bs ++ sent), r1, e1, r2. split_and!; try done; [lia|simpl; by rewrite Hs, Hrun|].
    by rewrite <-!app_assoc, Ho.
Qed.

Lemma drop_ended c core e0 config sent r e :
  running c core e0 config sent r e → phase r = Ended → jobs (drop_relay r e) = jobs e.
Proof.
  intros [_ _ _ _ _ He] Hph. destruct (He Hph) as (Hs & Hcd & _). unfold drop_relay, drop_accounting, settle.
  rewrite Hs, Hcd. cbn. by rewrite app_nil_r.
Qed.

(** The status a stream settles with in its last turn, and what it sends then: the
    phase it was in says why it ended. *)
Definition closes (f : Framing) (p : Phase) (status : Status) (tail : list bytes) : Prop :=
  match p with
  | Finished => status = SOk ∧ tail = option_list (framing_done f)
  | Failed m => status = UpstreamError ∧ tail = framing_error f m :: option_list (framing_done f)
  | Streaming | Ended => False
  end.

(** C6: However many rounds the caller reads before it goes away, the stream hands
    over one settlement, under the slot its request reserved: one charge to the
    request's hold of what the record says, and that one record.  An abandoned
    stream is recorded as [client_cancelled], and nothing is handed over before
    it is dropped.  A stream that ended was recorded in its last turn, as [ok] if
    it had finished then, with at most the closing sentinel sent after what came
    before, and as [upstream_error] if it had failed, the failure being what the
    caller is told last.  The admission permit comes back with the relay. *)
Theorem stream_settles_once c core e0 opened started f rot d limits grace n :
  let r0 := relay_opened_with_accounting c opened started f rot core d limits grace in
  let '(out, r, e) := run n r0 e0 in
  same_request (ctx (accounting r)) c ∧ released e = released e0 ∧
  released (drop_relay r e) = released e0 ++ option_list (ctx_admission_permit c) ∧
  ∃ status latency,
    let record := settlement_record (accounting r) status latency in
    jobs (drop_relay r e) = jobs e0 ++ settlement_jobs core c record ∧
    (if is_some (Accounting.Accounting.settlement core) || room then
       settlement_jobs core c record ≫= Accounting.Accounting.effects_of = settlement_effects core c record ∧
       Accounting.Accounting.slots (settlement_jobs core c record)
         = option_list (Accounting.Accounting.settlement core)
     else Accounting.Accounting.refusals (settlement_jobs core c record) = "stream settlement"%string ::
            option_list ((λ _, "zero-charge budget release"%string) <$> Accounting.Accounting.core_budget core)) ∧
    match phase r with
    | Ended => jobs e = jobs (drop_relay r e) ∧
        ∃ k sent r1 e1, (k < n)%nat ∧ run k r0 e0 = (sent, r1, e1) ∧ pending r1 = [] ∧ jobs e1 = jobs e0 ∧
          phase (turn r1 e1).1 = Ended ∧
          ∃ tail, out ++ pending r = sent ++ tail ∧ closes f (phase r1) status tail
    | _ => status = ClientCancelled ∧ jobs e = jobs e0
    end.
Proof.
  cbv zeta. set (r0 := relay_opened_with_accounting _ _ _ _ _ _ _ _ _).
  destruct (run n r0 e0) as [[out r] e] eqn:Hrun. apply (running_run c core) in Hrun as Hr.
  pose proof (drop_relay_jobs _ _ _ _ _ _ _ Hr) as (status & l & Hj & Hopen & Hend & Hrel).
  split_and!; [apply Hr..|done|].
  assert (∀ record : UsageRecord, if is_some (Accounting.Accounting.settlement core) || room then
       settlement_jobs core c record ≫= Accounting.Accounting.effects_of = settlement_effects core c record ∧
       Accounting.Accounting.slots (settlement_jobs core c record)
         = option_list (Accounting.Accounting.settlement core)
     else Accounting.Accounting.refusals (settlement_jobs core c record) = "stream settlement"%string ::
            option_list ((λ _, "zero-charge budget release"%string) <$> Accounting.Accounting.core_budget core)) as Heff.
  { intros record. destruct (_ || room) eqn:Hroom; [by apply settlement_jobs_effects|].
    destruct core as [[hold|] [t|]]; cbn in Hroom; try done; unfold settlement_jobs; cbn; by rewrite Hroom. }
  assert (phase r = Ended ∨ phase r ≠ Ended) as [Hph|Hph] by (destruct (phase r); auto).
  2:{ exists status, l. split_and!; [done|apply Heff|]. pose proof (running_open _ _ _ _ _ _ _ Hr Hph) as (_ & _ & Hj0).
      destruct (phase r); (split; [by apply Hopen|done]) || done. }
  apply run_ends in Hrun as (k & sent & r1 & e1 & r2 & Hk & Hrun & Hp1 & Hph1 & Ht & Hph2 & Ha & Hout); [|done..].
  apply (running_run c core) in Hrun as Hr1. rewrite Hp1, app_nil_r in Hr1.
  pose proof (running_open _ _ _ _ _ _ _ Hr1 Hph1) as (_ & _ & Hj1).
  destruct (turn_running c core e0 (cfg r0) sent r1 e1 r2 e) as [Hs Hr2]; [done..|].
  assert (∃ status latency, jobs e = jobs e0 ++ settlement_jobs core c (settlement_record (accounting r) status latency) ∧
            closes f (phase r1) status (pending r2)) as (st & lat & Hje & Hcl).
  { unfold closes. rewrite Ha. destruct (phase r1) as [|m| |] eqn:Hphr1.
    - apply (quiet_ended _ _ _ _ (polled_quiet _ _ _ _ Hs)) in Hph2. congruence.
    - destruct Hs as (_ & _ & _ & -> & [lat Hl]). by exists UpstreamError, lat.
    - destruct Hs as [(Hf & _)|(_ & _ & -> & _ & _ & [lat Hl])]; [congruence|]. by exists SOk, lat.
    - done. }
  pose proof (drop_ended _ _ _ _ _ _ _ Hr Hph) as Hd. exists st, lat. rewrite Hd, Hph. split_and!; [done|apply Heff|done|].
  exists k, sent, r1, e1. rewrite Ht. split_and!; try done. by exists (pending r2).
Qed.

(** ** Byte-faithful delivery *)

Section Faithful.
Context (c : StreamContext) (core : CoreAccounting) (e0 : Env) (config : RelayConfig)
  (upstream : ByteStream).
Hypothesis Hdelivery : delivery config = Passthrough.
Hypothesis Hframing : framing config ≠ OpenAiSse.

Lemma native_done : framing_done (framing config) = None.
Proof. by destruct (framing config). Qed.

(** How a byte-faithful stream ended: as the provider ended it, or with one error
    event after it. *)
Definition ended_faithfully (r : Relay) (e : Env) (rest : ByteStream) (tail : list bytes) : Prop :=
  (tail = [] ∧ ended_as core c e0 r e SOk ∧ (over rest ∨ terminal_seen (progress r) = true)) ∨
  (∃ m, tail = [framing_error (framing config) m] ∧ ended_as core c e0 r e UpstreamError).

Definition forwarded (sent : list bytes) (r : Relay) (e : Env) : Prop :=
  ∃ body tail, sent = body ++ tail ∧ starts upstream body ∧
    (∀ limit, max_bytes config = Some limit → total body ≤ Z.max 0 limit) ∧
    match phase r with
    | Streaming => tail = [] ∧ items (src r) = skip (length body) upstream ∧ relayed_bytes (progress r) = total body
    | Failed _ => tail = []
    | Finished => tail = [] ∧ (over (skip (length body) upstream) ∨ terminal_seen (progress r) = true)
    | Ended => ended_faithfully r e (skip (length body) upstream) tail
    end.

Lemma polled_forwarded sent r e r' e' :
  polled r r' e e' → phase r = Streaming → pending r = [] → cfg r = config →
  forwarded sent r e → forwarded (sent ++ pending r') r' e'.
Proof.
  intros Hpol Hph Hp Hc (body & tail & -> & Hup & Hmax & Hst). rewrite Hph in Hst.
  destruct Hst as (-> & Hi & Hrel). rewrite app_nil_r.
  assert (is_passthrough r = true) as Hpt by (unfold is_passthrough; by rewrite Hc, Hdelivery).
  destruct (polled_passthrough _ _ _ _ Hpol Hpt) as (s & Hi' & Hp' & Hrel' & Hst' & Hfin);
    [by rewrite Hc|].
  rewrite Hp in Hp'. cbn in Hp'. rewrite Hp'. exists (body ++ s), [].
  rewrite Hi in Hi'. assert (quiet r r' e e') as Hq by apply Hpol.
  rewrite app_nil_r. split_and!; [done| | |].
  - by apply starts_app.
  - intros limit Hl. destruct (decide (s = [])) as [->|Hs]; [rewrite app_nil_r; auto|].
    destruct (Hrel' Hs) as [Hr Hlim]. rewrite Hc in Hlim. specialize (Hlim limit Hl).
    rewrite total_app. lia.
  - destruct (phase r') eqn:Hph'; try done.
    + assert (is_streaming r' = true) as Hs by (unfold is_streaming; by rewrite Hph').
      destruct (Hst' Hs) as [Hi2 Hs']. split_and!; [done|by rewrite Hi2, Hi, skip_skip, length_app|]. rewrite total_app.
      destruct (Hrel' Hs'). lia.
    + split; [done|]. destruct (Hfin eq_refl) as [Hnil|Hpast].
      * left. rewrite Hi in Hnil. unfold over, next_item in *. cbn in *. destruct s as [|ch s].
        -- by rewrite app_nil_r.
        -- specialize (Hi' 0%nat ch eq_refl). cbn in Hi'. rewrite Nat.add_0_r in Hi'. by rewrite Hi' in Hnil.
      * right. apply (polled_terminal _ _ _ _ Hpol). by apply andb_true_iff in Hpast as [_ ?].
    + exfalso. apply (quiet_ended _ _ _ _ Hq) in Hph'. congruence.
Qed.

Lemma turn_forwarded sent r e r' e' :
  turn r e = (r', e') → running c core e0 config sent r e → pending r = [] → phase r ≠ Ended →
  forwarded sent r e → forwarded (sent ++ pending r') r' e'.
Proof.
  intros Ht Hr Hp Hph Hf. apply (turn_running c core e0 config sent) in Ht as [Hs _]; [|done..].
  assert (cfg r = config) as Hc by apply Hr.
  destruct (phase r) as [|m| |] eqn:Hphr; [by eapply polled_forwarded| | |done];
    destruct Hf as (body & tail & -> & Hup & Hmax & Hst); rewrite Hphr in Hst.
  - destruct Hs as (Hph' & _ & _ & -> & Hend). rewrite Hst, app_nil_r, native_done.
    eexists body, _. split_and!; [done..|]. rewrite Hph'. right. eauto.
  - destruct Hst as [-> Hst]. rewrite app_nil_r.
    destruct Hs as [(Hph' & _ & -> & _)|(Hph' & _ & -> & Hts & _ & Hend)].
    + exists body, []. rewrite Hph'. by rewrite app_nil_r.
    + rewrite native_done. cbn. exists body, []. rewrite Hph', app_nil_r.
      split_and!; [done..|]. left. rewrite Hts. by split_and!.
Qed.

End Faithful.

(** C7: A byte-faithful stream forwards the provider's chunks in order, none altered,
    dropped or added, within the byte limit.  It ends as the provider ended it,
    or when the provider's terminal event was seen, and settles as [ok]; or it
    ends with a single error event and settles as [upstream_error]. *)
Theorem passthrough_faithful c core e0 opened started f rot limits grace n :
  f ≠ OpenAiSse →
  let r0 := relay_opened_with_accounting c opened started f rot core Passthrough limits grace in
  let '(out, r, e) := run n r0 e0 in
  ∃ body tail, out ++ pending r = body ++ tail ∧ starts (stream_items opened) body ∧
    (∀ limit, Admission.max_stream_bytes limits = Some limit → total body ≤ Z.max 0 limit) ∧
    match phase r with
    | Ended => ended_faithfully c core e0 (cfg r0) r e (skip (length body) (stream_items opened)) tail
    | _ => tail = []
    end.
Proof.
  intros Hf. cbv zeta. set (r0 := relay_opened_with_accounting _ _ _ _ _ _ _ _ _).
  destruct (run n r0 e0) as [[out r] e] eqn:Hrun.
  assert (running c core e0 (cfg r0) (out ++ pending r) r e ∧
          forwarded c core e0 (cfg r0) (stream_items opened) (out ++ pending r) r e)
    as [_ (body & tail & Hs & Hup & Hmax & Hst)].
  { change (out ++ pending r) with ([] ++ out ++ pending r).
    eapply (run_invariant (λ sent r e, running c core e0 (cfg r0) sent r e ∧
              forwarded c core e0 (cfg r0) (stream_items opened) sent r e) n [] r0 e0); [| | |done].
    - intros sent r1 e1 bs rest [Hr Hfw] _. split; [by apply running_pop|]. exact Hfw.
    - intros sent r1 e1 r2 e2 [Hr Hfw] Hp Hph Ht. split; [by eapply turn_running in Ht as [_ ?]|].
      by eapply turn_forwarded.
    - split; [apply running_start|]. exists [], [].
      split_and!; [done|apply starts_nil|intros; unfold total; simpl; lia|cbn; by rewrite skip_0]. }
  exists body, tail. split_and!; [done..|]. by destruct (phase r); destruct_and?.
Qed.

(** ** Re-emission *)

Section Reemission.
Context (c : StreamContext) (core : CoreAccounting) (e0 : Env) (config : RelayConfig)
  (content : option string * Value → Prop) (decoder_ok : BoxedDecoder → Prop).
Hypothesis Hdelivery : delivery config = Reemit.
Hypothesis Hframing : framing config = OpenAiSse.
Hypothesis Hsources : sources content decoder_ok (λ _, True).

(** Closed by the sentinel, alone or after one error event. *)
Definition ended_with_done (r : Relay) (e : Env) (body tail : list bytes) : Prop :=
  (tail = [done_event] ∧ ended_as core c e0 r e SOk ∧
   ∀ limit, rendered_byte_limit config = Some limit → total (body ++ tail) ≤ limit) ∨
  (∃ m, tail = [error_event m; done_event] ∧ ended_as core c e0 r e UpstreamError).

Definition reemitted (sent : list bytes) (r : Relay) (e : Env) : Prop :=
  ∃ ds tail, sent = frames ds ++ tail ∧ Forall content ds ∧
    (∀ limit, rendered_byte_limit config = Some limit → 0 ≤ limit → total (frames ds) ≤ limit) ∧
    match phase r with
    | Ended => ended_with_done r e (frames ds) tail
    | _ => tail = [] ∧ rendered_bytes (progress r) = total (frames ds) ∧
           (queued_downstream (progress r) = false → ds = []) ∧
           (phase r = Streaming → sound decoder_ok (λ _, True) r)
    end.

Lemma frames_nil ds : frames ds = [] → ds = [].
Proof. by destruct ds. Qed.

Lemma turn_reemitted sent r e r' e' :
  turn r e = (r', e') → running c core e0 config sent r e → pending r = [] → phase r ≠ Ended →
  reemitted sent r e → reemitted (sent ++ pending r') r' e'.
Proof.
  intros Ht Hr Hp Hph (ds & tail & -> & Hds & Hmax & Hst).
  assert (cfg r = config) as Hc by apply Hr.
  assert (is_passthrough r = false) as Hpt by (unfold is_passthrough; by rewrite Hc, Hdelivery).
  assert (tail = [] ∧ rendered_bytes (progress r) = total (frames ds) ∧
    (queued_downstream (progress r) = false → ds = []) ∧ (phase r = Streaming → sound decoder_ok (λ _, True) r))
    as (-> & Hren & Hq & Hsound) by by destruct (phase r).
  destruct (turn_running c core e0 config (frames ds ++ []) r e r' e') as [Hs _]; [done..|].
  rewrite app_nil_r. clear Hst. destruct (phase r) as [|m| |] eqn:Hphr; [| | |done].
  - pose proof (polled_reemit _ _ _ _ Hs Hpt) as (out & Hp' & Hren' & Hq').
    unfold turn in Ht. rewrite Hphr in Ht. apply (poll_upstream_goes content decoder_ok (λ _, True) Hsources) in Ht.
    destruct (Ht (Hsound eq_refl)) as (Hs1 & _ & Hgo). destruct (Hgo Hpt) as (ds' & Hp2 & Hds').
    rewrite Hp in Hp', Hp2. cbn in Hp', Hp2. rewrite Hp2 in Hp'. rewrite Hp2. subst out.
    exists (ds ++ ds'), []. rewrite frames_app.
    assert (rendered_bytes (progress r') = total (frames ds ++ frames ds')) as Ht' by (rewrite total_app; lia).
    rewrite app_nil_r. split_and!; [done|by apply Forall_app| |].
    + intros limit Hl H0. rewrite <-Ht'. apply (polled_limit _ _ _ _ Hs); [by rewrite Hc|].
      rewrite Hren. by apply Hmax.
    + assert (phase r' ≠ Ended) as Hne.
      { intros H. apply (quiet_ended _ _ _ _ (polled_quiet _ _ _ _ Hs)) in H. congruence. }
      assert (queued_downstream (progress r') = false → ds ++ ds' = []) as Hq2.
      { intros [H Hn]%Hq'. apply frames_nil in Hn as ->. by rewrite (Hq H). }
      destruct (phase r'); done.
  - destruct Hs as (Hph' & _ & _ & -> & Hend). rewrite Hframing in *.
    eexists ds, _. split_and!; [done..|]. rewrite Hph'. right. by exists m.
  - destruct Hs as [(Hph' & _ & -> & Hpr)|(Hph' & _ & -> & _ & Hlim & Hend)]; eexists ds, _;
      (split_and!; [done..|]); rewrite Hph'.
    + by rewrite Hpr.
    + left. rewrite Hframing in *. split_and!; [done..|]. intros limit Hl. rewrite total_app. cbn.
      rewrite <-Hren. by apply Hlim.
Qed.

End Reemission.

(** Content whose name is one line other than [error] and whose data is not the
    sentinel's. *)
Definition plain (d : option string * Value) : Prop :=
  (∀ name, d.1 = Some name → LF ∉ b name ∧ name ≠ "error"%string) ∧ b (to_string d.2) ≠ b "[DONE]".

Lemma cons_head (a a' : ascii) l l' : a :: l = a' :: l' → a = a'.
Proof. by intros [= -> _]. Qed.

(** The frame of plain content is neither the sentinel nor an error event. *)
Lemma plain_frame d : plain d → uncurry data_event d ≠ done_event ∧ ∀ m, uncurry data_event d ≠ error_event m.
Proof.
  destruct d as [[name|] data]; intros [Hn Hd]; cbn [fst snd uncurry data_event] in *; split.
  - intros H. by apply cons_head in H.
  - intros m H. destruct (Hn name eq_refl) as [Hlf Hne]. unfold error_event, error_frame in H.
    change (b "event: error") with (b "event: " ++ b "error") in H. rewrite <-!app_assoc in H. apply app_inv_head in H.
    assert (∀ x y s t, LF ∉ x → LF ∉ y → x ++ [LF] ++ s = y ++ [LF] ++ t → x = y) as Hline.
    { clear. induction x as [|a x IH]; intros [|a' y] s t Hx Hy H; [done| | |].
      - injection H as <- _. by destruct Hy; left.
      - injection H as -> _. by destruct Hx; left.
      - injection H as -> H. f_equal. eapply IH; [..|exact H]; [intros Hin; apply Hx; by right|intros Hin; apply Hy; by right]. }
    apply Hline in H; [|done|by vm_compute; set_solver]. apply Hne. by rewrite <-(text_b name), H.
  - intros H. unfold done_event, frame in H. apply app_inv_head in H. by apply app_inv_tail in H.
  - intros m H. by apply cons_head in H.
Qed.

(** A decoder of Anthropic streams, of which every frame is plain. *)
Definition anthropic_decoder {C : Anthropic.Anthropic.ThinkingCodec} (d : BoxedDecoder) : Prop :=
  ∃ s, d = mkBoxed _ Anthropic.Anthropic.AnthropicStreamDecoder_impl s.

Lemma unnamed_data events name data :
  Forall Anthropic.Anthropic.unnamed events → Data name data ∈ events → name = None.
Proof. intros H Hin. apply (proj1 (list.Forall_forall _ _) H) in Hin. by destruct name. Qed.

Lemma anthropic_sources {C : Anthropic.Anthropic.ThinkingCodec} :
  sources (λ d, d.1 = None) anthropic_decoder (λ _, True).
Proof.
  split; [..|done|done].
  - intros d ev [s ->]. unfold decode_boxed. cbn [decoder_state decoder_impl Provider.Provider.decoder].
    destruct (decode s ev) as [out s'] eqn:Hd.
    split; [|by exists s']. intros events name data Ho Hin. cbn in Ho. subst out.
    eapply unnamed_data; [|done]. exact (Anthropic.Anthropic.decode_unnamed _ _ _ _ Hd).
  - intros d [s ->]. unfold finish_boxed. cbn [decoder_state decoder_impl Provider.Provider.decoder].
    destruct (finish s) as [out s'] eqn:Hd.
    split; [|by exists s']. intros events name data Ho Hin. cbn in Ho. subst out.
    eapply unnamed_data; [|done]. exact (Anthropic.Anthropic.finish_unnamed _ _ _ Hd).
Qed.

(** C11: What the caller of a re-emitted stream receives is a frame for each piece of
    content the decoders gave, then the end: the closing sentinel, alone or after
    one error event.  It stays within the byte limit, the sentinel of an [ok]
    stream included; a relay that says it queued nothing has sent nothing; and
    whatever holds of all the content the decoders of the streams it reads give
    holds of all it sends.  The frame of an event that is not named [error] and
    whose data is not the sentinel's is neither a sentinel nor an error event, so
    of such decoders each comes once at most, and last. *)
Theorem reemission_bounded (content : option string * Value → Prop) (decoder_ok : BoxedDecoder → Prop)
    c core e0 opened started rot limits grace n :
  sources content decoder_ok (λ _, True) → decoder_ok (stream_decoder opened) → reopens decoder_ok (λ _, True) rot →
  let r0 := relay_opened_with_accounting c opened started OpenAiSse rot core Reemit limits grace in
  let '(out, r, e) := run n r0 e0 in
  ∃ ds tail, out ++ pending r = frames ds ++ tail ∧ Forall content ds ∧
    (∀ limit, Admission.max_stream_bytes limits = Some limit → 0 ≤ limit → total (frames ds) ≤ limit) ∧
    ((∀ d, content d → plain d) → done_event ∉ frames ds ∧ ∀ m, error_event m ∉ frames ds) ∧
    match phase r with
    | Ended => ended_with_done c core e0 (cfg r0) r e (frames ds) tail
    | _ => tail = [] ∧ (queued_downstream (progress r) = false → ds = [])
    end.
Proof.
  intros Hsrc Hdec Hrot. cbv zeta. set (r0 := relay_opened_with_accounting _ _ _ _ _ _ _ _ _).
  destruct (run n r0 e0) as [[out r] e] eqn:Hrun.
  assert (running c core e0 (cfg r0) (out ++ pending r) r e ∧
          reemitted c core e0 (cfg r0) content decoder_ok (out ++ pending r) r e)
    as [_ (ds & tail & Hs & Hds & Hmax & Hst)].
  { change (out ++ pending r) with ([] ++ out ++ pending r).
    eapply (run_invariant (λ sent r e, running c core e0 (cfg r0) sent r e ∧
              reemitted c core e0 (cfg r0) content decoder_ok sent r e) n [] r0 e0); [| | |done].
    - intros sent r1 e1 bs rest [Hr Hfw] _. split; [by apply running_pop|]. exact Hfw.
    - intros sent r1 e1 r2 e2 [Hr Hfw] Hp Hph Ht. split; [by eapply turn_running in Ht as [_ ?]|].
      by eapply turn_reemitted.
    - split; [apply running_start|]. exists [], []. split_and!; [done|done|intros; unfold total; simpl; lia|].
      cbn. by split_and!. }
  exists ds, tail. split_and!; [done..| |by destruct (phase r); destruct_and?].
  intros Hplain. assert (∀ f, f ∈ frames ds → f ≠ done_event ∧ ∀ m, f ≠ error_event m) as Hf.
  { intros f (d & -> & Hin)%list_elem_of_fmap. apply plain_frame, Hplain.
    by apply (proj1 (list.Forall_forall _ _) Hds). }
  split; [intros Hin; by apply Hf in Hin as [? _]|intros m Hin; exact (proj2 (Hf _ Hin) m eq_refl)].
Qed.

(** ** Termination and commitment *)

Definition ends (r : Relay) (e : Env) : Prop :=
  ∃ n out r' e', run n r e = (out, r', e') ∧ step r' e' = None.

Lemma ends_step bs r e r1 e1 : step r e = Some (bs, r1, e1) → ends r1 e1 → ends r e.
Proof.
  intros Hs (n & out & r' & e' & Hr & Hn). exists (S n), (option_list bs ++ out), r', e'.
  split; [|done]. simpl. by rewrite Hs, Hr.
Qed.

Lemma ends_pending r e : ends (set_pending r []) e → ends r e.
Proof.
  remember (pending r) as p eqn:Hp. revert r Hp. induction p as [|bs rest IH]; intros r Hp H.
  - replace r with (set_pending r []); [done|]. destruct r; cbn in *. by subst.
  - eapply (ends_step (Some bs) _ _ (set_pending r rest)); [unfold step; by rewrite <-Hp|].
    by apply IH.
Qed.

Lemma ends_turn r e r1 e1 : phase r ≠ Ended → turn (set_pending r []) e = (r1, e1) → ends r1 e1 → ends r e.
Proof.
  intros Hph Ht H. apply ends_pending. eapply (ends_step None _ _ r1 e1); [|done].
  unfold step. cbn [pending phase set_pending]. destruct (phase r); by rewrite ?Ht.
Qed.

Lemma ends_ended r e : phase r = Ended → ends r e.
Proof.
  intros Hph. apply ends_pending. exists O, [], (set_pending r []), e. split; [done|].
  unfold step. cbn. by rewrite Hph.
Qed.

Lemma ends_failed r e m : phase r = Failed m → ends r e.
Proof.
  intros Hph. destruct (turn (set_pending r []) e) as [r1 e1] eqn:Ht.
  eapply ends_turn; [congruence|done|]. apply ends_ended. unfold turn in Ht. cbn in Ht. rewrite Hph in Ht.
  unfold on_failed in Ht. cbn in Ht. destruct (settle _ _ _ _). by simplify_eq.
Qed.

Lemma ends_closed r e : phase r ≠ Streaming → ends r e.
Proof.
  intros Hph. destruct (phase r) as [|m| |] eqn:Hr; [done|by eapply ends_failed| |by apply ends_ended].
  destruct (turn (set_pending r []) e) as [r1 e1] eqn:Ht.
  eapply ends_turn; [congruence|done|]. unfold turn in Ht. cbn in Ht. rewrite Hr in Ht.
  unfold on_finished in Ht. destruct (if is_passthrough _ then _ else _) as [r2|].
  - cbn in Ht. destruct (settle _ _ _ _). simplify_eq. by apply ends_ended.
  - simplify_eq. by eapply ends_failed.
Qed.

(** An upstream that ends, or breaks off. *)
Definition runs_out (s : ByteStream) : Prop := ∃ n, over (skip n s).

Lemma runs_out_sources : sources (λ _, True) (λ _, True) runs_out.
Proof.
  split; try done.
  - intros s Hs [[|n] Hn]; [by rewrite skip_0 in Hn|]. exists n. by rewrite skip_skip.
  - by exists 0%nat.
Qed.

Lemma ends_supplied L k r e :
  (leases_left r ≤ L)%nat → over (skip k (items (src r))) → sound (λ _, True) runs_out r →
  terminal_ok (progress r) → ends r e.
Proof.
  revert k r e. induction L as [L IHL] using lt_wf_ind. induction k as [k IHk] using lt_wf_ind.
  intros r e HL Hk Hs Hok.
  assert (phase r = Streaming ∨ phase r ≠ Streaming) as [Hph|Hph]
    by (destruct (phase r); auto); [|by apply ends_closed].
  destruct (turn (set_pending r []) e) as [r1 e1] eqn:Ht.
  eapply ends_turn; [congruence|done|]. unfold turn in Ht. cbn in Ht. rewrite Hph in Ht.
  apply (poll_upstream_goes _ _ _ runs_out_sources) in Ht as Hgo. destruct (Hgo Hs) as (Hs1 & _ & _).
  apply poll_upstream_polled in Ht; [|done..].
  assert (terminal_ok (progress r1)) as Hok1 by by apply (quiet_terminal _ _ _ _ (polled_quiet _ _ _ _ Ht)).
  pose proof (polled_progress _ _ _ _ Ht) as Hp.
  change (leases_left (set_pending r [])) with (leases_left r) in Hp.
  change (items (src (set_pending r []))) with (items (src r)) in Hp.
  destruct Hp as [Hp|[(Hp & Hno & Hi)|[_ Hs']]].
  - destruct (proj1 Hs1) as [k1 Hk1]. by eapply (IHL (leases_left r1)); [lia|..].
  - destruct k as [|k]; [by rewrite skip_0 in Hk|]. eapply (IHk k); [lia|lia| |done..].
    by rewrite Hi, skip_skip.
  - apply ends_closed. intros H. unfold is_streaming in Hs'. by rewrite H in Hs'.
Qed.

(** Under a deadline every wait is a bounded one, and the first to outlast its
    deadline is the last. *)
Lemma ends_timely m r e :
  is_Some (deadline (cfg r)) → elapses m = true → (polls e ≤ m)%nat → terminal_ok (progress r) → ends r e.
Proof.
  intros Hd Hm. remember (m - polls e)%nat as k eqn:Hk. revert r e Hk Hd.
  induction k as [k IH] using lt_wf_ind. intros r e Hk Hd Hle Hok.
  assert (phase r = Streaming ∨ phase r ≠ Streaming) as [Hph|Hph]
    by (destruct (phase r); auto); [|by apply ends_closed].
  destruct (turn (set_pending r []) e) as [r1 e1] eqn:Ht.
  eapply ends_turn; [congruence|done|]. unfold turn in Ht. cbn in Ht. rewrite Hph in Ht.
  apply poll_upstream_polled in Ht as Hpol; [|done..]. destruct (polled_quiet _ _ _ _ Hpol) as [Hc _ _ _ _ _ _ _ Hok1].
  unfold poll_upstream in Ht.
  assert (∃ d, (wait_deadline (set_pending r [])).1 = Some d) as [d Hw].
  { destruct Hd as [total Hd]. unfold wait_deadline. cbn. rewrite Hd. destruct (terminal_deadline _); [|by eexists].
    destruct (_ <=? total); cbn; by eexists. }
  destruct (wait_deadline (set_pending r [])) as [w t]. cbn in Hw. subst w.
  destruct (elapses (polls e)) eqn:He.
  - simplify_eq. apply ends_closed. unfold on_elapsed. by destruct (_ || _).
  - apply on_next_polls in Ht; [|done]. cbn in Ht.
    assert (polls e ≠ m) by congruence. eapply (IH (m - polls e1)%nat); [lia|done|by rewrite Hc|lia|by apply Hok1].
Qed.

Lemma next_chunk_run n r e out r' e' :
  run n r e = (out, r', e') → step r' e' = None → is_Some (next_chunk (S n) r e).
Proof.
  revert r e out. induction n as [|n IH]; intros r e out Hr Hn; simpl in Hr.
  - simplify_eq. simpl. by rewrite Hn.
  - cbn [next_chunk]. destruct (step r e) as [[[[bs|] r1] e1]|] eqn:Hs; [eauto| |eauto].
    destruct (run n r1 e1) as [[out1 r2] e2] eqn:Hr1. simplify_eq. by eapply IH.
Qed.

Lemma settle_ctx a status e a' e' : settle room a status e = (a', e') → ctx a' = ctx a.
Proof.
  unfold settle, read_clock, now. destruct (settled a); [by intros; simplify_eq|].
  destruct (take_settlement _). by intros; simplify_eq.
Qed.

Lemma turn_closing r e r' e' :
  turn r e = (r', e') → phase r ≠ Streaming → phase r ≠ Ended →
  (phase r' = Ended ∨ r' = fail_rendered_bytes r) ∧ ctx (accounting r') = ctx (accounting r) ∧
  leases_left r' = leases_left r ∧ (terminal_ok (progress r) → terminal_ok (progress r')).
Proof.
  intros Ht Hs He. unfold turn in Ht. destruct (phase r) as [|m| |] eqn:Hph; [done| | |done].
  - unfold on_failed in Ht. cbn in Ht. destruct (settle _ _ _ _) eqn:Hset. apply settle_ctx in Hset. simplify_eq.
    split_and!; [by left|done..].
  - unfold on_finished in Ht. destruct (if is_passthrough r then _ else _) as [r1|] eqn:Hr.
    2: { simplify_eq. split_and!; [by right|done..]. }
    assert (accounting r1 = accounting r ∧ rotation r1 = rotation r ∧
            (terminal_ok (progress r) → terminal_ok (progress r1))) as (Ha & Hro & Ho).
    { destruct (is_passthrough r); [by injection Hr as <-|].
      destruct (framing_done _); [by apply reserve_some in Hr as [-> _]|by injection Hr as <-]. }
    cbn in Ht. destruct (settle _ _ _ _) eqn:Hset. apply settle_ctx in Hset. simplify_eq. cbn in *.
    unfold leases_left. cbn. rewrite Hro, Hset, Ha. split_and!; [by left|done..].
Qed.

Lemma turn_terminal_ok r e r' e' : turn r e = (r', e') → terminal_ok (progress r) → terminal_ok (progress r').
Proof.
  intros Ht Hok. destruct (phase r) as [|m| |] eqn:Hph.
  - unfold turn in Ht. rewrite Hph in Ht. apply poll_upstream_polled in Ht; [|done..].
    by apply (quiet_terminal _ _ _ _ (polled_quiet _ _ _ _ Ht)).
  - apply turn_closing in Ht as (_ & _ & _ & Ho); [auto|congruence..].
  - apply turn_closing in Ht as (_ & _ & _ & Ho); [auto|congruence..].
  - unfold turn in Ht. rewrite Hph in Ht. by simplify_eq.
Qed.

(** What bounds a stream in time: a maximum duration, and waits for a chunk some of
    which, however many were in time, outlast the deadline set for them; or an
    upstream that ends, and whose replacements end. *)
Definition in_bounded_time (limits : Admission.AdmissionLimits) : Prop :=
  is_Some (Admission.max_stream_duration limits) ∧ ∀ n, ∃ m, (n ≤ m)%nat ∧ elapses m = true.

Definition supply_ends (opened : OpenedStream) (rot : option RotationHandle) : Prop :=
  runs_out (stream_items opened) ∧ reopens (λ _, True) runs_out rot.

(** C9: A relay ends when it is bounded.  With a maximum stream duration it ends
    whatever the upstream sends, were it keepalives for ever, and however its
    reopenings answer, as soon as a wait outlasts the deadline; without one, it
    ends when its upstreams do.  The body is then complete after finitely many
    rounds, and every call for the next chunk made on the way returns. *)
Theorem stream_terminates c core e0 opened started f rot d limits grace :
  in_bounded_time limits ∨ supply_ends opened rot →
  let r0 := relay_opened_with_accounting c opened started f rot core d limits grace in
  (∃ n out r e, run n r0 e0 = (out, r, e) ∧ phase r = Ended ∧ pending r = []) ∧
  ∀ n, let '(_, r, e) := run n r0 e0 in ∃ fuel, is_Some (next_chunk fuel r e).
Proof.
  intros Hb. cbv zeta. set (r0 := relay_opened_with_accounting _ _ _ _ _ _ _ _ _).
  assert (∀ n out r e, run n r0 e0 = (out, r, e) → ends r e) as Hends.
  { intros n out r e Hr. apply (running_run c core) in Hr as Hrun. destruct Hrun as [Hc Hok _ _ _ _].
    destruct Hb as [[[budget Hbud] Htime]|[Hout Hrot]].
    - destruct (Htime (polls e)) as (m & Hle & Hm). eapply ends_timely; [|done..].
      rewrite Hc. cbn. rewrite Hbud. by eexists.
    - assert (phase r = Streaming → sound (λ _, True) runs_out r) as Hs.
      { eapply (run_invariant (λ _ r _, terminal_ok (progress r) ∧ (phase r = Streaming → sound (λ _, True) runs_out r))
                  n [] r0 e0); [| | |done].
        - done.
        - intros sent r1 e1 r2 e2 [Hok1 Hs1] Hp Hph Ht. split.
          + by eapply turn_terminal_ok.
          + intros Hph2. assert (phase r1 = Streaming ∨ phase r1 ≠ Streaming) as [Hph1|Hph1] by (destruct (phase r1); auto).
            * unfold turn in Ht. rewrite Hph1 in Ht.
              by apply (poll_upstream_goes _ _ _ runs_out_sources) in Ht; apply Ht, Hs1.
            * apply turn_closing in Ht as ([He| ->] & _); [congruence|done..].
        - split; [by intros []|]. intros _. by split_and!. }
      assert (phase r = Streaming ∨ phase r ≠ Streaming) as [Hph|Hph] by (destruct (phase r); auto); [|by apply ends_closed].
      specialize (Hs Hph). destruct (proj1 Hs) as [k Hk]. by eapply ends_supplied. }
  split.
  - destruct (Hends 0%nat [] r0 e0 eq_refl) as (n & out & r & e & Hr & Hn).
    exists n, out, r, e. split; [done|]. unfold step in Hn.
    destruct (pending r); [|done]. split; [|done]. destruct (phase r); [| | |done]; by destruct (turn r e).
  - intros n. destruct (run n r0 e0) as [[out r] e] eqn:Hr.
    destruct (Hends n out r e Hr) as (m & out' & r' & e' & Hm & Hs).
    exists (S m). by eapply next_chunk_run.
Qed.

(** Nothing is sent before it is recorded as queued. *)
Definition recorded (sent : list bytes) (r : Relay) : Prop :=
  terminal_ok (progress r) ∧ (phase r ≠ Ended → queued_downstream (progress r) = false → sent = []).

Lemma turn_recorded sent r e r' e' :
  recorded sent r → pending r = [] → phase r ≠ Ended → turn r e = (r', e') →
  recorded (sent ++ pending r') r'.
Proof.
  intros [Hok Hq] Hp Hph Ht. specialize (Hq Hph).
  assert (phase r = Streaming ∨ phase r ≠ Streaming) as [Hs|Hs] by (destruct (phase r); auto).
  - unfold turn in Ht. rewrite Hs in Ht. apply poll_upstream_polled in Ht; [|done..]. split.
    + by apply (quiet_terminal _ _ _ _ (polled_quiet _ _ _ _ Ht)).
    + intros _ [Hq1 Hp1]%(polled_queued _ _ _ _ Ht). by rewrite Hp1, Hp, (Hq Hq1).
  - apply turn_closing in Ht as ([He| ->] & _ & _ & Ho); [..|done|done]; (split; [auto|]).
    + by rewrite He.
    + intros _ Hq1. cbn in *. by rewrite Hp, (Hq Hq1).
Qed.

(** The upstream a relay that has queued something reads. *)
Definition committed (r0 r : Relay) : Prop :=
  terminal_ok (progress r) ∧ (phase r = Ended ∨ queued_downstream (progress r) = true) ∧
  ctx (accounting r) = ctx (accounting r0) ∧ leases_left r = leases_left r0.

Lemma turn_committed r0 r e r' e' :
  committed r0 r → phase r ≠ Ended → turn r e = (r', e') → committed r0 r'.
Proof.
  intros (Hok & [|Hq] & Hx & Hl) Hph Ht; [done|]. unfold committed. rewrite <-Hx, <-Hl.
  assert (phase r = Streaming ∨ phase r ≠ Streaming) as [Hs|Hs] by (destruct (phase r); auto).
  - unfold turn in Ht. rewrite Hs in Ht. apply poll_upstream_polled in Ht; [|done..].
    destruct (polled_committed _ _ _ _ Ht Hq) as (? & ? & ?). split_and!; [|auto..].
    by apply (quiet_terminal _ _ _ _ (polled_quiet _ _ _ _ Ht)).
  - apply turn_closing in Ht as ([He| ->] & ? & ? & Ho); [..|done|done]; split_and!; auto.
Qed.

(** C10: Once the caller has received anything, the stream is the one it started to
    read: whatever comes later, no other credential's stream is spliced in. *)
Theorem committed_stream_not_reopened c core e0 opened started f rot d limits grace n m :
  let r0 := relay_opened_with_accounting c opened started f rot core d limits grace in
  let '(out, r, e) := run n r0 e0 in
  let '(_, r', _) := run m r e in
  out = [] ∨ (ctx_credential_id (ctx (accounting r')) = ctx_credential_id (ctx (accounting r)) ∧
              leases_left r' = leases_left r).
Proof.
  cbv zeta. set (r0 := relay_opened_with_accounting _ _ _ _ _ _ _ _ _).
  destruct (run n r0 e0) as [[out r] e] eqn:Hn. destruct (run m r e) as [[out' r'] e'] eqn:Hm.
  destruct (decide (out = [])) as [|Hout]; [by left|right].
  assert (recorded ([] ++ out ++ pending r) r) as [Hok Hq].
  { eapply (run_invariant (λ sent r _, recorded sent r) n [] r0 e0); [done| |split; [by intros []|done]|done].
    intros. by eapply turn_recorded. }
  assert (committed r r') as (_ & _ & -> & ->); [|done].
  eapply (run_invariant (λ _ r1 _, committed r r1) m [] r e); [done| | |done].
  - intros. by eapply turn_committed.
  - split_and!; [done| |done..]. assert (phase r = Ended ∨ phase r ≠ Ended) as [|He] by (destruct (phase r); auto);
      [by left|right]. destruct (queued_downstream (progress r)); [done|].
    specialize (Hq He eq_refl). cbn in Hq. by apply app_eq_nil in Hq as [? _].
Qed.

(** ** Complete answers *)

Lemma decode_utf8_spec carry chunk t :
  utf8 (carry ++ chunk ++ t) →
  ∃ txt rest, decode_utf8 carry chunk = (txt, rest) ∧ carry ++ chunk = txt ++ rest ∧ utf8 (rest ++ t) ∧
    (utf8 rest → rest = []).
Proof.
  rewrite app_assoc. unfold decode_utf8, from_utf8. set (s := carry ++ chunk). intros H.
  destruct (utf8_front s t (length s) H) as (Hn & Hfront & Hrest & Hu & He); [done|].
  set (n := valid_up_to (length s) s) in *. case_bool_decide as Hl.
  - rewrite Hl, firstn_all in Hfront. rewrite Hl, drop_all in Hrest. exists s, [].
    rewrite (utf8_lossy s Hfront), app_nil_r. by split_and!.
  - rewrite Hu. exists (take n s), (drop n s). rewrite (utf8_lossy _ Hfront), take_drop.
    split_and!; [done..|]. intros Hd. by rewrite (He Hd), drop_all.
Qed.

(** One chunk through the character and the event decoder. *)
Lemma text_step d c chunk t evs rest :
  utf8 (c ++ chunk ++ t) → Sse.Sse.decoder_wf d →
  Z.of_nat (length (Sse.Sse.buffer d ++ c ++ chunk)) ≤ Sse.Sse.max_buffer_bytes d →
  Sse.Sse.decodes (Sse.Sse.buffer d ++ c ++ chunk ++ t) evs rest →
  ∃ txt c' evs1 evs2 d',
    decode_utf8 c chunk = (txt, c') ∧ sse_push d txt = (Ok evs1, d') ∧ Sse.Sse.decoder_wf d' ∧
    Sse.Sse.max_buffer_bytes d' = Sse.Sse.max_buffer_bytes d ∧ evs = evs1 ++ evs2 ∧
    Sse.Sse.decodes (Sse.Sse.buffer d' ++ c' ++ t) evs2 rest ∧ utf8 (c' ++ t) ∧ (utf8 c' → c' = []) ∧
    (length (Sse.Sse.buffer d' ++ c') ≤ length (Sse.Sse.buffer d ++ c ++ chunk))%nat.
Proof.
  intros Hu Hwf Hmax Hdec. destruct (decode_utf8_spec c chunk t Hu) as (txt & c' & Hd & Heq & Hu' & Hn).
  rewrite Heq in Hmax. rewrite !length_app in Hmax.
  destruct (Sse.Sse.push_refines deserialize d txt Hwf) as (evs1 & d' & Hpush & Hd1 & Hwf' & Hm & _);
    [rewrite length_app; lia|].
  destruct (Sse.Sse.decodes_total (Sse.Sse.buffer d' ++ c' ++ t)) as (evs2 & rest2 & Hd2).
  pose proof (Sse.Sse.decodes_app _ _ _ _ _ _ Hd1 Hd2) as Hall.
  replace (c ++ chunk ++ t) with (txt ++ c' ++ t) in Hdec by (by rewrite !app_assoc, Heq).
  rewrite <-app_assoc in Hall. destruct (Sse.Sse.decodes_deterministic _ _ _ _ _ Hdec Hall) as [-> ->].
  exists txt, c', evs1, evs2, d'. unfold sse_push. rewrite Hpush. split_and!; try done.
  rewrite Heq. apply Sse.Sse.decodes_length in Hd1. rewrite !length_app in *. lia.
Qed.

Lemma drive_app {D} `{!ProviderStreamDecoder D} (s s' : D) evs1 evs2 outs :
  drive s (evs1 ++ evs2) = (Ok outs, s') →
  ∃ o1 s1 o2, decode_all s evs1 = (Ok o1, s1) ∧ drive s1 evs2 = (Ok o2, s') ∧ outs = o1 ++ o2.
Proof.
  revert s outs. induction evs1 as [|ev evs1 IH]; intros s outs H.
  { exists [], s, outs. by split_and!. }
  unfold drive in H. cbn [app decode_all] in *. destruct (decode s ev) as [[o|err] s1]; [|done].
  destruct (decode_all s1 (evs1 ++ evs2)) as [[os|err] s2] eqn:Hall; [|done].
  destruct (finish s2) as [[f|err] s3] eqn:Hf; [|done]. simplify_eq.
  destruct (IH s1 (os ++ f)) as (o1 & s4 & o2 & Ho1 & Ho2 & Heq).
  { unfold drive. by rewrite Hall, Hf. }
  exists (o ++ o1), s4, o2. rewrite Ho1. split_and!; [done..|]. by rewrite <-!app_assoc, Heq.
Qed.

(** What a decoder yields for a complete answer: content, then perhaps usage. *)
Definition answer (ds : list (option string * Value)) (u : option ModelUsage) : list ProviderStreamEvent :=
  (uncurry Data <$> ds) ++ option_list (Done <$> u).

Lemma answer_split out outs ds u :
  out ++ outs = answer ds u →
  (∃ ds1 ds2, ds = ds1 ++ ds2 ∧ out = answer ds1 None ∧ outs = answer ds2 u) ∨
  (is_Some u ∧ out = answer ds u ∧ outs = []).
Proof.
  unfold answer. revert ds. induction out as [|ev out IH]; intros ds H.
  { left. exists [], ds. by split_and!. }
  destruct ds as [|d ds]; simpl in H.
  - right. destruct u as [u|]; simpl in H; [|done]. injection H as -> H.
    apply app_eq_nil in H as [-> ->]. by split_and!; [eexists| |].
  - injection H as -> H. destruct (IH ds H) as [(ds1 & ds2 & -> & -> & ->)|(Hu & -> & ->)].
    + left. exists (d :: ds1), ds2. by split_and!.
    + right. by split_and!.
Qed.

Section Complete.
Context (config : RelayConfig).
Hypothesis Hdelivery : delivery config = Reemit.
Hypothesis Hframing : framing config = OpenAiSse.
(** The clock does not reach the stream's deadline. *)
Hypothesis Hintime : ∀ dl, deadline config = Some dl → (∀ n, elapses n = false) ∧ ∀ n, clock n < dl.

(** The rendered-byte limits leave room for this much. *)
Definition roomy (r : Relay) (n : Z) : Prop :=
  rendered_bytes (progress r) + n ≤ U64_MAX ∧
  ∀ limit, rendered_byte_limit config = Some limit → rendered_bytes (progress r) + n ≤ limit.

(** A part of a turn that emits [ds] and, with a usage, finishes. *)
Record emits (ds : list (option string * Value)) (u : option ModelUsage) (r r' : Relay) : Prop := {
  emits_cfg : cfg r' = cfg r;
  emits_pending : pending r' = pending r ++ frames ds;
  emits_rendered : rendered_bytes (progress r') = rendered_bytes (progress r) + total (frames ds);
  emits_relayed : relayed_bytes (progress r') = relayed_bytes (progress r);
  emits_deadline : terminal_deadline (progress r') = terminal_deadline (progress r);
  emits_phase : phase r' = match u with Some _ => Finished | None => phase r end;
  emits_usage : a_usage (accounting r') = default (a_usage (accounting r)) u;
}.

Lemma emits_trans ds1 ds2 u r r1 r2 : emits ds1 None r r1 → emits ds2 u r1 r2 → emits (ds1 ++ ds2) u r r2.
Proof.
  intros [] []. simpl in *. split; try congruence.
  - rewrite frames_app, (assoc_L (++)). congruence.
  - rewrite frames_app, total_app. lia.
  - destruct u; congruence.
Qed.

Lemma reserve_roomy r n :
  cfg r = config → 0 ≤ rendered_bytes (progress r) → roomy r (Z.of_nat n) →
  reserve_rendered_bytes r n =
    Some (set_progress r (set_rendered (progress r) (rendered_bytes (progress r) + Z.of_nat n))).
Proof.
  intros Hc H0 [H1 H2]. unfold reserve_rendered_bytes. rewrite Hc.
  destruct (Z.ltb_spec U64_MAX (rendered_bytes (progress r) + Z.of_nat n)); [lia|].
  destruct (Z.ltb_spec U64_MAX (Z.of_nat n)); [lia|]. simpl.
  destruct (rendered_byte_limit config) as [l|]; [|done].
  specialize (H2 l eq_refl). by destruct (Z.ltb_spec l (rendered_bytes (progress r) + Z.of_nat n)); [lia|].
Qed.

Lemma in_time r e : cfg r = config → ∃ e', past_deadline r e = (false, e').
Proof.
  intros Hc. unfold past_deadline, read_clock, now. rewrite Hc.
  destruct (deadline config) as [dl|]; [|by eexists]. eexists.
  destruct (Hintime dl eq_refl) as [_ Hcl]. f_equal. apply Z.leb_gt. apply Hcl.
Qed.

Lemma reemits r : cfg r = config → is_passthrough r = false.
Proof. intros Hc. unfold is_passthrough. by rewrite Hc, Hdelivery. Qed.

Lemma total_frame d ds : total (frames (d :: ds)) = Z.of_nat (length (uncurry data_event d)) + total (frames ds).
Proof. unfold total. simpl. rewrite length_app. lia. Qed.

Lemma total_nonneg bs : 0 ≤ total bs.
Proof. unfold total. lia. Qed.

Lemma emit_emits ds u r e :
  cfg r = config → 0 ≤ rendered_bytes (progress r) → roomy r (total (frames ds)) →
  ∃ r' e', emit (answer ds u) r e = (r', e') ∧ emits ds u r r' ∧ src r' = src r.
Proof.
  revert r e. induction ds as [|[name data] ds IH]; intros r e Hc H0 Hroom.
  - destruct u as [u|].
    + change (answer [] (Some u)) with [Done u]. cbn [emit]. destruct (in_time r e Hc) as [e1 ->]. cbn [emit].
      change (is_passthrough (set_accounting r _)) with (is_passthrough r). rewrite (reemits r Hc).
      eexists _, _. split; [done|]. split; [|done]. split; cbn; try done; [by rewrite app_nil_r|unfold total; cbn; lia].
    + eexists _, _. split; [done|]. split; [|done]. split; try done; [by rewrite app_nil_r|unfold total; cbn; lia].
  - change (answer ((name, data) :: ds) u) with (Data name data :: answer ds u). cbn [emit].
    destruct (in_time r e Hc) as [e1 ->].
    change (is_passthrough (set_accounting r _)) with (is_passthrough r). rewrite (reemits r Hc).
    rewrite total_frame in Hroom. cbn [uncurry] in Hroom. pose proof (total_nonneg (frames ds)).
    rewrite reserve_roomy; [|done|done|].
    2:{ destruct Hroom as [Hr1 Hr2]. split; cbn; [lia|]. intros l Hl. specialize (Hr2 l Hl). lia. }
    set (r1 := queue _ _). destruct (IH r1 e1) as (r' & e' & -> & Hem & Hsrc); [done|cbn; lia| |].
    { destruct Hroom as [Hr1 Hr2]. split; cbn; [lia|]. intros l Hl. specialize (Hr2 l Hl). lia. }
    exists r', e'. split; [done|]. split; [|by rewrite Hsrc].
    destruct Hem. split; try done.
    + rewrite emits_pending0. cbn. by rewrite <-app_assoc.
    + rewrite emits_rendered0, total_frame. cbn [uncurry].
      change (rendered_bytes (progress r1))
        with (rendered_bytes (progress r) + Z.of_nat (length (data_event name data))). lia.
Qed.

Lemma roomy_split r r' n k :
  rendered_bytes (progress r') = rendered_bytes (progress r) + n → roomy r (n + k) → roomy r' k.
Proof. intros Heq [H1 H2]. split; [lia|]. intros l Hl. specialize (H2 l Hl). lia. Qed.

Lemma roomy_front r n k : 0 ≤ k → roomy r (n + k) → roomy r n.
Proof. intros Hk [H1 H2]. split; [lia|]. intros l Hl. specialize (H2 l Hl). lia. Qed.

Lemma roomy_after ds u r r' n :
  emits ds u r r' → roomy r (total (frames ds) + n) → roomy r' n.
Proof. intros [] [H1 H2]. split; [lia|]. intros l Hl. specialize (H2 l Hl). lia. Qed.

Lemma on_events_emits {D} `{Hd : !ProviderStreamDecoder D} (s s' : D) events ds u r e :
  cfg r = config → 0 ≤ rendered_bytes (progress r) → roomy r (total (frames ds)) → phase r = Streaming →
  decoder (src r) = mkBoxed D Hd s → decode_all s events = (Ok (answer ds u), s') →
  ∃ r' e', on_events events r e = (r', e') ∧ emits ds u r r' ∧
    items (src r') = items (src r) ∧ carry (src r') = carry (src r) ∧ sse (src r') = sse (src r) ∧
    (u = None → decoder (src r') = mkBoxed D Hd s').
Proof.
  revert s ds r e. induction events as [|ev events IH]; intros s ds r e Hc H0 Hroom Hph Hdec Hall; simpl in Hall.
  - assert (ds = [] ∧ u = None ∧ s' = s) as (-> & -> & ->).
    { injection Hall as Hans ->. destruct ds, u; by split_and!. }
    exists r, e. cbn. split_and!; try done. split; try done; [by rewrite app_nil_r|unfold total; cbn; lia].
  - destruct (decode s ev) as [[out|err] s1] eqn:Hev; [|done].
    destruct (decode_all s1 events) as [[outs|err] s2] eqn:Hrest; [|done]. injection Hall as Hans ->.
    cbn [on_events]. rewrite Hdec. unfold decode_boxed. cbn [decoder_state decoder_impl Provider.Provider.decoder]. rewrite Hev.
    set (r1 := set_src r _).
    destruct (answer_split _ _ _ _ Hans) as [(ds1 & ds2 & -> & -> & ->)|([uu ->] & -> & ->)].
    + rewrite frames_app, total_app in Hroom. pose proof (total_nonneg (frames ds1)).
      pose proof (total_nonneg (frames ds2)).
      destruct (emit_emits ds1 None r1 e) as (r2 & e2 & -> & Hem & Hsrc); [done|done| |].
      { by eapply (roomy_front r). }
      assert (phase r2 = Streaming) as Hph2 by (by rewrite (emits_phase _ _ _ _ Hem)).
      assert (cfg r2 = config) as Hc2 by (by rewrite (emits_cfg _ _ _ _ Hem)).
      unfold is_streaming, past_terminal. rewrite Hph2, (reemits r2 Hc2). cbn [negb andb orb].
      destruct (IH s1 ds2 r2 e2) as (r' & e' & -> & Hem' & Hi & Hca & Hs & Hd'); try done.
      * rewrite (emits_rendered _ _ _ _ Hem). cbn. lia.
      * by eapply roomy_after.
      * by rewrite Hsrc.
      * exists r', e'. rewrite Hsrc in *. split_and!; try done.
        eapply emits_trans; [|done]. destruct Hem. by split.
    + destruct (emit_emits ds (Some uu) r1 e) as (r2 & e2 & -> & Hem & Hsrc); [done..|].
      assert (phase r2 = Finished) as Hph2 by (by rewrite (emits_phase _ _ _ _ Hem)).
      unfold is_streaming. rewrite Hph2. cbn [negb orb]. exists r2, e2. rewrite Hsrc. split_and!; try done.
      destruct Hem. by split.
Qed.

Context {D : Type} `{Hd : !ProviderStreamDecoder D}.

(** A relay between two chunks, with these left to come. *)
Record waiting (r : Relay) (d : Sse.Sse.SseDecoder) (s : D) (c : bytes) (chunks : list bytes) : Prop := {
  waiting_cfg : cfg r = config;
  waiting_phase : phase r = Streaming;
  waiting_pending : pending r = [];
  waiting_items : yields (items (src r)) chunks;
  waiting_carry : carry (src r) = c;
  waiting_sse : sse (src r) = Some d;
  waiting_decoder : decoder (src r) = mkBoxed D Hd s;
  waiting_deadline : terminal_deadline (progress r) = None;
  waiting_rendered : 0 ≤ rendered_bytes (progress r);
  waiting_wf : Sse.Sse.decoder_wf d;
  waiting_utf8 : utf8 (c ++ concat chunks) ∧ (utf8 c → c = []);
}.

Lemma poll_ready r e d s c chunks : waiting r d s c chunks → ∃ e', turn r e = on_next r e'.
Proof.
  intros []. unfold turn, poll_upstream, wait_deadline. rewrite waiting_phase0, waiting_cfg0, waiting_deadline0.
  destruct (deadline config) as [dl|]; [|by eexists]. destruct (Hintime dl eq_refl) as [-> _]. by eexists.
Qed.

(** One more chunk, read in full. *)
Lemma turn_chunk r e d s c chunk chunks ds u evs rest s' :
  waiting r d s c (chunk :: chunks) →
  Z.of_nat (length (Sse.Sse.buffer d ++ c ++ chunk)) ≤ Sse.Sse.max_buffer_bytes d →
  relayed_bytes (progress r) + Z.of_nat (length chunk) ≤ U64_MAX →
  (∀ l, max_bytes config = Some l → relayed_bytes (progress r) + Z.of_nat (length chunk) ≤ l) →
  roomy r (total (frames ds)) →
  Sse.Sse.decodes (Sse.Sse.buffer d ++ c ++ concat (chunk :: chunks)) evs rest →
  drive s evs = (Ok (answer ds u), s') →
  ∃ r' e' ds1 ds2, turn r e = (r', e') ∧ ds = ds1 ++ ds2 ∧ pending r' = frames ds1 ∧
    rendered_bytes (progress r') = rendered_bytes (progress r) + total (frames ds1) ∧ cfg r' = config ∧
    ((phase r' = Finished ∧ ds2 = [] ∧ u = Some (a_usage (accounting r'))) ∨
     (∃ d' s1 c' evs', waiting (set_pending r' []) d' s1 c' chunks ∧
        a_usage (accounting r') = a_usage (accounting r) ∧
        relayed_bytes (progress r') = relayed_bytes (progress r) + Z.of_nat (length chunk) ∧
        Sse.Sse.max_buffer_bytes d' = Sse.Sse.max_buffer_bytes d ∧
        (length (Sse.Sse.buffer d' ++ c') ≤ length (Sse.Sse.buffer d ++ c ++ chunk))%nat ∧
        Sse.Sse.decodes (Sse.Sse.buffer d' ++ c' ++ concat chunks) evs' rest ∧
        drive s1 evs' = (Ok (answer ds2 u), s'))).
Proof.
  intros Hw Hbuf Hrel Hmax Hroom Hdec Hdrive. destruct (poll_ready r e _ _ _ _ Hw) as [e1 ->].
  destruct Hw as [Hc Hph Hp Hi Hca Hsse Hde Htd H0 Hwf [Hu Hu']].
  apply yields_cons in Hi as [Hi Hrest]. unfold on_next. rewrite Hi. unfold on_chunk. cbn [progress set_src set_progress cfg].
  rewrite Hc. destruct (Z.ltb_spec U64_MAX (relayed_bytes (progress r) + Z.of_nat (length chunk))); [lia|].
  replace (match max_bytes config with Some max => _ | None => false end) with false.
  2:{ destruct (max_bytes config) as [l|]; [|done]. symmetry. apply Z.ltb_ge. by apply Hmax. }
  set (r1 := set_progress _ _). change (is_passthrough r1) with (is_passthrough r). rewrite (reemits r Hc).
  unfold observe_chunk, past_terminal. change (is_passthrough r1) with (is_passthrough r). rewrite (reemits r Hc).
  cbn [andb]. change (carry (src r1)) with (carry (src r)). rewrite Hca.
  cbn [concat] in Hdec, Hu. destruct (text_step d c chunk (concat chunks) evs rest) as
    (txt & c' & evs1 & evs2 & d' & -> & Hpush & Hwf' & Hm & -> & Hdec' & Hu2 & Hn & Hlen); [done..|].
  set (r2 := set_src r1 _). change (sse (src r2)) with (sse (src r)). rewrite Hsse, Hpush.
  set (r3 := set_src r2 _).
  destruct (drive_app s s' evs1 evs2 _ Hdrive) as (o1 & s1 & o2 & Ho1 & Ho2 & Heq). symmetry in Heq.
  destruct (answer_split _ _ _ _ Heq) as [(ds1 & ds2 & -> & -> & ->)|([uu ->] & -> & ->)].
  - rewrite frames_app, total_app in Hroom. pose proof (total_nonneg (frames ds2)).
    destruct (on_events_emits s s1 evs1 ds1 None r3 e1) as (r' & e' & -> & Hem & Hi' & Hca' & Hsse' & Hde');
      [done|done| |done|done|done|].
    { by eapply (roomy_front r). }
    exists r', e', ds1, ds2. destruct Hem as [Ec Ep Er El Ed Eph Eu]. split_and!; try done.
    { by rewrite Ep; cbn; rewrite Hp. } { by rewrite Ec. }
    right. exists d', s1, c', evs2. split_and!; try done. split; cbn; try done.
    + by rewrite Ec. + by rewrite Eph. + by rewrite Hi'. + by apply Hde'.
    + by rewrite Ed. + rewrite Er. cbn. pose proof (total_nonneg (frames ds1)). lia.
  - destruct (on_events_emits s s1 evs1 ds (Some uu) r3 e1) as (r' & e' & -> & Hem & _); [done..|].
    exists r', e', ds, []. destruct Hem as [Ec Ep Er El Ed Eph Eu]. rewrite app_nil_r. split_and!; try done.
    { by rewrite Ep; cbn; rewrite Hp. } { by rewrite Ec. }
    left. rewrite Eph, Eu. by split_and!.
Qed.

(** The end of the upstream, with nothing held back. *)
Lemma turn_end r e d s c ds u evs rest s' :
  waiting r d s c [] → roomy r (total (frames ds)) →
  Sse.Sse.decodes (Sse.Sse.buffer d ++ c) evs rest → trim rest = [] →
  drive s evs = (Ok (answer ds u), s') →
  ∃ r' e', turn r e = (r', e') ∧ phase r' = Finished ∧ pending r' = frames ds ∧ cfg r' = config ∧
    rendered_bytes (progress r') = rendered_bytes (progress r) + total (frames ds) ∧
    a_usage (accounting r') = default (a_usage (accounting r)) u.
Proof.
  intros Hw Hroom Hdec Htrim Hdrive. destruct (poll_ready r e _ _ _ _ Hw) as [e1 ->].
  destruct Hw as [Hc Hph Hp Hi Hca Hsse Hde Htd H0 [Hnone _] [Hu Hn]].
  assert (c = []) as -> by (apply Hn; by rewrite app_nil_r in Hu).
  rewrite app_nil_r in Hdec.
  destruct (Sse.Sse.decodes_deterministic _ _ _ _ _ Hdec (Sse.Sse.decodes_rest _ Hnone)) as [-> ->].
  unfold drive in Hdrive. cbn in Hdrive. destruct (finish s) as [[out|err] s1] eqn:Hf; [|done].
  injection Hdrive as -> ->.
  apply yields_nil in Hi. unfold on_next. rewrite Hi. unfold finish_upstream, past_terminal.
  rewrite (reemits r Hc), Hsse. cbn [andb]. unfold Sse.Sse.finish. rewrite decide_True by done.
  cbv zeta. change (carry (src (set_src r (set_sse (src r) None)))) with (carry (src r)). rewrite Hca.
  unfold finish_boxed. change (decoder (src (set_src r _))) with (decoder (src r)). rewrite Hde.
  cbn [decoder_state decoder_impl Provider.Provider.decoder]. rewrite Hf. set (r1 := set_src _ _).
  destruct (emit_emits ds u r1 e1) as (r' & e' & -> & [Ec Ep Er El Ed Eph Eu] & _); [done..|].
  assert (phase r' = Finished ∨ (phase r' = Streaming ∧ u = None)) as [Hfin|[Hs ->]].
  { rewrite Eph. destruct u; [by left|right]. by split. }
  - exists r', e'. unfold is_streaming. rewrite Hfin. split_and!; try done.
    { rewrite Ep. cbn. by rewrite Hp. } { by rewrite Ec. }
  - exists (set_phase r' Finished), e'. unfold is_streaming. rewrite Hs. cbn. split_and!; try done.
    { rewrite Ep. cbn. by rewrite Hp. } { by rewrite Ec. }
Qed.

(** Rounds of the body, composed. *)
Definition reaches (r : Relay) (e : Env) (out : list bytes) (r' : Relay) (e' : Env) : Prop :=
  ∃ n, run n r e = (out, r', e').

Lemma reaches_refl r e : reaches r e [] r e.
Proof. by exists O. Qed.

Lemma reaches_step r e bs r1 e1 out r' e' :
  step r e = Some (bs, r1, e1) → reaches r1 e1 out r' e' → reaches r e (option_list bs ++ out) r' e'.
Proof. intros Hs [n Hn]. exists (S n). simpl. by rewrite Hs, Hn. Qed.

Lemma reaches_drain r e out r' e' :
  reaches (set_pending r []) e out r' e' → reaches r e (pending r ++ out) r' e'.
Proof.
  remember (pending r) as p eqn:Hp. revert r Hp. induction p as [|bs rest IH]; intros r Hp H.
  - replace r with (set_pending r []); [done|]. destruct r; cbn in *. by subst.
  - eapply (reaches_step r e (Some bs) (set_pending r rest) e); [unfold step; by rewrite <-Hp|].
    by apply IH.
Qed.

Lemma reaches_turn r e r1 e1 out r' e' :
  pending r = [] → phase r ≠ Ended → turn r e = (r1, e1) → reaches (set_pending r1 []) e1 out r' e' →
  reaches r e (pending r1 ++ out) r' e'.
Proof.
  intros Hp Hph Ht H. apply reaches_drain in H. eapply (reaches_step r e None r1 e1) in H; [done|].
  unfold step. rewrite Hp. destruct (phase r); by rewrite ?Ht.
Qed.

Section Run.
Context (c : StreamContext) (core : CoreAccounting) (e0 : Env).

(** The whole answer was sent, closed and settled. *)
Definition answered (r : Relay) (e : Env) (ds : list (option string * Value)) (usage : ModelUsage) : Prop :=
  ∃ r' e', reaches r e (frames ds ++ [done_event]) r' e' ∧ phase r' = Ended ∧ pending r' = [] ∧
    ended_as core c e0 r' e' SOk ∧ a_usage (accounting r') = usage.

Lemma answered_finished sent r e :
  running c core e0 config sent r e → phase r = Finished → pending r = [] →
  0 ≤ rendered_bytes (progress r) → roomy r (total [done_event]) → answered r e [] (a_usage (accounting r)).
Proof.
  intros Hr Hph Hp H0 Hroom. destruct (turn r e) as [r1 e1] eqn:Ht.
  assert (cfg r = config) as Hc by apply Hr.
  destruct (turn_running c core e0 config sent r e r1 e1) as [Hs _]; [done..|congruence|]. rewrite Hph in Hs.
  assert (a_usage (accounting r1) = a_usage (accounting r) ∧ phase r1 ≠ Failed STREAM_BYTES_EXCEEDED) as [Hu Hne].
  { unfold turn, on_finished in Ht. rewrite Hph, (reemits r Hc) in Ht.
    rewrite Hc, Hframing in Ht. cbn [framing_done] in Ht.
    rewrite reserve_roomy in Ht; [|done|done|].
    2:{ destruct Hroom as [Hr1 Hr2]. unfold total in *. cbn [concat] in *. rewrite app_nil_r in *. by split. }
    unfold settle in Ht. destruct (settled _); cbn in Ht; by simplify_eq. }
  destruct Hs as [(? & _)|(He & _ & Hp1 & _ & _ & Hend)]; [done|].
  rewrite Hframing in Hp1. change (pending r1 = [done_event]) in Hp1.
  exists (set_pending r1 []), e1. split_and!; try done.
  change (frames [] ++ [done_event]) with ([done_event] ++ []). rewrite <-Hp1.
  eapply reaches_turn; [done|congruence|done|apply reaches_refl].
Qed.

(** A turn that queued [ds1], and what follows it. *)
Lemma answered_turn sent r e r1 e1 ds1 ds2 usage :
  running c core e0 config sent r e → pending r = [] → phase r ≠ Ended → turn r e = (r1, e1) →
  pending r1 = frames ds1 →
  (running c core e0 config (sent ++ pending r1) (set_pending r1 []) e1 → answered (set_pending r1 []) e1 ds2 usage) →
  answered r e (ds1 ++ ds2) usage.
Proof.
  intros Hr Hp Hph Ht Hp1 H.
  destruct (turn_running c core e0 config sent r e r1 e1) as [_ Hr1]; [done..|].
  destruct (H (running_pop _ _ _ _ _ _ _ _ Hr1)) as (r' & e' & Hreach & Hrest).
  exists r', e'. split; [|done]. rewrite frames_app, <-app_assoc, <-Hp1. by eapply reaches_turn.
Qed.

Lemma complete_chunks chunks sent r e d s cut ds u evs rest s' :
  waiting r d s cut chunks → running c core e0 config sent r e →
  Z.of_nat (length (Sse.Sse.buffer d ++ cut ++ concat chunks)) ≤ Sse.Sse.max_buffer_bytes d →
  relayed_bytes (progress r) + total chunks ≤ U64_MAX →
  (∀ l, max_bytes config = Some l → relayed_bytes (progress r) + total chunks ≤ l) →
  roomy r (total (frames ds) + total [done_event]) →
  Sse.Sse.decodes (Sse.Sse.buffer d ++ cut ++ concat chunks) evs rest → trim rest = [] →
  drive s evs = (Ok (answer ds u), s') →
  answered r e ds (default (a_usage (accounting r)) u).
Proof.
  revert sent r e d s cut ds evs. induction chunks as [|chunk chunks IH];
    intros sent r e d s cut ds evs Hw Hr Hbuf Hrel Hmax Hroom Hdec Htrim Hdrive;
    pose proof (total_nonneg (frames ds)) as Hn1; pose proof (total_nonneg [done_event]) as Hn2;
    assert (roomy r (total (frames ds))) as Hroom' by (by eapply roomy_front);
    pose proof (waiting_phase _ _ _ _ _ Hw) as Hph; pose proof (waiting_pending _ _ _ _ _ Hw) as Hp;
    pose proof (waiting_rendered _ _ _ _ _ Hw) as H0.
  - cbn [concat] in *. rewrite app_nil_r in *.
    destruct (turn_end r e d s cut ds u evs rest s') as (r1 & e1 & Ht & Hf & Hp1 & Hc1 & Hren & Hu); [done..|].
    rewrite <-(app_nil_r ds). eapply answered_turn; [done|done|congruence|done|done|]. intros Hr1. rewrite <-Hu.
    change (a_usage (accounting r1)) with (a_usage (accounting (set_pending r1 []))).
    eapply answered_finished; [done|done|done|cbn; lia|]. by apply (roomy_split r _ _ _ Hren).
  - assert (total (chunk :: chunks) = Z.of_nat (length chunk) + total chunks) as Htot
      by (unfold total; cbn; rewrite length_app; lia).
    pose proof (total_nonneg chunks) as Hn3. cbn [concat] in Hbuf. rewrite !length_app in Hbuf.
    destruct (turn_chunk r e d s cut chunk chunks ds u evs rest s')
      as (r1 & e1 & ds1 & ds2 & Ht & -> & Hp1 & Hren & Hc1 & Hcase); [done| |lia| |done..|].
    { rewrite !length_app. lia. } { intros l Hl. specialize (Hmax l Hl). lia. }
    rewrite frames_app, total_app in Hroom, Hn1. pose proof (total_nonneg (frames ds1)) as Hn4.
    pose proof (total_nonneg (frames ds2)) as Hn5.
    eapply answered_turn; [done|done|congruence|done|done|]. intros Hr1.
    destruct Hcase as [(Hf & -> & ->)|(d' & s1 & c' & evs' & Hw' & Hu & Hrel' & Hm & Hlen & Hdec' & Hdrive')].
    + eapply (answered_finished _ (set_pending r1 [])); [done|done|done|cbn; lia|].
      apply (roomy_split r _ _ _ Hren). change (total (frames [])) with 0 in Hroom. by rewrite Z.add_0_r in Hroom.
    + rewrite <-Hu. rewrite !length_app in Hlen.
      change (a_usage (accounting r1)) with (a_usage (accounting (set_pending r1 []))).
      eapply (IH _ (set_pending r1 []) e1 d' s1 c' ds2 evs'); try done; cbn.
      * rewrite Hm, !length_app. lia.
      * lia.
      * intros l Hl. specialize (Hmax l Hl). lia.
      * apply (roomy_split r _ _ _ Hren). by rewrite Z.add_assoc.
Qed.

End Run.
End Complete.

(** C8: A complete answer reaches the caller complete.  However the body is split
    into chunks, even inside a character or an event, the relay sends one frame
    for each piece of content its decoder finds in the body, in order, then the
    closing sentinel, and settles as [ok] for the usage the decoder reported. *)
Theorem complete_answer_relayed {D} `{Hd : !ProviderStreamDecoder D} (s s' : D) c core e0 chunks started rot
    limits grace events rest ds u :
  utf8 (concat chunks) → Sse.Sse.decodes (concat chunks) events rest → trim rest = [] →
  drive s events = (Ok (answer ds u), s') →
  Z.of_nat (length (concat chunks)) ≤ 1024 * 1024 → total (frames ds ++ [done_event]) ≤ U64_MAX →
  (∀ limit, Admission.max_stream_bytes limits = Some limit →
     total chunks ≤ limit ∧ total (frames ds ++ [done_event]) ≤ limit) →
  (∀ budget, Admission.max_stream_duration limits = Some budget →
     (∀ n, elapses n = false) ∧ ∀ n, clock n < started + budget * Transport.Transport.NANOS_PER_MILLI) →
  let r0 := relay_opened_with_accounting c (mkOpened (of_list (Ok <$> chunks)) (mkBoxed D Hd s)) started OpenAiSse rot core
              Reemit limits grace in
  ∃ n r e, run n r0 e0 = (frames ds ++ [done_event], r, e) ∧ phase r = Ended ∧ pending r = [] ∧
    ended_as core c e0 r e SOk ∧ a_usage (accounting r) = default ModelUsage_default u.
Proof.
  intros Hu Hdec Htrim Hdrive Hlen Hout Hlim Htime r0. rewrite total_app in Hout, Hlim.
  assert (answered c core e0 r0 e0 ds (default ModelUsage_default u)) as (r & e & [n Hn] & Hrest).
  { assert (∀ dl, deadline (cfg r0) = Some dl → (∀ n, elapses n = false) ∧ ∀ n, clock n < dl) as Hin.
    { intros dl Hdl. unfold r0 in Hdl. cbn in Hdl. destruct (Admission.max_stream_duration limits) as [budget|];
        [|done]. cbn in Hdl. injection Hdl as <-. by apply Htime. }
    assert (waiting (cfg r0) r0 SseDecoder_default s [] chunks) as Hwait.
    { split; try done. apply yields_of_list. }
    apply (complete_chunks (cfg r0) eq_refl eq_refl Hin c core e0 chunks [] r0 e0 SseDecoder_default s [] ds u
             events rest s'); try done.
    - apply running_start.
    - unfold total. cbn. unfold U64_MAX. lia.
    - intros l Hl. by apply Hlim.
    - split; [done|]. intros l Hl. by apply Hlim. }
  by exists n, r, e.
Qed.

End Relay.
End Streaming.

(** ** Witnesses

    An OpenAI answer of two events, cut inside the second. *)

#[local] Existing Instance unit_json.

Definition demo_chunks : list bytes := [b "data: {}" ++ [LF; LF] ++ b "da"; b "ta: [DONE]" ++ [LF; LF]].

Definition demo_ctx : StreamContext :=
  mkContext "acme" None "s" None "m" "openai" "m" Credentials.Credentials.Byok "acme-1"
    (Accounting.Accounting.mkIdentity (Ids.Ids.mkRequestId (Ids.Ids.mkUuid [])) None) Pricing.Pricing.unpriced
    (Accounting.Accounting.mkBudgetKey "acme" "s") Store.Store.unheld (Some 7%nat) 10 1.

Definition demo_core : CoreAccounting := Accounting.Accounting.mkCore None (Some 3%nat).

Definition demo_env : Env := mkEnv Dispatch.Dispatch.demo_world 0 [] [].

Definition demo_limits : Admission.AdmissionLimits :=
  Admission.mkLimits 1000 None None None 0 None 0 None None None (Some 1000).

Definition demo_decoder : OpenAi.OpenAi.OpenAiStreamDecoder :=
  OpenAi.OpenAi.new_decoder ChatCompletions.

Definition demo_opened : OpenedStream :=
  mkOpened (of_list (Ok <$> demo_chunks)) (mkBoxed _ OpenAi.OpenAi.OpenAiStreamDecoder_impl demo_decoder).

Lemma passthrough_faithful_witness :
  NativeFraming ≠ OpenAiSse ∧
  let '(out, r, e) := run (λ _, 0) (λ _, Sse.Sse.VScalar) (λ _, false) (λ _, false) false 5
    (relay_opened_with_accounting demo_ctx demo_opened 0 NativeFraming None demo_core Passthrough demo_limits 0)
    demo_env in
  ∃ body tail, out ++ pending r = body ++ tail ∧ starts (stream_items demo_opened) body ∧
    (∀ limit, Admission.max_stream_bytes demo_limits = Some limit → total body ≤ Z.max 0 limit) ∧
    match phase r with
    | Ended => ended_faithfully false demo_ctx demo_core demo_env
                 (cfg (relay_opened_with_accounting demo_ctx demo_opened 0 NativeFraming None demo_core Passthrough
                         demo_limits 0)) r e (skip (length body) (stream_items demo_opened)) tail
    | _ => tail = []
    end.
Proof. split; [done|]. by apply passthrough_faithful. Defined.

(** An upstream that sends keepalives for ever, and a bound on its duration. *)
Definition demo_endless : OpenedStream :=
  mkOpened (mkStream (λ _, Some (Ok (b ": " ++ [LF; LF]))) 0)
    (mkBoxed _ OpenAi.OpenAi.OpenAiStreamDecoder_impl demo_decoder).

Definition demo_timed : Admission.AdmissionLimits :=
  Admission.mkLimits 1000 None None None 0 None 0 (Some 60000) None None None.

Lemma stream_terminates_witness :
  (∀ k, item_at (stream_items demo_endless) k ≠ None) ∧
  ∃ n out r e, run (λ _, 0) (λ _, Sse.Sse.VScalar) (λ n, bool_decide (3 ≤ n)%nat) (λ _, false) false n
    (relay_opened_with_accounting demo_ctx demo_endless 0 OpenAiSse None demo_core Reemit demo_timed 0)
    demo_env = (out, r, e) ∧ phase r = Ended ∧ pending r = [].
Proof.
  split; [done|]. apply stream_terminates. left. split; [by eexists|]. intros n. exists (n + 3)%nat.
  split; [lia|]. apply bool_decide_eq_true_2. lia.
Defined.

Lemma reemission_bounded_witness :
  let '(out, r, e) := run (λ _, 0) (λ _, Sse.Sse.VScalar) (λ _, false) (λ _, false) false 5
    (relay_opened_with_accounting demo_ctx
       (mkOpened (of_list (Ok <$> demo_chunks)) (mkBoxed _ (@Anthropic.Anthropic.AnthropicStreamDecoder_impl _
          Anthropic.Anthropic.demo_codec) Anthropic.Anthropic.AnthropicStreamDecoder_default))
       0 OpenAiSse None demo_core Reemit demo_limits 0) demo_env in
  phase r = Ended ∧ ∃ ds tail, out ++ pending r = frames ds ++ tail ∧ done_event ∉ frames ds.
Proof.
  pose proof (reemission_bounded (λ _, 0) (λ _, Sse.Sse.VScalar) (λ _, false) (λ _, false) false
    (λ d, d.1 = None) (@anthropic_decoder _ Anthropic.Anthropic.demo_codec) demo_ctx demo_core demo_env
    (mkOpened (of_list (Ok <$> demo_chunks)) (mkBoxed _ (@Anthropic.Anthropic.AnthropicStreamDecoder_impl _
       Anthropic.Anthropic.demo_codec) Anthropic.Anthropic.AnthropicStreamDecoder_default)) 0 None demo_limits 0 5
    anthropic_sources (ex_intro _ _ eq_refl)) as H.
  assert (reopens (@anthropic_decoder _ Anthropic.Anthropic.demo_codec) (λ _, True) None) as Hr by done.
  specialize (H Hr). cbv zeta in H.
  destruct (run _ _ _ _ _ _ _ _) as [[out r] e] eqn:Hrun.
  destruct H as (ds & tail & Ho & _ & _ & Hplain & _). split.
  - apply (f_equal (λ x, phase x.1.2)) in Hrun. cbn [fst snd] in Hrun. rewrite <-Hrun. by vm_compute.
  - exists ds, tail. split; [done|]. apply Hplain. intros [name data] Hn. cbn in Hn. subst name. split; [done|].
    destruct data. vm_compute. discriminate.
Defined.

Lemma complete_answer_relayed_witness :
  utf8 (concat demo_chunks) ∧
  ∃ n r e, run (λ _, 0) (λ _, Sse.Sse.VScalar) (λ _, false) (λ _, false) false n
      (relay_opened_with_accounting demo_ctx demo_opened 0 OpenAiSse None demo_core Reemit demo_limits 0) demo_env
      = (frames [(None, tt)] ++ [done_event], r, e) ∧
    phase r = Ended ∧ pending r = [] ∧ ended_as false demo_core demo_ctx demo_env r e SOk ∧
    a_usage (accounting r) = ModelUsage_default.
Proof.
  assert (utf8 (concat demo_chunks)) as Hu.
  { cbn. repeat (eapply utf8_char; [vm_compute; reflexivity|cbn [drop]]). constructor. }
  split; [exact Hu|].
  apply (complete_answer_relayed (λ _, 0) (λ _, Sse.Sse.VScalar) (λ _, false) (λ _, false) false
    demo_decoder (OpenAi.OpenAi.mkDecoder ChatCompletions ModelUsage_default true) demo_ctx demo_core demo_env
    demo_chunks 0 None demo_limits 0
    [Sse.Sse.mkEvent None "{}"; Sse.Sse.mkEvent None "[DONE]"] [] [(None, tt)] (Some ModelUsage_default)).
  - exact Hu.
  - exact (Sse.Sse.decodes_block (concat demo_chunks) 8 _ [] eq_refl
             (Sse.Sse.decodes_block (drop 10 (concat demo_chunks)) 12 [] [] eq_refl
                (Sse.Sse.decodes_rest [] eq_refl))).
  - done.
  - vm_compute. reflexivity.
  - vm_compute. discriminate.
  - vm_compute. discriminate.
  - intros limit [= <-]. vm_compute. split; discriminate.
  - intros budget [=].
Defined.

End Streaming.
