(* ===== verification/RelayWorld.v ===== *)
(** * What a relay does to the world

    A relay reads the clock, and through its rotation handle it opens other
    streams and records the health of credentials.  A reflexive and transitive
    relation that each of these respects holds between the world a relay started
    in and the world it leaves, however far it ran. *)

From S2P Require Import Prelude Text Sse Json ProviderError Provider Transport Credentials Dispatch Streaming.

Module RelayWorld.
Import Provider.Provider.
Import Credentials.Credentials (CredentialLease).
Import Dispatch.Dispatch (World, net, set_net).
Import Streaming.Streaming.
Import Transport.Transport (now).

Section RelayWorld.
Context {J : SerdeJson} (clock : nat → Z) (deserialize : string → Sse.Sse.visit)
  (elapses reopen_elapses : nat → bool) (room : bool).
Context (R : relation World) `{!PreOrder R} (R_clock : ∀ w, R w (set_net w (now clock (net w)).2)).

Record rotation_keeps (h : RotationHandle) : Prop := {
  keeps_open w l i : (l, i) ∈ remaining h → R w (opener h w l i).2;
  keeps_failure w l : R w (on_failure h w l);
  keeps_success w l : R w (on_success h w l);
}.

Lemma rotation_keeps_later h ls s :
  rotation_keeps h → (∀ x, x ∈ ls → x ∈ remaining h) → rotation_keeps (with_leases h ls s).
Proof. intros [Ho Hf Hs] Hin. split; [|done..]. intros w l i Hl. by apply Ho, Hin. Qed.

Definition kept (w0 : World) (r : Relay) (e : Env) : Prop :=
  R w0 (world e) ∧ ∀ h, rotation r = Some h → rotation_keeps h.

Section From.
Context (w0 : World).

Lemma kept_clock r e t e' : read_clock clock e = (t, e') → kept w0 r e → kept w0 r e'.
Proof. intros [= <- <-] [Hw Hr]. split; [|done]. cbn. by etransitivity; [|apply R_clock]. Qed.

Lemma kept_deadline r e late e' : past_deadline clock r e = (late, e') → kept w0 r e → kept w0 r e'.
Proof.
  unfold past_deadline. destruct (deadline (cfg r)); [|by intros [= <- <-]].
  destruct (read_clock clock e) eqn:Hc. intros [= <- <-]. by eapply kept_clock.
Qed.

Lemma kept_failure r e :
  kept w0 r e → kept w0 r match rotation r with Some h => record_serving_failure h e | None => e end.
Proof.
  intros [Hw Hr]. split; [|done]. destruct (rotation r) as [h|]; [|done].
  etransitivity; [done|]. by apply keeps_failure, Hr.
Qed.

Lemma kept_success r e :
  kept w0 r e → kept w0 r match rotation r with Some h => record_serving_success h e | None => e end.
Proof.
  intros [Hw Hr]. split; [|done]. destruct (rotation r) as [h|]; [|done].
  etransitivity; [done|]. by apply keeps_success, Hr.
Qed.

Lemma settle_kept r a status e a' e' : settle clock room a status e = (a', e') → kept w0 r e → kept w0 r e'.
Proof.
  unfold settle. destruct (settled a); [by intros [= <- <-]|].
  destruct (read_clock clock e) eqn:Hc. intros [= <- <-] H. by eapply kept_clock in Hc.
Qed.

Lemma emit_kept events r e r' e' : emit clock events r e = (r', e') → kept w0 r e → kept w0 r' e'.
Proof.
  revert r e. induction events as [|ev events IH]; intros r e H Hk; simpl in H; [by simplify_eq|].
  destruct (past_deadline clock r e) as [late e1] eqn:Hl. apply kept_deadline in Hl; [|done].
  destruct late; [by simplify_eq|]. destruct ev as [name data|usage].
  - destruct (is_passthrough _); [by eapply IH|]. unfold reserve_rendered_bytes in H.
    by repeat case_match; simplify_eq; try done; eapply IH.
  - destruct (is_passthrough _); [|by eapply IH]. destruct (terminal_seen _); [by simplify_eq|].
    destruct (read_clock clock e1) eqn:Hc. eapply IH; [done|]. by eapply kept_clock.
Qed.

(** Opening stays within the leases that were left, and drops those it tried. *)
Lemma open_next_loop_kept r ls h e res h' e' :
  open_next_loop clock reopen_elapses ls h e = (res, h', e') → rotation_keeps h →
  (∀ x, x ∈ ls → x ∈ remaining h) → kept w0 r e → R w0 (world e') ∧ rotation_keeps h'.
Proof.
  intros H Hh. revert e H. induction ls as [|[lease i] ls IH]; intros e H Hin Hk; simpl in H.
  { simplify_eq. split; [apply Hk|]. apply rotation_keeps_later; [done|]. intros x Hx. by apply not_elem_of_nil in Hx. }
  assert (∀ x, x ∈ ls → x ∈ remaining h) as Hin' by (intros x Hx; by apply Hin, list_elem_of_further).
  destruct (match rotation_deadline h with Some _ => _ | None => _ end) as [[spent late] e1] eqn:Hd.
  assert (kept w0 r e1) as Hk1.
  { destruct (rotation_deadline h); [|by simplify_eq].
    injection Hd as _ _ <-. by apply (kept_clock r e _ _ eq_refl). }
  destruct spent; [simplify_eq; split; [apply Hk1|by apply rotation_keeps_later]|].
  destruct (opener h (world e1) lease i) as [opened w] eqn:Ho.
  assert (R w0 w) as Hw.
  { etransitivity; [exact (proj1 Hk1)|]. replace w with (opener h (world e1) lease i).2 by by rewrite Ho.
    by apply (keeps_open h Hh), Hin, list_elem_of_here. }
  destruct late; [simplify_eq; split; [done|by apply rotation_keeps_later]|].
  destruct opened as [o|err]; [simplify_eq; split; [done|by apply rotation_keeps_later]|].
  destruct (is_stream_rate_limited err); [|simplify_eq; split; [done|by apply rotation_keeps_later]].
  eapply IH; [done..|]. split; [|apply Hk]. cbn. by etransitivity; [|apply (keeps_failure h Hh)].
Qed.

Lemma rotate_kept r e res r' e' :
  rotate clock reopen_elapses r e = (res, r', e') → kept w0 r e → kept w0 r' e'.
Proof.
  intros H Hk. unfold rotate in H. destruct (rotation r) as [h|] eqn:Hrot; [|by simplify_eq].
  pose proof (kept_failure _ _ Hk) as Hk1. rewrite Hrot in Hk1. pose proof (proj2 Hk h Hrot) as Hh.
  destruct (open_next clock reopen_elapses h _) as [[opened h'] e1] eqn:Ho.
  eapply open_next_loop_kept in Ho as [Hw Hh']; [|done..].
  destruct opened as [[[lease o]|]|err]; simplify_eq; (split; [done|]); cbn; by intros ? [= <-].
Qed.

Lemma decode_failed_kept r err e r' e' :
  decode_failed clock reopen_elapses r err e = (r', e') → kept w0 r e → kept w0 r' e'.
Proof.
  unfold decode_failed. intros H Hk. destruct (ProviderError.ProviderError.is_credential_rate_limited err); [|by simplify_eq].
  pose proof (kept_failure _ _ Hk) as Hf.
  destruct (framing (cfg r)), (is_streaming r), (queued_downstream (progress r)); try (by simplify_eq).
  destruct (rotate clock reopen_elapses r e) as [[res r1] e1] eqn:Hr. apply rotate_kept in Hr; [|done].
  destruct res as [[]|open_err]; by simplify_eq.
Qed.

Lemma on_events_kept events r e r' e' :
  on_events clock reopen_elapses events r e = (r', e') → kept w0 r e → kept w0 r' e'.
Proof.
  revert r e. induction events as [|ev events IH]; intros r e H Hk; simpl in H; [by simplify_eq|].
  destruct (decode_boxed _ ev) as [decoded d]. destruct decoded as [decoded|err]; [|by eapply decode_failed_kept].
  destruct (emit clock decoded _ e) as [r2 e2] eqn:He. apply emit_kept in He; [|done].
  destruct (_ || _); [by simplify_eq|]. by eapply IH.
Qed.

Lemma on_chunk_kept chunk r e r' e' :
  on_chunk clock deserialize reopen_elapses chunk r e = (r', e') → kept w0 r e → kept w0 r' e'.
Proof.
  unfold on_chunk, observe_chunk. intros H Hk. destruct (U64_MAX <? _); [by simplify_eq|].
  destruct (match max_bytes (cfg r) with Some _ => _ | None => _ end) in H; [by simplify_eq|].
  set (r1 := if is_passthrough _ then _ else _) in H.
  assert (kept w0 r1 e) as Hk1 by (unfold r1; by destruct (is_passthrough _)).
  clearbody r1. destruct (past_terminal r1); [by simplify_eq|].
  destruct (decode_utf8 _ chunk) as [t left].
  change (sse (src (set_src r1 _))) with (sse (src r1)) in H.
  destruct (sse (src r1)) as [d|]; [|by simplify_eq].
  destruct (sse_push deserialize d t) as [[events|err] d']; [|by simplify_eq].
  by eapply on_events_kept.
Qed.

Lemma finish_upstream_kept r e r' e' : finish_upstream clock r e = (r', e') → kept w0 r e → kept w0 r' e'.
Proof.
  unfold finish_upstream. intros H Hk. destruct (past_terminal r); [by simplify_eq|].
  set (parsed := match sse (src r) with Some d => _ | None => _ end) in H. clearbody parsed.
  destruct parsed as [u|err]; [|by simplify_eq].
  change (carry (src (set_src r _))) with (carry (src r)) in H.
  destruct (carry (src r)); [|by simplify_eq].
  destruct (finish_boxed _) as [[decoded|err] d]; [|by simplify_eq].
  destruct (emit clock decoded _ e) as [r2 e2] eqn:He. apply emit_kept in He; [|done].
  by destruct (is_streaming r2); simplify_eq.
Qed.

Lemma turn_kept r e r' e' :
  turn clock deserialize elapses reopen_elapses room r e = (r', e') → kept w0 r e → kept w0 r' e'.
Proof.
  intros H Hk. unfold turn in H. destruct (phase r) as [|m| |]; [| | |by simplify_eq].
  - assert (∀ e0, on_next clock deserialize reopen_elapses r e0 = (r', e') → kept w0 r e0 → kept w0 r' e') as Hnext.
    { unfold on_next, on_transport_error. intros e0 H0 Hk0. destruct (next_item (items (src r))) as [[[chunk|err] rest]|].
      - by eapply on_chunk_kept.
      - by destruct (past_terminal _); simplify_eq.
      - by eapply finish_upstream_kept. }
    unfold poll_upstream, on_elapsed in H.
    destruct (wait_deadline r) as [[d|] t]; [|by apply Hnext in H].
    destruct (elapses (polls e)); [|by apply Hnext in H]. destruct (_ || _); by simplify_eq.
  - unfold on_failed in H. destruct (settle clock room _ _ e) as [a e1] eqn:Hs. simplify_eq.
    by eapply settle_kept in Hs.
  - unfold on_finished in H. destruct (if is_passthrough r then _ else _) as [r1|] eqn:Hres; [|by simplify_eq].
    assert (rotation r1 = rotation r) as Hrot.
    { unfold reserve_rendered_bytes in Hres. by repeat case_match; simplify_eq. }
    destruct (settle clock room _ _ _) as [a e1] eqn:Hs. simplify_eq.
    eapply settle_kept in Hs; [exact Hs|].
    assert (kept w0 r1 e) as Hk1 by (destruct Hk; split; [done|by rewrite Hrot]).
    by apply kept_success in Hk1.
Qed.

Lemma run_kept n r e out r' e' :
  run clock deserialize elapses reopen_elapses room n r e = (out, r', e') → kept w0 r e → kept w0 r' e'.
Proof.
  revert r e out. induction n as [|n IH]; intros r e out H Hk; simpl in H; [by simplify_eq|].
  unfold step in H. destruct (pending r) as [|bs rest] eqn:Hp.
  - destruct (phase r) eqn:Hph; cbn in H; try (by simplify_eq);
      destruct (turn clock deserialize elapses reopen_elapses room r e) as [r1 e1] eqn:Ht;
      destruct (run clock deserialize elapses reopen_elapses room n r1 e1) as [[out1 r2] e2] eqn:Hrun; simplify_eq;
      eapply IH; try done; by eapply turn_kept.
  - destruct (run clock deserialize elapses reopen_elapses room n _ e) as [[out1 r2] e2] eqn:Hrun. simplify_eq.
    by eapply IH.
Qed.

End From.

(** A relay read for [n] rounds, then dropped. *)
Definition read_and_drop (n : nat) (r : Relay) (e : Env) : Env :=
  let '(_, r, e) := run clock deserialize elapses reopen_elapses room n r e in drop_relay clock room r e.

Lemma read_and_drop_kept n r e :
  (∀ h, rotation r = Some h → rotation_keeps h) → R (world e) (world (read_and_drop n r e)).
Proof.
  intros Hh. unfold read_and_drop.
  destruct (run clock deserialize elapses reopen_elapses room n r e) as [[out r1] e1] eqn:Hrun.
  eapply (run_kept (world e)) in Hrun as Hk; [|by split].
  unfold drop_relay, drop_accounting. destruct (settle clock room _ _ e1) as [a e2] eqn:Hs.
  by eapply settle_kept in Hs as [Hw _].
Qed.

End RelayWorld.
End RelayWorld.
