(* ===== verification/StreamDispatch.v ===== *)
(** * Streamed dispatch ([open_stream_lease] and [stream_with_failover] of
    [crates/gateway/src/routes/dispatch.rs]).

    A streamed request walks its model's targets, and at each target the leases
    of its credential plan, until one of them opens a stream; the relay of
    [Streaming] then owns the request's accounting, its admission permit and the
    leases that are left.  A walk that opens nothing settles the request itself:
    as an upstream error if it reached for a provider, else by giving the hold
    back. *)

From S2P Require Import Prelude Circuit Text Sse Json ProviderError Pricing Admission GatewayError Provider Anthropic OpenAi Native Transport Credentials Dispatch Ids Usage Store Accounting Streaming RelayWorld.

Module StreamDispatch.
Import ProviderError.ProviderError (ProviderError, TryNext, Return, decide_failover).
Import GatewayError.GatewayError (TransportError, TProvider, GatewayError).
Import Pricing.Pricing (RequestPrice).
Import Provider.Provider.
Import Anthropic.Anthropic (ThinkingCodec).
Import Transport.Transport (Net, sent, now, HttpRequest, SendOutcome, TransportLimits, dispatch_stream, send_stream,
  idle_bounded_stream, at_instant, NANOS_PER_MILLI).
Import Credentials.Credentials (CredentialLease, lease_id, CredentialPlan, source, attempts, parked, use_step, use_success, use_failure).
Import Circuit.Circuit (Allow, Skip).
Import Dispatch.Dispatch.
Import Store.Store (Reservation).
Import Accounting.Accounting (BudgetKey, EventIdentity, Job, CoreAccounting, release_core_budget, drop_core,
  Caller, caller_namespace, caller_subject, caller_signer_kid, caller_attrs).
Import Streaming.Streaming (StreamContext, mkContext, Env, world, set_world, add_jobs, release_permit, jobs, released,
  OpenedStream, mkOpened, new_with_deadline, RotationHandle, Relay, relay_opened_with_accounting,
  settle_upstream_error_with_accounting).

Section StreamDispatch.
Context {J : SerdeJson} {C : ThinkingCodec} (clock : nat → Z) (network : nat → HttpRequest → SendOutcome)
  (tl : TransportLimits).

(** ** Opening a stream *)

Definition lease_decoder (a : BoxedAdapter) (r : Route) : result TransportError BoxedDecoder :=
  match r with
  | RChatCompletions => map_err TProvider (@stream_decoder J _ (adapter_impl a) (adapter a) ChatCompletions)
  | RResponses => map_err TProvider (@stream_decoder J _ (adapter_impl a) (adapter a) Responses)
  | _ => Ok (mkBoxed _ Native.Native.NativeMessagesDecoder_impl Native.Native.new)
  end.

Definition open_lease_stream (a : BoxedAdapter) (p : Provider) (t : Target) (body : Value) (wire : Wire)
    (l : CredentialLease) (deadline : Z) (n : Net) : result TransportError Transport.Transport.Reads * Net :=
  let request_body := insert_field body "model" (Str (t_model t)) in
  match route wire with
  | RChatCompletions =>
      @dispatch_stream J clock network tl _ (adapter_impl a) (adapter a) (upstream_of p l) ChatCompletions
        (mkRequest (t_model t) request_body) (at_instant deadline) n
  | _ =>
      send_stream clock network tl (upstream_of p l)
        (wire_call wire request_body (@name J _ (adapter_impl a) (adapter a))) (at_instant deadline) n
  end.

Definition open_stream_lease (p : Provider) (t : Target) (body : Value) (wire : Wire) (deadline : Z)
    (w : World) (l : CredentialLease) : result TransportError OpenedStream * World :=
  let a := adapter_for (kind p) in
  match lease_decoder a (route wire) with
  | Err e => (Err e, w)
  | Ok decoder =>
      let '(opened, n) := open_lease_stream a p t body wire l deadline (net w) in
      ((λ reads, mkOpened (Streaming.Streaming.mkStream (idle_bounded_stream tl reads) 0) decoder) <$> opened, set_net w n)
  end.

(** ** The request *)

Record BudgetHold := mkBudgetHold {
  h_key : BudgetKey;
  h_reservation : Reservation;
  h_estimated_input_tokens : Z;
  h_admission : option nat;
}.

Record StreamRequest := mkStreamRequest {
  alias : string;
  body : Value;
  price : RequestPrice;
  wire : Wire;
  identity : EventIdentity;
  r_core_accounting : CoreAccounting;
  r_delivery : StreamDelivery;
  hold : BudgetHold;
}.

(** The walk, with the last failure to open and the context it failed in. *)
Record StreamWalk := mkStreamWalk {
  base : FailoverWalk;
  last_error : option TransportError;
  last_ctx : option (StreamContext * Z);
}.

Definition stream_walk_new : StreamWalk := mkStreamWalk walk_new None None.

Definition set_base (walk : StreamWalk) (b : FailoverWalk) : StreamWalk :=
  mkStreamWalk b (last_error walk) (last_ctx walk).

Definition count_attempt (walk : StreamWalk) : StreamWalk :=
  set_base walk (mkWalk (walk_attempts (base walk) + 1) (skipped_open (base walk)) (no_credential (base walk))
                   (last_outcome (base walk))).

Definition note_failure (walk : StreamWalk) (e : TransportError) (c : StreamContext) (started : Z) : StreamWalk :=
  mkStreamWalk (base walk) (Some e) (Some (c, started)).

Definition with_attempts (c : StreamContext) (n : Z) (permit : option nat) : StreamContext :=
  mkContext (Streaming.Streaming.ctx_namespace c) (Streaming.Streaming.ctx_attrs c)
    (Streaming.Streaming.ctx_subject c) (Streaming.Streaming.ctx_signer_kid c) (Streaming.Streaming.ctx_alias c)
    (Streaming.Streaming.ctx_target_provider c) (Streaming.Streaming.ctx_target_model c)
    (Streaming.Streaming.ctx_source c) (Streaming.Streaming.ctx_credential_id c)
    (Streaming.Streaming.ctx_identity c) (Streaming.Streaming.ctx_price c) (Streaming.Streaming.ctx_budget_key c)
    (Streaming.Streaming.ctx_reservation c) permit (Streaming.Streaming.ctx_estimated_input_tokens c) n.

(** What a walk comes to at one target. *)
Inductive LeaseEnd :=
| Opened (c : StreamContext) (o : OpenedStream) (started : Z) (rot : RotationHandle)
| Stop
| NextTarget.

Inductive StreamEnd :=
| Relayed (c : StreamContext) (o : OpenedStream) (started : Z) (rot : RotationHandle)
| GaveUp (walk : StreamWalk)
| LostAffinity (e : GatewayError).

Section Request.
Context (cfg : Snapshot) (caller : Caller) (attrs : option Value) (req : StreamRequest) (deadline : Z).

Definition stream_context (t : Target) (plan : CredentialPlan) (l : CredentialLease) : StreamContext :=
  mkContext (caller_namespace caller) (match attrs with Some v => Some v | None => caller_attrs caller end)
    (caller_subject caller) (caller_signer_kid caller) (alias req) (t_provider t) (t_model t) (source plan)
    (lease_id l) (identity req) (price req) (h_key (hold req)) (h_reservation (hold req)) None
    (h_estimated_input_tokens (hold req)) 0.

Section Target.
Context (t : Target) (p : Provider) (plan : CredentialPlan) (more_targets : bool).

(** The opener a rotation calls again, with the lease it moves to. *)
Definition reopen (w : World) (l : CredentialLease) (_ : nat) : result TransportError OpenedStream * World :=
  open_stream_lease p t (body req) (wire req) deadline w l.

Definition lease_rotation (leases : list CredentialLease) (l : CredentialLease) (lease_index : nat) : RotationHandle :=
  new_with_deadline leases l (length (parked plan) + lease_index + 1) reopen (Some deadline)
    (record_lease_failure clock) record_lease_success.

Fixpoint lease_loop (leases : list CredentialLease) (lease_index : nat) (walk : StreamWalk) (w : World)
    : LeaseEnd * StreamWalk * World :=
  match leases with
  | [] => (NextTarget, count_attempt walk, w)
  | l :: leases =>
      let '(t0, n) := now clock (net w) in
      if deadline <=? t0 then (Stop, if (0 <? lease_index)%nat then count_attempt walk else walk, set_net w n)
      else
        let '(started, n) := now clock n in
        let attempts := walk_attempts (base walk) + 1 in
        let c := with_attempts (stream_context t plan l) attempts None in
        match open_stream_lease p t (body req) (wire req) deadline (set_net w n) l with
        | (Ok opened, w) =>
            (Opened (with_attempts c attempts (h_admission (hold req))) opened started
               (lease_rotation leases l lease_index), walk, record_target_success w (target_key t))
        | (Err e, w) =>
            if is_credential_exhausted e then
              lease_loop leases (S lease_index) (note_failure walk e c started) (record_lease_failure clock w l)
            else
              let w := record_target_failure clock w (target_key t) e in
              let '(next, w) := has_next clock more_targets (limit_attempts cfg (wire req)) deadline (base walk) w in
              let walk := count_attempt (note_failure walk e c started) in
              match decide_failover (as_provider_error e) next with
              | Return => (Stop, walk, w)
              | TryNext => (NextTarget, walk, w)
              end
        end
  end.

End Target.

Fixpoint stream_target_loop (targets : list Target) (first : bool) (walk : StreamWalk) (w : World)
    : StreamEnd * World :=
  match targets with
  | [] => (GaveUp walk, w)
  | t :: targets =>
      let lost := is_continuation (route (wire req)) (body req) in
      if pins_affinity (route (wire req)) && negb first then (GaveUp walk, w)
      else
        let '(stop, w) := out_of_budget clock (limit_attempts cfg (wire req)) deadline (base walk) w in
        if stop : bool then (GaveUp walk, w)
        else
          match provider_of cfg (t_provider t) with
          | None => if lost then (LostAffinity (affinity_lost t), w) else stream_target_loop targets false walk w
          | Some p =>
              match allow_target clock w (target_key t) with
              | (Skip, w) =>
                  if lost then (LostAffinity (affinity_lost t), w)
                  else stream_target_loop targets false (set_base walk (note_skipped (base walk) (target_key t))) w
              | (Allow _, w) =>
                  let missing :=
                    set_base walk (note_missing_credential (caller_namespace caller) (base walk) (provider_id p)) in
                  match plan_target clock cfg (pins_affinity (route (wire req))) (caller_namespace caller)
                          (provider_id p) w with
                  | (None, w) =>
                      if lost then (LostAffinity (affinity_lost t), w) else stream_target_loop targets false missing w
                  | (Some plan, w) =>
                      match attempts plan with
                      | [] => stream_target_loop targets false missing w
                      | _ :: _ =>
                          match lease_loop t p plan (negb (bool_decide (targets = []))) (attempts plan) 0 walk w with
                          | (Opened c o started rot, _, w) => (Relayed c o started rot, w)
                          | (Stop, walk, w) => (GaveUp walk, w)
                          | (NextTarget, walk, w) => stream_target_loop targets false walk w
                          end
                      end
                  end
              end
          end
  end.

End Request.

(** ** The whole walk *)

Section End_of_walk.
(** Whether [try_spawn] finds capacity; the process's bounds on a stream. *)
Context (room : bool) (limits : Admission.AdmissionLimits) (grace : Z).

(** The request's accounting is given back, and the owner and the permit dropped. *)
Definition give_back_core (core : CoreAccounting) (permit : option nat) (e : Env) : Env :=
  let '(js, core) := release_core_budget core in
  add_jobs (release_permit (add_jobs e js) permit) (drop_core room core).

Definition stream_with_failover (cfg : Snapshot) (caller : Caller) (targets : list Target) (attrs : option Value)
    (req : StreamRequest) (e : Env) : result GatewayError Relay * Env :=
  let '(t0, n) := now clock (net (world e)) in
  let deadline := t0 + overall_timeout_ms cfg * NANOS_PER_MILLI in
  let core := r_core_accounting req in
  let permit := h_admission (hold req) in
  match stream_target_loop cfg caller attrs req deadline targets true stream_walk_new (set_net (world e) n) with
  | (Relayed c o started rot, w) =>
      (Ok (relay_opened_with_accounting c o started (framing (route (wire req))) (Some rot) core (r_delivery req)
             limits grace), set_world e w)
  | (LostAffinity err, w) => (Err err, add_jobs (release_permit (set_world e w) permit) (drop_core room core))
  | (GaveUp walk, w) =>
      let e := set_world e w in
      match last_error walk with
      | Some err =>
          (Err (GatewayError.GatewayError.Transport err),
           match last_ctx walk with
           | Some (c, started) =>
               settle_upstream_error_with_accounting clock room
                 (with_attempts c (walk_attempts (base walk)) permit) started core e
           | None => give_back_core core permit e
           end)
      | None => (Err (into_error (base walk)), give_back_core core permit e)
      end
  end.

End End_of_walk.
(** ** What a streamed walk says to the network *)

(** Requests that are [ok] left, and the credential store was used. *)
Record speaks (ok : HttpRequest → Prop) (cc : Credentials.Credentials.Config) (w w' : World) : Prop := {
  speaks_sent : ∃ reqs, sent (net w') = sent (net w) ++ reqs ∧ Forall ok reqs;
  speaks_store : rtc (use_step cc) (credentials w) (credentials w');
}.

#[local] Instance speaks_preorder ok cc : PreOrder (speaks ok cc).
Proof.
  split.
  - intros w. split; [|apply rtc_refl]. exists []. by rewrite app_nil_r.
  - intros w1 w2 w3 [(r1 & H1 & F1) C1] [(r2 & H2 & F2) C2]. split; [|by transitivity (credentials w2)].
    exists (r1 ++ r2). rewrite H2, H1, (assoc_L (++)). split; [done|]. by apply Forall_app.
Qed.

Lemma silent_speaks ok cc w w' :
  sent (net w') = sent (net w) → rtc (use_step cc) (credentials w) (credentials w') → speaks ok cc w w'.
Proof. intros Hs Hc. split; [|done]. exists []. by rewrite app_nil_r. Qed.

Lemma quiet_speaks ok cfg w w' : quiet cfg w w' → speaks ok (config cfg) w w'.
Proof. intros (? & _ & ?). by apply silent_speaks. Qed.

Lemma open_encoded_for (ok : HttpRequest → Prop) provider p l path headers body deadline n r n' :
  (∀ req, request_for p l req → ok req) →
  Transport.Transport.open_encoded_stream clock network tl provider (upstream_of p l) path headers body deadline n
    = (r, n') →
  ∃ reqs, sent n' = sent n ++ reqs ∧ Forall ok reqs.
Proof.
  intros Hok H.
  destruct (Transport.Transport.open_encoded_stream_sent clock network tl provider (upstream_of p l) path headers
    body deadline n) as (reqs & Hs & Hsub).
  rewrite H in Hs. exists reqs. split; [done|]. apply list.Forall_forall. intros req Hin.
  apply (λ H, elem_of_sublist _ _ _ H Hsub) in Hin. apply list_elem_of_singleton in Hin as ->.
  by apply Hok, encoded_request_for.
Qed.

Lemma open_stream_lease_speaks (ok : HttpRequest → Prop) cc p t body wire deadline w l r w' :
  (∀ req, request_for p l req → ok req) →
  open_stream_lease p t body wire deadline w l = (r, w') →
  speaks ok cc w w' ∧ credentials w' = credentials w ∧ target_circuits w' = target_circuits w.
Proof.
  intros Hok H. unfold open_stream_lease in H.
  destruct (lease_decoder _ (route wire)) as [d|err]; [|by simplify_eq].
  destruct (open_lease_stream _ p t body wire l deadline (net w)) as [opened n] eqn:Ho. simplify_eq.
  split; [|done]. split; [|apply rtc_refl]. unfold open_lease_stream, dispatch_stream, send_stream in Ho.
  destruct (route wire); [|by eapply open_encoded_for..].
  destruct (encode_request _ _ _); [by eapply open_encoded_for|]. simplify_eq.
  exists []. by rewrite app_nil_r.
Qed.

Lemma clock_speaks ok cc w : speaks ok cc w (set_net w (now clock (net w)).2).
Proof. apply silent_speaks; [done|apply rtc_refl]. Qed.

Lemma lease_failure_speaks ok cc w l : speaks ok cc w (record_lease_failure clock w l).
Proof. apply silent_speaks; [done|]. apply rtc_once. cbn. apply use_failure. Qed.

Lemma lease_success_speaks ok cc w l : speaks ok cc w (record_lease_success w l).
Proof. apply silent_speaks; [done|]. apply rtc_once. cbn. apply use_success. Qed.

Section Isolation.
Context (cfg : Snapshot) (caller : Caller) (attrs : option Value) (req : StreamRequest) (deadline : Z).

Notation keeps ok := (RelayWorld.RelayWorld.rotation_keeps (speaks ok (config cfg))).

Definition end_keeps (ok : HttpRequest → Prop) (x : LeaseEnd) : Prop :=
  match x with Opened _ _ _ rot => keeps ok rot | _ => True end.

Lemma lease_rotation_keeps (ok : HttpRequest → Prop) t p plan leases l i :
  (∀ l' r, l' ∈ leases → request_for p l' r → ok r) → keeps ok (lease_rotation req deadline t p plan leases l i).
Proof.
  intros Hok. split; cbn; intros w l'.
  - intros j Hin%elem_of_zip_l. unfold reopen.
    destruct (open_stream_lease p t (body req) (wire req) deadline w l') as [r w'] eqn:Ho.
    eapply open_stream_lease_speaks in Ho as [? _]; [done|]. intros r0. by apply Hok.
  - apply lease_failure_speaks.
  - apply lease_success_speaks.
Qed.

Lemma lease_loop_speaks (ok : HttpRequest → Prop) t p plan more leases i walk w x walk' w' :
  (∀ l r, l ∈ leases → request_for p l r → ok r) →
  lease_loop cfg caller attrs req deadline t p plan more leases i walk w = (x, walk', w') →
  speaks ok (config cfg) w w' ∧ end_keeps ok x.
Proof.
  revert i walk w. induction leases as [|l leases IH]; intros i walk w Hok H; simpl in H; [by simplify_eq|].
  assert (∀ l' r, l' ∈ leases → request_for p l' r → ok r) as Hok'
    by (intros l' r Hl; by apply Hok, list_elem_of_further).
  destruct (deadline <=? _); [simplify_eq; split; [apply (clock_speaks ok (config cfg) w)|done]|].
  match type of H with match open_stream_lease _ _ _ _ _ ?w0 _ with _ => _ end = _ => set (w1 := w0) in H end.
  assert (speaks ok (config cfg) w w1) as Hw1 by (apply silent_speaks; [done|apply rtc_refl]).
  destruct (open_stream_lease p t (body req) (wire req) deadline w1 l) as [r w2] eqn:Ho.
  eapply open_stream_lease_speaks in Ho as [Hw2 _]; [|intros r0; by apply Hok, list_elem_of_here].
  assert (speaks ok (config cfg) w w2) as Hw.
  { transitivity w1; done. }
  destruct r as [opened|e].
  { simplify_eq. split; [destruct Hw; by split|by apply lease_rotation_keeps]. }
  destruct (is_credential_exhausted e).
  - apply IH in H as [Hs ?]; [|done]. split; [|done].
    transitivity w2; [done|]. transitivity (record_lease_failure clock w2 l); [apply lease_failure_speaks|done].
  - destruct (has_next clock _ _ _ _ _) as [next w3] eqn:Hn. apply (has_next_quiet clock cfg) in Hn.
    assert (speaks ok (config cfg) w w3) as Hw3.
    { transitivity w2; [done|]. etransitivity; [|by apply quiet_speaks].
      by apply quiet_speaks, (record_target_failure_quiet clock). }
    destruct (decide_failover _ next); simplify_eq; by split.
Qed.

Definition stream_end_keeps (ok : HttpRequest → Prop) (x : StreamEnd) : Prop :=
  match x with Relayed _ _ _ rot => keeps ok rot | _ => True end.

Section Store.
Context (env : gmap string string) (s0 : Credentials.Credentials.Credentials) (all : list Target).
Context (Hs0 : Credentials.Credentials.resolve (config cfg) env = Ok s0).

Notation ok := (isolated_request cfg env s0 (caller_namespace caller) all).

Lemma stream_target_loop_speaks targets first walk w x w' :
  rtc (use_step (config cfg)) s0 (credentials w) → (∀ t, t ∈ targets → t ∈ all) →
  stream_target_loop cfg caller attrs req deadline targets first walk w = (x, w') →
  speaks ok (config cfg) w w' ∧ stream_end_keeps ok x.
Proof.
  revert first walk w. induction targets as [|t targets IH]; intros first walk w Hs Hall H; cbn [stream_target_loop] in H.
  { by simplify_eq. }
  assert (∀ t, t ∈ targets → t ∈ all) as Hall' by (intros t' Ht; by apply Hall, list_elem_of_further).
  destruct (pins_affinity _ && negb first); [by simplify_eq|].
  destruct (out_of_budget clock _ _ _ w) as [stop w1] eqn:Hb.
  apply (out_of_budget_quiet clock cfg) in Hb as [Hq1%(quiet_speaks ok) _].
  assert (∀ walk w2, speaks ok (config cfg) w w2 →
    stream_target_loop cfg caller attrs req deadline targets false walk w2 = (x, w') →
    speaks ok (config cfg) w w' ∧ stream_end_keeps ok x) as Hnext.
  { intros walk0 w2 Hw2 Hrest. apply IH in Hrest as [? ?]; [|etransitivity; [done|apply Hw2]|done].
    split; [|done]. by transitivity w2. }
  destruct stop; [by simplify_eq|].
  destruct (provider_of cfg (t_provider t)) as [p|] eqn:Hp.
  2:{ destruct (is_continuation _ _); [by simplify_eq|by eapply Hnext]. }
  destruct (allow_target clock w1 (target_key t)) as [[probe|] w2] eqn:Hal.
  all: apply (allow_target_quiet clock cfg) in Hal; apply (quiet_speaks ok) in Hal.
  all: assert (speaks ok (config cfg) w w2) as Hw2 by by transitivity w1.
  2:{ destruct (is_continuation _ _); [by simplify_eq|by eapply Hnext]. }
  destruct (plan_target clock cfg _ _ (provider_id p) w2) as [[plan|] w3] eqn:Hpl.
  all: apply plan_target_quiet in Hpl as [Hq3%(quiet_speaks ok) Hplan].
  all: assert (speaks ok (config cfg) w w3) as Hw3 by by transitivity w2.
  2:{ destruct (is_continuation _ _); [by simplify_eq|by eapply Hnext]. }
  destruct (attempts plan) as [|l ls] eqn:Hat; [by eapply Hnext|]. rewrite <-Hat in H.
  destruct (lease_loop _ _ _ _ _ _ _ _ _ _ _ _ w3) as [[y walk1] w4] eqn:Hl.
  apply (lease_loop_speaks ok) in Hl as [Hw4 Hy].
  2:{ intros l' r Hin Hr. eapply (planned_isolated cfg env s0 (credentials w2) _ (wire req)); try done.
      - etransitivity; [done|apply Hw2].
      - apply Hall, list_elem_of_here.
      - by apply Hplan. }
  assert (speaks ok (config cfg) w w4) as Hw by by transitivity w3.
  destruct y; [by simplify_eq..|by eapply Hnext].
Qed.

End Store.
End Isolation.

(** ** What a streamed walk settles *)

Section Outcome.
Context (cfg : Snapshot) (caller : Caller) (attrs : option Value) (req : StreamRequest) (deadline : Z).

Definition for_request (c : StreamContext) (permit : option nat) : Prop :=
  Streaming.Streaming.ctx_budget_key c = h_key (hold req) ∧
  Streaming.Streaming.ctx_reservation c = h_reservation (hold req) ∧
  Streaming.Streaming.ctx_identity c = identity req ∧
  Streaming.Streaming.ctx_namespace c = caller_namespace caller ∧
  Streaming.Streaming.ctx_admission_permit c = permit.

(** A stream failed to open; nothing was tried. *)
Definition failed_walk (walk : StreamWalk) : Prop :=
  0 ≤ walk_attempts (base walk) ∧
  ∃ e c started, last_error walk = Some e ∧ last_ctx walk = Some (c, started) ∧ for_request c None.

Definition counted_walk (walk : StreamWalk) : Prop := failed_walk walk ∧ 0 < walk_attempts (base walk).

Definition idle_walk (w0 : World) (walk : StreamWalk) (w : World) : Prop :=
  last_error walk = None ∧ last_ctx walk = None ∧ walk_attempts (base walk) = 0 ∧ sent (net w) = sent (net w0).

Lemma count_failed walk : failed_walk walk → counted_walk (count_attempt walk).
Proof. intros [? H]. split; [split; [cbn; lia|exact H]|cbn; lia]. Qed.

Lemma note_failed walk e t plan l n started :
  0 ≤ walk_attempts (base walk) →
  failed_walk (note_failure walk e (with_attempts (stream_context caller attrs req t plan l) n None) started).
Proof. split; [done|]. by eexists _, _, _. Qed.

Lemma lease_loop_outcome t p plan more leases i walk w x walk' w' :
  lease_loop cfg caller attrs req deadline t p plan more leases i walk w = (x, walk', w') →
  0 ≤ walk_attempts (base walk) → (if (0 <? i)%nat then failed_walk walk else leases ≠ []) →
  match x with
  | Opened c _ _ _ => for_request c (h_admission (hold req))
  | _ => counted_walk walk' ∨ i = 0%nat ∧ x = Stop ∧ walk' = walk ∧ sent (net w') = sent (net w)
  end.
Proof.
  revert i walk w. induction leases as [|l leases IH]; intros i walk w H Hn Hi; simpl in H.
  { simplify_eq. left. destruct i; [done|]. by apply count_failed. }
  destruct (deadline <=? _).
  { simplify_eq. destruct i; [by right|]. left. by apply count_failed. }
  destruct (open_stream_lease p t (body req) (wire req) deadline _ l) as [[opened|e] w2].
  { by simplify_eq. }
  destruct (is_credential_exhausted e).
  - apply IH in H; [|done|by apply note_failed]. destruct x; [done|..]; (destruct H as [H|[? _]]; [by left|done]).
  - destruct (has_next clock _ _ _ _ _) as [next w3].
    by destruct (decide_failover _ next); simplify_eq; left; apply count_failed, note_failed.
Qed.

Lemma idle_later w0 walk walk' w w' :
  counted_walk walk ∨ idle_walk w0 walk w → last_error walk' = last_error walk → last_ctx walk' = last_ctx walk →
  walk_attempts (base walk') = walk_attempts (base walk) → sent (net w') = sent (net w) →
  counted_walk walk' ∨ idle_walk w0 walk' w'.
Proof.
  unfold counted_walk, failed_walk, idle_walk. intros H -> -> -> ->. exact H.
Qed.

Lemma stream_target_loop_outcome targets first walk w x w' w0 :
  stream_target_loop cfg caller attrs req deadline targets first walk w = (x, w') →
  (first = true → idle_walk w0 walk w) → counted_walk walk ∨ idle_walk w0 walk w →
  match x with
  | Relayed c _ _ _ => for_request c (h_admission (hold req))
  | GaveUp walk' => counted_walk walk' ∨ idle_walk w0 walk' w'
  | LostAffinity _ => sent (net w') = sent (net w0)
  end.
Proof.
  revert first walk w. induction targets as [|t targets IH]; intros first walk w H Hfirst Hwalk; cbn [stream_target_loop] in H.
  { by simplify_eq. }
  destruct (pins_affinity _ && negb first) eqn:Hpin; [by simplify_eq|].
  destruct (out_of_budget clock _ _ _ w) as [stop w1] eqn:Hb.
  apply (out_of_budget_quiet clock cfg) in Hb as [[Hs1 _] _].
  destruct stop; [simplify_eq; by eapply idle_later|].
  assert (∀ e w2, sent (net w2) = sent (net w) → is_continuation (route (wire req)) (body req) = true →
    (LostAffinity e, w2) = (x, w') →
    match x with
    | Relayed c _ _ _ => for_request c (h_admission (hold req))
    | GaveUp walk' => counted_walk walk' ∨ idle_walk w0 walk' w'
    | LostAffinity _ => sent (net w') = sent (net w0)
    end) as Hlost.
  { intros e w2 Hs2 Hc [= <- <-]. rewrite Hs2. unfold is_continuation in Hc. apply andb_prop in Hc as [Hc _].
    rewrite Hc in Hpin. destruct first; [|done]. by apply Hfirst. }
  assert (∀ walk2 w2, counted_walk walk2 ∨ idle_walk w0 walk2 w2 →
    stream_target_loop cfg caller attrs req deadline targets false walk2 w2 = (x, w') → _) as Hnext
    by (intros walk2 w2 Hw2 Hrest; exact (IH false walk2 w2 Hrest ltac:(done) Hw2)).
  destruct (provider_of cfg (t_provider t)) as [p|].
  2:{ destruct (is_continuation _ _); [by eapply Hlost|]. by eapply Hnext, H; eapply idle_later. }
  destruct (allow_target clock w1 (target_key t)) as [[probe|] w2] eqn:Hal.
  all: apply (allow_target_quiet clock cfg) in Hal as [Hs2 _].
  2:{ destruct (is_continuation _ _); [eapply Hlost; [|done..]; congruence|].
      eapply Hnext, H. eapply idle_later; try done. congruence. }
  destruct (plan_target clock cfg _ _ (provider_id p) w2) as [plan w3] eqn:Hpl.
  apply plan_target_quiet in Hpl as [[Hs3 _] _]. assert (sent (net w3) = sent (net w)) as Hs by congruence.
  destruct plan as [plan|].
  2:{ destruct (is_continuation _ _); [by eapply Hlost|]. by eapply Hnext, H; eapply idle_later. }
  destruct (attempts plan) as [|l ls] eqn:Hat; [by eapply Hnext, H; eapply idle_later|]. rewrite <-Hat in H.
  destruct (lease_loop _ _ _ _ _ _ _ _ _ _ _ _ w3) as [[y walk1] w4] eqn:Hl.
  apply lease_loop_outcome in Hl; [|by destruct Hwalk as [[[] _]|(_ & _ & -> & _)]|by rewrite Hat].
  destruct y; [by simplify_eq| |].
  - simplify_eq. destruct Hl as [?|(_ & _ & -> & Hs4)]; [by left|]. eapply idle_later; try done. congruence.
  - eapply Hnext, H. destruct Hl as [?|(_ & ? & _)]; [by left|done].
Qed.

End Outcome.

Section Accounts.
Context (deserialize : string → Sse.Sse.visit) (elapses reopen_elapses : nat → bool) (room : bool)
  (limits : Admission.AdmissionLimits) (grace : Z).

(** A response to a streamed request: when a relay opened, its caller reads for
    [n] rounds and goes away. *)
Definition respond (n : nat) (r : result GatewayError Relay) (e : Env) : Env :=
  match r with
  | Ok relay => RelayWorld.RelayWorld.read_and_drop clock deserialize elapses reopen_elapses room n relay e
  | Err _ => e
  end.

Lemma settle_error_jobs c started core e :
  ∃ latency,
    let record := Streaming.Streaming.settlement_record (Streaming.Streaming.new_with_core c started core)
                    Usage.Usage.UpstreamError latency in
    let e' := settle_upstream_error_with_accounting clock room c started core e in
    jobs e' = jobs e ++ Streaming.Streaming.settlement_jobs room core c record ∧
    released e' = released e ++ option_list (Streaming.Streaming.ctx_admission_permit c) ∧
    sent (net (world e')) = sent (net (world e)).
Proof. eexists. cbn. rewrite app_nil_r. by split_and!. Qed.

Context (cfg : Snapshot) (caller : Caller) (targets : list Target) (attrs : option Value) (req : StreamRequest).

Notation stream := (stream_with_failover room limits grace cfg caller targets attrs req).

Lemma stream_speaks env s0 e r e1 n :
  Credentials.Credentials.resolve (config cfg) env = Ok s0 →
  rtc (use_step (config cfg)) s0 (credentials (world e)) → stream e = (r, e1) →
  speaks (isolated_request cfg env s0 (caller_namespace caller) targets) (config cfg)
    (world e) (world (respond n r e1)).
Proof.
  intros H0 Hs H. unfold stream_with_failover in H. cbn [now] in H.
  destruct (stream_target_loop _ _ _ _ _ _ _ _ _) as [x w] eqn:Hl.
  eapply (stream_target_loop_speaks cfg caller attrs req _ env s0 targets H0) in Hl as [Hw Hx]; [|done..].
  match type of Hw with speaks _ _ ?w0 _ =>
    assert (speaks (isolated_request cfg env s0 (caller_namespace caller) targets) (config cfg) (world e) w) as Hew
      by (transitivity w0; [apply silent_speaks; [done|apply rtc_refl]|exact Hw]) end.
  destruct x as [c o started rot|walk|err].
  - simplify_eq. cbn. transitivity w; [done|].
    apply (RelayWorld.RelayWorld.read_and_drop_kept clock deserialize elapses reopen_elapses room
      (speaks (isolated_request cfg env s0 (caller_namespace caller) targets) (config cfg)) (clock_speaks _ _) n _
      (set_world e w)).
    by intros h [= <-].
  - unfold give_back_core in H. destruct (last_error walk) as [err|]; [destruct (last_ctx walk) as [[c st]|]|];
      simplify_eq; cbn; try (by destruct (release_core_budget _)).
    destruct (settle_error_jobs (with_attempts c (walk_attempts (base walk)) (h_admission (hold req))) st
      (r_core_accounting req) (set_world e w)) as (latency & _ & _ & Hsent).
    transitivity w; [done|]. by apply silent_speaks; [exact Hsent|apply rtc_refl].
  - by simplify_eq.
Qed.

(** No stream opened: the request was settled, as an upstream error if it reached
    for a provider. *)
Definition unopened (h : Accounting.Accounting.CoreBudgetHold) (t : nat) (e e1 : Env) : Prop :=
  released e1 = released e ++ option_list (h_admission (hold req)) ∧
  ∃ js record, jobs e1 = jobs e ++ js ∧ Accounting.Accounting.accounted h t record js ∧
    match record with
    | Some u => ∃ c started latency, u = Streaming.Streaming.settlement_record
          (Streaming.Streaming.new_with_core c started (r_core_accounting req)) Usage.Usage.UpstreamError latency ∧
        for_request caller req c (h_admission (hold req)) ∧ 0 < Streaming.Streaming.ctx_attempts c
    | None => sent (net (world e1)) = sent (net (world e))
    end.

Lemma stream_outcome h t e r e1 :
  r_core_accounting req = Accounting.Accounting.mkCore (Some h) (Some t) → stream e = (r, e1) →
  match r with
  | Ok relay => jobs e1 = jobs e ∧ released e1 = released e ∧
      ∃ c o started rot,
        relay = relay_opened_with_accounting c o started (framing (route (wire req))) rot (r_core_accounting req)
                  (r_delivery req) limits grace ∧ for_request caller req c (h_admission (hold req))
  | Err _ => unopened h t e e1
  end.
Proof.
  intros Hcore H. unfold stream_with_failover in H. cbn [now] in H.
  destruct (stream_target_loop _ _ _ _ _ _ _ _ _) as [x w] eqn:Hl.
  eapply (stream_target_loop_outcome cfg caller attrs req _ targets true _ _ x w (world e)) in Hl; [|done|by right].
  assert (sent (net w) = sent (net (world e)) →
    unopened h t e (give_back_core room (r_core_accounting req) (h_admission (hold req)) (set_world e w))) as Hgive.
  { intros Hs. rewrite Hcore. split; [done|]. eexists _, None. cbn. rewrite <-app_assoc.
    split; [done|]. split; [apply (Accounting.Accounting.release_accounted room)|exact Hs]. }
  destruct x as [c o started rot|walk|err].
  - simplify_eq. split_and!; [done..|]. by eexists c, o, started, (Some rot).
  - destruct Hl as [[(_ & err & c & st & He & Hc & Hreq) Hpos]|(He & _ & _ & Hs)]; rewrite He in H.
    2: injection H as <- <-; by apply Hgive.
    rewrite Hc in H. injection H as <- <-.
    destruct (settle_error_jobs (with_attempts c (walk_attempts (base walk)) (h_admission (hold req))) st
      (r_core_accounting req) (set_world e w)) as (latency & Hj & Hrel & _).
    split; [exact Hrel|]. eexists _, (Some _). split; [exact Hj|]. split; [rewrite Hcore|].
    + apply (Accounting.Accounting.stream_accounted room).
    + eexists _, st, latency. split; [reflexivity|]. destruct Hreq as (?&?&?&?&_). by split_and!.
  - injection H as <- <-. split; [done|]. eexists _, None. rewrite Hcore. split; [done|]. split; [|exact Hl].
    apply (Accounting.Accounting.drop_accounted room).
Qed.

(** The record names the request, its caller and the period it was admitted in. *)
Definition records_request (u : Usage.Usage.UsageRecord) : Prop :=
  Usage.Usage.request_id u = Ids.Ids.RequestId_display (Accounting.Accounting.event_request_id (identity req)) ∧
  Usage.Usage.namespace u = caller_namespace caller ∧
  Usage.Usage.period u = Store.Store.r_period (h_reservation (hold req)).

Lemma settlement_records_request a c permit status latency :
  Streaming.Streaming.same_request (Streaming.Streaming.ctx a) c → for_request caller req c permit →
  records_request (Streaming.Streaming.settlement_record a status latency).
Proof.
  unfold Streaming.Streaming.same_request. intros Hsame (_ & Hres & Hid & Hns & _).
  destruct (Streaming.Streaming.ctx a) eqn:Ha, c. injection Hsame as -> -> -> -> -> -> -> -> -> -> -> -> -> -> ->.
  unfold records_request. cbn in *. rewrite Ha. cbn. by rewrite Hres, Hid, Hns.
Qed.

Lemma stream_accounted_once h t e r e1 n :
  r_core_accounting req = Accounting.Accounting.mkCore (Some h) (Some t) → stream e = (r, e1) →
  released (respond n r e1) = released e ++ option_list (h_admission (hold req)) ∧
  ∃ js record, jobs (respond n r e1) = jobs e ++ js ∧ Accounting.Accounting.accounted h t record js ∧
    match record with
    | Some u => records_request u
    | None => is_ok r = false ∧ sent (net (world e1)) = sent (net (world e))
    end.
Proof.
  intros Hcore H. apply stream_outcome with (h := h) (t := t) in H; [|done]. destruct r as [relay|err]; cbn [respond].
  - destruct H as (Hj & Hrel & c & o & started & rot & -> & Hreq).
    unfold RelayWorld.RelayWorld.read_and_drop.
    destruct (Streaming.Streaming.run _ _ _ _ _ n _ e1) as [[out relay] e2] eqn:Hrun.
    apply Streaming.Streaming.running_run with (c := c) (core := r_core_accounting req) in Hrun.
    pose proof (Streaming.Streaming.running_ctx _ _ _ _ _ _ _ _ Hrun) as Hsame.
    apply (Streaming.Streaming.drop_relay_jobs clock) in Hrun as (status & latency & Hjs & _ & _ & Hr2).
    rewrite Hr2, Hrel. destruct Hreq as (Hk & Hres & Hid & Hns & Hp) eqn:Hfor. split; [by rewrite Hp|].
    eexists _, (Some _). rewrite Hjs, Hj. split; [done|]. split.
    + rewrite Hcore. apply (Accounting.Accounting.stream_accounted room).
    + by eapply settlement_records_request.
  - destruct H as (Hrel & js & record & Hj & Hacc & Hr). split; [done|]. exists js, record. split_and!; [done..|].
    destruct record as [u|]; [|done]. destruct Hr as (c & started & latency & -> & Hreq & _).
    by eapply settlement_records_request.
Qed.

End Accounts.

End StreamDispatch.
End StreamDispatch.
