(* ===== verification/Auth.v ===== *)
(** * Inbound authentication ([crates/gateway/src/principals.rs],
    [routes/auth.rs], [key_material.rs] and the keys of [ConfigSnapshot::build] in
    [state.rs]).

    Every request presents one of the keys the snapshot resolved.  A namespaced
    route then reads its namespace from the path, asks the caller's grant and the
    store for it, and checks the capability of the route. *)

From Stdlib Require Import NArith.
From S2P Require Import Prelude Text Json Scopes GatewayError Pricing Credentials Dispatch Store Accounting.

Module Auth.
Import Scopes.Namespace (NamespaceId, InvalidNamespaceId, NamespaceGrant, parse, one, permits, as_str).
Import GatewayError.GatewayError (GatewayError, Capability, Chat, Messages, Embeddings, Responses, Models,
  CredentialsAll, Unauthorized, NamespaceNotAuthorized, UnknownNamespace, InvalidNamespace, ScopeInsufficient,
  NamespaceConflict, StoreUnavailable, BadRequest).
Import Dispatch.Dispatch (Route, RChatCompletions, RNativeMessages, REmbeddings, RResponses, serves, Provider, kind,
  provider_id).
Import Store.Store (StoreError, Duplicate, NotFound, Unavailable, Invalid, BudgetAdmit, NamespaceRecord,
  NamespaceResolve, record, budget_admit).
Import Accounting.Accounting (Caller, mkCaller).

(** ** Key material *)

Inductive KeyMaterialSource := KeyEnv (name : string) | KeyFile (path : string).

(** What reading a key file gives: its bytes, or the kind and text of the error. *)
Definition FileRead := result (string * string) bytes.

Inductive KeyMaterialError :=
| MissingEnv (name : string)
| FileReadFailed (path error_kind error : string)
| EmptyFile (path : string)
| InvalidUtf8 (path : string).

Definition resolve_key_material (source : KeyMaterialSource) (env : gmap string string) (read : string → FileRead)
    : result KeyMaterialError string :=
  match source with
  | KeyEnv name =>
      match env !! name with
      | Some value => if bool_decide (value = ""%string) then Err (MissingEnv name) else Ok value
      | None => Err (MissingEnv name)
      end
  | KeyFile path =>
      match read path with
      | Err (error_kind, error) => Err (FileReadFailed path error_kind error)
      | Ok [] => Err (EmptyFile path)
      | Ok bs => match from_utf8 bs with ValidUtf8 => Ok (text bs) | _ => Err (InvalidUtf8 path) end
      end
  end.

(** ** Comparing secrets *)

(** [diff |= x ^ y] over the common length of two byte strings. *)
Fixpoint difference (diff : N) (xs ys : bytes) : N :=
  match xs, ys with
  | x :: xs, y :: ys => difference (N.lor diff (N.lxor (N_of_ascii x) (N_of_ascii y))) xs ys
  | _, _ => diff
  end.

Definition constant_time_eq (x y : bytes) : bool :=
  if negb (length x =? length y)%nat then false else (difference 0 x y =? 0)%N.

Section Auth.
Context {J : SerdeJson}.

(** ** Principals *)

Inductive PrincipalAuthority := StaticKey.

Record InboundKey := mkInboundKey {
  k_namespace : string;
  k_subject : string;
  authority : PrincipalAuthority;
  k_signer_kid : option string;
  scope : option (list Capability);
  k_max_request_microdollars : option Z;
  k_namespace_grant : option NamespaceGrant;
  k_attrs : option Value;
}.

Definition namespace_grant (k : InboundKey) : result InvalidNamespaceId NamespaceGrant :=
  match k_namespace_grant k with
  | Some g => Ok g
  | None => one <$> parse (b (k_namespace k))
  end.

Definition holds_direct_operator_authority (k : InboundKey) (default_namespace : string) : bool :=
  match authority k, scope k with
  | StaticKey, None => bool_decide (k_namespace k = default_namespace)
  | StaticKey, Some _ => false
  end.

Record GatewayKeyEntry := mkKeyEntry { secret : string; caller : InboundKey }.

Definition resolve_static_key (entries : list GatewayKeyEntry) (credential : string) : option InboundKey :=
  caller ∘ snd <$> list_find (λ e, constant_time_eq (b (secret e)) (b credential)) entries.

(** ** The keys of a snapshot *)

(** A [[[gateway_key]]]: its source and label, where it declares exactly one. *)
Record GatewayKey := mkGatewayKey {
  gk_namespace : string;
  gk_source : option (KeyMaterialSource * string);
}.

Inductive SnapshotError :=
| MissingGatewayKey (namespace env : string)
| GatewayKeyFile (namespace path error_kind error : string)
| EmptyGatewayKeyFile (namespace path : string)
| InvalidGatewayKeyFileUtf8 (namespace path : string)
| InvalidGatewayKeySource (namespace : string)
| DuplicateGatewayKey (env namespace other_env other_namespace : string)
| NoInboundKeys.

Definition key_error (namespace : string) (e : KeyMaterialError) : SnapshotError :=
  match e with
  | MissingEnv name => MissingGatewayKey namespace name
  | FileReadFailed path error_kind error => GatewayKeyFile namespace path error_kind error
  | EmptyFile path => EmptyGatewayKeyFile namespace path
  | InvalidUtf8 path => InvalidGatewayKeyFileUtf8 namespace path
  end.

Definition gateway_caller (namespace label : string) : InboundKey :=
  mkInboundKey namespace label StaticKey None None None (Some Scopes.Namespace.all) None.

Section Keys.
Context (env : gmap string string) (read : string → FileRead).

Fixpoint build_keys (keys : list GatewayKey) (inbound_keys : list GatewayKeyEntry)
    : result SnapshotError (list GatewayKeyEntry) :=
  match keys with
  | [] => Ok inbound_keys
  | k :: keys =>
      '(source, label) ← ok_or (gk_source k) (InvalidGatewayKeySource (gk_namespace k));
      value ← map_err (key_error (gk_namespace k)) (resolve_key_material source env read);
      match list_find (λ e, constant_time_eq (b (secret e)) (b value)) inbound_keys with
      | Some (_, other) =>
          Err (DuplicateGatewayKey label (gk_namespace k) (k_subject (caller other)) (k_namespace (caller other)))
      | None => build_keys keys (inbound_keys ++ [mkKeyEntry value (gateway_caller (gk_namespace k) label)])
      end
  end.

Definition inbound_keys_of (keys : list GatewayKey) : result SnapshotError (list GatewayKeyEntry) :=
  entries ← build_keys keys [];
  match entries with [] => Err NoInboundKeys | _ => Ok entries end.

End Keys.

(** ** Authentication *)

(** The visible text of the first header of a name. *)
Definition Headers := string → option string.

Definition presented_credential (headers : Headers) : option string :=
  match headers "authorization" ≫= λ v, text <$> strip_prefix (b "Bearer ") (b v) with
  | Some credential => Some credential
  | None => headers "x-api-key"
  end.

Definition authenticate (entries : list GatewayKeyEntry) (headers : Headers) : result GatewayError InboundKey :=
  credential ← ok_or (presented_credential headers) Unauthorized;
  ok_or (resolve_static_key entries credential) Unauthorized.

(** ** The namespace of a path *)

Definition namespace_from_canonical_path (path : bytes) : result GatewayError NamespaceId :=
  match (match strip_prefix (b "/ns/") path with
         | Some rest => Some rest
         | None => strip_prefix (b "/namespaces/") path
         end) with
  | None => Err InvalidNamespace
  | Some rest =>
      match split_once "/" rest with
      | None => Err InvalidNamespace
      | Some (_, []) => Err InvalidNamespace
      | Some (namespace, _) => map_err (λ _, InvalidNamespace) (parse namespace)
      end
  end.

Definition capability_route (c : Capability) : option Route :=
  match c with
  | Chat => Some RChatCompletions
  | Messages => Some RNativeMessages
  | Embeddings => Some REmbeddings
  | Responses => Some RResponses
  | Models | GatewayError.GatewayError.Credentials | CredentialsAll => None
  end.

Section Middleware.
Context (cfg : Credentials.Credentials.Config) (creds : Credentials.Credentials.Credentials) (providers : list Provider).

Definition namespace_allows (namespace : string) (c : Capability) : bool :=
  match capability_route c with
  | None => true
  | Some route =>
      existsb (λ p, serves route (kind p) && Credentials.Credentials.is_present creds cfg namespace (provider_id p))
        providers
  end.

(** [From<StoreError> for GatewayError] *)
Definition gateway_store_error (e : StoreError) : GatewayError :=
  match e with
  | Duplicate _ => NamespaceConflict
  | NotFound _ => UnknownNamespace
  | Unavailable _ => StoreUnavailable
  | Invalid m => BadRequest m
  end.

(** What the store says of a namespace: resolved with its admission where the
    budget ledger is this store, else its record alone. *)
Record Store := mkStoreView {
  reuse_admit : bool;
  s_resolve : string → result StoreError (option NamespaceResolve);
  s_get : string → result StoreError (option NamespaceRecord);
}.

(** The extensions of a request, for its handler. *)
Record Extensions := mkExtensions {
  a_caller : InboundKey;
  a_record : option NamespaceRecord;
  a_admit : option BudgetAdmit;
}.

Definition look_up (st : Store) (namespace : string) (missing : GatewayError)
    : result GatewayError (NamespaceRecord * option BudgetAdmit) :=
  if reuse_admit st then
    found ← map_err gateway_store_error (s_resolve st namespace);
    resolved ← ok_or found missing;
    Ok (record resolved, Some (budget_admit resolved))
  else
    found ← map_err gateway_store_error (s_get st namespace);
    r ← ok_or found missing;
    Ok (r, None).

Definition set_namespace (k : InboundKey) (namespace : string) (attrs : Value) : InboundKey :=
  mkInboundKey namespace (k_subject k) (authority k) (k_signer_kid k) (scope k) (k_max_request_microdollars k)
    (k_namespace_grant k) (Some attrs).

(** The namespace of a namespaced route. *)
Definition select_namespace (st : Store) (path : bytes) (k : InboundKey) : result GatewayError Extensions :=
  namespace ← namespace_from_canonical_path path;
  grant ← map_err (λ _, NamespaceNotAuthorized) (namespace_grant k);
  let authorized := permits grant namespace in
  let missing := if negb authorized then NamespaceNotAuthorized else UnknownNamespace in
  let name := text (as_str namespace) in
  '(r, reserved) ← look_up st name missing;
  if negb authorized then Err NamespaceNotAuthorized
  else Ok (mkExtensions (set_namespace k name (Store.Store.attrs r)) (Some r) reserved).

Definition check_scope (capability : option Capability) (k : InboundKey) : result GatewayError unit :=
  match capability, scope k with
  | Some c, Some scope =>
      if negb (bool_decide (c ∈ scope)) || negb (namespace_allows (k_namespace k) c) then Err (ScopeInsufficient c)
      else Ok tt
  | _, _ => Ok tt
  end.

(** [namespaced] for [RouteAuthority::Namespaced]. *)
Definition authenticate_middleware (entries : list GatewayKeyEntry) (st : Store) (capability : option Capability)
    (namespaced : bool) (path : bytes) (headers : Headers) : result GatewayError Extensions :=
  k ← authenticate entries headers;
  admitted ← (if namespaced then select_namespace st path k else Ok (mkExtensions k None None));
  _ ← check_scope capability (a_caller admitted);
  Ok admitted.

End Middleware.
(** ** Lemmas *)

Lemma difference_zero diff xs ys :
  length xs = length ys → difference diff xs ys = 0%N ↔ diff = 0%N ∧ xs = ys.
Proof.
  revert diff ys. induction xs as [|x xs IH]; intros diff [|y ys] Hlen; try done; simpl; [by split; [|intros []]|].
  rewrite IH by (simpl in Hlen; lia). rewrite N.lor_eq_0_iff, N.lxor_eq_0_iff. split.
  - intros [[-> Hx] ->]. split; [done|]. f_equal. rewrite <-(ascii_N_embedding x), Hx. apply ascii_N_embedding.
  - by intros [-> [= -> ->]].
Qed.

Lemma constant_time_eq_spec x y : constant_time_eq x y = true ↔ x = y.
Proof.
  unfold constant_time_eq. destruct (Nat.eqb_spec (length x) (length y)) as [Hlen|Hlen]; simpl.
  - rewrite N.eqb_eq, difference_zero by done. naive_solver.
  - split; [done|]. by intros ->.
Qed.

Lemma secret_eq_spec s t : constant_time_eq (b s) (b t) = true ↔ s = t.
Proof. rewrite constant_time_eq_spec. split; [|by intros ->]. intros H. by rewrite <-(text_b s), H, text_b. Qed.

Lemma key_material_nonempty source env read v : resolve_key_material source env read = Ok v → v ≠ ""%string.
Proof.
  unfold resolve_key_material. destruct source as [name|path].
  - destruct (env !! name) as [w|]; [|done]. case_bool_decide; congruence.
  - destruct (read path) as [[|c bs]|[]]; try done. destruct (from_utf8 (c :: bs)); try done. by intros [= <-].
Qed.

(** The entry of a configured key. *)
Definition entry_of (env : gmap string string) (read : string → FileRead) (k : GatewayKey) (e : GatewayKeyEntry)
    : Prop :=
  ∃ source label, gk_source k = Some (source, label) ∧ resolve_key_material source env read = Ok (secret e) ∧
    caller e = gateway_caller (gk_namespace k) label.

Lemma build_keys_spec env read keys acc entries :
  build_keys env read keys acc = Ok entries → NoDup (secret <$> acc) →
  ∃ new, entries = acc ++ new ∧ Forall2 (entry_of env read) keys new ∧ NoDup (secret <$> entries).
Proof.
  revert acc. induction keys as [|k keys IH]; intros acc; simpl.
  { intros [= <-] ?. exists []. rewrite app_nil_r. by split_and!. }
  destruct (gk_source k) as [[source label]|] eqn:Hsrc; simpl; [|done].
  destruct (resolve_key_material source env read) as [value|e] eqn:Hval; simpl; [|done].
  destruct (list_find _ acc) as [[i other]|] eqn:Hfind; [done|]. intros H Hnd.
  apply IH in H as (new & -> & Hnew & Hnd'); clear IH.
  - eexists. rewrite <-(assoc_L (++)) in Hnd' |- *. split_and!; [reflexivity| |exact Hnd'].
    constructor; [|done]. by exists source, label.
  - rewrite fmap_app. apply NoDup_app. split_and!; [done| |apply NoDup_singleton].
    intros s Hs Hin%list_elem_of_singleton. apply list_elem_of_fmap in Hs as (e & -> & He). cbn in Hin.
    pose proof (proj1 (list_find_None _ _) Hfind) as Hall. apply (proj1 (list.Forall_forall _ _) Hall) in He.
    by apply He, Is_true_true, secret_eq_spec.
Qed.

Lemma resolve_static_key_spec entries credential k :
  NoDup (secret <$> entries) →
  resolve_static_key entries credential = Some k ↔
  ∃ i e, entries !! i = Some e ∧ secret e = credential ∧ caller e = k.
Proof.
  intros Hnd. unfold resolve_static_key. rewrite fmap_Some. split.
  - intros ([i e] & Hf & ->). apply list_find_Some in Hf as (Hi & He & _).
    exists i, e. split_and!; [done| |done]. by apply secret_eq_spec, Is_true_true.
  - intros (i & e & Hi & <- & <-). exists (i, e). split; [|done]. apply list_find_Some. split_and!; [done| |].
    + by apply Is_true_true, secret_eq_spec.
    + intros j e' Hj Hlt Heq%Is_true_true%secret_eq_spec.
      assert (j = i); [|lia]. apply (NoDup_lookup (secret <$> entries) j i (secret e)); [done|..];
        rewrite list_lookup_fmap; [by rewrite Hj, <-Heq|by rewrite Hi].
Qed.

Lemma inbound_keys_spec env read keys entries :
  inbound_keys_of env read keys = Ok entries →
  entries ≠ [] ∧ Forall2 (entry_of env read) keys entries ∧ NoDup (secret <$> entries).
Proof.
  unfold inbound_keys_of. destruct (build_keys env read keys []) as [es|] eqn:Hb; simpl; [|done].
  apply build_keys_spec in Hb as (new & -> & Hf & Hnd); [|constructor]. simpl in *.
  destruct new; [done|]. by intros [= <-].
Qed.

Lemma authenticate_spec env read keys entries headers :
  inbound_keys_of env read keys = Ok entries →
  authenticate entries headers =
    match presented_credential headers ≫= resolve_static_key entries with Some k => Ok k | None => Err Unauthorized end.
Proof. intros _. unfold authenticate. by destruct (presented_credential headers). Qed.

(** ** Properties *)

(** C14: Authentication fails closed.  From keys a snapshot accepted, at least one,
    a request is admitted exactly when it presents the secret one of them resolved
    to, and then as the principal of that key, which no other key shares; every
    other request is refused as unauthorized.  No key is the empty text. *)
Theorem authentication_fails_closed env read keys entries headers :
  inbound_keys_of env read keys = Ok entries →
  keys ≠ [] ∧
  match authenticate entries headers with
  | Err e => e = Unauthorized ∧
      ∀ i k source label, keys !! i = Some k → gk_source k = Some (source, label) →
        ∀ secret, resolve_key_material source env read = Ok secret → presented_credential headers ≠ Some secret
  | Ok principal => ∃ i k source label secret,
      keys !! i = Some k ∧ gk_source k = Some (source, label) ∧ resolve_key_material source env read = Ok secret ∧
      presented_credential headers = Some secret ∧ secret ≠ ""%string ∧
      principal = gateway_caller (gk_namespace k) label ∧
      ∀ j k' source' label', keys !! j = Some k' → gk_source k' = Some (source', label') →
        resolve_key_material source' env read = Ok secret → j = i
  end.
Proof.
  intros H. apply inbound_keys_spec in H as (Hne & Hf & Hnd).
  split; [intros ->; inversion Hf; congruence|].
  assert (∀ i k source label secret0, keys !! i = Some k → gk_source k = Some (source, label) →
    resolve_key_material source env read = Ok secret0 → ∃ e, entries !! i = Some e ∧ secret e = secret0) as Hentry.
  { intros i k source label s0 Hi Hsrc Hs. destruct (Forall2_lookup_l _ _ _ _ _ Hf Hi) as (e & He & Hent).
    exists e. split; [done|]. destruct Hent as (? & ? & ? & ? & _). congruence. }
  unfold authenticate. destruct (presented_credential headers) as [credential|]; simpl.
  2:{ by split. }
  destruct (resolve_static_key entries credential) as [p|] eqn:Hres; simpl.
  - apply resolve_static_key_spec in Hres as (i & e & He & Hsec & Hp); [|done].
    destruct (Forall2_lookup_r _ _ _ _ _ Hf He) as (k & Hk & source & label & Hsrc & Hmat & Hcaller).
    exists i, k, source, label, credential. rewrite <-Hsec in *. split_and!; try done.
    + by eapply key_material_nonempty.
    + congruence.
    + intros j k' source' label' Hj Hsrc' Hs'. destruct (Hentry _ _ _ _ _ Hj Hsrc' Hs') as (e' & He' & Hse).
      apply (NoDup_lookup (secret <$> entries) j i (secret e)); [done|..]; rewrite list_lookup_fmap;
        [by rewrite He', <-Hse|by rewrite He].
  - split; [done|]. intros i k source label Hi Hsrc s0 Hs0 [= ->].
    destruct (Hentry _ _ _ _ _ Hi Hsrc Hs0) as (e & He & Hse).
    assert (resolve_static_key entries s0 = Some (caller e)) as Hin; [|congruence].
    apply resolve_static_key_spec; [done|]. by exists i, e.
Qed.

(** A namespace has one spelling in a path, and every namespace has it: a path
    selects a namespace exactly when it is [/ns/] or [/namespaces/], that
    namespace as it prints, a slash and something more. *)
Theorem namespace_path_canonical (path m : bytes) (n : NamespaceId) :
  parse m = Ok n →
  namespace_from_canonical_path path = Ok n ↔
  ∃ prefix suffix, (prefix = b "/ns/" ∨ prefix = b "/namespaces/") ∧ suffix ≠ [] ∧
    path = prefix ++ as_str n ++ "/"%char :: suffix.
Proof.
  intros Hn. apply Scopes.Namespace.parse_ok in Hn as Hok. destruct Hok as (-> & _ & Hbytes & _).
  assert ("/"%char ∉ m) as Hslash.
  { intros Hin. apply forallb_true in Hbytes. by apply (proj1 (list.Forall_forall _ _) Hbytes) in Hin. }
  unfold namespace_from_canonical_path. split.
  - assert (∀ prefix rest, path = prefix ++ rest → prefix = b "/ns/" ∨ prefix = b "/namespaces/" →
      match split_once "/" rest with
      | Some (namespace, _ :: _) => map_err (λ _, InvalidNamespace) (parse namespace)
      | _ => Err InvalidNamespace
      end = Ok (Scopes.Namespace.mkNamespaceId m) →
      ∃ prefix suffix, (prefix = b "/ns/" ∨ prefix = b "/namespaces/") ∧ suffix ≠ [] ∧
        path = prefix ++ as_str (Scopes.Namespace.mkNamespaceId m) ++ "/"%char :: suffix) as Hgo; last first.
    { destruct (strip_prefix (b "/ns/") path) as [rest|] eqn:E.
      - apply strip_prefix_Some in E. intros H. apply (Hgo _ _ E (or_introl eq_refl)).
        by destruct (split_once "/" rest) as [[? []]|].
      - destruct (strip_prefix (b "/namespaces/") path) as [rest|] eqn:E'; [|done].
        apply strip_prefix_Some in E'. intros H. apply (Hgo _ _ E' (or_intror eq_refl)).
        by destruct (split_once "/" rest) as [[? []]|]. }
    intros prefix rest -> Hprefix. destruct (split_once "/" rest) as [[ns [|c suffix]]|] eqn:Hs; [done| |done].
    apply split_once_Some in Hs as [-> _]. destruct (parse ns) as [n'|] eqn:Hp; [|done]. intros [= ->].
    apply Scopes.Namespace.parse_ok in Hp as ([= ->] & _). by exists prefix, (c :: suffix).
  - intros (prefix & suffix & Hprefix & Hsuf & ->). cbn [as_str]. set (rest := m ++ "/"%char :: suffix).
    assert (∀ p, strip_prefix p (p ++ rest) = Some rest) as Hstrip by (intros p; by apply strip_prefix_Some).
    replace (match strip_prefix (b "/ns/") (prefix ++ rest) with Some rest => Some rest
             | None => strip_prefix (b "/namespaces/") (prefix ++ rest) end) with (Some rest).
    + unfold rest. rewrite split_once_app by done. destruct suffix; [done|]. by rewrite Hn.
    + destruct Hprefix as [-> | ->]; by rewrite Hstrip.
Qed.

(** The store answers about a namespace, whether it has it or not. *)
Definition store_answers (st : Store) (namespace : string) : bool :=
  if reuse_admit st then is_ok (s_resolve st namespace) else is_ok (s_get st namespace).

Definition scope_admits (cfg : Credentials.Credentials.Config) (creds : Credentials.Credentials.Credentials)
    (providers : list Provider) (capability : option Capability) (k : InboundKey) : Prop :=
  ∀ c granted, capability = Some c → scope k = Some granted →
    c ∈ granted ∧ namespace_allows cfg creds providers (k_namespace k) c = true.

Lemma check_scope_ok cfg creds providers capability k :
  check_scope cfg creds providers capability k = Ok tt → scope_admits cfg creds providers capability k.
Proof.
  unfold check_scope. intros H c granted -> Hg. rewrite Hg in H. destruct (_ || _) eqn:Hno; [done|].
  by reflect_bools.
Qed.

Lemma look_up_record st name missing r reserved :
  look_up st name missing = Ok (r, reserved) →
  (∃ x, s_resolve st name = Ok (Some x) ∧ r = record x ∧ reserved = Some (budget_admit x)) ∨ s_get st name = Ok (Some r).
Proof.
  unfold look_up. destruct (reuse_admit st).
  - destruct (s_resolve st name) as [[x|]|]; simpl; try done. intros [= <- <-]. left. by exists x.
  - destruct (s_get st name) as [[x|]|]; simpl; try done. intros [= <- <-]. by right.
Qed.

(** C15: The gate of a namespaced route.  A request without a valid key learns
    nothing else.  With one, it is admitted only to the namespace its path names,
    which the caller's grant permits and the store holds, under the attributes the
    store keeps for it and within the caller's scope; and a caller whose grant
    does not cover that namespace gets one refusal, whether or not it exists. *)
Theorem namespace_gate cfg creds providers entries st capability path headers :
  let answer := authenticate_middleware cfg creds providers entries st capability true path headers in
  match authenticate entries headers with
  | Err e => answer = Err e
  | Ok k =>
      (∀ a, answer = Ok a → ∃ n grant r,
         namespace_from_canonical_path path = Ok n ∧ namespace_grant k = Ok grant ∧ permits grant n = true ∧
         ((∃ x, s_resolve st (text (as_str n)) = Ok (Some x) ∧ record x = r ∧ a_admit a = Some (budget_admit x)) ∨
          s_get st (text (as_str n)) = Ok (Some r)) ∧
         a_record a = Some r ∧ a_caller a = set_namespace k (text (as_str n)) (Store.Store.attrs r) ∧
         scope_admits cfg creds providers capability (a_caller a)) ∧
      (∀ n grant, namespace_from_canonical_path path = Ok n → namespace_grant k = Ok grant →
         permits grant n = false → store_answers st (text (as_str n)) = true → answer = Err NamespaceNotAuthorized)
  end.
Proof.
  unfold authenticate_middleware. destruct (authenticate entries headers) as [k|e]; [|done]. cbn.
  unfold select_namespace. split.
  - intros a. destruct (namespace_from_canonical_path path) as [n|]; [|done]. cbn.
    destruct (namespace_grant k) as [grant|] eqn:Hg; [|done]. cbn.
    destruct (permits grant n) eqn:Hp; cbn.
    2:{ by destruct (look_up _ _ _) as [[? ?]|]. }
    destruct (look_up st _ _) as [[r reserved]|] eqn:Hl; [|done]. cbn.
    destruct (check_scope _ _ _ _ _) as [[]|] eqn:Hs; [|done]. intros [= <-]. cbn.
    exists n, grant, r. apply look_up_record in Hl. apply check_scope_ok in Hs. split_and!; try done.
    destruct Hl as [(x & Hx & -> & ->)|]; [left; by exists x|by right].
  - intros n grant -> -> Hp Hans. cbn. rewrite Hp. cbn. unfold look_up, store_answers in *.
    destruct (reuse_admit st).
    + by destruct (s_resolve st _) as [[x|]|].
    + by destruct (s_get st _) as [[x|]|].
Qed.

End Auth.

(** ** Witnesses *)

#[local] Existing Instance unit_json.

Definition demo_keys : list GatewayKey :=
  [mkGatewayKey "platform" (Some (KeyEnv "K1", "K1")); mkGatewayKey "acme" (Some (KeyEnv "K2", "K2"))]%string.

Definition demo_env : gmap string string := {[ "K1" := "s-1"; "K2" := "s-2" ]}%string.

Definition demo_read : string → FileRead := λ _, Err ("NotFound", "no such file")%string.

Definition demo_entries : list GatewayKeyEntry :=
  [mkKeyEntry "s-1" (gateway_caller "platform" "K1"); mkKeyEntry "s-2" (gateway_caller "acme" "K2")]%string.

Definition demo_headers : Headers :=
  λ name, if decide (name = "authorization"%string) then Some "Bearer s-2"%string else None.

Lemma authentication_fails_closed_witness :
  authenticate demo_entries demo_headers = Ok (gateway_caller "acme" "K2") ∧ demo_keys ≠ [].
Proof.
  split; [vm_compute; reflexivity|].
  refine (proj1 (authentication_fails_closed demo_env demo_read demo_keys demo_entries demo_headers _)).
  vm_compute. reflexivity.
Defined.

Lemma namespace_path_canonical_witness :
  namespace_from_canonical_path (b "/ns/acme/v1/models") = Ok (Scopes.Namespace.mkNamespaceId (b "acme")).
Proof.
  apply (namespace_path_canonical (b "/ns/acme/v1/models") (b "acme")); [vm_compute; reflexivity|].
  exists (b "/ns/"), (b "v1/models"). split_and!; [by left|done|vm_compute; reflexivity].
Defined.

End Auth.
