(* ===== verification/Batch.v ===== *)
(** * Batched usage delivery ([crates/gateway/src/usage/batch.rs]).

    A sink behind a bounded queue and one flush task.  The request path enqueues
    without waiting; the task collects a batch until it is full or its interval
    ends, or drains the queue when it is asked to flush.  [step] is one atomic
    action of either side: a [try_send], a message taken by the task, a deadline,
    the sink's answer to a batch.  [accepted] and [attempts] only record what
    happened.  Metrics and log lines are left out. *)

From stdpp Require Import relations.
From S2P Require Import Prelude Text Json Usage.

Module Batch.
Import Usage.Usage (DropReason, BufferFull, SinkError, Shutdown).

Record BatchSettings := mkSettings { capacity : nat; max_batch : nat }.

Inductive FlushOutcome :=
| Flushed (records : Z)
| FlushFailed (records : Z) (error : string)
| TimedOut (abandoned : Z).

Section Batch.
Context {Observed : Type} (settings : BatchSettings).

(** A flush request is named by its [oneshot] channel. *)
Inductive Message := Record_ (r : Observed) | Flush (ack : nat).

Definition record_of (m : Message) : option Observed := match m with Record_ r => Some r | Flush _ => None end.
Definition records_of (q : list Message) : list Observed := omap record_of q.

(** Where the flush task stands: at [recv] with nothing held, collecting a batch,
    emptying the queue for a flush request, waiting for the sink, on behalf of a
    request or not, or ended. *)
Inductive Task :=
| Receiving
| Collecting
| Draining (ack : nat)
| Writing (ack : option nat)
| Ended.

Record BatchedSink := mkSink {
  queue : list Message;
  senders : bool;
  task : Task;
  batch : list Observed;
  dropped : Z;
  answers : list (nat * FlushOutcome);
  accepted : list Observed;
  attempts : list (list Observed * result string unit);
}.

Definition spawn : BatchedSink := mkSink [] true Receiving [] 0 [] [] [].

Definition set_queue s v := mkSink v (senders s) (task s) (batch s) (dropped s) (answers s) (accepted s) (attempts s).
Definition set_task s v := mkSink (queue s) (senders s) v (batch s) (dropped s) (answers s) (accepted s) (attempts s).
Definition set_batch s v := mkSink (queue s) (senders s) (task s) v (dropped s) (answers s) (accepted s) (attempts s).
Definition close_senders s :=
  mkSink (queue s) false (task s) (batch s) (dropped s) (answers s) (accepted s) (attempts s).
Definition accept s r :=
  mkSink (queue s) (senders s) (task s) (batch s) (dropped s) (answers s) (accepted s ++ [r]) (attempts s).
Definition attempted s x :=
  mkSink (queue s) (senders s) (task s) (batch s) (dropped s) (answers s) (accepted s) (attempts s ++ [x]).
Definition answer s ack out :=
  mkSink (queue s) (senders s) (task s) (batch s) (dropped s) (answers s ++ [(ack, out)]) (accepted s) (attempts s).

(** [dropped.fetch_add] *)
Definition add_dropped s n :=
  mkSink (queue s) (senders s) (task s) (batch s) ((dropped s + n) `mod` 2 ^ 64) (answers s) (accepted s) (attempts s).

Definition is_ended s := match task s with Ended => true | _ => false end.
Definition room s : bool := (length (queue s) <? capacity settings)%nat.

(** ** The request path *)

Definition drop_record (s : BatchedSink) (reason : DropReason) : BatchedSink := add_dropped s 1.

Definition record (s : BatchedSink) (r : Observed) : BatchedSink :=
  if is_ended s then drop_record s Shutdown
  else if room s then accept (set_queue s (queue s ++ [Record_ r])) r
  else drop_record s BufferFull.

Definition record_batch (s : BatchedSink) (rs : list Observed) : BatchedSink := foldl record s rs.

(** The request half of [flush]: it waits for room.  The channel gives a freed slot
    to a waiting flush before any later [try_send]: of the orders of steps there
    are here, the one in which the flush asks again right after the receive. *)
Definition request_flush (s : BatchedSink) (ack : nat) : option BatchedSink :=
  if is_ended s then Some (answer s ack (Flushed 0))
  else if room s then Some (set_queue s (queue s ++ [Flush ack]))
  else None.

Definition abandon (s : BatchedSink) (reason : DropReason) : Z * BatchedSink :=
  let queued := Z.of_nat (length (queue s)) in
  if queued =? 0 then (0, s) else (queued, add_dropped s queued).

(** ** The flush task *)

(** [while batch.len() < max_batch], and what follows the loop. *)
Definition collect (s : BatchedSink) : BatchedSink :=
  if (length (batch s) <? max_batch settings)%nat then set_task s Collecting else set_task s (Writing None).

Definition push (s : BatchedSink) (r : Observed) : BatchedSink := set_batch s (batch s ++ [r]).

(** One message taken from the queue, or the end of it. *)
Definition receive (s : BatchedSink) : option BatchedSink :=
  match task s, queue s with
  | (Receiving | Collecting), Record_ r :: rest => Some (collect (push (set_queue s rest) r))
  | (Receiving | Collecting), Flush ack :: rest => Some (set_task (set_queue s rest) (Draining ack))
  | Receiving, [] => if senders s then None else Some (set_task s Ended)
  | Collecting, [] => if senders s then None else Some (set_task s (Writing None))
  | Draining _, Record_ r :: rest => Some (push (set_queue s rest) r)
  | Draining _, Flush other :: rest => Some (answer (set_queue s rest) other (Flushed 0))
  | Draining ack, [] =>
      match batch s with
      | [] => Some (set_task (answer s ack (Flushed 0)) Receiving)
      | _ => Some (set_task s (Writing (Some ack)))
      end
  | _, _ => None
  end.

(** The deadline of a partial batch. *)
Definition interval_elapsed (s : BatchedSink) : option BatchedSink :=
  match task s with Collecting => Some (set_task s (Writing None)) | _ => None end.

(** The sink's answer to the batch it holds. *)
Definition flush_batch (s : BatchedSink) (out : result string unit) : BatchedSink :=
  let count := Z.of_nat (length (batch s)) in
  let s' := attempted (set_batch s []) (batch s, out) in
  match out with Ok _ => s' | Err _ => add_dropped s' count end.

Definition written (s : BatchedSink) (out : result string unit) : option BatchedSink :=
  match task s with
  | Writing ack =>
      let records := Z.of_nat (length (batch s)) in
      let s' := set_task (flush_batch s out) Receiving in
      Some (match ack with
            | Some ack =>
                answer s' ack (match out with Ok _ => Flushed records | Err e => FlushFailed records e end)
            | None => s'
            end)
  | _ => None
  end.

Inductive Event :=
| Offer (r : Observed)
| AskFlush (ack : nat)
| Abandon
| CloseSenders
| Receive
| IntervalElapsed
| Written (out : result string unit).

(** No more is offered once the senders are gone. *)
Definition step (s : BatchedSink) (ev : Event) : option BatchedSink :=
  match ev with
  | Offer r => if senders s then Some (record s r) else None
  | AskFlush ack => if senders s then request_flush s ack else None
  | Abandon => Some (abandon s Shutdown).2
  | CloseSenders => Some (close_senders s)
  | Receive => receive s
  | IntervalElapsed => interval_elapsed s
  | Written out => written s out
  end.

Fixpoint run (s : BatchedSink) (evs : list Event) : option BatchedSink :=
  match evs with [] => Some s | ev :: evs => s ← step s ev; run s evs end.

(** ** Where the records are *)

Definition delivered (s : BatchedSink) : list Observed := concat (attempts s).*1.

(** Records the sink refused. *)
Definition refused_by_sink (s : BatchedSink) : Z :=
  Z.of_nat (length (concat (filter (λ x, is_ok x.2 = false) (attempts s)).*1)).

Record sink_inv (s : BatchedSink) : Prop := {
  inv_order : accepted s = delivered s ++ batch s ++ records_of (queue s);
  inv_queue : (length (queue s) ≤ capacity settings)%nat;
  inv_held : match task s with
             | Receiving | Ended => batch s = []
             | Collecting => batch s ≠ [] ∧ (length (batch s) < max_batch settings)%nat
             | Writing None => batch s ≠ [] ∧ (length (batch s) ≤ Nat.max 1 (max_batch settings))%nat
             | Writing (Some _) => batch s ≠ []
             | Draining _ => True
             end;
  inv_batches x : x ∈ attempts s → x.1 ≠ [];
  inv_ended : task s = Ended → senders s = false ∧ queue s = [];
}.

Lemma sink_inv_spawn : sink_inv spawn.
Proof. split; cbn; try done; [lia|]. intros x Hx. by apply not_elem_of_nil in Hx. Qed.

Lemma records_of_app q q' : records_of (q ++ q') = records_of q ++ records_of q'.
Proof. apply omap_app. Qed.

Lemma record_inv s r : sink_inv s → sink_inv (record s r).
Proof.
  intros [Ho Hq Hh Hb He]. unfold record, drop_record, room. destruct (is_ended s) eqn:Hend; [by split|].
  destruct (Nat.ltb_spec (length (queue s)) (capacity settings)); [|by split].
  split; cbn; try done.
  - by rewrite Ho, records_of_app, !(assoc_L (++)).
  - rewrite length_app. cbn. lia.
  - intros Ht. unfold is_ended in Hend. by rewrite Ht in Hend.
Qed.

Lemma request_flush_inv s ack s' : request_flush s ack = Some s' → sink_inv s → sink_inv s'.
Proof.
  unfold request_flush, room. intros H [Ho Hq Hh Hb He]. destruct (is_ended s) eqn:Hend; [by simplify_eq|].
  destruct (Nat.ltb_spec (length (queue s)) (capacity settings)); [|done]. simplify_eq. split; cbn; try done.
  - rewrite Ho, records_of_app. cbn. by rewrite app_nil_r.
  - rewrite length_app. cbn. lia.
  - intros Ht. unfold is_ended in Hend. by rewrite Ht in Hend.
Qed.

Lemma collect_inv s : batch s ≠ [] → (length (batch s) ≤ Nat.max 1 (max_batch settings))%nat →
  accepted s = delivered s ++ batch s ++ records_of (queue s) → (length (queue s) ≤ capacity settings)%nat →
  (∀ x, x ∈ attempts s → x.1 ≠ []) → sink_inv (collect s).
Proof.
  intros Hne Hlen Ho Hq Hb. unfold collect.
  destruct (Nat.ltb_spec (length (batch s)) (max_batch settings)); by split.
Qed.

Lemma receive_inv s s' : receive s = Some s' → sink_inv s → sink_inv s'.
Proof.
  intros H [Ho Hq Hh Hb _]. unfold receive in H.
  assert (∀ r rest, queue s = Record_ r :: rest →
    accepted s = delivered s ++ (batch s ++ [r]) ++ records_of rest ∧ (length rest ≤ capacity settings)%nat) as Hpush.
  { intros r rest Hqs. rewrite Ho, Hqs. cbn. rewrite <-(assoc_L (++) (batch s)). split; [done|].
    rewrite Hqs in Hq. cbn in Hq. lia. }
  assert (∀ ack rest, queue s = Flush ack :: rest →
    accepted s = delivered s ++ batch s ++ records_of rest ∧ (length rest ≤ capacity settings)%nat) as Hflush.
  { intros ack rest Hqs. rewrite Ho, Hqs. split; [done|]. rewrite Hqs in Hq. cbn in Hq. lia. }
  destruct (task s) as [| |ack|ack|] eqn:Ht, (queue s) as [|[r|ack'] rest] eqn:Hqs; try done;
    try (destruct (Hpush _ _ eq_refl) as [Ho' Hq']); try (destruct (Hflush _ _ eq_refl) as [Ho' Hq']).
  - destruct (senders s) eqn:Hsend; simplify_eq. split; cbn; by rewrite ?Hqs, ?Hsend.
  - simplify_eq. apply collect_inv; cbn; try done; [by destruct (batch s)|rewrite Hh; cbn; lia].
  - simplify_eq. by split.
  - destruct (senders s); simplify_eq. split; cbn; rewrite ?Hqs; try done. destruct Hh. split; [done|lia].
  - simplify_eq. apply collect_inv; cbn; try done; [by destruct (batch s)|]. rewrite length_app. cbn. lia.
  - simplify_eq. by split.
  - destruct (batch s) eqn:Hbs; simplify_eq; split; cbn; rewrite ?Hqs, ?Hbs; try done.
  - simplify_eq. split; cbn; rewrite ?Ht; done.
  - simplify_eq. split; cbn; rewrite ?Ht; done.
Qed.

Lemma written_inv s out s' : written s out = Some s' → sink_inv s → sink_inv s'.
Proof.
  unfold written, flush_batch. intros H [Ho Hq Hh Hb _]. destruct (task s) as [| |ack|ack|] eqn:Ht; try done.
  assert (batch s ≠ []) as Hne by (destruct ack; [done|by destruct Hh]).
  assert (∀ s2, accepted s2 = accepted s → attempts s2 = attempts s ++ [(batch s, out)] → batch s2 = [] →
    queue s2 = queue s → task s2 = Receiving → sink_inv s2) as Hgo.
  { intros s2 Ha Hat Hbs Hqs Hts. split.
    - rewrite Ha, Ho, Hbs, Hqs. unfold delivered. rewrite Hat, fmap_app, concat_app. cbn.
      by rewrite app_nil_r, <-!(assoc_L (++)).
    - by rewrite Hqs.
    - by rewrite Hts.
    - intros x. rewrite Hat. intros [Hx|Hx%list_elem_of_singleton]%elem_of_app; [by apply Hb|by subst].
    - by rewrite Hts. }
  destruct ack, out; simplify_eq; by apply Hgo.
Qed.

Lemma step_inv s ev s' : step s ev = Some s' → sink_inv s → sink_inv s'.
Proof.
  destruct ev; cbn [step]; intros H Hinv.
  - destruct (senders s); simplify_eq. by apply record_inv.
  - destruct (senders s); [|done]. by eapply request_flush_inv.
  - simplify_eq. unfold abandon. destruct (_ =? 0); destruct Hinv; by split.
  - simplify_eq. destruct Hinv as [Ho Hq Hh Hb He]. split; try done. cbn. intros Ht. by destruct (He Ht).
  - by eapply receive_inv.
  - unfold interval_elapsed in H. destruct (task s) eqn:Ht; simplify_eq. destruct Hinv as [Ho Hq Hh Hb _].
    rewrite Ht in Hh. split; cbn; try done. destruct Hh. split; [done|lia].
  - by eapply written_inv.
Qed.

Lemma run_inv s evs s' : run s evs = Some s' → sink_inv s → sink_inv s'.
Proof.
  revert s. induction evs as [|ev evs IH]; intros s H Hinv; cbn in H; [by simplify_eq|].
  destruct (step s ev) as [s1|] eqn:Hs; [|done]. eapply IH; [done|]. by eapply step_inv.
Qed.

(** ** What was offered *)

Definition offers (evs : list Event) : list Observed :=
  omap (λ ev, match ev with Offer r => Some r | _ => None end) evs.

Definition abandons (evs : list Event) : bool := existsb (λ ev, match ev with Abandon => true | _ => false end) evs.

(** Offered but not accepted, or refused by the sink. *)
Definition lost (offered : Z) (s : BatchedSink) : Z := offered - Z.of_nat (length (accepted s)) + refused_by_sink s.

Definition counts (offered : Z) (s : BatchedSink) : Prop := dropped s = lost offered s `mod` 2 ^ 64.

Lemma counts_more offered offered' s s' n :
  counts offered s → lost offered' s' = lost offered s + n → dropped s' = (dropped s + n) `mod` 2 ^ 64 →
  counts offered' s'.
Proof. unfold counts. intros -> -> ->. by rewrite Z.add_mod_idemp_l. Qed.

Lemma counts_same offered s s' :
  counts offered s → lost offered s' = lost offered s → dropped s' = dropped s → counts offered s'.
Proof. unfold counts. congruence. Qed.

Lemma record_counts offered s r : counts offered s → counts (offered + 1) (record s r).
Proof.
  intros H. unfold record, drop_record. destruct (is_ended s); [|destruct (room s)].
  - eapply counts_more; [done| |done]. unfold lost, refused_by_sink. cbn. lia.
  - unfold counts, lost, refused_by_sink in *. cbn. rewrite length_app. cbn. rewrite H. f_equal. lia.
  - eapply counts_more; [done| |done]. unfold lost, refused_by_sink. cbn. lia.
Qed.

Lemma refused_by_sink_more s s' x :
  attempts s' = attempts s ++ [x] →
  refused_by_sink s' = refused_by_sink s + match x.2 with Ok _ => 0 | Err _ => Z.of_nat (length x.1) end.
Proof.
  unfold refused_by_sink. intros ->. rewrite list.filter_app, fmap_app, concat_app, length_app. destruct x as [bs [u|e]].
  - rewrite filter_cons_False by done. cbn. lia.
  - rewrite filter_cons_True by done. cbn. rewrite app_nil_r. lia.
Qed.

Lemma written_counts offered s out s' : written s out = Some s' → counts offered s → counts offered s'.
Proof.
  unfold written, flush_batch. intros H Hc.
  destruct (task s) as [| |ack|ack|]; try done.
  assert (∀ s2, attempts s2 = attempts s ++ [(batch s, out)] → accepted s2 = accepted s →
    lost offered s2 = lost offered s + match out with Ok _ => 0 | Err _ => Z.of_nat (length (batch s)) end) as Hl.
  { intros s2 Ha Hacc. unfold lost. rewrite Hacc, (refused_by_sink_more _ _ _ Ha). cbn. destruct out; lia. }
  destruct out as [u|e], ack; simplify_eq.
  1-2: eapply counts_same; [done| |done]; by rewrite Hl, Z.add_0_r.
  all: eapply counts_more; [done| |reflexivity]; by rewrite Hl.
Qed.

Lemma receive_same s s' :
  receive s = Some s' → accepted s' = accepted s ∧ attempts s' = attempts s ∧ dropped s' = dropped s.
Proof. unfold receive, collect. intros H. repeat case_match; by simplify_eq. Qed.

Lemma step_counts offered s ev s' :
  step s ev = Some s' → abandons [ev] = false → counts offered s →
  counts (offered + Z.of_nat (length (offers [ev]))) s' ∧
  ∃ more, accepted s' = accepted s ++ more ∧ more `sublist_of` offers [ev].
Proof.
  intros H Ha Hc. destruct ev as [r|ack| | | | |out]; cbn [step offers omap list_omap length] in *.
  - destruct (senders s); simplify_eq. split; [by apply record_counts|].
    unfold record, drop_record. destruct (is_ended s); [|destruct (room s)].
    1,3: exists []; rewrite app_nil_r; split; [done|apply sublist_nil_l].
    by exists [r].
  - destruct (senders s); [|done]. unfold request_flush in H. rewrite Z.add_0_r.
    split; [|exists []; rewrite app_nil_r; repeat case_match; by simplify_eq].
    eapply counts_same; [done|..]; repeat case_match; by simplify_eq.
  - done.
  - simplify_eq. rewrite Z.add_0_r. split; [done|]. exists []. by rewrite app_nil_r.
  - apply receive_same in H as (Hacc & Hat & Hd). rewrite Z.add_0_r. split.
    + eapply counts_same; [done| |done]. unfold lost, refused_by_sink. by rewrite Hacc, Hat.
    + exists []. by rewrite app_nil_r.
  - unfold interval_elapsed in H. rewrite Z.add_0_r. destruct (task s); simplify_eq. split; [done|].
    exists []. by rewrite app_nil_r.
  - rewrite Z.add_0_r. split; [by eapply written_counts|]. exists []. rewrite app_nil_r. split; [|done].
    unfold written, flush_batch in H. repeat case_match; by simplify_eq.
Qed.

Lemma run_counts offered s evs s' :
  run s evs = Some s' → abandons evs = false → counts offered s →
  counts (offered + Z.of_nat (length (offers evs))) s' ∧
  ∃ more, accepted s' = accepted s ++ more ∧ more `sublist_of` offers evs.
Proof.
  revert offered s. induction evs as [|ev evs IH]; intros offered s H Ha Hc; cbn [run] in H.
  { simplify_eq. rewrite Z.add_0_r. split; [done|]. exists []. by rewrite app_nil_r. }
  destruct (step s ev) as [s1|] eqn:Hs; [|done]. cbn in H. apply orb_false_elim in Ha as [Ha1 Ha2].
  apply (step_counts offered) in Hs as [Hc1 (m1 & Hm1 & Hs1)]; [|by cbn; rewrite Ha1|done].
  apply (IH _ _ H Ha2) in Hc1 as [Hc2 (m2 & Hm2 & Hs2)].
  change (ev :: evs) with ([ev] ++ evs). unfold offers in *. rewrite omap_app, length_app. split.
  - replace (offered + _) with (offered + Z.of_nat (length (offers [ev])) + Z.of_nat (length (offers evs))); [done|].
    unfold offers. lia.
  - exists (m1 ++ m2). rewrite Hm2, Hm1, (assoc_L (++)). split; [done|]. by apply sublist_app.
Qed.

(** ** A flush request *)

Definition is_flush (m : Message) : bool := match m with Flush _ => true | Record_ _ => false end.

(** No flush request is queued, served or being written for. *)
Definition no_flush (s : BatchedSink) : Prop :=
  existsb is_flush (queue s) = false ∧
  match task s with Draining _ | Writing (Some _) => False | _ => True end.

(** The one outstanding request, sent when [before] had been accepted: what it must
    wait for is ahead of it, or with the task. *)
Definition covering (before : list Observed) (ack : nat) (s : BatchedSink) : Prop :=
  (∃ q1 q2, queue s = q1 ++ Flush ack :: q2 ∧ existsb is_flush q1 = false ∧ existsb is_flush q2 = false ∧
     match task s with Draining _ | Writing (Some _) => False | _ => True end ∧
     before = delivered s ++ batch s ++ records_of q1) ∨
  (existsb is_flush (queue s) = false ∧ (task s = Draining ack ∨ task s = Writing (Some ack)) ∧
     before `prefix_of` delivered s ++ batch s) ∨
  (existsb is_flush (queue s) = false ∧ before `prefix_of` delivered s).

Definition unanswered (ack : nat) (s : BatchedSink) : Prop := ack ∉ (answers s).*1.

(** Until the request is answered it is in one of the first two places. *)
Definition covered (before : list Observed) (ack : nat) (s : BatchedSink) : Prop :=
  covering before ack s ∧ (ack ∈ (answers s).*1 → before `prefix_of` delivered s).

Lemma delivered_attempted s s' x : attempts s' = attempts s ++ [x] → delivered s' = delivered s ++ x.1.
Proof. unfold delivered. intros ->. rewrite fmap_app, concat_app. cbn. by rewrite app_nil_r. Qed.

Lemma covered_same before ack s s' :
  covered before ack s → queue s' = queue s → task s' = task s → batch s' = batch s → attempts s' = attempts s →
  answers s' = answers s → covered before ack s'.
Proof. unfold covered, covering, delivered. intros H -> -> -> -> ->. exact H. Qed.

Lemma record_covered before ack s r : covered before ack s → covered before ack (record s r).
Proof.
  intros H. unfold record, drop_record. destruct (is_ended s); [by eapply covered_same|].
  destruct (room s); [|by eapply covered_same]. destruct H as [H Ha]. split; [|done].
  destruct H as [(q1 & q2 & Hq & H1 & H2 & Ht & Hb)|[(Hq & Hb)|(Hq & Hb)]].
  - left. exists q1, (q2 ++ [Record_ r]). cbn. rewrite Hq, <-(assoc_L (++)). split_and!; try done.
    by rewrite existsb_app, H2.
  - right; left. cbn. by rewrite existsb_app, Hq.
  - right; right. cbn. by rewrite existsb_app, Hq.
Qed.

Lemma receive_covered before ack s s' : receive s = Some s' → covered before ack s → covered before ack s'.
Proof.
  intros H [Hc Ha]. destruct Hc as [(q1 & q2 & Hq & H1 & H2 & Ht & Hb)|[(Hq & Ht & Hb)|(Hq & Hb)]].
  - (* the request is still queued: a collecting task takes what is ahead of it *)
    unfold receive in H. rewrite Hq in H.
    assert (∀ s2, (task s2 = Collecting ∨ task s2 = Writing None) → answers s2 = answers s → attempts s2 = attempts s →
      (∃ r q1', q1 = Record_ r :: q1' ∧ queue s2 = q1' ++ Flush ack :: q2 ∧ batch s2 = batch s ++ [r]) →
      covered before ack s2) as Hgo.
    { intros s2 Ht2 Han Hat (r & q1' & -> & Hq2 & Hb2). split.
      - left. exists q1', q2. cbn in H1. split_and!; try done; [by destruct Ht2 as [-> | ->]|].
        rewrite Hb, Hb2. unfold delivered. rewrite Hat. cbn. by rewrite <-(assoc_L (++) (batch s)).
      - rewrite Han. unfold delivered. by rewrite Hat. }
    assert (∀ s2, task s2 = Draining ack → answers s2 = answers s → attempts s2 = attempts s → q1 = [] →
      queue s2 = q2 → batch s2 = batch s → covered before ack s2) as Hdrain.
    { intros s2 Ht2 Han Hat -> Hq2 Hb2. split.
      - right; left. split_and!; [congruence|by left|]. rewrite Hb. cbn. rewrite app_nil_r.
        unfold delivered. by rewrite Hat, Hb2.
      - rewrite Han. unfold delivered. by rewrite Hat. }
    destruct (task s), q1 as [|[r|other] q1]; try done; cbn in H; simplify_eq; try (by apply Hdrain);
      (apply Hgo; unfold collect; [destruct (_ <? _)%nat; [by left|by right]|by destruct (_ <? _)%nat..|]);
      exists r, q1; destruct (_ <? _)%nat; done.
  - (* the task drains for it *)
    destruct Ht as [Ht|Ht]; unfold receive in H; rewrite Ht in H; [|done].
    destruct (queue s) as [|[r|other] rest] eqn:Hqs; [|simplify_eq|cbn in Hq; done].
    + destruct (batch s) eqn:Hbs; simplify_eq; (split; [|try done]).
      * right; right. cbn. rewrite Hqs. split; [done|]. by rewrite app_nil_r in Hb.
      * intros _. by rewrite app_nil_r in Hb.
      * right; left. cbn. rewrite Hqs, Hbs. split_and!; [done|by right|done].
    + split; [|done]. right; left. cbn. split_and!; [done|by left|]. rewrite (assoc_L (++)).
      by apply prefix_app_r.
  - apply receive_same in H as Hs. destruct Hs as (_ & Hat & _).
    assert (existsb is_flush (queue s') = false) as Hq'.
    { unfold receive, collect in H. destruct (task s), (queue s) as [|[r|other] rest] eqn:Hqs; try done; cbn in H, Hq;
        repeat case_match; simplify_eq; cbn; by rewrite ?Hqs. }
    split; [right; right; split; [done|]|intros _]; unfold delivered; by rewrite Hat.
Qed.

Lemma written_covered before ack s out s' :
  written s out = Some s' → covered before ack s → covered before ack s'.
Proof.
  intros H [Hc Ha]. unfold written in H. destruct (task s) as [| |a|a|] eqn:Ht; try done.
  assert (∀ s2, attempts s2 = attempts s ++ [(batch s, out)] → queue s2 = queue s → batch s2 = [] → task s2 = Receiving →
    (before `prefix_of` delivered s2 ∨ answers s2 = answers s) → covered before ack s2) as Hgo.
  { intros s2 Hat Hq2 Hb2 Ht2 Hdone. pose proof (delivered_attempted s s2 _ Hat) as Hd. cbn in Hd. split.
    - destruct Hc as [(q1 & q2 & Hq & H1 & H2 & _ & Hb)|[(Hq & _ & Hb)|(Hq & Hb)]].
      + left. exists q1, q2. rewrite Hq2, Ht2, Hb2, Hd, <-(assoc_L (++)). by split_and!.
      + right; right. rewrite Hq2, Hd. by split.
      + right; right. rewrite Hq2, Hd. split; [done|]. by apply prefix_app_r.
    - intros Hin. destruct Hdone as [?|Han]; [done|]. rewrite Han in Hin. rewrite Hd. by apply prefix_app_r, Ha. }
  assert (∀ s2, attempts s2 = attempts s ++ [(batch s, out)] → a ≠ None → before `prefix_of` delivered s2) as Hown.
  { intros s2 Hat Hne. rewrite (delivered_attempted s s2 _ Hat). cbn.
    destruct Hc as [(q1 & q2 & _ & _ & _ & Htk & _)|[(_ & _ & Hb)|(_ & Hb)]].
    - rewrite Ht in Htk. by destruct a.
    - done.
    - by apply prefix_app_r. }
  unfold flush_batch in H. destruct a as [a|], out; simplify_eq; apply Hgo; try done; try (by right);
    left; by apply Hown.
Qed.

Lemma step_covered before ack s ev s' :
  step s ev = Some s' → (∀ a, ev ≠ AskFlush a) → covered before ack s → covered before ack s'.
Proof.
  destruct ev; cbn [step]; intros H Hne Hc.
  - destruct (senders s); simplify_eq. by apply record_covered.
  - by destruct (Hne ack0).
  - simplify_eq. unfold abandon. destruct (_ =? 0); [done|]. by eapply covered_same.
  - simplify_eq. by eapply covered_same.
  - by eapply receive_covered.
  - unfold interval_elapsed in H. destruct (task s) eqn:Ht; simplify_eq. destruct Hc as [Hc Ha]. split; [|done].
    destruct Hc as [(q1 & q2 & Hq & H1 & H2 & _ & Hb)|[(Hq & Htk & Hb)|(Hq & Hb)]].
    + left. by exists q1, q2.
    + destruct Htk; congruence.
    + by right; right.
  - by eapply written_covered.
Qed.

(** ** Progress *)

Definition is_task_event (ev : Event) : Prop :=
  match ev with Receive | IntervalElapsed | Written _ => True | _ => False end.

Definition work_left (s : BatchedSink) : nat :=
  3 * length (queue s) + match task s with Receiving | Ended => 0 | Writing _ => 1 | Collecting | Draining _ => 2 end.

(** The task's next move. *)
Definition next_event (s : BatchedSink) : Event :=
  match task s, queue s with
  | Writing _, _ => Written (Ok tt)
  | Collecting, [] => IntervalElapsed
  | _, _ => Receive
  end.

Definition idle (s : BatchedSink) : Prop := queue s = [] ∧ (task s = Receiving ∨ task s = Ended).

Lemma next_event_progress s :
  sink_inv s → idle s ∨ ∃ s', step s (next_event s) = Some s' ∧ (work_left s' < work_left s)%nat ∧
    accepted s' = accepted s.
Proof.
  intros [_ _ _ _ He]. unfold idle, next_event.
  destruct (task s) as [| |ack|ack|] eqn:Ht, (queue s) as [|[r|other] rest] eqn:Hq; try (left; by auto);
    try (by destruct (He eq_refl)); right; cbn [step];
    unfold receive, interval_elapsed, written, flush_batch, work_left, collect; rewrite ?Ht, ?Hq; cbn;
    repeat case_match; simplify_eq; eexists; (split; [reflexivity|]); cbn; rewrite ?Ht, ?Hq; cbn; (split; [lia|done]).
Qed.

Lemma drains s :
  sink_inv s → ∃ evs s', run s evs = Some s' ∧ Forall is_task_event evs ∧ idle s' ∧ accepted s' = accepted s ∧
    sink_inv s'.
Proof.
  remember (work_left s) as n eqn:Hn. revert s Hn. induction (lt_wf n) as [n _ IH]; intros s -> Hinv.
  destruct (next_event_progress s Hinv) as [Hidle|(s1 & Hs & Hlt & Ha)].
  { exists [], s. by split_and!. }
  destruct (IH _ Hlt s1 eq_refl) as (evs & s' & Hr & Hf & Hi & Ha' & Hinv'); [by eapply step_inv|].
  exists (next_event s :: evs), s'. cbn [run]. rewrite Hs. split_and!; try done; [|congruence].
  constructor; [|done]. unfold next_event. by repeat case_match.
Qed.

(** ** Properties *)

(** C24: No record vanishes unseen.  Whatever was offered, taken, written, refused
    and flushed, in any interleaving: what the queue accepted is, in order, what
    the sink was handed, what the task holds and what is queued; the queue keeps
    to its capacity; and until shutdown gives a buffer up, the drop counter is
    exactly the records that were not accepted and those the sink refused. *)
Theorem usage_conserved (evs : list Event) (s : BatchedSink) :
  run spawn evs = Some s →
  accepted s = delivered s ++ batch s ++ records_of (queue s) ∧ (length (queue s) ≤ capacity settings)%nat ∧
  (abandons evs = false → accepted s `sublist_of` offers evs ∧
     dropped s = (Z.of_nat (length (offers evs)) - Z.of_nat (length (accepted s)) + refused_by_sink s) `mod` 2 ^ 64).
Proof.
  intros H. pose proof (run_inv _ _ _ H sink_inv_spawn) as [Ho Hq _ _ _]. split_and!; [done..|]. intros Ha.
  eapply (run_counts 0) in H as [Hc (more & Hm & Hs)]; [|done|done].
  cbn in Hm. rewrite Hm. split; [done|]. unfold counts, lost in Hc. by rewrite Hc, Hm, Z.add_0_l.
Qed.

(** C25: A flush covers what came before it.  When the one outstanding flush request
    is answered, every record accepted before it was sent has been handed to the
    sink, in order. *)
Theorem flush_covers (before after : list Event) (s0 s1 s2 : BatchedSink) (ack : nat) :
  run spawn before = Some s0 → no_flush s0 → ack ∉ (answers s0).*1 →
  step s0 (AskFlush ack) = Some s1 → Forall (λ ev, ∀ a, ev ≠ AskFlush a) after → run s1 after = Some s2 →
  ack ∈ (answers s2).*1 → accepted s0 `prefix_of` delivered s2.
Proof.
  intros H0 [Hnq Hnt] Hfresh H1 Hafter H2 Hin. pose proof (run_inv _ _ _ H0 sink_inv_spawn) as [Ho _ _ _ He].
  assert (covered (accepted s0) ack s1) as Hc.
  { cbn [step] in H1. destruct (senders s0) eqn:Hs; [|done]. unfold request_flush, is_ended in H1.
    destruct (task s0) eqn:Ht; try (by destruct (He eq_refl));
      (destruct (room s0); [|done]); simplify_eq;
      (split; [|done]); left; exists (queue s0), []; cbn; rewrite Ht; by split_and!. }
  clear H0 H1. revert s1 H2 Hc. induction Hafter as [|ev evs Hev _ IH]; intros s1 H2 Hc; cbn [run] in H2.
  { simplify_eq. by apply Hc. }
  destruct (step s1 ev) as [s|] eqn:Hs; [|done]. eapply IH; [done|]. by eapply step_covered.
Qed.

(** Everything accepted reaches the sink.  From any state the flush task gets to,
    its own moves alone, the sink answering each batch, hand over all that was
    accepted and leave nothing queued or held. *)
Theorem accepted_is_attempted (evs : list Event) (s : BatchedSink) :
  run spawn evs = Some s →
  ∃ moves s', run s moves = Some s' ∧ Forall is_task_event moves ∧ queue s' = [] ∧ batch s' = [] ∧
    delivered s' = accepted s.
Proof.
  intros H. destruct (drains s) as (moves & s' & Hr & Hf & [Hq Ht] & Ha & [Ho _ Hh _ _]);
    [by eapply run_inv, sink_inv_spawn|].
  assert (batch s' = []) as Hb by (by destruct Ht as [Ht|Ht]; rewrite Ht in Hh).
  exists moves, s'. split_and!; try done. rewrite <-Ha, Ho, Hb, Hq. cbn. by rewrite app_nil_r.
Qed.

End Batch.

(** ** Examples

    Three records on a queue of two, a batch of two, a sink that fails once. *)

Definition demo_settings : BatchSettings := mkSettings 2 2.

Definition demo_events : list (@Event nat) :=
  [Offer 1%nat; Offer 2%nat; Offer 3%nat; Receive; Receive; Written (Err "down"%string); Offer 4%nat].

Definition demo_sink : @BatchedSink nat := default spawn (run demo_settings spawn demo_events).

Lemma usage_conserved_witness :
  run demo_settings spawn demo_events = Some demo_sink ∧ dropped demo_sink = 3 ∧
  accepted demo_sink = delivered demo_sink ++ batch demo_sink ++ records_of (queue demo_sink).
Proof.
  split; [vm_compute; reflexivity|]. split; [vm_compute; reflexivity|].
  apply (usage_conserved demo_settings demo_events). vm_compute. reflexivity.
Defined.

Lemma accepted_is_attempted_witness :
  ∃ moves s', run demo_settings demo_sink moves = Some s' ∧ Forall is_task_event moves ∧ queue s' = [] ∧
    batch s' = [] ∧ delivered s' = accepted demo_sink.
Proof. apply (accepted_is_attempted demo_settings demo_events). vm_compute. reflexivity. Defined.

Definition demo_asked : @BatchedSink nat := default spawn (step demo_settings demo_sink (AskFlush 0)).

Definition demo_moves : list (@Event nat) := [Receive; Receive; Receive; Written (Ok tt)].

Definition demo_flushed : @BatchedSink nat := default spawn (run demo_settings demo_asked demo_moves).

Lemma flush_covers_witness :
  answers demo_flushed = [(0%nat, Flushed 1)] ∧ accepted demo_sink `prefix_of` delivered demo_flushed.
Proof.
  split; [vm_compute; reflexivity|].
  apply (flush_covers demo_settings demo_events demo_moves demo_sink demo_asked demo_flushed 0%nat).
  - vm_compute. reflexivity.
  - by split.
  - apply not_elem_of_nil.
  - vm_compute. reflexivity.
  - by repeat constructor.
  - vm_compute. reflexivity.
  - apply list_elem_of_here.
Defined.

(** A second request that arrives while the task drains for a first is answered
    before the records it waits for are written. *)
Lemma second_flush_answered_early :
  let s := default spawn (run demo_settings spawn [Offer 1%nat; Receive; AskFlush 0; AskFlush 1; Receive; Receive]) in
  answers s = [(1%nat, Flushed 0)] ∧ accepted s = [1%nat] ∧ attempts s = [].
Proof. vm_compute. by split_and!. Qed.

(** [abandon] counts queued messages: not the records the task holds, and the
    queued flush request as one. *)
Lemma abandon_miscounts :
  let s := default spawn (run demo_settings spawn [Offer 1%nat; Receive; AskFlush 0]) in
  (abandon s Shutdown).1 = 1 ∧ records_of (queue s) = [] ∧ batch s = [1%nat].
Proof. vm_compute. by split_and!. Qed.

End Batch.
