(* ===== verification/Lifecycle.v ===== *)
(** * Process lifecycle and shutdown ([crates/gateway/src/shutdown.rs])

    The drain state, the admission guard every request carries
    ([admission_middleware] of [routes/mod.rs]), the drain that runs on the first
    signal, [serve_bounded], and the shutdown sequence at the end of [main].
    [step] is one atomic action of a request, of the drain or of the serving
    task: a load, a [fetch_add], a [store], a [send_modify], or the end of a wait.
    A load and the increment that follows it are two actions, so every
    interleaving of the code is one of the model.  Metrics and log lines are left
    out; durations are nanoseconds. *)

From S2P Require Import Prelude Admission Settlement Worker.

Module Lifecycle.
Import Settlement.Settlement (fetch_add, fetch_sub).
Import Worker.Worker (DRAIN_MARGIN, CLOSING_READ).

(** ** Phases and plans *)

Inductive Phase := Serving | Draining | Closing.

#[export] Instance Phase_eq_dec : EqDecision Phase.
Proof. solve_decision. Defined.

Definition as_str (p : Phase) : string :=
  match p with Serving => "serving" | Draining => "draining" | Closing => "closing" end.

Definition from_code (code : Z) : Phase :=
  if code =? 0 then Serving else if code =? 1 then Draining else Closing.

Definition code (p : Phase) : Z := match p with Serving => 0 | Draining => 1 | Closing => 2 end.

Record Plan := mkPlan { drain_grace : Z; deadline : Z; flush_timeout : Z }.

#[export] Instance Plan_eq_dec : EqDecision Plan.
Proof. solve_decision. Defined.

(** [Plan::from] the [shutdown] section, whose fields are milliseconds. *)
Definition plan_from (drain_grace_ms deadline_ms flush_timeout_ms : Z) : Plan :=
  mkPlan (drain_grace_ms * 1000000) (deadline_ms * 1000000) (flush_timeout_ms * 1000000).

Definition settle_share (p : Plan) : Z := flush_timeout p / 2.

(** [OnceLock<Plan>]: only the first [publish] takes. *)
Definition publish (r : option Plan) (p : Plan) : option Plan :=
  match r with Some _ => r | None => Some p end.

Definition or (r : option Plan) (fallback : Plan) : Plan := default fallback r.

Inductive Outcome :=
| Completed
| Abandoned (in_flight : Z)
| Failed (error : string).

Definition outcome_str (o : Outcome) : string :=
  match o with Completed => "completed" | Abandoned _ => "abandoned" | Failed _ => "failed" end.

Definition finish (r : result string unit) : Outcome :=
  match r with Ok _ => Completed | Err error => Failed error end.

(** What [main] returns once the sequence is over. *)
Definition exit_result (o : Outcome) : result string unit :=
  match o with
  | Completed | Abandoned _ => Ok tt
  | Failed error => Err ("serving failed: " +:+ error)%string
  end.

(** ** The shared state *)

Record Lifecycle := mkLifecycle {
  phase_code : Z;
  in_flight : Z;
  abandoning : bool;
  (** How often the [watch] channel was modified. *)
  changes : Z;
}.

Definition new : Lifecycle := mkLifecycle (code Serving) 0 false 0.

Definition phase (l : Lifecycle) : Phase := from_code (phase_code l).
Definition is_ready (l : Lifecycle) : bool := bool_decide (phase l = Serving).

Definition set_phase (l : Lifecycle) (p : Phase) : Lifecycle :=
  mkLifecycle (code p) (in_flight l) (abandoning l) (changes l).
Definition set_in_flight (l : Lifecycle) (n : Z) : Lifecycle :=
  mkLifecycle (phase_code l) n (abandoning l) (changes l).

(** The [compare_exchange] from serving to draining. *)
Definition begin_drain (l : Lifecycle) : Lifecycle :=
  if phase_code l =? code Serving then set_phase l Draining else l.

Definition start_abandoning (l : Lifecycle) : Lifecycle :=
  mkLifecycle (phase_code l) (in_flight l) true (changes l).

Definition announce (l : Lifecycle) : Lifecycle :=
  mkLifecycle (phase_code l) (in_flight l) (abandoning l) (changes l + 1).

(** ** Waiting for a change

    [wait_for]: subscribe, then check and wait for a version not yet seen.
    [closed], [abandoned] and [quiesce] wait for three conditions.  [None] is a
    wait that sleeps. *)

Definition is_closed (l : Lifecycle) : bool := bool_decide (phase l = Closing).
Definition is_quiet (l : Lifecycle) : bool := in_flight l =? 0.

Inductive Wait :=
| Unpolled
| Checking (seen : Z)
| Asleep (seen : Z)
| Reached.

Definition wait_for (reached : Lifecycle → bool) (l : Lifecycle) (w : Wait) : option Wait :=
  match w with
  | Unpolled => Some (Checking (changes l))
  | Checking seen => Some (if reached l then Reached else Asleep seen)
  | Asleep seen => if changes l =? seen then None else Some (Checking (changes l))
  | Reached => None
  end.

(** ** A request

    [admission_middleware] around the handler and around the response body.  A
    guard is held from [Handling] to [Releasing].  Leaving the handler or the body,
    however that happens, first drops the inner future or stream, which settles
    the request, and then the guard. *)

Inductive End_ :=
| Refused     (* 503 draining: admission was closed *)
| Unanswered  (* 503 draining: the deadline reached the handler *)
| Cut         (* the body ended in an error: the deadline reached it *)
| Finished    (* the body was relayed to its end *)
| HungUp.     (* the caller went away *)

Inductive Request :=
| Arriving
| Admitting              (* the phase was loaded, the count not yet taken *)
| Handling (w : Wait)
| Relaying (w : Wait) (pending : bool)   (* [pending]: the abandonment was polled first *)
| Releasing (e : End_)   (* the inner future is gone, the guard about to be *)
| Announcing (e : End_)  (* the count fell from one *)
| Gone (e : End_).

Inductive Event :=
| Go                     (* the next atomic operation *)
| PollAbandoned          (* one operation of the wait for the abandonment *)
| Responds               (* the handler returned a response *)
| Chunk                  (* the body produced a chunk *)
| NothingYet             (* the body has none ready *)
| EndOfBody
| HangUp.

(** [admit], up to the count. *)
Definition try_admit (l : Lifecycle) : Request :=
  if decide (phase l = Closing) then Gone Refused else Admitting.

(** The drop of an [Admitted]. *)
Definition drop_admitted (l : Lifecycle) (e : End_) : Lifecycle * Request :=
  (set_in_flight l (fetch_sub (in_flight l)), if in_flight l =? 1 then Announcing e else Gone e).

Definition advance (l : Lifecycle) (r : Request) (ev : Event) : option (Lifecycle * Request) :=
  match r, ev with
  | Arriving, Go => Some (l, try_admit l)
  | Admitting, Go => Some (set_in_flight l (fetch_add (in_flight l)), Handling Unpolled)
  | Handling w, PollAbandoned =>
      w ← wait_for abandoning l w;
      Some (l, match w with Reached => Releasing Unanswered | _ => Handling w end)
  | Handling _, Responds => Some (l, Relaying Unpolled false)
  | Handling _, HangUp => Some (l, Releasing HungUp)
  | Relaying w false, PollAbandoned =>
      Some (l, match wait_for abandoning l w with
               | Some Reached => Releasing Cut
               | Some w => Relaying w false
               | None => Relaying w true
               end)
  | Relaying w true, (Chunk | NothingYet) => Some (l, Relaying w false)
  | Relaying w true, EndOfBody => Some (l, Releasing Finished)
  | Relaying _ _, HangUp => Some (l, Releasing HungUp)
  | Releasing e, Go => Some (drop_admitted l e)
  | Announcing e, Go => Some (announce l, Gone e)
  | _, _ => None
  end.

(** ** The drain and the serving task *)

(** [drain]; handlers stay installed after it, so that further signals are
    received and ignored. *)
Inductive Drain :=
| Awaiting
| Publishing (p : Plan)
| Beginning (p : Plan)
| Grace (p : Plan)
| ClosingAdmission (p : Plan)
| AnnouncingClose (p : Plan)
| Drained (p : Plan).

(** [serve_bounded], then the shutdown sequence of [main] up to the settlements. *)
Inductive Server :=
| Listening (w : Wait)
| Closed
| Deadline (p : Plan)
| Counting (p : Plan)
| Abandoning (p : Plan) (n : Z)
| AnnouncingAbandon (p : Plan) (n : Z)
| Stopped (o : Outcome)
| Quiescing (o : Outcome) (p : Plan) (w : Wait)
| Tallying (o : Outcome) (p : Plan)
| Tallied (o : Outcome) (p : Plan) (stuck : Z).

Record System := mkSystem {
  lifecycle : Lifecycle;
  requests : gmap nat Request;
  draining : Drain;
  server : Server;
  resolved : option Plan;
  config : Plan;             (* the [shutdown] section of the current snapshot *)
  boot : Plan;
}.

Definition init (boot : Plan) : System :=
  mkSystem new ∅ Awaiting (Listening Unpolled) None boot boot.

Inductive Action :=
| Arrive (id : nat)
| Move (id : nat) (ev : Event)
| Reload (p : Plan)
| Signal
| GraceOver                             (* the grace window ends *)
| DrainGo
| ServedBy (r : result string unit)     (* the server future resolved *)
| Elapsed                               (* the deadline, or the settle share, passed *)
| ServerGo.                             (* one operation of the serving task *)

Definition set_lifecycle (σ : System) (l : Lifecycle) : System :=
  mkSystem l (requests σ) (draining σ) (server σ) (resolved σ) (config σ) (boot σ).
Definition set_requests (σ : System) (rs : gmap nat Request) : System :=
  mkSystem (lifecycle σ) rs (draining σ) (server σ) (resolved σ) (config σ) (boot σ).
Definition set_draining (σ : System) (d : Drain) : System :=
  mkSystem (lifecycle σ) (requests σ) d (server σ) (resolved σ) (config σ) (boot σ).
Definition set_server (σ : System) (s : Server) : System :=
  mkSystem (lifecycle σ) (requests σ) (draining σ) s (resolved σ) (config σ) (boot σ).
Definition set_resolved (σ : System) (r : option Plan) : System :=
  mkSystem (lifecycle σ) (requests σ) (draining σ) (server σ) r (config σ) (boot σ).
Definition set_config (σ : System) (p : Plan) : System :=
  mkSystem (lifecycle σ) (requests σ) (draining σ) (server σ) (resolved σ) p (boot σ).

Definition drain (σ : System) (a : Action) : option System :=
  match draining σ, a with
  | Awaiting, Signal => Some (set_draining σ (Publishing (config σ)))
  | Publishing p, DrainGo => Some (set_draining (set_resolved σ (publish (resolved σ) p)) (Beginning p))
  | Beginning p, DrainGo =>
      Some (set_draining (set_lifecycle σ (begin_drain (lifecycle σ)))
              (if drain_grace p =? 0 then ClosingAdmission p else Grace p))
  | Grace p, (Signal | GraceOver) => Some (set_draining σ (ClosingAdmission p))
  | ClosingAdmission p, DrainGo =>
      Some (set_draining (set_lifecycle σ (set_phase (lifecycle σ) Closing)) (AnnouncingClose p))
  | AnnouncingClose p, DrainGo =>
      Some (set_draining (set_lifecycle σ (announce (lifecycle σ))) (Drained p))
  | Drained _, Signal => Some σ
  | _, _ => None
  end.

Definition serve_bounded (σ : System) (a : Action) : option System :=
  let l := lifecycle σ in
  match server σ, a with
  | (Listening _ | Deadline _), ServedBy r => Some (set_server σ (Stopped (finish r)))
  | Listening w, ServerGo =>
      w ← wait_for is_closed l w;
      Some (set_server σ (match w with Reached => Closed | _ => Listening w end))
  | Closed, ServerGo => Some (set_server σ (Deadline (or (resolved σ) (boot σ))))
  | Deadline p, Elapsed => Some (set_server σ (Counting p))
  | Counting p, ServerGo => Some (set_server σ (Abandoning p (in_flight l)))
  | Abandoning p n, ServerGo =>
      Some (set_server (set_lifecycle σ (start_abandoning l)) (AnnouncingAbandon p n))
  | AnnouncingAbandon p n, ServerGo =>
      Some (set_server (set_lifecycle σ (announce l)) (Stopped (Abandoned n)))
  | Stopped o, ServerGo => Some (set_server σ (Quiescing o (or (resolved σ) (boot σ)) Unpolled))
  | Quiescing o p w, ServerGo =>
      w ← wait_for is_quiet l w;
      Some (set_server σ (match w with Reached => Tallying o p | _ => Quiescing o p w end))
  | Quiescing o p _, Elapsed => Some (set_server σ (Tallying o p))
  | Tallying o p, ServerGo => Some (set_server σ (Tallied o p (in_flight l)))
  | _, _ => None
  end.

Definition move (σ : System) (id : nat) (ev : Event) : option System :=
  r ← requests σ !! id; '(l, r) ← advance (lifecycle σ) r ev;
  Some (set_requests (set_lifecycle σ l) (<[id := r]> (requests σ))).

Definition step (σ : System) (a : Action) : option System :=
  match a with
  | Arrive id =>
      match requests σ !! id with
      | None => Some (set_requests σ (<[id := Arriving]> (requests σ)))
      | Some _ => None
      end
  | Move id ev => move σ id ev
  | Reload p => Some (set_config σ p)
  | Signal | GraceOver | DrainGo => drain σ a
  | ServedBy _ | Elapsed | ServerGo => serve_bounded σ a
  end.

Fixpoint run (σ : System) (acts : list Action) : option System :=
  match acts with [] => Some σ | a :: acts => σ ← step σ a; run σ acts end.

(** A state some interleaving reaches, with fewer than [2^64] requests so far. *)
Definition reachable (boot : Plan) (σ : System) : Prop :=
  (∃ acts, run (init boot) acts = Some σ) ∧ Z.of_nat (size (requests σ)) < 2 ^ 64.

(** ** The budget of the shutdown sequence

    [main] after the server stopped, by the clock: the discovery task is given 50
    ms, then one budget covers the settlements, the flush of the sinks, the
    drains of the journal and of the index, which run together, and the
    telemetry.  What each of them takes is its own affair. *)

Definition DISCOVERY_WAIT : Z := 50 * 1000000.

(** [saturating_duration_since] now. *)
Definition until (deadline now : Z) : Z := Z.max 0 (deadline - now).

Definition checked_sub (a b : Z) : option Z := if b <=? a then Some (a - b) else None.

(** How long each step takes, given its bound. *)
Record Pace := mkPace {
  discovery_takes : Z → Z;
  quiesce_takes : Z → Z;
  await_idle_takes : Z → Z;
  flush_takes : Z → Z;
  drains_take : option Z → Z;
  telemetry_takes : Z → Z;
}.

Record Timeline := mkTimeline {
  started : Z;
  flush_by : Z;
  flush_begins : Z;
  drain_share : option Z;
  telemetry_begins : Z;
  ended : Z;
}.

Definition shutdown_sequence (f : Pace) (plan : Plan) (stopped : Z) : Timeline :=
  let started := stopped + discovery_takes f DISCOVERY_WAIT in
  let flush_by := started + flush_timeout plan in
  let settle_by := started + settle_share plan in
  let quiet := started + quiesce_takes f (until settle_by started) in
  let idle := quiet + await_idle_takes f (until settle_by quiet) in
  let flushed := idle + flush_takes f (until flush_by idle) in
  let share := checked_sub (until flush_by flushed / 2) DRAIN_MARGIN in
  let drained := flushed + drains_take f share in
  mkTimeline started flush_by idle share drained (drained + telemetry_takes f (until flush_by drained)).

(** A wait takes no longer than its bound; the drains no longer than their budget,
    the margin their caller allows for and the read of the backlog they may add to
    it ([Worker.drain_bounded]), and no time without a budget. *)
Definition keeps (takes : Z → Z) : Prop := ∀ bound, 0 ≤ bound → 0 ≤ takes bound ≤ bound.
Definition keeps_pace (f : Pace) : Prop :=
  keeps (discovery_takes f) ∧ keeps (quiesce_takes f) ∧ keeps (await_idle_takes f) ∧ keeps (flush_takes f) ∧
  keeps (telemetry_takes f) ∧ drains_take f None = 0 ∧
  ∀ budget, 0 ≤ budget → 0 ≤ drains_take f (Some budget) ≤ budget + DRAIN_MARGIN + CLOSING_READ.

(** ** Counting *)

(** The request holds an admission guard. *)
Definition held (r : Request) : Z :=
  match r with Handling _ | Relaying _ _ | Releasing _ => 1 | _ => 0 end.

(** The request has yet to announce that the count fell to zero. *)
Definition announces (r : Request) : bool := match r with Announcing _ => true | _ => false end.

Definition drain_announces (d : Drain) : bool := match d with AnnouncingClose _ => true | _ => false end.
Definition server_announces (s : Server) : bool := match s with AnnouncingAbandon _ _ => true | _ => false end.

(** Somebody changed the state and is about to say so. *)
Definition pending_announcement (σ : System) : Prop :=
  (∃ id r, requests σ !! id = Some r ∧ announces r = true) ∨
  drain_announces (draining σ) = true ∨ server_announces (server σ) = true.

(** A wait is in order: it sleeps only while its condition fails, unless the
    version has moved or is about to. *)
Definition wait_ok (reached : Lifecycle → bool) (pending : Prop) (l : Lifecycle) (w : Wait) : Prop :=
  match w with
  | Checking seen => seen ≤ changes l
  | Asleep seen => seen < changes l ∨ seen = changes l ∧ (reached l = true → pending)
  | Unpolled => True
  | Reached => False
  end.

Definition waits_ok (σ : System) : Prop :=
  (∀ id r, requests σ !! id = Some r →
    match r with
    | Handling w | Relaying w _ => wait_ok abandoning (server_announces (server σ) = true) (lifecycle σ) w
    | _ => True
    end) ∧
  match server σ with
  | Listening w => wait_ok is_closed (drain_announces (draining σ) = true) (lifecycle σ) w
  | Quiescing _ _ w =>
      wait_ok is_quiet (∃ id r, requests σ !! id = Some r ∧ announces r = true) (lifecycle σ) w
  | _ => True
  end.

(** ** Every reachable state *)

(** What the drain has done so far. *)
Definition drain_ok (σ : System) : Prop :=
  match draining σ with
  | Awaiting | Publishing _ => phase_code (lifecycle σ) = 0 ∧ resolved σ = None
  | Beginning p => phase_code (lifecycle σ) = 0 ∧ resolved σ = Some p
  | Grace p | ClosingAdmission p => phase_code (lifecycle σ) = 1 ∧ resolved σ = Some p
  | AnnouncingClose p | Drained p => phase_code (lifecycle σ) = 2 ∧ resolved σ = Some p
  end.

(** The server is past the abandonment of what was in flight. *)
Definition has_abandoned (s : Server) : bool :=
  match s with
  | AnnouncingAbandon _ _ | Stopped (Abandoned _) | Quiescing (Abandoned _) _ _
  | Tallying (Abandoned _) _ | Tallied (Abandoned _) _ _ => true
  | _ => false
  end.

Definition is_abandoned (o : Outcome) : bool := match o with Abandoned _ => true | _ => false end.

(** The plan whose bounds the server enforces. *)
Definition enforced (s : Server) : option Plan :=
  match s with
  | Deadline p | Counting p | Abandoning p _ | AnnouncingAbandon p _ => Some p
  | Quiescing o p _ | Tallying o p | Tallied o p _ => if is_abandoned o then Some p else None
  | _ => None
  end.

(** The server saw admission closed. *)
Definition saw_closed (s : Server) : bool :=
  match s with
  | Closed | Deadline _ | Counting _ | Abandoning _ _ => true
  | _ => has_abandoned s
  end.

Record Inv (σ : System) : Prop := {
  inv_count : in_flight (lifecycle σ) = msum held (requests σ);
  inv_drain : drain_ok σ;
  inv_abandoning : abandoning (lifecycle σ) = has_abandoned (server σ);
  inv_closed : saw_closed (server σ) = true → phase (lifecycle σ) = Closing;
  inv_enforced : ∀ p, enforced (server σ) = Some p → resolved σ = Some p;
  inv_waits : waits_ok σ;
}.

Lemma init_inv p : Inv (init p).
Proof.
  split; done.
Qed.

Lemma held_bounds r : 0 ≤ held r ≤ 1.
Proof. by destruct r. Qed.

Lemma held_lt (rs : gmap nat Request) id r :
  rs !! id = Some r → held r = 0 → Z.of_nat (size rs) < 2 ^ 64 → 0 ≤ msum held rs < 2 ^ 64 - 1.
Proof.
  intros Hid Hr Hs. split; [by apply msum_nonneg; intros; apply held_bounds|].
  pose proof (msum_le_size held (delete id rs) held_bounds).
  rewrite (msum_delete held rs id r Hid), Hr. rewrite map_size_delete_Some in H by eauto.
  assert (size rs ≠ 0%nat) by (apply map_size_ne_0_lookup; eauto). lia.
Qed.

(** A wait stays in order while the version grows and its condition, once it
    holds, is announced. *)
Lemma wait_ok_mono reached (P P' : Prop) l l' w :
  wait_ok reached P l w → changes l ≤ changes l' →
  (changes l' = changes l → (reached l = true → P) → reached l' = true → P') → wait_ok reached P' l' w.
Proof.
  destruct w as [|seen|seen|]; simpl; try done; [lia|]. intros [?|[-> HP]] Hle Hk; [left; lia|].
  destruct (decide (changes l' = changes l)) as [He|]; [right|left; lia]. split; [done|]. intros Hr. by apply Hk.
Qed.

Lemma wait_for_ok reached P l w w' :
  wait_ok reached P l w → wait_for reached l w = Some w' → w' = Reached ∨ wait_ok reached P l w'.
Proof.
  destruct w as [|seen|seen|]; simpl; intros Hw H; simplify_eq; [right; simpl; lia| |].
  - destruct (reached l) eqn:Hr; [by left|]. right. destruct (decide (seen < changes l)); [by left|right].
    split; [lia|congruence].
  - case_match; simplify_eq. right. simpl. lia.
Qed.

(** One step of a request on the shared state: the count follows the guard, and a
    count that reaches zero is announced. *)
Lemma advance_spec l r ev l' r' others :
  advance l r ev = Some (l', r') → in_flight l = others + held r → 0 ≤ others →
  (held r = 0 → in_flight l < 2 ^ 64 - 1) → in_flight l < 2 ^ 64 →
  in_flight l' = others + held r' ∧ phase_code l' = phase_code l ∧ abandoning l' = abandoning l ∧
  (changes l' = changes l ∧ (in_flight l' = 0 → in_flight l = 0 ∧ (announces r = true → announces r' = true) ∨
     announces r' = true) ∨ changes l' = changes l + 1).
Proof.
  intros H Hc Ho Hz Hmax. unfold advance, drop_admitted, try_admit, fetch_add, fetch_sub in H.
  destruct r as [| |w|w [|]|e|e|e], ev; simpl in *; try discriminate H;
    try (apply bind_Some in H as (w' & Hw & H)); simplify_eq; simpl; split_and!; try done; try lia;
    repeat case_match; simplify_eq; simpl in *; reflect_bools; try lia; try (left; split; [done|]; auto; fail).
  all: try (rewrite Z.mod_small by lia; lia).
  all: left; split; [done|]; rewrite ?Z.mod_small by lia; intros; try lia; auto.
Qed.

(** The wait of a request for the abandonment, while the server may be about to
    announce it. *)
Definition request_waits (P : Prop) (l : Lifecycle) (r : Request) : Prop :=
  match r with Handling w | Relaying w _ => wait_ok abandoning P l w | _ => True end.

Lemma advance_waits l r ev l' r' P :
  advance l r ev = Some (l', r') → request_waits P l r → request_waits P l' r'.
Proof.
  unfold advance, drop_admitted, try_admit. intros H Hw.
  destruct r as [| |w|w [|]|e|e|e], ev; simpl in *; try discriminate H;
    try (apply bind_Some in H as (w' & Hw' & H)); simplify_eq; simpl; try done.
  - by case_match.
  - destruct (wait_for_ok _ _ _ _ _ Hw Hw') as [->|]; [done|by destruct w'].
  - destruct (wait_for abandoning l' w) eqn:Hw'; [|done].
    destruct (wait_for_ok _ _ _ _ _ Hw Hw') as [->|]; [done|by case_match].
  - by case_match.
Qed.

Lemma request_waits_mono P P' l l' r :
  request_waits P l r → changes l ≤ changes l' →
  (changes l' = changes l → (abandoning l = true → P) → abandoning l' = true → P') → request_waits P' l' r.
Proof. destruct r; simpl; try done; eauto using wait_ok_mono. Qed.

(** What one action may do to the parts no request owns. *)
Lemma move_inv σ id ev σ' :
  Inv σ → Z.of_nat (size (requests σ)) < 2 ^ 64 → move σ id ev = Some σ' → Inv σ'.
Proof.
  intros [Hc Hd Ha Hcl He [Hr Hs]] Hsize H. unfold move in H. apply bind_Some in H as (r & Hid & H).
  apply bind_Some in H as ([l' r'] & Hadv & H). simplify_eq. 
  pose proof (msum_delete held (requests σ) id r Hid) as Hm.
  pose proof (msum_nonneg held (delete id (requests σ)) (λ a, proj1 (held_bounds a))) as Ho.
  destruct (advance_spec _ _ _ _ _ (msum held (delete id (requests σ))) Hadv) as (Hf & Hp & Hab & Hch);
    [lia|done|intros; rewrite Hc; by eapply held_lt| |].
  { pose proof (msum_le_size held (requests σ) held_bounds). lia. }
  assert (changes (lifecycle σ) ≤ changes l') as Hle by (destruct Hch as [[-> _]| ->]; lia).
  assert (∀ reached P w, wait_ok reached P (lifecycle σ) w → reached l' = reached (lifecycle σ) → wait_ok reached P l' w)
    as Hsame by (intros reached P w Hw Hre; eapply wait_ok_mono; [done|done|]; rewrite Hre; auto).
  split; simpl; try done.
  - rewrite (msum_update held _ _ _ _ Hid). lia.
  - unfold drain_ok in *. simpl. by rewrite Hp.
  - congruence.
  - unfold phase. by rewrite Hp.
  - split; simpl.
    + intros id' r0 [[_ <-]|[_ H]]%lookup_insert_Some.
      * eapply advance_waits; [done|]. by apply (Hr id).
      * eapply request_waits_mono; [by apply (Hr id')|done|]. rewrite Hab. auto.
    + destruct (server σ) eqn:Hserver; try done.
      * apply Hsame; [done|]. unfold is_closed, phase. by rewrite Hp.
      * eapply wait_ok_mono; [done|done|]. intros Heq Hq Hq'. unfold is_quiet in *. apply Z.eqb_eq in Hq'.
        destruct Hch as [[_ Hch]|?]; [|lia]. destruct (Hch Hq') as [[H0 Hann]|Hann].
        -- destruct Hq as (id0 & r0 & H1 & H2); [by apply Z.eqb_eq|]. destruct (decide (id0 = id)) as [->|Hne].
           ++ exists id, r'. rewrite lookup_insert_eq. split; [done|]. apply Hann. congruence.
           ++ exists id0, r0. by rewrite lookup_insert_ne by congruence.
        -- exists id, r'. by rewrite lookup_insert_eq.
Qed.

(** The drain and the server change the shared state without touching the count. *)
Lemma requests_wait σ l' (P' : Prop) :
  (∀ id r, requests σ !! id = Some r → request_waits (server_announces (server σ) = true) (lifecycle σ) r) →
  changes (lifecycle σ) ≤ changes l' →
  (changes l' = changes (lifecycle σ) → abandoning l' = true →
    (abandoning (lifecycle σ) = true → server_announces (server σ) = true) → P') →
  ∀ id r, requests σ !! id = Some r → request_waits P' l' r.
Proof. intros Hr Hle HP id r Hid. eapply request_waits_mono; [by apply (Hr id)|done|auto]. Qed.

Lemma drain_inv σ a σ' : Inv σ → drain σ a = Some σ' → Inv σ'.
Proof.
  intros [Hc Hd Ha Hcl He [Hr Hs]] H. unfold drain in H. unfold drain_ok in Hd.
  destruct (draining σ) as [|q|q|q|q|q|q] eqn:Hdr, a; try discriminate H; simplify_eq;
    destruct Hd as [Hp Hres]; split; unfold drain_ok, phase, begin_drain in *; rewrite ?Hp in *; simpl in *;
    try done; rewrite ?Hdr; simpl; try (by split);
    try (by intros p Hp'; specialize (He p Hp'); congruence).
  all: try (intros Hs'; specialize (Hcl Hs'); by rewrite ?Hp).
  - by rewrite Hres.
  - by destruct (drain_grace q =? 0).
  - split; [exact Hr|]. simpl. destruct (server σ); try done. eapply wait_ok_mono; [done|done|].
    done.
  - split; [exact Hr|]. simpl. destruct (server σ); try done. by eapply wait_ok_mono.
  - split; simpl; [by eapply requests_wait; [done|simpl; lia|simpl; lia]|].
    destruct (server σ); try done; (eapply wait_ok_mono; [done|simpl; lia|simpl; lia]).
  - split; [done|]. by rewrite Hdr.
Qed.

Lemma wait_for_reached reached l w : wait_for reached l w = Some Reached → reached l = true.
Proof. destruct w; simpl; intros; repeat case_match; by simplify_eq. Qed.

(** Admission closes after the plan was published. *)
Lemma closed_resolved σ :
  drain_ok σ → phase (lifecycle σ) = Closing → ∃ p, resolved σ = Some p ∧ or (resolved σ) (boot σ) = p.
Proof.
  unfold drain_ok, phase. intros Hd Hp.
  destruct (draining σ); destruct Hd as [Hd Hres]; rewrite Hd in Hp; try discriminate Hp; rewrite Hres; eauto.
Qed.

Lemma serve_bounded_inv σ a σ' : Inv σ → serve_bounded σ a = Some σ' → Inv σ'.
Proof.
  intros [Hc Hd Ha Hcl He [Hr Hs]] H. unfold serve_bounded in H.
  destruct (server σ) as [w| |q|q|q n|q n|o|o q w|o q|o q n] eqn:Hse, a as [| | | | | |r| |]; try discriminate H;
    try (apply bind_Some in H as (w' & Hw' & H)); simplify_eq; 
    split; unfold drain_ok, phase, waits_ok in *; simpl in *; try done;
    try (destruct r; done); try (destruct w'; done); try (destruct o; done).
  - destruct w'; try done. intros _. apply wait_for_reached in Hw'. unfold is_closed in Hw'.
    by apply bool_decide_eq_true in Hw'.
  - split; [intros id r Hid; specialize (Hr id r Hid); by destruct r, w'|].
    destruct (wait_for_ok _ _ _ _ _ Hs Hw') as [->|]; [done|by destruct w'].
  - intros p Hp. destruct (closed_resolved σ Hd (Hcl eq_refl)) as (p' & H1 & H2). congruence.
  - split; [|done]. by eapply (requests_wait σ (start_abandoning (lifecycle σ))); [rewrite Hse|..].
  - split; [|done]. eapply (requests_wait σ (announce (lifecycle σ))); [by rewrite Hse|simpl; lia|simpl; lia].
  - intros p Hp. destruct (is_abandoned o) eqn:Ho; [|done]. destruct o; try done.
    destruct (closed_resolved σ Hd (Hcl eq_refl)) as (p' & H1 & H2). congruence.
  - split; [intros id r Hid; specialize (Hr id r Hid); by destruct r, w'|].
    destruct (wait_for_ok _ _ _ _ _ Hs Hw') as [->|]; [done|by destruct w'].
Qed.

Lemma lifecycle_step σ a σ' :
  Inv σ → Z.of_nat (size (requests σ)) < 2 ^ 64 → step σ a = Some σ' → Inv σ'.
Proof.
  intros HI Hsize H. destruct a; simpl in H; eauto using drain_inv, serve_bounded_inv, move_inv.
  - destruct (requests σ !! id) eqn:Hid; simplify_eq. destruct HI as [Hc Hd Ha Hcl He [Hr Hs]].
    split; try done; simpl; [by rewrite msum_insert|]. split; simpl.
    + intros id' r [[_ <-]|[_ H]]%lookup_insert_Some; [done|by apply (Hr id')].
    + destruct (server σ); try done. eapply wait_ok_mono; [done|done|]. intros _ H Hq.
      destruct (H Hq) as (id' & r & H1 & H2). exists id', r. rewrite lookup_insert_ne by congruence. done.
  - simplify_eq. by destruct HI.
Qed.

Lemma step_requests σ a σ' : step σ a = Some σ' → (size (requests σ) ≤ size (requests σ'))%nat.
Proof.
  intros H. destruct a; simpl in H; unfold drain, serve_bounded, move in H; repeat case_match; simplify_eq/=; try done;
    try (apply bind_Some in H as (? & Hw & H); simplify_eq/=; try done).
  - rewrite map_size_insert_None by done. lia.
  - apply bind_Some in H as ([l r] & _ & H). simplify_eq/=. rewrite map_size_insert_Some by eauto. done.
Qed.

Lemma run_snoc σ acts a : run σ (acts ++ [a]) = σ ← run σ acts; step σ a.
Proof.
  revert σ. induction acts as [|b acts IH]; intros σ; simpl; [by destruct (step σ a)|]. 
  destruct (step σ b); simpl; [apply IH|done].
Qed.

Lemma lifecycle_reachable_inv p σ : reachable p σ → Inv σ.
Proof.
  intros [[acts Hrun] Hsize]. revert σ Hrun Hsize.
  induction acts as [|a acts IH] using rev_ind; intros σ Hrun Hsize.
  { simpl in Hrun. simplify_eq. apply init_inv. }
  rewrite run_snoc in Hrun. apply bind_Some in Hrun as (σ0 & H0 & H1). pose proof (step_requests _ _ _ H1).
  eapply lifecycle_step; [apply IH|..]; [done|lia|lia|done].
Qed.

(** ** What a step keeps *)

Lemma run_keeps (P : System → Prop) :
  (∀ σ a σ', P σ → step σ a = Some σ' → P σ') → ∀ acts σ σ', P σ → run σ acts = Some σ' → P σ'.
Proof.
  intros Hstep acts. induction acts as [|a acts IH]; intros σ σ' HP H; cbn [run] in H; [by simplify_eq|].
  apply bind_Some in H as (σ1 & H1 & H). eauto.
Qed.

Ltac step_cases H :=
  unfold drain, serve_bounded, move in H; repeat case_match; simplify_eq/=; try done;
  repeat match type of H with mbind _ _ = _ => apply bind_Some in H as (? & ? & H); simplify_eq/=; try done end;
  repeat case_match; simplify_eq/=; try done.

(** A request changes neither the phase nor the abandonment. *)
Lemma advance_phase l r ev l' r' :
  advance l r ev = Some (l', r') →
  phase_code l' = phase_code l ∧ abandoning l' = abandoning l ∧ changes l ≤ changes l'.
Proof.
  unfold advance, drop_admitted. intros H. repeat case_match; simplify_eq/=; try (split_and!; [done..|lia]).
  all: apply bind_Some in H as (w' & ? & H); simplify_eq; split_and!; [done..|lia].
Qed.

Lemma phase_le l : code (phase l) ≤ 2.
Proof. unfold phase. by destruct (from_code _). Qed.

Lemma begin_drain_phase l : code (phase l) ≤ code (phase (begin_drain l)).
Proof. unfold begin_drain, phase. case_match eqn:E; [|done]. apply Z.eqb_eq in E. by rewrite E. Qed.

Lemma step_phase σ a σ' : step σ a = Some σ' → code (phase (lifecycle σ)) ≤ code (phase (lifecycle σ')).
Proof.
  intros H. pose proof (phase_le (lifecycle σ)). pose proof (begin_drain_phase (lifecycle σ)).
  destruct a; simpl in H; step_cases H.
  unfold phase. match goal with Hadv : advance _ _ _ = _ |- _ => by rewrite (proj1 (advance_phase _ _ _ _ _ Hadv)) end.
Qed.

(** The request, if it came at all, has not been admitted. *)
Definition not_admitted (r : option Request) : bool :=
  match r with None | Some Arriving | Some (Gone Refused) => true | _ => false end.

Lemma step_not_admitted σ a σ' id :
  phase (lifecycle σ) = Closing → not_admitted (requests σ !! id) = true → step σ a = Some σ' →
  not_admitted (requests σ' !! id) = true.
Proof.
  intros Hp Hn H. destruct a; simpl in H; step_cases H.
  - destruct (decide (id = id0)) as [<-|]; [by rewrite lookup_insert_eq|by rewrite lookup_insert_ne].
  - destruct (decide (id = id0)) as [<-|]; [|by rewrite lookup_insert_ne]. rewrite lookup_insert_eq.
    match goal with H1 : requests σ !! id = Some ?r, H2 : advance _ _ _ = _ |- _ =>
      rewrite H1 in Hn; destruct r as [| | | | | |[]], ev; simpl in *; try done; unfold try_admit in H2 end.
    rewrite decide_True in * by done. by simplify_eq.
Qed.

(** The plan the drain read when the signal arrived. *)
Definition drain_plan (d : Drain) : option Plan :=
  match d with
  | Awaiting => None
  | Publishing p | Beginning p | Grace p | ClosingAdmission p | AnnouncingClose p | Drained p => Some p
  end.

Lemma step_drain_plan σ a σ' p :
  drain_plan (draining σ) = Some p → step σ a = Some σ' → drain_plan (draining σ') = Some p.
Proof.
  intros Hd H. destruct (draining σ) eqn:E; simpl in Hd; simplify_eq;
    destruct a; simpl in H; step_cases H; match goal with E : draining _ = _ |- _ => by rewrite E end.
Qed.

Lemma resolved_plan σ p q : drain_ok σ → drain_plan (draining σ) = Some p → resolved σ = Some q → q = p.
Proof. unfold drain_ok. intros Hd Hp Hq. destruct (draining σ); simpl in Hp; destruct Hd; congruence. Qed.

(** ** An abandonment that was announced *)

Definition abandonment_announced (σ : System) : Prop :=
  has_abandoned (server σ) = true ∧ server_announces (server σ) = false.

Lemma step_announced σ a σ' : abandonment_announced σ → step σ a = Some σ' → abandonment_announced σ'.
Proof.
  unfold abandonment_announced. intros [Ha Hs] H. destruct a; simpl in H; step_cases H; try (by rewrite Ha).
  all: match goal with x : Wait |- _ => by destruct x end.
Qed.

(** What a request does without its handler, its provider or its caller: its own
    operations, its polls, and a body that has nothing ready. *)
Definition own (ev : Event) : bool := match ev with Go | PollAbandoned | NothingYet => true | _ => false end.

(** Only requests move, each of its own accord. *)
Definition own_action (a : Action) : bool := match a with Move _ ev => own ev | _ => false end.

(** [σ'] differs from [σ] in the requests and in the count alone. *)
Definition same_server (σ σ' : System) : Prop :=
  server σ' = server σ ∧ draining σ' = draining σ ∧ size (requests σ') = size (requests σ).

Lemma move_same σ id ev σ' :
  move σ id ev = Some σ' →
  same_server σ σ' ∧ dom (requests σ') = dom (requests σ) ∧
  ∀ id', id' ≠ id → requests σ' !! id' = requests σ !! id'.
Proof.
  unfold move. intros H. apply bind_Some in H as (r & Hid & H). apply bind_Some in H as ([l r'] & _ & H). simplify_eq.
  unfold same_server. simpl. rewrite map_size_insert_Some, dom_insert_lookup_L by eauto.
  split_and!; try done. intros id' Hne. by rewrite lookup_insert_ne by congruence.
Qed.

(** The invariant, an announced abandonment and the bound on requests. *)
Definition winding_down (σ : System) : Prop :=
  Inv σ ∧ abandonment_announced σ ∧ Z.of_nat (size (requests σ)) < 2 ^ 64.

Lemma winding_move σ id ev σ' : winding_down σ → move σ id ev = Some σ' → winding_down σ'.
Proof.
  intros (HI & Ha & Hs) H. split_and!; [by eapply move_inv| |].
  - by eapply (step_announced σ (Move id ev)).
  - by destruct (move_same _ _ _ _ H) as [(_ & _ & ->) _].
Qed.

(** A wait for the abandonment wakes: it never finds the version it has seen. *)
Lemma abandonment_wakes σ id r w :
  winding_down σ → requests σ !! id = Some r → (r = Handling w ∨ ∃ b, r = Relaying w b) →
  match w with
  | Unpolled => wait_for abandoning (lifecycle σ) w = Some (Checking (changes (lifecycle σ)))
  | Checking seen => wait_for abandoning (lifecycle σ) w = Some Reached
  | Asleep seen => wait_for abandoning (lifecycle σ) w = Some (Checking (changes (lifecycle σ)))
  | Reached => False
  end.
Proof.
  intros (HI & [Ha Hs] & _) Hid Hr. destruct HI as [_ _ Hab _ _ [Hw _]]. rewrite Ha in Hab.
  specialize (Hw id r Hid). destruct w as [|seen|seen|]; simpl; [done|by rewrite Hab| |by destruct Hr as [->|[b ->]]].
  destruct (Z.eqb_spec (changes (lifecycle σ)) seen); [|done]. exfalso.
  destruct Hr as [->|[b ->]]; simpl in Hw; (destruct Hw as [?|[_ Hw]]; [lia|]); specialize (Hw Hab); congruence.
Qed.

(** Steps of one request that end it. *)
Definition ends (σ : System) (id : nat) : Prop :=
  ∃ evs σ' e, Forall (λ ev, own ev = true) evs ∧ run σ (Move id <$> evs) = Some σ' ∧
    requests σ' !! id = Some (Gone e) ∧ same_server σ σ' ∧ winding_down σ' ∧
    ∀ id', id' ≠ id → requests σ' !! id' = requests σ !! id'.

Lemma ends_now σ id e : winding_down σ → requests σ !! id = Some (Gone e) → ends σ id.
Proof. intros Hw H. exists [], σ, e. split_and!; try done. Qed.

Lemma ending_step σ id r ev l r' :
  winding_down σ → requests σ !! id = Some r → own ev = true → advance (lifecycle σ) r ev = Some (l, r') →
  (∀ σ', lifecycle σ' = l → requests σ' !! id = Some r' → winding_down σ' → ends σ' id) → ends σ id.
Proof.
  intros Hw Hid Hev Hadv Hk.
  assert (move σ id ev = Some (set_requests (set_lifecycle σ l) (<[id := r']> (requests σ)))) as Hm
    by (unfold move; rewrite Hid; simpl; by rewrite Hadv).
  destruct (Hk (set_requests (set_lifecycle σ l) (<[id := r']> (requests σ))) eq_refl (lookup_insert_eq _ _ _) (winding_move _ _ _ _ Hw Hm))
    as (evs & σ' & e & H1 & H2 & H3 & H4 & H5 & H6).
  destruct (move_same _ _ _ _ Hm) as (Hsame & _ & Hoth).
  exists (ev :: evs), σ', e. split_and!; try done.
  - by constructor.
  - cbn [fmap list_fmap run step]. by rewrite Hm.
  - destruct H4 as (? & ? & ?), Hsame as (? & ? & ?). split_and!; congruence.
  - intros id' Hne. rewrite H6 by done. by apply Hoth.
Qed.

Lemma releasing_ends σ id e : winding_down σ → requests σ !! id = Some (Releasing e) → ends σ id.
Proof.
  intros Hw Hid. eapply (ending_step σ id _ Go); [done|done|done|reflexivity|]. intros σ1 _ H1 Hw1.
  case_match; [|by eapply ends_now]. eapply (ending_step σ1 id _ Go); [done|done|done|reflexivity|].
  intros σ2 _ H2 Hw2. by eapply ends_now.
Qed.

Lemma handling_ends σ id w : winding_down σ → requests σ !! id = Some (Handling w) → ends σ id.
Proof.
  intros Hw Hid.
  assert (∀ σ seen, winding_down σ → requests σ !! id = Some (Handling (Checking seen)) → ends σ id) as Hcheck.
  { intros σ1 seen Hw1 H1. pose proof (abandonment_wakes σ1 id _ (Checking seen) Hw1 H1 (or_introl eq_refl)) as Hwake.
    eapply (ending_step σ1 id _ PollAbandoned); [done|done|done|cbn [advance]; by rewrite Hwake|].
    intros σ2 _ H2 Hw2. by eapply releasing_ends. }
  pose proof (abandonment_wakes σ id _ w Hw Hid (or_introl eq_refl)) as Hwake.
  destruct w as [|seen|seen|]; [|by eapply Hcheck| |done];
    (eapply (ending_step σ id _ PollAbandoned); [done|done|done|cbn [advance]; by rewrite Hwake|];
     intros σ2 _ H2 Hw2; by eapply Hcheck).
Qed.

Lemma relaying_ends σ id w b : winding_down σ → requests σ !! id = Some (Relaying w b) → ends σ id.
Proof.
  intros Hw Hid.
  assert (∀ σ seen, winding_down σ → requests σ !! id = Some (Relaying (Checking seen) false) → ends σ id) as Hcheck.
  { intros σ1 seen Hw1 H1.
    pose proof (abandonment_wakes σ1 id _ (Checking seen) Hw1 H1 (or_intror (ex_intro _ _ eq_refl))) as Hwake.
    eapply (ending_step σ1 id _ PollAbandoned); [done|done|done|cbn [advance]; by rewrite Hwake|].
    intros σ2 _ H2 Hw2. by eapply releasing_ends. }
  assert (∀ σ w, winding_down σ → requests σ !! id = Some (Relaying w false) → ends σ id) as Hfalse.
  { intros σ1 w1 Hw1 H1.
    pose proof (abandonment_wakes σ1 id _ w1 Hw1 H1 (or_intror (ex_intro _ _ eq_refl))) as Hwake.
    destruct w1 as [|seen|seen|]; [|by eapply Hcheck| |done];
    (eapply (ending_step σ1 id _ PollAbandoned); [done|done|done|cbn [advance]; by rewrite Hwake|];
     intros σ2 _ H2 Hw2; by eapply Hcheck). }
  destruct b; [|by eapply Hfalse]. eapply (ending_step σ id _ NothingYet); [done|done|done|done|].
  intros σ2 _ H2 Hw2. by eapply Hfalse.
Qed.

Lemma request_ends σ id r : winding_down σ → requests σ !! id = Some r → ends σ id.
Proof.
  intros Hw Hid. destruct r as [| |w|w b|e|e|e]; eauto using handling_ends, relaying_ends, releasing_ends, ends_now.
  - assert (phase (lifecycle σ) = Closing) as Hp.
    { destruct Hw as ([_ _ _ Hcl _ _] & [Ha _] & _). apply Hcl. by destruct (server σ). }
    eapply (ending_step σ id _ Go); [done|done|done|reflexivity|]. intros σ2 _ H2 Hw2.
    unfold try_admit in H2. rewrite decide_True in H2 by done. by eapply ends_now.
  - eapply (ending_step σ id _ Go); [done|done|done|reflexivity|]. intros σ2 _ H2 Hw2. by eapply handling_ends.
  - eapply (ending_step σ id _ Go); [done|done|done|reflexivity|]. intros σ2 _ H2 Hw2. by eapply ends_now.
Qed.

Lemma run_lifecycle_app σ acts acts' : run σ (acts ++ acts') = σ ← run σ acts; run σ acts'.
Proof.
  revert σ. induction acts as [|a acts IH]; intros σ; [done|]. simpl. destruct (step σ a); [|done]. apply IH.
Qed.

Lemma own_actions id evs : Forall (λ ev, own ev = true) evs → Forall (λ a, own_action a = true) (Move id <$> evs).
Proof. intros H. apply Forall_fmap. by eapply Forall_impl. Qed.

(** Every listed request can end, one after the other. *)
Lemma listed_end (ids : list nat) σ :
  winding_down σ → ∃ acts σ', Forall (λ a, own_action a = true) acts ∧ run σ acts = Some σ' ∧
    winding_down σ' ∧ server σ' = server σ ∧
    (∀ id, (is_Some (requests σ' !! id) ↔ is_Some (requests σ !! id))) ∧
    (∀ id, id ∈ ids ∨ (∃ e, requests σ !! id = Some (Gone e)) →
      is_Some (requests σ !! id) → ∃ e, requests σ' !! id = Some (Gone e)).
Proof.
  revert σ. induction ids as [|id ids IH]; intros σ Hw.
  { exists [], σ. split_and!; try done. intros id [H|H] _; [by apply elem_of_nil in H|done]. }
  destruct (requests σ !! id) as [r|] eqn:Hid.
  - destruct (request_ends σ id r Hw Hid) as (evs & σ1 & e & H1 & H2 & H3 & (H4 & _ & _) & H5 & H6).
    destruct (IH σ1 H5) as (acts & σ' & A1 & A2 & A3 & A4 & A5 & A6).
    exists ((Move id <$> evs) ++ acts), σ'. split_and!; try done.
    + apply Forall_app. split; [by apply own_actions|done].
    + rewrite run_lifecycle_app, H2. done.
    + by rewrite A4.
    + intros id'. rewrite A5. destruct (decide (id' = id)) as [->|]; [rewrite H3, Hid; by split; eexists|by rewrite H6].
    + intros id' Hor Hsome. destruct (decide (id' = id)) as [->|Hne].
      * apply A6; [right; eauto|rewrite H3; by eexists].
      * apply A6; rewrite H6 by done; [|done]. destruct Hor as [H|?]; [|by right]. left. by set_solver.
  - destruct (IH σ Hw) as (acts & σ' & A1 & A2 & A3 & A4 & A5 & A6). exists acts, σ'. split_and!; try done.
    intros id' Hor Hsome. destruct (decide (id' = id)) as [->|Hne]; [rewrite Hid in Hsome; by destruct Hsome|].
    apply A6; [|done]. destruct Hor as [H|?]; [|by right]. left. by set_solver.
Qed.

Lemma quiesce_polls σ o p w w' :
  server σ = Quiescing o p w → wait_for is_quiet (lifecycle σ) w = Some w' →
  step σ ServerGo = Some (set_server σ (match w' with Reached => Tallying o p | _ => Quiescing o p w' end)).
Proof. intros Hs Hw. unfold step, serve_bounded. rewrite Hs. cbn. by rewrite Hw. Qed.

(** A server that waits for nothing finds it in at most three polls. *)
Lemma quiesce_ends σ o p w :
  Inv σ → server σ = Quiescing o p w → (∀ id r, requests σ !! id = Some r → ∃ e, r = Gone e) →
  ∃ k σ', (k ≤ 4)%nat ∧ run σ (replicate k ServerGo) = Some σ' ∧ server σ' = Tallied o p 0.
Proof.
  intros [Hc _ _ _ _ [_ Hs]] Hse Hgone. rewrite Hse in Hs.
  assert (in_flight (lifecycle σ) = 0) as H0.
  { rewrite Hc. apply msum_zero. intros id r Hid. by destruct (Hgone id r Hid) as [e ->]. }
  assert (is_quiet (lifecycle σ) = true) as Hq by (by apply Z.eqb_eq).
  assert (∀ σ seen, in_flight (lifecycle σ) = 0 → server σ = Quiescing o p (Checking seen) →
    ∃ σ', run σ [ServerGo; ServerGo] = Some σ' ∧ server σ' = Tallied o p 0) as Hlast.
  { intros σ1 seen H1 H2. eexists. cbn [run].
    rewrite (quiesce_polls σ1 o p (Checking seen) Reached) by (done || by simpl; unfold is_quiet; rewrite H1).
    simpl. by rewrite H1. }
  assert (∀ v, wait_for is_quiet (lifecycle σ) w = Some (Checking v) →
    ∃ k σ', (k ≤ 4)%nat ∧ run σ (replicate k ServerGo) = Some σ' ∧ server σ' = Tallied o p 0) as Hthree.
  { intros v Hv. destruct (Hlast (set_server σ (Quiescing o p (Checking v))) v H0 eq_refl) as (σ' & H1 & H2).
    exists 3%nat, σ'. split; [lia|]. split; [|done]. cbn [replicate run].
    by rewrite (quiesce_polls σ o p w (Checking v)). }
  destruct w as [|seen|seen|]; [by eapply Hthree| | |done].
  - destruct (Hlast σ seen H0 Hse) as (σ' & H1 & H2). exists 2%nat, σ'. split; [lia|done].
  - eapply Hthree. simpl. destruct (Z.eqb_spec (changes (lifecycle σ)) seen); [|done]. exfalso.
    destruct Hs as [?|[_ Hs]]; [lia|]. destruct (Hs Hq) as (id & r & Hid & Hr).
    by destruct (Hgone id r Hid) as [e0 ->].
Qed.

(** Once the abandonment is announced, a stream may relay the chunk it was about to
    ask for and no other. *)
Definition chunk_left (r : option Request) : nat := match r with Some (Relaying _ true) => 1 | _ => 0 end.

Fixpoint chunks (id : nat) (acts : list Action) : nat :=
  match acts with
  | [] => 0
  | Move id' Chunk :: acts => (if decide (id' = id) then 1 else 0) + chunks id acts
  | _ :: acts => chunks id acts
  end.

Lemma step_chunk σ a σ' id :
  winding_down σ → step σ a = Some σ' →
  (chunks id [a] + chunk_left (requests σ' !! id) ≤ chunk_left (requests σ !! id))%nat.
Proof.
  intros Hw H. destruct a as [id'|id' ev| | | | | | |]; try (simpl in H; step_cases H; simpl; lia).
  - simpl in H. case_match eqn:Hid'; simplify_eq. simpl.
    destruct (decide (id = id')) as [<-|]; [rewrite lookup_insert_eq; simpl; lia|by rewrite lookup_insert_ne].
  - destruct (decide (id = id')) as [<-|Hne].
    + simpl in H. unfold move in H. apply bind_Some in H as (r & Hid & H). apply bind_Some in H as ([l r'] & Hadv & H).
      simplify_eq. simpl. rewrite lookup_insert_eq, Hid. 
      destruct r as [| |w|w [|]|e|e|e], ev; simpl in Hadv; try discriminate Hadv;
        try (destruct (wait_for abandoning (lifecycle σ) w) as [w'|] eqn:Hw'; simpl in Hadv; try discriminate Hadv);
        simplify_eq; simpl; rewrite ?decide_True by done; try lia.
      * unfold try_admit. destruct (decide (phase (lifecycle σ) = Closing)); lia.
      * destruct w'; simpl; lia.
      * destruct w'; simpl; lia.
      * pose proof (abandonment_wakes σ id _ w Hw Hid (or_intror (ex_intro _ _ eq_refl))) as Hwake.
        destruct w; rewrite ?Hw' in Hwake; done.
      * unfold drop_admitted in Hadv. repeat case_match; simplify_eq; simpl; lia.
    + simpl in H. destruct (move_same _ _ _ _ H) as (_ & _ & ->); [|done].
      destruct ev; simpl; rewrite ?decide_False by congruence; lia.
Qed.

Lemma chunks_cons id a acts : chunks id (a :: acts) = (chunks id [a] + chunks id acts)%nat.
Proof. destruct a as [|? []| | | | | | |]; simpl; lia. Qed.

Lemma run_chunks id acts σ σ' :
  winding_down σ → run σ acts = Some σ' → Z.of_nat (size (requests σ')) < 2 ^ 64 →
  (chunks id acts ≤ chunk_left (requests σ !! id))%nat.
Proof.
  revert σ. induction acts as [|a acts IH]; intros σ Hw H Hs; [simpl; lia|].
  simpl in H. apply bind_Some in H as (σ1 & H1 & H).
  assert (size (requests σ1) ≤ size (requests σ'))%nat.
  { eapply (run_keeps (λ x, (size (requests σ1) ≤ size (requests x))%nat)); [|done|exact H].
    intros σ2 b σ3 ? ?%step_requests. lia. }
  assert (winding_down σ1).
  { destruct Hw as (HI & Ha & Hs'). split_and!; [by eapply lifecycle_step|by eapply step_announced|lia]. }
  pose proof (step_chunk _ _ _ id Hw H1). pose proof (IH σ1 ltac:(done) H Hs).
  rewrite chunks_cons. lia.
Qed.

Lemma half_le n : 0 ≤ n → 0 ≤ n / 2 ∧ 2 * (n / 2) ≤ n.
Proof. split; [by apply Z.div_pos|by apply Z.mul_div_le]. Qed.

(** ** What the component guarantees *)

(** The count of requests in flight is exact in every interleaving, and a quiesce
    that has found it zero found no request holding a guard. *)
Theorem in_flight_exact (boot : Plan) (σ : System) :
  reachable boot σ →
  in_flight (lifecycle σ) = msum held (requests σ) ∧ 0 ≤ in_flight (lifecycle σ) ≤ Z.of_nat (size (requests σ)) ∧
  (∀ o p, server σ = Tallying o p → ∃ σ', step σ ServerGo = Some σ' ∧
     server σ' = Tallied o p (msum held (requests σ))).
Proof.
  intros Hr. destruct (lifecycle_reachable_inv _ _ Hr) as [Hc _ _ _ _ _]. split_and!; try done.
  - rewrite Hc. apply msum_nonneg. intros r. apply held_bounds.
  - rewrite Hc. apply msum_le_size, held_bounds.
  - intros o p Ho. eexists. unfold step, serve_bounded. rewrite Ho. split; [done|]. simpl. by rewrite Hc.
Qed.

(** Termination is one-way.  The phase never goes back, so readiness once lost is
    not regained, and a request that arrives after admission closed, or has not
    yet looked, is never admitted. *)
Theorem admission_closes (σ σ' : System) (acts : list Action) :
  run σ acts = Some σ' →
  code (phase (lifecycle σ)) ≤ code (phase (lifecycle σ')) ∧
  (is_ready (lifecycle σ) = false → is_ready (lifecycle σ') = false) ∧
  (phase (lifecycle σ) = Closing → ∀ id,
    not_admitted (requests σ !! id) = true → not_admitted (requests σ' !! id) = true).
Proof.
  intros H. 
  assert (code (phase (lifecycle σ)) ≤ code (phase (lifecycle σ'))) as Hle.
  { eapply (run_keeps (λ x, code (phase (lifecycle σ)) ≤ code (phase (lifecycle x)))); [|done|exact H].
    intros σ1 a σ2 ? ?%step_phase. lia. }
  split_and!; [done| |].
  - unfold is_ready. rewrite !bool_decide_eq_false. intros Hn Hs. rewrite Hs in Hle. by destruct (phase (lifecycle σ)).
  - intros Hp id Hid.
    apply (run_keeps (λ x, phase (lifecycle x) = Closing ∧ not_admitted (requests x !! id) = true)
      ltac:(intros σ1 a σ2 [H1 H2] H3; split; [|by eapply step_not_admitted];
            pose proof (step_phase _ _ _ H3) as Hph; rewrite H1 in Hph; by destruct (phase (lifecycle σ2)))
      acts σ σ' (conj Hp Hid) H).
Qed.

(** The bounds of a termination are those the drain read when the signal arrived.
    Whatever is reloaded and however many signals follow, the deadline and the
    budget enforced afterwards are that plan's. *)
Theorem plan_is_signalled (boot p q : Plan) (before after : list Action) (σ σ' : System) :
  run (init boot) before = Some σ → draining σ = Publishing p →
  run σ after = Some σ' → Z.of_nat (size (requests σ')) < 2 ^ 64 →
  enforced (server σ') = Some q → q = p ∧ resolved σ' = Some p.
Proof.
  intros H1 Hp H2 Hs Hq.
  assert (reachable boot σ') as Hr.
  { split; [|done]. exists (before ++ after). by rewrite run_lifecycle_app, H1. }
  destruct (lifecycle_reachable_inv _ _ Hr) as [_ Hd _ _ He _]. specialize (He q Hq).
  assert (drain_plan (draining σ') = Some p) as Hdp.
  { eapply (run_keeps (λ x, drain_plan (draining x) = Some p)); [|by rewrite Hp|exact H2].
    intros σ1 a σ2. apply step_drain_plan. }
  assert (q = p) as -> by (by eapply resolved_plan). done.
Qed.

(** C27: The deadline reaches every request.  When the abandonment has been announced
    and the process waits for the rest, the requests that are left end by their
    own polls, whatever handlers, providers and callers do, and the wait then
    finds none in flight. *)
Theorem abandoned_requests_end (boot : Plan) (σ : System) (o : Outcome) (p : Plan) (w : Wait) :
  reachable boot σ → server σ = Quiescing o p w → is_abandoned o = true →
  ∃ moves k σ', Forall (λ a, own_action a = true) moves ∧ (k ≤ 4)%nat ∧
    run σ (moves ++ replicate k ServerGo) = Some σ' ∧ server σ' = Tallied o p 0.
Proof.
  intros Hr Hse Ho. pose proof (lifecycle_reachable_inv _ _ Hr) as HI.
  assert (winding_down σ) as Hw.
  { split_and!; [done| |apply Hr]. split; rewrite Hse; [by destruct o|done]. }
  destruct (listed_end (map_to_list (requests σ)).*1 σ Hw) as (moves & σ1 & H1 & H2 & H3 & H4 & H5 & H6).
  destruct (quiesce_ends σ1 o p w) as (k & σ' & H7 & H8 & H9); [apply H3|congruence| |].
  - intros id r Hid. assert (is_Some (requests σ !! id)) as [r0 Hr0] by (apply H5; by eexists).
    destruct (H6 id) as [e He]; [left| by eexists |exists e; congruence].
    apply (list_elem_of_fmap_2' fst _ (id, r0)); [|done]. by apply elem_of_map_to_list.
  - exists moves, k, σ'. split_and!; try done. by rewrite run_lifecycle_app, H2.
Qed.

(** After the deadline nothing more is streamed: once the abandonment has been
    announced, in every interleaving that follows an open stream relays at most
    the chunk it was about to ask for, and one not yet open relays none. *)
Theorem abandoned_stream_cut (boot : Plan) (σ σ' : System) (acts : list Action) (id : nat) :
  reachable boot σ → abandonment_announced σ → run σ acts = Some σ' → Z.of_nat (size (requests σ')) < 2 ^ 64 →
  (chunks id acts ≤ 1)%nat ∧ ((∀ w, requests σ !! id ≠ Some (Relaying w true)) → chunks id acts = 0%nat).
Proof.
  intros Hr Ha H Hs.
  pose proof (run_chunks id acts σ σ' (conj (lifecycle_reachable_inv _ _ Hr) (conj Ha (proj2 Hr))) H Hs) as Hc.
  split.
  - destruct (requests σ !! id) as [[]|]; simpl in Hc; repeat case_match; lia.
  - intros Hn. destruct (requests σ !! id) as [[| | |w [|]| | |]|] eqn:Hid; simpl in Hc; try lia. by destruct (Hn w).
Qed.

(** C28: The sequence after the server stopped keeps its one budget.  The sinks are
    flushed with at least half of it left, whatever the settlements took, and the
    telemetry is reached, and done, before it is spent; only the 50 ms for the
    discovery task come on top. *)
Theorem shutdown_within_budget (f : Pace) (plan : Plan) (stopped : Z) :
  keeps_pace f → 0 ≤ flush_timeout plan →
  let t := shutdown_sequence f plan stopped in
  stopped ≤ started t ≤ stopped + DISCOVERY_WAIT ∧
  flush_timeout plan ≤ 2 * until (flush_by t) (flush_begins t) ∧
  (∀ budget, drain_share t = Some budget → 0 ≤ budget) ∧
  flush_begins t ≤ telemetry_begins t ≤ ended t ∧ ended t ≤ started t + flush_timeout plan.
Proof.
  intros (Hd & Hq & Hi & Hf & Ht & Hn & Hb) Hp. unfold shutdown_sequence, settle_share, until. cbn.
  pose proof (Hd DISCOVERY_WAIT ltac:(done)) as H1. set (s := stopped + _) in *.
  assert (0 ≤ flush_timeout plan / 2 ∧ 2 * (flush_timeout plan / 2) ≤ flush_timeout plan) as [Hh1 Hh2] by by apply half_le.
  pose proof (Hq (Z.max 0 (s + flush_timeout plan / 2 - s)) ltac:(lia)) as H2. set (q := s + quiesce_takes f _) in *.
  pose proof (Hi (Z.max 0 (s + flush_timeout plan / 2 - q)) ltac:(lia)) as H3. set (i := q + await_idle_takes f _) in *.
  pose proof (Hf (Z.max 0 (s + flush_timeout plan - i)) ltac:(lia)) as H4. set (l := i + flush_takes f _) in *.
  unfold checked_sub, DRAIN_MARGIN, CLOSING_READ in *. set (half := Z.max 0 (s + flush_timeout plan - l) / 2) in *.
  assert (0 ≤ half ∧ 2 * half ≤ Z.max 0 (s + flush_timeout plan - l)) as [Hh3 Hh4] by (apply half_le; lia).
  destruct (Z.leb_spec 1000000000 half) as [Hm|Hm].
  - pose proof (Hb (half - 1000000000) ltac:(lia)) as H5. set (d := l + drains_take f _) in *.
    pose proof (Ht (Z.max 0 (s + flush_timeout plan - d)) ltac:(lia)) as H6.
    split_and!; try lia. intros budget [= <-]. lia.
  - rewrite Hn. pose proof (Ht (Z.max 0 (s + flush_timeout plan - (l + 0))) ltac:(lia)) as H6.
    split_and!; try lia. done.
Qed.

(** ** A termination

    Two requests: the first is streaming when the signal arrives, the second loads
    the phase just before admission closes and takes the count after.  The section
    is reloaded after the signal, the deadline expires, and both are abandoned. *)

Definition signalled_plan : Plan := plan_from 0 30000 5000.
Definition reloaded_plan : Plan := plan_from 1 2 3.

Definition until_signal : list Action :=
  [Arrive 0; Move 0 Go; Move 0 Go; Move 0 Responds; Arrive 1; Move 1 Go] ++ replicate 3 (Move 0 PollAbandoned) ++
  [ServerGo; ServerGo; Signal].

Definition until_deadline : list Action :=
  [Reload reloaded_plan] ++ replicate 4 DrainGo ++ [Move 1 Go] ++ replicate 3 ServerGo ++ [Elapsed].

Definition until_announced : list Action :=
  replicate 3 ServerGo ++ [Move 0 Chunk].

Definition state_of (acts : list Action) : System :=
  default (init signalled_plan) (run (init signalled_plan) acts).

Definition quiescing : System := state_of (until_signal ++ until_deadline ++ until_announced ++ [ServerGo]).

Lemma terminating_reachable acts :
  is_Some (run (init signalled_plan) acts) → Z.of_nat (size (requests (state_of acts))) < 2 ^ 64 →
  reachable signalled_plan (state_of acts).
Proof. intros [σ H] Hs. split; [|done]. exists acts. unfold state_of. by rewrite H. Qed.

(** A request that looked before admission closed is counted after it: the count
    can still rise, once per such request, while the process waits for zero. *)
Lemma late_admission :
  in_flight (lifecycle (state_of (until_signal ++ replicate 3 DrainGo))) = 1 ∧
  phase (lifecycle (state_of (until_signal ++ replicate 3 DrainGo))) = Closing ∧
  in_flight (lifecycle (state_of (until_signal ++ replicate 3 DrainGo ++ [Move 1 Go]))) = 2.
Proof. vm_compute. done. Qed.

Lemma in_flight_exact_witness :
  in_flight (lifecycle quiescing) = 2 ∧ in_flight (lifecycle quiescing) = msum held (requests quiescing).
Proof.
  split; [vm_compute; reflexivity|].
  apply (in_flight_exact signalled_plan quiescing).
  apply terminating_reachable; vm_compute; [eexists; reflexivity|reflexivity].
Defined.

Lemma admission_closes_witness :
  phase (lifecycle quiescing) = Closing ∧
  not_admitted (requests (default quiescing (run quiescing [Arrive 2; Move 2 Go])) !! 2%nat) = true.
Proof.
  split; [vm_compute; reflexivity|].
  apply (admission_closes quiescing (default quiescing (run quiescing [Arrive 2; Move 2 Go])) [Arrive 2; Move 2 Go]);
    vm_compute; reflexivity.
Defined.

Lemma plan_is_signalled_witness :
  enforced (server (state_of (until_signal ++ until_deadline))) = Some signalled_plan ∧
  resolved (state_of (until_signal ++ until_deadline)) = Some signalled_plan.
Proof.
  split; [vm_compute; reflexivity|].
  apply (plan_is_signalled signalled_plan signalled_plan signalled_plan until_signal until_deadline
           (state_of until_signal) (state_of (until_signal ++ until_deadline))); vm_compute; reflexivity.
Defined.

Lemma abandoned_requests_end_witness :
  in_flight (lifecycle quiescing) = 2 ∧
  ∃ moves k σ', Forall (λ a, own_action a = true) moves ∧ (k ≤ 4)%nat ∧
    run quiescing (moves ++ replicate k ServerGo) = Some σ' ∧ server σ' = Tallied (Abandoned 2) signalled_plan 0.
Proof.
  split; [vm_compute; reflexivity|].
  apply (abandoned_requests_end signalled_plan quiescing (Abandoned 2) signalled_plan Unpolled);
    [|vm_compute; reflexivity..].
  apply terminating_reachable; vm_compute; [eexists; reflexivity|reflexivity].
Defined.

Definition last_polls : list Action := [Move 0 PollAbandoned; Move 0 PollAbandoned; Move 0 Go].

Lemma abandoned_stream_cut_witness :
  requests (state_of (until_signal ++ until_deadline ++ replicate 3 ServerGo)) !! 0%nat = Some (Relaying (Asleep 0) true) ∧
  (chunks 0 (Move 0 Chunk :: last_polls) ≤ 1)%nat.
Proof.
  split; [vm_compute; reflexivity|].
  apply (abandoned_stream_cut signalled_plan (state_of (until_signal ++ until_deadline ++ replicate 3 ServerGo))
    (default quiescing (run (state_of (until_signal ++ until_deadline ++ replicate 3 ServerGo)) (Move 0 Chunk :: last_polls)))
    (Move 0 Chunk :: last_polls) 0); [|vm_compute; split; reflexivity|vm_compute; reflexivity..].
  apply terminating_reachable; vm_compute; [eexists; reflexivity|reflexivity].
Defined.

(** Every step at the end of its bound. *)
Definition slowest : Pace :=
  mkPace id id id id (λ b, match b with Some b => b + DRAIN_MARGIN + CLOSING_READ | None => 0 end) id.

Lemma shutdown_within_budget_witness :
  flush_timeout signalled_plan ≤
    2 * until (flush_by (shutdown_sequence slowest signalled_plan 0))
              (flush_begins (shutdown_sequence slowest signalled_plan 0)).
Proof.
  apply (shutdown_within_budget slowest signalled_plan 0); [|vm_compute; discriminate].
  unfold keeps_pace, keeps, slowest, DRAIN_MARGIN, CLOSING_READ; cbn. unfold id. split_and!; intros; lia.
Defined.

(** The wait for the discovery task precedes the budget, so the sequence may last
    longer than the three bounds together. *)
Lemma discovery_outside_budget :
  ended (shutdown_sequence slowest signalled_plan 0) = flush_timeout signalled_plan + 50 * 1000000.
Proof. vm_compute. reflexivity. Qed.

End Lifecycle.
