(* ===== verification/Api.v ===== *)
(** * The management surface ([crates/gateway/src/api.rs], the listing queries of
    [store/sqlite.rs], the validators of [store/mod.rs])

    Each handler is a program over the store of [Store]: it checks what it was
    given, runs one or two store operations and turns what they answer into a
    response or a typed error.  What the HTTP extractors make of a body or a query
    is their argument.  The OpenAPI document is data and is left out but for the
    statuses it promises; so are telemetry spans. *)

From stdpp Require Import pretty.
From S2P Require Import Prelude Text Json ProviderError Scopes Admission GatewayError Store.

Module Api.
Import Store.Store.
Import GatewayError.GatewayError (GatewayError, UnknownProvider, RequestTooLarge, UnsupportedMediaType, UnknownNamespace,
  UnknownBudget, NamespaceConflict, StoreUnavailable, BadRequest, status).

(** ** Byte order of identifiers

    SQLite compares text by its bytes. *)

Definition id_le (s t : string) : Prop := String.leb s t = true.
#[export] Instance id_le_dec : RelDecision id_le.
Proof. intros s t. unfold id_le. apply _. Defined.

Definition id_lt (s t : string) : Prop := String.ltb s t = true.
#[export] Instance id_lt_dec : RelDecision id_lt.
Proof. intros s t. unfold id_lt. apply _. Defined.

Lemma compare_refl s : String.compare s s = Eq.
Proof. induction s as [|c s IH]; [done|]. simpl. unfold Ascii.compare. by rewrite N.compare_refl. Qed.

Lemma ascii_compare_lt c d e :
  Ascii.compare c d = Lt → Ascii.compare d e = Lt → Ascii.compare c e = Lt.
Proof. unfold Ascii.compare. rewrite !N.compare_lt_iff. lia. Qed.

Lemma compare_lt_trans s t u :
  String.compare s t = Lt → String.compare t u = Lt → String.compare s u = Lt.
Proof.
  revert t u. induction s as [|c s IH]; intros [|d t] [|e u]; simpl; try done.
  destruct (Ascii.compare c d) eqn:Hcd; [|intros _|done].
  - apply Ascii.compare_eq_iff in Hcd as ->. destruct (Ascii.compare d e); [apply IH|done|done].
  - destruct (Ascii.compare d e) eqn:Hde; [| |done]; intros _.
    + apply Ascii.compare_eq_iff in Hde as <-. by rewrite Hcd.
    + by rewrite (ascii_compare_lt _ _ _ Hcd Hde).
Qed.

Lemma id_lt_spec s t : id_lt s t ↔ String.compare s t = Lt.
Proof. unfold id_lt, String.ltb. by destruct (String.compare s t). Qed.

Lemma id_le_spec s t : id_le s t ↔ s = t ∨ id_lt s t.
Proof.
  rewrite id_lt_spec. unfold id_le, String.leb. split.
  - destruct (String.compare s t) eqn:E; [|by right|done]. left. by apply String.compare_eq_iff.
  - intros [->|E]; [by rewrite compare_refl|by rewrite E].
Qed.

#[export] Instance id_lt_trans : Transitive id_lt.
Proof. intros s t u. rewrite !id_lt_spec. apply compare_lt_trans. Qed.
#[export] Instance id_lt_irrefl : Irreflexive id_lt.
Proof. intros s H. apply id_lt_spec in H. by rewrite compare_refl in H. Qed.
#[export] Instance id_le_trans : Transitive id_le.
Proof.
  intros s t u. rewrite !id_le_spec. intros [->|H1] [->|H2]; auto. right. by transitivity t.
Qed.
#[export] Instance id_le_total : Total id_le.
Proof. intros s t. apply String.leb_total. Qed.

(** ** Validation *)

Definition MAX_ATTRS_BYTES : nat := 4 * 1024.
Definition MAX_BLOCKLIST_BYTES : nat := 4096.
Definition MAX_BLOCKLIST_ENTRIES : nat := 64.

Definition invalid_id_display (e : Namespace.InvalidNamespaceId) : string :=
  match e with
  | Namespace.Empty => "a namespace identifier must not be empty"
  | Namespace.TooLong max => "a namespace identifier is over the " +:+ pretty max +:+ "-byte limit"
  | Namespace.Character => "a namespace identifier contains a character outside ASCII letters, digits, `.`, `-`, and `_`"
  | Namespace.Boundary => "a namespace identifier must start and end with an ASCII letter or digit"
  end.

Definition validate_namespace_id (id : string) : result StoreError unit :=
  map_err (λ e, Invalid (invalid_id_display e)) ((λ _, tt) <$> Namespace.parse (b id)).

Definition store_error_display (e : StoreError) : string :=
  match e with
  | Duplicate id => "namespace `" +:+ id +:+ "` already exists"
  | NotFound id => "namespace `" +:+ id +:+ "` not found"
  | Unavailable m => "store unavailable: " +:+ m
  | Invalid m => m
  end.

Definition from_store_error (e : StoreError) : GatewayError :=
  match e with
  | Duplicate _ => NamespaceConflict
  | NotFound _ => UnknownNamespace
  | Unavailable _ => StoreUnavailable
  | Invalid m => BadRequest m
  end.

(** [.map_err(|err| GatewayError::BadRequest(err.to_string()))] *)
Definition bad_request {A} (r : result StoreError A) : result GatewayError A :=
  map_err (λ e, BadRequest (store_error_display e)) r.

(** ** The listing queries of the store *)

Section Api.
Context {J : SerdeJson}.
Context {Timestamp TimeZone : Type}.
Variable tz_get : string → option TimeZone.
Variable to_zoned : Timestamp → TimeZone → Z * Z.

Definition validate_attrs (attrs : Value) : result StoreError unit :=
  if (MAX_ATTRS_BYTES <? length (b (to_string attrs)))%nat
  then Err (Invalid ("attrs exceeds " +:+ pretty MAX_ATTRS_BYTES +:+ " byte limit")) else Ok tt.

Definition past (cursor : option string) (id : string) : bool :=
  match cursor with None => true | Some c => String.ltb c id end.

(** The rows whose id is past the cursor, in the order of their ids. *)
Definition rows_after (cursor : option string) (db : Db) : list (string * (string * option string)) :=
  filter (λ row, past cursor row.1 = true)
    (into_iter id_le (t_namespace db)).

Fixpoint to_records (rows : list (string * (string * option string))) : result StoreError (list NamespaceRecord) :=
  match rows with
  | [] => Ok []
  | (id, (a, bl)) :: rows => r ← row_to_record id a bl; rs ← to_records rows; mret (r :: rs)
  end.

Definition clamp (n low high : Z) : Z := Z.max low (Z.min n high).

Definition list_namespaces_on (cursor : option string) (limit : Z) : Sql (list NamespaceRecord * option string) :=
  let limit := Z.to_nat (clamp limit 1 1000) in
  with_conn (
    raw ← query (λ db, take (limit + 1) (rows_after cursor db));
    let has_more := (limit <? length raw)%nat in
    let raw := if has_more then take limit raw else raw in
    out ← lift (to_records raw);
    let next := if has_more then ns_id <$> list.last out else None in
    mret (out, next)).

Definition models_row (provider : string) (row : option string * bool * string * option string)
    : result StoreError ProviderModels :=
  let '(fetched_at, stale, models, source) := row in
  v ← map_err (λ e, Unavailable ("provider `" +:+ provider +:+ "` models: " +:+ e)) (from_str models);
  data ← ok_or (as_array v) (Unavailable ("provider `" +:+ provider +:+ "` models: expected a sequence"));
  mret {| pm_provider := provider; pm_fetched_at := fetched_at; pm_stale := stale; pm_data := data;
          pm_source := source |}.

Definition get_provider_models_on (provider : string) : Sql (option ProviderModels) :=
  with_conn (
    row ← query (λ db, t_models db !! provider);
    match row with
    | None => mret None
    | Some row => lift (Some <$> models_row provider row)
    end).

Fixpoint to_models (rows : list (string * (option string * bool * string * option string)))
    : result StoreError (list ProviderModels) :=
  match rows with
  | [] => Ok []
  | (provider, row) :: rows => m ← models_row provider row; ms ← to_models rows; mret (m :: ms)
  end.

Definition list_provider_models_on : Sql (list ProviderModels) :=
  with_conn (
    rows ← query (λ db, into_iter id_le (t_models db));
    lift (to_models rows)).

(** ** What a handler is given *)

(** What the body and query extractors answer: the parsed value, or why not. *)
Inductive JsonRejection := PayloadTooLarge | MissingJsonContentType | OtherRejection (text : string).

Record CreateBody := mkCreateBody { c_id : string; c_attrs : Value; c_blocklist : option (list string) }.
Record ReplaceBody := mkReplaceBody { r_attrs : Value; r_blocklist : option (list string) }.
Record PutBudgetPolicyBody := mkPolicyBody {
  p_cadence : BudgetCadence;
  p_limit_microdollars : Z;
  p_timezone : option string;
  p_period : option string;
}.

Definition json_body {A} (body : result JsonRejection A) : result GatewayError A :=
  match body with
  | Ok body => Ok body
  | Err PayloadTooLarge => Err RequestTooLarge
  | Err MissingJsonContentType => Err UnsupportedMediaType
  | Err (OtherRejection text) => Err (BadRequest text)
  end.

Definition query_value {A} (query : result string A) : result GatewayError A := map_err BadRequest query.

Definition required_period (period : option string) : result GatewayError string :=
  match period with
  | None => Err (BadRequest "`period` is required")
  | Some period =>
      if bool_decide (period = ""%string) then Err (BadRequest "`period` is required")
      else _ ← bad_request (validate_period period); Ok period
  end.

Definition normalize_attrs (attrs : Value) : result GatewayError Value :=
  let attrs := if is_null attrs then Object [] else attrs in
  _ ← bad_request (validate_attrs attrs); Ok attrs.

Definition validate_glob_pattern (pattern : string) : result string unit :=
  map_err (λ p, ("blocklist glob `" +:+ text p +:+ "` is invalid: use an exact id, `prefix*`, `*suffix`, or `*`")%string)
    ((λ _, tt) <$> Aliases.parse_glob (b pattern)).

Fixpoint validate_globs (patterns : list string) : result GatewayError unit :=
  match patterns with
  | [] => Ok tt
  | p :: ps => _ ← map_err BadRequest (validate_glob_pattern p); validate_globs ps
  end.

Definition validate_payload (attrs : Value) (blocklist : option (list string)) : result GatewayError unit :=
  _ ← bad_request (validate_attrs attrs);
  match blocklist with
  | None => Ok tt
  | Some l =>
      if (MAX_BLOCKLIST_ENTRIES <? length l)%nat then
        Err (BadRequest "namespace blocklist exceeds 64 entries")
      else if (MAX_BLOCKLIST_BYTES <? length (b (list_to_string l)))%nat then
        Err (BadRequest "namespace blocklist exceeds 4 KiB")
      else validate_globs l
  end.

Definition QUOTE : string := text [ascii_of_nat 34].

(** ** Handlers *)

(** What the handlers read of the process: whether a store is configured, the
    namespaces of the deployment file, and the providers with their base URLs. *)
Record AppState := mkAppState {
  has_store : bool;
  config_namespaces : list string;
  providers : list (string * string);
}.

Definition Handler (A : Type) : Type := Engine → Db * nat → result GatewayError A * (Db * nat).

#[local] Instance handler_ret : MRet Handler := λ A a eng σ, (Ok a, σ).
#[local] Instance handler_bind : MBind Handler := λ A B k m eng σ,
  match m eng σ with (Ok a, σ) => k a eng σ | (Err e, σ) => (Err e, σ) end.

Definition check {A} (r : result GatewayError A) : Handler A := λ eng σ, (r, σ).

(** [match store(&state)?.op().await] *)
Definition on_store {A B} (st : AppState) (m : Sql A) (answer : result StoreError A → result GatewayError B)
    : Handler B := λ eng σ,
  if has_store st then let '(r, σ) := m eng σ in (answer r, σ) else (Err StoreUnavailable, σ).

(** An absent value is [missing]; a store that is down is 503; anything else the
    caller's fault. *)
Definition found {A} (missing : GatewayError) (r : result StoreError (option A)) : result GatewayError A :=
  match r with
  | Ok (Some a) => Ok a
  | Ok None => Err missing
  | Err (Unavailable _) => Err StoreUnavailable
  | Err e => Err (BadRequest (store_error_display e))
  end.

Definition answered {A} (r : result StoreError A) : result GatewayError A := found StoreUnavailable (Some <$> r).

Definition create_namespace (st : AppState) (body : result JsonRejection CreateBody) : Handler NamespaceRecord :=
  body ← check (json_body body);
  _ ← check (bad_request (validate_namespace_id (c_id body)));
  _ ← check (validate_payload (c_attrs body) (c_blocklist body));
  attrs ← check (normalize_attrs (c_attrs body));
  let rec := {| ns_id := c_id body; attrs := attrs; blocklist := c_blocklist body |} in
  on_store st (put_namespace rec) (λ r, map_err from_store_error ((λ _, rec) <$> r)).

Definition get_namespace_handler (st : AppState) (ns : string) : Handler NamespaceRecord :=
  on_store st (get_namespace ns) (found UnknownNamespace).

Definition put_namespace_handler (st : AppState) (ns : string) (body : result JsonRejection ReplaceBody)
    : Handler NamespaceRecord :=
  body ← check (json_body body);
  _ ← check (validate_payload (r_attrs body) (r_blocklist body));
  attrs ← check (normalize_attrs (r_attrs body));
  on_store st (update_namespace ns attrs (r_blocklist body)) (found UnknownNamespace).

Definition delete_namespace_handler (st : AppState) (ns : string) : Handler unit :=
  if bool_decide (ns ∈ config_namespaces st) then check (Err NamespaceConflict)
  else on_store st (delete_namespace ns) (λ r, (λ _, tt) <$> answered r).

Definition put_budget_handler (st : AppState) (ns period : string) (body : result JsonRejection Z)
    (now : Timestamp) : Handler BudgetRecord :=
  limit ← check (json_body body);
  _ ← check (bad_request (validate_period period));
  on_store st (put_budget tz_get to_zoned ns period limit now) (map_err from_store_error).

Definition get_budget_handler (st : AppState) (ns period : string) (now : Timestamp) : Handler BudgetRecord :=
  _ ← check (bad_request (validate_period period));
  on_store st (get_budget tz_get to_zoned ns period now) (λ r,
    match r with Err (NotFound _) => Err UnknownNamespace | r => found UnknownBudget r end).

Definition put_budget_policy_handler (st : AppState) (ns : string) (body : result JsonRejection PutBudgetPolicyBody)
    (now : Timestamp) : Handler BudgetPolicy :=
  body ← check (json_body body);
  let timezone := default DEFAULT_TIMEZONE (p_timezone body) in
  _ ← check (bad_request (validate_timezone tz_get timezone));
  _ ← match p_period body with
      | None => mret tt
      | Some period =>
          _ ← check (bad_request (validate_period period));
          if decide (p_cadence body = Monthly)
          then check (Err (BadRequest ("period is derived for cadence " +:+ QUOTE +:+ "monthly" +:+ QUOTE)))
          else mret tt
      end;
  on_store st (put_budget_policy tz_get to_zoned ns (p_cadence body) (p_limit_microdollars body) timezone
                 (p_period body) now) (map_err from_store_error).

(** [store.get_namespace(&ns)], as the check that the namespace exists. *)
Definition known_namespace (st : AppState) (ns : string) : Handler unit :=
  _ ← on_store st (get_namespace ns) (found UnknownNamespace); mret tt.

Definition get_budget_policy_handler (st : AppState) (ns : string) (now : Timestamp) : Handler BudgetPolicy :=
  _ ← known_namespace st ns;
  on_store st (get_budget_policy tz_get to_zoned ns now) (found UnknownBudget).

Definition list_namespaces (st : AppState) (query : result string (option string * option Z))
    : Handler (list NamespaceRecord * option string) :=
  '(cursor, limit) ← check (query_value query);
  let limit := default 100 limit in
  if negb ((1 <=? limit) && (limit <=? 1000)) then check (Err (BadRequest "`limit` must be between 1 and 1000"))
  else on_store st (list_namespaces_on cursor limit) answered.

Definition get_usage (st : AppState) (ns : string) (query : result string (option string))
    : Handler (gmap (string * string) (Z * Z)) :=
  query ← check (query_value query);
  period ← check (required_period query);
  _ ← known_namespace st ns;
  on_store st (summarize_usage ns period) answered.

Definition base_url_of (st : AppState) (id : string) : option string :=
  snd <$> (find (λ p, bool_decide (p.1 = id)) (providers st)).

Definition get_provider_models (st : AppState) (id : string) : Handler ProviderModels :=
  match base_url_of st id with
  | None => check (Err (UnknownProvider id))
  | Some base_url =>
      on_store st (get_provider_models_on id) (λ r,
        match r with
        | Ok (Some row) => Ok (against_source row base_url)
        | Ok None => Ok (empty_stale id)
        | Err (Unavailable _) => Err StoreUnavailable
        | Err e => Err (BadRequest (store_error_display e))
        end)
  end.

Definition list_provider_models (st : AppState) : Handler (list ProviderModels) :=
  cached ← on_store st list_provider_models_on answered;
  mret ((λ p, match find (λ row, bool_decide (pm_provider row = p.1)) cached with
              | Some row => against_source row p.2
              | None => empty_stale p.1
              end) <$> providers st).

(** ** Endpoints

    The routes of [router], and the statuses their OpenAPI annotations promise.  The
    401 of the authentication middleware is in front of them all. *)
Inductive Endpoint :=
| ECreateNamespace (body : result JsonRejection CreateBody)
| EListNamespaces (query : result string (option string * option Z))
| EGetNamespace (ns : string)
| EPutNamespace (ns : string) (body : result JsonRejection ReplaceBody)
| EDeleteNamespace (ns : string)
| EGetBudget (ns period : string) (now : Timestamp)
| EPutBudget (ns period : string) (body : result JsonRejection Z) (now : Timestamp)
| EGetBudgetPolicy (ns : string) (now : Timestamp)
| EPutBudgetPolicy (ns : string) (body : result JsonRejection PutBudgetPolicyBody) (now : Timestamp)
| EGetUsage (ns : string) (query : result string (option string))
| EListProviderModels
| EGetProviderModels (id : string).

Inductive Answer :=
| ANamespace (r : NamespaceRecord)
| ANamespaces (page : list NamespaceRecord * option string)
| ADeleted
| ABudget (r : BudgetRecord)
| APolicy (p : BudgetPolicy)
| AUsage (rows : gmap (string * string) (Z * Z))
| AModels (m : ProviderModels)
| AAllModels (ms : list ProviderModels).

Definition answering {A} (f : A → Answer) (h : Handler A) : Handler Answer := λ eng σ,
  let '(r, σ) := h eng σ in (f <$> r, σ).

Definition handle (st : AppState) (e : Endpoint) : Handler Answer :=
  match e with
  | ECreateNamespace body => answering ANamespace (create_namespace st body)
  | EListNamespaces query => answering ANamespaces (list_namespaces st query)
  | EGetNamespace ns => answering ANamespace (get_namespace_handler st ns)
  | EPutNamespace ns body => answering ANamespace (put_namespace_handler st ns body)
  | EDeleteNamespace ns => answering (λ _, ADeleted) (delete_namespace_handler st ns)
  | EGetBudget ns period now => answering ABudget (get_budget_handler st ns period now)
  | EPutBudget ns period body now => answering ABudget (put_budget_handler st ns period body now)
  | EGetBudgetPolicy ns now => answering APolicy (get_budget_policy_handler st ns now)
  | EPutBudgetPolicy ns body now => answering APolicy (put_budget_policy_handler st ns body now)
  | EGetUsage ns query => answering AUsage (get_usage st ns query)
  | EListProviderModels => answering AAllModels (list_provider_models st)
  | EGetProviderModels id => answering AModels (get_provider_models st id)
  end.

(** The status of the response. *)
Definition success_status (e : Endpoint) : Z :=
  match e with ECreateNamespace _ => 201 | EDeleteNamespace _ => 204 | _ => 200 end.

Definition answer_status (e : Endpoint) (r : result GatewayError Answer) : Z :=
  match r with Ok _ => success_status e | Err err => status err end.

Definition documented (e : Endpoint) : list Z :=
  match e with
  | ECreateNamespace _ => [201; 400; 401; 409; 413; 415; 503]
  | EListNamespaces _ => [200; 400; 401; 503]
  | EGetNamespace _ => [200; 401; 404; 503]
  | EPutNamespace _ _ => [200; 400; 401; 404; 413; 415; 503]
  | EDeleteNamespace _ => [204; 401; 409; 503]
  | EGetBudget _ _ _ => [200; 400; 401; 404; 503]
  | EPutBudget _ _ _ _ => [200; 400; 401; 404; 413; 415; 503]
  | EGetBudgetPolicy _ _ => [200; 401; 404; 503]
  | EPutBudgetPolicy _ _ _ => [200; 400; 401; 404; 413; 415; 503]
  | EGetUsage _ _ => [200; 400; 401; 404; 503]
  | EListProviderModels => [200; 401; 503]
  | EGetProviderModels _ => [200; 400; 401; 503]
  end.

(** ** The errors an operation raises *)

(** What [m] answers on this database is a value or an error in [P]. *)
Definition raises {A} (P : StoreError → Prop) (m : Sql A) : Prop :=
  ∀ eng σ e, (m eng σ).1 = Err e → P e.

Definition is_unavailable (e : StoreError) : Prop := match e with Unavailable _ => True | _ => False end.

Lemma raises_weaken {A} (P Q : StoreError → Prop) (m : Sql A) : raises P m → (∀ e, P e → Q e) → raises Q m.
Proof. intros Hm HPQ eng σ e He. eauto. Qed.

Lemma raises_ret {A} P (a : A) : raises P (mret a).
Proof. by intros eng σ e He. Qed.

Lemma raises_throw {A} (P : StoreError → Prop) e : P e → raises P (throw (A := A) e).
Proof. intros HP eng σ e' He. by injection He as <-. Qed.

Lemma raises_lift {A} (P : StoreError → Prop) (r : result StoreError A) :
  (∀ e, r = Err e → P e) → raises P (lift r).
Proof. intros HP eng σ e He. by apply HP. Qed.

Lemma raises_bind {A B} P (m : Sql A) (k : A → Sql B) : raises P m → (∀ a, raises P (k a)) → raises P (m ≫= k).
Proof.
  intros Hm Hk eng σ e. unfold mbind, sql_bind. pose proof (Hm eng σ) as H.
  destruct (m eng σ) as [[a|e'] σ']; [apply Hk|]. simpl in *. intros [= <-]. by apply H.
Qed.

Lemma raises_statement {A} (P : StoreError → Prop) (f : Db → A * Db) :
  (∀ m, P (Unavailable m)) → raises P (statement f).
Proof.
  intros HP eng [db k] e He. unfold statement in He. destruct (eng k); simpl in He.
  - injection He as <-. apply HP.
  - by destruct (f db).
Qed.

Lemma raises_conn {A} (P : StoreError → Prop) (m : Sql A) :
  (∀ m, P (Unavailable m)) → raises P m → raises P (with_conn m).
Proof. intros HP Hm. apply raises_bind; [by apply raises_statement|done]. Qed.

(** The errors a transaction body commits. *)
Definition commits {A} (P : StoreError → Prop) (body : Sql (TxEnd A)) : Prop :=
  ∀ eng σ e, (body eng σ).1 = Ok (Commit (Err e)) → P e.

Lemma commits_bind {A B} P (m : Sql A) (k : A → Sql (TxEnd B)) : (∀ a, commits P (k a)) → commits P (m ≫= k).
Proof.
  intros Hk eng σ e. unfold mbind, sql_bind. destruct (m eng σ) as [[a|e'] σ']; [apply Hk|done].
Qed.

Lemma commits_ret {A} (P : StoreError → Prop) (r : result StoreError A) :
  (∀ e, r = Err e → P e) → commits P (mret (Commit r)).
Proof. intros HP eng σ e [= He]. by apply HP. Qed.

Lemma commits_throw {A} P e : commits P (throw (A := TxEnd A) e).
Proof. by intros eng σ e'. Qed.

Lemma raises_tx {A} (P : StoreError → Prop) (body : Sql (TxEnd A)) :
  (∀ m, P (Unavailable m)) → raises P body → commits P body → raises P (transaction body).
Proof.
  intros HP Hb Hc eng [db k] e He. unfold transaction in He.
  unfold execute at 1, statement at 1 in He. destruct (eng k); [injection He as <-; apply HP|]. simpl in He.
  pose proof (Hb eng (db, S k)) as H1. pose proof (Hc eng (db, S k)) as H2.
  destruct (body eng (db, S k)) as [[[answer|a]|e'] [db1 k1]]; simpl in *; [|done|injection He as <-; by apply H1].
  unfold execute, statement in He. destruct (eng k1); simpl in He; [injection He as <-; apply HP|].
  subst. by apply H2.
Qed.

Ltac raising :=
  repeat lazymatch goal with
  | |- raises _ (with_conn _) => apply raises_conn; [done|]
  | |- raises _ (_ ≫= _) => apply raises_bind; [|intros ?]
  | |- raises _ (statement _) => apply raises_statement; done
  | |- raises _ (query _) => apply raises_statement; done
  | |- raises _ (execute _) => apply raises_statement; done
  | |- raises _ (mret _) => apply raises_ret
  | |- raises _ (throw _) => apply raises_throw; done
  | |- raises _ (lift _) => apply raises_lift; intros ? ?
  | |- raises _ (transaction _) => apply raises_tx; [done| |]
  | |- raises _ (namespace_exists _) => apply raises_statement; done
  | |- raises _ (match _ with _ => _ end) => case_match
  | |- commits _ (_ ≫= _) => apply commits_bind; intros ?
  | |- commits _ (mret (Commit _)) => apply commits_ret; intros ? ?
  | |- commits _ (throw _) => apply commits_throw
  | |- commits _ (match _ with _ => _ end) => case_match
  end.

Lemma row_to_record_errors id a bl e : row_to_record id a bl = Err e → is_unavailable e.
Proof.
  unfold row_to_record. destruct (from_str a); simpl; [|by intros [= <-]].
  destruct bl as [raw|]; [|done]. destruct (list_from_str raw); simpl; [done|by intros [= <-]].
Qed.

Lemma get_namespace_raises id : raises is_unavailable (get_namespace id).
Proof.
  unfold get_namespace. raising.
  match goal with H : Some <$> ?r = Err _ |- _ => destruct r eqn:E; [done|]; simpl in H; injection H as <- end.
  by eapply row_to_record_errors.
Qed.

Lemma put_namespace_raises r :
  raises (λ e, match e with Duplicate _ | Unavailable _ => True | _ => False end) (put_namespace r).
Proof. unfold put_namespace. raising; done. Qed.

Lemma delete_namespace_raises id : raises is_unavailable (delete_namespace id).
Proof. unfold delete_namespace. raising; done. Qed.

Definition not_duplicate (e : StoreError) : Prop := match e with Duplicate _ => False | _ => True end.

Lemma timezone_errors (name : string) e : validate_timezone tz_get name = Err e → not_duplicate e.
Proof. unfold validate_timezone, ok_or. destruct (tz_get name); [done|by intros [= <-]]. Qed.

Lemma sql_amount_errors n e : sql_amount n = Err e → not_duplicate e.
Proof. unfold sql_amount. case_match; [done|by intros [= <-]]. Qed.

Lemma read_budget_raises ns period now : raises not_duplicate (read_budget tz_get to_zoned ns period now).
Proof. unfold read_budget. raising. by eapply timezone_errors. Qed.

Lemma cadence_errors c m e : ok_or (cadence_parse c) (Unavailable m) = Err e → is_unavailable e.
Proof. unfold ok_or. destruct (cadence_parse c); [done|by intros [= <-]]. Qed.

Lemma read_policy_raises ns now : raises not_duplicate (read_budget_policy tz_get to_zoned ns now).
Proof.
  unfold read_budget_policy. raising; [|by eapply timezone_errors].
  match goal with H : _ = Err ?e |- _ => apply cadence_errors in H; by destruct e end.
Qed.

Lemma ok_or_errors {A} (o : option A) m e : ok_or o (Unavailable m) = Err e → not_duplicate e.
Proof. unfold ok_or. destruct o; [done|by intros [= <-]]. Qed.

Lemma put_budget_raises ns period limit now : raises not_duplicate (put_budget tz_get to_zoned ns period limit now).
Proof.
  unfold put_budget. raising; [by eapply sql_amount_errors|apply read_budget_raises|by eapply ok_or_errors].
Qed.

Lemma put_policy_raises ns c limit tz period now :
  raises not_duplicate (put_budget_policy tz_get to_zoned ns c limit tz period now).
Proof.
  unfold put_budget_policy.
  raising; eauto using sql_amount_errors, timezone_errors, ok_or_errors, read_policy_raises.
  match goal with H : ok_or ?o _ = Err _ |- _ => unfold ok_or in H; destruct o; [done|by injection H as <-] end.
Qed.

Lemma models_errors p row e : models_row p row = Err e → is_unavailable e.
Proof.
  destruct row as [[[f s] m] src]. unfold models_row. destruct (from_str m); simpl; [|by intros [= <-]].
  unfold ok_or. destruct (as_array _); simpl; [done|by intros [= <-]].
Qed.

Lemma list_models_raises : raises is_unavailable list_provider_models_on.
Proof.
  unfold list_provider_models_on. raising.
  match goal with H : to_models ?l = _ |- _ => revert H; generalize l end.
  intros l. induction l as [|[p row] l IH]; simpl; [done|].
  destruct (models_row p row) eqn:E; simpl; [|intros [= <-]; by eapply models_errors].
  destruct (to_models l); simpl; [done|]. intros [= <-]. by apply IH.
Qed.

(** On a well-formed database the stored timezones are known. *)
Lemma policy_errors ns now eng db k e :
  wf tz_get db → (get_budget_policy tz_get to_zoned ns now eng (db, k)).1 = Err e → t_namespace db !! ns ≠ None →
  is_unavailable e.
Proof.
  intros Hwf. unfold get_budget_policy, with_conn, read_budget_policy, namespace_exists, query, execute, statement,
    throw, lift, mbind, sql_bind, mret, sql_ret.
  destruct (eng k); [by intros [= <-]|]. destruct (eng (S k)); [by intros [= <-]|]. simpl. intros He Hn.
  destruct (t_namespace db !! ns) as [row|]; [|done]. rewrite bool_decide_true in He by eauto. simpl in He.
  destruct (eng (S (S k))); [by injection He as <-|].
  destruct (t_cadence db !! ns) as [[[c l] tz]|] eqn:Ec.
  - apply (wf_cadence _ _ Hwf) in Ec as (_ & [c' Hc] & [tz' Htz] & _).
    unfold ok_or, validate_timezone in He. rewrite Hc in He. unfold ok_or in He. rewrite Htz in He.
    repeat case_match; simplify_eq/=; done.
  - repeat case_match; simplify_eq/=; done.
Qed.

(** ** The statuses a handler answers with *)

(** The status of a handler's result, [ok] when it succeeds. *)
Definition status_of {A} (ok : Z) (r : result GatewayError A) : Z :=
  match r with Ok _ => ok | Err e => status e end.

(** From states that satisfy [P], [h] answers with a status of [l]. *)
Definition answers {A} (P : Db → Prop) (ok : Z) (l : list Z) (h : Handler A) : Prop :=
  ∀ eng db k, P db → status_of ok (h eng (db, k)).1 ∈ l.

Lemma answers_check {A B} P ok l (r : result GatewayError A) (k : A → Handler B) :
  (∀ e, r = Err e → status e ∈ l) → (∀ a, r = Ok a → answers P ok l (k a)) → answers P ok l (check r ≫= k).
Proof.
  intros He Hk eng db n HP. unfold mbind, handler_bind, check. destruct r; [by apply Hk|by apply He].
Qed.

Lemma answers_on_store {A B} (P : Db → Prop) ok l st (m : Sql A) (f : result StoreError A → result GatewayError B) :
  503 ∈ l → (∀ eng db k, P db → status_of ok (f (m eng (db, k)).1) ∈ l) → answers P ok l (on_store st m f).
Proof.
  intros H5 Hf eng db k HP. unfold on_store. destruct (has_store st); [|done].
  specialize (Hf eng db k HP). by destruct (m eng (db, k)).
Qed.

Lemma found_status {A} missing ok (l : list Z) (r : result StoreError (option A)) :
  ok ∈ l → status missing ∈ l → 503 ∈ l → (∀ e, r = Err e → is_unavailable e ∨ 400 ∈ l) →
  status_of ok (found missing r) ∈ l.
Proof.
  intros Hok Hm H5 He. destruct r as [[a|]|e]; simpl; [done|done|].
  destruct (He e eq_refl) as [Hu|H4]; destruct e; done.
Qed.

Lemma answered_status {A} ok (l : list Z) (r : result StoreError A) :
  ok ∈ l → 503 ∈ l → (∀ e, r = Err e → is_unavailable e ∨ 400 ∈ l) → status_of ok (answered r) ∈ l.
Proof.
  intros Hok H5 He. unfold answered. apply found_status; try done. intros e Hr. apply He.
  by destruct r; simpl in Hr; simplify_eq.
Qed.

Lemma bad_request_status {A} (r : result StoreError A) e : bad_request r = Err e → status e = 400.
Proof. destruct r; [done|]. by intros [= <-]. Qed.

Lemma json_body_status {A} (r : result JsonRejection A) e (l : list Z) :
  json_body r = Err e → 400 ∈ l → 413 ∈ l → 415 ∈ l → status e ∈ l.
Proof. destruct r as [|[]]; simpl; intros; simplify_eq; done. Qed.

Lemma payload_status a bl e : validate_payload a bl = Err e → status e = 400.
Proof.
  unfold validate_payload, bad_request, map_err, mbind, result_bind.
  destruct (validate_attrs a) eqn:Ha; [|by intros [= <-]].
  destruct bl as [l|]; [|done]. case_match; [by intros [= <-]|]. case_match; [by intros [= <-]|].
  clear. induction l as [|p l IH]; simpl; [done|]. destruct (validate_glob_pattern p); simpl; [done|by intros [= <-]].
Qed.

Lemma normalize_status a e : normalize_attrs a = Err e → status e = 400.
Proof. unfold normalize_attrs. destruct (validate_attrs _) eqn:Ha; cbn; [done|by intros [= <-]]. Qed.

Lemma period_status p e : required_period p = Err e → status e = 400.
Proof.
  unfold required_period. destruct p as [p|]; [|by intros [= <-]]. case_match; [by intros [= <-]|].
  destruct (validate_period p); cbn; [done|by intros [= <-]].
Qed.

(** A namespace that was found is there, and reading it changed nothing. *)
Lemma get_namespace_Ok id eng db k r σ' :
  get_namespace id eng (db, k) = (Ok (Some r), σ') → t_namespace db !! id ≠ None ∧ σ'.1 = db.
Proof.
  unfold get_namespace, with_conn, query, execute, statement, lift, mbind, sql_bind, mret, sql_ret.
  destruct (eng k); [done|]. destruct (eng (S k)); [done|]. simpl.
  destruct (t_namespace db !! id) as [[a bl]|]; intros; by simplify_eq.
Qed.

Lemma answers_known {B} (P : Db → Prop) ok l st ns (h : Handler B) :
  404 ∈ l → 503 ∈ l → answers (λ db, P db ∧ t_namespace db !! ns ≠ None) ok l h →
  answers P ok l (_ ← known_namespace st ns; h).
Proof.
  intros H4 H5 Hh eng db k HP. unfold known_namespace, mbind at 1, handler_bind at 1, mbind, handler_bind, on_store.
  destruct (has_store st); [|done]. destruct (get_namespace ns eng (db, k)) as [[[r|]|e] [db' k']] eqn:E; simpl.
  - apply get_namespace_Ok in E as [Hn Hdb]. simpl in Hdb. subst db'. by apply Hh.
  - done.
  - assert (is_unavailable e) as Hu by (eapply (get_namespace_raises ns eng (db, k)); by rewrite E).
    by destruct e.
Qed.

Lemma answering_status {A} (f : A → Answer) e (h : Handler A) st eng σ :
  handle st e = answering f h → answer_status e (handle st e eng σ).1 = status_of (success_status e) (h eng σ).1.
Proof. intros ->. unfold answering. by destruct (h eng σ) as [[a|x] σ']. Qed.

Lemma answers_raises {A B} (P : Db → Prop) (Q : StoreError → Prop) ok l st (m : Sql A)
    (f : result StoreError A → result GatewayError B) :
  503 ∈ l → raises Q m → (∀ r, (∀ e, r = Err e → Q e) → status_of ok (f r) ∈ l) → answers P ok l (on_store st m f).
Proof.
  intros H5 Hm Hf. apply answers_on_store; [done|]. intros eng db k _. apply Hf. intros e He. by eapply Hm.
Qed.

Lemma raises_any {A} (m : Sql A) : raises (λ _, True) m.
Proof. done. Qed.

(** An error of the store, turned into a response. *)
Lemma from_store_status {A} ok (l : list Z) (r : result StoreError A) :
  ok ∈ l → (∀ e, r = Err e → status (from_store_error e) ∈ l) → status_of ok (map_err from_store_error r) ∈ l.
Proof. intros Hok He. destruct r; simpl; auto. Qed.

Ltac bad := intros ? He; first
  [ rewrite (bad_request_status _ _ He) | rewrite (payload_status _ _ _ He) | rewrite (normalize_status _ _ He)
  | rewrite (period_status _ _ He) | eapply json_body_status; [exact He|..] ]; in_list.

Lemma create_statuses P st body : answers P 201 [201; 400; 401; 409; 413; 415; 503] (create_namespace st body).
Proof.
  apply answers_check; [bad|intros bd _]. apply answers_check; [bad|intros _ _].
  apply answers_check; [bad|intros _ _]. apply answers_check; [bad|intros a _].
  eapply answers_raises; [in_list|apply put_namespace_raises|]. intros r Hr.
  apply from_store_status; [in_list|]. intros e He. destruct r as [|e']; simpl in He; simplify_eq.
  specialize (Hr e eq_refl). destruct e; simpl; try done; in_list.
Qed.

Lemma list_statuses P st query : answers P 200 [200; 400; 401; 503] (list_namespaces st query).
Proof.
  apply answers_check; [intros e He; destruct query; simpl in He; simplify_eq; in_list|intros [cursor limit] _].
  cbv zeta. case_match; [intros eng db k _; simpl; in_list|].
  eapply answers_raises; [in_list|apply raises_any|]. intros r _. apply answered_status; [in_list..|].
  intros. right. in_list.
Qed.

Lemma get_statuses P st ns : answers P 200 [200; 401; 404; 503] (get_namespace_handler st ns).
Proof.
  eapply answers_raises; [in_list|apply get_namespace_raises|]. intros r Hr.
  apply found_status; [in_list..|]. intros e He. left. by apply Hr.
Qed.

Lemma put_statuses P st ns body : answers P 200 [200; 400; 401; 404; 413; 415; 503] (put_namespace_handler st ns body).
Proof.
  apply answers_check; [bad|intros bd _]. apply answers_check; [bad|intros _ _]. apply answers_check; [bad|intros a _].
  eapply answers_raises; [in_list|apply raises_any|]. intros r _. apply found_status; [in_list..|].
  intros. right. in_list.
Qed.

Lemma delete_statuses P st ns : answers P 204 [204; 401; 409; 503] (delete_namespace_handler st ns).
Proof.
  unfold delete_namespace_handler. case_match; [intros eng db k _; simpl; in_list|].
  eapply answers_raises; [in_list|apply delete_namespace_raises|]. intros r Hr.
  pose proof (answered_status 204 [204; 401; 409; 503] r) as Ha.
  destruct (answered r) eqn:E; simpl in *; [in_list|]. apply Ha; [in_list..|]. intros e' He. left. by apply Hr.
Qed.

Lemma get_budget_statuses P st ns period now :
  answers P 200 [200; 400; 401; 404; 503] (get_budget_handler st ns period now).
Proof.
  apply answers_check; [bad|intros _ _]. eapply answers_raises; [in_list|apply raises_any|].
  intros [[r|]|e] _; simpl; [in_list..|]. destruct e; simpl; in_list.
Qed.

Lemma put_budget_statuses P st ns period body now :
  answers P 200 [200; 400; 401; 404; 413; 415; 503] (put_budget_handler st ns period body now).
Proof.
  apply answers_check; [bad|intros limit _]. apply answers_check; [bad|intros _ _].
  eapply answers_raises; [in_list|apply put_budget_raises|]. intros r Hr.
  apply from_store_status; [in_list|]. intros e He. specialize (Hr e He). destruct e; simpl; try done; in_list.
Qed.

Lemma get_policy_statuses st ns now :
  answers (wf tz_get) 200 [200; 401; 404; 503] (get_budget_policy_handler st ns now).
Proof.
  apply answers_known; [in_list..|]. apply answers_on_store; [in_list|]. intros eng db k [Hwf Hn].
  apply found_status; [in_list..|]. intros e He. left. by eapply policy_errors.
Qed.

Lemma put_policy_statuses P st ns body now :
  answers P 200 [200; 400; 401; 404; 413; 415; 503] (put_budget_policy_handler st ns body now).
Proof.
  apply answers_check; [bad|intros bd _]. apply answers_check; [bad|intros tz _].
  assert (answers P 200 [200; 400; 401; 404; 413; 415; 503]
    (on_store st (put_budget_policy tz_get to_zoned ns (p_cadence bd) (p_limit_microdollars bd)
       (default DEFAULT_TIMEZONE (p_timezone bd)) (p_period bd) now) (map_err from_store_error))) as Hput.
  { eapply answers_raises; [in_list|apply put_policy_raises|]. intros r Hr.
    apply from_store_status; [in_list|]. intros e He. specialize (Hr e He). destruct e; simpl; try done; in_list. }
  destruct (p_period bd) as [period|]; [|exact Hput].
  intros eng db k HP. unfold mbind, handler_bind, check.
  destruct (bad_request (validate_period period)) eqn:E; [|simpl; rewrite (bad_request_status _ _ E); in_list].
  destruct (decide (p_cadence bd = Monthly)); [simpl; in_list|]. by apply Hput.
Qed.

Lemma usage_statuses P st ns query : answers P 200 [200; 400; 401; 404; 503] (get_usage st ns query).
Proof.
  apply answers_check; [intros e He; destruct query; simpl in He; simplify_eq; in_list|intros q _].
  apply answers_check; [bad|intros period _]. apply answers_known; [in_list..|].
  eapply answers_raises; [in_list|apply raises_any|]. intros r _. apply answered_status; [in_list..|].
  intros. right. in_list.
Qed.

Lemma all_models_statuses P st : answers P 200 [200; 401; 503] (list_provider_models st).
Proof.
  intros eng db k HP. unfold list_provider_models, mbind, handler_bind.
  pose proof (answers_raises P is_unavailable 200 [200; 401; 503] st list_provider_models_on answered
    ltac:(in_list) list_models_raises) as Ha.
  specialize (Ha ltac:(intros r Hr; apply answered_status; [in_list..|]; intros e He; left; by apply Hr) eng db k HP).
  destruct (on_store st list_provider_models_on answered eng (db, k)) as [[ms|e] σ]; simpl in *; [in_list|done].
Qed.

Lemma models_statuses P st id : answers P 200 [200; 400; 401; 503] (get_provider_models st id).
Proof.
  unfold get_provider_models. destruct (base_url_of st id); [|intros eng db k _; simpl; in_list].
  eapply answers_raises; [in_list|apply raises_any|]. intros [[r|]|e] _; simpl; [in_list..|]. destruct e; simpl; in_list.
Qed.

(** C16: Every endpoint answers with a status its OpenAPI annotation documents, whatever
    it is given, whatever the store holds and wherever the database fails: the
    arms of the handlers that would answer anything else are never taken. *)
Theorem documented_statuses (st : AppState) (e : Endpoint) (eng : Engine) (db : Db) (k : nat) :
  wf tz_get db → answer_status e (handle st e eng (db, k)).1 ∈ documented e.
Proof.
  intros Hwf. destruct e; erewrite answering_status by reflexivity; cbn [documented success_status].
  - by apply (create_statuses (wf tz_get)).
  - by apply (list_statuses (wf tz_get)).
  - by apply (get_statuses (wf tz_get)).
  - by apply (put_statuses (wf tz_get)).
  - by apply (delete_statuses (wf tz_get)).
  - by apply (get_budget_statuses (wf tz_get)).
  - by apply (put_budget_statuses (wf tz_get)).
  - by apply get_policy_statuses.
  - by apply (put_policy_statuses (wf tz_get)).
  - by apply (usage_statuses (wf tz_get)).
  - by apply (all_models_statuses (wf tz_get)).
  - by apply (models_statuses (wf tz_get)).
Qed.

(** ** What a handler changes *)

(** Operations that read. *)
Definition reads {A} (m : Sql A) : Prop := ∀ eng db k, (m eng (db, k)).2.1 = db.

Lemma reads_bind {A B} (m : Sql A) (k : A → Sql B) : reads m → (∀ a, reads (k a)) → reads (m ≫= k).
Proof.
  intros Hm Hk eng db n. unfold mbind, sql_bind. pose proof (Hm eng db n) as H.
  destruct (m eng (db, n)) as [[a|e] [db' n']]; simpl in *; subst; [apply Hk|done].
Qed.
Lemma reads_ret {A} (a : A) : reads (mret a).
Proof. done. Qed.
Lemma reads_throw {A} e : reads (throw (A := A) e).
Proof. done. Qed.
Lemma reads_lift {A} (r : result StoreError A) : reads (lift r).
Proof. done. Qed.
Lemma reads_query {A} (f : Db → A) : reads (query f).
Proof. intros eng db k. unfold query, statement. by destruct (eng k). Qed.
Lemma reads_conn {A} (m : Sql A) : reads m → reads (with_conn m).
Proof. intros Hm. apply reads_bind; [|done]. intros eng db k. unfold execute, statement. by destruct (eng k). Qed.

Ltac reading := repeat first
  [ lazymatch goal with
    | |- reads (with_conn _) => apply reads_conn
    | |- reads (_ ≫= _) => apply reads_bind; [|intros ?]
    | |- reads (query _) => apply reads_query
    | |- reads (namespace_exists _) => apply reads_query
    | |- reads (lift _) => apply reads_lift
    | |- reads (mret _) => apply reads_ret
    | |- reads (throw _) => apply reads_throw
    | |- reads (let '_ := _ in _) => case_match
    | |- reads (match _ with _ => _ end) => case_match
    end ].

Lemma get_namespace_reads id : reads (get_namespace id).
Proof. unfold get_namespace. reading. Qed.
Lemma get_budget_reads ns period now : reads (get_budget tz_get to_zoned ns period now).
Proof. unfold get_budget, read_budget. reading. Qed.
Lemma get_policy_reads ns now : reads (get_budget_policy tz_get to_zoned ns now).
Proof. unfold get_budget_policy, read_budget_policy. reading. Qed.
Lemma list_reads cursor limit : reads (list_namespaces_on cursor limit).
Proof. unfold list_namespaces_on. cbv zeta. reading. Qed.
Lemma usage_reads ns period : reads (summarize_usage ns period).
Proof. unfold summarize_usage. reading. Qed.
Lemma models_reads id : reads (get_provider_models_on id).
Proof. unfold get_provider_models_on. reading. Qed.
Lemma all_models_reads : reads list_provider_models_on.
Proof. unfold list_provider_models_on. reading. Qed.

(** A handler that moves the database to [f] when it succeeds, and whose caller's
    mistakes change nothing; after any other error nothing or all of [f] is done. *)
Definition effects {A} (f : Db → Db) (h : Handler A) : Prop := ∀ eng db k,
  match (h eng (db, k)).1 with
  | Ok _ => (h eng (db, k)).2.1 = f db
  | Err e => (status e < 500 → (h eng (db, k)).2.1 = db) ∧
             ((h eng (db, k)).2.1 = db ∨ (h eng (db, k)).2.1 = f db)
  end.

Definition keeps {A} (h : Handler A) : Prop := ∀ eng db k, (h eng (db, k)).2.1 = db.

Lemma keeps_check {A} (r : result GatewayError A) : keeps (check r).
Proof. done. Qed.

Lemma keeps_store {A B} st (m : Sql A) (f : result StoreError A → result GatewayError B) :
  reads m → keeps (on_store st m f).
Proof.
  intros Hm eng db k. unfold on_store. destruct (has_store st); [|done]. specialize (Hm eng db k).
  by destruct (m eng (db, k)).
Qed.

Lemma keeps_bind {A B} (h : Handler A) (k : A → Handler B) : keeps h → (∀ a, keeps (k a)) → keeps (h ≫= k).
Proof.
  intros Hh Hk eng db n. unfold mbind, handler_bind. specialize (Hh eng db n).
  destruct (h eng (db, n)) as [[a|e] [db' n']]; simpl in *; subst; [apply Hk|done].
Qed.

Lemma keeps_known st ns : keeps (known_namespace st ns).
Proof. apply keeps_bind; [apply keeps_store, get_namespace_reads|done]. Qed.

Lemma effects_keeps {A} (h : Handler A) : keeps h → effects id h.
Proof. intros Hh eng db k. rewrite !Hh. by destruct (h eng (db, k)).1; auto. Qed.

Lemma effects_bind {A B} f (h : Handler A) (k : A → Handler B) :
  keeps h → (∀ a, effects f (k a)) → effects f (h ≫= k).
Proof.
  intros Hh Hk eng db n. unfold mbind, handler_bind. specialize (Hh eng db n).
  destruct (h eng (db, n)) as [[a|e] [db' n']]; simpl in *; subst; [apply Hk|auto].
Qed.

Lemma effects_check {A B} f (r : result GatewayError A) (k : A → Handler B) :
  (∀ a, r = Ok a → effects f (k a)) → effects f (check r ≫= k).
Proof.
  intros Hk eng db n. unfold mbind, handler_bind, check. destruct r as [a|e]; [by apply Hk|]. simpl. auto.
Qed.

(** All or nothing in the store is all or nothing in the response. *)
Lemma effects_store {A B} f st (m : Sql A) (g : result StoreError A → result GatewayError B) :
  (∀ eng db k r σ', m eng (db, k) = (r, σ') → all_or_nothing db σ'.1 (f db) r) →
  (∀ r, is_ok (g r) = is_ok r) → effects f (on_store st m g).
Proof.
  intros Hm Hg eng db k. unfold on_store. destruct (has_store st); simpl; [|auto].
  destruct (m eng (db, k)) as [r σ'] eqn:E. apply Hm in E. unfold all_or_nothing in E. specialize (Hg r).
  simpl. destruct (g r), r; simpl in *; try done. auto.
Qed.

(** What an accepted request does to the tables. *)
Definition effect_of (e : Endpoint) (db : Db) : Db :=
  match e with
  | ECreateNamespace (Ok body) =>
      match normalize_attrs (c_attrs body) with
      | Ok a => spec_put_namespace {| ns_id := c_id body; attrs := a; blocklist := c_blocklist body |} db
      | Err _ => db
      end
  | EPutNamespace ns (Ok body) =>
      match normalize_attrs (r_attrs body) with
      | Ok a => if live db ns then set_namespace db (<[ns := (to_string a, list_to_string <$> r_blocklist body)]> (t_namespace db))
                else db
      | Err _ => db
      end
  | EDeleteNamespace ns => spec_delete ns db
  | EPutBudget ns period (Ok limit) _ => spec_put_budget ns period limit db
  | EPutBudgetPolicy ns (Ok body) now =>
      spec_put_policy tz_get to_zoned ns (p_cadence body) (p_limit_microdollars body)
        (default DEFAULT_TIMEZONE (p_timezone body)) (p_period body) now db
  | _ => db
  end.

Lemma effects_ext {A} f g (h : Handler A) : (∀ db, f db = g db) → effects f h → effects g h.
Proof. intros Hfg Hh eng db k. specialize (Hh eng db k). by rewrite <-Hfg. Qed.

Lemma create_effects st body : effects (effect_of (ECreateNamespace body)) (create_namespace st body).
Proof.
  apply effects_check. intros bd Hbd. apply effects_check. intros _ _. apply effects_check. intros _ _.
  apply effects_check. intros a Ha. destruct body as [bd'|[]]; simpl in Hbd; simplify_eq.
  eapply effects_ext; [intros db; simpl; by rewrite Ha|]. apply effects_store; [apply (put_namespace_atomic tz_get)|by intros []].
Qed.

Lemma put_effects st ns body : effects (effect_of (EPutNamespace ns body)) (put_namespace_handler st ns body).
Proof.
  apply effects_check. intros bd Hbd. apply effects_check. intros _ _. apply effects_check. intros a Ha.
  destruct body as [bd'|[]]; simpl in Hbd; simplify_eq. intros eng db k. unfold on_store, effect_of. rewrite Ha.
  destruct (has_store st); simpl; [|auto].
  destruct (update_namespace ns a (r_blocklist bd) eng (db, k)) as [r σ'] eqn:E. simpl.
  pose proof (update_effect tz_get to_zoned _ _ _ _ _ _ _ _ E) as He. simpl in He.
  assert (r = Ok None → σ'.1 = db) as Hnone.
  { intros ->. unfold update_namespace, with_conn, execute, statement, mbind, sql_bind in E.
    destruct (eng k); [done|]. destruct (eng (S k)); [done|]. simpl in E.
    destruct (t_namespace db !! ns); [|unfold mret, sql_ret in E; by simplify_eq].
    unfold lift in E. destruct (row_to_record _ _ _); by simplify_eq. }
  destruct r as [[rec|]|e]; simpl in *; [done|auto|]. 
  assert (is_unavailable e) as Hu.
  { unfold update_namespace, with_conn, execute, statement, mbind, sql_bind in E.
    destruct (eng k); [by simplify_eq|]. destruct (eng (S k)); [by simplify_eq|]. simpl in E.
    destruct (t_namespace db !! ns); [|unfold mret, sql_ret in E; by simplify_eq].
    unfold lift in E. destruct (row_to_record _ _ _) eqn:Er; simplify_eq/=. by eapply row_to_record_errors. }
  by destruct e.
Qed.

Lemma delete_effects st ns : effects (effect_of (EDeleteNamespace ns)) (delete_namespace_handler st ns).
Proof.
  unfold delete_namespace_handler. case_match; [intros eng db k; simpl; auto|].
  apply effects_store; [apply (delete_namespace_atomic tz_get)|]. by intros [|[]].
Qed.

Lemma put_budget_effects st ns period body now :
  effects (effect_of (EPutBudget ns period body now)) (put_budget_handler st ns period body now).
Proof.
  apply effects_check. intros limit Hl. apply effects_check. intros _ _.
  destruct body as [l|[]]; simpl in Hl; simplify_eq. apply effects_store; [apply put_budget_atomic|by intros []].
Qed.

Lemma put_policy_effects st ns body now :
  effects (effect_of (EPutBudgetPolicy ns body now)) (put_budget_policy_handler st ns body now).
Proof.
  apply effects_check. intros bd Hbd. apply effects_check. intros _ _.
  destruct body as [bd'|[]]; simpl in Hbd; simplify_eq. apply effects_bind.
  - destruct (p_period bd); [|done]. apply keeps_bind; [apply keeps_check|]. intros _.
    by destruct (decide (p_cadence bd = Monthly)).
  - intros _. apply effects_store; [apply put_policy_atomic|by intros []].
Qed.

Lemma keeps_answering {A} f (h : Handler A) : keeps h → keeps (answering f h).
Proof. intros Hh eng db k. unfold answering. specialize (Hh eng db k). by destruct (h eng (db, k)) as [r [??]]. Qed.

Lemma effects_answering {A} (g : A → Answer) f (h : Handler A) : effects f h → effects f (answering g h).
Proof.
  intros Hh eng db k. unfold answering. specialize (Hh eng db k).
  destruct (h eng (db, k)) as [[a|e] [??]]; simpl in *; auto.
Qed.

(** C4: The management surface refines the abstract store.  A request that succeeds
    did to the tables exactly what its endpoint stands for, a reading endpoint
    nothing; one refused as the caller's mistake changed nothing; and whatever
    fails, all of it was done or none. *)
Theorem management_refines (st : AppState) (e : Endpoint) (eng : Engine) (db : Db) (k : nat) :
  match (handle st e eng (db, k)).1 with
  | Ok _ => (handle st e eng (db, k)).2.1 = effect_of e db
  | Err err => (status err < 500 → (handle st e eng (db, k)).2.1 = db) ∧
      ((handle st e eng (db, k)).2.1 = db ∨ (handle st e eng (db, k)).2.1 = effect_of e db)
  end.
Proof.
  assert (effects (effect_of e) (handle st e)) as He; [|apply He].
  destruct e; simpl; apply effects_answering;
    eauto using create_effects, put_effects, delete_effects, put_budget_effects, put_policy_effects;
    (apply (effects_ext (λ db, db)); [done|]); apply effects_keeps;
    repeat (apply keeps_bind; [first [apply keeps_check|apply keeps_known|apply keeps_store]|intros ?]);
    eauto using keeps_store, keeps_check, list_reads, get_namespace_reads, get_budget_reads, get_policy_reads,
      usage_reads, models_reads, all_models_reads.
  - destruct a as [cursor limit]. cbv zeta. case_match; [apply keeps_check|apply keeps_store, list_reads].
  - unfold get_provider_models. case_match; [apply keeps_store, models_reads|apply keeps_check].
Qed.

(** ** Walking the pages *)

(** A caller that follows the cursors, [limit] namespaces at a time, for so many
    pages at most: what it read, and whether the last page carried no cursor. *)
Fixpoint walk (pages : nat) (cursor : option string) (limit : Z) : Sql (list NamespaceRecord * bool) :=
  match pages with
  | 0%nat => mret ([], false)
  | S pages =>
      '(page, next) ← list_namespaces_on cursor limit;
      match next with
      | None => mret (page, true)
      | Some c => '(rest, told) ← walk pages (Some c) limit; mret (page ++ rest, told)
      end
  end.

Lemma filter_past_none c (l : list (string * (string * option string))) :
  (∀ y, y ∈ l → id_le y.1 c) → filter (λ row, past (Some c) row.1 = true) l = [].
Proof.
  induction l as [|y l IH]; intros Hl; [done|]. rewrite filter_cons_False; [apply IH; intros; apply Hl; by right|].
  intros Hp. destruct (proj1 (id_le_spec y.1 c) (Hl y ltac:(left))) as [Hy|Hy].
  - rewrite Hy in Hp. by apply (irreflexivity id_lt c).
  - apply (irreflexivity id_lt c). by transitivity y.1.
Qed.

Lemma filter_past_all c (l : list (string * (string * option string))) :
  (∀ y, y ∈ l → id_le c y.1 ∧ c ≠ y.1) → filter (λ row, past (Some c) row.1 = true) l = l.
Proof.
  induction l as [|y l IH]; intros Hl; [done|]. destruct (Hl y ltac:(left)) as [Hle Hne].
  apply id_le_spec in Hle as [?|Hlt]; [done|]. rewrite filter_cons_True by exact Hlt. f_equal. apply IH.
  intros z Hz. apply Hl. by right.
Qed.

Lemma sorted_past_app (l1 l2 : list (string * (string * option string))) x :
  StronglySorted id_le (l1 ++ x :: l2).*1 → NoDup (l1 ++ x :: l2).*1 →
  filter (λ row, past (Some x.1) row.1 = true) (l1 ++ x :: l2) = l2.
Proof.
  intros Hs Hn. rewrite fmap_app, fmap_cons in Hs, Hn.
  apply NoDup_app in Hn as (_ & _ & Hn2). apply NoDup_cons in Hn2 as [Hx _].
  apply StronglySorted_app in Hs as (Hs1 & _ & Hs2). apply StronglySorted_inv in Hs2 as [_ Hs2].
  rewrite filter_app, filter_past_none, filter_cons_False; [|by apply (irreflexivity id_lt)|].
  - apply filter_past_all. intros y Hy. pose proof (list_elem_of_fmap_2 fst _ _ Hy) as Hy1. split.
    + by eapply (proj1 (list.Forall_forall _ _)) in Hs2.
    + intros He. by rewrite He in Hx.
  - intros y Hy. apply Hs1; [by apply list_elem_of_fmap_2|left].
Qed.

(** The rows still to come after the cursor. *)
Definition remaining (cursor : option string) (db : Db) (rows : list (string * (string * option string))) : Prop :=
  ∃ before, into_iter id_le (t_namespace db) = before ++ rows ∧ cursor = fst <$> list.last before.

Lemma remaining_rows cursor db rows : remaining cursor db rows → rows_after cursor db = rows.
Proof.
  intros (before & Hl & ->). unfold rows_after.
  pose proof (into_iter_sorted id_le (t_namespace db)) as Hs. pose proof (into_iter_NoDup id_le (t_namespace db)) as Hn.
  rewrite Hl in *. destruct before as [|x before _] using rev_ind; simpl; [by apply filter_all|].
  rewrite last_snoc. simpl. rewrite <-app_assoc in *. by apply sorted_past_app.
Qed.

Lemma row_to_record_id id a bl r : row_to_record id a bl = Ok r → ns_id r = id.
Proof.
  unfold row_to_record. destruct (from_str a); simpl; [|done]. destruct bl as [raw|]; simpl.
  - destruct (list_from_str raw); simpl; [by intros [= <-]|done].
  - by intros [= <-].
Qed.

Lemma to_records_app l1 l2 rs :
  to_records (l1 ++ l2) = Ok rs → ∃ r1 r2, to_records l1 = Ok r1 ∧ to_records l2 = Ok r2 ∧ rs = r1 ++ r2.
Proof.
  revert rs. induction l1 as [|[id [a bl]] l1 IH]; intros rs H; simpl in *; [by exists [], rs|].
  destruct (row_to_record id a bl) as [r|]; [|done]. simpl in H.
  destruct (to_records (l1 ++ l2)) as [rs'|]; [|done]. simpl in H. injection H as <-.
  destruct (IH rs' eq_refl) as (r1 & r2 & -> & -> & ->). by exists (r :: r1), r2.
Qed.

Lemma to_records_ids l rs : to_records l = Ok rs → ns_id <$> rs = l.*1.
Proof.
  revert rs. induction l as [|[id [a bl]] l IH]; intros rs H; simpl in *; [by injection H as <-|].
  destruct (row_to_record id a bl) as [r|] eqn:E; [|done]. simpl in H.
  destruct (to_records l) as [rs'|]; [|done]. simpl in H. injection H as <-.
  csimpl. f_equal; [by eapply row_to_record_id|by apply IH].
Qed.

(** One page, when the database does not fail. *)
Lemma page_spec cursor limit db k rows recs :
  remaining cursor db rows → to_records rows = Ok recs → 1 ≤ limit →
  let n := Z.to_nat (clamp limit 1 1000) in
  (list_namespaces_on cursor limit healthy (db, k)) =
    (Ok (take n recs, if (n <? length rows)%nat then ns_id <$> list.last (take n recs) else None), (db, S (S k))).
Proof.
  intros Hr Hok Hl n. unfold list_namespaces_on. fold n. cbv zeta. rewrite healthy_conn, healthy_query.
  rewrite (remaining_rows _ _ _ Hr). rewrite length_take.
  assert (length recs = length rows) as Hlen.
  { apply to_records_ids in Hok. apply (f_equal length) in Hok. by rewrite !length_fmap in Hok. }
  destruct (Nat.ltb_spec n (length rows)) as [Hlt|Hge].
  - rewrite (proj2 (Nat.ltb_lt _ _)) by lia. rewrite take_take, Nat.min_l by lia.
    rewrite <-(take_drop n rows) in Hok. apply to_records_app in Hok as (r1 & r2 & H1 & H2 & ->).
    assert (length r1 = n) as Hn1.
    { apply to_records_ids in H1. apply (f_equal length) in H1. rewrite !length_fmap, length_take in H1. lia. }
    rewrite H1. rewrite take_app_le, take_ge by lia. done.
  - rewrite (proj2 (Nat.ltb_ge _ _)) by lia. rewrite take_ge by lia. rewrite Hok. rewrite take_ge by lia. done.
Qed.

Lemma walk_spec limit db pages k cursor rows recs :
  1 ≤ limit → remaining cursor db rows → to_records rows = Ok recs → (length recs < pages)%nat →
  ∃ k', walk pages cursor limit healthy (db, k) = (Ok (recs, true), (db, k')).
Proof.
  intros Hl. revert k cursor rows recs. induction pages as [|pages IH]; intros k cursor rows recs Hr Hok Hp; [lia|].
  cbn [walk]. unfold mbind at 1, sql_bind at 1. rewrite (page_spec _ _ _ _ _ _ Hr Hok Hl).
  set (n := Z.to_nat (clamp limit 1 1000)).
  assert (1 ≤ n)%nat as Hn by (unfold n, clamp; lia).
  assert (length recs = length rows) as Hlen.
  { apply to_records_ids in Hok. apply (f_equal length) in Hok. by rewrite !length_fmap in Hok. }
  destruct (Nat.ltb_spec n (length rows)) as [Hlt|Hge]; [|exists (S (S k)); by rewrite take_ge by lia].
  pose proof Hok as Hok'. rewrite <-(take_drop n rows) in Hok'. apply to_records_app in Hok' as (r1 & r2 & H1 & H2 & ->).
  pose proof (to_records_ids _ _ H1) as Hi1.
  assert (length r1 = n) as Hn1 by (apply (f_equal length) in Hi1; rewrite !length_fmap, length_take in Hi1; lia).
  rewrite take_app_le, take_ge by lia.
  destruct r1 as [|last r1 _] using rev_ind; [simpl in Hn1; lia|]. rewrite last_snoc. cbn [fmap option_fmap option_map].
  destruct (IH (S (S k)) (Some (ns_id last)) (drop n rows) r2) as [k' Hw].
  - destruct Hr as (before & Hb & _). exists (before ++ take n rows). split; [by rewrite <-app_assoc, take_drop|].
    rewrite last_app. destruct (list.last (take n rows)) as [y|] eqn:Ey.
    + simpl. apply (f_equal list.last) in Hi1. rewrite !fmap_last, last_snoc, Ey in Hi1. by injection Hi1 as ->.
    + apply last_None in Ey. apply (f_equal length) in Ey. rewrite length_take in Ey. simpl in Ey. lia.
  - done.
  - rewrite !length_app in *. simpl in *. lia.
  - exists k'. unfold mbind, sql_bind. by rewrite Hw.
Qed.

(** C34: Following the cursors lists every namespace once.  With a database that does
    not fail and rows that parse, a caller that asks for page after page, of
    whatever size, is given all of them in the order of their ids, each exactly
    once, and is then told that there are no more: the walk ends with a page that
    carries no cursor, after at most one page more than there are namespaces. *)
Theorem pagination_complete (db : Db) (k : nat) (limit : Z) (recs : list NamespaceRecord) (pages : nat) :
  to_records (into_iter id_le (t_namespace db)) = Ok recs → 1 ≤ limit → (length recs < pages)%nat →
  (walk pages None limit healthy (db, k)).1 = Ok (recs, true) ∧ NoDup (ns_id <$> recs) ∧
  StronglySorted id_le (ns_id <$> recs) ∧ ∀ id, id ∈ ns_id <$> recs ↔ is_Some (t_namespace db !! id).
Proof.
  intros Hok Hl Hp. rewrite (to_records_ids _ _ Hok). split_and!.
  - assert (remaining None db (into_iter id_le (t_namespace db))) as Hr by (by exists []).
    by destruct (walk_spec limit db pages k None _ _ Hl Hr Hok Hp) as [k' ->].
  - apply into_iter_NoDup.
  - apply into_iter_sorted; apply _.
  - intros id. rewrite list_elem_of_fmap. split.
    + intros ([id' row] & -> & H). apply into_iter_elem in H. by eexists.
    + intros [row H]. exists (id, row). split; [done|]. by apply into_iter_elem.
Qed.

(** ** Writing and reading back *)

Lemma put_namespace_healthy r db k : ∃ k',
  put_namespace r healthy (db, k) =
    match t_namespace db !! ns_id r with
    | Some _ => (Err (Duplicate (ns_id r)), (db, k'))
    | None => (Ok tt, (spec_put_namespace r db, k'))
    end.
Proof.
  unfold put_namespace. rewrite healthy_conn. unfold transaction, execute, statement, mbind, sql_bind, mret, sql_ret, throw.
  simpl. destruct (t_namespace db !! ns_id r) eqn:E; simpl; [by eexists|]. eexists. do 2 f_equal.
  unfold spec_put_namespace, live. by rewrite E.
Qed.

Lemma get_namespace_healthy id db k :
  get_namespace id healthy (db, k) =
    (match t_namespace db !! id with None => Ok None | Some (a, bl) => Some <$> row_to_record id a bl end,
     (db, S (S k))).
Proof. unfold get_namespace. rewrite healthy_conn, healthy_query. by destruct (t_namespace db !! id) as [[a bl]|]. Qed.

Lemma delete_namespace_healthy id db k : ∃ gone db' k',
  delete_namespace id healthy (db, k) = (Ok gone, (db', k')) ∧ t_namespace db' = delete id (t_namespace db).
Proof.
  unfold delete_namespace. rewrite healthy_conn.
  unfold transaction, namespace_exists, query, execute, statement, mbind, sql_bind, mret, sql_ret. simpl.
  destruct (bool_decide (is_Some (t_namespace db !! id))); simpl; eauto 10.
Qed.

(** Once a body has been accepted, creating it is one store operation. *)
Lemma create_accepted st body rec eng σ σ' :
  create_namespace st (Ok body) eng σ = (Ok rec, σ') →
  ns_id rec = c_id body ∧ blocklist rec = c_blocklist body ∧ normalize_attrs (c_attrs body) = Ok (attrs rec) ∧
  has_store st = true ∧
  ∀ eng σ, create_namespace st (Ok body) eng σ =
    (map_err from_store_error ((λ _, rec) <$> (put_namespace rec eng σ).1), (put_namespace rec eng σ).2).
Proof.
  unfold create_namespace. unfold mbind, handler_bind, check. cbn [json_body].
  destruct (bad_request (validate_namespace_id (c_id body))); [|done].
  destruct (validate_payload (c_attrs body) (c_blocklist body)); [|done].
  destruct (normalize_attrs (c_attrs body)) as [a|] eqn:Ha; [|done]. unfold on_store.
  destruct (has_store st); [|done]. intros H.
  assert (rec = {| ns_id := c_id body; attrs := a; blocklist := c_blocklist body |}) as ->.
  { destruct (put_namespace _ eng σ) as [[[]|e] σ1]; simpl in H; by simplify_eq. }
  split_and!; try done. intros eng' σ2. by destruct (put_namespace _ eng' σ2).
Qed.

(** A stored row reads back as the record it was written from. *)
Lemma written_row_reads r :
  SerdeJsonLaws J → from_str (to_string (attrs r)) = Ok (attrs r) →
  (∀ l, blocklist r = Some l → from_str (to_string (Array (Str <$> l))) = Ok (Array (Str <$> l))) →
  row_to_record (ns_id r) (to_string (attrs r)) (list_to_string <$> blocklist r) = Ok r.
Proof.
  intros HJ Ha Hb. unfold row_to_record. rewrite Ha. destruct r as [id a bl]. simpl in *.
  destruct bl as [l|]; [|done]. simpl. unfold list_from_str, list_to_string. rewrite (Hb l eq_refl). simpl.
  rewrite as_array_Array. replace (mapM as_str (Str <$> l)) with (Some l); [done|].
  symmetry. apply mapM_Some. clear -HJ. induction l as [|x l IH]; csimpl; constructor; [apply as_str_Str|done].
Qed.

(** What was created is what is read.  On a database that does not fail, a
    namespace is created once: the answer is the record with its attributes
    normalised, reading the namespace returns that record, creating it again
    conflicts, and after a delete it is unknown and can be created anew. *)
Theorem namespace_round_trip (st : AppState) (body : CreateBody) (rec : NamespaceRecord) (db : Db) (k : nat) σ :
  SerdeJsonLaws J → from_str (to_string (attrs rec)) = Ok (attrs rec) →
  (∀ l, blocklist rec = Some l → from_str (to_string (Array (Str <$> l))) = Ok (Array (Str <$> l))) →
  create_namespace st (Ok body) healthy (db, k) = (Ok rec, σ) →
  ns_id rec = c_id body ∧ blocklist rec = c_blocklist body ∧ normalize_attrs (c_attrs body) = Ok (attrs rec) ∧
  (get_namespace_handler st (c_id body) healthy σ).1 = Ok rec ∧
  (create_namespace st (Ok body) healthy σ).1 = Err NamespaceConflict ∧
  (c_id body ∉ config_namespaces st →
   let σ' := (delete_namespace_handler st (c_id body) healthy σ).2 in
   (get_namespace_handler st (c_id body) healthy σ').1 = Err UnknownNamespace ∧
   (create_namespace st (Ok body) healthy σ').1 = Ok rec).
Proof.
  intros HJ Ha Hb H. pose proof (create_accepted _ _ _ _ _ _ H) as (Hid & Hbl & Hat & Hst & Hc).
  rewrite Hc in H. destruct (put_namespace_healthy rec db k) as [k1 Hput]. rewrite Hput in H.
  destruct (t_namespace db !! ns_id rec) eqn:Hrow; simpl in H; simplify_eq.
  set (db1 := spec_put_namespace rec db).
  assert (t_namespace db1 !! ns_id rec = Some (to_string (attrs rec), list_to_string <$> blocklist rec)) as Hrow1.
  { unfold db1, spec_put_namespace, live. rewrite Hrow. simpl. by rewrite lookup_insert_eq. }
  split_and!; try done.
  - unfold get_namespace_handler, on_store. rewrite Hst, get_namespace_healthy, <-Hid, Hrow1. simpl.
    by rewrite written_row_reads.
  - rewrite Hc. destruct (put_namespace_healthy rec db1 k1) as [k2 ->]. by rewrite Hrow1.
  - intros Hcfg. unfold delete_namespace_handler. rewrite bool_decide_false by done. unfold on_store. rewrite Hst.
    destruct (delete_namespace_healthy (c_id body) db1 k1) as (gone & db2 & k2 & -> & Hdel). simpl.
    assert (t_namespace db2 !! ns_id rec = None) as Hrow2 by (rewrite Hdel, Hid; apply lookup_delete_eq).
    split.
    + unfold get_namespace_handler, on_store. by rewrite Hst, get_namespace_healthy, <-Hid, Hrow2.
    + rewrite Hc. destruct (put_namespace_healthy rec db2 k2) as [k3 ->]. by rewrite Hrow2.
Qed.

Lemma models_row_provider p row m : models_row p row = Ok m → pm_provider m = p.
Proof.
  destruct row as [[[f s] t] src]. unfold models_row, ok_or. destruct (from_str t); simpl; [|done].
  destruct (as_array _); simpl; [by intros [= <-]|done].
Qed.

Lemma to_models_elem l ms m :
  to_models l = Ok ms → m ∈ ms → ∃ row, (pm_provider m, row) ∈ l ∧ models_row (pm_provider m) row = Ok m.
Proof.
  revert ms. induction l as [|[p row] l IH]; intros ms H Hm; simpl in H; [injection H as <-; by apply elem_of_nil in Hm|].
  destruct (models_row p row) as [m0|] eqn:E; [|done]. simpl in H. destruct (to_models l) as [ms0|]; [|done].
  simpl in H. injection H as <-. pose proof (models_row_provider _ _ _ E) as Hp.
  apply elem_of_cons in Hm as [->|Hm].
  - exists row. rewrite Hp. split; [left|done].
  - destruct (IH ms0 eq_refl Hm) as (row' & H1 & H2). exists row'. split; [by right|done].
Qed.

Lemma fresh_source m url :
  pm_stale (against_source m url) = false → pm_stale m = false ∧ pm_source m = Some url ∧ against_source m url = m.
Proof. unfold against_source. by case_decide. Qed.

(** A listing says so when it may be old.  Models answered as current were stored
    by a fetch from the provider's configured base URL that nothing has marked
    stale since; every configured provider is answered for, in order, whatever
    the store holds. *)
Theorem models_current (st : AppState) (ms : list ProviderModels) (db : Db) (k : nat) (eng : Engine) (σ : Db * nat) :
  list_provider_models st eng (db, k) = (Ok ms, σ) →
  pm_provider <$> ms = fst <$> providers st ∧
  ∀ i m p, ms !! i = Some m → providers st !! i = Some p → pm_stale m = false →
    ∃ fetched models v, t_models db !! p.1 = Some (fetched, false, models, Some p.2) ∧
      pm_fetched_at m = fetched ∧ from_str models = Ok v ∧ as_array v = Some (pm_data m).
Proof.
  unfold list_provider_models, mbind at 1, handler_bind at 1, on_store. destruct (has_store st); [|done].
  destruct (list_provider_models_on eng (db, k)) as [r σ1] eqn:E. destruct r as [cached|e]; simpl; [|by destruct e].
  intros [= <- <-].
  assert (to_models (into_iter id_le (t_models db)) = Ok cached) as Hc.
  { unfold list_provider_models_on in E. apply with_conn_inv in E as [E|[_ ?]]; [|done].
    apply query_bind in E as [E|[_ ?]]; [|done]. unfold lift in E. by simplify_eq. }
  split.
  - rewrite <-list_fmap_compose. apply list_fmap_ext. intros i p Hp. simpl.
    destruct (find _ cached) as [row|] eqn:Hf; [|done]. apply find_some in Hf as [_ Hf].
    apply bool_decide_eq_true in Hf. rewrite <-Hf. unfold against_source. by case_decide.
  - intros i m p Hm Hp Hs. rewrite list_lookup_fmap, Hp in Hm. simpl in Hm. injection Hm as <-.
    destruct (find _ cached) as [row|] eqn:Hf; [|done]. apply find_some in Hf as [Hin Hf].
    apply bool_decide_eq_true in Hf. apply fresh_source in Hs as (Hs & Hsrc & ->).
    destruct (to_models_elem _ _ row Hc) as ([[[f s] t] src] & Hrow & Hr); [by apply list_elem_of_In|].
    apply into_iter_elem in Hrow. rewrite Hf in *. unfold models_row, ok_or in Hr.
    destruct (from_str t) as [v|] eqn:Ev; simpl in Hr; [|done]. destruct (as_array v) as [data|] eqn:Ed; simpl in Hr; [|done].
    injection Hr as <-. simpl in *. subst. by exists f, t, v.
Qed.

End Api.

(** ** A concrete instance

    Attributes are the empty object, a blocklist the one pattern [gpt-*]. *)

Definition demo_print (v : json) : string := match v with JArr _ => "list" | _ => "{}" end.
Definition demo_parse (s : string) : result string json :=
  if decide (s = "list"%string) then Ok (JArr [JStr "gpt-*"]) else Ok (JObj []).
Definition demo_json : SerdeJson := json_model demo_parse demo_print.
Definition demo_tz (name : string) : option unit := if decide (name = "UTC"%string) then Some tt else None.
Definition demo_zoned (month : Z) (_ : unit) : Z * Z := (2026, month).

Definition demo_app : AppState := mkAppState true ["file"] [("openai", "https://api.openai.com/v1")].

Definition demo_create : @CreateBody demo_json :=
  @mkCreateBody demo_json "acme" (@Null demo_json) (Some ["gpt-*"%string]).
Definition demo_record : @NamespaceRecord demo_json :=
  @mkNsRecord demo_json "acme" (@Object demo_json []) (Some ["gpt-*"%string]).

Definition demo_list (id : string) : @Endpoint demo_json Z := @ECreateNamespace demo_json Z (Ok (@mkCreateBody demo_json id (@Null demo_json) None)).

Definition demo_handle (e : @Endpoint demo_json Z) (σ : Db * nat) : Db * nat :=
  (@handle demo_json Z unit demo_tz demo_zoned demo_app e healthy σ).2.

Definition demo_db : Db := (demo_handle (demo_list "b") (demo_handle (demo_list "c") (demo_handle (demo_list "a") (empty_db, 0%nat)))).1.

Lemma documented_statuses_witness :
  answer_status (@EGetBudgetPolicy demo_json Z "acme" 8)
    (@handle demo_json Z unit demo_tz demo_zoned demo_app (EGetBudgetPolicy "acme" 8) healthy (empty_db, 0%nat)).1 = 404 ∧
  answer_status (@EGetBudgetPolicy demo_json Z "acme" 8)
    (@handle demo_json Z unit demo_tz demo_zoned demo_app (EGetBudgetPolicy "acme" 8) healthy (empty_db, 0%nat)).1
    ∈ [200; 401; 404; 503].
Proof.
  split; [vm_compute; reflexivity|].
  apply (@documented_statuses demo_json Z unit demo_tz demo_zoned demo_app (EGetBudgetPolicy "acme" 8) healthy empty_db 0).
  by split; cbn; intros *; rewrite lookup_empty.
Defined.

Definition demo_records : list (@NamespaceRecord demo_json) :=
  (λ id, @mkNsRecord demo_json id (@Object demo_json []) None) <$> ["a"; "b"; "c"].

Lemma pagination_complete_witness :
  (@walk demo_json 4 None 2 healthy (demo_db, 0%nat)).1 = Ok (demo_records, true).
Proof.
  refine (proj1 (@pagination_complete demo_json demo_db 0 2 demo_records 4 _ _ _));
    [reflexivity|lia|simpl; lia].
Defined.

Lemma namespace_round_trip_witness :
  (@get_namespace_handler demo_json demo_app "acme" healthy
     (@create_namespace demo_json demo_app (Ok demo_create) healthy (empty_db, 0%nat)).2).1 = Ok demo_record.
Proof.
  refine (proj1 (proj2 (proj2 (proj2 (@namespace_round_trip demo_json demo_app demo_create demo_record empty_db 0
    (@create_namespace demo_json demo_app (Ok demo_create) healthy (empty_db, 0%nat)).2 (json_model_laws _ _) _ _ _)))));
    [reflexivity| |reflexivity].
  intros l [= <-]. reflexivity.
Defined.

Lemma models_current_witness :
  pm_provider <$> [@empty_stale demo_json "openai"] = fst <$> providers demo_app.
Proof.
  refine (proj1 (@models_current demo_json demo_app [@empty_stale demo_json "openai"] empty_db 0 healthy (empty_db, 2%nat) _)).
  reflexivity.
Defined.

End Api.
