(* ===== verification/Serve.v ===== *)
(** * The request path ([serve] and the four wire handlers of
    [crates/gateway/src/routes/mod.rs]).

    Every route takes this one path: the checks that read only the body and the
    snapshot, the admission of the request and of the settlement it will leave,
    the budget, then streamed or buffered dispatch and the accounting of what it
    came to.  Admission, settlement capacity, the budget and the identity
    generator are components of their own; [serve] is given their answers. *)

From S2P Require Import Prelude Text Json ProviderError Scopes Pricing Admission GatewayError Provider Anthropic OpenAi Transport Credentials Dispatch Store Ids Usage Accounting Sse Streaming RelayWorld StreamDispatch Auth.

Module Serve.
Import Scopes.
Import GatewayError.GatewayError (GatewayError, TransportError, BadRequest, UnknownProvider, ModelBlocked, UnpricedModel,
  UnsupportedWire, Overloaded, RequestCostCeilingExceeded, RequestTooLarge, UnsupportedMediaType).
Import Pricing.Pricing (Usage, RequestPrice, mkUsage, input_tokens, reasoning_tokens, cache_read_tokens,
  cache_write_tokens, request_cost_microdollars, to_usage, PriceRule, UnpricedModels, CatalogPriceIndex, resolve_price,
  estimate_usage, ModelUsage_default, is_some).
Import Admission (AdmissionLimits, AdmissionRejection, RequestKind).
Import Provider.Provider (ProviderResponse, usage, response_body).
Import Anthropic.Anthropic (ThinkingCodec).
Import Transport.Transport (HttpRequest, SendOutcome, TransportLimits, sent).
Import Credentials.Credentials (use_step).
Import Dispatch.Dispatch.
Import Store.Store (BudgetAdmit, NamespaceRecord, attrs, blocklist, r_period, AdmissionAllowed, AdmissionDenied,
  admission_from_store).
Import Accounting.Accounting.
Import Streaming.Streaming (Env, world, set_world, add_jobs, release_permit, jobs, released, Relay).
Import StreamDispatch.StreamDispatch (mkBudgetHold, mkStreamRequest, stream_with_failover).
Import Auth.Auth (InboundKey, k_namespace, k_subject, k_signer_kid, k_max_request_microdollars, k_attrs, Headers).

Section Serve.
Context {J : SerdeJson} {C : ThinkingCodec}.

(** ** The body *)

(** What the JSON extractor refuses a body with. *)
Record JsonRejection := mkRejection { rejection_status : Z; missing_json_content_type : bool }.

Definition inbound_body (body : result JsonRejection Value) : result GatewayError Value :=
  match body with
  | Ok body => Ok body
  | Err r =>
      if rejection_status r =? 413 then Err RequestTooLarge
      else if missing_json_content_type r then Err UnsupportedMediaType
      else Err (BadRequest "request body is not valid JSON")
  end.

(** ** What a route sends and expects *)

Context (to_writer : Value → list Z).

Definition measure (r : Route) (body : Value) : Usage * Z :=
  let '(estimate, bytes) := estimate_usage to_writer body in
  match r with
  | REmbeddings =>
      (mkUsage (input_tokens estimate) 0 (reasoning_tokens estimate) (cache_read_tokens estimate)
         (cache_write_tokens estimate), bytes)
  | _ => (estimate, bytes)
  end.

Definition route_estimate (r : Route) (body : Value) : Usage := (measure r body).1.

Definition request_headers (r : Route) (headers : Headers) : list (string * string) :=
  match r with
  | RNativeMessages =>
      ("anthropic-version", default Anthropic.Anthropic.VERSION (headers "anthropic-version"))
      :: option_list ((λ beta, ("anthropic-beta", beta)) <$> headers "anthropic-beta")
  | _ => []
  end%string.

(** ** The process a request is served by *)

Record ServeConfig := mkServeConfig {
  snapshot : Snapshot;
  blocked_models : list string;
  price_book : list PriceRule;
  unpriced_models : string → UnpricedModels;
  catalogue : option CatalogPriceIndex;
  limits : AdmissionLimits;
  stream_terminal_grace : Z;
}.

Record ServeNs := mkServeNs { record : NamespaceRecord; preloaded_admit : option BudgetAdmit }.

Definition serve_ns (r : option NamespaceRecord) (a : option BudgetAdmit) : option ServeNs :=
  (λ r, mkServeNs r a) <$> r.

(** The answers a request gets from the components it asks: the admission permit
    of a task of [Admission], the reservation of a task of [Settlement], the
    budget store, the identity it is given, whether [try_spawn] finds capacity and
    records are appended to a journal, and what the settlement reports. *)
Record Answers := mkAnswers {
  admission_answer : string → RequestKind → result AdmissionRejection nat;
  settlement_answer : result AdmissionRejection nat;
  budget_answer : BudgetKey → Z → Store.Store.Admission;
  minted : EventIdentity;
  room : bool;
  appends : bool;
  verdict : option (result string unit);
}.

(** ** Before admission *)

Record Planned := mkPlanned {
  p_alias : string;
  p_provider : Provider;
  p_model : string;
  p_streamed : option StreamDelivery;
  p_wire : Wire;
  p_price : RequestPrice;
  p_estimate : Usage;
}.

Definition planned_target (p : Planned) : Target := mkTargetOf (provider_id (p_provider p)) (p_model p).

Definition is_streamed (r : Route) (body : Value) : bool :=
  streamable r && bool_decide (get body "stream" ≫= as_bool = Some true).

Definition check (c : bool) (e : GatewayError) : result GatewayError unit := if c then Ok tt else Err e.

Definition plan_request (cfg : ServeConfig) (headers : Headers) (r : Route) (ns : option ServeNs) (body : Value)
    : result GatewayError Planned :=
  let ns_blocklist := default [] (ns ≫= λ n, blocklist (record n)) in
  _ ← validate_routing_controls r body;
  let streamed := is_streamed r body in
  alias ← ok_or (get body "model" ≫= as_str) (BadRequest "missing `model`");
  '(provider, model) ← split_model_id alias;
  p ← ok_or (provider_of (snapshot cfg) provider) (UnknownProvider provider);
  _ ← check (negb (Aliases.is_blocked (b <$> blocked_models cfg) (b <$> ns_blocklist) (b alias) (b model)))
        (ModelBlocked alias);
  let wire := mkWire r (request_headers r headers) in
  _ ← check (serves r (kind p)) (UnsupportedWire (label r) alias (provider_id p));
  price ← ok_or (resolve_price (catalogue cfg) (price_book cfg) (unpriced_models cfg (provider_id p)) (provider_id p)
                   model) (UnpricedModel alias);
  delivery ← (if streamed : bool then Some <$> stream_delivery r else Ok None);
  let estimate := route_estimate r body in
  _ ← check_estimate_bounds body estimate (limits cfg);
  Ok (mkPlanned alias p model delivery wire price estimate).

(** ** The caller, and the records of a request *)

Definition caller_of (k : InboundKey) : Caller :=
  mkCaller (k_namespace k) (k_subject k) (k_signer_kid k) (k_max_request_microdollars k) (k_attrs k).

Definition request_key (k : InboundKey) : BudgetKey := mkBudgetKey (k_namespace k) (k_subject k).

(** The fields every record of a request shares, for what the walk reported. *)
Definition outcome_record (k : InboundKey) (ns : option ServeNs) (plan : Planned) (identity : EventIdentity)
    (period : option string) (out : FailoverOutcome) (s : Usage.Usage.Status) (u : Pricing.Pricing.ModelUsage)
    (cost : option Z) : Usage.Usage.UsageRecord :=
  let served := o_served out in
  build_record (mkArgs identity (caller_of k) (p_alias plan) (s_provider served) (s_model served) (s_source served)
    (s_credential_id served) s u cost (o_latency_ms out) (o_attempts out) ((attrs ∘ record) <$> ns) period).

(** [Panicked] is an [expect] that found no budget hold. *)
Inductive Response := Streamed (r : Relay) | Buffered (body : Value) | Panicked.

Section Dispatched.
Context (clock : nat → Z) (network : nat → HttpRequest → SendOutcome) (tl : TransportLimits).
Context (cfg : ServeConfig) (ans : Answers) (k : InboundKey) (ns : option ServeNs).

(** The permits and the accounting owner of a request that goes no further. *)
Definition give_back (permit : nat) (core : CoreAccounting) (e : Env) : Env :=
  release_permit (add_jobs e (drop_core (room ans) core)) (Some permit).

(** What buffered dispatch came to. *)
Definition account_buffered (plan : Planned) (core : CoreAccounting) (hold : CoreBudgetHold)
    (out : result GatewayError FailoverOutcome) (e : Env) : result GatewayError Response * Env :=
  let identity := minted ans in
  let period := r_period (hold_reservation hold) in
  match out with
  | Err err =>
      let '(js, core) := release_core_budget core in
      (Err err, add_jobs (add_jobs e js) (drop_core (room ans) core))
  | Ok out =>
      match o_result out with
      | Ok response =>
          let usage := usage response in
          let cost := request_cost_microdollars (s_price (o_served out)) (to_usage usage) in
          let r := outcome_record k ns plan identity period out Usage.Usage.ClientCancelled usage cost in
          let '(slot, core) := take_settlement core in
          let '(taken, core) := take_core_budget core in
          match taken ≫= λ hold, finish (room ans) (from_core hold r slot) Usage.Usage.SOk with
          | None => (Ok Panicked, e)
          | Some (js, done) =>
              ((λ _, Buffered (response_body response)) <$> finish_result (verdict ans),
               add_jobs (add_jobs e js)
                 (default [] (drop_buffered (room ans) done) ++ drop_core (room ans) core))
          end
      | Err err =>
          let '(js, core) := release_core_budget core in
          let r := outcome_record k ns plan identity period out Usage.Usage.UpstreamError ModelUsage_default (Some 0) in
          let '(slot, core) := take_settlement core in
          (Err (GatewayError.GatewayError.Transport err),
           add_jobs (add_jobs (add_jobs e js) (record_usage_terminal (room ans) (appends ans) slot r))
             (drop_core (room ans) core))
      end
  end.

(** Dispatch of an admitted request: the walk's only target is the one its model
    id names. *)
Definition dispatch_request (plan : Planned) (body : Value) (permit : nat) (core : CoreAccounting)
    (hold : CoreBudgetHold) (e : Env) : result GatewayError Response * Env :=
  match p_streamed plan with
  | Some delivery =>
      let req := mkStreamRequest (p_alias plan) body (p_price plan) (p_wire plan) (minted ans) core delivery
                   (mkBudgetHold (hold_key hold) (hold_reservation hold) (input_tokens (p_estimate plan)) (Some permit)) in
      let '(r, e) :=
        stream_with_failover clock network tl (room ans) (limits cfg) (stream_terminal_grace cfg) (snapshot cfg)
          (caller_of k) [planned_target plan] ((attrs ∘ record) <$> ns) req e in
      (Streamed <$> r, e)
  | None =>
      let '(out, w) :=
        dispatch_with_failover clock network tl (snapshot cfg) (k_namespace k) [planned_target plan] (p_price plan) body
          (p_wire plan) (world e) in
      let '(r, e) := account_buffered plan core hold out (set_world e w) in
      (r, release_permit e (Some permit))
  end.

(** ** The path *)

Definition estimated_cost (plan : Planned) : Z :=
  default 0 (request_cost_microdollars (p_price plan) (p_estimate plan)).

Definition over_ceiling (plan : Planned) : option GatewayError :=
  match k_max_request_microdollars k with
  | Some ceiling =>
      if ceiling <? estimated_cost plan then Some (RequestCostCeilingExceeded (p_alias plan) (estimated_cost plan) ceiling)
      else None
  | None => None
  end.

(** The budget's answer: read with the namespace, or asked for. *)
Definition budget_admission (plan : Planned) : Store.Store.Admission :=
  match ns ≫= preloaded_admit with
  | Some a => admission_from_store a
  | None => budget_answer ans (request_key k) (estimated_cost plan)
  end.

Definition request_kind (plan : Planned) : RequestKind :=
  match p_streamed plan with Some _ => Admission.Streamed | None => Admission.Buffered end.

Definition serve_admitted (plan : Planned) (body : Value) (permit : nat) (slot : nat) (e : Env)
    : result GatewayError Response * Env :=
  let core := reserve_settlement core_default slot in
  match over_ceiling plan with
  | Some err => (Err err, give_back permit core e)
  | None =>
      match reserve_budget core (request_key k) (input_tokens (p_estimate plan)) (p_alias plan) (budget_admission plan) with
      | Err err => (Err err, give_back permit core e)
      | Ok core =>
          match core_budget core with
          | None => (Ok Panicked, give_back permit core e)
          | Some hold => dispatch_request plan body permit core hold e
          end
      end
  end.

Definition serve (headers : Headers) (r : Route) (body : Value) (e : Env) : result GatewayError Response * Env :=
  match plan_request cfg headers r ns body with
  | Err err => (Err err, e)
  | Ok plan =>
      match admission_answer ans (k_namespace k) (request_kind plan) with
      | Err rejection => (Err (Overloaded rejection), e)
      | Ok permit =>
          match settlement_answer ans with
          | Err rejection => (Err (Overloaded rejection), release_permit e (Some permit))
          | Ok slot => serve_admitted plan body permit slot e
          end
      end
  end.

(** The handlers of the four wires. *)
Definition handle (r : Route) (headers : Headers) (body : result JsonRejection Value) (e : Env)
    : result GatewayError Response * Env :=
  match inbound_body body with Err err => (Err err, e) | Ok body => serve headers r body e end.

Definition chat_completions := handle RChatCompletions.
Definition native_messages := handle RNativeMessages.
Definition embeddings := handle REmbeddings.
Definition responses := handle RResponses.

(** ** Lemmas *)

Lemma reserve_budget_Ok slot key tokens alias adm core :
  reserve_budget (reserve_settlement core_default slot) key tokens alias adm = Ok core →
  ∃ reservation, adm = AdmissionAllowed reservation ∧
    core = mkCore (Some (mkHold key reservation tokens)) (Some slot).
Proof. destruct adm as [res|[]]; try done. intros [= <-]. by exists res. Qed.

Lemma buffered_error_silent targets price body wire w err w' :
  dispatch_with_failover clock network tl (snapshot cfg) (k_namespace k) targets price body wire w = (Err err, w') →
  sent (net w') = sent (net w).
Proof.
  unfold dispatch_with_failover. simpl. intros H.
  apply target_loop_log in H as (log & _ & _ & Hs & _ & _ & _ & Hlog & _); [|done].
  destruct Hlog as [-> _]. rewrite Hs. apply app_nil_r.
Qed.

Section Delivered.
Context (deserialize : string → Sse.Sse.visit) (elapses reopen_elapses : nat → bool).

(** The caller of a streamed response reads for [n] rounds and goes away. *)
Definition deliver (n : nat) (r : result GatewayError Response) (e : Env) : Env :=
  match r with
  | Ok (Streamed relay) =>
      RelayWorld.RelayWorld.read_and_drop clock deserialize elapses reopen_elapses (room ans) n relay e
  | _ => e
  end.

Lemma deliver_streamed n (r : result GatewayError Relay) e :
  deliver n (Streamed <$> r) e =
  StreamDispatch.StreamDispatch.respond clock deserialize elapses reopen_elapses (room ans) n r e.
Proof. by destruct r. Qed.

Lemma deliver_buffered n r e : (∀ relay, r ≠ Ok (Streamed relay)) → deliver n r e = e.
Proof. intros Hns. destruct r as [[relay| |]|]; try done. by destruct (Hns relay). Qed.

(** The record of a request: its identity, its namespace and its period. *)
Definition names_request (period : option string) (u : Usage.Usage.UsageRecord) : Prop :=
  Usage.Usage.request_id u = Ids.Ids.RequestId_display (event_request_id (minted ans)) ∧
  Usage.Usage.namespace u = k_namespace k ∧ Usage.Usage.period u = period.

(** One account for an admitted request. *)
Definition settled_once (hold : CoreBudgetHold) (permit slot : nat) (r : result GatewayError Response) (e e1 e2 : Env)
    : Prop :=
  released e2 = released e ++ [permit] ∧ r ≠ Ok Panicked ∧
  (∀ body, r = Ok (Buffered body) → verdict ans = Some (Ok tt)) ∧
  ∃ js record, jobs e2 = jobs e ++ js ∧ accounted hold slot record js ∧
    match record with
    | Some u => names_request (r_period (hold_reservation hold)) u
    | None => is_ok r = false ∧ sent (net (world e1)) = sent (net (world e))
    end.

Lemma account_buffered_once plan hold slot out e w r e1 :
  account_buffered plan (mkCore (Some hold) (Some slot)) hold out (set_world e w) = (r, e1) →
  (∀ err, out = Err err → sent (net w) = sent (net (world e))) →
  released e1 = released e ∧ world e1 = w ∧ r ≠ Ok Panicked ∧ (∀ relay, r ≠ Ok (Streamed relay)) ∧
  (∀ body, r = Ok (Buffered body) → verdict ans = Some (Ok tt)) ∧
  ∃ js record, jobs e1 = jobs e ++ js ∧ accounted hold slot record js ∧
    match record with
    | Some u => names_request (r_period (hold_reservation hold)) u
    | None => is_ok r = false ∧ sent (net w) = sent (net (world e))
    end.
Proof.
  intros H Herr. unfold account_buffered in H. destruct out as [out|err].
  - destruct (o_result out) as [response|err].
    + cbn in H. injection H as <- <-. cbn. rewrite app_nil_r. split_and!; [done..| | | |].
      * by destruct (finish_result (verdict ans)).
      * intros relay. by destruct (finish_result (verdict ans)).
      * intros v. destruct (verdict ans) as [[[]|]|]; done.
      * eexists _, (Some _). split; [reflexivity|]. split; [by split|by split_and!].
    + cbn in H. injection H as <- <-. cbn. rewrite app_nil_r, <-app_assoc. split_and!; [done..|].
      eexists _, (Some _). split; [reflexivity|]. split.
      * by apply (terminal_accounted (room ans) hold slot (appends ans)).
      * by split_and!.
  - cbn in H. injection H as <- <-. cbn. rewrite <-app_assoc. split_and!; [done..|].
    eexists _, None. split; [reflexivity|]. split; [apply (release_accounted (room ans))|].
    split; [done|]. by apply (Herr err).
Qed.

Lemma dispatch_request_once n plan body permit slot hold e r e1 :
  dispatch_request plan body permit (mkCore (Some hold) (Some slot)) hold e = (r, e1) →
  settled_once hold permit slot r e e1 (deliver n r e1).
Proof.
  intros H. unfold dispatch_request in H. destruct (p_streamed plan) as [delivery|].
  - destruct (stream_with_failover _ _ _ _ _ _ _ _ _ _ _ e) as [r0 e0] eqn:Hs. injection H as <- <-.
    eapply (StreamDispatch.StreamDispatch.stream_accounted_once clock network tl deserialize elapses reopen_elapses)
      in Hs as (Hrel & js & record & Hj & Hacc & Hrec); [|reflexivity].
    unfold settled_once. rewrite deliver_streamed. split_and!; [exact Hrel|destruct r0; cbn; congruence|destruct r0; cbn; congruence|].
    exists js, record. split_and!; [exact Hj|exact Hacc|]. destruct record as [u|].
    + exact Hrec.
    + destruct Hrec as [Hok ?]. by destruct r0.
  - destruct (dispatch_with_failover _ _ _ _ _ _ _ _ _ _) as [out w] eqn:Hd.
    destruct (account_buffered _ _ _ _ _) as [r0 e0] eqn:Ha. injection H as <- <-.
    apply account_buffered_once in Ha as (Hrel & Hw & Hp & Hns & Hv & js & record & Hj & Hacc & Hrec).
    2:{ intros err ->. by eapply buffered_error_silent. }
    unfold settled_once. rewrite deliver_buffered by done. cbn. rewrite Hrel, Hw. split_and!; [done..|].
    exists js, record. by split_and!.
Qed.

Lemma check_Ok c e u : check c e = Ok u → c = true.
Proof. by destruct c. Qed.

(** What a request that may proceed asks for. *)
Definition asks_for (headers : Headers) (r : Route) (body : Value) (plan : Planned) : Prop :=
  get body "model" ≫= as_str = Some (p_alias plan) ∧
  split_model_id (p_alias plan) = Ok (provider_id (p_provider plan), p_model plan) ∧
  provider_of (snapshot cfg) (provider_id (p_provider plan)) = Some (p_provider plan) ∧
  serves r (kind (p_provider plan)) = true ∧ route (p_wire plan) = r ∧
  Aliases.is_blocked (b <$> blocked_models cfg) (b <$> default [] (ns ≫= λ n, blocklist (record n))) (b (p_alias plan))
    (b (p_model plan)) = false ∧
  resolve_price (catalogue cfg) (price_book cfg) (unpriced_models cfg (provider_id (p_provider plan)))
    (provider_id (p_provider plan)) (p_model plan) = Some (p_price plan) ∧
  (is_some (p_streamed plan) = true ↔ is_streamed r body = true).

Lemma provider_of_id sn id p : provider_of sn id = Some p → provider_id p = id.
Proof.
  unfold provider_of. intros H. apply fmap_Some in H as ([i q] & Hf & ->).
  by apply list_find_Some in Hf as (_ & ? & _).
Qed.

Lemma plan_request_Ok headers r body plan :
  plan_request cfg headers r ns body = Ok plan → asks_for headers r body plan.
Proof.
  unfold plan_request. destruct (validate_routing_controls r body); [|done]. cbn.
  destruct (get body "model" ≫= as_str) as [alias|] eqn:Hal; [|done]. cbn.
  destruct (split_model_id alias) as [[provider model]|] eqn:Hsp; [|done]. cbn.
  destruct (provider_of (snapshot cfg) provider) as [p|] eqn:Hp; [|done]. cbn.
  pose proof (provider_of_id _ _ _ Hp) as Hid. subst provider.
  destruct (check _ (ModelBlocked alias)) eqn:Hbl; [|done]. cbn. apply check_Ok, negb_true_iff in Hbl.
  destruct (check (serves r (kind p)) _) eqn:Hsv; [|done]. cbn. apply check_Ok in Hsv.
  destruct (resolve_price _ _ _ _ _) as [price|] eqn:Hpr; [|done]. cbn.
  destruct (if is_streamed r body then _ else _) as [delivery|] eqn:Hst; [|done]. cbn.
  destruct (check_estimate_bounds _ _ _); [|done]. intros [= <-]. unfold asks_for. cbn. split_and!; try done.
  destruct (is_streamed r body); [|by injection Hst as <-].
  destruct (stream_delivery r); [|done]. by injection Hst as <-.
Qed.

Lemma buffered_isolated env s0 targets price body wire w r w' :
  Credentials.Credentials.resolve (config (snapshot cfg)) env = Ok s0 →
  rtc (use_step (config (snapshot cfg))) s0 (credentials w) →
  dispatch_with_failover clock network tl (snapshot cfg) (k_namespace k) targets price body wire w = (r, w') →
  ∃ new, sent (net w') = sent (net w) ++ new ∧
    Forall (isolated_request (snapshot cfg) env s0 (k_namespace k) targets) new.
Proof.
  unfold dispatch_with_failover. simpl. intros H0 Hr H.
  apply target_loop_log in H as (log & Hsub & Hok & Hs & _); [|done].
  exists (requests log). split; [done|]. by eapply attempted_isolated.
Qed.

(** A caller that goes away while its request is being dispatched drops the
    handler: the hold is charged nothing under the request's own slot. *)
Lemma hang_up_once permit slot hold e w :
  let e' := give_back permit (mkCore (Some hold) (Some slot)) (set_world e w) in
  released e' = released e ++ [permit] ∧ ∃ js, jobs e' = jobs e ++ js ∧ accounted hold slot None js.
Proof. split; [done|]. eexists. split; [reflexivity|]. apply (drop_accounted (room ans)). Qed.

(** ** Properties *)

(** The permit and the reserved slot are given back, and nothing else happened. *)
Definition refused (permit slot : nat) (e e1 : Env) : Prop :=
  released e1 = released e ++ [permit] ∧ jobs e1 = jobs e ++ [Returned slot] ∧ world e1 = world e.

Definition budget_refusal (plan : Planned) (d : Store.Store.Denial) : GatewayError :=
  match d with
  | Store.Store.DenialExceeded => GatewayError.GatewayError.BudgetExceeded (p_alias plan)
  | Store.Store.DenialStoreUnavailable => GatewayError.GatewayError.BudgetUnavailable
  end.

(** C1: What a request costs the gateway, on every path.  A request its own body
    or model rules out, or that admission sheds, leaves everything as it was; one
    refused after admission gives back its permit and its settlement slot without
    touching the world.  A request the budget admitted, on whatever route, streamed
    or not, read to the end or abandoned part way, gives its permit back and spends
    its one slot on one charge to its own reservation; with it goes at most one
    usage record, which carries its identity and whose cost is that charge, and
    only a failed request that sent nothing upstream leaves none.  No buffered
    answer leaves before its usage was recorded. *)
Theorem serve_accounts_once headers route body e n :
  let '(r, e1) := serve headers route body e in
  match plan_request cfg headers route ns body with
  | Err err => r = Err err ∧ e1 = e
  | Ok plan =>
      match admission_answer ans (k_namespace k) (request_kind plan), settlement_answer ans with
      | Err rejection, _ => r = Err (Overloaded rejection) ∧ e1 = e
      | Ok permit, Err rejection => r = Err (Overloaded rejection) ∧ e1 = release_permit e (Some permit)
      | Ok permit, Ok slot =>
          match over_ceiling plan, budget_admission plan with
          | Some err, _ => r = Err err ∧ refused permit slot e e1
          | None, AdmissionDenied d => r = Err (budget_refusal plan d) ∧ refused permit slot e e1
          | None, AdmissionAllowed reservation =>
              settled_once (mkHold (request_key k) reservation (input_tokens (p_estimate plan))) permit slot r e e1
                (deliver n r e1)
          end
      end
  end.
Proof.
  destruct (serve headers route body e) as [r e1] eqn:H. unfold serve in H.
  destruct (plan_request cfg headers route ns body) as [plan|err]; [|by injection H as <- <-].
  destruct (admission_answer ans _ _) as [permit|rejection]; [|by injection H as <- <-].
  destruct (settlement_answer ans) as [slot|rejection]; [|by injection H as <- <-].
  unfold serve_admitted in H. destruct (over_ceiling plan) as [err|]; [by injection H as <- <-|].
  destruct (budget_admission plan) as [reservation|d].
  - cbn in H. by apply (dispatch_request_once n plan body permit slot) in H.
  - destruct d; by injection H as <- <-.
Qed.

(** C2: Where a request may go.  Whatever the gateway has served since it resolved
    its credentials, and however long the response is read, everything a request
    sends goes to the provider its model id names, which speaks the route's wire,
    under a credential configured for that provider and for the caller's own
    namespace, or for the default one as a permitted fallback; and nothing is sent
    for a model that is blocked, or that has no price where the provider requires
    one. *)
Theorem serve_isolated env s0 headers r body e n :
  Credentials.Credentials.resolve (config (snapshot cfg)) env = Ok s0 →
  rtc (use_step (config (snapshot cfg))) s0 (credentials (world e)) →
  let '(answer, e1) := serve headers r body e in
  ∃ new, sent (net (world (deliver n answer e1))) = sent (net (world e)) ++ new ∧
    (new = [] ∨ ∃ plan, asks_for headers r body plan ∧
       Forall (isolated_request (snapshot cfg) env s0 (k_namespace k) [planned_target plan]) new).
Proof.
  intros H0 Hs. destruct (serve headers r body e) as [answer e1] eqn:H. unfold serve in H.
  assert (∀ err, answer = Err err → sent (net (world e1)) = sent (net (world e)) →
    ∃ new, sent (net (world (deliver n answer e1))) = sent (net (world e)) ++ new ∧
      (new = [] ∨ ∃ plan, asks_for headers r body plan ∧
         Forall (isolated_request (snapshot cfg) env s0 (k_namespace k) [planned_target plan]) new)) as Hrefused.
  { intros err -> Hsent. exists []. rewrite app_nil_r. split; [done|by left]. }
  destruct (plan_request cfg headers r ns body) as [plan|err] eqn:Hplan; [|injection H as <- <-; by eapply Hrefused].
  apply plan_request_Ok in Hplan.
  destruct (admission_answer ans _ _) as [permit|rejection]; [|injection H as <- <-; by eapply Hrefused].
  destruct (settlement_answer ans) as [slot|rejection]; [|injection H as <- <-; by eapply Hrefused].
  unfold serve_admitted in H. destruct (over_ceiling plan) as [err|]; [injection H as <- <-; by eapply Hrefused|].
  destruct (budget_admission plan) as [reservation|[]]; cbn in H; [|injection H as <- <-; by eapply Hrefused..].
  unfold dispatch_request in H. destruct (p_streamed plan) as [delivery|].
  - destruct (stream_with_failover _ _ _ _ _ _ _ _ _ _ _ e) as [r0 e0] eqn:Hst. injection H as <- <-.
    eapply (StreamDispatch.StreamDispatch.stream_speaks clock network tl deserialize elapses reopen_elapses _ _ _ _ _ _ _ _
      env s0 e r0 e0 n) in Hst as [(new & Hnew & Hall) _]; [|done..].
    rewrite deliver_streamed. exists new. split; [done|]. right. by exists plan.
  - destruct (dispatch_with_failover _ _ _ _ _ _ _ _ _ _) as [out w] eqn:Hd.
    destruct (account_buffered _ _ _ _ _) as [r0 e0] eqn:Ha. injection H as <- <-.
    apply account_buffered_once in Ha as (_ & Hw & _ & Hns & _).
    2:{ intros err ->. by eapply buffered_error_silent. }
    eapply buffered_isolated in Hd as (new & Hnew & Hall); [|done..].
    rewrite deliver_buffered by done. cbn. rewrite Hw. exists new. split; [done|]. right. by exists plan.
Qed.

End Delivered.
End Dispatched.
End Serve.

(** ** Witness

    An embeddings request of a caller without keys of its own, on a network that
    never answers: one request leaves, under the shared key, and one charge of
    nothing goes with one record. *)

#[local] Existing Instance Dispatch.Dispatch.demo_json.

Definition demo_config : ServeConfig :=
  mkServeConfig Dispatch.Dispatch.demo_snapshot ["openai/secret-*"%string] [] (λ _, Pricing.Pricing.Allow) None
    Streaming.Streaming.demo_limits 0.

Definition demo_answers : Answers :=
  mkAnswers (λ _ _, Ok 7%nat) (Ok 3%nat) (λ _ _, AdmissionAllowed Store.Store.unheld)
    (mkIdentity (Ids.Ids.mkRequestId (Ids.Ids.mkUuid [])) None) false true (Some (Ok tt)).

Definition demo_caller : InboundKey := Auth.Auth.gateway_caller "other" "K9".

Definition demo_body : Value := JObj [("model", JStr "openai/m")]%string.

Definition demo_serve : result GatewayError Response * Env :=
  @serve _ Anthropic.Anthropic.demo_codec (λ _, [20]) (λ _, 0) (λ _ _, Transport.Transport.NoHeaders)
    Transport.Transport.TransportLimits_default demo_config demo_answers demo_caller None (λ _, None) REmbeddings
    demo_body (Streaming.Streaming.mkEnv Dispatch.Dispatch.demo_world 0 [] []).

Lemma serve_isolated_witness :
  Transport.Transport.credential_header <$> sent (net (world demo_serve.2)) = [("authorization", "Bearer p-1")]%string ∧
  let '(answer, e1) := demo_serve in
  ∃ new, sent (net (world (deliver (λ _, 0) demo_answers (λ _, Sse.Sse.VScalar) (λ _, false) (λ _, false) 0 answer e1)))
           = [] ++ new ∧
    (new = [] ∨ ∃ plan, asks_for demo_config None (λ _, None) REmbeddings demo_body plan ∧
       Forall (isolated_request Dispatch.Dispatch.demo_snapshot Credentials.Credentials.demo_env
                 Credentials.Credentials.demo_store "other" [planned_target plan]) new).
Proof.
  split; [vm_compute; reflexivity|].
  apply (serve_isolated (λ _, [20]) (λ _, 0) (λ _ _, Transport.Transport.NoHeaders)
    Transport.Transport.TransportLimits_default demo_config demo_answers demo_caller None (λ _, Sse.Sse.VScalar)
    (λ _, false) (λ _, false) Credentials.Credentials.demo_env Credentials.Credentials.demo_store).
  - apply Credentials.Credentials.demo_resolves.
  - apply rtc_refl.
Defined.

End Serve.
