(* ===== verification/Config.v ===== *)
(** * The configuration and its gate ([crates/gateway/src/config.rs])

    The sections a process boots with, their defaults, what loading derives from
    the [admission] section as written, and the whole of [Config::validate], error
    texts included.  Extracting the file and the environment is the library's:
    [load] starts from its answer.  The parser of URLs is a parameter; a character
    outside ASCII that a text quotes is quoted by its first byte. *)

From stdpp Require Import pretty.
From S2P Require Import Prelude Text Json Scopes Pricing Admission Settlement Backoff Transport Credentials Dispatch Usage Journal Worker UsageDelivery Batch Lifecycle Circuit.

Module Config.
Import UsageDelivery.UsageDelivery (UsageSinkConfig, UsageSinkKind, UsageIndexSettings, MAX_USAGE_INDEX_BATCH, UndurablePolicy).
Import Admission.Admission (AdmissionConfig).
Module Sink := UsageDelivery.UsageDelivery.
Module Creds := Credentials.Credentials.
Module Adm := Admission.Admission.
#[local] Open Scope string_scope.
#[local] Open Scope Z_scope.

Inductive ConfigError := Load (message : string) | Invalid (message : string).

Definition display (e : ConfigError) : string :=
  match e with Load m => "config load: " +:+ m | Invalid m => "invalid config: " +:+ m end.

(** [tokio::sync::Semaphore::MAX_PERMITS] *)
Definition MAX_PERMITS : Z := 2 ^ 61 - 1.

(** ** Texts *)

Definition quoted (s : string) : string := "`" +:+ s +:+ "`".
Definition dq : string := String "034" EmptyString.
Definition blank (s : string) : bool := bool_decide (trim (b s) = []).
(** [as_deref().is_none_or(|s| s.trim().is_empty())] *)
Definition absent (o : option string) : bool := match o with Some s => blank s | None => true end.

(** ** Sections *)

Inductive StorageBackend := Sqlite | PostgresStore.
Inductive StoreUnavailable := UDeny | UAllow.

Record UsageIndexConfig := mkUsageIndex { ui_buffer_capacity : Z; ui_max_batch : Z; ui_flush_interval_ms : Z }.

Definition usage_index_default : UsageIndexConfig := mkUsageIndex 1024 256 50.

Definition max_usage_index_buffer_capacity : Z := MAX_PERMITS.
Definition MAX_USAGE_INDEX_FLUSH_INTERVAL_MS : Z := 86400000.
Definition MAX_STORAGE_REQUEST_TIMEOUT_MS : Z := 60000.

(** [UsageIndexConfig::settings] *)
Definition settings (c : UsageIndexConfig) : UsageIndexSettings :=
  Sink.mkSettings (ui_buffer_capacity c) (ui_max_batch c) (ui_flush_interval_ms c * 1000000)
    (Sink.write_timeout Sink.settings_default).

Record StorageConfig := mkStorageConfig {
  st_backend : StorageBackend;
  st_path : option string;
  st_dsn_env : option string;
  on_unavailable : StoreUnavailable;
  st_create_table : bool;
  usage_index : UsageIndexConfig;
  request_timeout_ms : Z;
}.

Record CredentialPool := mkPool { strategy : Creds.SelectionStrategy; pool_failure_threshold : Z; pool_cooldown_seconds : Z }.
Definition credential_pool_default : CredentialPool := mkPool Creds.RoundRobin 2 30.

Record Failover := mkFailover {
  max_attempts : Z; overall_timeout_ms : Z; target_failure_threshold : Z; target_cooldown_seconds : Z
}.
Definition failover_default : Failover := mkFailover 3 30000 3 30.

Record TransportSection := mkTransport {
  connect_timeout_ms : Z;
  response_header_timeout_ms : Z;
  buffered_body_timeout_ms : Z;
  stream_idle_timeout_ms : Z;
  stream_terminal_grace_ms : Z;
  t_max_response_bytes : Z;
  t_max_error_bytes : Z;
}.
Definition transport_default : TransportSection := mkTransport 5000 30000 30000 120000 1000 (32 * 1024 * 1024) (64 * 1024).

(** [Transport::limits] *)
Definition limits (t : TransportSection) : Transport.TransportLimits :=
  Transport.mkLimits (connect_timeout_ms t * 1000000) (response_header_timeout_ms t * 1000000)
    (buffered_body_timeout_ms t * 1000000) (stream_idle_timeout_ms t * 1000000)
    (t_max_response_bytes t) (t_max_error_bytes t).

Record Shutdown := mkShutdown { drain_grace_ms : Z; deadline_ms : Z; flush_timeout_ms : Z }.
Definition shutdown_default : Shutdown := mkShutdown 5000 15000 5000.

Definition DEFAULT_USAGE_TABLE : string := "axond_usage".
(** [UsageSinkConfig::table] *)
Definition table (c : UsageSinkConfig) : string := default DEFAULT_USAGE_TABLE (Sink.sink_table c).
(** [UsageSinkConfig::batch_settings] *)
Definition batch_settings (c : UsageSinkConfig) : Batch.BatchSettings :=
  Batch.mkSettings (Z.to_nat (Sink.buffer_capacity c)) (Z.to_nat (Z.min (Sink.sink_max_batch c) (Sink.buffer_capacity c))).

Inductive UsageJournalBackend := JNone | JPostgres.
Definition is_enabled (j : UsageJournalBackend) : bool := match j with JPostgres => true | JNone => false end.
Inductive UsageCapacityPolicy := CRefuse | CDropOldest.
Definition policy (p : UsageCapacityPolicy) : Journal.CapacityPolicy :=
  match p with CRefuse => Journal.Refuse | CDropOldest => Journal.DropOldest end.

Record UsageJournalConfig := mkJournalConfig {
  j_backend : UsageJournalBackend;
  j_dsn_env : option string;
  j_schema : option string;
  create_schema : bool;
  consumer : string;
  max_events : Z;
  max_delivery_attempts : Z;
  retain_acknowledged_seconds : Z;
  capacity_policy : UsageCapacityPolicy;
  on_undurable : UndurablePolicy;
  j_operation_timeout_ms : Z;
  j_connect_timeout_ms : Z;
  connections : Z;
  claim_batch : Z;
  lease_seconds : Z;
  poll_interval_ms : Z;
}.

Definition DEFAULT_USAGE_CONSUMER : string := "billing".

Definition usage_journal_default : UsageJournalConfig :=
  mkJournalConfig JNone None None false DEFAULT_USAGE_CONSUMER (Journal.max_events Journal.BILLING_GRADE)
    (Journal.max_delivery_attempts Journal.BILLING_GRADE)
    (Journal.retain_acknowledged Journal.BILLING_GRADE / NANOS_PER_SEC) CRefuse Sink.URefuse 5000 5000 8 256 30 250.

(** [UsageJournalConfig::capacity] *)
Definition journal_capacity (j : UsageJournalConfig) : Journal.Capacity := {|
  Journal.max_events := max_events j;
  Journal.max_delivery_attempts := max_delivery_attempts j;
  Journal.retain_acknowledged := retain_acknowledged_seconds j * NANOS_PER_SEC;
  Journal.policy := policy (capacity_policy j) |}.

Inductive CatalogSourceBackend := SourceNone | ModelsDev | SourceSeed.
Definition CatalogSourceBackend_as_str (s : CatalogSourceBackend) : string :=
  match s with SourceNone => "none" | ModelsDev => "models-dev" | SourceSeed => "seed" end.
Inductive CatalogStoreBackend := InMemory | CatalogPostgres.
Inductive CatalogBootstrap := BootstrapEmpty | BootstrapSeed.

Record CatalogConfig := mkCatalogConfig {
  source : CatalogSourceBackend;
  cat_store : CatalogStoreBackend;
  source_url : option string;
  cat_dsn_env : option string;
  cat_schema : option string;
  cat_create_table : bool;
  refresh_interval_seconds : Z;
  refresh_timeout_seconds : Z;
  retry_initial_seconds : Z;
  retry_max_seconds : Z;
  bootstrap : CatalogBootstrap;
  max_payload_bytes : Z;
  cat_connect_timeout_ms : Z;
  cat_operation_timeout_ms : Z;
}.

Definition MAX_PAYLOAD_BYTES : Z := 64 * 1024 * 1024.
Definition MODELS_DEV_CATALOG_URL : string := "https://models.dev/catalog.json".
Definition SUPPORTED_PATH : string := "/catalog.json".

Definition catalog_default : CatalogConfig :=
  mkCatalogConfig SourceNone InMemory None None None true 21600 60 60 3600 BootstrapEmpty MAX_PAYLOAD_BYTES 10000 30000.

Definition enabled (c : CatalogConfig) : bool := match source c with SourceNone => false | _ => true end.
(** [CatalogConfig::url] *)
Definition url (c : CatalogConfig) : string := default MODELS_DEV_CATALOG_URL (source_url c).

Record RefreshSchedule := mkSchedule { interval : Z; timeout : Z; backoff : Backoff.BackoffPolicy }.

(** [CatalogConfig::schedule] *)
Definition schedule (c : CatalogConfig) : RefreshSchedule :=
  mkSchedule (refresh_interval_seconds c * NANOS_PER_SEC) (refresh_timeout_seconds c * NANOS_PER_SEC)
    (Backoff.mkPolicy (retry_initial_seconds c * NANOS_PER_SEC) (retry_max_seconds c * NANOS_PER_SEC) 2).

Record GatewayKey := mkGatewayKey { gk_env : option string; gk_file : option string; gk_namespace : string }.

Inductive KeyMaterialSource := KEnv (name : string) | KFile (path : string).

(** [GatewayKey::source] *)
Definition key_source (k : GatewayKey) : option KeyMaterialSource :=
  let given (o : option string) := s ← o; if blank s then None else Some s in
  match given (gk_env k), given (gk_file k) with
  | Some env, None => Some (KEnv env)
  | None, Some file => Some (KFile file)
  | _, _ => None
  end.

Definition source_label (k : GatewayKey) : option string :=
  (λ s, match s with KEnv v | KFile v => v end) <$> key_source k.

(** The [admission] section with what was written rather than defaulted. *)
Record AdmissionSection := mkAdmission {
  admission_config : AdmissionConfig;
  streams_explicit : bool;
  per_tenant_explicit : bool;
  pending_explicit : bool;
}.

Record Config := mkConfig {
  server_bind : string;
  storage : option StorageConfig;
  namespaces : list Creds.NamespaceConfig;
  provider : list Dispatch.Provider;
  price : list Pricing.PriceRule;
  blocklist_models : list string;
  credential : list Creds.Credential;
  credential_pool : CredentialPool;
  failover : Failover;
  transport : TransportSection;
  shutdown : Shutdown;
  gateway_key : list GatewayKey;
  usage_sink : list UsageSinkConfig;
  usage_journal : UsageJournalConfig;
  admission : AdmissionSection;
  catalog : CatalogConfig;
  discovery_interval_seconds : Z;
  unrecognized : gset string;
}.

(** ** The [admission] section as written *)

Definition default_max_in_flight : Z := 1024.
Definition default_max_in_flight_streams : Z := 512.
Definition default_max_in_flight_per_tenant : Z := 256.

Definition default_max_pending_settlements (max_in_flight : Z) : Z :=
  let base := if 0 <? max_in_flight then max_in_flight else default_max_in_flight in
  Z.min (saturating_mul U64_MAX base 4) MAX_PERMITS.

Record AdmissionConfigWire := mkWire {
  w_max_request_bytes : Z;
  w_max_in_flight : Z;
  w_max_in_flight_streams : option Z;
  w_max_in_flight_per_tenant : option Z;
  w_max_tenants : Z;
  w_queue_capacity : Z;
  w_queue_wait_ms : Z;
  w_max_stream_duration_ms : Z;
  w_max_prompt_tokens : Z;
  w_max_output_tokens : Z;
  w_max_stream_bytes : Z;
  w_max_pending_settlements : option Z;
  w_max_in_flight_settlements : Z;
  w_settlement_queue_wait_ms : Z;
  w_settlement_timeout_ms : Z;
}.

(** Every key left out. *)
Definition wire_default : AdmissionConfigWire :=
  mkWire (2 * 1024 * 1024) default_max_in_flight None None 1024 0 0 (60 * 60 * 1000) 1000000 200000 (64 * 1024 * 1024)
    None 64 10000 10000.

Definition clamp (max_in_flight : Z) (written : option Z) (default : Z) : Z * bool :=
  match written with
  | Some value => (value, true)
  | None => if 0 <? max_in_flight then (Z.min default max_in_flight, false) else (default, false)
  end.

(** [AdmissionConfig::deserialize] *)
Definition deserialize (w : AdmissionConfigWire) : AdmissionSection :=
  let m := w_max_in_flight w in
  let '(streams, streams_explicit) := clamp m (w_max_in_flight_streams w) default_max_in_flight_streams in
  let '(per_tenant, per_tenant_explicit) :=
    match w_max_in_flight_per_tenant w with
    | Some value => (value, true)
    | None => if (0 <? m) && (m <=? default_max_in_flight_per_tenant) then (0, false)
              else (default_max_in_flight_per_tenant, false)
    end in
  let '(pending, pending_explicit) :=
    match w_max_pending_settlements w with
    | Some value => (value, true)
    | None => (default_max_pending_settlements m, false)
    end in
  mkAdmission (Adm.mkConfig (w_max_request_bytes w) m streams per_tenant (w_max_tenants w) (w_queue_capacity w)
      (w_queue_wait_ms w) (w_max_stream_duration_ms w) (w_max_prompt_tokens w) (w_max_output_tokens w)
      (w_max_stream_bytes w) pending (w_max_in_flight_settlements w) (w_settlement_queue_wait_ms w)
      (w_settlement_timeout_ms w))
    streams_explicit per_tenant_explicit pending_explicit.

(** [AdmissionConfig::default] *)
Definition admission_default : AdmissionSection :=
  mkAdmission (Adm.mkConfig (2 * 1024 * 1024) default_max_in_flight default_max_in_flight_streams
      default_max_in_flight_per_tenant 1024 0 0 (60 * 60 * 1000) 1000000 200000 (64 * 1024 * 1024)
      (default_max_pending_settlements default_max_in_flight) 64 10000 10000) false false false.

(** ** The gate *)

Definition Gate : Type := result ConfigError unit.

Definition refuse_if (bad : bool) (message : string) : Gate := if bad then Err (Invalid message) else Ok tt.

Fixpoint for_each {A} (f : A → Gate) (l : list A) : Gate :=
  match l with [] => Ok tt | x :: l => _ ← f x; for_each f l end.

(** A bound that must not be zero, by its field. *)
Definition at_least_one (section : string) (tail : string) (field : string * Z) : Gate :=
  refuse_if (field.2 =? 0) (section +:+ field.1 +:+ " must be at least 1" +:+ tail).

Definition WITHDRAWN_SECTIONS : list string :=
  ["admin_breakglass"; "admin_oidc"; "budget"; "control_plane"; "convergence"; "core_middleware"; "gateway_minting";
   "gateway_token"; "gateway_token_epoch"; "gateway_verifier"; "mode"; "model"; "rate_limit"; "reload"; "revocation";
   "secret_store"].

Definition joined (sep : string) (parts : list string) : string := text (join (b sep) (b <$> parts)).

Definition reject_withdrawn_sections (cfg : Config) : Gate :=
  let sections := quoted <$> filter (λ key, key ∈ unrecognized cfg) WITHDRAWN_SECTIONS in
  match sections with
  | [] => Ok tt
  | _ => Err (Invalid (joined ", " sections +:+ " " +:+ (if (length sections =? 1)%nat then "is" else "are")
      +:+ " withdrawn (ADR 0063): remove it. Axond is a store-backed gateway with one static `[[gateway_key]]`."))
  end.

Definition validate_usage_index (index : UsageIndexConfig) : Gate :=
  _ ← refuse_if (ui_buffer_capacity index =? 0) "`[storage.usage_index]` buffer_capacity must be at least 1";
  _ ← refuse_if (max_usage_index_buffer_capacity <? ui_buffer_capacity index)
    ("`[storage.usage_index]` buffer_capacity (" +:+ pretty (ui_buffer_capacity index) +:+ ") must not exceed "
     +:+ pretty max_usage_index_buffer_capacity);
  _ ← refuse_if (ui_max_batch index =? 0) "`[storage.usage_index]` max_batch must be at least 1";
  _ ← refuse_if (MAX_USAGE_INDEX_BATCH <? ui_max_batch index)
    ("`[storage.usage_index]` max_batch (" +:+ pretty (ui_max_batch index) +:+ ") must not exceed "
     +:+ pretty MAX_USAGE_INDEX_BATCH);
  _ ← refuse_if (ui_buffer_capacity index <? ui_max_batch index)
    ("`[storage.usage_index]` max_batch (" +:+ pretty (ui_max_batch index) +:+ ") must not exceed buffer_capacity ("
     +:+ pretty (ui_buffer_capacity index) +:+ ")");
  refuse_if (MAX_USAGE_INDEX_FLUSH_INTERVAL_MS <? ui_flush_interval_ms index)
    ("`[storage.usage_index]` flush_interval_ms (" +:+ pretty (ui_flush_interval_ms index) +:+ ") must not exceed "
     +:+ pretty MAX_USAGE_INDEX_FLUSH_INTERVAL_MS +:+ " (24h)").

Definition validate_storage (cfg : Config) (allow_memory_sqlite : bool) : Gate :=
  match storage cfg with
  | None => Err (Invalid ("`[storage]` is required (ADR 0063): set `backend = " +:+ dq +:+ "sqlite" +:+ dq
      +:+ "` with `path`, or `backend = " +:+ dq +:+ "postgres" +:+ dq +:+ "` with `dsn_env`"))
  | Some storage =>
      _ ← validate_usage_index (usage_index storage);
      _ ← refuse_if (request_timeout_ms storage =? 0) "`[storage]` request_timeout_ms must be at least 1";
      _ ← refuse_if (MAX_STORAGE_REQUEST_TIMEOUT_MS <? request_timeout_ms storage)
        ("`[storage]` request_timeout_ms (" +:+ pretty (request_timeout_ms storage) +:+ ") must not exceed "
         +:+ pretty MAX_STORAGE_REQUEST_TIMEOUT_MS);
      match st_backend storage with
      | Sqlite =>
          _ ← refuse_if (absent (st_path storage)) "`[storage]` sqlite requires a non-empty `path`";
          _ ← refuse_if (negb allow_memory_sqlite &&
              from_option (λ path, bool_decide (trim (b path) = b ":memory:")) false (st_path storage))
            "`[storage]` sqlite `:memory:` is not durable; use a file path";
          refuse_if (negb (absent (st_dsn_env storage)))
            ("`[storage]` sqlite ignores `dsn_env`; omit it or use backend = " +:+ dq +:+ "postgres" +:+ dq)
      | PostgresStore =>
          _ ← refuse_if (absent (st_dsn_env storage)) "`[storage]` postgres requires a non-empty `dsn_env`";
          refuse_if (negb (absent (st_path storage)))
            ("`[storage]` postgres ignores `path`; omit it or use backend = " +:+ dq +:+ "sqlite" +:+ dq)
      end
  end.

Definition has_provider (cfg : Config) (id : string) : bool := existsb (λ p, bool_decide (Dispatch.provider_id p = id)) (provider cfg).
Definition has_namespace (cfg : Config) (id : string) : bool := existsb (λ n, bool_decide (Creds.n_id n = id)) (namespaces cfg).

Definition glob_hint : string := "` is invalid: use an exact id, `prefix*`, `*suffix`, or `*`".

Definition glob_gate (prefix : string) (pattern : string) : Gate :=
  match Aliases.parse_glob (b pattern) with
  | Ok _ => Ok tt
  | Err p => Err (Invalid (prefix +:+ " glob `" +:+ text p +:+ glob_hint))
  end.

Definition validate_price_book (cfg : Config) : Gate :=
  for_each (λ rule,
    _ ← refuse_if (blank (Pricing.rule_provider rule) || blank (Pricing.rule_model rule))
      "`[[price]]` requires a non-empty `provider` and `model` glob";
    _ ← refuse_if (negb (has_provider cfg (Pricing.rule_provider rule)))
      ("`[[price]]` references undefined provider " +:+ quoted (Pricing.rule_provider rule));
    glob_gate "`[[price]]` model" (Pricing.rule_model rule)) (price cfg).

Definition validate_blocklist (cfg : Config) : Gate := for_each (glob_gate "blocklist") (blocklist_models cfg).

(** *** Admission *)

Definition exceeds_permits (field : string * Z) : Gate :=
  refuse_if (MAX_PERMITS <? field.2)
    (field.1 +:+ " (" +:+ pretty field.2 +:+ ") must not exceed " +:+ pretty MAX_PERMITS
     +:+ ": a larger ceiling is not a bound this process can hold").

Definition validate_admission (a : AdmissionSection) : Gate :=
  let c := admission_config a in
  let m := Adm.cfg_max_in_flight c in
  _ ← refuse_if (Adm.cfg_max_request_bytes c =? 0) "admission.max_request_bytes must be at least 1";
  _ ← refuse_if ((0 <? Adm.cfg_max_in_flight_per_tenant c) && (Adm.cfg_max_tenants c =? 0))
    "admission.max_tenants must be at least 1 when max_in_flight_per_tenant is set";
  _ ← refuse_if ((0 <? m) && per_tenant_explicit a && (m <? Adm.cfg_max_in_flight_per_tenant c))
    ("admission.max_in_flight_per_tenant (" +:+ pretty (Adm.cfg_max_in_flight_per_tenant c)
     +:+ ") must not exceed admission.max_in_flight (" +:+ pretty m
     +:+ "): a per-tenant ceiling above the global one cannot isolate a tenant");
  _ ← refuse_if ((0 <? m) && streams_explicit a && (0 <? Adm.cfg_max_in_flight_streams c) && (m <? Adm.cfg_max_in_flight_streams c))
    ("admission.max_in_flight_streams (" +:+ pretty (Adm.cfg_max_in_flight_streams c)
     +:+ ") must not exceed admission.max_in_flight (" +:+ pretty m +:+ "): a stream is an in-flight request");
  _ ← for_each exceeds_permits
    [("admission.max_in_flight", m); ("admission.max_in_flight_streams", Adm.cfg_max_in_flight_streams c);
     ("admission.queue_capacity", Adm.cfg_queue_capacity c);
     ("admission.max_pending_settlements", Adm.cfg_max_pending_settlements c);
     ("admission.max_in_flight_settlements", Adm.cfg_max_in_flight_settlements c)];
  _ ← refuse_if (xorb (Adm.cfg_queue_capacity c =? 0) (Adm.cfg_queue_wait_ms c =? 0))
    "admission.queue_capacity and admission.queue_wait_ms must be set together: a queue without a wait bound is unbounded latency, and a wait without a queue is never used";
  _ ← refuse_if ((0 <? Adm.cfg_queue_capacity c) && (m =? 0))
    "admission.queue_capacity requires admission.max_in_flight: nothing queues when the global ceiling is off";
  refuse_if ((0 <? m) && pending_explicit a && (0 <? Adm.cfg_max_pending_settlements c) && (Adm.cfg_max_pending_settlements c <? m))
    ("admission.max_pending_settlements (" +:+ pretty (Adm.cfg_max_pending_settlements c)
     +:+ ") must be at least admission.max_in_flight (" +:+ pretty m
     +:+ "): every admitted request reserves one settlement").

(** *** The catalogue *)

(** [Duration]'s [Debug] of a whole number of seconds. *)
Definition debug_secs (d : Z) : string := pretty (d / NANOS_PER_SEC) +:+ "s".

Inductive InvalidSchedule :=
| ZeroInterval
| ZeroTimeout
| TimeoutExceedsInterval (timeout interval : Z)
| BackoffExceedsInterval (max interval : Z)
| InBackoff (e : Backoff.InvalidBackoff).

Definition InvalidBackoff_display (e : Backoff.InvalidBackoff) : string :=
  match e with
  | Backoff.ZeroInitial => "backoff.initial must be greater than zero"
  | Backoff.Multiplier _ => "backoff.multiplier must be at least 2; a lower factor never backs off"
  | Backoff.Ceiling initial max =>
      "backoff.max (" +:+ debug_secs max +:+ ") must be at least backoff.initial (" +:+ debug_secs initial +:+ ")"
  end.

Definition InvalidSchedule_display (e : InvalidSchedule) : string :=
  match e with
  | ZeroInterval => "catalogue refresh interval must be greater than zero"
  | ZeroTimeout => "catalogue refresh timeout must be greater than zero"
  | TimeoutExceedsInterval timeout interval =>
      "catalogue refresh timeout (" +:+ debug_secs timeout +:+ ") must not exceed the interval (" +:+ debug_secs interval +:+ ")"
  | BackoffExceedsInterval max interval =>
      "catalogue retry ceiling (" +:+ debug_secs max +:+ ") must not exceed the refresh interval (" +:+ debug_secs interval
      +:+ "): a refusing deployment would refresh less often than a healthy one"
  | InBackoff e => InvalidBackoff_display e
  end.

(** [RefreshSchedule::validate] *)
Definition validate_schedule (s : RefreshSchedule) : result InvalidSchedule unit :=
  if interval s =? 0 then Err ZeroInterval
  else if timeout s =? 0 then Err ZeroTimeout
  else if interval s <? timeout s then Err (TimeoutExceedsInterval (timeout s) (interval s))
  else
    _ ← map_err InBackoff (Backoff.validate (backoff s));
    if interval s <? Backoff.max (backoff s) then Err (BackoffExceedsInterval (Backoff.max (backoff s)) (interval s))
    else Ok tt.

(** The first character boundary at or after [i]. *)
Fixpoint ceil_char_boundary (s : bytes) (fuel i : nat) : nat :=
  match fuel with
  | O => i
  | S fuel => if is_char_boundary s i then i else ceil_char_boundary s fuel (S i)
  end.

(** [excerpt_located]; a boundary is at most three bytes away. *)
Definition excerpt_located (value : string) : string :=
  let v := b value in
  if (length v <=? 96 + 32)%nat then value
  else
    let head := floor_char_boundary v 96 in
    let tail := ceil_char_boundary v (length v) (length v - 32) in
    text (take head v) +:+ "… (" +:+ pretty (Z.of_nat (length v)) +:+ " bytes) …" +:+ text (drop tail v).

(** Text up to the first of some separators. *)
Fixpoint until (seps s : bytes) : bytes :=
  match s with [] => [] | c :: s => if bool_decide (c ∈ seps) then [] else c :: until seps s end.

(** [ModelsDevAdapter::new]; the error is the endpoint's. *)
Definition adapter_new (source_url : string) : result string unit :=
  let path := match split_once_str (b "://") (b source_url) with Some (_, rest) => rest | None => b source_url end in
  if ends_with (b SUPPORTED_PATH) (until (b "?#") path) then Ok tt else Err source_url.

Definition unsupported_endpoint (url : string) : string :=
  quoted (excerpt_located url) +:+ " is not a supported models.dev document; only " +:+ quoted SUPPORTED_PATH
  +:+ " is (`api.json` and `models.json` have different shapes)".

Record Url := mkUrl { url_scheme : string; url_host : option string; url_username : string; url_password : option string }.

(** [validate_table_name] *)
Definition table_part (part : bytes) : bool :=
  let first c := is_ascii_lowercase c || bool_decide (c = "_"%char) in
  negb (bool_decide (part = [])) && (length part <=? 63)%nat &&
  match part with c :: _ => first c | [] => false end &&
  forallb (λ c, first c || is_ascii_digit c) part.

Fixpoint split_on (sep : ascii) (s : bytes) : list bytes :=
  match s with
  | [] => [[]]
  | c :: s =>
      match split_on sep s with
      | part :: parts => if bool_decide (c = sep) then [] :: part :: parts else (c :: part) :: parts
      | [] => [[c]]
      end
  end.

Definition validate_table_name (table : string) : result string unit :=
  let parts := split_on "."%char (b table) in
  if (2 <? length parts)%nat then Err (quoted table +:+ " is not a valid table name: at most one schema qualifier")
  else if forallb table_part parts then Ok tt
  else Err (quoted table +:+ " is not a valid table name: use lowercase letters, digits, and underscores").

Definition qualified (name : string) : bool := bool_decide ("."%char ∈ b name).

Definition validate_schema_name (key schema : string) : Gate :=
  _ ← map_err (λ m, Invalid (quoted key +:+ ": " +:+ m)) (validate_table_name schema);
  refuse_if (qualified schema)
    (quoted key +:+ " must be a single unqualified schema name: it names the search path, not a table").

(** The labels seen so far, by pool. *)
Abbreviation Labels := (gmap (string * string) (list string)).

Section Gate.
(** [reqwest::Url::parse]; the error is its display. *)
Context (url_parse : string → result string Url).

(** Whether something stands between the scheme and the path. *)
Definition has_authority (source_url : string) : bool :=
  match split_once_str (b "://") (b source_url) with
  | Some (_, rest) => negb (bool_decide (until (b "/?#") rest = []))
  | None => false
  end.

Definition validate_source (c : CatalogConfig) : Gate :=
  match source c with
  | ModelsDev =>
      u ← map_err (λ e, Invalid ("catalog.source_url is not a valid URL: " +:+ e)) (url_parse (url c));
      _ ← refuse_if (negb (bool_decide (url_scheme u = "https")))
        ("catalog.source_url " +:+ quoted (url c) +:+ " must be `https://`: imported metadata is read for pricing and enablement decisions, so a source that can be substituted in transit is refused rather than trusted");
      _ ← refuse_if (bool_decide (url_host u = None) || negb (has_authority (url c))) "catalog.source_url must name an HTTPS host";
      _ ← refuse_if (negb (bool_decide (url_username u = "")) || negb (bool_decide (url_password u = None)))
        "catalog.source_url must not contain embedded credentials";
      map_err (λ u, Invalid ("catalog.source_url: " +:+ unsupported_endpoint u)) (adapter_new (url c))
  | _ =>
      refuse_if (negb (bool_decide (source_url c = None)))
        ("catalog " +:+ quoted (CatalogSourceBackend_as_str (source c)) +:+ ": `source_url` applies only to `models-dev`")
  end.

Definition validate_retention (c : CatalogConfig) : Gate :=
  match cat_store c with
  | CatalogPostgres =>
      _ ← refuse_if (absent (cat_dsn_env c)) "catalog `postgres`: `dsn_env` must name the env var holding the connection string";
      match cat_schema c with Some schema => validate_schema_name "catalog.schema" schema | None => Ok tt end
  | InMemory => Ok tt
  end.

Definition validate_catalog (c : CatalogConfig) : Gate :=
  if negb (enabled c) then Ok tt
  else
    _ ← for_each (at_least_one "catalog." "")
      [("refresh_interval_seconds", refresh_interval_seconds c); ("refresh_timeout_seconds", refresh_timeout_seconds c);
       ("retry_initial_seconds", retry_initial_seconds c); ("retry_max_seconds", retry_max_seconds c);
       ("connect_timeout_ms", cat_connect_timeout_ms c); ("operation_timeout_ms", cat_operation_timeout_ms c)];
    _ ← at_least_one "catalog." "" ("max_payload_bytes", max_payload_bytes c);
    _ ← map_err (λ e, Invalid ("catalog: " +:+ InvalidSchedule_display e)) (validate_schedule (schedule c));
    _ ← validate_source c;
    validate_retention c.

(** *** Process bounds *)

Definition validate_process_local_bounds (cfg : Config) : Gate :=
  let t := transport cfg in
  let s := shutdown cfg in
  _ ← validate_admission (admission cfg);
  _ ← for_each (at_least_one "transport." "")
    [("connect_timeout_ms", connect_timeout_ms t); ("response_header_timeout_ms", response_header_timeout_ms t);
     ("buffered_body_timeout_ms", buffered_body_timeout_ms t); ("stream_idle_timeout_ms", stream_idle_timeout_ms t);
     ("stream_terminal_grace_ms", stream_terminal_grace_ms t); ("max_response_bytes", t_max_response_bytes t);
     ("max_error_bytes", t_max_error_bytes t)];
  _ ← refuse_if (t_max_response_bytes t <? t_max_error_bytes t)
    "transport.max_error_bytes must not exceed transport.max_response_bytes: an error body is a response body";
  _ ← for_each (at_least_one "shutdown." ": shutdown waits are bounded")
    [("deadline_ms", deadline_ms s); ("flush_timeout_ms", flush_timeout_ms s)];
  validate_catalog (catalog cfg).

(** *** Keys, credentials, sinks *)

Definition validate_gateway_key (cfg : Config) (k : GatewayKey) : Gate :=
  let env := default "" (gk_env k) in
  let file := default "" (gk_file k) in
  _ ← refuse_if (negb (blank env) && negb (blank file))
    ("gateway_key for namespace " +:+ quoted (gk_namespace k) +:+ " declares both `env` and `file`; exactly one source is permitted");
  _ ← refuse_if (blank env && blank file)
    ("gateway_key for namespace " +:+ quoted (gk_namespace k) +:+ " must declare exactly one non-empty source (`env` or `file`)");
  refuse_if (negb (has_namespace cfg (gk_namespace k)))
    ("gateway_key " +:+ quoted (default "" (source_label k)) +:+ " references undefined namespace " +:+ quoted (gk_namespace k)).

Definition validate_gateway_keys (cfg : Config) : Gate :=
  match gateway_key cfg with
  | [] => Err (Invalid "exactly one `[[gateway_key]]` is required: inbound authentication fails closed and there is no keyless mode")
  | [k] => validate_gateway_key cfg k
  | _ => Err (Invalid "`[[gateway_key]]` as a per-namespace list is withdrawn (ADR 0063): declare exactly one deployment-wide static key")
  end.

Definition validate_credential (cfg : Config) (labels : Labels) (c : Creds.Credential) : result ConfigError Labels :=
  let ns := Creds.c_namespace c in
  let p := Creds.c_provider c in
  let pool : list string := default [] (labels !! (ns, p)) in
  _ ← refuse_if (absent (Creds.c_env c))
    ("credential for namespace " +:+ quoted ns +:+ " provider " +:+ quoted p +:+ " has an empty `env`");
  _ ← refuse_if (Creds.c_weight c =? 0) ("credential " +:+ quoted (Creds.label c) +:+ " has weight 0; remove it instead");
  _ ← refuse_if (bool_decide (Creds.label c ∈ pool))
    ("duplicate credential id " +:+ quoted (Creds.label c) +:+ " for namespace " +:+ quoted ns +:+ " provider " +:+ quoted p);
  _ ← refuse_if (negb (has_namespace cfg ns)) ("credential references undefined namespace " +:+ quoted ns);
  _ ← refuse_if (negb (has_provider cfg p)) ("credential references undefined provider " +:+ quoted p);
  Ok (<[(ns, p) := (pool ++ [Creds.label c])%list]> labels).

Fixpoint validate_credentials (cfg : Config) (labels : Labels) (cs : list Creds.Credential) : Gate :=
  match cs with
  | [] => Ok tt
  | c :: cs => labels ← validate_credential cfg labels c; validate_credentials cfg labels cs
  end.

Definition validate_usage_sink (s : UsageSinkConfig) : Gate :=
  match Sink.kind s with
  | Sink.Postgres =>
      _ ← refuse_if (Sink.buffer_capacity s =? 0) "usage_sink `postgres`: buffer_capacity must be at least 1";
      _ ← refuse_if (Sink.sink_max_batch s =? 0) "usage_sink `postgres`: max_batch must be at least 1";
      _ ← refuse_if (Sink.max_batch_explicit s && (Sink.buffer_capacity s <? Sink.sink_max_batch s))
        ("usage_sink `postgres`: max_batch (" +:+ pretty (Sink.sink_max_batch s) +:+ ") must not exceed buffer_capacity ("
         +:+ pretty (Sink.buffer_capacity s) +:+ ")");
      _ ← refuse_if (Sink.flush_interval_ms s =? 0) "usage_sink `postgres`: flush_interval_ms must be at least 1";
      _ ← refuse_if (absent (Sink.dsn_env s)) "usage_sink `postgres`: `dsn_env` must name the env var holding the connection string";
      map_err (λ m, Invalid ("usage_sink `postgres`: " +:+ m)) (validate_table_name (table s))
  | _ => Ok tt
  end.

Definition InvalidConsumerId_display (e : Journal.InvalidConsumerId) : string :=
  match e with
  | Journal.Empty => "a consumer name must not be empty"
  | Journal.TooLong name max => "consumer name " +:+ quoted name +:+ " is over the " +:+ pretty max +:+ "-character limit"
  | Journal.Character name c =>
      "consumer name " +:+ quoted name +:+ " contains " +:+ quoted (String c EmptyString)
      +:+ "; use lowercase letters, digits, `-`, and `_`"
  end.

Definition validate_usage_journal (cfg : Config) : Gate :=
  let j := usage_journal cfg in
  if negb (is_enabled (j_backend j)) then Ok tt
  else
    _ ← refuse_if (absent (j_dsn_env j)) "usage_journal `postgres`: `dsn_env` must name the env var holding the connection string";
    _ ← match j_schema j with
        | Some schema =>
            _ ← map_err (λ m, Invalid ("usage_journal `schema`: " +:+ m)) (validate_table_name schema);
            refuse_if (qualified schema)
              ("usage_journal `schema`: " +:+ quoted schema +:+ " is qualified, but a search path takes one unqualified schema name")
        | None => Ok tt
        end;
    _ ← map_err (λ e, Invalid ("usage_journal `consumer`: " +:+ InvalidConsumerId_display e)) (Journal.ConsumerId_parse (consumer j));
    _ ← refuse_if (max_events j =? 0) "usage_journal: max_events must be at least 1";
    _ ← refuse_if (max_delivery_attempts j =? 0) "usage_journal: max_delivery_attempts must be at least 1, or no event is ever delivered";
    _ ← refuse_if (claim_batch j =? 0) "usage_journal: claim_batch must be at least 1";
    _ ← refuse_if (connections j <? 2) "usage_journal: connections must be at least 2, because one is reserved for the delivery worker";
    _ ← for_each (at_least_one "usage_journal: " "")
      [("operation_timeout_ms", j_operation_timeout_ms j); ("connect_timeout_ms", j_connect_timeout_ms j);
       ("poll_interval_ms", poll_interval_ms j); ("lease_seconds", lease_seconds j);
       ("retain_acknowledged_seconds", retain_acknowledged_seconds j)];
    _ ← refuse_if (bool_decide (usage_sink cfg = []))
      "usage_journal `postgres`: at least one `[[usage_sink]]` must be configured — the journal is the durable path *to* the sinks, and with none of them an acknowledgement would mean nothing";
    refuse_if (forallb (λ s, match Sink.kind s with Sink.Otlp => true | _ => false end) (usage_sink cfg))
      "usage_journal `postgres`: an `otlp` sink cannot answer for a write, so at least one other `[[usage_sink]]` must be configured for the worker to acknowledge on".

Definition validate_usage_sinks (cfg : Config) : Gate :=
  _ ← for_each validate_usage_sink (usage_sink cfg);
  validate_usage_journal cfg.

(** *** The whole graph *)

Definition validate_resource_graph (cfg : Config) : Gate :=
  let defaults := length (filter (λ n, Creds.n_default n = true) (namespaces cfg)) in
  _ ← refuse_if (negb (defaults =? 1)%nat)
    ("exactly one namespace must set `default = true` (found " +:+ pretty defaults +:+ ")");
  _ ← validate_price_book cfg;
  _ ← validate_blocklist cfg;
  _ ← at_least_one "credential_pool." "" ("failure_threshold", pool_failure_threshold (credential_pool cfg));
  _ ← at_least_one "credential_pool." "" ("cooldown_seconds", pool_cooldown_seconds (credential_pool cfg));
  _ ← at_least_one "failover." "" ("max_attempts", max_attempts (failover cfg));
  _ ← at_least_one "failover." "" ("overall_timeout_ms", overall_timeout_ms (failover cfg));
  _ ← at_least_one "failover." "" ("failure_threshold", target_failure_threshold (failover cfg));
  _ ← at_least_one "failover." "" ("cooldown_seconds", target_cooldown_seconds (failover cfg));
  _ ← validate_process_local_bounds cfg;
  _ ← validate_credentials cfg ∅ (credential cfg);
  _ ← validate_gateway_keys cfg;
  validate_usage_sinks cfg.

Definition validate_inner (cfg : Config) (allow_memory_sqlite : bool) : Gate :=
  _ ← reject_withdrawn_sections cfg;
  _ ← validate_storage cfg allow_memory_sqlite;
  _ ← refuse_if (discovery_interval_seconds cfg =? 0) "discovery.refresh_interval_seconds must be at least 1";
  validate_resource_graph cfg.

Definition validate (cfg : Config) : Gate := validate_inner cfg false.

(** [Config::load]; the argument is what the file and the environment extract to. *)
Definition load (extracted : result string Config) : result ConfigError Config :=
  cfg ← map_err Load extracted;
  _ ← validate cfg;
  Ok cfg.

End Gate.

(** ** What an accepted configuration is *)

(** A name that may be written into a statement. *)
Definition identifier (p : bytes) : Prop :=
  p ≠ [] ∧ (length p ≤ 63)%nat ∧
  Forall (λ c, is_ascii_lowercase c = true ∨ is_ascii_digit c = true ∨ c = "_"%char) p ∧
  from_option (λ c, is_ascii_digit c = false) True (head p).

Definition table_name (s : bytes) : Prop := identifier s ∨ ∃ x y, s = (x ++ "."%char :: y)%list ∧ identifier x ∧ identifier y.

Definition given (o : option string) : Prop := ∃ s, o = Some s ∧ trim (b s) ≠ [].

Record storage_ok (allow_memory : bool) (s : StorageConfig) : Prop := {
  so_batch : ui_max_batch (usage_index s) ≠ 0 ∧ ui_max_batch (usage_index s) ≤ Z.min MAX_USAGE_INDEX_BATCH (ui_buffer_capacity (usage_index s));
  so_queue : ui_buffer_capacity (usage_index s) ≠ 0 ∧ ui_buffer_capacity (usage_index s) ≤ MAX_PERMITS;
  so_interval : ui_flush_interval_ms (usage_index s) ≤ 86400000;
  so_timeout : request_timeout_ms s ≠ 0 ∧ request_timeout_ms s ≤ 60000;
  so_place : match st_backend s with
             | Sqlite => given (st_path s) ∧ ¬ given (st_dsn_env s) ∧
                 (allow_memory = false → ∀ p, st_path s = Some p → trim (b p) ≠ b ":memory:")
             | PostgresStore => given (st_dsn_env s) ∧ ¬ given (st_path s)
             end;
}.

Record admission_ok (a : AdmissionSection) : Prop := {
  ao_body : Adm.cfg_max_request_bytes (admission_config a) ≠ 0;
  ao_tenants : 0 < Adm.cfg_max_in_flight_per_tenant (admission_config a) → Adm.cfg_max_tenants (admission_config a) ≠ 0;
  ao_tenant : 0 < Adm.cfg_max_in_flight (admission_config a) → per_tenant_explicit a = true →
    Adm.cfg_max_in_flight_per_tenant (admission_config a) ≤ Adm.cfg_max_in_flight (admission_config a);
  ao_streams : 0 < Adm.cfg_max_in_flight (admission_config a) → streams_explicit a = true →
    0 < Adm.cfg_max_in_flight_streams (admission_config a) →
    Adm.cfg_max_in_flight_streams (admission_config a) ≤ Adm.cfg_max_in_flight (admission_config a);
  ao_permits : Forall (λ v, v ≤ MAX_PERMITS)
    [Adm.cfg_max_in_flight (admission_config a); Adm.cfg_max_in_flight_streams (admission_config a);
     Adm.cfg_queue_capacity (admission_config a); Adm.cfg_max_pending_settlements (admission_config a);
     Adm.cfg_max_in_flight_settlements (admission_config a)];
  ao_queue : Adm.cfg_queue_capacity (admission_config a) = 0 ↔ Adm.cfg_queue_wait_ms (admission_config a) = 0;
  ao_waits : 0 < Adm.cfg_queue_capacity (admission_config a) → Adm.cfg_max_in_flight (admission_config a) ≠ 0;
  ao_settles : 0 < Adm.cfg_max_in_flight (admission_config a) → pending_explicit a = true →
    0 < Adm.cfg_max_pending_settlements (admission_config a) →
    Adm.cfg_max_in_flight (admission_config a) ≤ Adm.cfg_max_pending_settlements (admission_config a);
}.

Section Spec.
Context (url_parse : string → result string Url).

Record catalog_ok (c : CatalogConfig) : Prop := {
  ca_nonzero : Forall (λ v, v ≠ 0) [refresh_interval_seconds c; refresh_timeout_seconds c; retry_initial_seconds c;
    retry_max_seconds c; cat_connect_timeout_ms c; cat_operation_timeout_ms c; max_payload_bytes c];
  ca_pace : refresh_timeout_seconds c ≤ refresh_interval_seconds c ∧
    retry_initial_seconds c ≤ retry_max_seconds c ≤ refresh_interval_seconds c;
  ca_source : match source c with
    | ModelsDev => ∃ u, url_parse (url c) = Ok u ∧ url_scheme u = "https" ∧ url_host u ≠ None ∧
        has_authority (url c) = true ∧ url_username u = "" ∧ url_password u = None ∧ adapter_new (url c) = Ok tt
    | _ => source_url c = None
    end;
  ca_retention : cat_store c = CatalogPostgres →
    given (cat_dsn_env c) ∧ ∀ s, cat_schema c = Some s → identifier (b s);
}.

Record sink_ok (s : UsageSinkConfig) : Prop := {
  sk_room : Sink.buffer_capacity s ≠ 0 ∧ Sink.sink_max_batch s ≠ 0 ∧ Sink.flush_interval_ms s ≠ 0;
  sk_batch : Sink.max_batch_explicit s = true → Sink.sink_max_batch s ≤ Sink.buffer_capacity s;
  sk_dsn : given (Sink.dsn_env s);
  sk_table : table_name (b (table s));
}.

Record journal_ok (j : UsageJournalConfig) (sinks : list UsageSinkConfig) : Prop := {
  jo_dsn : given (j_dsn_env j);
  jo_schema s : j_schema j = Some s → identifier (b s);
  jo_consumer : consumer j ≠ "" ∧ (length (b (consumer j)) ≤ 63)%nat ∧ Forall (λ c, Journal.consumer_char c = true) (b (consumer j));
  jo_nonzero : Forall (λ v, v ≠ 0) [max_events j; max_delivery_attempts j; claim_batch j; j_operation_timeout_ms j;
    j_connect_timeout_ms j; poll_interval_ms j; lease_seconds j; retain_acknowledged_seconds j];
  jo_connections : 2 ≤ connections j;
  jo_sink : ∃ s, s ∈ sinks ∧ Sink.kind s ≠ Sink.Otlp;
}.

(** Every part is sound by itself, and whatever names another part names one that
    is declared. *)
Record config_ok (allow_memory : bool) (cfg : Config) : Prop := {
  co_withdrawn k : k ∈ WITHDRAWN_SECTIONS → k ∉ unrecognized cfg;
  co_storage : ∃ s, storage cfg = Some s ∧ storage_ok allow_memory s;
  co_discovery : discovery_interval_seconds cfg ≠ 0;
  co_default : ∃ n, filter (λ n, Creds.n_default n = true) (namespaces cfg) = [n];
  co_price r : r ∈ price cfg →
    trim (b (Pricing.rule_provider r)) ≠ [] ∧ trim (b (Pricing.rule_model r)) ≠ [] ∧
    Pricing.rule_provider r ∈ Dispatch.provider_id <$> provider cfg ∧ Aliases.glob_grammar (b (Pricing.rule_model r));
  co_blocklist g : g ∈ blocklist_models cfg → Aliases.glob_grammar (b g);
  co_nonzero : Forall (λ v, v ≠ 0) [pool_failure_threshold (credential_pool cfg); pool_cooldown_seconds (credential_pool cfg);
    max_attempts (failover cfg); overall_timeout_ms (failover cfg); target_failure_threshold (failover cfg);
    target_cooldown_seconds (failover cfg); connect_timeout_ms (transport cfg); response_header_timeout_ms (transport cfg);
    buffered_body_timeout_ms (transport cfg); stream_idle_timeout_ms (transport cfg);
    stream_terminal_grace_ms (transport cfg); t_max_response_bytes (transport cfg); t_max_error_bytes (transport cfg);
    deadline_ms (shutdown cfg); flush_timeout_ms (shutdown cfg)];
  co_bodies : t_max_error_bytes (transport cfg) ≤ t_max_response_bytes (transport cfg);
  co_admission : admission_ok (admission cfg);
  co_catalog : source (catalog cfg) ≠ SourceNone → catalog_ok (catalog cfg);
  co_credential c : c ∈ credential cfg →
    given (Creds.c_env c) ∧ Creds.c_weight c ≠ 0 ∧
    Creds.c_namespace c ∈ Creds.n_id <$> namespaces cfg ∧ Creds.c_provider c ∈ Dispatch.provider_id <$> provider cfg;
  co_labels : NoDup ((λ c, (Creds.c_namespace c, Creds.c_provider c, Creds.label c)) <$> credential cfg);
  co_key : ∃ k src, gateway_key cfg = [k] ∧ key_source k = Some src ∧ gk_namespace k ∈ Creds.n_id <$> namespaces cfg;
  co_sinks s : s ∈ usage_sink cfg → Sink.kind s = Sink.Postgres → sink_ok s;
  co_journal : j_backend (usage_journal cfg) = JPostgres → journal_ok (usage_journal cfg) (usage_sink cfg);
}.
End Spec.

(** ** Lemmas *)

Lemma seq_ok (g k : Gate) : (_ ← g; k) = Ok tt ↔ g = Ok tt ∧ k = Ok tt.
Proof. destruct g as [[]|]; cbn; naive_solver. Qed.

Lemma refuse_if_ok bad m : refuse_if bad m = Ok tt ↔ bad = false.
Proof. by destruct bad. Qed.

Lemma at_least_one_ok section tail field : at_least_one section tail field = Ok tt ↔ field.2 ≠ 0.
Proof. unfold at_least_one. by rewrite refuse_if_ok, Z.eqb_neq. Qed.

Lemma exceeds_permits_ok field : exceeds_permits field = Ok tt ↔ field.2 ≤ MAX_PERMITS.
Proof. unfold exceeds_permits. by rewrite refuse_if_ok, Z.ltb_ge. Qed.

Lemma for_each_ok {A} (f : A → Gate) l : for_each f l = Ok tt ↔ Forall (λ x, f x = Ok tt) l.
Proof. induction l as [|x l IH]; cbn [for_each]; [by split|]. by rewrite seq_ok, list.Forall_cons, IH. Qed.

Lemma map_err_ok {E} (f : E → ConfigError) (r : result E unit) : @eq Gate (map_err f r) (Ok tt) ↔ r = Ok tt.
Proof. by destruct r as [[]|]. Qed.

Lemma blank_false s : blank s = false ↔ trim (b s) ≠ [].
Proof. unfold blank. apply bool_decide_eq_false. Qed.

Lemma blank_true s : blank s = true ↔ trim (b s) = [].
Proof. unfold blank. apply bool_decide_eq_true. Qed.

Lemma absent_false o : absent o = false ↔ given o.
Proof.
  unfold absent, given. destruct o as [s|]; [rewrite blank_false; naive_solver|]. split; [done|]. by intros (? & [=] & _).
Qed.

Lemma absent_true o : negb (absent o) = false ↔ ¬ given o.
Proof. rewrite <-absent_false. destruct (absent o); cbn; split; done. Qed.

Lemma has_provider_true cfg id : has_provider cfg id = true ↔ id ∈ Dispatch.provider_id <$> provider cfg.
Proof.
  unfold has_provider. rewrite existsb_exists, list_elem_of_fmap. setoid_rewrite bool_decide_eq_true. setoid_rewrite list_elem_of_In. naive_solver.
Qed.

Lemma has_namespace_true cfg id : has_namespace cfg id = true ↔ id ∈ Creds.n_id <$> namespaces cfg.
Proof.
  unfold has_namespace. rewrite existsb_exists, list_elem_of_fmap. setoid_rewrite bool_decide_eq_true. setoid_rewrite list_elem_of_In. naive_solver.
Qed.

Lemma parse_glob_ok p : is_ok (Aliases.parse_glob p) = true ↔ Aliases.glob_grammar p.
Proof.
  assert (is_ok (Aliases.parse_glob p) = is_ok (Aliases.parse_one p)) as ->
    by (unfold Aliases.parse_glob, Aliases.parse; cbn; by destruct (Aliases.parse_one p)).
  split; [apply Aliases.parse_one_ok|]. destruct 1 as [p Hne Hp|p Hp|p Hp].
  - by rewrite Aliases.parse_one_exact.
  - destruct (decide (p = [])) as [->|Hne]; [done|]. by rewrite Aliases.parse_one_prefix.
  - by rewrite Aliases.parse_one_suffix.
Qed.

Lemma glob_gate_ok prefix p : glob_gate prefix p = Ok tt ↔ Aliases.glob_grammar (b p).
Proof. unfold glob_gate. rewrite <-parse_glob_ok. by destruct (Aliases.parse_glob (b p)). Qed.

(** Names that reach a statement. *)
Lemma table_part_ok p : table_part p = true ↔ identifier p.
Proof.
  unfold table_part, identifier. rewrite !andb_true_iff, negb_true_iff, bool_decide_eq_false, Nat.leb_le, forallb_true.
  assert (Forall (λ c, is_ascii_lowercase c || bool_decide (c = "_"%char) || is_ascii_digit c = true) p ↔
    Forall (λ c, is_ascii_lowercase c = true ∨ is_ascii_digit c = true ∨ c = "_"%char) p) as ->.
  { apply list.Forall_iff. intros c. rewrite !orb_true_iff, bool_decide_eq_true. tauto. }
  destruct p as [|c p]; cbn; [tauto|]. rewrite orb_true_iff, bool_decide_eq_true, list.Forall_cons.
  assert (is_ascii_lowercase c = true ∨ c = "_"%char → is_ascii_digit c = false) as Hd.
  { intros [Hc| ->]; [|done]. unfold is_ascii_lowercase, is_ascii_digit in *. reflect_bools.
    apply andb_false_iff. right. apply Z.leb_gt. lia. }
  split; [tauto|]. intros (Hne & Hl & [Hc Hf] & Hdig). destruct Hc as [?|[?|?]]; [tauto|congruence|tauto].
Qed.

Lemma identifier_no_dot p : identifier p → "."%char ∉ p.
Proof. intros (_ & _ & Hp & _) Hin. rewrite list.Forall_forall in Hp. by destruct (Hp _ Hin) as [?|[?|?]]. Qed.

Lemma split_on_none sep s : sep ∉ s → split_on sep s = [s].
Proof.
  induction s as [|c s IH]; [done|]. intros [Hc Hs]%not_elem_of_cons. cbn. rewrite IH by done.
  by rewrite bool_decide_false by done.
Qed.

Lemma split_on_app sep x y : sep ∉ x → split_on sep (x ++ sep :: y) = x :: split_on sep y.
Proof.
  assert (∀ s, ∃ p ps, split_on sep s = p :: ps) as Hne.
  { induction s as [|c s (p & ps & IH)]; cbn; [by eexists _, _|]. rewrite IH. case_bool_decide; by eexists _, _. }
  induction x as [|c x IH]; intros Hx; cbn.
  - destruct (Hne y) as (p & ps & ->). by rewrite bool_decide_true.
  - apply not_elem_of_cons in Hx as [Hc Hx]. rewrite IH by done. by rewrite bool_decide_false by done.
Qed.

Lemma first_separator (sep : ascii) (x y x' y' : bytes) :
  sep ∉ x → sep ∉ x' → (x ++ sep :: y)%list = (x' ++ sep :: y')%list → x = x' ∧ y = y'.
Proof.
  revert x'. induction x as [|c x IH]; intros [|c' x'] Hx Hx' He; injection He.
  - by intros ->.
  - intros _ ->. by apply not_elem_of_cons in Hx' as [? _].
  - intros _ <-. by apply not_elem_of_cons in Hx as [? _].
  - intros He' <-. apply not_elem_of_cons in Hx as [_ Hx], Hx' as [_ Hx']. by destruct (IH x' Hx Hx' He') as [-> ->].
Qed.

Lemma qualified_name x y : "."%char ∉ x → table_name (x ++ "."%char :: y) ↔ identifier x ∧ identifier y.
Proof.
  intros Hx. split; [|intros [? ?]; right; eauto]. intros [Hid|(x' & y' & He & Hx' & Hy')].
  - exfalso. apply (identifier_no_dot _ Hid). apply elem_of_app. right. apply list_elem_of_here.
  - by destruct (first_separator _ _ _ _ _ Hx (identifier_no_dot _ Hx') He) as [-> ->].
Qed.

Lemma validate_table_name_ok name : validate_table_name name = Ok tt ↔ table_name (b name).
Proof.
  unfold validate_table_name. destruct (decide ("."%char ∈ b name)) as [Hin|Hin].
  - apply list_elem_of_split_l in Hin as (x & y & -> & Hx). rewrite split_on_app, qualified_name by done.
    destruct (decide ("."%char ∈ y)) as [Hy|Hy].
    + apply list_elem_of_split_l in Hy as (y1 & y2 & -> & Hy1). rewrite split_on_app by done.
      destruct (split_on "."%char y2) eqn:Hy2; [destruct y2; cbn in Hy2; repeat case_match; done|]. cbn.
      split; [done|]. intros [_ Hid]. exfalso. apply (identifier_no_dot _ Hid), elem_of_app. right. apply list_elem_of_here.
    + rewrite split_on_none by done. cbn [length forallb]. rewrite andb_true_r, <-!table_part_ok, <-andb_true_iff. cbn.
      by destruct (table_part x && table_part y).
  - rewrite split_on_none by done. cbn [length forallb]. rewrite andb_true_r. cbn.
    assert (table_name (b name) ↔ identifier (b name)) as ->.
    { split; [|by left]. intros [?|(x & y & He & _)]; [done|]. exfalso. apply Hin. rewrite He. apply elem_of_app. right. apply list_elem_of_here. }
    rewrite <-table_part_ok. by destruct (table_part (b name)).
Qed.

Lemma validate_schema_ok (g : string → ConfigError) m schema :
  (_ ← map_err g (validate_table_name schema); refuse_if (qualified schema) m) = Ok tt ↔ identifier (b schema).
Proof.
  rewrite seq_ok, map_err_ok, refuse_if_ok, validate_table_name_ok. unfold qualified. rewrite bool_decide_eq_false.
  split; [|intros Hid; split; [by left|by apply identifier_no_dot]].
  intros [[?|(x & y & He & _)] Hd]; [done|]. exfalso. apply Hd. rewrite He. apply elem_of_app. right. apply list_elem_of_here.
Qed.

Ltac gates := rewrite ?seq_ok, ?refuse_if_ok, ?at_least_one_ok, ?for_each_ok, ?map_err_ok, ?absent_false, ?absent_true,
  ?Z.ltb_ge, ?Z.eqb_neq, ?list.Forall_cons, ?list.Forall_nil, ?at_least_one_ok.

Lemma validate_usage_index_ok i :
  validate_usage_index i = Ok tt ↔
  (ui_max_batch i ≠ 0 ∧ ui_max_batch i ≤ Z.min MAX_USAGE_INDEX_BATCH (ui_buffer_capacity i)) ∧
  (ui_buffer_capacity i ≠ 0 ∧ ui_buffer_capacity i ≤ MAX_PERMITS) ∧ ui_flush_interval_ms i ≤ 86400000.
Proof.
  unfold validate_usage_index. gates. unfold max_usage_index_buffer_capacity, MAX_USAGE_INDEX_FLUSH_INTERVAL_MS.
  rewrite Z.min_glb_iff. tauto.
Qed.

Lemma memory_path mem o :
  negb mem && from_option (λ path, bool_decide (trim (b path) = b ":memory:")) false o = false ↔
  (mem = false → ∀ p, o = Some p → trim (b p) ≠ b ":memory:").
Proof.
  rewrite andb_false_iff, negb_false_iff. destruct mem; [split; [done|by left]|].
  destruct o as [p|]; cbn [from_option]; [rewrite bool_decide_eq_false; naive_solver|]. split; [done|by right].
Qed.

Lemma validate_storage_ok cfg mem :
  validate_storage cfg mem = Ok tt ↔ ∃ s, storage cfg = Some s ∧ storage_ok mem s.
Proof.
  unfold validate_storage. destruct (storage cfg) as [s|]; [|split; [done|by intros (? & [=] & _)]].
  transitivity (storage_ok mem s); [|naive_solver]. gates. rewrite validate_usage_index_ok. unfold MAX_STORAGE_REQUEST_TIMEOUT_MS.
  transitivity (((ui_max_batch (usage_index s) ≠ 0 ∧ ui_max_batch (usage_index s) ≤ Z.min MAX_USAGE_INDEX_BATCH (ui_buffer_capacity (usage_index s))) ∧
    (ui_buffer_capacity (usage_index s) ≠ 0 ∧ ui_buffer_capacity (usage_index s) ≤ MAX_PERMITS) ∧ ui_flush_interval_ms (usage_index s) ≤ 86400000) ∧
    request_timeout_ms s ≠ 0 ∧ request_timeout_ms s ≤ 60000 ∧
    match st_backend s with
             | Sqlite => given (st_path s) ∧ ¬ given (st_dsn_env s) ∧
                 (mem = false → ∀ p, st_path s = Some p → trim (b p) ≠ b ":memory:")
             | PostgresStore => given (st_dsn_env s) ∧ ¬ given (st_path s)
             end).
  - do 3 apply and_iff_compat_l. destruct (st_backend s); gates; [rewrite memory_path; tauto|done].
  - split; [intros ((? & ? & ?) & ? & ? & ?); by split|]. intros []. tauto.
Qed.

Lemma queue_together q w : xorb (q =? 0) (w =? 0) = false ↔ (q = 0 ↔ w = 0).
Proof. destruct (Z.eqb_spec q 0), (Z.eqb_spec w 0); cbn; naive_solver. Qed.

Lemma implied4 (p q r s : bool) : p && q && r && s = false ↔ (p = true → q = true → r = true → s = false).
Proof. destruct p, q, r, s; naive_solver. Qed.

Lemma implied3 (p q s : bool) : p && q && s = false ↔ (p = true → q = true → s = false).
Proof. destruct p, q, s; naive_solver. Qed.

Lemma implied2 (p s : bool) : p && s = false ↔ (p = true → s = false).
Proof. destruct p, s; naive_solver. Qed.

Lemma validate_admission_ok a : validate_admission a = Ok tt ↔ admission_ok a.
Proof.
  unfold validate_admission. cbv zeta. gates. rewrite !exceeds_permits_ok, queue_together, !implied4, !implied3, !implied2.
  cbn [snd]. rewrite ?Z.ltb_ge, ?Z.ltb_lt, ?Z.eqb_neq.
  split.
  - intros (? & ? & ? & ? & (? & ? & ? & ? & ? & _) & ? & ? & ?). split; try done. by repeat constructor.
  - intros [? ? ? ? Hp ? ? ?]. rewrite !list.Forall_cons in Hp. split_and!; try done; apply Hp.
Qed.

Lemma validate_schedule_ok c :
  validate_schedule (schedule c) = Ok tt ↔
  refresh_interval_seconds c ≠ 0 ∧ refresh_timeout_seconds c ≠ 0 ∧ retry_initial_seconds c ≠ 0 ∧
  refresh_timeout_seconds c ≤ refresh_interval_seconds c ∧
  retry_initial_seconds c ≤ retry_max_seconds c ≤ refresh_interval_seconds c.
Proof.
  unfold validate_schedule, schedule, Backoff.validate, NANOS_PER_SEC. cbn -[Z.mul Z.eqb Z.ltb].
  repeat match goal with |- context [?x =? ?y] => destruct (Z.eqb_spec x y) | |- context [?x <? ?y] => destruct (Z.ltb_spec x y) end;
    cbn -[Z.mul]; (split; intros; [first [done|split_and!; lia]|first [done|exfalso; lia]]).
Qed.

Section Exact.
Context (url_parse : string → result string Url).

Lemma validate_source_ok c :
  validate_source url_parse c = Ok tt ↔
  match source c with
    | ModelsDev => ∃ u, url_parse (url c) = Ok u ∧ url_scheme u = "https" ∧ url_host u ≠ None ∧
        has_authority (url c) = true ∧ url_username u = "" ∧ url_password u = None ∧ adapter_new (url c) = Ok tt
    | _ => source_url c = None
    end.
Proof.
  unfold validate_source. destruct (source c).
  - gates. by rewrite negb_false_iff, bool_decide_eq_true.
  - destruct (url_parse (url c)) as [u|e]; cbn [map_err mbind result_bind].
    + gates. rewrite !orb_false_iff, !negb_false_iff, bool_decide_eq_false, !bool_decide_eq_true. naive_solver.
    + split; [done|]. by intros (? & [=] & _).
  - gates. by rewrite negb_false_iff, bool_decide_eq_true.
Qed.

Lemma validate_retention_ok c :
  validate_retention c = Ok tt ↔
  (cat_store c = CatalogPostgres → given (cat_dsn_env c) ∧ ∀ s, cat_schema c = Some s → identifier (b s)).
Proof.
  unfold validate_retention. destruct (cat_store c); [split; done|]. gates.
  destruct (cat_schema c) as [s|]; [unfold validate_schema_name; rewrite validate_schema_ok|]; naive_solver.
Qed.

Lemma validate_catalog_ok c :
  validate_catalog url_parse c = Ok tt ↔ (source c ≠ SourceNone → catalog_ok url_parse c).
Proof.
  unfold validate_catalog, enabled. destruct (source c) eqn:Hs; cbn [negb]; [split; done| |].
  all: gates; cbn [snd]; rewrite validate_schedule_ok, validate_source_ok, validate_retention_ok, Hs; split;
    [intros ((? & ? & ? & ? & ? & ? & _) & ? & (? & ? & ? & ? & ?) & ? & ?) _; split; rewrite ?Hs; [by repeat constructor|done..]
    |intros Hc; destruct Hc as [Hn Hp Hso Hr]; [done|]; rewrite Hs in Hso; rewrite !list.Forall_cons in Hn; split_and!; try done; apply Hn || apply Hp].
Qed.

Lemma key_source_given k :
  (∃ src, key_source k = Some src) ↔
  negb (blank (default "" (gk_env k))) && negb (blank (default "" (gk_file k))) = false ∧
  blank (default "" (gk_env k)) && blank (default "" (gk_file k)) = false.
Proof.
  assert (blank "" = true) as He by done.
  unfold key_source. destruct (gk_env k) as [e|], (gk_file k) as [f|]; cbn [default from_option id mbind option_bind];
    rewrite ?He; try destruct (blank e); try destruct (blank f); cbn; naive_solver.
Qed.

Lemma validate_gateway_keys_ok cfg :
  validate_gateway_keys cfg = Ok tt ↔
  ∃ k src, gateway_key cfg = [k] ∧ key_source k = Some src ∧ gk_namespace k ∈ Creds.n_id <$> namespaces cfg.
Proof.
  unfold validate_gateway_keys. destruct (gateway_key cfg) as [|k [|k' ks]]; [split; [done|naive_solver]| |split; [done|naive_solver]].
  unfold validate_gateway_key. cbv zeta. gates. rewrite negb_false_iff, has_namespace_true. pose proof (key_source_given k). naive_solver.
Qed.

(** The labels are those of the credentials seen. *)
Definition labels_of (cs : list Creds.Credential) (labels : Labels) : Prop :=
  ∀ ns p l, l ∈ default [] (labels !! (ns, p)) ↔ (ns, p, l) ∈ (λ c, (Creds.c_namespace c, Creds.c_provider c, Creds.label c)) <$> cs.

Definition credential_ok (cfg : Config) (c : Creds.Credential) : Prop :=
  given (Creds.c_env c) ∧ Creds.c_weight c ≠ 0 ∧
  Creds.c_namespace c ∈ Creds.n_id <$> namespaces cfg ∧ Creds.c_provider c ∈ Dispatch.provider_id <$> provider cfg.

Lemma validate_credential_ok cfg cs labels c :
  labels_of cs labels →
  match validate_credential cfg labels c with
  | Ok labels' => labels_of (cs ++ [c])%list labels' ∧ credential_ok cfg c ∧
      (Creds.c_namespace c, Creds.c_provider c, Creds.label c) ∉ (λ c, (Creds.c_namespace c, Creds.c_provider c, Creds.label c)) <$> cs
  | Err _ => ¬ (credential_ok cfg c ∧
      (Creds.c_namespace c, Creds.c_provider c, Creds.label c) ∉ (λ c, (Creds.c_namespace c, Creds.c_provider c, Creds.label c)) <$> cs)
  end.
Proof.
  intros Hl. pose proof (Hl (Creds.c_namespace c) (Creds.c_provider c) (Creds.label c)) as Hin.
  pose proof (has_namespace_true cfg (Creds.c_namespace c)) as Hns. pose proof (has_provider_true cfg (Creds.c_provider c)) as Hp.
  pose proof (absent_false (Creds.c_env c)) as He. unfold validate_credential, credential_ok. cbv zeta.
  destruct (absent (Creds.c_env c)); cbn [refuse_if mbind result_bind]; [naive_solver|].
  destruct (Z.eqb_spec (Creds.c_weight c) 0); cbn [refuse_if mbind result_bind]; [naive_solver|].
  destruct (bool_decide_reflect (Creds.label c ∈ default [] (labels !! (Creds.c_namespace c, Creds.c_provider c))));
    cbn [refuse_if mbind result_bind]; [naive_solver|].
  destruct (has_namespace cfg _); cbn [negb refuse_if mbind result_bind]; [|naive_solver].
  destruct (has_provider cfg _); cbn [negb refuse_if mbind result_bind]; [|naive_solver].
  split_and!; [|naive_solver..]. unfold labels_of in Hl. intros ns p l. rewrite fmap_app, elem_of_app, <-Hl. cbn [fmap list_fmap]. rewrite list_elem_of_singleton.
  destruct (decide ((ns, p) = (Creds.c_namespace c, Creds.c_provider c))) as [Heq|Heq].
  - rewrite Heq. rewrite lookup_insert_eq. cbn [default from_option id]. rewrite elem_of_app, list_elem_of_singleton. simplify_eq. naive_solver.
  - rewrite lookup_insert_ne by done. naive_solver.
Qed.

Lemma validate_credentials_ok cfg seen labels cs :
  labels_of seen labels →
  NoDup ((λ c, (Creds.c_namespace c, Creds.c_provider c, Creds.label c)) <$> seen) →
  validate_credentials cfg labels cs = Ok tt ↔
  Forall (credential_ok cfg) cs ∧ NoDup ((λ c, (Creds.c_namespace c, Creds.c_provider c, Creds.label c)) <$> (seen ++ cs)%list).
Proof.
  revert seen labels. induction cs as [|c cs IH]; intros seen labels Hl Hn; cbn [validate_credentials].
  - rewrite app_nil_r. split; [by split|done].
  - pose proof (validate_credential_ok cfg seen labels c Hl) as Hc.
    destruct (validate_credential cfg labels c) as [labels'|e]; cbn [mbind result_bind].
    + destruct Hc as (Hl' & Hok & Hnew). rewrite (IH (seen ++ [c])%list); [|done|].
      * rewrite list.Forall_cons, <-app_assoc. cbn. tauto.
      * rewrite fmap_app. apply NoDup_app. split_and!; [done| |apply NoDup_singleton]. intros x Hx Hx'.
        apply list_elem_of_singleton in Hx' as ->. done.
    + split; [done|]. rewrite list.Forall_cons, fmap_app. intros [[Hok _] Hd]. exfalso. apply Hc. split; [done|].
      apply NoDup_app in Hd as (_ & Hd & _). intros Hin. apply (Hd _ Hin). cbn. apply list_elem_of_here.
Qed.


Lemma validate_usage_sink_ok s : validate_usage_sink s = Ok tt ↔ (Sink.kind s = Sink.Postgres → sink_ok s).
Proof.
  unfold validate_usage_sink. destruct (Sink.kind s); [split; done| |split; done]. gates. cbn [snd].
  rewrite validate_table_name_ok, implied2, Z.ltb_ge. split.
  - intros (? & ? & ? & ? & ? & ?) _. by split.
  - intros H. destruct (H eq_refl). tauto.
Qed.

Lemma ConsumerId_parse_ok name (f : Journal.InvalidConsumerId → ConfigError) (k : Gate) :
  (_ ← map_err f (Journal.ConsumerId_parse name); k) = Ok tt ↔
  (name ≠ "" ∧ (length (b name) ≤ 63)%nat ∧ Forall (λ c, Journal.consumer_char c = true) (b name)) ∧ k = Ok tt.
Proof.
  unfold Journal.ConsumerId_parse, Journal.MAX_LEN. destruct (bool_decide_reflect (name = "")); cbn [map_err mbind result_bind]; [naive_solver|].
  destruct (Nat.ltb_spec 63 (length (b name))); cbn [map_err mbind result_bind]; [split; [done|]; intros ((_ & ? & _) & _); lia|].
  destruct (list_find (λ c, Journal.consumer_char c = false) (b name)) as [[i c]|] eqn:Hf; cbn.
  - split; [done|]. intros ((_ & _ & Hall) & _). apply list_find_Some in Hf as (Hi & Hc & _).
    rewrite list.Forall_forall in Hall. apply list_elem_of_lookup_2 in Hi. by rewrite (Hall _ Hi) in Hc.
  - apply list_find_None in Hf. split; [|tauto]. intros ->. split; [|done]. split_and!; [done|lia|].
    apply list.Forall_forall. intros c Hc. rewrite list.Forall_forall in Hf. specialize (Hf c Hc). by destruct (Journal.consumer_char c).
Qed.

Lemma some_sink sinks :
  forallb (λ s, match Sink.kind s with Sink.Otlp => true | _ => false end) sinks = false ↔
  ∃ s, s ∈ sinks ∧ Sink.kind s ≠ Sink.Otlp.
Proof.
  rewrite <-not_true_iff_false, forallb_true, list.Forall_forall. split.
  - intros H. induction sinks as [|s sinks IH]; [exfalso; apply H; by intros x ?%elem_of_nil|].
    destruct (Sink.kind s) eqn:Hk; [exists s; split; [apply list_elem_of_here|by rewrite Hk]..|].
    destruct IH as (x & Hx & Hn); [|exists x; split; [by apply list_elem_of_further|done]].
    intros Hall. apply H. intros x [->|Hx]%elem_of_cons; [by rewrite Hk|by apply Hall].
  - intros (s & Hs & Hn) Hall. specialize (Hall s Hs). by destruct (Sink.kind s).
Qed.

Lemma validate_usage_journal_ok cfg :
  validate_usage_journal cfg = Ok tt ↔ (j_backend (usage_journal cfg) = JPostgres → journal_ok (usage_journal cfg) (usage_sink cfg)).
Proof.
  unfold validate_usage_journal. cbv zeta. set (j := usage_journal cfg). destruct (j_backend j); cbn [is_enabled negb]; [split; done|].
  rewrite seq_ok, seq_ok, ConsumerId_parse_ok. gates. rewrite some_sink, bool_decide_eq_false. cbn [snd].
  assert (match j_schema j with
        | Some schema => _ ← map_err (λ m, Invalid ("usage_journal `schema`: " +:+ m)) (validate_table_name schema);
            refuse_if (qualified schema)
              ("usage_journal `schema`: " +:+ quoted schema +:+ " is qualified, but a search path takes one unqualified schema name")
        | None => Ok tt end = Ok tt ↔ ∀ s, j_schema j = Some s → identifier (b s)) as ->
    by (destruct (j_schema j); [rewrite validate_schema_ok|]; naive_solver).
  split.
  - intros (? & ? & ? & ? & ? & ? & ? & (? & ? & ? & ? & ? & _) & ? & ?) _. split; try done. by repeat constructor.
  - intros H. destruct (H eq_refl) as [Hd Hs Hc Hn Hcn Hk]. rewrite !list.Forall_cons in Hn.
    split_and!; try done; try (apply Hn || apply Hc). intros He. destruct Hk as (s & Hk & _). rewrite He in Hk. by apply elem_of_nil in Hk.
Qed.

Lemma one_default {A} (l : list A) : (length l =? 1)%nat = true ↔ ∃ n, l = [n].
Proof. rewrite Nat.eqb_eq. destruct l as [|x [|]]; cbn; naive_solver lia. Qed.

Lemma validate_price_book_ok cfg :
  validate_price_book cfg = Ok tt ↔
  Forall (λ r, trim (b (Pricing.rule_provider r)) ≠ [] ∧ trim (b (Pricing.rule_model r)) ≠ [] ∧
    Pricing.rule_provider r ∈ Dispatch.provider_id <$> provider cfg ∧ Aliases.glob_grammar (b (Pricing.rule_model r))) (price cfg).
Proof.
  unfold validate_price_book. rewrite for_each_ok. apply list.Forall_iff. intros r. gates.
  rewrite orb_false_iff, !blank_false, negb_false_iff, has_provider_true, glob_gate_ok. tauto.
Qed.

Lemma withdrawn_ok cfg :
  reject_withdrawn_sections cfg = Ok tt ↔ ∀ k, k ∈ WITHDRAWN_SECTIONS → k ∉ unrecognized cfg.
Proof.
  unfold reject_withdrawn_sections. cbv zeta.
  destruct (filter (λ key, key ∈ unrecognized cfg) WITHDRAWN_SECTIONS) as [|k ks] eqn:Hf; cbn [fmap list_fmap].
  - split; [|done]. intros _ k Hk Hin. assert (k ∈ filter (λ key, key ∈ unrecognized cfg) WITHDRAWN_SECTIONS) as Hkf
      by by apply list_elem_of_filter. rewrite Hf in Hkf. by apply elem_of_nil in Hkf.
  - split; [done|]. intros H. assert (k ∈ filter (λ key, key ∈ unrecognized cfg) WITHDRAWN_SECTIONS) as Hkf
      by (rewrite Hf; apply list_elem_of_here). apply list_elem_of_filter in Hkf as [Hin Hk]. by destruct (H k Hk).
Qed.

(** The gate refuses a configuration exactly if something is wrong with it. *)
Lemma validate_inner_ok cfg mem :
  validate_inner url_parse cfg mem = Ok tt ↔ config_ok url_parse mem cfg.
Proof.
  unfold validate_inner, validate_resource_graph, validate_process_local_bounds, validate_usage_sinks, validate_blocklist. cbv zeta.
  gates. rewrite withdrawn_ok, validate_storage_ok, validate_price_book_ok, validate_admission_ok, validate_catalog_ok,
    validate_gateway_keys_ok, validate_usage_journal_ok, negb_false_iff, one_default. cbn [snd].
  rewrite (validate_credentials_ok cfg [] ∅);
    [|by intros ns p l; rewrite lookup_empty; cbn; split; [intros Hl; by apply elem_of_nil in Hl|intros Hl; by apply elem_of_nil in Hl]|apply NoDup_nil_2].
  assert (∀ gs, Forall (λ g, glob_gate "blocklist" g = Ok tt) gs ↔ ∀ g, g ∈ gs → Aliases.glob_grammar (b g)) as ->
    by (intros gs; rewrite list.Forall_forall; split; intros H g Hg; specialize (H g Hg); by apply (glob_gate_ok "blocklist")).
  assert (Forall (λ s, validate_usage_sink s = Ok tt) (usage_sink cfg) ↔ ∀ s, s ∈ usage_sink cfg → Sink.kind s = Sink.Postgres → sink_ok s) as ->
    by (rewrite list.Forall_forall; split; intros H s Hs; specialize (H s Hs); by apply validate_usage_sink_ok).
  rewrite !list.Forall_forall. cbn [app].
  split.
  - intros (? & ? & ? & ? & ? & ? & ? & ? & ? & ? & ? & ? & (? & (? & ? & ? & ? & ? & ? & ? & _) & ? & (? & ? & _) & ?) & (? & ?) & ? & ? & ?).
    split; try done. by repeat constructor.
  - intros [? ? ? ? Hp ? Hn ? ? ? Hc ? ? ? ?]. rewrite !list.Forall_cons in Hn. split_and!; try done; apply Hn.
Qed.
End Exact.

(** ** Theorems *)

Lemma glob_live g : Aliases.glob_grammar g → ∃ v, Aliases.glob_permits g v = true.
Proof.
  intros Hg. destruct Hg as [p Hne Hp|p Hp|p Hp].
  - exists p. apply Aliases.glob_permits_grammar; [by constructor|]. by apply Aliases.matches_literal.
  - exists p. apply Aliases.glob_permits_grammar; [by constructor|]. apply Aliases.matches_prefix; [done|]. exists []. by rewrite app_nil_r.
  - exists p. apply Aliases.glob_permits_grammar; [by constructor|]. apply Aliases.matches_suffix; [done|]. by exists [].
Qed.

Lemma settings_bounded i :
  0 ≤ ui_buffer_capacity i → 0 ≤ ui_max_batch i →
  ui_max_batch i ≠ 0 ∧ ui_max_batch i ≤ Z.min MAX_USAGE_INDEX_BATCH (ui_buffer_capacity i) →
  ui_buffer_capacity i ≠ 0 ∧ ui_buffer_capacity i ≤ MAX_PERMITS → Sink.bounded (settings i) = settings i.
Proof.
  intros H1 H2 H3 H4. unfold Sink.bounded, settings. cbn [Sink.capacity Sink.max_batch Sink.flush_interval Sink.write_timeout].
  rewrite (Z.max_r 1 (ui_buffer_capacity i)) by lia. f_equal. lia.
Qed.

Lemma batch_fits s :
  0 ≤ Sink.buffer_capacity s → 0 ≤ Sink.sink_max_batch s → Sink.buffer_capacity s ≠ 0 → Sink.sink_max_batch s ≠ 0 →
  (0 < Z.to_nat (Z.min (Sink.sink_max_batch s) (Sink.buffer_capacity s)) ≤ Z.to_nat (Sink.buffer_capacity s))%nat.
Proof. lia. Qed.

Lemma schedule_policy_ok c :
  retry_initial_seconds c ≠ 0 → retry_initial_seconds c ≤ retry_max_seconds c →
  0 ≤ retry_initial_seconds c → 0 ≤ retry_max_seconds c → retry_max_seconds c ≤ U64_MAX →
  Backoff.policy_ok (backoff (schedule c)).
Proof.
  intros H1 H2 H3 H4 H5. unfold Backoff.policy_ok, Backoff.validate, schedule, DURATION_MAX, NANOS_PER_SEC, in_width.
  cbn [Backoff.initial Backoff.max Backoff.multiplier backoff].
  rewrite (proj2 (Z.eqb_neq _ _)), (proj2 (Z.ltb_ge 2 2)), (proj2 (Z.ltb_ge _ _)) by lia.
  split_and!; [done|lia|lia|lia|done|done].
Qed.

Lemma bound_permits v : v ≤ MAX_PERMITS → match Adm.bound v with Some n => 0 < n ≤ MAX_PERMITS | None => True end.
Proof. intros Hv. unfold Adm.bound. by destruct (Z.ltb_spec 0 v). Qed.

Lemma consumer_accepted name :
  name ≠ "" → (length (b name) ≤ 63)%nat → Forall (λ c, Journal.consumer_char c = true) (b name) →
  Journal.ConsumerId_parse name = Ok name.
Proof.
  intros Hne Hl Hc. pose proof (ConsumerId_parse_ok (λ _, Err "") name (λ _, Load "") (Ok tt)) as H.
  apply proj2 in H. specialize (H (conj (conj Hne (conj Hl Hc)) eq_refl)). revert H.
  unfold Journal.ConsumerId_parse. rewrite bool_decide_false by done.
  destruct (Journal.MAX_LEN <? length (b name))%nat; [done|]. by destruct (list_find _ _) as [[]|].
Qed.

(** What the other components are handed. *)
Definition credentials_config (cfg : Config) : Creds.Config :=
  Creds.mkConfig (credential cfg) (namespaces cfg) (strategy (credential_pool cfg))
    (pool_failure_threshold (credential_pool cfg)) (pool_cooldown_seconds (credential_pool cfg)).

Definition plan (s : Shutdown) : Lifecycle.Plan := Lifecycle.plan_from (drain_grace_ms s) (deadline_ms s) (flush_timeout_ms s).

Lemma default_declared cfg :
  (∃ n, filter (λ n, Creds.n_default n = true) (namespaces cfg) = [n]) →
  ∃ n, n ∈ namespaces cfg ∧ Creds.n_default n = true ∧ Creds.default_namespace (credentials_config cfg) = Creds.n_id n.
Proof.
  intros [n Hn]. unfold Creds.default_namespace. cbn.
  destruct (list_find (λ n, Creds.n_default n = true) (namespaces cfg)) as [[i m]|] eqn:Hf.
  - apply list_find_Some in Hf as (Hi & Hm & _). exists m. split_and!; [by eapply list_elem_of_lookup_2|done|done].
  - apply list_find_None in Hf. assert (n ∈ filter (λ n, Creds.n_default n = true) (namespaces cfg)) as Hin
      by (rewrite Hn; apply list_elem_of_here). apply list_elem_of_filter in Hin as [Hd Hin].
    rewrite list.Forall_forall in Hf. by destruct (Hf n Hin).
Qed.

(** Every number is an unsigned one, of at most 64 bits. *)
Definition in_widths (cfg : Config) : Prop :=
  Forall is_u64 ([target_failure_threshold (failover cfg); deadline_ms (shutdown cfg); flush_timeout_ms (shutdown cfg);
     max_events (usage_journal cfg); max_delivery_attempts (usage_journal cfg);
     refresh_interval_seconds (catalog cfg); refresh_timeout_seconds (catalog cfg);
     retry_initial_seconds (catalog cfg); retry_max_seconds (catalog cfg)] ++
    concat ((λ s, [Sink.buffer_capacity s; Sink.sink_max_batch s]) <$> usage_sink cfg) ++
    match storage cfg with Some s => [ui_buffer_capacity (usage_index s); ui_max_batch (usage_index s)] | None => [] end)%list.


Section Theorems.
Context (url_parse : string → result string Url).


(** C33: what passed the gate is what the components ask for.  With an accepted
    configuration the default namespace is a declared one, never the fallback
    name; every price rule and blocklist entry matches some model; the index
    worker applies its settings as written; every Postgres sink's batches are
    non-empty and fit its buffer; the journal can hold an event and deliver it
    once, under a name the journal accepts; a target's circuit opens at the
    threshold written; a catalogue import's backoff is valid; every ceiling fits
    a semaphore and the shutdown's waits are bounded and not empty. *)
Theorem loaded_serves_components extracted cfg :
  load url_parse extracted = Ok cfg → in_widths cfg →
  (∃ n, n ∈ namespaces cfg ∧ Creds.n_default n = true ∧ Creds.default_namespace (credentials_config cfg) = Creds.n_id n) ∧
  (∀ g, g ∈ blocklist_models cfg ∨ g ∈ Pricing.rule_model <$> price cfg → ∃ v, Aliases.glob_permits (b g) v = true) ∧
  (∃ s, storage cfg = Some s ∧ Sink.bounded (settings (usage_index s)) = settings (usage_index s)) ∧
  (∀ s, s ∈ usage_sink cfg → Sink.kind s = Sink.Postgres →
    (0 < Batch.max_batch (batch_settings s) ≤ Batch.capacity (batch_settings s))%nat) ∧
  (j_backend (usage_journal cfg) = JPostgres →
    1 ≤ Journal.max_events (journal_capacity (usage_journal cfg)) ∧
    1 ≤ Journal.max_delivery_attempts (journal_capacity (usage_journal cfg)) ∧
    Journal.ConsumerId_parse (consumer (usage_journal cfg)) = Ok (consumer (usage_journal cfg))) ∧
  (∀ cool, Circuit.threshold (Circuit.new (target_failure_threshold (failover cfg)) cool) = target_failure_threshold (failover cfg)) ∧
  (source (catalog cfg) ≠ SourceNone → Backoff.policy_ok (backoff (schedule (catalog cfg)))) ∧
  Forall (λ v, match v with Some n => 0 < n ≤ MAX_PERMITS | None => True end)
    [Adm.max_in_flight (Adm.limits_from (admission_config (admission cfg)));
     Adm.max_in_flight_streams (Adm.limits_from (admission_config (admission cfg)));
     Adm.queue_capacity (Adm.limits_from (admission_config (admission cfg)));
     Settlement.max_pending (Settlement.limits_from (admission_config (admission cfg)));
     Settlement.max_in_flight (Settlement.limits_from (admission_config (admission cfg)))] ∧
  0 < Lifecycle.deadline (plan (shutdown cfg)) ∧ 0 < Lifecycle.flush_timeout (plan (shutdown cfg)).
Proof.
  intros Hload Hw. assert (config_ok url_parse false cfg) as Hok.
  { unfold load in Hload. destruct extracted as [c|e]; [|done]. cbn in Hload.
    destruct (validate_inner url_parse c false) as [[]|e] eqn:Hv; unfold validate in Hload; rewrite Hv in Hload; [|done].
    cbn in Hload. assert (c = cfg) as <- by congruence. by apply validate_inner_ok. }
  unfold in_widths in Hw. destruct Hok as [Hwd Hst Hdi Hdef Hpr Hbl Hnz Hbo Hadm Hcat Hcr Hlab Hkey Hsk Hj].
  rewrite !list.Forall_app, !list.Forall_cons in Hw. rewrite !list.Forall_cons in Hnz. unfold in_width in Hw.
  split_and!.
  - by apply default_declared.
  - intros g [Hg|Hg]; [by apply glob_live, Hbl|]. apply list_elem_of_fmap in Hg as (r & -> & Hr). apply glob_live, (Hpr r Hr).
  - destruct Hst as (s & Hs & [Hb Hq _ _ _]). exists s. split; [done|]. rewrite Hs, !list.Forall_cons in Hw.
    apply settings_bounded; [lia..|done|done].
  - intros s Hin Hk. destruct (Hsk s Hin Hk) as [(? & ? & _) Hb _ _]. destruct Hw as (_ & Hw & _).
    rewrite list.Forall_forall in Hw. unfold batch_settings. cbn.
    assert (0 ≤ Sink.buffer_capacity s ∧ 0 ≤ Sink.sink_max_batch s) as [? ?].
    { split; apply Hw, list_elem_of_In, in_concat; exists [Sink.buffer_capacity s; Sink.sink_max_batch s];
        (split; [apply list_elem_of_In, list_elem_of_fmap; by exists s|cbn; auto]). }
    by apply batch_fits.
  - intros Hp. destruct (Hj Hp) as [_ _ (Hc1 & Hc2 & Hc3) Hn _ _]. rewrite !list.Forall_cons in Hn. cbn.
    destruct Hn as (Hn1 & Hn2 & _), Hw as ((_ & _ & _ & [Hw1 _] & [Hw2 _] & _) & _). clear -Hc1 Hc2 Hc3 Hn1 Hn2 Hw1 Hw2.
    split_and!; [lia|lia|by apply consumer_accepted].
  - intros cool. cbn. destruct Hnz as (_ & _ & _ & _ & Hn & _), Hw as (([Hw _] & _) & _). clear -Hn Hw. lia.
  - intros Hs. destruct (Hcat Hs) as [Hn Hp _ _]. rewrite !list.Forall_cons in Hn.
    destruct Hn as (_ & _ & Hn & _), Hw as ((_ & _ & _ & _ & _ & _ & _ & [Hw1 _] & [Hw2 Hw3] & _) & _), Hp as [_ [Hp _]].
    clear -Hn Hp Hw1 Hw2 Hw3. by apply schedule_policy_ok.
  - destruct Hadm as [_ _ _ _ Hp _ _ _]. rewrite !list.Forall_cons in Hp. clear -Hp. unfold Adm.limits_from, Settlement.limits_from. cbn.
    repeat (constructor; [apply bound_permits, Hp|]). constructor.
  - destruct Hnz as (_ & _ & _ & _ & _ & _ & _ & _ & _ & _ & _ & _ & _ & Hn & _), Hw as ((_ & [Hw _] & _) & _). cbn. clear -Hn Hw. lia.
  - destruct Hnz as (_ & _ & _ & _ & _ & _ & _ & _ & _ & _ & _ & _ & _ & _ & Hn & _), Hw as ((_ & _ & [Hw _] & _) & _). cbn. clear -Hn Hw. lia.
Qed.

End Theorems.

Ltac ceilings :=
  cbn [admission_config Adm.cfg_max_request_bytes Adm.cfg_max_in_flight Adm.cfg_max_in_flight_streams
    Adm.cfg_max_in_flight_per_tenant Adm.cfg_max_tenants Adm.cfg_queue_capacity Adm.cfg_queue_wait_ms
    Adm.cfg_max_pending_settlements Adm.cfg_max_in_flight_settlements per_tenant_explicit streams_explicit
    pending_explicit] in *.

(** an operator is never told to fix a ceiling they did not write.  Whatever
    [max_in_flight] the [admission] section states, and with the sub-ceilings left
    out, the section as loaded is refused only for what it does state; the streams
    ceiling does not exceed it, a tenant's stays below it or is off, and the
    settlement ceiling covers it. *)
Theorem defaulted_ceilings_follow w :
  w_max_in_flight_streams w = None → w_max_in_flight_per_tenant w = None → w_max_pending_settlements w = None →
  0 ≤ w_max_in_flight w ≤ MAX_PERMITS →
  (admission_ok (deserialize w) ↔
    w_max_request_bytes w ≠ 0 ∧
    (w_max_in_flight w = 0 ∨ default_max_in_flight_per_tenant < w_max_in_flight w → w_max_tenants w ≠ 0) ∧
    w_queue_capacity w ≤ MAX_PERMITS ∧ w_max_in_flight_settlements w ≤ MAX_PERMITS ∧
    (w_queue_capacity w = 0 ↔ w_queue_wait_ms w = 0) ∧ (0 < w_queue_capacity w → w_max_in_flight w ≠ 0)) ∧
  (0 < w_max_in_flight w →
    Adm.cfg_max_in_flight_streams (admission_config (deserialize w)) ≤ w_max_in_flight w ∧
    Adm.cfg_max_in_flight_per_tenant (admission_config (deserialize w)) < w_max_in_flight w ∧
    w_max_in_flight w ≤ Adm.cfg_max_pending_settlements (admission_config (deserialize w))).
Proof.
  intros Hs Ht Hp Hm. unfold deserialize. rewrite Hs, Ht, Hp. cbn [clamp].
  unfold default_max_pending_settlements, default_max_in_flight, default_max_in_flight_per_tenant, default_max_in_flight_streams, MAX_PERMITS in *.
  unfold saturating_mul, U64_MAX.
  destruct (Z.ltb_spec 0 (w_max_in_flight w)), (Z.leb_spec (w_max_in_flight w) 256); cbn [andb];
    (split; [split|]; 
    [intros [H1 H2 H3 H4 H5 H6 H7 H8]; ceilings; rewrite !list.Forall_cons in H5; unfold MAX_PERMITS in *; split_and!; try done; lia
    |intros (H1 & H2 & H3 & H4 & H5 & H6); split; ceilings; try done; try lia; repeat constructor; unfold MAX_PERMITS; lia
    |ceilings; lia]).
Qed.

(** ** Witnesses *)

Definition demo_url_parse (s : string) : result string Url :=
  if bool_decide (s = MODELS_DEV_CATALOG_URL) then Ok (mkUrl "https" (Some "models.dev") "" None) else Err "no host".

Definition demo_sink : UsageSinkConfig := Sink.mkSinkConfig Sink.Postgres (Some "GW_USAGE_DSN") (Some "billing.usage_rows") false 10000 500 false 1000.

Definition demo_config_with (sinks : list UsageSinkConfig) (a : AdmissionSection) (imported : CatalogConfig) : Config := {|
  server_bind := "0.0.0.0:8080";
  storage := Some (mkStorageConfig Sqlite (Some "/var/lib/axond.db") None UDeny true usage_index_default 3000);
  namespaces := [Creds.mkNamespace "acme" true false];
  provider := [Dispatch.mkProvider "openai" Dispatch.KOpenai "https://api.openai.com"];
  price := [Pricing.mkRule "openai" "gpt-*" (Pricing.mkPrice 1 2 None None None)];
  blocklist_models := ["*-preview"];
  credential := [Creds.mkCredential "acme" "openai" (Some "GW_OPENAI") None 1];
  credential_pool := credential_pool_default;
  failover := failover_default;
  transport := transport_default;
  shutdown := shutdown_default;
  gateway_key := [mkGatewayKey (Some "GW_KEY") (Some " ") "acme"];
  usage_sink := sinks;
  usage_journal := usage_journal_default;
  admission := a;
  catalog := imported;
  discovery_interval_seconds := 300;
  unrecognized := ∅;
|}.

Definition demo_config (sinks : list UsageSinkConfig) (a : AdmissionSection) : Config :=
  demo_config_with sinks a catalog_default.

Definition loads (cfg : Config) : bool := is_ok (load demo_url_parse (Ok cfg)).

(** The shipped defaults pass, and a sink whose table would carry a statement does
    not. *)
Example defaults_load : loads (demo_config [demo_sink] admission_default) = true.
Proof. vm_compute. done. Qed.

Example injected_table_refused :
  load demo_url_parse (Ok (demo_config [Sink.mkSinkConfig Sink.Postgres (Some "D") (Some "t; drop table t") false 1 1 false 1] admission_default)) =
  Err (Invalid "usage_sink `postgres`: `t; drop table t` is not a valid table name: use lowercase letters, digits, and underscores").
Proof. vm_compute. done. Qed.

(** An import from models.dev, retained here or there. *)
Definition demo_import (store : CatalogStoreBackend) (dsn : option string) : CatalogConfig :=
  mkCatalogConfig ModelsDev store None dsn None true 21600 60 60 3600 BootstrapEmpty MAX_PAYLOAD_BYTES 10000 30000.

(** A catalogue imported into memory loads beside a durable store; the comments of
    the section have it refused. *)
Theorem in_memory_retention_loads : loads (demo_config_with [demo_sink] admission_default (demo_import InMemory None)) = true.
Proof. vm_compute. done. Qed.

(** Postgres retention without a DSN of its own is refused although the deployment
    names another database; the comment of the field has it default to that one. *)
Theorem retention_needs_its_own_dsn :
  load demo_url_parse (Ok (demo_config_with [demo_sink] admission_default (demo_import CatalogPostgres None))) =
  Err (Invalid "catalog `postgres`: `dsn_env` must name the env var holding the connection string").
Proof. vm_compute. done. Qed.


Lemma loaded_serves_components_witness :
  Creds.default_namespace (credentials_config (demo_config [demo_sink] admission_default)) = "acme".
Proof.
  destruct (loaded_serves_components demo_url_parse (Ok (demo_config [demo_sink] admission_default))
    (demo_config [demo_sink] admission_default)) as [(n & Hn & _ & ->) _].
  - assert (loads (demo_config [demo_sink] admission_default) = true) as Hl by apply defaults_load.
    unfold loads, load in *. cbn [map_err mbind result_bind] in *.
    destruct (validate demo_url_parse (demo_config [demo_sink] admission_default)); [done|by cbn in Hl].
  - unfold in_widths. cbn. repeat constructor; width_lia.
  - by apply list_elem_of_singleton in Hn as ->.
Defined.

Definition demo_wire : AdmissionConfigWire :=
  mkWire 1024 16 None None 1 0 0 0 0 0 0 None 64 0 0.

Lemma defaulted_ceilings_follow_witness :
  Adm.cfg_max_in_flight_per_tenant (admission_config (deserialize demo_wire)) < 16.
Proof.
  refine (proj1 (proj2 (proj2 (defaulted_ceilings_follow demo_wire eq_refl eq_refl eq_refl _) _))); by vm_compute.
Defined.

End Config.
