(* ===== verification/CatalogContent.v ===== *)
(** * The content of a catalogue and its diffs ([crates/gateway/src/backends/catalog.rs])

    What an import describes, checked and put in one order; the identity its
    canonical bytes have; and the changes from one content to the next.  Prices are
    those of [Pricing]; an identifier is its text; a map keyed by identifiers is a
    search of the list it is collected from, whose identifiers are distinct.
    SHA-256 is a parameter. *)

From S2P Require Import Prelude Text Json Ids Canonical Pricing.

#[local] Open Scope string_scope.
#[local] Open Scope Z_scope.

Module CatalogContent.
Import Canonical.Canonical (CanonicalValue, Str, Integer, List, Set_, Map, str_bytes, slice_le, value_map, checksum, CanonicalError).
Import Pricing (PriceRates, PriceTier, ObservedPrice, PriceTierThreshold, ContextOver).

(** ** Facts *)

Definition CatalogId : Type := string.

Inductive Modality := Text | Image | Audio | Video | Pdf.
#[export] Instance Modality_eq_dec : EqDecision Modality.
Proof. solve_decision. Defined.
Definition all_modalities : list Modality := [Text; Image; Audio; Video; Pdf].
Definition modality_as_str (m : Modality) : string :=
  match m with Text => "text" | Image => "image" | Audio => "audio" | Video => "video" | Pdf => "pdf" end.

Inductive ModelCapability :=
| Attachment | Reasoning | ToolCall | Temperature | StructuredOutput | Interleaved | OpenWeights | Experimental.
#[export] Instance ModelCapability_eq_dec : EqDecision ModelCapability.
Proof. solve_decision. Defined.
Definition capability_as_str (c : ModelCapability) : string :=
  match c with
  | Attachment => "attachment" | Reasoning => "reasoning" | ToolCall => "tool-call" | Temperature => "temperature"
  | StructuredOutput => "structured-output" | Interleaved => "interleaved" | OpenWeights => "open-weights"
  | Experimental => "experimental"
  end.

Inductive ModelLifecycle := Available | Alpha | Beta | Deprecated.
#[export] Instance ModelLifecycle_eq_dec : EqDecision ModelLifecycle.
Proof. solve_decision. Defined.
Definition all_lifecycles : list ModelLifecycle := [Available; Alpha; Beta; Deprecated].
Definition lifecycle_as_str (l : ModelLifecycle) : string :=
  match l with Available => "available" | Alpha => "alpha" | Beta => "beta" | Deprecated => "deprecated" end.

#[export] Instance Modality_countable : Countable Modality :=
  inj_countable' modality_as_str
    (λ s, default Text (List.find (λ m, bool_decide (modality_as_str m = s)) all_modalities)) ltac:(by intros []).
#[export] Instance ModelCapability_countable : Countable ModelCapability :=
  inj_countable' capability_as_str
    (λ s, default Attachment (List.find (λ m, bool_decide (capability_as_str m = s))
      [Attachment; Reasoning; ToolCall; Temperature; StructuredOutput; Interleaved; OpenWeights; Experimental])) ltac:(by intros []).

Record ModelLimits := mkLimits { context_tokens : option Z; input_tokens : option Z; output_tokens : option Z }.

Inductive ModelField :=
| DisplayName | Family | Capabilities | InputModalities | OutputModalities | ContextTokens | InputTokens | OutputTokens
| Lifecycle | KnowledgeCutoff | ReleaseDate | LastUpdated | Endpoint | PublishedModelId.

Definition is_lifecycle (f : ModelField) : bool := match f with Lifecycle => true | _ => false end.
Definition is_capability (f : ModelField) : bool :=
  match f with Capabilities | InputModalities | OutputModalities => true | _ => false end.

Record ModelFacts := mkFacts {
  display_name : option string;
  family : option string;
  capabilities : gset ModelCapability;
  input_modalities : gset Modality;
  output_modalities : gset Modality;
  limits : ModelLimits;
  lifecycle : ModelLifecycle;
  knowledge_cutoff : option string;
  release_date : option string;
  last_updated : option string;
}.

Record ProviderEndpoint := mkEndpoint { api_base : option string; client_package : option string; wire_shape : option string }.

Definition endpoint_is_empty (e : ProviderEndpoint) : bool :=
  bool_decide (api_base e = None) && bool_decide (client_package e = None) && bool_decide (wire_shape e = None).

Inductive ProviderField := PDisplayName | PDocUrl | PEndpoint | PEnvVars.

Definition JsonPointer : Type := string.

Record CatalogProvider := mkProvider {
  p_id : CatalogId;
  p_display_name : option string;
  doc_url : option string;
  p_endpoint : ProviderEndpoint;
  env_vars : list string;
  p_pointer : JsonPointer;
}.

Record ProviderOffering := mkOffering {
  o_provider : CatalogId;
  o_model : CatalogId;
  published_model_id : string;
  facts : ModelFacts;
  overrides : list (ModelField * JsonPointer);
  price : option ObservedPrice;
  o_endpoint : ProviderEndpoint;
  o_pointer : JsonPointer;
}.

Record CatalogModelEntry := mkEntry { m_id : CatalogId; neutral : option ModelFacts; offerings : list ProviderOffering }.

#[export] Instance ModelLimits_eq_dec : EqDecision ModelLimits.
Proof. solve_decision. Defined.
#[export] Instance ModelFacts_eq_dec : EqDecision ModelFacts.
Proof. solve_decision. Defined.
#[export] Instance ProviderEndpoint_eq_dec : EqDecision ProviderEndpoint.
Proof. solve_decision. Defined.
#[export] Instance PriceRates_eq_dec : EqDecision PriceRates.
Proof. solve_decision. Defined.
#[export] Instance PriceTierThreshold_eq_dec : EqDecision PriceTierThreshold.
Proof. solve_decision. Defined.
#[export] Instance PriceTier_eq_dec : EqDecision PriceTier.
Proof. solve_decision. Defined.
#[export] Instance ObservedPrice_eq_dec : EqDecision ObservedPrice.
Proof. solve_decision. Defined.

(** ** Canonical forms *)

(** A field that is only there when it has a value. *)
Definition stated {A} (key : string) (form : A → CanonicalValue) (value : option A) : list (string * CanonicalValue) :=
  match value with Some v => [(key, form v)] | None => [] end.

Definition canonical_limits (l : ModelLimits) : CanonicalValue :=
  value_map (stated "context_tokens" Integer (context_tokens l) ++ stated "input_tokens" Integer (input_tokens l) ++
             stated "output_tokens" Integer (output_tokens l))%list.

Definition canonical_rates (r : PriceRates) : CanonicalValue :=
  value_map ([("input", Integer (Pricing.input r)); ("output", Integer (Pricing.output r))] ++
    stated "cache_read" Integer (Pricing.cache_read r) ++ stated "cache_write" Integer (Pricing.cache_write r) ++
    stated "reasoning" Integer (Pricing.reasoning r) ++ stated "input_audio" Integer (Pricing.input_audio r) ++
    stated "output_audio" Integer (Pricing.output_audio r))%list.

Definition canonical_threshold (t : PriceTierThreshold) : CanonicalValue :=
  match t with ContextOver tokens => value_map [("type", Str "context-over"); ("tokens", Integer tokens)] end.

Definition canonical_tier (t : PriceTier) : CanonicalValue :=
  value_map [("threshold", canonical_threshold (Pricing.threshold t)); ("rates", canonical_rates (Pricing.tier_rates t))].

Definition canonical_price (p : ObservedPrice) : CanonicalValue :=
  value_map [("base", canonical_rates (Pricing.base p)); ("tiers", List (canonical_tier <$> Pricing.tiers p))].

Definition canonical_facts (f : ModelFacts) : CanonicalValue :=
  value_map ([("capabilities", Set_ (Str ∘ capability_as_str <$> elements (capabilities f)));
              ("input_modalities", Set_ (Str ∘ modality_as_str <$> elements (input_modalities f)));
              ("output_modalities", Set_ (Str ∘ modality_as_str <$> elements (output_modalities f)));
              ("limits", canonical_limits (limits f));
              ("lifecycle", Str (lifecycle_as_str (lifecycle f)))] ++
    stated "display_name" Str (display_name f) ++ stated "family" Str (family f) ++
    stated "knowledge_cutoff" Str (knowledge_cutoff f) ++ stated "release_date" Str (release_date f) ++
    stated "last_updated" Str (last_updated f))%list.

Definition canonical_endpoint (e : ProviderEndpoint) : CanonicalValue :=
  value_map (stated "api_base" Str (api_base e) ++ stated "client_package" Str (client_package e) ++
             stated "wire_shape" Str (wire_shape e))%list.

(** Where a fact was read from is not part of what was read. *)
Definition canonical_provider (p : CatalogProvider) : CanonicalValue :=
  value_map ([("id", Str (p_id p)); ("endpoint", canonical_endpoint (p_endpoint p)); ("env_vars", List (Str <$> env_vars p))] ++
    stated "display_name" Str (p_display_name p) ++ stated "doc_url" Str (doc_url p))%list.

Definition canonical_offering (o : ProviderOffering) : CanonicalValue :=
  value_map ([("provider", Str (o_provider o)); ("model", Str (o_model o));
              ("published_model_id", Str (published_model_id o)); ("facts", canonical_facts (facts o))] ++
    stated "price" canonical_price (price o) ++
    (if endpoint_is_empty (o_endpoint o) then [] else [("endpoint", canonical_endpoint (o_endpoint o))]))%list.

Definition canonical_entry (m : CatalogModelEntry) : CanonicalValue :=
  value_map ([("id", Str (m_id m)); ("offerings", List (canonical_offering <$> offerings m))] ++
    stated "neutral" canonical_facts (neutral m))%list.

Definition canonical_content (ps : list CatalogProvider) (ms : list CatalogModelEntry) : CanonicalValue :=
  value_map [("providers", List (canonical_provider <$> ps)); ("models", List (canonical_entry <$> ms))].

(** ** Orders

    [sort_by] with a comparison that runs through parts in turn: each part is
    compared as bytes. *)

Fixpoint then_le (xs ys : list (list Z)) : bool :=
  match xs, ys with
  | [], _ => true
  | _ :: _, [] => false
  | x :: xs, y :: ys => if decide (x = y) then then_le xs ys else Canonical.Canonical.bytes_le x y
  end.

Definition parts_le (xs ys : list (list Z)) : Prop := then_le xs ys = true.
#[export] Instance parts_le_dec : RelDecision parts_le.
Proof. intros xs ys. unfold parts_le. apply _. Defined.

Definition by_key {A} (key : A → list (list Z)) (x y : A) : Prop := parts_le (key x) (key y).
#[export] Instance by_key_dec {A} (key : A → list (list Z)) : RelDecision (by_key key).
Proof. intros x y. unfold by_key. apply _. Defined.

Definition sort_by {A} (key : A → list (list Z)) (xs : list A) : list A := merge_sort (by_key key) xs.

Definition id_key (i : CatalogId) : list (list Z) := [str_bytes i].
Definition offering_key (o : ProviderOffering) : list (list Z) := [str_bytes (o_provider o); str_bytes (published_model_id o)].

(** What an offering is called: a provider may publish one model under several ids. *)
Definition okey (o : ProviderOffering) : CatalogId * string := (o_provider o, published_model_id o).

(** ** Building a content *)

Inductive CatalogContentError :=
| DuplicateProvider (provider : CatalogId)
| DuplicateModel (model : CatalogId)
| DuplicateOffering (model provider : CatalogId) (published : string)
| UnknownProvider (model provider : CatalogId)
| OfferingModelMismatch (model provider : CatalogId) (published : string)
| Empty
| Unoffered (models : nat)
| Uncanonicalizable (source : CanonicalError).

Fixpoint first_duplicate_from {A} `{EqDecision A} (previous : option A) (xs : list A) : option A :=
  match xs with
  | [] => None
  | x :: xs => if decide (previous = Some x) then Some x else first_duplicate_from (Some x) xs
  end.
Definition first_duplicate {A} `{EqDecision A} (xs : list A) : option A := first_duplicate_from None xs.

Section Content.
Variable sha256 : list Z → list Z.

Record CatalogContent := mkContent {
  providers : list CatalogProvider;
  models : list CatalogModelEntry;
  content_id : list Z;
}.

(** The references of one model's sorted offerings. *)
Fixpoint check_offerings (known : list CatalogId) (model : CatalogId) (os : list ProviderOffering) : result CatalogContentError unit :=
  match os with
  | [] => Ok tt
  | o :: os =>
      if negb (bool_decide (o_provider o ∈ known)) then Err (UnknownProvider model (o_provider o))
      else if negb (bool_decide (o_model o = model)) then Err (OfferingModelMismatch model (o_provider o) (published_model_id o))
      else check_offerings known model os
  end.

Definition check_model (known : list CatalogId) (m : CatalogModelEntry) : result CatalogContentError CatalogModelEntry :=
  let os := sort_by offering_key (offerings m) in
  match Canonical.Canonical.adjacent (okey <$> os) with
  | Some (provider, published) => Err (DuplicateOffering (m_id m) provider published)
  | None => _ ← check_offerings known (m_id m) os; Ok (mkEntry (m_id m) (neutral m) os)
  end.

Fixpoint check_models (known : list CatalogId) (ms : list CatalogModelEntry) : result CatalogContentError (list CatalogModelEntry) :=
  match ms with
  | [] => Ok []
  | m :: ms => m ← check_model known m; ms ← check_models known ms; Ok (m :: ms)
  end.

(** [CatalogContent::new] *)
Definition content_new (ps : list CatalogProvider) (ms : list CatalogModelEntry) : result CatalogContentError CatalogContent :=
  match ms with
  | [] => Err Empty
  | _ :: _ =>
      let ps := sort_by (λ p, id_key (p_id p)) ps in
      match first_duplicate (p_id <$> ps) with
      | Some d => Err (DuplicateProvider d)
      | None =>
          let ms := sort_by (λ m, id_key (m_id m)) ms in
          match first_duplicate (m_id <$> ms) with
          | Some d => Err (DuplicateModel d)
          | None =>
              ms ← check_models (p_id <$> ps) ms;
              if forallb (λ m, bool_decide (offerings m = [])) ms then Err (Unoffered (length ms))
              else
                id ← map_err Uncanonicalizable (checksum sha256 (canonical_content ps ms));
                Ok (mkContent ps ms id)
          end
      end
  end.
End Content.

(** ** Diffs *)

Inductive CatalogChange :=
| ProviderAdded (provider : CatalogId)
| ProviderRemoved (provider : CatalogId)
| ProviderChanged (provider : CatalogId) (fields : list ProviderField)
| ModelAdded (model : CatalogId)
| ModelRemoved (model : CatalogId)
| OfferingAdded (model provider : CatalogId) (published : string)
| OfferingRemoved (model provider : CatalogId) (published : string)
| NeutralChanged (model : CatalogId) (fields : list ModelField)
| NeutralDescribed (model : CatalogId)
| NeutralDropped (model : CatalogId)
| LifecycleChanged (model provider : CatalogId) (published : string) (from to : ModelLifecycle)
| CapabilitiesChanged (model provider : CatalogId) (published : string) (fields : list ModelField)
| MetadataChanged (model provider : CatalogId) (published : string) (fields : list ModelField)
| PriceChanged (model provider : CatalogId) (published : string) (from to : option ObservedPrice).

Definition change_model (c : CatalogChange) : option CatalogId :=
  match c with
  | ProviderAdded _ | ProviderRemoved _ | ProviderChanged _ _ => None
  | ModelAdded m | ModelRemoved m | NeutralChanged m _ | NeutralDescribed m | NeutralDropped m
  | OfferingAdded m _ _ | OfferingRemoved m _ _ | LifecycleChanged m _ _ _ _ | CapabilitiesChanged m _ _ _
  | MetadataChanged m _ _ _ | PriceChanged m _ _ _ _ => Some m
  end.

Definition change_provider (c : CatalogChange) : option CatalogId :=
  match c with
  | ModelAdded _ | ModelRemoved _ | NeutralChanged _ _ | NeutralDescribed _ | NeutralDropped _ => None
  | ProviderAdded p | ProviderRemoved p | ProviderChanged p _ | OfferingAdded _ p _ | OfferingRemoved _ p _
  | LifecycleChanged _ p _ _ _ | CapabilitiesChanged _ p _ _ | MetadataChanged _ p _ _ | PriceChanged _ p _ _ _ => Some p
  end.

Definition change_published (c : CatalogChange) : option string :=
  match c with
  | OfferingAdded _ _ p | OfferingRemoved _ _ p | LifecycleChanged _ _ p _ _ | CapabilitiesChanged _ _ p _
  | MetadataChanged _ _ p _ | PriceChanged _ _ p _ _ => Some p
  | _ => None
  end.

Definition rank (c : CatalogChange) : Z :=
  match c with
  | ProviderAdded _ => 0 | ProviderRemoved _ => 1 | ProviderChanged _ _ => 2 | ModelAdded _ => 3 | ModelRemoved _ => 4
  | NeutralDescribed _ => 5 | NeutralDropped _ => 6 | NeutralChanged _ _ => 7 | OfferingAdded _ _ _ => 8
  | OfferingRemoved _ _ _ => 9 | LifecycleChanged _ _ _ _ _ => 10 | CapabilitiesChanged _ _ _ _ => 11
  | MetadataChanged _ _ _ _ => 12 | PriceChanged _ _ _ _ _ => 13
  end.

(** An absent part sorts before every present one. *)
Definition part (o : option string) : list Z := match o with None => [] | Some s => 0 :: str_bytes s end.
Definition change_key (c : CatalogChange) : list (list Z) :=
  [part (change_model c); part (change_provider c); [rank c]; part (change_published c)].

Definition when (condition : Prop) `{Decision condition} {A} (x : A) : list A := if bool_decide condition then [x] else [].

(** [ModelFacts::differences] *)
Definition differences (f g : ModelFacts) : list ModelField :=
  (when (display_name f ≠ display_name g) DisplayName ++ when (family f ≠ family g) Family ++
   when (capabilities f ≠ capabilities g) Capabilities ++ when (input_modalities f ≠ input_modalities g) InputModalities ++
   when (output_modalities f ≠ output_modalities g) OutputModalities ++
   when (context_tokens (limits f) ≠ context_tokens (limits g)) ContextTokens ++
   when (input_tokens (limits f) ≠ input_tokens (limits g)) InputTokens ++
   when (output_tokens (limits f) ≠ output_tokens (limits g)) OutputTokens ++
   when (lifecycle f ≠ lifecycle g) Lifecycle ++ when (knowledge_cutoff f ≠ knowledge_cutoff g) KnowledgeCutoff ++
   when (release_date f ≠ release_date g) ReleaseDate ++ when (last_updated f ≠ last_updated g) LastUpdated)%list.

(** [CatalogProvider::differences] *)
Definition provider_differences (p q : CatalogProvider) : list ProviderField :=
  (when (p_display_name p ≠ p_display_name q) PDisplayName ++ when (doc_url p ≠ doc_url q) PDocUrl ++
   when (p_endpoint p ≠ p_endpoint q) PEndpoint ++ when (env_vars p ≠ env_vars q) PEnvVars)%list.

Definition offerings_by (m : CatalogModelEntry) (provider : CatalogId) : list ProviderOffering :=
  filter (λ o, o_provider o = provider) (offerings m).

Definition offering_published_as (m : CatalogModelEntry) (provider : CatalogId) (published : string) : option ProviderOffering :=
  List.find (λ o, bool_decide (o_provider o = provider ∧ published_model_id o = published)) (offerings m).

(** The offering of [entry] that [offering], of [from], is to be compared with. *)
Definition paired (entry from : CatalogModelEntry) (offering : ProviderOffering) : option ProviderOffering :=
  match offerings_by entry (o_provider offering) with
  | [] => None
  | first :: rest =>
      if bool_decide (rest = [] ∧ length (offerings_by from (o_provider offering)) = 1%nat) then Some first
      else offering_published_as entry (o_provider offering) (published_model_id offering)
  end.

Definition offering_differences (previous current : ProviderOffering) : list ModelField :=
  (differences (facts current) (facts previous) ++ when (o_endpoint previous ≠ o_endpoint current) Endpoint ++
   when (published_model_id previous ≠ published_model_id current) PublishedModelId)%list.

Definition offering_changes (model : CatalogId) (previous current : ProviderOffering) : list CatalogChange :=
  let ds := offering_differences previous current in
  let p := o_provider current in
  let id := published_model_id current in
  let caps := filter (λ f, is_capability f = true) ds in
  let meta := filter (λ f, is_lifecycle f = false ∧ is_capability f = false) ds in
  ((if existsb is_lifecycle ds then [LifecycleChanged model p id (lifecycle (facts previous)) (lifecycle (facts current))] else []) ++
   when (caps ≠ []) (CapabilitiesChanged model p id caps) ++
   when (meta ≠ []) (MetadataChanged model p id meta) ++
   when (price previous ≠ price current) (PriceChanged model p id (price previous) (price current)))%list.

Definition find_provider (ps : list CatalogProvider) (i : CatalogId) : option CatalogProvider :=
  List.find (λ p, bool_decide (p_id p = i)) ps.
Definition find_model (ms : list CatalogModelEntry) (i : CatalogId) : option CatalogModelEntry :=
  List.find (λ m, bool_decide (m_id m = i)) ms.

Definition provider_changes (previous current : list CatalogProvider) : list CatalogChange :=
  ((p ← current;
    match find_provider previous (p_id p) with
    | None => [ProviderAdded (p_id p)]
    | Some before =>
        let fields := provider_differences p before in when (fields ≠ []) (ProviderChanged (p_id p) fields)
    end) ++
   (p ← previous;
    match find_provider current (p_id p) with None => [ProviderRemoved (p_id p)] | Some _ => [] end))%list.

Definition neutral_changes (model : CatalogId) (was now : option ModelFacts) : list CatalogChange :=
  match was, now with
  | None, Some _ => [NeutralDescribed model]
  | Some _, None => [NeutralDropped model]
  | Some was, Some now => let fields := differences now was in when (fields ≠ []) (NeutralChanged model fields)
  | None, None => []
  end.

(** A model both contents have. *)
Definition entry_changes (before model : CatalogModelEntry) : list CatalogChange :=
  (neutral_changes (m_id model) (neutral before) (neutral model) ++
   (o ← offerings model;
    match paired before model o with
    | None => [OfferingAdded (m_id model) (o_provider o) (published_model_id o)]
    | Some previous => offering_changes (m_id model) previous o
    end) ++
   (o ← offerings before;
    match paired model before o with
    | None => [OfferingRemoved (m_id model) (o_provider o) (published_model_id o)]
    | Some _ => []
    end))%list.

Definition model_changes (previous current : list CatalogModelEntry) : list CatalogChange :=
  ((m ← current;
    match find_model previous (m_id m) with
    | Some _ => []
    | None => ModelAdded (m_id m) :: ((λ o, OfferingAdded (m_id m) (o_provider o) (published_model_id o)) <$> offerings m)
    end) ++
   (m ← previous;
    match find_model current (m_id m) with
    | Some _ => []
    | None => ModelRemoved (m_id m) :: ((λ o, OfferingRemoved (m_id m) (o_provider o) (published_model_id o)) <$> offerings m)
    end) ++
   (m ← current;
    match find_model previous (m_id m) with Some before => entry_changes before m | None => [] end))%list.

(** [CatalogDiff::between] *)
Definition between (previous current : CatalogContent) : list CatalogChange :=
  sort_by change_key
    (provider_changes (providers previous) (providers current) ++ model_changes (models previous) (models current)).

Record CatalogDiffCounts := mkCounts {
  providers_added : nat; providers_removed : nat; providers_changed : nat; models_added : nat; models_removed : nat;
  offerings_added : nat; offerings_removed : nat; neutral_changed : nat; lifecycle_changed : nat; capabilities_changed : nat;
  metadata_changed : nat; prices_changed : nat;
}.

(** [CatalogDiff::counts]: how many changes have one of the ranks. *)
Definition ranked (ranks : list Z) (d : list CatalogChange) : nat := length (List.filter (λ c, existsb (Z.eqb (rank c)) ranks) d).
Definition counts (d : list CatalogChange) : CatalogDiffCounts :=
  mkCounts (ranked [0] d) (ranked [1] d) (ranked [2] d) (ranked [3] d) (ranked [4] d) (ranked [8] d) (ranked [9] d)
    (ranked [5; 6; 7] d) (ranked [10] d) (ranked [11] d) (ranked [12] d) (ranked [13] d).

(** ** Lemmas: orders *)

#[local] Existing Instances Canonical.Canonical.slice_le_total Canonical.Canonical.slice_le_trans Canonical.Canonical.slice_le_antisymm.

Lemma then_le_cons x xs y ys : parts_le (x :: xs) (y :: ys) ↔ x ≠ y ∧ slice_le x y ∨ x = y ∧ parts_le xs ys.
Proof. unfold parts_le. cbn. case_decide; naive_solver. Qed.

#[export] Instance parts_le_total : Total parts_le.
Proof.
  intros xs. induction xs as [|x xs IH]; intros [|y ys]; [by left|by left|by right|]. rewrite !then_le_cons.
  destruct (decide (x = y)) as [->|Hn]; [destruct (IH ys); auto|]. destruct (total slice_le x y); auto.
Qed.
#[export] Instance parts_le_trans : Transitive parts_le.
Proof.
  intros xs. induction xs as [|x xs IH]; intros [|y ys] [|z zs]; try done. rewrite !then_le_cons.
  intros [[Hn1 H1]|[-> H1]] [[Hn2 H2]|[-> H2]]; auto.
  - left. assert (slice_le x z) by by etrans. split; [|done]. intros ->. apply Hn1. by apply (anti_symm slice_le).
  - right. split; [done|]. by eapply IH.
Qed.
#[export] Instance parts_le_antisymm : AntiSymm eq parts_le.
Proof.
  intros xs. induction xs as [|x xs IH]; intros [|y ys]; try done. rewrite !then_le_cons.
  intros [[Hn1 H1]|[-> H1]] [[Hn2 H2]|[Heq H2]]; try done; [|by f_equal; apply IH].
  destruct Hn1. by apply (anti_symm slice_le).
Qed.

#[export] Instance by_key_total {A} (key : A → _) : Total (by_key key).
Proof. intros x y. unfold by_key. apply (total parts_le). Qed.
#[export] Instance by_key_trans {A} (key : A → _) : Transitive (by_key key).
Proof. intros x y z. unfold by_key. apply (transitivity (R := parts_le)). Qed.

Lemma sort_by_perm {A} (key : A → _) xs : sort_by key xs ≡ₚ xs.
Proof. apply merge_sort_Permutation. Qed.

Lemma sort_by_sorted {A} (key : A → _) xs : StronglySorted (by_key key) (sort_by key xs).
Proof. apply (StronglySorted_merge_sort (by_key key)). Qed.

Lemma named_once {A K} (name : A → K) xs x y : NoDup (name <$> xs) → x ∈ xs → y ∈ xs → name x = name y → x = y.
Proof.
  intros Hn Hx Hy Hk. apply list_elem_of_lookup in Hx as [i Hi], Hy as [j Hj]. assert (i = j) as ->; [|congruence].
  apply (proj1 (NoDup_alt _) Hn i j (name x)); [by rewrite list_lookup_fmap, Hi|by rewrite list_lookup_fmap, Hj, Hk].
Qed.

(** With distinct names there is one sorted order. *)
Lemma sorted_once {A K} (name : A → K) (key : K → list (list Z)) `{!AntiSymm eq (by_key key)} xs ys :
  NoDup (name <$> xs) → xs ≡ₚ ys → StronglySorted (by_key (key ∘ name)) xs → StronglySorted (by_key (key ∘ name)) ys → xs = ys.
Proof.
  intros Hn Hp Hx Hy. apply (StronglySorted_unique_strong (by_key (key ∘ name))); [|done..].
  intros x y Hinx Hiny Hxy Hyx. rewrite <- Hp in Hiny. apply (named_once name xs); [done..|].
  by apply (anti_symm (by_key key)).
Qed.

Definition pair_key (k : CatalogId * string) : list (list Z) := [str_bytes k.1; str_bytes k.2].

Lemma id_key_inj i j : id_key i = id_key j → i = j.
Proof. intros [= H]. by apply Canonical.Canonical.str_bytes_inj. Qed.

Lemma pair_key_inj k l : pair_key k = pair_key l → k = l.
Proof. destruct k, l. intros [= H1 H2]. f_equal; by apply Canonical.Canonical.str_bytes_inj. Qed.

#[local] Instance id_order_antisymm : AntiSymm eq (by_key id_key).
Proof. intros i j H1 H2. apply id_key_inj. by apply (anti_symm parts_le). Qed.
#[local] Instance pair_order_antisymm : AntiSymm eq (by_key pair_key).
Proof. intros i j H1 H2. apply pair_key_inj. by apply (anti_symm parts_le). Qed.

Lemma first_duplicate_adjacent {A} `{EqDecision A} (xs : list A) : first_duplicate xs = Canonical.Canonical.adjacent xs.
Proof.
  unfold first_duplicate. destruct xs as [|x xs]; [done|]. cbn [first_duplicate_from]. rewrite decide_False by done.
  revert x. induction xs as [|y xs IH]; intros x; [done|]. cbn [first_duplicate_from Canonical.Canonical.adjacent].
  destruct (decide (x = y)) as [->|Hn]; [by rewrite decide_True|]. rewrite decide_False by congruence. apply IH.
Qed.

(** Of values sorted by their keys, the neighbours show every repetition. *)
Lemma sorted_repeats {A K} `{EqDecision K} (name : A → K) (key : K → list (list Z)) `{!AntiSymm eq (by_key key)} (xs : list A) :
  Canonical.Canonical.adjacent (name <$> sort_by (key ∘ name) xs) = None ↔ NoDup (name <$> xs).
Proof.
  rewrite (Canonical.Canonical.adjacent_sorted (by_key key)).
  - by rewrite sort_by_perm.
  - apply (StronglySorted_fmap name (by_key (key ∘ name))); [done|apply sort_by_sorted].
Qed.

Definition references_sound (known : list CatalogId) (model : CatalogId) (o : ProviderOffering) : Prop :=
  o_provider o ∈ known ∧ o_model o = model.

Lemma check_offerings_Ok known model os u : check_offerings known model os = Ok u ↔ Forall (references_sound known model) os.
Proof.
  destruct u. unfold references_sound. induction os as [|o os IH]; cbn; [by split|]. rewrite list.Forall_cons.
  destruct (bool_decide_reflect (o_provider o ∈ known)), (bool_decide_reflect (o_model o = model)); cbn; rewrite ?IH; naive_solver.
Qed.

Definition entry_sound (known : list CatalogId) (m : CatalogModelEntry) : Prop :=
  NoDup (okey <$> offerings m) ∧ Forall (references_sound known (m_id m)) (offerings m).

Definition sorted_entry (m : CatalogModelEntry) : CatalogModelEntry :=
  mkEntry (m_id m) (neutral m) (sort_by offering_key (offerings m)).

Lemma check_model_Ok known m m' : check_model known m = Ok m' ↔ entry_sound known m ∧ m' = sorted_entry m.
Proof.
  unfold check_model, entry_sound. cbv zeta. pose proof (sorted_repeats okey pair_key (offerings m)) as Hs.
  change (sort_by (pair_key ∘ okey) (offerings m)) with (sort_by offering_key (offerings m)) in Hs.
  destruct (Canonical.Canonical.adjacent _) as [[p i]|].
  - split; [done|]. intros [[Hn _] _]. by apply Hs in Hn.
  - destruct (check_offerings known (m_id m) (sort_by offering_key (offerings m))) as [u|e] eqn:Hc; cbn.
    + apply check_offerings_Ok in Hc. rewrite sort_by_perm in Hc. split; [intros [= <-]; split; [split; [by apply Hs|done]|done]|].
      by intros [_ ->].
    + split; [done|]. intros [[_ Hf] _]. rewrite <- (sort_by_perm offering_key (offerings m)) in Hf. apply (check_offerings_Ok _ _ _ tt) in Hf. by rewrite Hc in Hf.
Qed.

Lemma check_models_Ok known ms ms' :
  check_models known ms = Ok ms' ↔ Forall (entry_sound known) ms ∧ ms' = sorted_entry <$> ms.
Proof.
  revert ms'. induction ms as [|m ms IH]; intros ms'; cbn; [split; [by intros [= <-]|by intros [_ ->]]|].
  rewrite list.Forall_cons. destruct (check_model known m) as [m1|e] eqn:Hm; cbn.
  - apply check_model_Ok in Hm as [Hs ->]. destruct (check_models known ms) as [ms1|e]; cbn.
    + destruct (proj1 (IH ms1) eq_refl) as [Hf ->]. split; [by intros [= <-]|]. by intros [_ ->].
    + split; [done|]. intros [[_ Hf] ->]. discriminate (proj2 (IH _) (conj Hf eq_refl)).
  - split; [done|]. intros [[Hs _] _]. by rewrite (proj2 (check_model_Ok known m _) (conj Hs eq_refl)) in Hm.
Qed.

(** What an import must be. *)
Record describes (ps : list CatalogProvider) (ms : list CatalogModelEntry) : Prop := {
  d_providers : NoDup (p_id <$> ps);
  d_models : NoDup (m_id <$> ms);
  d_entries : Forall (entry_sound (p_id <$> ps)) ms;
  d_offered : ∃ m, m ∈ ms ∧ offerings m ≠ [];
}.

Definition sorted_providers (ps : list CatalogProvider) := sort_by (λ p, id_key (p_id p)) ps.
Definition sorted_models (ms : list CatalogModelEntry) := sorted_entry <$> sort_by (λ m, id_key (m_id m)) ms.

Lemma entry_sound_known known known' m : known ≡ₚ known' → entry_sound known m → entry_sound known' m.
Proof.
  intros Hp [Hn Hf]. split; [done|]. eapply Forall_impl; [exact Hf|]. intros o [Ho ?]. split; [by rewrite <- Hp|done].
Qed.

Lemma all_empty ms : forallb (λ m, bool_decide (offerings m = [])) ms = true ↔ ¬ ∃ m, m ∈ ms ∧ offerings m ≠ [].
Proof.
  rewrite forallb_forall. split.
  - intros Hall (m & Hm & Hne). apply Hne. specialize (Hall m). rewrite <- list_elem_of_In in Hall. by apply Hall, bool_decide_eq_true in Hm.
  - intros Hno m Hm. apply bool_decide_eq_true. destruct (decide (offerings m = [])) as [|Hne]; [done|]. destruct Hno. exists m. by rewrite list_elem_of_In.
Qed.

Lemma sorted_ids_repeat {A} (name : A → CatalogId) xs :
  first_duplicate (name <$> sort_by (λ x, id_key (name x)) xs) = None ↔ NoDup (name <$> xs).
Proof. rewrite first_duplicate_adjacent. apply (sorted_repeats name id_key). Qed.

Lemma content_new_Ok sha256 ps ms c :
  content_new sha256 ps ms = Ok c ↔
  describes ps ms ∧ providers c = sorted_providers ps ∧ models c = sorted_models ms ∧
  checksum sha256 (canonical_content (sorted_providers ps) (sorted_models ms)) = Ok (content_id c).
Proof.
  unfold content_new. destruct ms as [|m0 ms0] eqn:Hms; [split; [done|]|rewrite <- Hms; clear m0 ms0 Hms].
  { intros [[_ _ _ (m & Hm & _)] _]. by apply elem_of_nil in Hm. }
  fold (sorted_providers ps). pose proof (sorted_ids_repeat p_id ps) as Hp. fold (sorted_providers ps) in Hp.
  destruct (first_duplicate (p_id <$> sorted_providers ps)) as [d|].
  { split; [done|]. intros [[Hn _ _ _] _]. by apply Hp in Hn. }
  pose proof (sorted_ids_repeat m_id ms) as Hm. destruct (first_duplicate (m_id <$> _)) as [d|].
  { split; [done|]. intros [[_ Hn _ _] _]. by apply Hm in Hn. }
  assert (Hknown : p_id <$> sorted_providers ps ≡ₚ p_id <$> ps) by (unfold sorted_providers; by rewrite sort_by_perm).
  assert (Hentries : Forall (entry_sound (p_id <$> sorted_providers ps)) (sort_by (λ m, id_key (m_id m)) ms) ↔
    Forall (entry_sound (p_id <$> ps)) ms).
  { rewrite sort_by_perm. split; intros Hf; (eapply Forall_impl; [exact Hf|]); intros m; by apply entry_sound_known. }
  destruct (check_models _ _) as [ms1|e] eqn:Hc; cbn [mbind result_bind].
  2: { split; [done|]. intros [[_ _ He _] _]. discriminate (eq_trans (eq_sym Hc) (proj2 (check_models_Ok _ _ _) (conj (proj2 Hentries He) eq_refl))). }
  apply check_models_Ok in Hc as [He ->]. apply Hentries in He. fold (sorted_models ms).
  assert (Hoff : forallb (λ m, bool_decide (offerings m = [])) (sorted_models ms) = true ↔ ¬ ∃ m, m ∈ ms ∧ offerings m ≠ []).
  { rewrite all_empty. apply not_iff_compat. unfold sorted_models. split.
    - intros (m & (m1 & -> & Hin)%list_elem_of_fmap & Hne). rewrite sort_by_perm in Hin. exists m1. split; [done|].
      intros H0. apply Hne. cbn. by rewrite H0.
    - intros (m & Hin & Hne). exists (sorted_entry m). split; [apply list_elem_of_fmap; exists m; by rewrite sort_by_perm|].
      cbn. intros H0. apply Hne. pose proof (sort_by_perm offering_key (offerings m)) as Hperm. rewrite H0 in Hperm. by apply Permutation_nil in Hperm. }
  destruct (forallb _ (sorted_models ms)).
  { split; [done|]. intros [[_ _ _ Ho] _]. by apply Hoff in Ho. }
  assert (Hd : describes ps ms).
  { split; [by apply Hp|by apply Hm|done|]. destruct (decide (Exists (λ m, offerings m ≠ []) ms)) as [Hex|Hno].
    - by apply list.Exists_exists in Hex.
    - exfalso. apply (eq_true_false_abs false); [|done]. apply Hoff. intros (m & Hin & Hne). apply Hno, list.Exists_exists. by exists m. }
  destruct (checksum _ _) as [id|e]; cbn.
  - split; [by intros [= <-]|]. intros (_ & Hps & Hmods & [= Hid]). destruct c. cbn in *. by subst.
  - split; [done|]. by intros (_ & _ & _ & Hid).
Qed.

(** The same import, written down in another order. *)
Definition shuffled (m m' : CatalogModelEntry) : Prop :=
  m_id m = m_id m' ∧ neutral m = neutral m' ∧ offerings m ≡ₚ offerings m'.
Definition reordered (ms ms' : list CatalogModelEntry) : Prop := ∃ ms1, ms ≡ₚ ms1 ∧ Forall2 shuffled ms1 ms'.

Lemma sort_by_names {A K} (name : A → K) (key : K → list (list Z)) `{!AntiSymm eq (by_key key)} xs ys :
  name <$> xs ≡ₚ name <$> ys → name <$> sort_by (key ∘ name) xs = name <$> sort_by (key ∘ name) ys.
Proof.
  intros Hp. apply (StronglySorted_unique (by_key key)).
  - apply (StronglySorted_fmap name (by_key (key ∘ name))); [done|apply sort_by_sorted].
  - apply (StronglySorted_fmap name (by_key (key ∘ name))); [done|apply sort_by_sorted].
  - by rewrite !sort_by_perm.
Qed.

Lemma sort_by_one {A K} (name : A → K) (key : K → list (list Z)) `{!AntiSymm eq (by_key key)} xs ys :
  NoDup (name <$> xs) → xs ≡ₚ ys → sort_by (key ∘ name) xs = sort_by (key ∘ name) ys.
Proof.
  intros Hn Hp. apply (sorted_once name key); [by rewrite sort_by_perm|by rewrite !sort_by_perm|apply sort_by_sorted..].
Qed.

(** Pairs that agree on their names stay paired when both sides are sorted. *)
Lemma sort_by_pairs {A K} (name : A → K) (key : K → list (list Z)) `{!AntiSymm eq (by_key key)} (R : relation A) xs ys :
  (∀ x y, R x y → name x = name y) → NoDup (name <$> xs) → Forall2 R xs ys →
  Forall2 R (sort_by (key ∘ name) xs) (sort_by (key ∘ name) ys).
Proof.
  intros HR Hn Hf. assert (Hf' : Forall2 (flip R) ys xs) by by apply Forall2_flip.
  destruct (Permutation_Forall2 (symmetry (sort_by_perm (key ∘ name) ys)) Hf') as (xs' & Hp & Hxs').
  assert (Hs : sort_by (key ∘ name) xs = xs'); [|rewrite Hs; by apply Forall2_flip].
  rewrite (sort_by_one name key xs xs' Hn Hp). symmetry.
  apply (sorted_once name key); [by rewrite <- Hp|by rewrite sort_by_perm| |apply sort_by_sorted].
  assert (Hnames : name <$> sort_by (key ∘ name) ys = name <$> xs').
  { clear - HR Hxs'. induction Hxs' as [|y x ys' xs' Hyx _ IH]; [done|]. csimpl. rewrite IH. f_equal. symmetry. by apply HR. }
  pose proof (StronglySorted_fmap name (by_key (key ∘ name)) (by_key key) _ (λ _ _ h, h) (sort_by_sorted (key ∘ name) ys)) as Hsrt.
  rewrite Hnames in Hsrt. clear - Hsrt. induction xs' as [|x xs' IH]; [constructor|]. csimpl in Hsrt.
  inversion Hsrt as [|? ? Hs Hx]; subst. constructor; [by apply IH|]. apply (Forall_fmap name) in Hx. exact Hx.
Qed.

Lemma reordered_ids ms ms' : reordered ms ms' → m_id <$> ms ≡ₚ m_id <$> ms'.
Proof.
  intros (ms1 & Hp & Hf). rewrite Hp. clear Hp. induction Hf as [|m m' ms1 ms' (Hid & _) _ IH]; [done|]. csimpl. by rewrite Hid, IH.
Qed.

Lemma check_model_shuffled known m m' : shuffled m m' → check_model known m = check_model known m'.
Proof.
  intros (Hid & Hn & Ho). unfold check_model. cbv zeta. rewrite Hid, Hn.
  pose proof (sort_by_names okey pair_key (offerings m) (offerings m') ltac:(by rewrite Ho)) as Hk.
  pose proof (sorted_repeats okey pair_key (offerings m)) as Hr. change (pair_key ∘ okey) with offering_key in *.
  rewrite <- Hk.
  destruct (Canonical.Canonical.adjacent _); [done|].
  pose proof (sort_by_one okey pair_key _ _ (proj1 Hr eq_refl) Ho) as He. change (pair_key ∘ okey) with offering_key in He. by rewrite He.
Qed.

Lemma check_models_shuffled known ms ms' : Forall2 shuffled ms ms' → check_models known ms = check_models known ms'.
Proof. induction 1 as [|m m' ms ms' Hm _ IH]; [done|]. cbn. by rewrite (check_model_shuffled known m m' Hm), IH. Qed.

(** ** Lemmas: what the identity covers *)

Definition field (k : string) (fs : list (string * CanonicalValue)) : option CanonicalValue :=
  snd <$> List.find (λ f, String.eqb f.1 k) fs.

Lemma field_elem k v fs : NoDup fs.*1 → field k fs = Some v ↔ (k, v) ∈ fs.
Proof.
  unfold field. induction fs as [|[k' v'] fs IH]; csimpl; [by intros _; rewrite elem_of_nil|].
  rewrite NoDup_cons, elem_of_cons. intros [Hni Hnd]. destruct (String.eqb_spec k' k) as [->|Hne]; cbn.
  - split; [intros [= ->]; by left|]. intros [[= ->]|Hin]; [done|]. destruct Hni. by apply (list_elem_of_fmap_2 fst) in Hin.
  - rewrite IH by done. split; [by right|]. intros [[= ->]|?]; done.
Qed.

Lemma field_perm k fs gs : NoDup fs.*1 → fs ≡ₚ gs → field k fs = field k gs.
Proof.
  intros Hn Hp. assert (Hn' : NoDup gs.*1) by by rewrite <- Hp.
  apply option_eq. intros v. by rewrite !field_elem, Hp.
Qed.

(** Records that are the same state agree field by field. *)
Lemma same_fields fs gs :
  NoDup fs.*1 → NoDup gs.*1 → Canonical.Canonical.same (value_map fs) (value_map gs) →
  ∀ k, option_Forall2 Canonical.Canonical.same (field k fs) (field k gs).
Proof.
  intros Hf Hg Hs k. unfold value_map in Hs. apply Canonical.Canonical.same_inv in Hs as (fs' & gs' & gs1 & [= <-] & P1 & Hall & P2).
  rewrite merge_sort_Permutation in P1, P2. rewrite (field_perm k fs fs'), (field_perm k gs gs') by done.
  clear - Hall. induction Hall as [|[k1 v1] [k2 v2] fs gs [Hk Hv] _ IH]; [constructor|]. cbn in Hk, Hv. subst k2. unfold field in *. cbn.
  destruct (String.eqb k1 k); [by constructor|done].
Qed.

Lemma field_app k fs gs : field k (fs ++ gs) = field k fs ∪ field k gs.
Proof.
  induction fs as [|f fs IH]; [symmetry; apply (left_id None (∪))|]. unfold field in *. cbn. destruct (String.eqb f.1 k); [|exact IH].
  cbn. by destruct (List.find _ gs).
Qed.

Lemma field_stated {A} k k' (form : A → CanonicalValue) o : field k (stated k' form o) = if String.eqb k' k then form <$> o else None.
Proof. unfold field. destruct o; cbn; by destruct (String.eqb k' k). Qed.

#[local] Notation same := Canonical.Canonical.same.

Lemma same_str s t : same (Str s) (Str t) → s = t.
Proof. intros H. by inversion H. Qed.
Lemma same_integer n m : same (Integer n) (Integer m) → n = m.
Proof. intros H. by inversion H. Qed.

Lemma same_stated {A} (form : A → CanonicalValue) o o' :
  (∀ x y, same (form x) (form y) → x = y) → option_Forall2 same (form <$> o) (form <$> o') → o = o'.
Proof. intros Hf H. destruct o, o'; inversion H; subst; try done. f_equal. by apply Hf. Qed.

Lemma same_lists {A B} (form : A → CanonicalValue) (g : A → B) xs ys :
  (∀ x y, same (form x) (form y) → g x = g y) → same (List (form <$> xs)) (List (form <$> ys)) → g <$> xs = g <$> ys.
Proof.
  intros Hf H. apply Canonical.Canonical.same_inv in H as (ws & [= <-] & Hall). revert ys Hall.
  induction xs as [|x xs IH]; intros [|y ys] Hall; inversion Hall; subst; [done|]. csimpl. f_equal; [by apply Hf|by apply IH].
Qed.

Lemma same_sets {A} `{Countable A} (name : A → string) (X Y : gset A) :
  (∀ x y, name x = name y → x = y) →
  same (Set_ (Str ∘ name <$> elements X)) (Set_ (Str ∘ name <$> elements Y)) → X = Y.
Proof.
  intros Hn Hsame. apply Canonical.Canonical.same_inv in Hsame as (vs & ws & us & [= <-] & P1 & Hall & P2).
  assert (Heq : vs = ws).
  { assert (Hs : Forall (λ v, ∃ s, v = Str s) vs).
    { rewrite <- P1. apply Forall_fmap, Forall_true. intros x. by eexists. }
    clear - Hall Hs. induction Hall as [|v w vs ws Hv _ IH]; [done|]. apply list.Forall_cons in Hs as [[s ->] Hs].
    f_equal; [by inversion Hv|by apply IH]. }
  subst ws. assert (P : Str ∘ name <$> elements X ≡ₚ Str ∘ name <$> elements Y) by by rewrite P1, P2.
  assert (Hin : ∀ Z1 Z2 : gset A, Str ∘ name <$> elements Z1 ≡ₚ Str ∘ name <$> elements Z2 → Z1 ⊆ Z2).
  { intros Z1 Z2 Hp x Hx. apply elem_of_elements. apply elem_of_elements, (list_elem_of_fmap_2 (Str ∘ name)) in Hx.
    rewrite Hp in Hx. apply list_elem_of_fmap in Hx as (y & [= Hy%Hn] & Hin). by subst. }
  apply (anti_symm (⊆)); by apply Hin.
Qed.

Lemma stated_names {A} k (form : A → CanonicalValue) o : (stated k form o).*1 `sublist_of` [k].
Proof. destruct o; cbn; [reflexivity|apply sublist_nil_l]. Qed.

Lemma names_app (fs gs : list (string * CanonicalValue)) ks ls :
  fs.*1 `sublist_of` ks → gs.*1 `sublist_of` ls → (fs ++ gs)%list.*1 `sublist_of` (ks ++ ls)%list.
Proof. intros. rewrite fmap_app. by apply sublist_app. Qed.

(** The names of a record with optional fields are distinct. *)
Lemma names_distinct (fs : list (string * CanonicalValue)) ks :
  fs.*1 `sublist_of` ks → bool_decide (NoDup ks) = true → NoDup fs.*1.
Proof. intros Hs Hn. apply bool_decide_eq_true in Hn. by eapply sublist_NoDup. Qed.

Ltac field_names :=
  lazymatch goal with
  | |- (stated _ _ _).*1 `sublist_of` _ => apply stated_names
  | |- (_ ++ _)%list.*1 `sublist_of` _ => apply names_app; field_names
  | |- _ => cbn; reflexivity
  end.
Ltac distinct_names := eapply names_distinct; [field_names|vm_compute; reflexivity].

(** From two like records that are the same, what [H] says of one field. *)
Ltac records_agree H :=
  let h := fresh in
  pose proof (λ h1 h2, same_fields _ _ h1 h2 H) as h; clear H;
  specialize (h ltac:(distinct_names) ltac:(distinct_names)); rename h into H.
Lemma present_same v w : option_Forall2 same (Some v) (Some w) → same v w.
Proof. intros H. by inversion H. Qed.

Ltac field_of H key :=
  let h := fresh in
  pose proof (H key) as h; rewrite ?field_app, ?field_stated in h;
  cbn [String.eqb Ascii.eqb Bool.eqb] in h;
  rewrite ?(left_id None (∪)), ?(right_id None (∪)) in h; cbn in h;
  first [apply present_same in h|idtac];
  first [apply same_str in h|apply same_integer in h|apply (same_stated Str) in h; [|exact same_str]
        |apply (same_stated Integer) in h; [|exact same_integer]|idtac].

Lemma rates_same r r' : same (canonical_rates r) (canonical_rates r') → r = r'.
Proof.
  intros H. unfold canonical_rates in H. records_agree H.
  field_of H "input". field_of H "output". field_of H "cache_read". field_of H "cache_write". field_of H "reasoning".
  field_of H "input_audio". field_of H "output_audio". destruct r, r'. cbn in *. by subst.
Qed.

Lemma threshold_same t t' : same (canonical_threshold t) (canonical_threshold t') → t = t'.
Proof. destruct t, t'. cbn [canonical_threshold]. intros H. records_agree H. field_of H "tokens". by subst. Qed.

Lemma tier_same t t' : same (canonical_tier t) (canonical_tier t') → t = t'.
Proof.
  intros H. unfold canonical_tier in H. records_agree H. field_of H "threshold". field_of H "rates".
  destruct t, t'. cbn in *. f_equal; [by apply threshold_same|by apply rates_same].
Qed.

Lemma price_same p p' : same (canonical_price p) (canonical_price p') → p = p'.
Proof.
  intros H. unfold canonical_price in H. records_agree H. field_of H "base". field_of H "tiers".
  destruct p as [bs ts], p' as [bs' ts']. cbn in *. f_equal; [by apply rates_same|].
  apply (same_lists canonical_tier id) in H1; [by rewrite !list_fmap_id in H1|exact tier_same].
Qed.

Lemma limits_same l l' : same (canonical_limits l) (canonical_limits l') → l = l'.
Proof.
  intros H. unfold canonical_limits in H. records_agree H. field_of H "context_tokens". field_of H "input_tokens". field_of H "output_tokens".
  destruct l, l'. cbn in *. by subst.
Qed.

Lemma endpoint_same e e' : same (canonical_endpoint e) (canonical_endpoint e') → e = e'.
Proof.
  intros H. unfold canonical_endpoint in H. records_agree H. field_of H "api_base". field_of H "client_package". field_of H "wire_shape".
  destruct e, e'. cbn in *. by subst.
Qed.

Lemma facts_same f f' : same (canonical_facts f) (canonical_facts f') → f = f'.
Proof.
  intros H. unfold canonical_facts in H. records_agree H.
  field_of H "capabilities". field_of H "input_modalities". field_of H "output_modalities". field_of H "limits". field_of H "lifecycle".
  field_of H "display_name". field_of H "family". field_of H "knowledge_cutoff". field_of H "release_date". field_of H "last_updated".
  destruct f, f'. cbn in *. subst. f_equal; [by apply (same_sets capability_as_str); [intros [] []|]| | |by apply limits_same|].
  - by apply (same_sets modality_as_str); [intros [] []|].
  - by apply (same_sets modality_as_str); [intros [] []|].
  - by destruct lifecycle0, lifecycle1.
Qed.

(** What was read, without where it was read from. *)
Definition read_provider (p : CatalogProvider) : CatalogProvider :=
  mkProvider (p_id p) (p_display_name p) (doc_url p) (p_endpoint p) (env_vars p) "".
Definition read_offering (o : ProviderOffering) : ProviderOffering :=
  mkOffering (o_provider o) (o_model o) (published_model_id o) (facts o) [] (price o) (o_endpoint o) "".
Definition read_entry (m : CatalogModelEntry) : CatalogModelEntry := mkEntry (m_id m) (neutral m) (read_offering <$> offerings m).
Definition read_content (c : CatalogContent) : list CatalogProvider * list CatalogModelEntry :=
  (read_provider <$> providers c, read_entry <$> models c).

Lemma empty_endpoints e e' : endpoint_is_empty e = true → endpoint_is_empty e' = true → e = e'.
Proof.
  unfold endpoint_is_empty. rewrite !andb_true_iff, !bool_decide_eq_true. destruct e, e'. cbn. intros [[-> ->] ->] [[-> ->] ->]. done.
Qed.

Lemma provider_same p q : same (canonical_provider p) (canonical_provider q) → read_provider p = read_provider q.
Proof.
  intros H. unfold canonical_provider in H. records_agree H.
  field_of H "id". field_of H "endpoint". field_of H "env_vars". field_of H "display_name". field_of H "doc_url".
  apply (same_lists Str id) in H2; [|exact same_str]. rewrite !list_fmap_id in H2. apply endpoint_same in H1.
  unfold read_provider. congruence.
Qed.

Lemma offering_same o q : same (canonical_offering o) (canonical_offering q) → read_offering o = read_offering q.
Proof.
  intros H. unfold canonical_offering in H.
  assert (Hopt : ∀ e, (if endpoint_is_empty e then [] else [("endpoint", canonical_endpoint e)]) =
    stated "endpoint" canonical_endpoint (if endpoint_is_empty e then None else Some e)) by (intros e; by destruct (endpoint_is_empty e)).
  rewrite !Hopt in H. records_agree H.
  field_of H "provider". field_of H "model". field_of H "published_model_id". field_of H "facts". field_of H "price". field_of H "endpoint".
  apply facts_same in H3. apply (same_stated canonical_price) in H4; [|exact price_same].
  apply (same_stated canonical_endpoint) in H5; [|exact endpoint_same].
  assert (o_endpoint o = o_endpoint q).
  { destruct (endpoint_is_empty (o_endpoint o)) eqn:E1, (endpoint_is_empty (o_endpoint q)) eqn:E2; try done; [by apply empty_endpoints|congruence]. }
  unfold read_offering. congruence.
Qed.

Lemma entry_same m n : same (canonical_entry m) (canonical_entry n) → read_entry m = read_entry n.
Proof.
  intros H. unfold canonical_entry in H. records_agree H. field_of H "id". field_of H "offerings". field_of H "neutral".
  apply (same_lists canonical_offering read_offering) in H1; [|exact offering_same].
  apply (same_stated canonical_facts) in H2; [|exact facts_same]. unfold read_entry. congruence.
Qed.

Lemma content_same ps ms qs ns :
  same (canonical_content ps ms) (canonical_content qs ns) →
  read_provider <$> ps = read_provider <$> qs ∧ read_entry <$> ms = read_entry <$> ns.
Proof.
  intros H. unfold canonical_content in H. records_agree H. field_of H "providers". field_of H "models". split.
  - by apply (same_lists canonical_provider read_provider) in H0; [|exact provider_same].
  - by apply (same_lists canonical_entry read_entry) in H1; [|exact entry_same].
Qed.

(** The form depends on nothing else. *)
Lemma form_of_read ps ms : canonical_content (read_provider <$> ps) (read_entry <$> ms) = canonical_content ps ms.
Proof.
  assert (Hms : canonical_entry <$> (read_entry <$> ms) = canonical_entry <$> ms).
  { rewrite <- list_fmap_compose. apply list_fmap_ext. intros i m _. cbn. unfold canonical_entry. cbn. by rewrite <- list_fmap_compose. }
  unfold canonical_content. by rewrite Hms, <- list_fmap_compose.
Qed.

Definition canonical (c : CatalogContent) : CanonicalValue := canonical_content (providers c) (models c).

(** ** Lemmas: diffs *)

Lemma when_nil (P : Prop) `{Decision P} {A} (x : A) : when P x = [] ↔ ¬ P.
Proof. unfold when. case_bool_decide; naive_solver. Qed.

Lemma differences_nil f g : differences f g = [] ↔ f = g.
Proof.
  unfold differences. rewrite !app_nil, !when_nil. split; [|by intros ->; naive_solver].
  intros H. destruct_and!. repeat match goal with H : ¬ ¬ (_ = _) |- _ => apply dec_stable in H end.
  destruct f as [? ? ? ? ? [] ? ? ? ?], g as [? ? ? ? ? [] ? ? ? ?]. cbn in *. by subst.
Qed.

Lemma provider_differences_nil p q : p_id p = p_id q → provider_differences p q = [] ↔ read_provider p = read_provider q.
Proof.
  intros Hid. unfold provider_differences, read_provider. rewrite !app_nil, !when_nil. split.
  - intros H. destruct_and!. repeat match goal with H : ¬ ¬ (_ = _) |- _ => apply dec_stable in H end. congruence.
  - intros [= ]. naive_solver.
Qed.

Lemma fields_sorted_out (ds : list ModelField) :
  ds = [] ↔ existsb is_lifecycle ds = false ∧ filter (λ f, is_capability f = true) ds = [] ∧
            filter (λ f, is_lifecycle f = false ∧ is_capability f = false) ds = [].
Proof. split; [by intros ->|]. intros (H1 & H2 & H3). destruct ds as [|[] ds]; by cbn in *. Qed.

Lemma offering_changes_nil m q o :
  okey q = okey o ∨ o_provider q = o_provider o → o_model q = o_model o →
  offering_changes m q o = [] ↔ read_offering q = read_offering o.
Proof.
  intros Hk Hm. assert (Hp : o_provider q = o_provider o) by (destruct Hk as [[= ? ?]|]; done). clear Hk. unfold offering_changes. cbv zeta.
  set (ds := offering_differences q o). assert (Hds : ds = [] ↔ facts o = facts q ∧ o_endpoint q = o_endpoint o ∧ published_model_id q = published_model_id o).
  { unfold ds, offering_differences. rewrite !app_nil, differences_nil, !when_nil. split; [|naive_solver].
    intros (? & H2 & H3). by apply dec_stable in H2, H3. }
  rewrite !app_nil, !when_nil. rewrite (fields_sorted_out ds) in Hds.
  assert (Hl : (if existsb is_lifecycle ds then [LifecycleChanged m (o_provider o) (published_model_id o) (lifecycle (facts q)) (lifecycle (facts o))] else []) = []
    ↔ existsb is_lifecycle ds = false) by by destruct (existsb _ _).
  rewrite Hl. unfold read_offering. split.
  - intros (H1 & H2 & H3 & H4). apply dec_stable in H2, H3, H4. destruct (proj1 Hds) as (? & ? & ?); [done|]. congruence.
  - intros [= ]. destruct (proj2 Hds) as (? & ? & ?); [split_and!; congruence|]. split_and!; try done; by intros ?.
Qed.

Lemma find_named {A} (name : A → CatalogId) xs i x :
  NoDup (name <$> xs) → List.find (λ x, bool_decide (name x = i)) xs = Some x ↔ x ∈ xs ∧ name x = i.
Proof.
  induction xs as [|y xs IH]; csimpl; [by intros _; rewrite elem_of_nil; naive_solver|]. rewrite NoDup_cons, elem_of_cons. intros [Hni Hn].
  destruct (bool_decide_reflect (name y = i)) as [<-|Hne]; [|rewrite IH by done; naive_solver].
  split; [intros [= ->]; by split; [left|]|]. intros [[->|Hin] Hi]; [done|]. destruct Hni. rewrite <- Hi. by apply (list_elem_of_fmap_2 name).
Qed.

Lemma find_unnamed {A} (name : A → CatalogId) xs i :
  List.find (λ x, bool_decide (name x = i)) xs = None ↔ i ∉ name <$> xs.
Proof.
  induction xs as [|y xs IH]; csimpl; [rewrite elem_of_nil; naive_solver|]. rewrite not_elem_of_cons.
  destruct (bool_decide_reflect (name y = i)); [naive_solver|]. rewrite IH. naive_solver.
Qed.

(** A content as it is built: in order, every name once. *)
Record entry_ok (m : CatalogModelEntry) : Prop := {
  eo_distinct : NoDup (okey <$> offerings m);
  eo_sorted : StronglySorted (by_key (pair_key ∘ okey)) (offerings m);
  eo_model o : o ∈ offerings m → o_model o = m_id m;
}.

Record content_ok (c : CatalogContent) : Prop := {
  co_providers : NoDup (p_id <$> providers c);
  co_providers_sorted : StronglySorted (by_key (id_key ∘ p_id)) (providers c);
  co_models : NoDup (m_id <$> models c);
  co_models_sorted : StronglySorted (by_key (id_key ∘ m_id)) (models c);
  co_entries m : m ∈ models c → entry_ok m;
}.

Lemma sorted_entry_ok known m : entry_sound known m → entry_ok (sorted_entry m).
Proof.
  intros [Hn Hf]. split; cbn.
  - by rewrite sort_by_perm.
  - apply sort_by_sorted.
  - intros o Ho. rewrite sort_by_perm in Ho. by apply (proj1 (list.Forall_forall _ _) Hf).
Qed.

Lemma content_new_ok sha256 ps ms c : content_new sha256 ps ms = Ok c → content_ok c.
Proof.
  intros ([H1 H2 H3 _] & P & M & _)%content_new_Ok.
  assert (Hids : m_id <$> sorted_models ms = m_id <$> sort_by (λ m, id_key (m_id m)) ms) by (unfold sorted_models; by rewrite <- list_fmap_compose).
  split; rewrite ?P, ?M.
  - unfold sorted_providers. by rewrite sort_by_perm.
  - apply sort_by_sorted.
  - by rewrite Hids, sort_by_perm.
  - apply (StronglySorted_fmap sorted_entry (by_key (id_key ∘ m_id))); [done|]. apply (sort_by_sorted (id_key ∘ m_id)).
  - intros m Hm. apply list_elem_of_fmap in Hm as (m1 & -> & Hin). rewrite sort_by_perm in Hin.
    apply (sorted_entry_ok (p_id <$> ps)). by apply (proj1 (list.Forall_forall _ _) H3).
Qed.

(** Two ordered lists of distinct names that describe the same things are one. *)
Lemma sorted_same {A K B} (name : A → K) (key : K → list (list Z)) `{!AntiSymm eq (by_key key)} (read : A → B) (of_read : B → K) xs ys :
  (∀ x, of_read (read x) = name x) →
  NoDup (name <$> xs) → NoDup (name <$> ys) →
  StronglySorted (by_key (key ∘ name)) xs → StronglySorted (by_key (key ∘ name)) ys →
  (∀ x, x ∈ xs → ∃ y, y ∈ ys ∧ read x = read y) → (∀ y, y ∈ ys → ∃ x, x ∈ xs ∧ read x = read y) →
  read <$> xs = read <$> ys.
Proof.
  intros Hr Nx Ny Sx Sy Hxy Hyx.
  assert (Hn : ∀ zs : list A, of_read <$> (read <$> zs) = name <$> zs).
  { intros zs. rewrite <- list_fmap_compose. apply list_fmap_ext. intros i z _. apply Hr. }
  assert (Nrx : NoDup (read <$> xs)) by (eapply NoDup_fmap_1; by rewrite Hn).
  assert (Nry : NoDup (read <$> ys)) by (eapply NoDup_fmap_1; by rewrite Hn).
  apply (sorted_once of_read key); [by rewrite Hn| | |].
  - apply NoDup_Permutation; [done..|]. intros z. rewrite !list_elem_of_fmap. split.
    + intros (x & -> & Hx). destruct (Hxy x Hx) as (y & Hy & He). by exists y.
    + intros (y & -> & Hy). destruct (Hyx y Hy) as (x & Hx & He). by exists x.
  - apply (StronglySorted_fmap read (by_key (key ∘ name))); [|done]. intros x y. unfold by_key, compose. by rewrite !Hr.
  - apply (StronglySorted_fmap read (by_key (key ∘ name))); [|done]. intros x y. unfold by_key, compose. by rewrite !Hr.
Qed.

Lemma find_offering m p i o :
  NoDup (okey <$> offerings m) → offering_published_as m p i = Some o ↔ o ∈ offerings m ∧ okey o = (p, i).
Proof.
  unfold offering_published_as. induction (offerings m) as [|y xs IH]; csimpl; [by intros _; rewrite elem_of_nil; naive_solver|].
  rewrite NoDup_cons, elem_of_cons. intros [Hni Hn]. destruct (bool_decide_reflect (o_provider y = p ∧ published_model_id y = i)) as [[<- <-]|Hne].
  - split; [intros [= ->]; by split; [left|]|]. intros [[->|Hin] Hi]; [done|]. destruct Hni. unfold okey at 1. rewrite <- Hi. by apply (list_elem_of_fmap_2 okey).
  - rewrite IH by done. unfold okey. naive_solver.
Qed.

Lemma paired_elem a b o q : entry_ok a → paired a b o = Some q → q ∈ offerings a ∧ o_provider q = o_provider o.
Proof.
  intros Ha. unfold paired. destruct (offerings_by a (o_provider o)) as [|f rest] eqn:Hby; [done|].
  assert (Hf : f ∈ offerings_by a (o_provider o)) by (rewrite Hby; left). apply list_elem_of_filter in Hf as [Hp Hin].
  destruct (bool_decide _); [by intros [= ->]|]. intros [Hq [= ? ?]]%find_offering; [done|apply Ha].
Qed.

(** An offering is compared with the one of its own key, where there is one. *)
Lemma paired_same_key a b o q : entry_ok a → q ∈ offerings a → okey q = okey o → paired a b o = Some q.
Proof.
  intros Ha Hq Hk. assert (Hp : o_provider q = o_provider o) by by injection Hk.
  assert (Hin : q ∈ offerings_by a (o_provider o)) by (apply list_elem_of_filter; done). unfold paired.
  destruct (offerings_by a (o_provider o)) as [|f rest]; [by apply elem_of_nil in Hin|]. destruct (bool_decide_reflect (rest = [] ∧ length (offerings_by b (o_provider o)) = 1%nat)) as [[-> _]|_].
  - by apply list_elem_of_singleton in Hin as ->.
  - apply find_offering; [apply Ha|]. split; [done|]. exact Hk.
Qed.

(** One that has no counterpart has none of its key. *)
Lemma unpaired a b o : entry_ok a → paired a b o = None → okey o ∉ okey <$> offerings a.
Proof.
  intros Ha Hn Hin. apply list_elem_of_fmap in Hin as (q & Hk & Hq). by rewrite (paired_same_key a b o q Ha Hq (eq_sym Hk)) in Hn.
Qed.

Lemma bind_nil {A B} (f : A → list B) xs : xs ≫= f = [] ↔ ∀ x, x ∈ xs → f x = [].
Proof.
  induction xs as [|x xs IH]; csimpl; [split; [by intros _ x Hx%elem_of_nil|done]|]. rewrite app_nil, IH.
  split; [intros [? ?] y [->|?]%elem_of_cons; auto|]. intros Hx. split; [apply Hx; left|]. intros y Hy. apply Hx. by right.
Qed.

(** *** No change, no difference *)

Lemma provider_changes_nil ps qs :
  NoDup (p_id <$> ps) → NoDup (p_id <$> qs) →
  StronglySorted (by_key (id_key ∘ p_id)) ps → StronglySorted (by_key (id_key ∘ p_id)) qs →
  provider_changes ps qs = [] ↔ read_provider <$> ps = read_provider <$> qs.
Proof.
  intros Nps Nqs Sps Sqs. unfold provider_changes. rewrite app_nil, !bind_nil. split.
  - intros [Hq Hp]. assert (Hqp : ∀ q, q ∈ qs → ∃ p, p ∈ ps ∧ read_provider p = read_provider q).
    { intros q Hin. specialize (Hq q Hin). destruct (find_provider ps (p_id q)) as [p|] eqn:Hf; [|done].
      apply (find_named p_id) in Hf as [Hpin Hid]; [|done]. apply when_nil, dec_stable in Hq. exists p. split; [done|].
      symmetry. by apply provider_differences_nil. }
    apply (sorted_same p_id id_key read_provider p_id); try done. intros p Hin. specialize (Hp p Hin).
    destruct (find_provider qs (p_id p)) as [q|] eqn:Hf; [|done]. apply (find_named p_id) in Hf as [Hqin Hid]; [|done].
    exists q. split; [done|]. destruct (Hqp q Hqin) as (p' & Hpin & He). assert (p' = p) as ->; [|done].
    assert (Hids : p_id p' = p_id p) by (apply (f_equal p_id) in He; cbn in He; congruence).
    by apply (named_once p_id ps).
  - intros He. assert (Hex : ∀ (xs ys : list CatalogProvider) x, read_provider <$> xs = read_provider <$> ys → x ∈ xs → ∃ y, y ∈ ys ∧ read_provider y = read_provider x).
    { intros xs ys x Heq Hx. apply (list_elem_of_fmap_2 read_provider) in Hx. rewrite Heq in Hx. apply list_elem_of_fmap in Hx as (y & ? & ?). by exists y. }
    split; [intros q Hin; destruct (Hex qs ps q (eq_sym He) Hin) as (p & Hpin & Hread)|intros p Hin; destruct (Hex ps qs p He Hin) as (q & Hqin & Hread)];
      pose proof (f_equal p_id Hread) as Hid; cbn in Hid.
    + assert (Hf : find_provider ps (p_id q) = Some p) by by apply (find_named p_id). rewrite Hf. apply when_nil.
      intros Hne. apply Hne. by apply provider_differences_nil; symmetry.
    + assert (Hf : find_provider qs (p_id p) = Some q) by by apply (find_named p_id). by rewrite Hf.
Qed.

Lemma read_counterpart {A B} (read : A → B) (xs ys : list A) x :
  read <$> xs = read <$> ys → x ∈ xs → ∃ y, y ∈ ys ∧ read y = read x.
Proof.
  intros Heq Hx. apply (list_elem_of_fmap_2 read) in Hx. rewrite Heq in Hx. apply list_elem_of_fmap in Hx as (y & ? & ?). by exists y.
Qed.

Lemma neutral_changes_nil m was now : neutral_changes m was now = [] ↔ was = now.
Proof.
  destruct was as [f|], now as [g|]; cbn; try naive_solver. rewrite when_nil. split.
  - intros H. apply dec_stable, differences_nil in H. by subst.
  - intros [= ->] Hne. apply Hne. by apply differences_nil.
Qed.

Lemma read_okey o q : read_offering o = read_offering q → okey o = okey q.
Proof. intros He. apply (f_equal okey) in He. exact He. Qed.

Lemma entry_changes_nil a m :
  entry_ok a → entry_ok m → m_id a = m_id m → entry_changes a m = [] ↔ read_entry a = read_entry m.
Proof.
  intros Ha Hm Hid. unfold entry_changes. rewrite !app_nil, !bind_nil, neutral_changes_nil. split.
  - intros (Hn & Hcur & Hprev). assert (Hread : read_offering <$> offerings a = read_offering <$> offerings m); [|unfold read_entry; congruence].
    assert (Hcp : ∀ o, o ∈ offerings m → ∃ q, q ∈ offerings a ∧ read_offering q = read_offering o).
    { intros o Ho. specialize (Hcur o Ho). destruct (paired a m o) as [q|] eqn:Hpair; [|done].
      destruct (paired_elem a m o q Ha Hpair) as [Hq Hp]. exists q. split; [done|].
      apply (offering_changes_nil (m_id m)); [by right|by rewrite (eo_model _ Ha q), (eo_model _ Hm o)|done]. }
    apply (sorted_same okey pair_key read_offering okey); [done|apply Ha|apply Hm|apply Ha|apply Hm| |exact Hcp].
    intros q Hq. specialize (Hprev q Hq). destruct (paired m a q) as [o|] eqn:Hpair; [|done]. destruct (paired_elem m a q o Hm Hpair) as [Ho Hp].
    destruct (Hcp o Ho) as (q' & Hq' & He). exists o. split; [done|]. assert (q' = q) as ->; [|done].
    (* the pairing is by the one offering of the provider, or by the key *)
    apply read_okey in He. unfold paired in Hpair. destruct (offerings_by m (o_provider q)) as [|f rest] eqn:Hby; [done|].
    destruct (bool_decide_reflect (rest = [] ∧ length (offerings_by a (o_provider q)) = 1%nat)) as [[_ Hone]|_].
    + assert (Hin : ∀ x, x ∈ offerings a → o_provider x = o_provider q → x ∈ offerings_by a (o_provider q)) by (intros x Hx Hxp; by apply list_elem_of_filter).
      destruct (offerings_by a (o_provider q)) as [|g [|]]; try done.
      pose proof (Hin q Hq eq_refl) as ->%list_elem_of_singleton. apply list_elem_of_singleton, Hin; [done|].
      injection He as He _. congruence.
    + apply find_offering in Hpair as [_ Hk]; [|apply Hm]. apply (named_once okey (offerings a)); [apply Ha|done..|]. exact (eq_trans He Hk).
  - intros [= _ Hn Hread]. split_and!; [done| |].
    + intros o Ho. destruct (read_counterpart read_offering _ _ o (eq_sym Hread) Ho) as (q & Hq & He).
      rewrite (paired_same_key a m o q Ha Hq (read_okey _ _ He)).
      apply offering_changes_nil; [left; by apply read_okey|by rewrite (eo_model _ Ha q), (eo_model _ Hm o)|done].
    + intros q Hq. destruct (read_counterpart read_offering _ _ q Hread Hq) as (o & Ho & He).
      by rewrite (paired_same_key m a q o Hm Ho (read_okey _ _ He)).
Qed.

Lemma model_changes_nil ps qs :
  NoDup (m_id <$> ps) → NoDup (m_id <$> qs) →
  StronglySorted (by_key (id_key ∘ m_id)) ps → StronglySorted (by_key (id_key ∘ m_id)) qs →
  (∀ m, m ∈ ps → entry_ok m) → (∀ m, m ∈ qs → entry_ok m) →
  model_changes ps qs = [] ↔ read_entry <$> ps = read_entry <$> qs.
Proof.
  intros Nps Nqs Sps Sqs Ops Oqs. unfold model_changes. rewrite !app_nil, !bind_nil. split.
  - intros (Hadd & Hrem & Hch).
    assert (Hqp : ∀ q, q ∈ qs → ∃ p, p ∈ ps ∧ m_id p = m_id q ∧ read_entry p = read_entry q).
    { intros q Hin. specialize (Hadd q Hin). specialize (Hch q Hin). destruct (find_model ps (m_id q)) as [p|] eqn:Hf; [|done].
      apply (find_named m_id) in Hf as [Hpin Hid]; [|done]. exists p. split_and!; [done..|]. apply entry_changes_nil; auto. }
    apply (sorted_same m_id id_key read_entry m_id); try done.
    + intros p Hin. specialize (Hrem p Hin). destruct (find_model qs (m_id p)) as [q|] eqn:Hf; [|done].
      apply (find_named m_id) in Hf as [Hqin Hid]; [|done]. exists q. split; [done|]. destruct (Hqp q Hqin) as (p' & Hpin & Hid' & He).
      by rewrite (named_once m_id ps p p' Nps Hin Hpin ltac:(congruence)).
    + intros q Hin. destruct (Hqp q Hin) as (p & ? & _ & ?). by exists p.
  - intros He. split_and!.
    + intros q Hin. destruct (read_counterpart read_entry _ _ q (eq_sym He) Hin) as (p & Hpin & Hread).
      assert (Hid : m_id p = m_id q) by by apply (f_equal m_id) in Hread.
      assert (Hf : find_model ps (m_id q) = Some p) by by apply (find_named m_id). by rewrite Hf.
    + intros p Hin. destruct (read_counterpart read_entry _ _ p He Hin) as (q & Hqin & Hread).
      assert (Hid : m_id q = m_id p) by by apply (f_equal m_id) in Hread.
      assert (Hf : find_model qs (m_id p) = Some q) by by apply (find_named m_id). by rewrite Hf.
    + intros q Hin. destruct (read_counterpart read_entry _ _ q (eq_sym He) Hin) as (p & Hpin & Hread).
      assert (Hid : m_id p = m_id q) by by apply (f_equal m_id) in Hread.
      assert (Hf : find_model ps (m_id q) = Some p) by by apply (find_named m_id). rewrite Hf. apply entry_changes_nil; auto.
Qed.

Lemma between_nil c d :
  content_ok c → content_ok d → between c d = [] ↔ read_content c = read_content d.
Proof.
  intros [P1 P2 P3 P4 P5] [Q1 Q2 Q3 Q4 Q5]. unfold between, read_content.
  assert (Hs : ∀ xs : list CatalogChange, sort_by change_key xs = [] ↔ xs = []).
  { intros xs. pose proof (sort_by_perm change_key xs) as Hp. split; [|by intros ->].
    intros He. rewrite He in Hp. by apply Permutation_nil in Hp. }
  rewrite Hs, app_nil, provider_changes_nil, model_changes_nil by done. split; [by intros [-> ->]|by intros [=]].
Qed.

(** *** What each change says *)

Lemma between_elem c d ch :
  ch ∈ between c d ↔ ch ∈ provider_changes (providers c) (providers d) ∨ ch ∈ model_changes (models c) (models d).
Proof. unfold between. by rewrite sort_by_perm, elem_of_app. Qed.

Lemma provider_changes_elem ps qs ch :
  ch ∈ provider_changes ps qs ↔
  (∃ q, q ∈ qs ∧ find_provider ps (p_id q) = None ∧ ch = ProviderAdded (p_id q)) ∨
  (∃ q p, q ∈ qs ∧ find_provider ps (p_id q) = Some p ∧ provider_differences q p ≠ [] ∧
     ch = ProviderChanged (p_id q) (provider_differences q p)) ∨
  (∃ p, p ∈ ps ∧ find_provider qs (p_id p) = None ∧ ch = ProviderRemoved (p_id p)).
Proof.
  unfold provider_changes, when. rewrite elem_of_app, !list_elem_of_bind. split.
  - intros [(q & Hch & Hq)|(p & Hch & Hp)].
    + destruct (find_provider ps (p_id q)) as [p|] eqn:Hf; [|left; exists q; by apply list_elem_of_singleton in Hch].
      case_bool_decide; [|by apply elem_of_nil in Hch]. right; left. exists q, p. by apply list_elem_of_singleton in Hch.
    + destruct (find_provider qs (p_id p)) eqn:Hf; [by apply elem_of_nil in Hch|]. right; right. exists p. by apply list_elem_of_singleton in Hch.
  - intros [(q & Hq & Hf & ->)|[(q & p & Hq & Hf & Hne & ->)|(p & Hp & Hf & ->)]].
    + left. exists q. rewrite Hf. split; [left|done].
    + left. exists q. rewrite Hf, bool_decide_true by done. split; [left|done].
    + right. exists p. rewrite Hf. split; [left|done].
Qed.

Definition comes (ch : CatalogChange) (m : CatalogModelEntry) : Prop :=
  ch = ModelAdded (m_id m) ∨ ∃ o, o ∈ offerings m ∧ ch = OfferingAdded (m_id m) (o_provider o) (published_model_id o).
Definition goes (ch : CatalogChange) (m : CatalogModelEntry) : Prop :=
  ch = ModelRemoved (m_id m) ∨ ∃ o, o ∈ offerings m ∧ ch = OfferingRemoved (m_id m) (o_provider o) (published_model_id o).

Lemma model_changes_elem ps qs ch :
  ch ∈ model_changes ps qs ↔
  (∃ m, m ∈ qs ∧ find_model ps (m_id m) = None ∧ comes ch m) ∨
  (∃ m, m ∈ ps ∧ find_model qs (m_id m) = None ∧ goes ch m) ∨
  (∃ m a, m ∈ qs ∧ find_model ps (m_id m) = Some a ∧ ch ∈ entry_changes a m).
Proof.
  unfold model_changes, comes, goes. rewrite !elem_of_app, !list_elem_of_bind. split.
  - intros [(m & Hch & Hm)|[(m & Hch & Hm)|(m & Hch & Hm)]]; destruct (find_model _ (m_id m)) as [a|] eqn:Hf;
      try by apply elem_of_nil in Hch.
    + left. exists m. rewrite elem_of_cons, list_elem_of_fmap in Hch. naive_solver.
    + right; left. exists m. rewrite elem_of_cons, list_elem_of_fmap in Hch. naive_solver.
    + right; right. by exists m, a.
  - intros [(m & Hm & Hf & Hch)|[(m & Hm & Hf & Hch)|(m & a & Hm & Hf & Hch)]].
    + left. exists m. rewrite Hf, elem_of_cons, list_elem_of_fmap. naive_solver.
    + right; left. exists m. rewrite Hf, elem_of_cons, list_elem_of_fmap. naive_solver.
    + right; right. exists m. by rewrite Hf.
Qed.

Lemma entry_changes_elem a m ch :
  ch ∈ entry_changes a m ↔
  ch ∈ neutral_changes (m_id m) (neutral a) (neutral m) ∨
  (∃ o, o ∈ offerings m ∧ paired a m o = None ∧ ch = OfferingAdded (m_id m) (o_provider o) (published_model_id o)) ∨
  (∃ o q, o ∈ offerings m ∧ paired a m o = Some q ∧ ch ∈ offering_changes (m_id m) q o) ∨
  (∃ q, q ∈ offerings a ∧ paired m a q = None ∧ ch = OfferingRemoved (m_id m) (o_provider q) (published_model_id q)).
Proof.
  unfold entry_changes. rewrite !elem_of_app, !list_elem_of_bind. split.
  - intros [?|[(o & Hch & Ho)|(q & Hch & Hq)]]; [by left|..].
    + destruct (paired a m o) as [q|] eqn:Hp; [right; right; left; by exists o, q|]. right; left. exists o. by apply list_elem_of_singleton in Hch.
    + destruct (paired m a q) eqn:Hp; [by apply elem_of_nil in Hch|]. right; right; right. exists q. by apply list_elem_of_singleton in Hch.
  - intros [?|[(o & Ho & Hp & ->)|[(o & q & Ho & Hp & Hch)|(q & Hq & Hp & ->)]]]; [by left|..].
    + right; left. exists o. rewrite Hp. split; [left|done].
    + right; left. exists o. by rewrite Hp.
    + right; right. exists q. rewrite Hp. split; [left|done].
Qed.

(** A change of a kind comes from one place. *)
Lemma neutral_changes_kind m was now ch :
  ch ∈ neutral_changes m was now → ch = NeutralDescribed m ∨ ch = NeutralDropped m ∨ ∃ fs, ch = NeutralChanged m fs.
Proof.
  destruct was as [f|], now as [g|]; cbn; rewrite ?list_elem_of_singleton, ?elem_of_nil; try naive_solver.
  unfold when. case_bool_decide; rewrite ?list_elem_of_singleton, ?elem_of_nil; naive_solver.
Qed.

Lemma offering_changes_price m q o ch :
  ch ∈ offering_changes m q o →
  (price q ≠ price o ∧ ch = PriceChanged m (o_provider o) (published_model_id o) (price q) (price o)) ∨
  (∃ x y, ch = LifecycleChanged m (o_provider o) (published_model_id o) x y) ∨
  (∃ fs, ch = CapabilitiesChanged m (o_provider o) (published_model_id o) fs ∨ ch = MetadataChanged m (o_provider o) (published_model_id o) fs).
Proof.
  unfold offering_changes, when. cbv zeta. rewrite !elem_of_app. intros [H|[H|[H|H]]]; (case_bool_decide || destruct (existsb _ _));
    rewrite ?list_elem_of_singleton, ?elem_of_nil in H; naive_solver.
Qed.

Lemma provider_added_elem c d p :
  ProviderAdded p ∈ between c d ↔ p ∈ p_id <$> providers d ∧ p ∉ p_id <$> providers c.
Proof.
  rewrite between_elem, provider_changes_elem, model_changes_elem. split.
  - intros [[(q & Hq & Hf & [= ->])|[(? & ? & ? & ? & ? & ?)|(? & ? & ? & ?)]]|[(m & _ & _ & [?|(? & _ & ?)])|[(m & _ & _ & [?|(? & _ & ?)])|(m & a & _ & _ & Hch)]]]; try done.
    + split; [by apply list_elem_of_fmap_2|]. by apply (find_unnamed p_id).
    + apply entry_changes_elem in Hch as [Hn|[(? & _ & _ & ?)|[(? & ? & _ & _ & Ho)|(? & _ & _ & ?)]]]; try done.
      * apply neutral_changes_kind in Hn. naive_solver.
      * apply offering_changes_price in Ho. naive_solver.
  - intros [(q & -> & Hq)%list_elem_of_fmap Hni]. left; left. exists q. split_and!; [done| |done]. by apply (find_unnamed p_id).
Qed.

Lemma model_added_elem c d m :
  ModelAdded m ∈ between c d ↔ m ∈ m_id <$> models d ∧ m ∉ m_id <$> models c.
Proof.
  rewrite between_elem, provider_changes_elem, model_changes_elem. split.
  - intros [[(q & Hq & Hf & ?)|[(? & ? & ? & ? & ? & ?)|(? & ? & ? & ?)]]|[(x & Hx & Hf & [[= ->]|(? & _ & ?)])|[(x & _ & _ & [?|(? & _ & ?)])|(x & a & _ & _ & Hch)]]]; try done.
    + split; [by apply list_elem_of_fmap_2|]. by apply (find_unnamed m_id).
    + apply entry_changes_elem in Hch as [Hn|[(? & _ & _ & ?)|[(? & ? & _ & _ & Ho)|(? & _ & _ & ?)]]]; try done.
      * apply neutral_changes_kind in Hn. naive_solver.
      * apply offering_changes_price in Ho. naive_solver.
  - intros [(x & -> & Hx)%list_elem_of_fmap Hni]. right; left. exists x. split_and!; [done| |by left]. by apply (find_unnamed m_id).
Qed.

Lemma offering_added_sound c d m p i :
  content_ok c → content_ok d → OfferingAdded m p i ∈ between c d →
  (∃ b o, b ∈ models d ∧ m_id b = m ∧ o ∈ offerings b ∧ okey o = (p, i)) ∧
  (∀ a q, a ∈ models c → m_id a = m → q ∈ offerings a → okey q ≠ (p, i)).
Proof.
  intros Hc Hd. rewrite between_elem, provider_changes_elem, model_changes_elem.
  intros [[(q & Hq & Hf & ?)|[(? & ? & ? & ? & ? & ?)|(? & ? & ? & ?)]]|[(x & Hx & Hf & [?|(o & Ho & [= -> -> ->])])|[(x & _ & _ & [?|(? & _ & ?)])|(x & a & Hx & Hf & Hch)]]]; try done.
  - split; [by exists x, o|]. intros a q Ha Hid. apply (find_unnamed m_id) in Hf. destruct Hf. rewrite <- Hid. by apply list_elem_of_fmap_2.
  - apply entry_changes_elem in Hch as [Hn|[(o & Ho & Hp & [= -> -> ->])|[(? & ? & _ & _ & Ho)|(? & _ & _ & ?)]]]; try done.
    + apply neutral_changes_kind in Hn. naive_solver.
    + apply (find_named m_id) in Hf as [Ha Hid]; [|apply Hc]. split; [by exists x, o|]. intros a' q Ha' Hid' Hq Hk.
      rewrite (named_once m_id (models c) a' a (co_models _ Hc) Ha' Ha ltac:(congruence)) in Hq.
      apply (unpaired a x o (co_entries _ Hc a Ha) Hp). rewrite <- (Hk : okey q = okey o). by apply list_elem_of_fmap_2.
    + apply offering_changes_price in Ho. naive_solver.
Qed.

(** The price of an offering both contents have under one key. *)
Lemma price_changed_elem c d a b q o x y :
  content_ok c → content_ok d → a ∈ models c → b ∈ models d → m_id a = m_id b →
  q ∈ offerings a → o ∈ offerings b → okey q = okey o →
  PriceChanged (m_id b) (o_provider o) (published_model_id o) x y ∈ between c d ↔ x = price q ∧ y = price o ∧ x ≠ y.
Proof.
  intros Hc Hd Ha Hb Hid Hq Ho Hk. pose proof (co_entries _ Hc a Ha) as Oa. pose proof (co_entries _ Hd b Hb) as Ob.
  rewrite between_elem, provider_changes_elem, model_changes_elem. split.
  - intros [[(? & ? & ? & ?)|[(? & ? & ? & ? & ? & ?)|(? & ? & ? & ?)]]|[(? & ? & ? & [?|(? & ? & ?)])|[(? & _ & _ & [?|(? & _ & ?)])|(b' & a' & Hb' & Hf & Hch)]]]; try done.
    apply (find_named m_id) in Hf as [Ha' Hid']; [|apply Hc].
    apply entry_changes_elem in Hch as [Hn|[(? & _ & _ & ?)|[(o' & q' & Ho' & Hp & Hoc)|(? & _ & _ & ?)]]]; try done.
    + apply neutral_changes_kind in Hn. naive_solver.
    + apply offering_changes_price in Hoc as [[Hne [= Hm Hpr Hpub -> ->]]|[(? & ? & ?)|(? & [?|?])]]; try done.
      assert (b' = b) as -> by (apply (named_once m_id (models d)); [apply Hd|done..]).
      assert (a' = a) as -> by (apply (named_once m_id (models c)); [apply Hc|done..|congruence]).
      assert (o' = o) as -> by (apply (named_once okey (offerings b)); [apply Ob|done..|unfold okey; congruence]).
      rewrite (paired_same_key a b o q Oa Hq Hk) in Hp. by injection Hp as <-.
  - intros (-> & -> & Hne). right; right; right. exists b, a. split_and!; [done|by apply (find_named m_id); [apply Hc|]|].
    apply entry_changes_elem. right; right; left. exists o, q. split_and!; [done|by apply paired_same_key|].
    unfold offering_changes, when. cbv zeta. rewrite !elem_of_app. right; right; right. rewrite bool_decide_true by done. left.
Qed.

Lemma ranked_sum (d : list CatalogChange) :
  let c := counts d in
  (providers_added c + providers_removed c + providers_changed c + models_added c + models_removed c + offerings_added c +
   offerings_removed c + neutral_changed c + lifecycle_changed c + capabilities_changed c + metadata_changed c + prices_changed c)%nat = length d.
Proof.
  cbn. unfold ranked. induction d as [|ch d IH]; [done|]. destruct ch; cbn in *; lia.
Qed.
(** ** Properties *)

(** An import is what it says, in whatever order it says it: providers, models
    and the offerings of a model may come in any order and the content, its
    identity included, or the refusal with what it names, is the same. *)
Theorem content_order_irrelevant (sha256 : list Z → list Z) ps ps' ms ms' :
  ps ≡ₚ ps' → reordered ms ms' → content_new sha256 ps ms = content_new sha256 ps' ms'.
Proof.
  intros Hp Hm. pose proof (reordered_ids _ _ Hm) as Hids. unfold content_new.
  assert (Hnil : ms = [] ↔ ms' = []).
  { apply Permutation_length in Hids. rewrite !length_fmap in Hids. by rewrite <- !length_zero_iff_nil, Hids. }
  destruct ms as [|m0 ms0] eqn:E1, ms' as [|m1 ms1] eqn:E2;
    [done|by discriminate (proj1 Hnil eq_refl)|by discriminate (proj2 Hnil eq_refl)|]. rewrite <- E1, <- E2 in *. clear E1 E2 m0 ms0 m1 ms1 Hnil.
  pose proof (sort_by_names p_id id_key ps ps' ltac:(by rewrite Hp)) as Hpk.
  pose proof (sort_by_names m_id id_key ms ms' Hids) as Hmk.
  pose proof (sorted_ids_repeat p_id ps) as Hpn. pose proof (sorted_ids_repeat m_id ms) as Hmn.
  change (λ p, id_key (p_id p)) with (id_key ∘ p_id) in *. change (λ m, id_key (m_id m)) with (id_key ∘ m_id) in *.
  rewrite <- Hpk, <- Hmk. destruct (first_duplicate (p_id <$> _)); [done|]. rewrite (sort_by_one p_id id_key ps ps'); [|by apply Hpn|done].
  destruct (first_duplicate (m_id <$> _)); [done|]. destruct Hm as (ms1 & Hp1 & Hf).
  assert (Hn : NoDup (m_id <$> ms)) by by apply Hmn.
  rewrite (sort_by_one m_id id_key ms ms1 Hn Hp1).
  rewrite (check_models_shuffled (p_id <$> sort_by (id_key ∘ p_id) ps') (sort_by (id_key ∘ m_id) ms1) (sort_by (id_key ∘ m_id) ms')); [done|].
  apply (sort_by_pairs m_id id_key shuffled); [intros x y Hxy; apply Hxy|by rewrite <- Hp1|done].
Qed.

(** The identity is of what was read and of nothing else.  Two contents that
    describe the same catalogue have one identity, wherever in their documents each
    fact stood; and two contents of one identity describe the same catalogue, fact
    for fact and price for price, or SHA-256 has been made to collide. *)
Theorem identity_is_content (sha256 : list Z → list Z) ps ms qs ns (c d : CatalogContent) :
  content_new sha256 ps ms = Ok c → content_new sha256 qs ns = Ok d →
  Canonical.Canonical.representable (canonical c) → Canonical.Canonical.representable (canonical d) →
  (read_content c = read_content d → content_id c = content_id d) ∧
  (content_id c = content_id d → read_content c = read_content d ∨ ∃ x y, x ≠ y ∧ sha256 x = sha256 y).
Proof.
  intros Hc Hd Rc Rd. apply content_new_Ok in Hc as (_ & P1 & M1 & I1), Hd as (_ & P2 & M2 & I2).
  unfold canonical in *. rewrite <- P1, <- M1 in I1. rewrite <- P2, <- M2 in I2. split.
  - intros [= Hps Hms]. rewrite <- form_of_read in I1, I2. rewrite Hps, Hms in I1. congruence.
  - intros He. unfold checksum in I1, I2. 
    apply Canonical.Canonical.bind_Ok_inv in I1 as (x & Hx & I1). apply Canonical.Canonical.bind_Ok_inv in I2 as (y & Hy & I2).
    injection I1 as I1. injection I2 as I2. unfold Canonical.Canonical.Checksum_of in *.
    destruct (decide (x = y)) as [<-|Hne]; [left|right; exists x, y; split; [done|congruence]].
    unfold Canonical.Canonical.to_canonical_bytes, Canonical.Canonical.encode in Hx, Hy.
    apply Canonical.Canonical.bind_Ok_inv in Hx as (vx & Hvx & Ex). apply Canonical.Canonical.bind_Ok_inv in Hy as (vy & Hvy & Ey).
    assert (vx = vy) as <- by (injection Ex as Ex; injection Ey as Ey; congruence).
    destruct (Canonical.Canonical.encodings_parse _ _ _ _ [] [] Rc Rd Hvx Hvy eq_refl) as [Hs _].
    apply content_same in Hs as [Hps Hms]. unfold read_content. by rewrite Hps, Hms.
Qed.

(** A diff is empty exactly when the two contents describe the same catalogue:
    whatever the identity notices the diff names.  It is in order, and its counts
    add up to its length. *)
Theorem diff_names_every_change (sha256 : list Z → list Z) ps ms qs ns (c d : CatalogContent) :
  content_new sha256 ps ms = Ok c → content_new sha256 qs ns = Ok d →
  (between c d = [] ↔ read_content c = read_content d) ∧
  StronglySorted (by_key change_key) (between c d) ∧
  let n := counts (between c d) in
  (providers_added n + providers_removed n + providers_changed n + models_added n + models_removed n + offerings_added n +
   offerings_removed n + neutral_changed n + lifecycle_changed n + capabilities_changed n + metadata_changed n + prices_changed n)%nat =
  length (between c d).
Proof.
  intros Hc Hd. split; [apply between_nil; by eapply content_new_ok|]. split; [apply sort_by_sorted|]. apply ranked_sum.
Qed.

(** What a diff says is so.  A provider or a model is reported as added exactly
    when only the newer content has it; an offering reported as added is in the
    newer content and its key is not in the older; and the price of an offering
    both contents have is reported exactly when it differs, from what it was to
    what it is. *)
Theorem diff_says_what_changed (sha256 : list Z → list Z) ps ms qs ns (c d : CatalogContent) :
  content_new sha256 ps ms = Ok c → content_new sha256 qs ns = Ok d →
  (∀ p, ProviderAdded p ∈ between c d ↔ p ∈ p_id <$> providers d ∧ p ∉ p_id <$> providers c) ∧
  (∀ m, ModelAdded m ∈ between c d ↔ m ∈ m_id <$> models d ∧ m ∉ m_id <$> models c) ∧
  (∀ m p i, OfferingAdded m p i ∈ between c d →
    (∃ b o, b ∈ models d ∧ m_id b = m ∧ o ∈ offerings b ∧ okey o = (p, i)) ∧
    (∀ a q, a ∈ models c → m_id a = m → q ∈ offerings a → okey q ≠ (p, i))) ∧
  (∀ a b q o x y, a ∈ models c → b ∈ models d → m_id a = m_id b → q ∈ offerings a → o ∈ offerings b → okey q = okey o →
    PriceChanged (m_id b) (o_provider o) (published_model_id o) x y ∈ between c d ↔ x = price q ∧ y = price o ∧ x ≠ y).
Proof.
  intros Hc%content_new_ok Hd%content_new_ok. split_and!.
  - apply provider_added_elem.
  - apply model_added_elem.
  - intros m p i. by apply offering_added_sound.
  - intros a b q o x y Ha Hb Hid Hq Ho Hk. by apply (price_changed_elem c d a b q o x y).
Qed.

(** What makes a content: an import is accepted exactly when every provider,
    model and offering is named once, every offering is filed under its own model
    and by a provider the import describes, something is offered, and its text has
    a canonical form. *)
Theorem content_exact (sha256 : list Z → list Z) ps ms :
  Canonical.Canonical.representable (canonical_content (sorted_providers ps) (sorted_models ms)) →
  is_ok (content_new sha256 ps ms) = true ↔
  describes ps ms ∧ Canonical.Canonical.canonical_form (canonical_content (sorted_providers ps) (sorted_models ms)).
Proof.
  intros R. rewrite <- (Canonical.Canonical.canonical_form_spec _ R).
  assert (He : ∀ v, is_ok (Canonical.Canonical.write v) = true ↔ ∃ id, checksum sha256 v = Ok id).
  { intros v. unfold checksum, Canonical.Canonical.to_canonical_bytes, Canonical.Canonical.encode.
    destruct (Canonical.Canonical.write v); cbn; split; try done; [intros _; by eexists|by intros [id ?]]. }
  rewrite He. split.
  - destruct (content_new sha256 ps ms) as [c|] eqn:Hc; [|done]. intros _. apply content_new_Ok in Hc as (Hd & _ & _ & Hid). split; [done|by eexists].
  - intros [Hd [id Hid]]. by rewrite (proj2 (content_new_Ok sha256 ps ms (mkContent (sorted_providers ps) (sorted_models ms) id)) (conj Hd (conj eq_refl (conj eq_refl Hid)))).
Qed.

(** ** Concrete contents *)

Definition demo_facts (l : ModelLifecycle) : ModelFacts :=
  mkFacts (Some "GPT") None {[ToolCall; Reasoning]} {[Text; Image]} {[Text]} (mkLimits (Some 128000) None None) l None None None.
Definition demo_rates (n : Z) : ObservedPrice := Pricing.mkObserved (Pricing.mkRates n (4 * n) None None None None None) [].
Definition demo_offering (p published : string) (n : Z) (at_ : string) : ProviderOffering :=
  mkOffering p "gpt" published (demo_facts Available) [] (Some (demo_rates n)) (mkEndpoint None None None) at_.
Definition demo_provider (i at_ : string) : CatalogProvider := mkProvider i (Some i) None (mkEndpoint None (Some "sdk") None) ["KEY"] at_.
Definition demo_hash : list Z → list Z := λ bs, bs.
Definition demo_ps : list CatalogProvider := [demo_provider "b" "/providers/b"; demo_provider "a" "/providers/a"].
Definition demo_ms (n : Z) : list CatalogModelEntry :=
  [mkEntry "gpt" (Some (demo_facts Beta)) [demo_offering "b" "gpt" n "/1"; demo_offering "a" "gpt-latest" 5 "/2"]].

Example import_accepted : is_ok (content_new demo_hash demo_ps (demo_ms 7)) = true.
Proof. vm_compute. reflexivity. Qed.

Example import_changes_identity :
  match content_new demo_hash demo_ps (demo_ms 7), content_new demo_hash demo_ps (demo_ms 8) with
  | Ok c, Ok d => bool_decide (content_id c = content_id d)
  | _, _ => true
  end = false.
Proof. vm_compute. reflexivity. Qed.

Example import_changes_counted :
  match content_new demo_hash demo_ps (demo_ms 7), content_new demo_hash demo_ps (demo_ms 8) with
  | Ok c, Ok d => (prices_changed (counts (between c d)), length (between c d))
  | _, _ => (0, 0)%nat
  end = (1, 1)%nat.
Proof. vm_compute. reflexivity. Qed.

Example reversed_import_same :
  demo_ps ≡ₚ reverse demo_ps ∧ content_new demo_hash demo_ps (demo_ms 7) = content_new demo_hash (reverse demo_ps) (demo_ms 7).
Proof.
  split; [symmetry; apply reverse_Permutation|]. apply (content_order_irrelevant demo_hash).
  - symmetry. apply reverse_Permutation.
  - exists (demo_ms 7). split; [reflexivity|]. apply Reflexive_instance_0. intros m. by split_and!.
Defined.

End CatalogContent.
