(* ===== verification/Catalog.v ===== *)
(** * The imported catalogue and its refreshes ([crates/gateway/src/backends]:
    [catalog.rs], [catalog_store.rs], [catalog_refresh.rs])

    The holder that a failed import cannot disturb, the contract of the store that
    retains imports, and the refresher that decides what an import may disturb,
    with what the network and the store may do to each of its calls.  The reader
    of the models.dev document, and with it the content of a catalogue and its
    identity, is an interface; so are SHA-256 and the bundled seed.  What a content
    is and how two of them differ is [CatalogContent]; metrics and log lines are
    left out. *)

From S2P Require Import Prelude Text Json Canonical Backoff Config.

Module Catalog.
Import Canonical.Canonical (BlobRef, BlobRef_of, BlobError, verify).
Import Config.Config (RefreshSchedule, validate_schedule, InvalidSchedule, adapter_new, interval, timeout, backoff).
#[local] Open Scope Z_scope.

(** ** Provenance *)

Record SourceValidators := mkValidators { etag : option string; last_modified : option string }.
Definition no_validators : SourceValidators := mkValidators None None.

Definition is_empty (v : SourceValidators) : bool := bool_decide (etag v = None) && bool_decide (last_modified v = None).

(** The stated validators over the held ones. *)
Definition carry_over (held stated : SourceValidators) : SourceValidators :=
  mkValidators (match etag stated with Some e => Some e | None => etag held end)
    (match last_modified stated with Some m => Some m | None => last_modified held end).

Definition CatalogContentId : Type := list Z.
Definition MODELS_DEV_CATALOG_V1 : string := "models.dev/catalog.json/v1".

Record SourceSnapshot := mkSource {
  source_url : string;
  schema_version : string;
  validators : SourceValidators;
  fetched_at : Z;
  raw : BlobRef;
  src_content_id : CatalogContentId;
}.

Inductive RefusalReason :=
| Unreachable | Denied | Oversized | UnsupportedEndpoint | NotJson | Schema | IdMismatch | Identifier | UnknownStatus
| UnknownModality | Price | UnknownTierType | DuplicateTier | NeutralPrice | UncanonicalizableText | AmbiguousModelKey
| ContentReason | NotRetained | UnsolicitedUnchanged | Unknown.

Record Refusal := mkRefusal { reason : RefusalReason; pointer : option string }.
Definition refusal_of (r : RefusalReason) : Refusal := mkRefusal r None.

(** ** Imports as a store retains them *)

Record RetainedCatalog := mkRetained { r_source : SourceSnapshot; payload : list Z }.
Definition retained_id (r : RetainedCatalog) : CatalogContentId := src_content_id (r_source r).

Inductive Retention := Retained | AlreadyRetained.

Inductive CatalogStoreError :=
| StoreUnavailable (message : string)
| Corrupt (message : string)
| StoreDenied (message : string).

Record StoredCatalogState := mkStored {
  stored_active : option RetainedCatalog;
  stored_refusals : Z;
  stored_last : option RefusalReason;
}.

Record ActivePointer := mkPointer { p_content_id : CatalogContentId; p_validators : SourceValidators; confirmed_at : Z }.

Record StoreState := mkStore {
  retained : gmap CatalogContentId RetainedCatalog;
  active_pointer : option ActivePointer;
  st_refusals : Z;
  st_last : option RefusalReason;
}.

Definition store_empty : StoreState := mkStore ∅ None 0 None.

Definition set_validators (s : SourceSnapshot) (v : SourceValidators) : SourceSnapshot :=
  mkSource (source_url s) (schema_version s) v (fetched_at s) (raw s) (src_content_id s).
Definition set_fetched (s : SourceSnapshot) (t : Z) : SourceSnapshot :=
  mkSource (source_url s) (schema_version s) (validators s) t (raw s) (src_content_id s).

(** [CatalogStore::load] *)
Definition load (s : StoreState) : result CatalogStoreError StoredCatalogState :=
  active ← match active_pointer s with
    | None => Ok None
    | Some p =>
        match retained s !! p_content_id p with
        | None => Err (Corrupt "active catalogue is not retained")
        | Some r => Ok (Some (mkRetained (set_fetched (set_validators (r_source r) (p_validators p)) (confirmed_at p)) (payload r)))
        end
    end;
  Ok (mkStored active (st_refusals s) (st_last s)).

(** [CatalogStore::activate] *)
Definition activate (s : StoreState) (import : RetainedCatalog) (activated_at : Z) : Retention * StoreState :=
  let id := retained_id import in
  let '(retention, kept) :=
    match retained s !! id with
    | Some _ => (AlreadyRetained, retained s)
    | None => (Retained, <[id := import]> (retained s))
    end in
  let v :=
    match active_pointer s with
    | Some p => if bool_decide (p_content_id p = id) then carry_over (p_validators p) (validators (r_source import))
                else validators (r_source import)
    | None => validators (r_source import)
    end in
  (retention, mkStore kept (Some (mkPointer id v activated_at)) 0 None).

(** [CatalogStore::confirm] *)
Definition confirm (s : StoreState) (id : CatalogContentId) (v : SourceValidators) (at_ : Z) : bool * StoreState :=
  match active_pointer s with
  | Some p =>
      if bool_decide (p_content_id p = id) then
        (true, mkStore (retained s) (Some (mkPointer id (carry_over (p_validators p) v) at_)) 0 None)
      else (false, s)
  | None => (false, s)
  end.

(** [CatalogStore::refuse] *)
Definition refuse (s : StoreState) (r : RefusalReason) : StoreState :=
  mkStore (retained s) (active_pointer s) (saturating_add U32_MAX (st_refusals s) 1) (Some r).

(** What may become of one call of the store: it answers; it fails, or does not
    answer in time, with or without its effect. *)
Inductive Fate := Done | Fails (applied : bool) (e : CatalogStoreError) | Hangs (applied : bool).

Definition effect {A} (before : StoreState) (call : A * StoreState) (f : Fate) : StoreState :=
  match f with
  | Done => call.2
  | Fails applied _ | Hangs applied => if applied then call.2 else before
  end.

(** ** The document reader *)

Class CatalogDocuments := {
  Content : Type;
  content_id : Content → CatalogContentId;
  (* the reading and the normalising of [ModelsDevAdapter::parse] *)
  normalise : list Z → result Refusal Content;
  sha256 : list Z → list Z;
  (* the bundled seed *)
  SEED_PAYLOAD : list Z;
  seed_content : Content;
  seed_validators : SourceValidators;
  seed_fetched_at : Z;
  seed_parses : normalise SEED_PAYLOAD = Ok seed_content;
}.

Section Catalog.
Context `{CatalogDocuments}.

Record CatalogSnapshot := mkSnapshot { source : SourceSnapshot; content : Content }.

Definition source_snapshot (url schema : string) (bytes : list Z) (c : Content) (v : SourceValidators) (at_ : Z) : SourceSnapshot :=
  mkSource url schema v at_ (BlobRef_of sha256 Canonical.CatalogSnapshot bytes) (content_id c).

(** [ModelsDevAdapter::parse] around the reader. *)
Definition parse (url : string) (bytes : list Z) (v : SourceValidators) (at_ : Z) : result Refusal CatalogSnapshot :=
  c ← normalise bytes;
  Ok (mkSnapshot (source_snapshot url MODELS_DEV_CATALOG_V1 bytes c v at_) c).

Definition seed_snapshot : CatalogSnapshot :=
  mkSnapshot (source_snapshot Config.MODELS_DEV_CATALOG_URL MODELS_DEV_CATALOG_V1 SEED_PAYLOAD seed_content seed_validators seed_fetched_at)
    seed_content.

Inductive HydrationError :=
| UnknownSchema (id : CatalogContentId) (schema : string)
| Payload (id : CatalogContentId) (e : BlobError)
| Parse (id : CatalogContentId) (e : Refusal)
| Drift (id recomputed : CatalogContentId).

Definition hydration_refusal (e : HydrationError) : Refusal :=
  match e with Parse _ r => r | _ => refusal_of NotRetained end.

Definition hydrate (r : RetainedCatalog) : result HydrationError CatalogSnapshot :=
  let id := retained_id r in
  if negb (bool_decide (schema_version (r_source r) = MODELS_DEV_CATALOG_V1)) then Err (UnknownSchema id (schema_version (r_source r)))
  else
    _ ← map_err (Payload id) (verify sha256 (raw (r_source r)) (payload r));
    _ ← map_err (λ _, Parse id (refusal_of UnsupportedEndpoint)) (adapter_new (source_url (r_source r)));
    s ← map_err (Parse id) (parse (source_url (r_source r)) (payload r) (validators (r_source r)) (fetched_at (r_source r)));
    if bool_decide (src_content_id (source s) = id) then Ok s else Err (Drift id (src_content_id (source s))).

(** ** The holder *)

Record LastKnownGoodCatalog := mkHolder {
  active : option CatalogSnapshot;
  consecutive_refusals : Z;
  last_refusal : option Refusal;
}.

Definition holder_new : LastKnownGoodCatalog := mkHolder None 0 None.

Definition held_validators (h : LastKnownGoodCatalog) : option SourceValidators := validators ∘ source <$> active h.

Definition can_confirm_unchanged (h : LastKnownGoodCatalog) (asked_with : option SourceValidators) : bool :=
  bool_decide (is_Some (active h)) && match asked_with with Some v => negb (is_empty v) | None => false end.

(** Diffs left out. *)
Inductive Admission := Unchanged (id : CatalogContentId) | Updated (id : CatalogContentId) | Initial (id : CatalogContentId).
Definition admission_id (a : Admission) : CatalogContentId := match a with Unchanged i | Updated i | Initial i => i end.

Definition admit_snapshot (h : LastKnownGoodCatalog) (s : CatalogSnapshot) : Admission * LastKnownGoodCatalog :=
  let id := content_id (content s) in
  let '(admission, s) :=
    match active h with
    | None => (Initial id, s)
    | Some a =>
        if bool_decide (content_id (content a) = id) then
          (Unchanged id, mkSnapshot (set_validators (source s) (carry_over (validators (source a)) (validators (source s)))) (content s))
        else (Updated id, s)
    end in
  (admission, mkHolder (Some s) 0 None).

Definition admit_as_of (h : LastKnownGoodCatalog) (s : CatalogSnapshot) (at_ : Z) : Admission * LastKnownGoodCatalog :=
  admit_snapshot h (mkSnapshot (set_fetched (source s) at_) (content s)).

Definition record_unchanged (h : LastKnownGoodCatalog) (v : SourceValidators) (at_ : Z) : bool * LastKnownGoodCatalog :=
  match active h with
  | None => (false, h)
  | Some a =>
      (true, mkHolder (Some (mkSnapshot (set_fetched (set_validators (source a) (carry_over (validators (source a)) v)) at_) (content a))) 0 None)
  end.

Definition record_refusal (h : LastKnownGoodCatalog) (r : Refusal) : LastKnownGoodCatalog :=
  mkHolder (active h) (saturating_add U32_MAX (consecutive_refusals h) 1) (Some r).

Inductive CatalogRefresh := AnswerUnchanged (v : SourceValidators) | AnswerUpdated (s : CatalogSnapshot) (bytes : list Z).

Inductive Refreshed := Advanced (a : Admission) | Refused (r : Refusal).

(** [record_refresh]; an error stands for its refusal.  [None] is the panic of the
    [expect] on the active snapshot. *)
Definition record_refresh (h : LastKnownGoodCatalog) (refreshed : result Refusal CatalogRefresh)
    (asked_with : option SourceValidators) (at_ : Z) : option (result Refusal Refreshed * LastKnownGoodCatalog) :=
  match refreshed with
  | Ok (AnswerUnchanged v) =>
      if negb (can_confirm_unchanged h asked_with) then
        let r := refusal_of UnsolicitedUnchanged in Some (Ok (Refused r), record_refusal h r)
      else
        let h := (record_unchanged h v at_).2 in
        a ← active h;
        Some (Ok (Advanced (Unchanged (content_id (content a)))), h)
  | Ok (AnswerUpdated s _) =>
      let '(a, h) := admit_as_of h s at_ in Some (Ok (Advanced a), h)
  | Err r => Some (Err r, record_refusal h r)
  end.

(** [report]: what is active and since when, and the run of refusals. *)
Definition report (h : LastKnownGoodCatalog) (now : Z) : option (CatalogContentId * Z * Z) * Z * option RefusalReason :=
  ((λ s, (content_id (content s), fetched_at (source s), Z.max 0 (now - fetched_at (source s)))) <$> active h,
   consecutive_refusals h, reason <$> last_refusal h).

(** ** The refresher *)

Inductive RefreshTrigger := Scheduled | Manual.
#[export] Instance RefreshTrigger_eq_dec : EqDecision RefreshTrigger.
Proof. solve_decision. Defined.
Inductive Bootstrap := BootEmpty | BootSeed.

Inductive Restored := Stored (id : CatalogContentId) (confirmed : Z) | Seeded (id : CatalogContentId) | RestoredEmpty.

Inductive RefreshError :=
| ESource (r : Refusal)
| EStore (e : CatalogStoreError)
| EStored (e : HydrationError)
| EInvalidImport
| ETimedOut (after : Z).

Definition refusal (e : RefreshError) : Refusal :=
  match e with
  | ESource r => r
  | EStore _ => refusal_of NotRetained
  | EStored e => hydration_refusal e
  | EInvalidImport => refusal_of ContentReason
  | ETimedOut _ => refusal_of Unreachable
  end.

Inductive RefreshOutcome :=
| OAdmitted (trigger : RefreshTrigger) (a : Admission) (retention : option Retention) (next_due : Z)
| ORefused (trigger : RefreshTrigger) (r : Refusal) (retry_in next_due : Z)
| ONotDue (next_due : Z).

Record CatalogRefresher := mkRefresher {
  schedule : RefreshSchedule;
  bootstrap : Bootstrap;
  catalogue : LastKnownGoodCatalog;
  pace : Backoff.Backoff;
  next_due : Z;
}.

Definition set_catalogue (r : CatalogRefresher) h := mkRefresher (schedule r) (bootstrap r) h (pace r) (next_due r).
Definition set_pace (r : CatalogRefresher) p due := mkRefresher (schedule r) (bootstrap r) (catalogue r) p due.

Definition refresher_new (s : RefreshSchedule) (b : Bootstrap) (now : Z) : result InvalidSchedule CatalogRefresher :=
  _ ← validate_schedule s;
  Ok (mkRefresher s b holder_new (Backoff.new (backoff s)) now).

(** What one restore or refresh meets: the source's answer, if it comes in time,
    and the fate of each call of the store. *)
Record Weather := mkWeather {
  answers : option (result Refusal CatalogRefresh);
  loads : Fate;
  writes : Fate;
  counts : Fate;
}.

(** [record_refusal_durably]: best effort. *)
Definition record_refusal_durably (st : StoreState) (r : RefusalReason) (f : Fate) : StoreState :=
  effect st (tt, refuse st r) f.

Definition count_refusal (r : CatalogRefresher) (st : StoreState) (x : Refusal) (f : Fate) : CatalogRefresher * StoreState :=
  (set_catalogue r (record_refusal (catalogue r) x), record_refusal_durably st (reason x) f).

(** A call of the store outside the timeout of an attempt; a hang is not an
    answer. *)
Definition answered {A} (f : Fate) (a : A) : option (result CatalogStoreError A) :=
  match f with Done => Some (Ok a) | Fails _ e => Some (Err e) | Hangs _ => None end.

(** [restore].  [None] is a store that does not answer: the caller waits. *)
Definition restore (r : CatalogRefresher) (st : StoreState) (now : Z) (w : Weather) :
    option (result RefreshError Restored * CatalogRefresher) * StoreState :=
  match answered (loads w) tt with
  | None => (None, st)
  | Some answer =>
      match (_ ← answer; load st) with
      | Err e => let '(r, st) := count_refusal r st (refusal (EStore e)) (counts w) in (Some (Err (EStore e), r), st)
      | Ok stored =>
          let restored_as s := mkHolder s (stored_refusals stored) (refusal_of <$> stored_last stored) in
          match stored_active stored with
          | Some a =>
              match hydrate a with
              | Err e =>
                  let '(r, st) := count_refusal (set_catalogue r (restored_as None)) st (refusal (EStored e)) (counts w) in
                  (Some (Err (EStored e), r), st)
              | Ok s => (Some (Ok (Stored (content_id (content s)) (fetched_at (r_source a))), set_catalogue r (restored_as (Some s))), st)
              end
          | None =>
              let r := set_catalogue r (restored_as None) in
              match bootstrap r with
              | BootEmpty => (Some (Ok RestoredEmpty, r), st)
              | BootSeed =>
                  let call := activate st (mkRetained (source seed_snapshot) SEED_PAYLOAD) now in
                  let st := effect st call (writes w) in
                  match answered (writes w) tt with
                  | None => (None, st)
                  | Some (Err e) => let '(r, st) := count_refusal r st (refusal (EStore e)) (counts w) in (Some (Err (EStore e), r), st)
                  | Some (Ok _) =>
                      let '(a, h) := admit_as_of (catalogue r) seed_snapshot now in
                      (Some (Ok (Seeded (admission_id a)), set_catalogue r h), st)
                  end
              end
          end
      end
  end.

(** [retain]: what the source answered is written before any of it becomes
    active.  A hang is cut by the attempt's timeout. *)
Definition retain (r : CatalogRefresher) (st : StoreState) (answer : CatalogRefresh) (asked_with : option SourceValidators)
    (now : Z) (f : Fate) : result RefreshError (CatalogRefresh * option Retention) * StoreState :=
  match answer with
  | AnswerUpdated s bytes =>
      if negb (bool_decide (src_content_id (source s) = content_id (content s))) then (Err EInvalidImport, st)
      else match verify sha256 (raw (source s)) bytes with
           | Err _ => (Err EInvalidImport, st)
           | Ok _ =>
               let call := activate st (mkRetained (source s) bytes) now in
               (match f with
                | Done => Ok (AnswerUpdated s bytes, Some call.1)
                | Fails _ e => Err (EStore e)
                | Hangs _ => Err (ETimedOut (timeout (schedule r)))
                end, effect st call f)
           end
  | AnswerUnchanged v =>
      match (if can_confirm_unchanged (catalogue r) asked_with then active (catalogue r) else None) with
      | Some a =>
          let call := confirm st (content_id (content a)) v now in
          (match f with
           | Done => Ok (AnswerUnchanged v, None)
           | Fails _ e => Err (EStore e)
           | Hangs _ => Err (ETimedOut (timeout (schedule r)))
           end, effect st call f)
      | None => (Ok (AnswerUnchanged v, None), st)
      end
  end.

Definition attempt (r : CatalogRefresher) (st : StoreState) (asked_with : option SourceValidators) (now : Z) (w : Weather) :
    result RefreshError (CatalogRefresh * option Retention) * StoreState :=
  match answers w with
  | None => (Err (ETimedOut (timeout (schedule r))), st)
  | Some (Err x) => (Err (ESource x), st)
  | Some (Ok answer) => retain r st answer asked_with now (writes w)
  end.

Definition refused (r : CatalogRefresher) (st : StoreState) (trigger : RefreshTrigger) (x : Refusal) (now : Z) (f : Fate) :
    RefreshOutcome * CatalogRefresher * StoreState :=
  let st := record_refusal_durably st (reason x) f in
  let '(retry_in, p) := Backoff.fail (pace r) in
  (ORefused trigger x retry_in (now + retry_in), set_pace r p (now + retry_in), st).

(** [refresh] *)
Definition refresh (r : CatalogRefresher) (st : StoreState) (trigger : RefreshTrigger) (now : Z) (w : Weather) :
    option (RefreshOutcome * CatalogRefresher * StoreState) :=
  if bool_decide (trigger = Scheduled) && (now <? next_due r) then Some (ONotDue (next_due r), r, st)
  else
    let asked_with := held_validators (catalogue r) in
    let '(answer, st) := attempt r st asked_with now w in
    let retention := match answer with Ok (_, k) => k | Err _ => None end in
    '(recorded, h) ← record_refresh (catalogue r) (match answer with Ok (a, _) => Ok a | Err e => Err (refusal e) end) asked_with now;
    let r := set_catalogue r h in
    Some (match recorded with
          | Ok (Advanced a) =>
              let r := set_pace r (Backoff.succeed (pace r)) (now + interval (schedule r)) in
              (OAdmitted trigger a retention (next_due r), r, st)
          | Ok (Refused x) => refused r st trigger x now (counts w)
          | Err x => refused r st trigger x now (counts w)
          end).

(** ** A deployment: replicas over one store *)

Record World := mkWorld { store : StoreState; replicas : gmap nat CatalogRefresher }.

Inductive Act :=
| Boot (i : nat) (s : RefreshSchedule) (b : Bootstrap) (now : Z) (w : Weather)
| Refresh (i : nat) (trigger : RefreshTrigger) (now : Z) (w : Weather)
| Stop (i : nat).

(** A boot or a refresh, with all its calls to the store, is one step: the calls of
    other replicas come before or after it, not between.  A failed restore does
    not fail the boot; one that is not answered leaves the replica waiting. *)
Definition step (x : World) (a : Act) : World :=
  match a with
  | Boot i s b now w =>
      match refresher_new s b now with
      | Err _ => x
      | Ok r =>
          let '(o, st) := restore r (store x) now w in
          mkWorld st (match o with Some (_, r) => <[i := r]> (replicas x) | None => delete i (replicas x) end)
      end
  | Refresh i trigger now w =>
      match replicas x !! i with
      | None => x
      | Some r =>
          match refresh r (store x) trigger now w with
          | Some (_, r, st) => mkWorld st (<[i := r]> (replicas x))
          | None => mkWorld (store x) (delete i (replicas x))
          end
      end
  | Stop i => mkWorld (store x) (delete i (replicas x))
  end.

Definition run (x : World) (acts : list Act) : World := foldl step x acts.
Definition deployed : World := mkWorld store_empty ∅.

(** ** Lemmas *)

(** What is retained is what it says, and what is active is retained. *)
Record store_ok (s : StoreState) : Prop := {
  so_records i r : retained s !! i = Some r → retained_id r = i ∧ verify sha256 (raw (r_source r)) (payload r) = Ok tt;
  so_pointer p : active_pointer s = Some p → is_Some (retained s !! p_content_id p);
}.

Definition keeps (s s' : StoreState) : Prop := retained s ⊆ retained s'.

Definition serves_retained (s : StoreState) (h : LastKnownGoodCatalog) : Prop :=
  ∀ a, active h = Some a → is_Some (retained s !! content_id (content a)).

Lemma store_empty_ok : store_ok store_empty.
Proof. split; cbn; [intros i r H0; by rewrite lookup_empty in H0|done]. Qed.

Lemma keeps_refl s : keeps s s.
Proof. unfold keeps. reflexivity. Qed.

Lemma keeps_eq s s' : retained s = retained s' → keeps s s'.
Proof. unfold keeps. by intros ->. Qed.

Lemma keeps_trans s1 s2 s3 : keeps s1 s2 → keeps s2 s3 → keeps s1 s3.
Proof. unfold keeps. by intros ? ?; etrans. Qed.

Lemma serves_keeps s s' h : keeps s s' → serves_retained s h → serves_retained s' h.
Proof. intros Hk Hs a Ha. destruct (Hs a Ha) as [r Hr]. exists r. by eapply lookup_weaken. Qed.

Lemma activate_ok s import at_ :
  store_ok s → verify sha256 (raw (r_source import)) (payload import) = Ok tt →
  store_ok (activate s import at_).2 ∧ keeps s (activate s import at_).2 ∧
  is_Some (retained (activate s import at_).2 !! retained_id import).
Proof.
  intros [Hr Hp] Hv. unfold activate, keeps. destruct (retained s !! retained_id import) as [r|] eqn:Hi; cbn.
  - split_and!; [split; [exact Hr|intros p [= <-]; cbn; by exists r]|reflexivity|by exists r].
  - split_and!; [split|by apply insert_subseteq|rewrite lookup_insert_eq; by eexists].
    + intros i r. cbn [retained]. intros [[<- <-]|[Hne Hl]]%lookup_insert_Some; [done|by apply Hr].
    + intros p [= <-]. cbn. rewrite lookup_insert_eq. by eexists.
Qed.

Lemma confirm_ok s id v at_ : store_ok s → store_ok (confirm s id v at_).2 ∧ keeps s (confirm s id v at_).2.
Proof.
  intros Hs. pose proof Hs as [Hr Hp]. unfold confirm.
  destruct (active_pointer s) as [p|] eqn:Ha; [|split; [done|apply keeps_refl]].
  destruct (bool_decide_reflect (p_content_id p = id)) as [<-|]; (split; [|by apply keeps_eq]); [|done].
  split; [exact Hr|]. intros p' [= <-]. exact (Hp p eq_refl).
Qed.

Lemma refuse_ok s r : store_ok s → store_ok (refuse s r) ∧ keeps s (refuse s r).
Proof. intros [Hr Hp]. split; [by split|by apply keeps_eq]. Qed.

Lemma effect_ok {A} s (call : A * StoreState) f :
  store_ok s → store_ok call.2 ∧ keeps s call.2 → store_ok (effect s call f) ∧ keeps s (effect s call f).
Proof. intros Hs Hc. destruct f as [|[]|[]]; cbn; try done; (split; [done|apply keeps_refl]). Qed.

(** A step of one replica: the store stays sound and keeps what it has, and what
    the replica serves afterwards is retained. *)
Definition sound_step (st : StoreState) (r' : CatalogRefresher) (st' : StoreState) : Prop :=
  store_ok st' ∧ keeps st st' ∧ serves_retained st' (catalogue r').

Lemma record_durably_ok st x f : store_ok st → store_ok (record_refusal_durably st x f) ∧ keeps st (record_refusal_durably st x f).
Proof. intros Hs. apply (effect_ok st (tt, refuse st x) f Hs). by apply refuse_ok. Qed.

Lemma count_refusal_ok r st x f :
  store_ok st → serves_retained st (catalogue r) → sound_step st (count_refusal r st x f).1 (count_refusal r st x f).2.
Proof.
  intros Hs Hr. destruct (record_durably_ok st (reason x) f Hs) as [Hs' Hk]. split_and!; [done|done|].
  cbn. apply (serves_keeps st); [done|]. exact Hr.
Qed.

Lemma hydrate_ok a s :
  hydrate a = Ok s → content_id (content s) = retained_id a ∧ source s = r_source a ∧ adapter_new (source_url (r_source a)) = Ok tt.
Proof.
  unfold hydrate. destruct (bool_decide_reflect (schema_version (r_source a) = MODELS_DEV_CATALOG_V1)) as [Hv|]; [|done]. cbn [negb].
  destruct (verify sha256 (raw (r_source a)) (payload a)) as [[]|] eqn:Hver; [|done]. cbn [map_err mbind result_bind].
  destruct (adapter_new _) as [[]|]; [|done]. cbn [map_err mbind result_bind]. unfold parse.
  destruct (normalise (payload a)) as [c|]; [|done]. cbn [map_err mbind result_bind source src_content_id source_snapshot].
  destruct (bool_decide_reflect (content_id c = retained_id a)) as [Hc|]; [|done]. intros [= <-]. cbn. split_and!; [done| |done].
  destruct a as [[u sv v at_ rw id] bytes]. cbn in *. subst sv. unfold source_snapshot, retained_id in *. cbn in Hc. rewrite Hc. f_equal.
  unfold verify in Hver. unfold BlobRef_of. destruct rw as [[] d n]. cbn in Hver.
  destruct (Z.eqb_spec (Z.of_nat (length bytes)) n) as [<-|]; [|done]. cbn in Hver.
  by destruct (decide _) as [<-|].
Qed.

(** What [load] answers of a sound store. *)
Lemma load_ok st :
  store_ok st →
  ∃ o, load st = Ok (mkStored o (st_refusals st) (st_last st)) ∧
  match active_pointer st, o with
  | None, None => True
  | Some p, Some a => retained_id a = p_content_id p ∧ is_Some (retained st !! retained_id a) ∧
      validators (r_source a) = p_validators p ∧ fetched_at (r_source a) = confirmed_at p ∧
      ∃ r, retained st !! p_content_id p = Some r ∧ payload a = payload r ∧ raw (r_source a) = raw (r_source r) ∧
        source_url (r_source a) = source_url (r_source r) ∧ schema_version (r_source a) = schema_version (r_source r)
  | _, _ => False
  end.
Proof.
  intros [Hr Hp]. unfold load. destruct (active_pointer st) as [p|] eqn:Ha; [|by exists None].
  destruct (Hp p eq_refl) as [r Hl]. rewrite Hl. eexists. split; [reflexivity|]. destruct (Hr _ _ Hl) as [Hid _].
  unfold retained_id in *. cbn. rewrite Hid. split_and!; [done|by eexists|done|done|]. by exists r.
Qed.

Lemma serves_none st n l : serves_retained st (mkHolder None n l).
Proof. by intros a. Qed.

Lemma admit_serves st h s at_ :
  is_Some (retained st !! content_id (content s)) → serves_retained st (admit_as_of h s at_).2.
Proof.
  intros Hs. unfold admit_as_of, admit_snapshot. destruct (active h) as [a|]; cbn; [case_bool_decide|]; intros x [= <-]; exact Hs.
Qed.

Lemma seed_verifies : verify sha256 (raw (source seed_snapshot)) SEED_PAYLOAD = Ok tt.
Proof. unfold verify. cbn. rewrite Z.eqb_refl. cbn. by rewrite decide_True. Qed.

Lemma restore_ok r st now w :
  store_ok st → serves_retained st (catalogue r) →
  store_ok (restore r st now w).2 ∧ keeps st (restore r st now w).2 ∧
  match (restore r st now w).1 with Some (_, r') => serves_retained (restore r st now w).2 (catalogue r') | None => True end.
Proof.
  intros Hs Hr. destruct (load_ok st Hs) as (o & Hl & Ho). unfold restore.
  destruct (answered (loads w) tt) as [[[]|e]|]; cbn [mbind result_bind]; [rewrite Hl|by apply (count_refusal_ok r)|by split_and!; [|apply keeps_refl|]].
  cbn [stored_active stored_refusals stored_last]. destruct o as [a|].
  - destruct (active_pointer st) as [p|]; [|done]. destruct Ho as (Hid & Hret & _). destruct (hydrate a) as [s|e] eqn:Hh.
    + destruct (hydrate_ok a s Hh) as (Hc & _). split_and!; [done|apply keeps_refl|]. intros x [= <-]. by rewrite Hc.
    + apply (count_refusal_ok (set_catalogue r (mkHolder None (st_refusals st) (refusal_of <$> st_last st)))); [done|apply serves_none].
  - cbn [bootstrap set_catalogue]. destruct (bootstrap r); [by split_and!; [|apply keeps_refl|apply serves_none]|].
    set (import := mkRetained (source seed_snapshot) SEED_PAYLOAD).
    destruct (activate_ok st import now Hs seed_verifies) as (Ha & Hk & Hin).
    destruct (effect_ok st (activate st import now) (writes w) Hs (conj Ha Hk)) as [Hs' Hk'].
    destruct (writes w) as [|applied e|applied]; cbn [answered].
    + pose proof (admit_serves (activate st import now).2 (mkHolder None (st_refusals st) (refusal_of <$> st_last st)) seed_snapshot now Hin) as Hserve.
      cbn [catalogue set_catalogue effect]. destruct (admit_as_of _ _ _) as [a h]. by split_and!.
    + destruct (count_refusal_ok (set_catalogue r (mkHolder None (st_refusals st) (refusal_of <$> st_last st)))
        (effect st (activate st import now) (Fails applied e)) (refusal (EStore e)) (counts w) Hs' (serves_none _ _ _)) as (H1 & H2 & H3).
      split_and!; [done|by eapply keeps_trans|done].
    + by split_and!.
Qed.

(** What a retained answer may then be recorded as. *)
Lemma retain_ok r st answer asked now f :
  store_ok st →
  store_ok (retain r st answer asked now f).2 ∧ keeps st (retain r st answer asked now f).2 ∧
  match (retain r st answer asked now f).1 with
  | Ok (AnswerUpdated s bytes, k) =>
      f = Done ∧ k ≠ None ∧ src_content_id (source s) = content_id (content s) ∧ verify sha256 (raw (source s)) bytes = Ok tt ∧
      (retain r st answer asked now f).2 = (activate st (mkRetained (source s) bytes) now).2 ∧
      is_Some (retained (retain r st answer asked now f).2 !! content_id (content s))
  | Ok (AnswerUnchanged v, k) => answer = AnswerUnchanged v ∧ k = None ∧
      (retain r st answer asked now f).2 =
        (if can_confirm_unchanged (catalogue r) asked then
           match active (catalogue r) with Some a => (confirm st (content_id (content a)) v now).2 | None => st end
         else st)
  | Err _ => True
  end.
Proof.
  intros Hs. unfold retain. destruct answer as [v|s bytes].
  - destruct (can_confirm_unchanged (catalogue r) asked); [|by split_and!; [|apply keeps_refl|..]].
    destruct (active (catalogue r)) as [a|]; [|by split_and!; [|apply keeps_refl|..]].
    destruct (confirm_ok st (content_id (content a)) v now Hs) as [Hc Hk].
    destruct (effect_ok st (confirm st (content_id (content a)) v now) f Hs (conj Hc Hk)) as [Hs' Hk']. by destruct f; split_and!.
  - destruct (bool_decide_reflect (src_content_id (source s) = content_id (content s))) as [Hid|]; cbn [negb]; [|by split_and!; [|apply keeps_refl|..]].
    destruct (verify sha256 (raw (source s)) bytes) as [[]|e] eqn:Hv; [|by split_and!; [|apply keeps_refl|..]].
    destruct (activate_ok st (mkRetained (source s) bytes) now Hs Hv) as (Ha & Hk & Hin).
    destruct (effect_ok st (activate st (mkRetained (source s) bytes) now) f Hs (conj Ha Hk)) as [Hs' Hk'].
    unfold retained_id in Hin. cbn in Hin. rewrite Hid in Hin. by destruct f; split_and!.
Qed.


(** ** A refresh *)

Lemma validated_schedule_paces s :
  validate_schedule s = Ok tt → Backoff.validate (backoff s) = Ok tt ∧ Backoff.max (backoff s) ≤ interval s.
Proof.
  unfold validate_schedule. destruct (interval s =? 0), (timeout s =? 0), (interval s <? timeout s); try done.
  destruct (Backoff.validate (backoff s)) as [[]|]; [|done]. cbn. destruct (Z.ltb_spec (interval s) (Backoff.max (backoff s))); [done|].
  by intros _.
Qed.

(** What a refresh leaves of a replica and of the store, by its outcome. *)
Definition refreshed (r : CatalogRefresher) (st : StoreState) (trigger : RefreshTrigger) (now : Z) (w : Weather)
    (o : RefreshOutcome) (r' : CatalogRefresher) : Prop :=
  schedule r' = schedule r ∧ bootstrap r' = bootstrap r ∧
  match o with
  | ONotDue due => trigger = Scheduled ∧ now < next_due r ∧ due = next_due r ∧ r' = r
  | ORefused t x retry_in due =>
      t = trigger ∧ catalogue r' = record_refusal (catalogue r) x ∧
      (retry_in, pace r') = Backoff.fail (pace r) ∧ due = now + retry_in ∧ next_due r' = due
  | OAdmitted t a k due =>
      t = trigger ∧ writes w = Done ∧ content_id ∘ content <$> active (catalogue r') = Some (admission_id a) ∧
      consecutive_refusals (catalogue r') = 0 ∧ last_refusal (catalogue r') = None ∧
      pace r' = Backoff.succeed (pace r) ∧ due = now + interval (schedule r) ∧ next_due r' = due
  end.

Lemma refused_spec r h st trigger x now f :
  catalogue r = record_refusal h x →
  ∃ retry_in p, (retry_in, p) = Backoff.fail (pace r) ∧
    refused r st trigger x now f =
      (ORefused trigger x retry_in (now + retry_in), mkRefresher (schedule r) (bootstrap r) (record_refusal h x) p (now + retry_in),
       record_refusal_durably st (reason x) f).
Proof.
  intros Hc. unfold refused, set_pace. destruct (Backoff.fail (pace r)) as [d p] eqn:Hf. exists d, p. by rewrite <- Hc.
Qed.

Lemma can_confirm_active h v : can_confirm_unchanged h v = true → is_Some (active h).
Proof. unfold can_confirm_unchanged. intros [Ha _]%andb_true_iff. by apply bool_decide_eq_true in Ha. Qed.

Lemma attempt_ok r st asked now w :
  store_ok st →
  let '(answer, st') := attempt r st asked now w in
  store_ok st' ∧ keeps st st' ∧
  match answer with
  | Ok (AnswerUpdated s _, _) => writes w = Done ∧ is_Some (retained st' !! content_id (content s))
  | Ok (AnswerUnchanged v, _) => can_confirm_unchanged (catalogue r) asked = true → writes w = Done
  | Err _ => True
  end.
Proof.
  intros Hs. unfold attempt. destruct (answers w) as [[answer|x]|]; [|by split_and!; [|apply keeps_refl|]..].
  pose proof (retain_ok r st answer asked now (writes w) Hs) as (H1 & H2 & H3).
  assert (Hdone : ∀ v k, (retain r st answer asked now (writes w)).1 = Ok (AnswerUnchanged v, k) →
    can_confirm_unchanged (catalogue r) asked = true → writes w = Done).
  { intros v k Hk Hc. destruct (can_confirm_active _ _ Hc) as [a Ha]. unfold retain in Hk. destruct answer as [v'|s bytes].
    - rewrite Hc, Ha in Hk. by destruct (writes w).
    - destruct (negb _); [done|]. destruct (verify _ _ _); [|done]. by destruct (writes w). }
  destruct (retain r st answer asked now (writes w)) as [[[[v|s bytes] k]|e] st']; cbn in H1, H2, H3 |- *; (split; [done|split; [done|]]).
  - by apply (Hdone v k).
  - by destruct H3 as (? & _ & _ & _ & _ & Hin).
  - done.
Qed.

Lemma refresh_ok r st trigger now w :
  store_ok st → serves_retained st (catalogue r) →
  ∃ o r' st', refresh r st trigger now w = Some (o, r', st') ∧ sound_step st r' st' ∧ refreshed r st trigger now w o r'.
Proof.
  intros Hs Hr. unfold refresh. destruct (bool_decide (trigger = Scheduled) && (now <? next_due r)) eqn:Hdue.
  { apply andb_true_iff in Hdue as [Ht Hn]. apply bool_decide_eq_true in Ht. apply Z.ltb_lt in Hn.
    do 3 eexists. split; [reflexivity|]. split; [by split_and!; [|apply keeps_refl|]|by split_and!]. }
  pose proof (attempt_ok r st (held_validators (catalogue r)) now w Hs) as Ha.
  destruct (attempt r st _ now w) as [answer st1]. destruct Ha as (Hs1 & Hk1 & Ha).
  assert (Hr1 : serves_retained st1 (catalogue r)) by by eapply serves_keeps.
  (* a refusal *)
  assert (Hrefusal : ∀ x, let r1 := set_catalogue r (record_refusal (catalogue r) x) in
    ∃ o r' st', Some (refused r1 st1 trigger x now (counts w)) = Some (o, r', st') ∧ sound_step st r' st' ∧ refreshed r st trigger now w o r').
  { intros x r1. destruct (refused_spec r1 (catalogue r) st1 trigger x now (counts w) eq_refl) as (d & p & Hp & ->).
    destruct (record_durably_ok st1 (reason x) (counts w) Hs1) as [Hs2 Hk2]. do 3 eexists. split; [reflexivity|].
    split; [split_and!; [done|by eapply keeps_trans|by apply (serves_keeps st1)]|by split_and!]. }
  destruct answer as [[[v|s bytes] k]|e]; cbn [record_refresh].
  - destruct (can_confirm_unchanged (catalogue r) (held_validators (catalogue r))) eqn:Hc; cbn [negb]; [|apply Hrefusal].
    destruct (can_confirm_active _ _ Hc) as [a Hact]. unfold record_unchanged. rewrite Hact. cbn.
    assert (Hserve : serves_retained st1 (catalogue r)) by done. specialize (Hserve a Hact).
    do 3 eexists. split; [reflexivity|]. split; [by split_and!; [..|intros b [= <-]]|]. split_and!; try done. by apply Ha.
  - destruct Ha as [Hw Hin]. pose proof (admit_serves st1 (catalogue r) s now Hin) as Hserve.
    assert (Hid : content_id ∘ content <$> active (admit_as_of (catalogue r) s now).2 = Some (admission_id (admit_as_of (catalogue r) s now).1) ∧
      consecutive_refusals (admit_as_of (catalogue r) s now).2 = 0 ∧ last_refusal (admit_as_of (catalogue r) s now).2 = None).
    { unfold admit_as_of, admit_snapshot. destruct (active (catalogue r)) as [a|]; [destruct (bool_decide (content_id (content a) = _))|]; split_and!; reflexivity. }
    destruct (admit_as_of (catalogue r) s now) as [a h]. cbn in Hid, Hserve |- *. destruct Hid as (? & ? & ?).
    do 3 eexists. split; [reflexivity|]. by split; split_and!.
  - apply (Hrefusal (refusal e)).
Qed.

(** ** A deployment *)

Definition world_ok (x : World) : Prop :=
  store_ok (store x) ∧ ∀ i r, replicas x !! i = Some r → serves_retained (store x) (catalogue r).

Lemma with_replica_ok x st i r :
  world_ok x → sound_step (store x) r st → world_ok (mkWorld st (<[i := r]> (replicas x))).
Proof.
  intros [Hs Hr] (H1 & H2 & H3). split; [done|]. intros j r'. cbn. intros [[<- <-]|[_ Hl]]%lookup_insert_Some; [done|].
  eapply serves_keeps; [exact H2|by eapply Hr].
Qed.

Lemma without_replica_ok x st i :
  world_ok x → store_ok st → keeps (store x) st → world_ok (mkWorld st (delete i (replicas x))).
Proof.
  intros [Hs Hr] H1 H2. split; [done|]. intros j r'. cbn. intros [_ Hl]%lookup_delete_Some. eapply serves_keeps; [exact H2|by eapply Hr].
Qed.

Lemma world_step_ok x a : world_ok x → world_ok (step x a) ∧ keeps (store x) (store (step x a)).
Proof.
  intros Hx. pose proof Hx as [Hs Hr]. destruct a as [i s b now w|i trigger now w|i]; cbn.
  - unfold refresher_new. destruct (validate_schedule s) as [[]|]; cbn; [|by split; [|apply keeps_refl]].
    set (r := mkRefresher _ _ _ _ _). assert (Hh : serves_retained (store x) (catalogue r)) by by intros a.
    pose proof (restore_ok r (store x) now w Hs Hh) as (H1 & H2 & H3). destruct (restore r (store x) now w) as [[[o r']|] st]; cbn in *.
    + split; [|done]. by apply with_replica_ok.
    + split; [|done]. by apply without_replica_ok.
  - destruct (replicas x !! i) as [r|] eqn:Hi; [|by split; [|apply keeps_refl]].
    destruct (refresh_ok r (store x) trigger now w Hs (Hr i r Hi)) as (o & r' & st & -> & Hsound & _). split; [|apply Hsound].
    by apply with_replica_ok.
  - split; [|apply keeps_refl]. by apply without_replica_ok; [|done|apply keeps_refl].
Qed.

Lemma world_run_ok x acts : world_ok x → world_ok (run x acts) ∧ keeps (store x) (store (run x acts)).
Proof.
  revert x. induction acts as [|a acts IH]; intros x Hx; cbn; [by split; [|apply keeps_refl]|].
  destruct (world_step_ok x a Hx) as [H1 H2]. destruct (IH _ H1) as [H3 H4]. split; [done|by eapply keeps_trans].
Qed.

Lemma deployed_ok : world_ok deployed.
Proof. split; [apply store_empty_ok|]. intros i r. cbn. by rewrite lookup_empty. Qed.

(** ** A replica and the store it writes *)

(** A stored import is one this build reads back as what it is stored under. *)
Record reads_back (r : RetainedCatalog) : Prop := {
  rb_schema : schema_version (r_source r) = MODELS_DEV_CATALOG_V1;
  rb_url : adapter_new (source_url (r_source r)) = Ok tt;
  rb_raw : verify sha256 (raw (r_source r)) (payload r) = Ok tt;
  rb_content : ∃ c, normalise (payload r) = Ok c ∧ content_id c = retained_id r;
}.

Record store_reads (st : StoreState) : Prop := {
  sr_records i r : retained st !! i = Some r → retained_id r = i ∧ reads_back r;
  sr_pointer p : active_pointer st = Some p → is_Some (retained st !! p_content_id p);
}.

(** The replica holds what the store says is active, as of when it says, and
    counts the refusals the store counts. *)
Record in_step (st : StoreState) (h : LastKnownGoodCatalog) : Prop := {
  is_active : (λ p, (p_content_id p, p_validators p, confirmed_at p)) <$> active_pointer st =
              (λ a, (content_id (content a), validators (source a), fetched_at (source a))) <$> active h;
  is_refusals : st_refusals st = consecutive_refusals h;
  is_last : st_last st = reason <$> last_refusal h;
}.

Lemma store_reads_ok st : store_reads st → store_ok st.
Proof. intros [Hr Hp]. split; [|done]. intros i r Hi. by destruct (Hr i r Hi) as [? []]. Qed.

Lemma activate_reads st import now : store_reads st → reads_back import → store_reads (activate st import now).2.
Proof.
  intros Hs Hb. destruct (activate_ok st import now (store_reads_ok st Hs) (rb_raw _ Hb)) as ([_ Hp] & _ & _).
  split; [|done]. destruct Hs as [Hr _]. unfold activate. destruct (retained st !! retained_id import); cbn; [exact Hr|].
  intros i r [[<- <-]|[_ Hl]]%lookup_insert_Some; [done|by apply Hr].
Qed.

Lemma confirm_reads st id v now : store_reads st → store_reads (confirm st id v now).2.
Proof.
  intros Hs. destruct (confirm_ok st id v now (store_reads_ok st Hs)) as [[_ Hp] _]. split; [|done]. destruct Hs as [Hr _].
  unfold confirm. destruct (active_pointer st) as [p|]; [|exact Hr]. by case_bool_decide.
Qed.

Lemma refuse_reads st x : store_reads st → store_reads (refuse st x).
Proof. intros [Hr Hp]. by split. Qed.

Lemma refuse_in_step st h x : in_step st h → in_step (refuse st (reason x)) (record_refusal h x).
Proof. intros [Ha Hn Hl]. split; cbn; [exact Ha|by rewrite Hn|done]. Qed.

(** Activating and admitting the same import. *)
Lemma activate_in_step st h s bytes now :
  in_step st h → src_content_id (source s) = content_id (content s) →
  in_step (activate st (mkRetained (source s) bytes) now).2 (admit_as_of h s now).2.
Proof.
  intros [Ha _ _] Hid. unfold activate, admit_as_of, admit_snapshot, retained_id in *. cbn [r_source]. rewrite Hid.
  destruct (active_pointer st) as [p|], (active h) as [a|]; try done.
  - apply (inj Some) in Ha. injection Ha as Hc Hv Ht. rewrite Hc, Hv. cbn [content source].
    destruct (retained st !! content_id (content s)); destruct (bool_decide (content_id (content a) = content_id (content s))); by split.
  - by destruct (retained st !! content_id (content s)); split.
Qed.

Lemma confirm_in_step st h a v now :
  in_step st h → active h = Some a → in_step (confirm st (content_id (content a)) v now).2 (record_unchanged h v now).2.
Proof.
  intros [Ha _ _] Hh. unfold confirm, record_unchanged. rewrite Hh in Ha |- *. destruct (active_pointer st) as [p|]; [|done].
  apply (inj Some) in Ha. injection Ha as Hc Hv Ht. rewrite bool_decide_true by done. split; cbn; by rewrite ?Hv.
Qed.

Lemma parse_spec u bytes v t s :
  parse u bytes v t = Ok s →
  ∃ c, normalise bytes = Ok c ∧ s = mkSnapshot (source_snapshot u MODELS_DEV_CATALOG_V1 bytes c v t) c.
Proof. unfold parse. destruct (normalise bytes) as [c|]; [|done]. intros [= <-]. by exists c. Qed.

Lemma reference_verifies kind bytes : verify sha256 (BlobRef_of sha256 kind bytes) bytes = Ok tt.
Proof. unfold verify, BlobRef_of. cbn. rewrite Z.eqb_refl. cbn. by rewrite decide_True. Qed.

Lemma parsed_reads_back u bytes v t s :
  adapter_new u = Ok tt → parse u bytes v t = Ok s →
  reads_back (mkRetained (source s) bytes) ∧ src_content_id (source s) = content_id (content s).
Proof.
  intros Hu (c & Hn & ->)%parse_spec. split; [|done]. split; [done|done|apply reference_verifies|by exists c].
Qed.

Lemma seed_url : adapter_new Config.MODELS_DEV_CATALOG_URL = Ok tt.
Proof. vm_compute. reflexivity. Qed.

Lemma seed_reads_back : reads_back (mkRetained (source seed_snapshot) SEED_PAYLOAD).
Proof. split; [done|apply seed_url|apply reference_verifies|]. exists seed_content. split; [apply seed_parses|done]. Qed.

(** What the store answers rehydrates, as of when it was last confirmed. *)
Lemma reads_back_hydrates r v t :
  reads_back r →
  ∃ c, content_id c = retained_id r ∧
    hydrate (mkRetained (set_fetched (set_validators (r_source r) v) t) (payload r)) =
    Ok (mkSnapshot (set_fetched (set_validators (r_source r) v) t) c).
Proof.
  intros [Hs Hu Hv (c & Hn & Hc)]. exists c. split; [done|].
  assert (Hh : ∃ s, hydrate (mkRetained (set_fetched (set_validators (r_source r) v) t) (payload r)) = Ok s ∧ content s = c).
  { unfold hydrate, retained_id in *. cbn. rewrite Hs. rewrite bool_decide_true by done. cbn [negb]. rewrite Hv. cbn. rewrite Hu. cbn.
    unfold parse. rewrite Hn. cbn. rewrite Hc, bool_decide_true by done. by eexists. }
  destruct Hh as (s & Hh & <-). destruct (hydrate_ok _ _ Hh) as (_ & Hsrc & _). rewrite Hh. destruct s as [src c']. cbn in Hsrc |- *. by subst.
Qed.

(** A store that answers every call, and a source that states what the reader
    reads. *)
Record calm (w : Weather) : Prop := {
  calm_loads : loads w = Done;
  calm_writes : writes w = Done;
  calm_counts : counts w = Done;
  calm_answer s bytes : answers w = Some (Ok (AnswerUpdated s bytes)) → ∃ u v t, adapter_new u = Ok tt ∧ parse u bytes v t = Ok s;
}.

Lemma refusals_named (l : option RefusalReason) : reason <$> (refusal_of <$> l) = l.
Proof. by destruct l. Qed.

Lemma restore_calm r st now w :
  store_reads st → calm w →
  ∃ o r' st', restore r st now w = (Some (Ok o, r'), st') ∧ store_reads st' ∧ in_step st' (catalogue r') ∧
    ((active_pointer st ≠ None ∨ bootstrap r = BootEmpty) → st' = st).
Proof.
  intros Hs [Hl Hw _ _]. pose proof Hs as [Hr Hp]. unfold restore. rewrite Hl, Hw. cbn [answered mbind result_bind]. unfold load.
  destruct (active_pointer st) as [p|] eqn:Hact; cbn.
  - destruct (Hp p eq_refl) as [x Hx]. rewrite Hx. cbn. destruct (Hr _ _ Hx) as [Hid Hb].
    destruct (reads_back_hydrates x (p_validators p) (confirmed_at p) Hb) as (c & Hc & ->). do 3 eexists. split; [reflexivity|].
    split; [done|]. split; [|done]. split; cbn; [|done|by rewrite refusals_named]. by rewrite Hact, Hc, Hid.
  - destruct (bootstrap r) eqn:Hboot.
    + do 3 eexists. split; [reflexivity|]. split; [done|]. split; [|done]. split; cbn; [by rewrite Hact|done|by rewrite refusals_named].
    + set (h := mkHolder None (st_refusals st) (refusal_of <$> st_last st)).
      assert (Hh : in_step st h) by (split; cbn; [by rewrite Hact|done|by rewrite refusals_named]).
      pose proof (activate_in_step st h seed_snapshot SEED_PAYLOAD now Hh eq_refl) as Hst.
      pose proof (activate_reads st _ now Hs seed_reads_back) as Hrd. cbn [effect].
      do 3 eexists. split; [reflexivity|].
      split; [exact Hrd|]. split; [exact Hst|]. by intros [?|?].
Qed.

Lemma attempt_calm r st asked now w :
  store_reads st → in_step st (catalogue r) → calm w →
  let '(answer, st') := attempt r st asked now w in
  store_reads st' ∧
  match answer with
  | Ok (AnswerUpdated s _, _) => in_step st' (admit_as_of (catalogue r) s now).2
  | Ok (AnswerUnchanged v, _) =>
      if can_confirm_unchanged (catalogue r) asked then in_step st' (record_unchanged (catalogue r) v now).2 else st' = st
  | Err _ => st' = st
  end.
Proof.
  intros Hs Hh [_ Hw _ Hans]. unfold attempt. rewrite Hw. destruct (answers w) as [[[v|s bytes]|x]|]; [| |done|done]; cbn [retain].
  - destruct (can_confirm_unchanged (catalogue r) asked) eqn:Hc; [|done].
    destruct (can_confirm_active _ _ Hc) as [a Ha]. rewrite Ha. cbn. split; [by apply confirm_reads|by apply confirm_in_step].
  - destruct (Hans s bytes eq_refl) as (u & v & t & Hu & Hp). destruct (parsed_reads_back _ _ _ _ _ Hu Hp) as [Hb Hid].
    rewrite Hid, bool_decide_true by done. cbn [negb]. pose proof (rb_raw _ Hb) as Hv. cbn in Hv. rewrite Hv.
    split; [by apply activate_reads|by apply activate_in_step].
Qed.

Lemma refresh_calm r st trigger now w :
  store_reads st → in_step st (catalogue r) → calm w →
  ∃ o r' st', refresh r st trigger now w = Some (o, r', st') ∧ store_reads st' ∧ in_step st' (catalogue r').
Proof.
  intros Hs Hh Hw. unfold refresh. destruct (_ && _); [by do 3 eexists|].
  pose proof (attempt_calm r st (held_validators (catalogue r)) now w Hs Hh Hw) as Ha.
  destruct (attempt r st _ now w) as [answer st1]. destruct Ha as [Hs1 Ha].
  assert (Hrefusal : ∀ x, st1 = st → let r1 := set_catalogue r (record_refusal (catalogue r) x) in
    ∃ o r' st', Some (refused r1 st1 trigger x now (counts w)) = Some (o, r', st') ∧ store_reads st' ∧ in_step st' (catalogue r')).
  { intros x -> r1. destruct (refused_spec r1 (catalogue r) st trigger x now (counts w) eq_refl) as (d & p & _ & ->).
    rewrite (calm_counts _ Hw). do 3 eexists. split; [reflexivity|]. split; [by apply refuse_reads|by apply refuse_in_step]. }
  destruct answer as [[[v|s bytes] k]|e]; cbn [record_refresh].
  - destruct (can_confirm_unchanged (catalogue r) (held_validators (catalogue r))) eqn:Hc; cbn [negb]; [|by apply Hrefusal].
    destruct (can_confirm_active _ _ Hc) as [a Hact]. unfold record_unchanged in Ha |- *. rewrite Hact in Ha |- *. by do 3 eexists.
  - destruct (admit_as_of (catalogue r) s now) as [a h]. by do 3 eexists.
  - by apply Hrefusal.
Qed.

(** One replica, started and stopped at will. *)
Definition calm_act (i : nat) (a : Act) : Prop :=
  match a with Boot j _ _ _ w | Refresh j _ _ w => j = i ∧ calm w | Stop j => j = i end.

Definition alone (i : nat) (x : World) : Prop :=
  store_reads (store x) ∧ ∀ j r, replicas x !! j = Some r → j = i ∧ in_step (store x) (catalogue r).

Lemma boot_calm i x s b now w :
  store_reads (store x) → calm w → validate_schedule s = Ok tt →
  ∃ r', replicas (step x (Boot i s b now w)) !! i = Some r' ∧
    store_reads (store (step x (Boot i s b now w))) ∧ in_step (store (step x (Boot i s b now w))) (catalogue r') ∧
    replicas (step x (Boot i s b now w)) = <[i := r']> (replicas x) ∧
    ((active_pointer (store x) ≠ None ∨ b = BootEmpty) → store (step x (Boot i s b now w)) = store x).
Proof.
  intros Hs Hw Hv. cbn [step]. unfold refresher_new. rewrite Hv. cbn [mbind result_bind].
  set (r0 := mkRefresher _ _ _ _ _). destruct (restore_calm r0 (store x) now w Hs Hw) as (o & r' & st' & -> & Hs' & Hh & Hsame).
  exists r'. cbn. split_and!; [apply lookup_insert_eq|done|done|done|exact Hsame].
Qed.

Lemma step_calm i x a : alone i x → calm_act i a → alone i (step x a).
Proof.
  intros [Hs Hr] Ha. destruct a as [j s b now w|j trigger now w|j].
  - destruct Ha as [-> Hw]. destruct (validate_schedule s) as [[]|e] eqn:Hv.
    + destruct (boot_calm i x s b now w Hs Hw Hv) as (r' & _ & H1 & H2 & Heq & _). split; [done|]. rewrite Heq.
      intros j r [[<- <-]|[Hne Hl]]%lookup_insert_Some; [done|]. by destruct (Hr j r Hl).
    + cbn [step]. unfold refresher_new. rewrite Hv. by split.
  - destruct Ha as [-> Hw]. cbn. destruct (replicas x !! i) as [r|] eqn:Hi; [|by split]. destruct (Hr i r Hi) as [_ Hh].
    destruct (refresh_calm r (store x) trigger now w Hs Hh Hw) as (o & r' & st & -> & H1 & H2). split; [done|].
    intros j r1. cbn. intros [[<- <-]|[Hne Hl]]%lookup_insert_Some; [done|]. by destruct (Hr j r1 Hl).
  - split; [done|]. intros k r. cbn. intros [_ Hl]%lookup_delete_Some. by apply Hr.
Qed.

Lemma run_calm i x acts : alone i x → Forall (calm_act i) acts → alone i (run x acts).
Proof.
  intros Hx Ha. revert x Hx. induction Ha as [|a acts Hact _ IH]; intros x Hx; [done|]. cbn. apply IH. by apply step_calm.
Qed.

Lemma deployed_alone i : alone i deployed.
Proof. split; [|intros j r; cbn; by rewrite lookup_empty]. split; cbn; [intros j r; by rewrite lookup_empty|done]. Qed.

Lemma in_step_same st h1 h2 :
  in_step st h1 → in_step st h2 → (∀ t, report h1 t = report h2 t) ∧ held_validators h1 = held_validators h2.
Proof.
  intros [Ha1 Hn1 Hl1] [Ha2 Hn2 Hl2]. rewrite Ha1 in Ha2. unfold report, held_validators. rewrite <- Hn1, <- Hl1, Hn2, Hl2.
  destruct (active h1) as [a1|], (active h2) as [a2|]; try done. apply (inj Some) in Ha2. injection Ha2 as Hc Hv Ht. cbn.
  split; [intros t; by rewrite Hc, Ht|by rewrite Hv].
Qed.

(** A running replica is paced by the schedule its configuration validated. *)
Definition paced (r : CatalogRefresher) : Prop :=
  validate_schedule (schedule r) = Ok tt ∧ Backoff.policy (pace r) = backoff (schedule r).

Lemma restore_keeps_pace r st now w :
  match (restore r st now w).1 with Some (_, r') => schedule r' = schedule r ∧ pace r' = pace r | None => True end.
Proof.
  unfold restore. destruct (answered (loads w) tt); [|done]. destruct (_ ← r0; load st) as [stored|e]; [|done].
  destruct (stored_active stored) as [a|]; [by destruct (hydrate a)|]. destruct (bootstrap _); [done|].
  destruct (answered (writes w) tt) as [[]|]; [|done|done]. by destruct (admit_as_of _ _ _).
Qed.

Lemma refreshed_paced r st trigger now w o r' : refreshed r st trigger now w o r' → paced r → paced r'.
Proof.
  intros (Hs & _ & Ho) [Hv Hp]. unfold paced. rewrite Hs. split; [done|]. rewrite <- Hp. destruct o as [t a k due|t x d due|due].
  - by destruct Ho as (_ & _ & _ & _ & _ & -> & _).
  - destruct Ho as (_ & _ & [= _ ->] & _). done.
  - by destruct Ho as (_ & _ & _ & ->).
Qed.

Definition all_paced (x : World) : Prop := ∀ i r, replicas x !! i = Some r → paced r.

Lemma step_paced x a : world_ok x → all_paced x → all_paced (step x a).
Proof.
  intros [Hs Hr] Hx. destruct a as [i s b now w|i trigger now w|i]; cbn.
  - unfold refresher_new. destruct (validate_schedule s) as [[]|] eqn:Hv; cbn; [|done].
    set (r := mkRefresher _ _ _ _ _). pose proof (restore_keeps_pace r (store x) now w) as Hk.
    destruct (restore r (store x) now w) as [[[o r']|] st]; cbn in Hk |- *; intros j r1; cbn.
    + intros [[<- <-]|[_ Hl]]%lookup_insert_Some; [|by eapply Hx]. destruct Hk as [H1 H2]. split; [by rewrite H1|by rewrite H1, H2].
    + intros [_ Hl]%lookup_delete_Some. by eapply Hx.
  - destruct (replicas x !! i) as [r|] eqn:Hi; [|done].
    destruct (refresh_ok r (store x) trigger now w Hs (Hr i r Hi)) as (o & r' & st & -> & _ & Href). intros j r1. cbn.
    intros [[<- <-]|[_ Hl]]%lookup_insert_Some; [|by eapply Hx]. apply (refreshed_paced _ _ _ _ _ _ _ Href). by eapply Hx.
  - intros j r1. cbn. intros [_ Hl]%lookup_delete_Some. by eapply Hx.
Qed.

Lemma run_paced x acts : world_ok x → all_paced x → all_paced (run x acts).
Proof.
  revert x. induction acts as [|a acts IH]; intros x Hx Hp; cbn; [done|]. apply IH; [by apply world_step_ok|by apply step_paced].
Qed.

Lemma deployed_paced : all_paced deployed.
Proof. intros i r. cbn. by rewrite lookup_empty. Qed.

Lemma fail_bounded p : (Backoff.fail p).1 ≤ Backoff.max (Backoff.policy p) ∨ (Backoff.fail p).1 = 0.
Proof. unfold Backoff.fail, Backoff.delay. cbn. destruct (checked_sub _ _); [left; apply Z.le_min_r|by right]. Qed.

Lemma interval_nonzero s : validate_schedule s = Ok tt → interval s ≠ 0.
Proof. unfold validate_schedule. by destruct (Z.eqb_spec (interval s) 0). Qed.

(** ** Properties *)

(** C29: any number of replicas over one store, each restored, refreshed and
    stopped in any order, whatever the source answers and whichever calls of the
    store fail, hang, or lose their answer after taking effect: every import the
    store retains is the bytes its record names, stored under the identity it
    states; what the store calls active is retained, so that a load is never
    answered [Corrupt]; the content every replica serves is retained; and nothing
    retained is ever lost or rewritten. *)
Theorem retained_before_served (acts : list Act) :
  let x := run deployed acts in
  (∀ id r, retained (store x) !! id = Some r → retained_id r = id ∧ verify sha256 (raw (r_source r)) (payload r) = Ok tt) ∧
  (∃ stored, load (store x) = Ok stored) ∧
  (∀ i r a, replicas x !! i = Some r → active (catalogue r) = Some a → is_Some (retained (store x) !! content_id (content a))) ∧
  ∀ more, retained (store x) ⊆ retained (store (run x more)).
Proof.
  intros x. destruct (world_run_ok deployed acts deployed_ok) as [Hx _]. fold x in Hx. pose proof Hx as [Hs Hr]. split_and!.
  - apply Hs.
  - destruct (load_ok (store x) Hs) as (o & Hl & _). by eexists.
  - intros i r a Hi Ha. by apply (Hr i r Hi).
  - intros more. by apply world_run_ok.
Qed.

(** C30: a refresh of a running replica always comes to one outcome, and each
    outcome is what it says.  A scheduled refresh before its time changes
    nothing.  A refusal, whatever refused, leaves the catalogue served exactly as
    it was, is counted once, and is retried after the next delay of the backoff,
    which never exceeds the interval of a healthy replica.  An admission means the
    store answered, the admitted content is served, the run of refusals is over
    and the next refresh is an interval away. *)
Theorem refresh_outcomes (acts : list Act) (i : nat) (r : CatalogRefresher) (trigger : RefreshTrigger) (now : Z) (w : Weather) :
  replicas (run deployed acts) !! i = Some r →
  ∃ o r', fst <$> refresh r (store (run deployed acts)) trigger now w = Some (o, r') ∧
  match o with
  | ONotDue due => trigger = Scheduled ∧ now < next_due r ∧ due = next_due r ∧
      r' = r ∧ refresh r (store (run deployed acts)) trigger now w = Some (o, r, store (run deployed acts))
  | ORefused _ x retry_in due =>
      active (catalogue r') = active (catalogue r) ∧
      consecutive_refusals (catalogue r') = Z.min U32_MAX (consecutive_refusals (catalogue r) + 1) ∧
      last_refusal (catalogue r') = Some x ∧
      retry_in = (Backoff.fail (pace r)).1 ∧ (retry_in ≤ interval (schedule r) ∨ retry_in = 0) ∧
      due = now + retry_in ∧ next_due r' = due
  | OAdmitted _ a _ due =>
      writes w = Done ∧ content_id ∘ content <$> active (catalogue r') = Some (admission_id a) ∧
      consecutive_refusals (catalogue r') = 0 ∧ Backoff.failures (pace r') = 0 ∧
      due = now + interval (schedule r) ∧ next_due r' = due
  end.
Proof.
  intros Hi. destruct (world_run_ok deployed acts deployed_ok) as [[Hs Hr] _].
  pose proof (run_paced deployed acts deployed_ok deployed_paced i r Hi) as [Hv Hp].
  destruct (validated_schedule_paces _ Hv) as [_ Hmax]. specialize (Hr i r Hi). set (st := store (run deployed acts)) in *.
  destruct (refresh_ok r st trigger now w Hs Hr) as (o & r' & st' & Href & _ & Ho). exists o, r'. rewrite Href. split; [done|].
  destruct Ho as (_ & _ & Ho). destruct o as [t a k due|t x d due|due].
  - destruct Ho as (_ & ? & ? & ? & _ & Hpace & ? & ?). split_and!; try done. by rewrite Hpace.
  - destruct Ho as (_ & Hc & Hd & ? & ?). assert (Hf : (Backoff.fail (pace r)).1 = d) by by rewrite <- Hd.
    pose proof (fail_bounded (pace r)) as Hle. rewrite Hc, Hf in *. rewrite Hp in Hle. split_and!; try done.
    destruct Hle; [left|by right]. lia.
  - destruct Ho as (-> & ? & -> & ->). split_and!; try done. unfold refresh in Href.
    rewrite bool_decide_true in Href by done. by destruct (Z.ltb_spec now (next_due r)); [injection Href as <-|lia].
Qed.

(** C31: one replica over a store that answers, with a source that states what the
    reader reads: however it has been refreshed, refused, stopped and started, a
    new process over the same store serves the content the last one served, under
    the same validators, confirmed at the same moment and with the same run of
    refusals behind it, and writes nothing to do so. *)
Theorem restart_resumes (i : nat) (acts : list Act) (r : CatalogRefresher) (s : RefreshSchedule) (b : Bootstrap) (now : Z) (w : Weather) :
  Forall (calm_act i) acts →
  replicas (run deployed acts) !! i = Some r →
  calm w → validate_schedule s = Ok tt →
  active (catalogue r) ≠ None ∨ b = BootEmpty →
  let x' := step (step (run deployed acts) (Stop i)) (Boot i s b now w) in
  ∃ r', replicas x' !! i = Some r' ∧ store x' = store (run deployed acts) ∧
    (∀ t, report (catalogue r') t = report (catalogue r) t) ∧ held_validators (catalogue r') = held_validators (catalogue r).
Proof.
  intros Ha Hi Hw Hv Hb x'. pose proof (run_calm i deployed acts (deployed_alone i) Ha) as [Hs Hr].
  destruct (Hr i r Hi) as [_ Hh]. set (x := run deployed acts) in *.
  destruct (boot_calm i (step x (Stop i)) s b now w Hs Hw Hv) as (r' & Hl & _ & Hh' & _ & Hsame). exists r'. split; [done|].
  assert (Hst : store x' = store x).
  { apply Hsame. destruct Hb as [Hact|]; [left|by right]. intros Hnone. apply Hact. pose proof (is_active _ _ Hh) as He.
    cbn in Hnone. rewrite Hnone in He. by destruct (active (catalogue r)). }
  split; [done|]. apply (in_step_same (store x)); [by rewrite <- Hst|done].
Qed.

End Catalog.

(** ** A concrete reader: a document is its bytes, and starts with a brace *)

#[local] Instance demo_documents : CatalogDocuments.
Proof.
  refine {|
    Content := list Z;
    content_id := λ c, c;
    normalise := λ bytes, match bytes with 123 :: _ => Ok bytes | _ => Err (refusal_of NotJson) end;
    sha256 := λ bytes, bytes;
    SEED_PAYLOAD := [123; 0];
    seed_content := [123; 0];
    seed_validators := no_validators;
    seed_fetched_at := 0;
  |}.
  reflexivity.
Defined.

Definition demo_schedule : RefreshSchedule :=
  Config.mkSchedule (21600 * NANOS_PER_SEC) (60 * NANOS_PER_SEC)
    (Backoff.mkPolicy (60 * NANOS_PER_SEC) (1800 * NANOS_PER_SEC) 2).

Definition document (c : list Z) (tag : string) : option (result Refusal CatalogRefresh) :=
  Some (s ← parse Config.MODELS_DEV_CATALOG_URL c (mkValidators (Some tag) None) 0; Ok (AnswerUpdated s c)).
Definition fair (a : option (result Refusal CatalogRefresh)) : Weather := mkWeather a Done Done Done.

(** Started empty, refreshed, refused, confirmed. *)
Definition demo_acts : list Act :=
  [Boot 0 demo_schedule BootEmpty 0 (fair None);
   Refresh 0 Scheduled 10 (fair (document [123; 1] "v1"));
   Refresh 0 Manual 20 (fair None);
   Refresh 0 Manual 30 (fair (Some (Ok (AnswerUnchanged (mkValidators (Some "v2") None)))));
   Refresh 0 Manual 40 (fair (Some (Err (refusal_of Denied))))].

Definition demo_replica : CatalogRefresher := default (mkRefresher demo_schedule BootEmpty holder_new (Backoff.new (backoff demo_schedule)) 0) (replicas (run deployed demo_acts) !! 0%nat).

Lemma demo_runs : replicas (run deployed demo_acts) !! 0%nat = Some demo_replica.
Proof. vm_compute. reflexivity. Defined.

Lemma fair_refusal_calm x : calm (fair (Some (Err x))).
Proof. by split. Qed.

Lemma fair_unchanged_calm v : calm (fair (Some (Ok (AnswerUnchanged v)))).
Proof. by split. Qed.

Lemma fair_silence_calm : calm (fair None).
Proof. by split. Qed.

Lemma fair_document_calm c tag : calm (fair (document c tag)).
Proof.
  split; [done..|]. intros s bytes. cbn [answers fair]. unfold document.
  destruct (parse _ _ _ _) as [s'|] eqn:Hp; [|done]. cbn. intros [= <- <-]. do 3 eexists. split; [apply seed_url|exact Hp].
Qed.

Lemma demo_acts_calm : Forall (calm_act 0) demo_acts.
Proof.
  repeat constructor; first [reflexivity|apply fair_silence_calm|apply fair_document_calm|apply fair_unchanged_calm|apply fair_refusal_calm].
Qed.

Example refresh_outcomes_witness :
  ∃ o r', fst <$> refresh demo_replica (store (run deployed demo_acts)) Scheduled 50 (fair None) = Some (o, r') ∧ o = ONotDue (next_due demo_replica).
Proof.
  destruct (refresh_outcomes demo_acts 0 demo_replica Scheduled 50 (fair None) demo_runs) as (o & r' & Ho & _).
  exists o, r'. split; [exact Ho|]. by vm_compute in Ho; apply (inj Some) in Ho; injection Ho as <- _.
Defined.

Example restart_resumes_witness :
  ∃ r', (∀ t, report (catalogue r') t = report (catalogue demo_replica) t) ∧
    report (catalogue r') 100 = (Some ([123; 1], 30, 70), 1, Some Denied).
Proof.
  destruct (restart_resumes 0 demo_acts demo_replica demo_schedule BootEmpty 60 (fair None) demo_acts_calm demo_runs fair_silence_calm
    eq_refl (or_intror eq_refl)) as (r' & _ & _ & Hr & _).
  exists r'. split; [exact Hr|]. by rewrite (Hr 100).
Defined.

(** An activation that took effect and whose answer was lost: the replica goes on
    serving the catalogue before it.  Should the source go back to that one, its
    [304] is recorded as a confirmation by the replica and answered [false] by the
    store, which nothing reads. *)
Definition lost_answer_acts : list Act :=
  [Boot 0 demo_schedule BootEmpty 0 (fair None);
   Refresh 0 Scheduled 10 (fair (document [123; 1] "v1"));
   Refresh 0 Manual 20 (mkWeather (document [123; 2] "v2") Done (Hangs true) Done)].

Example lost_activation_diverges :
  let x := run deployed lost_answer_acts in
  let x' := step x (Refresh 0 Manual 30 (fair (Some (Ok (AnswerUnchanged no_validators))))) in
  let serving (x : World) := r ← replicas x !! 0%nat; (content_id ∘ content <$> active (catalogue r)) in
  let stored (x : World) := p_content_id <$> active_pointer (store x) in
  serving x = Some [123; 1] ∧ stored x = Some [123; 2] ∧
  (confirm (store x) [123; 1] no_validators 30).1 = false ∧
  serving x' = Some [123; 1] ∧ stored x' = Some [123; 2] ∧
  (λ r, (report (catalogue r) 30).1.1) <$> replicas x' !! 0%nat = Some (Some ([123; 1], 30, 0)) ∧
  (confirmed_at <$> active_pointer (store x')) = Some 20.
Proof. vm_compute. split_and!; reflexivity. Qed.

End Catalog.
